(* ===== verification/_CoqProject ===== *)
-Q . S2P
Prelude.v
Net.v
Errors.v
Metrics.v
MetricsTheorems.v
Shreds.v
Tracker.v
FecSet.v
Packets.v
Deshred.v
DeshredInv.v
Delivery.v
Complete.v
Recovery.v
Erasure.v
Pending.v
Reconstructor.v
Prompt.v
Missed.v
Toy.v
ToyRuns.v
ToyErasure.v
TrackerRefinement.v
ShredTheorems.v
DeshredTheorems.v
Prom.v
Forwarder.v
ForwarderProofs.v
ForwarderTheorems.v
Destinations.v
NetText.v
Ipv6Text.v
Multicast.v
MulticastTheorems.v
ForwardThreads.v
ThreadTheorems.v
Server.v
ServiceTheorems.v
Client.v
Heartbeat.v
HeartbeatTheorems.v
TokenAuth.v
TokenAuthTheorems.v
Main.v
MainTheorems.v
System.v
SystemProofs.v
SystemTheorems.v
Process.v
ProcessTheorems.v
