(* ===== verification/Prelude.v ===== *)
(** * The shredstream proxy: a verification development

    The proxy receives shreds (erasure-coded pieces of Solana blocks) as UDP
    packets, forwards them to a set of destinations, and, when its gRPC service
    is on, reassembles them into entries that it streams to subscribers.  In
    Shredstream mode it also keeps a subscription at a block engine alive with
    authenticated heartbeats.  This library translates the Rust code under
    src/proxy/src (and the example client under src/examples) into executable
    definitions and proves what makes each part correct.

    ** Conventions

    A Rust function that can panic returns an [outcome]; one that returns
    [Result] returns a [result] (Errors.v).  Machine integers are [Z], and
    [arith w] is [+] at width [w]: it panics when [overflow_checks] is on (a debug
    build) and wraps around when it is off (a release build); theorems that need
    the release build say [overflow_checks = false].  A [HashMap] is a [gmap]; a
    [HashSet] of shreds is a list in an unknown order.  A thread's loop is a
    function of the finite sequence of things it meets (the exit flag at the loop
    condition and what [select!], the channel or the server gives), so a theorem
    about all such sequences is about every prefix of every run; no loop needs
    fuel.  [log] fields and lists of calls record effects that nothing reads
    back.  Code outside the repository (the Solana ledger crate, the deduper,
    tonic, serde_json, the operating system) is a parameter: a class of
    operations ([ShredLib], [PacketLib], [ForwardLib], [RegistryLib], [AuthLib],
    [Host], [Listening], [Startup], [StreamerLib]), with a class of laws where the
    code relies on documented behaviour ([ShredLibLaws], [PacketLibLaws],
    [ForwardLaws], [RegistryLaws], [ListeningLaws], [StreamerLaws]).
    Toy, ToyRuns and ToyErasure give a concrete ledger library that satisfies the
    laws; the witnesses run the definitions on it.

    ** Files

    - Prelude: outcomes, machine arithmetic, vectors, sorting, tactics, hints.
    - Net, NetText, Ipv6Text: [std::net] addresses, their parser and printer.
    - Errors: the error enums of main.rs and token_authenticator.rs.
    - Metrics, MetricsTheorems: [ShredMetrics] of forwarder.rs, [report], [reset].
    - Shreds: shreds and [ComparableShred] of deshred.rs; the ledger interface.
    - Tracker: [ShredsStateTracker], [update_state_tracker], [get_indexes].
    - TrackerRefinement: the tracker's vectors refine a map and two sets.
    - FecSet: [get_data_shred_info] and the order of the shreds for recovery.
    - Packets: packets and the trace shred decoder.
    - Deshred: [reconstruct_shreds], one definition per loop body.
    - DeshredInv, Delivery, Complete, Recovery, Erasure, Pending, Missed: the
      invariant [recon_wf] and the lemmas on delivery, completeness, recovery, loss
      tolerance (in one call, and over several) and dropped slots.
    - ShredTheorems, DeshredTheorems: the properties of deshred.rs.
    - Prom: the metrics, the registry and the scrape server of prom.rs.
    - Forwarder, ForwarderProofs, ForwarderTheorems:
      [recv_from_channel_and_send_multiple_dest].
    - Reconstructor, Prompt: the shred_reconstructor thread, and that it delivers a
      segment as soon as it can.
    - Destinations: [resolve_hostname_port], [fetch_unioned_destinations] and the
      refresh thread.
    - ForwardThreads, ThreadTheorems: [start_forwarder_threads] with the sockets it
      binds, the forwarder thread, the accessory thread.
    - Server, ServiceTheorems: server.rs, and the path from packets to subscribers.
    - Client: the example client, and the whole path end to end.
    - Heartbeat, HeartbeatTheorems: both loops of heartbeat.rs and what a heartbeat
      says.
    - TokenAuth, TokenAuthTheorems: token_authenticator.rs, [get_grpc_client].
    - Multicast, MulticastTheorems: multicast_config.rs.
    - Main, MainTheorems: the arguments, [main], subscribe-only mode, the end of
      the process and the shutdown notifier of main.rs.
    - System, SystemProofs, SystemTheorems: the threads of the proxy together, as
      one machine over the shared metrics, destinations, channels and exit flag.
    - Process, ProcessTheorems: the process: that machine with the shutdown channel
      its tokens come from, the listener threads, the statistics and the Prometheus
      thread, and the joins of [main].

    ** What the theorems show

    - Reassembly is sound: on shreds the ledger crate accepts, no call panics, the
      state stays well formed and bounded, every entry decodes one run of
      consecutive data shreds that begins behind a completed segment or an unknown
      shred ([entries_sound]), and no data shred is delivered twice.  It is also
      complete: a segment whose shreds arrive is delivered, nothing decodable is
      left behind at a touched FEC set, any [n] shreds of a set of [n] data shreds
      that starts a slot and is one segment recover the rest and deliver it, over
      however many batches they arrive ([any_n_shreds_deliver]), and what is given
      up is reported exactly.
    - The tracker's vectors refine an abstract slot, a finite map of known shreds
      and two sets, for every sequence of operations ([tracker_refines_view]); the
      helpers are equal to their declarative descriptions ([get_indexes],
      [get_data_shred_info]) or lawful ([ComparableShred]).
    - The whole proxy: however its threads interleave, the invariants of the parts
      hold together ([proxy_invariant]: what is broadcast, sent out and streamed,
      and the bound of the channel in between); a set that arrives with losses at a
      forwarder thread reaches a connected subscriber
      ([lossy_set_reaches_subscriber]); whenever the data shreds of a segment are
      all there, in whatever order and batches they came or were recovered, the
      segment has been broadcast ([no_segment_held_back]); once the exit flag is
      set no thread begins to wait again, and every one of them ends within three of
      its steps, while one that waits already still handles what it gets
      ([exit_stops_every_thread]).  Two interactions
      differ from what is meant: the heartbeat's check for silence depends on the
      metrics interval ([heartbeat_misses_traffic]), and the totals at exit miss the
      last interval ([exit_total_short]).
    - Every run of the process is one of that machine together with one of the
      shutdown channel (lemma [process_run_refines]); a signal ends every thread
      [main] joins, the listeners included, under every schedule in which the signal
      thread sends its tokens and each thread makes the steps it has left
      ([signal_ends_main]); a panic need not: its one token may go to a thread that
      does not need it, and then the Prometheus thread never ends
      ([panic_strands_prometheus]).
    - Forwarding sends every payload that is not discarded, as deduplication leaves
      the batch, exactly once to every current destination; the counters account
      for all of it, also while [reset] interleaves with counting.
    - Destinations are those of the last successful fetch, without duplicates.
    - Subscribers get a gap-free prefix of what was reassembled, and the example
      client prints exactly that.
    - The heartbeat loops leave no connection behind, restart exactly when the
      cumulative counter they read stands still, and count every heartbeat; requests carry the last issued token, and
      renewing comes to rest while the service is up.  A heartbeat announces the
      address, as text that parses back to it, and the port that was given, which the
      listeners are bound to exactly if it is not 0 ([heartbeat_announces_socket]).
    - Multicast groups are exactly the host routes of the device, printing and
      parsing addresses and routes is a round trip, and each wanted group is joined unless
      the system refuses.
    - [main] starts exactly with well-formed arguments and a port below 65535
      ([main_start_outcomes]) and wires its parts consistently; it returns unless a thread it joins has panicked, and does not
      join the reconstructor ([main_exit]); the shutdown channel serves every
      waiting thread.

    ** Bounds

    The constants are the code's: 1024 batches wait for the reconstructor
    ([RECONSTRUCT_CHANNEL]), the broadcast channel is created for 100 entries
    ([ENTRY_CHANNEL]; it retains that number rounded up, so the retained number is
    an argument of the composition, [retained]), 50 slots are kept behind the highest one
    ([SLOT_LOOKBACK]), 256 shutdown tokens are sent per signal, which is enough for
    the [n + 5] threads that take one while [n + 5 <= 256] ([n] forwarder threads).
    The one recursion on a count of its own is the printer of a 16-bit group
    ([lower_hex]), with its at most four digits.

    ** Not modelled

    Command-line parsing (clap), log lines other than those named in the models,
    and timing: a tick may come at any moment.  What [streamer::receiver] does with
    its socket (a listener is known by its thread's end only; the packet batches
    are inputs of the forwarder threads) and what the statistics thread prints, the
    TLS and HTTP/2 transport, the generated protocol code of jito_protos.  In the
    composition the check of the exit flag and what follows it in an iteration are
    two steps, and so are [report] and [reset]; handling one received thing is one
    step.  The deduper, sockets and clocks may change between any two steps.  A
    panic of a thread ends a run, except for its hook's part in the shutdown
    ([Panic] of Process.v), which says nothing of which thread it was; the threads
    have bound their send sockets ([forwarder_thread]).  The finer interleavings
    are modelled where a property depends on them: the atomic operations of
    [reset] against counting threads, and the shutdown channel.  Loss tolerance is
    proved for the first set of a slot: once another set of the slot is delivered,
    a code shred may be dropped because of its index ([code_shred_dropped]). *)

From Stdlib Require Export ZArith Lia Sorted Permutation.
From stdpp Require Export base tactics option list gmap strings numbers sorting.

#[global] Open Scope Z_scope.

(** * Outcomes: what a Rust computation can end in

    A Rust function that indexes a [Vec], unwraps an [Option] or adds machine
    integers either returns a value or panics.  [outcome] is that choice; a
    panic unwinds the thread, so it carries no state. *)

Inductive panic :=
  | IndexOutOfBounds
  | SliceOutOfBounds
  | UnwrapNone
  | ArithOverflow
  | ExplicitPanic (msg : string)
  | LoopBoundReached.

Inductive outcome (A : Type) :=
  | Ok (a : A)
  | Panicked (p : panic).
Arguments Ok {A} _.
Arguments Panicked {A} _.

#[global] Instance outcome_ret : MRet outcome := λ A a, Ok a.
#[global] Instance outcome_bind : MBind outcome := λ A B f m,
  match m with Ok a => f a | Panicked p => Panicked p end.

(** [returns m Q]: [m] does not panic and its value satisfies [Q] (total).
    [ensures m Q]: if [m] does not panic its value satisfies [Q] (partial). *)
Definition returns {A} (m : outcome A) (Q : A → Prop) : Prop :=
  match m with Ok a => Q a | Panicked _ => False end.
Definition ensures {A} (m : outcome A) (Q : A → Prop) : Prop :=
  match m with Ok a => Q a | Panicked _ => True end.

(** A [for] loop over a vector whose body may panic. *)
Fixpoint foldM {S A} (f : S → A → outcome S) (s : S) (l : list A) : outcome S :=
  match l with
  | [] => Ok s
  | x :: l => s' ← f s x; foldM f s' l
  end.

Fixpoint mapM_outcome {A B} (f : A → outcome B) (l : list A) : outcome (list B) :=
  match l with
  | [] => Ok []
  | x :: l => y ← f x; ys ← mapM_outcome f l; Ok (y :: ys)
  end.

(** * Vectors: [v[i]], [v[i] = x] and [v[a..=b]] with their bounds checks *)

Definition vec_get {A} (l : list A) (i : nat) : outcome A :=
  match l !! i with Some x => Ok x | None => Panicked IndexOutOfBounds end.

Definition vec_set {A} (l : list A) (i : nat) (x : A) : outcome (list A) :=
  if decide (i < length l)%nat then Ok (<[i:=x]> l) else Panicked IndexOutOfBounds.

Definition vec_slice_incl {A} (l : list A) (a b : nat) : outcome (list A) :=
  if decide (a ≤ S b ∧ S b ≤ length l)%nat then Ok (take (S b - a) (drop a l))
  else Panicked SliceOutOfBounds.

Definition vec_prefix {A} (l : list A) (n : nat) : outcome (list A) :=
  if decide (n ≤ length l)%nat then Ok (take n l) else Panicked SliceOutOfBounds.

Definition unwrap {A} (o : option A) : outcome A :=
  match o with Some a => Ok a | None => Panicked UnwrapNone end.

(** * Machine integers

    Unsigned [w]-bit values are [Z] in [0, 2^w).  [BuildProfile] is Cargo's
    [overflow-checks] setting: with it, [+] and [-] panic on overflow; without
    it (the release profile) they wrap. *)

Class BuildProfile := overflow_checks : bool.

Definition in_width (w z : Z) : Prop := 0 ≤ z < 2 ^ w.
#[global] Instance in_width_dec w z : Decision (in_width w z).
Proof. unfold in_width. apply _. Defined.

Definition wrap (w z : Z) : Z := z mod 2 ^ w.

Definition arith `{BuildProfile} (w z : Z) : outcome Z :=
  if decide (in_width w z) then Ok z
  else if overflow_checks then Panicked ArithOverflow else Ok (wrap w z).

Definition saturating_sub (a b : Z) : Z := Z.max 0 (a - b).

(** * Sorting, [dedup] and [unique] *)

Section sorting_defs.
Context {A : Type} (leb : A → A → bool).

(** A stable sort: [x] goes before the first element that is not below it. *)
Fixpoint insert_sorted (x : A) (l : list A) : list A :=
  match l with
  | [] => [x]
  | y :: l' => if leb x y then x :: l else y :: insert_sorted x l'
  end.

Fixpoint sort_by (l : list A) : list A :=
  match l with
  | [] => []
  | x :: l => insert_sorted x (sort_by l)
  end.
End sorting_defs.

(** [Vec::dedup]: of each run of equal neighbours keeps one. *)
Fixpoint dedup {A} `{EqDecision A} (l : list A) : list A :=
  match l with
  | [] => []
  | x :: l' =>
      match l' with
      | [] => [x]
      | y :: _ => if decide (x = y) then dedup l' else x :: dedup l'
      end
  end.

(** [Itertools::unique]: the first occurrence of every element, in order. *)
Fixpoint unique_from {A} `{EqDecision A} (seen : list A) (l : list A) : list A :=
  match l with
  | [] => []
  | x :: l =>
      if decide (x ∈ seen) then unique_from seen l
      else x :: unique_from (x :: seen) l
  end.
Definition unique {A} `{EqDecision A} (l : list A) : list A := unique_from [] l.

Definition sumZ {A} (f : A → Z) (l : list A) : Z := foldr (λ x acc, f x + acc) 0 l.

(** * Automation *)

Create HintDb rust.
Create HintDb metrics.
Create Rewrite HintDb metrics.
Create Rewrite HintDb rust.

(** Splits the [outcome]s a hypothesis or goal scrutinises. *)
Ltac outcome_simpl :=
  repeat first
    [ progress simplify_eq/=
    | match goal with
      | H : returns (Ok _) _ |- _ => cbn [returns] in H
      | H : ensures (Ok _) _ |- _ => cbn [ensures] in H
      | H : returns (Panicked _) _ |- _ => destruct H
      end ].

(** * Lemmas: outcomes *)

Lemma returns_Ok {A} (m : outcome A) Q : returns m Q ↔ ∃ a, m = Ok a ∧ Q a.
Proof. destruct m; simpl; naive_solver. Qed.

Lemma ensures_Ok {A} (m : outcome A) Q : ensures m Q ↔ ∀ a, m = Ok a → Q a.
Proof. destruct m; simpl; naive_solver. Qed.

Lemma returns_ensures {A} (m : outcome A) Q : returns m Q → ensures m Q.
Proof. by destruct m. Qed.

Lemma returns_mono {A} (m : outcome A) (P Q : A → Prop) :
  returns m P → (∀ a, P a → Q a) → returns m Q.
Proof. destruct m; simpl; auto. Qed.

Lemma ensures_mono {A} (m : outcome A) (P Q : A → Prop) :
  ensures m P → (∀ a, P a → Q a) → ensures m Q.
Proof. destruct m; simpl; auto. Qed.

Lemma returns_and {A} (m : outcome A) (P Q : A → Prop) :
  returns m P → ensures m Q → returns m (λ a, P a ∧ Q a).
Proof. destruct m; simpl; auto. Qed.

Lemma returns_bind {A B} (m : outcome A) (f : A → outcome B) P Q :
  returns m P → (∀ a, P a → returns (f a) Q) → returns (m ≫= f) Q.
Proof. destruct m; simpl; [auto|done]. Qed.

Lemma ensures_bind {A B} (m : outcome A) (f : A → outcome B) P Q :
  ensures m P → (∀ a, P a → ensures (f a) Q) → ensures (m ≫= f) Q.
Proof. destruct m; simpl; auto. Qed.

Lemma bind_Ok {A B} (m : outcome A) (f : A → outcome B) b :
  m ≫= f = Ok b ↔ ∃ a, m = Ok a ∧ f a = Ok b.
Proof. destruct m; simpl; naive_solver. Qed.

Lemma foldM_app {S A} (f : S → A → outcome S) s l1 l2 :
  foldM f s (l1 ++ l2) = (s' ← foldM f s l1; foldM f s' l2).
Proof.
  revert s. induction l1 as [|x l1 IH]; intros s; [done|].
  simpl. destruct (f s x); simpl; auto.
Qed.

(** Loop invariants: the partial and the total rule of a [for] loop. *)
Lemma foldM_ensures {S A} (f : S → A → outcome S) (I : S → Prop) s l :
  I s → (∀ s x, x ∈ l → I s → ensures (f s x) I) → ensures (foldM f s l) I.
Proof.
  revert s. induction l as [|x l IH]; intros s Hs Hf; [done|]. simpl.
  eapply ensures_bind; [apply Hf; [left|done]|].
  intros s' Hs'. apply IH; [done|]. intros. apply Hf; [by right|done].
Qed.

Lemma foldM_returns {S A} (f : S → A → outcome S) (I : S → Prop) s l :
  I s → (∀ s x, x ∈ l → I s → returns (f s x) I) → returns (foldM f s l) I.
Proof.
  revert s. induction l as [|x l IH]; intros s Hs Hf; [done|]. simpl.
  eapply returns_bind; [apply Hf; [left|done]|].
  intros s' Hs'. apply IH; [done|]. intros. apply Hf; [by right|done].
Qed.

Lemma mapM_outcome_returns {A B} (f : A → outcome B) (g : A → B) l :
  (∀ x, x ∈ l → f x = Ok (g x)) → mapM_outcome f l = Ok (g <$> l).
Proof.
  induction l as [|x l IH]; intros H; [done|]. simpl.
  rewrite H by left. simpl. rewrite IH; [done|]. intros; apply H; by right.
Qed.

Lemma mapM_outcome_Forall2 {A B} (f : A → outcome B) l l' :
  mapM_outcome f l = Ok l' → Forall2 (λ x y, f x = Ok y) l l'.
Proof.
  revert l'. induction l as [|x l IH]; intros l' H; simpl in H; [naive_solver|].
  apply bind_Ok in H as (y & Hy & H). apply bind_Ok in H as (ys & Hys & H).
  simplify_eq. constructor; auto.
Qed.

(** * Lemmas: vectors *)

Lemma vec_get_Ok {A} (l : list A) i x : vec_get l i = Ok x ↔ l !! i = Some x.
Proof. unfold vec_get. destruct (l !! i); naive_solver. Qed.

Lemma vec_get_lookup {A} (l : list A) i x : l !! i = Some x → vec_get l i = Ok x.
Proof. apply vec_get_Ok. Qed.

Lemma vec_get_lt {A} (l : list A) i : (i < length l)%nat → ∃ x, vec_get l i = Ok x ∧ l !! i = Some x.
Proof. intros [x Hx]%lookup_lt_is_Some_2. exists x. by rewrite vec_get_Ok. Qed.

Lemma vec_get_returns {A} (l : list A) i Q :
  (i < length l)%nat → (∀ x, l !! i = Some x → Q x) → returns (vec_get l i) Q.
Proof.
  intros [x Hx]%lookup_lt_is_Some_2 HQ. unfold vec_get. rewrite Hx. simpl. auto.
Qed.

Lemma vec_set_Ok {A} (l l' : list A) i x :
  vec_set l i x = Ok l' ↔ (i < length l)%nat ∧ l' = <[i:=x]> l.
Proof. unfold vec_set. case_decide; naive_solver. Qed.

Lemma vec_set_lt {A} (l : list A) i x :
  (i < length l)%nat → vec_set l i x = Ok (<[i:=x]> l).
Proof. intros. by apply vec_set_Ok. Qed.

Lemma vec_prefix_Ok {A} (l l' : list A) n :
  vec_prefix l n = Ok l' ↔ (n ≤ length l)%nat ∧ l' = take n l.
Proof. unfold vec_prefix. case_decide; naive_solver. Qed.

Lemma vec_slice_incl_lookup {A} (l l' : list A) a b j :
  vec_slice_incl l a b = Ok l' → (a + j ≤ b)%nat → l' !! j = l !! (a + j)%nat.
Proof.
  unfold vec_slice_incl. case_decide; [|done]. intros [= <-] Hj.
  rewrite lookup_take_lt by lia. by rewrite lookup_drop.
Qed.

Lemma vec_slice_incl_length {A} (l l' : list A) a b :
  vec_slice_incl l a b = Ok l' → length l' = (S b - a)%nat ∧ (S b ≤ length l)%nat.
Proof.
  unfold vec_slice_incl. case_decide as Hd; [|done]. intros [= <-].
  rewrite length_take, length_drop. lia.
Qed.

(** [l] over a range is [map] of the lookups: the elements of a slice are the
    ones at the indices [a..=b]. *)
Lemma vec_slice_incl_elem_of {A} (l l' : list A) a b x :
  vec_slice_incl l a b = Ok l' → x ∈ l' ↔ ∃ j, (a ≤ j ≤ b)%nat ∧ l !! j = Some x.
Proof.
  intros Hs. pose proof (vec_slice_incl_length _ _ _ _ Hs) as [Hlen Hb].
  rewrite list_elem_of_lookup. split.
  - intros [j Hj]. pose proof (lookup_lt_Some _ _ _ Hj).
    exists (a + j)%nat. split; [lia|].
    erewrite <-vec_slice_incl_lookup; [done|done|lia].
  - intros (j & Hj & Hx). exists (j - a)%nat.
    erewrite vec_slice_incl_lookup; [|done|lia].
    by replace (a + (j - a))%nat with j by lia.
Qed.

#[export] Hint Rewrite @length_insert @length_replicate : rust.

(** * Lemmas: machine integers *)

Lemma wrap_small w z : in_width w z → wrap w z = z.
Proof. unfold wrap, in_width. intros. by rewrite Z.mod_small. Qed.

Lemma wrap_range w z : 0 ≤ w → in_width w (wrap w z).
Proof. unfold wrap, in_width. intros. apply Z.mod_pos_bound. lia. Qed.

Lemma wrap_add_l w a b : wrap w (wrap w a + b) = wrap w (a + b).
Proof. unfold wrap. by rewrite Zplus_mod_idemp_l. Qed.

Lemma wrap_add_r w a b : wrap w (a + wrap w b) = wrap w (a + b).
Proof. unfold wrap. by rewrite Zplus_mod_idemp_r. Qed.

Lemma wrap_wrap w a : wrap w (wrap w a) = wrap w a.
Proof. unfold wrap. by rewrite Zmod_mod. Qed.

Lemma arith_small `{BuildProfile} w z : in_width w z → arith w z = Ok z.
Proof. unfold arith. intros. by rewrite decide_True. Qed.

Lemma arith_wrap `{BuildProfile} w z r : arith w z = Ok r → r = wrap w z.
Proof.
  unfold arith. case_decide; [intros [= ->]; by rewrite wrap_small|].
  destruct overflow_checks; [done|]. by intros [= ->].
Qed.

Lemma arith_release `{BuildProfile} w z : overflow_checks = false → arith w z = Ok (wrap w z).
Proof.
  intros Ho. unfold arith. case_decide; [by rewrite wrap_small|]. by rewrite Ho.
Qed.

#[export] Hint Rewrite wrap_add_l wrap_add_r wrap_wrap : rust.

(** * Lemmas: sorting *)

Section sorting_lemmas.
Context {A : Type} (leb : A → A → bool).

Lemma insert_sorted_perm x l : insert_sorted leb x l ≡ₚ x :: l.
Proof.
  induction l as [|y l IH]; [done|]. simpl. case_match; [done|].
  rewrite IH. apply Permutation_swap.
Qed.

Lemma sort_by_perm l : sort_by leb l ≡ₚ l.
Proof.
  induction l as [|x l IH]; [done|]. simpl. by rewrite insert_sorted_perm, IH.
Qed.

Context (leb_total : ∀ x y, leb x y = true ∨ leb y x = true).
Context (leb_trans : ∀ x y z, leb x y = true → leb y z = true → leb x z = true).
#[local] Abbreviation le := (λ x y, leb x y = true).

Lemma insert_sorted_sorted x l :
  StronglySorted le l → StronglySorted le (insert_sorted leb x l).
Proof.
  induction 1 as [|y l Hl IH Hy]; simpl; [by repeat constructor|].
  destruct (leb x y) eqn:Hxy.
  - constructor; [by constructor|]. constructor; [done|].
    eapply Forall_impl; [done|]. simpl. eauto.
  - constructor; [done|]. rewrite insert_sorted_perm. constructor; [|done].
    destruct (leb_total x y); congruence.
Qed.

Lemma sort_by_sorted l : StronglySorted le (sort_by leb l).
Proof.
  induction l as [|x l IH]; simpl; [constructor|]. by apply insert_sorted_sorted.
Qed.
End sorting_lemmas.

Lemma dedup_elem_of {A} `{EqDecision A} (l : list A) x : x ∈ dedup l ↔ x ∈ l.
Proof.
  induction l as [|y l IH]; [done|]. destruct l as [|z l]; [done|].
  change (dedup (y :: z :: l))
    with (if decide (y = z) then dedup (z :: l) else y :: dedup (z :: l)).
  case_decide; subst; set_solver.
Qed.

Lemma StronglySorted_lookup {A} (R : A → A → Prop) l i j a b :
  StronglySorted R l → l !! i = Some a → l !! j = Some b → (i < j)%nat → R a b.
Proof.
  intros Hs. revert i j. induction Hs as [|x l Hs IH Hx]; intros i j Hi Hj Hij; [done|].
  destruct j as [|j]; [lia|]. destruct i as [|i]; simpl in *; [|eapply IH; eauto; lia].
  simplify_eq. rewrite Forall_forall in Hx. apply Hx. by eapply list_elem_of_lookup_2.
Qed.

(** On a sorted list, [dedup] leaves a strictly sorted one. *)
Lemma dedup_sorted {A} `{EqDecision A} (le : A → A → Prop) (l : list A) :
  (∀ x y, le x y → le y x → x = y) → StronglySorted le l →
  StronglySorted (λ x y, le x y ∧ x ≠ y) (dedup l).
Proof.
  intros Hanti. induction 1 as [|x l Hl IH Hx]; [constructor|].
  destruct l as [|y l]; [repeat constructor|].
  change (dedup (x :: y :: l))
    with (if decide (x = y) then dedup (y :: l) else x :: dedup (y :: l)).
  case_decide as Hxy; [done|]. constructor; [done|].
  apply Forall_forall. intros z Hz. rewrite dedup_elem_of in Hz.
  rewrite Forall_forall in Hx. split; [by apply Hx|].
  intros <-. apply Hxy, Hanti; [apply Hx; set_solver|].
  apply elem_of_cons in Hz as [->|Hz]; [apply Hx; set_solver|].
  apply StronglySorted_cons in Hl as [Hl _]. rewrite Forall_forall in Hl. auto.
Qed.

Lemma sorted_strict_NoDup {A} (R : A → A → Prop) (l : list A) :
  StronglySorted (λ x y, R x y ∧ x ≠ y) l → NoDup l.
Proof.
  induction 1 as [|x l Hl IH Hx]; constructor; [|done].
  rewrite Forall_forall in Hx. intros Hin. by apply Hx in Hin as [_ []].
Qed.

Lemma unique_from_elem_of {A} `{EqDecision A} (seen l : list A) x :
  x ∈ unique_from seen l ↔ x ∈ l ∧ x ∉ seen.
Proof.
  revert seen. induction l as [|y l IH]; intros seen; simpl; [set_solver|].
  case_decide; rewrite ?elem_of_cons, IH; destruct (decide (x = y)); set_solver.
Qed.

Lemma unique_elem_of {A} `{EqDecision A} (l : list A) x : x ∈ unique l ↔ x ∈ l.
Proof. unfold unique. rewrite unique_from_elem_of. set_solver. Qed.

Lemma unique_from_prefix {A} `{EqDecision A} (seen l1 l2 : list A) :
  unique_from seen l1 `prefix_of` unique_from seen (l1 ++ l2).
Proof.
  revert seen. induction l1 as [|x l1 IH]; intros seen; simpl; [by apply prefix_nil|].
  case_decide; [done|]. by apply prefix_cons.
Qed.

Lemma unique_prefix {A} `{EqDecision A} (l1 l2 : list A) :
  unique l1 `prefix_of` unique (l1 ++ l2).
Proof. apply unique_from_prefix. Qed.

Lemma unique_from_NoDup {A} `{EqDecision A} (seen l : list A) :
  NoDup (unique_from seen l).
Proof.
  revert seen. induction l as [|y l IH]; intros seen; simpl; [constructor|].
  case_decide; [done|]. constructor; [|done]. rewrite unique_from_elem_of. set_solver.
Qed.

Lemma unique_NoDup {A} `{EqDecision A} (l : list A) : NoDup (unique l).
Proof. apply unique_from_NoDup. Qed.

(** * Lemmas: sums *)

Lemma sumZ_app {A} (f : A → Z) l1 l2 : sumZ f (l1 ++ l2) = sumZ f l1 + sumZ f l2.
Proof. induction l1; simpl; [lia|]. unfold sumZ in *. simpl. lia. Qed.

Lemma sumZ_cons {A} (f : A → Z) x l : sumZ f (x :: l) = f x + sumZ f l.
Proof. done. Qed.

Lemma sum_list_with_le {A} (f g : A → nat) l :
  (∀ x, x ∈ l → (f x ≤ g x)%nat) → (sum_list_with f l ≤ sum_list_with g l)%nat.
Proof.
  induction l as [|x l IH]; intros Hle; simpl; [done|].
  pose proof (Hle x ltac:(left)). specialize (IH ltac:(intros ? ?; apply Hle; by right)). lia.
Qed.

Lemma sum_list_with_lt {A} (f g : A → nat) l x :
  (∀ y, y ∈ l → (f y ≤ g y)%nat) → x ∈ l → (f x < g x)%nat →
  (sum_list_with f l < sum_list_with g l)%nat.
Proof.
  intros Hle Hx Hlt. induction Hx as [y l|z y l Hx IH]; simpl.
  - pose proof (sum_list_with_le f g l ltac:(intros ? ?; apply Hle; by right)). lia.
  - pose proof (Hle y ltac:(left)). specialize (IH ltac:(intros ? ?; apply Hle; by right)). lia.
Qed.

Lemma sumZ_const {A} (c : Z) (l : list A) : sumZ (λ _, c) l = c * Z.of_nat (length l).
Proof. induction l; simpl; [lia|]. unfold sumZ in *. simpl. lia. Qed.

#[global] Instance sumZ_perm {A} (f : A → Z) : Proper ((≡ₚ) ==> (=)) (sumZ f).
Proof. induction 1; unfold sumZ in *; simpl; lia. Qed.
