(* ===== verification/Net.v ===== *)
(** Addresses of [std::net] as the proxy uses them.

    An [Ipv4Addr] is the 32-bit and an [Ipv6Addr] the 128-bit big-endian value
    of its octets, so the derived lexicographic [Ord] on octets is [<=] on the
    value, and [IpAddr]'s derived [Ord] puts every V4 address before every V6
    address.  A V6 socket address also has a flow label and a scope id, which
    [SocketAddr::new] sets to zero. *)

From S2P Require Import Prelude.

Inductive IpAddr :=
  | V4 (a : Z)
  | V6 (a : Z).

#[global] Instance IpAddr_eq_dec : EqDecision IpAddr.
Proof. solve_decision. Defined.
#[global] Instance IpAddr_countable : Countable IpAddr.
Proof.
  refine (inj_countable'
    (λ ip, match ip with V4 a => inl a | V6 a => inr a end)
    (λ s, match s with inl a => V4 a | inr a => V6 a end) _).
  by intros [].
Defined.

Definition UNSPECIFIED_V4 : Z := 0.
Definition UNSPECIFIED_V6 : Z := 0.

Definition ip_leb (x y : IpAddr) : bool :=
  match x, y with
  | V4 a, V4 b => a <=? b
  | V4 _, V6 _ => true
  | V6 _, V4 _ => false
  | V6 a, V6 b => a <=? b
  end.

(** [Ipv4Addr::is_multicast]: 224.0.0.0/4; [Ipv6Addr::is_multicast]: ff00::/8. *)
Definition is_multicast (ip : IpAddr) : bool :=
  match ip with
  | V4 a => Z.land (Z.shiftr a 24) 0xf0 =? 224
  | V6 a => Z.land (Z.shiftr a 120) 0xff =? 0xff
  end.

Inductive SocketAddr :=
  | SocketAddrV4 (ip : Z) (port : Z)
  | SocketAddrV6 (ip : Z) (port : Z) (flowinfo : Z) (scope_id : Z).

#[global] Instance SocketAddr_eq_dec : EqDecision SocketAddr.
Proof. solve_decision. Defined.

Definition SocketAddr_new (ip : IpAddr) (port : Z) : SocketAddr :=
  match ip with
  | V4 a => SocketAddrV4 a port
  | V6 a => SocketAddrV6 a port 0 0
  end.

Definition socket_ip (s : SocketAddr) : IpAddr :=
  match s with SocketAddrV4 a _ => V4 a | SocketAddrV6 a _ _ _ => V6 a end.

Definition socket_port (s : SocketAddr) : Z :=
  match s with SocketAddrV4 _ p => p | SocketAddrV6 _ p _ _ => p end.

Lemma ip_leb_total x y : ip_leb x y = true ∨ ip_leb y x = true.
Proof. destruct x, y; simpl; auto; rewrite !Z.leb_le; lia. Qed.

Lemma ip_leb_trans x y z : ip_leb x y = true → ip_leb y z = true → ip_leb x z = true.
Proof. destruct x, y, z; simpl; rewrite ?Z.leb_le; try done; lia. Qed.

Lemma ip_leb_antisym x y : ip_leb x y = true → ip_leb y x = true → x = y.
Proof. destruct x, y; simpl; rewrite ?Z.leb_le; try done; intros; f_equal; lia. Qed.

#[export] Hint Resolve ip_leb_total ip_leb_trans ip_leb_antisym : rust.

#[global] Instance SocketAddr_new_inj port : Inj (=) (=) (λ ip, SocketAddr_new ip port).
Proof. intros [] [] ?; simplify_eq/=; done. Qed.
