(* ===== verification/Errors.v ===== *)
(** The error types of proxy/src/main.rs and proxy/src/token_authenticator.rs.

    The errors of other crates are carried only to be printed; [details] is what
    they print. *)

From S2P Require Import Prelude.

Abbreviation details := string (only parsing).

(** [tonic::Code], as far as the proxy distinguishes it, and [tonic::Status]. *)
Inductive Code := InvalidArgument | OtherCode (c : Z).
#[global] Instance Code_eq_dec : EqDecision Code.
Proof. solve_decision. Defined.
Record Status := mkStatus { status_code : Code; status_message : string }.

Inductive BlockEngineConnectionError :=
  | Transport (e : details)
  | Client (s : Status)
  | Deserialization.

(** [io::ErrorKind], as far as the proxy makes one. *)
Inductive ErrorKind := InvalidInput | InvalidData | AddrNotAvailable | OtherKind.
#[global] Instance ErrorKind_eq_dec : EqDecision ErrorKind.
Proof. solve_decision. Defined.
Record IoError := mkIoError { io_kind : ErrorKind; io_details : details }.

Inductive ShredstreamProxyError :=
  | TonicErr (e : details)
  | GrpcErr (s : Status)
  | ReqwestErr (e : details)
  | SerdeJsonErr (e : details)
  | RpcErr (e : details)
  | BlockEngineConnectionErr (e : BlockEngineConnectionError)
  | RecvErr
  | IoErr (e : IoError)
  | ShutdownErr.

(** [Result<A, E>] as a value (the error is not a panic). *)
Inductive result (A E : Type) :=
  | ROk (a : A)
  | RErr (e : E).
Arguments ROk {A E} _.
Arguments RErr {A E} _.

(** The [?] operator, with its [From] conversion. *)
Definition try_ {A B E E'} (conv : E → E') (r : result A E) (f : A → result B E') : result B E' :=
  match r with ROk a => f a | RErr e => RErr (conv e) end.

(** [Result::ok] and [Option::ok_or]. *)
Definition result_ok {A E} (r : result A E) : option A :=
  match r with ROk a => Some a | RErr _ => None end.
Definition ok_or {A E} (o : option A) (e : E) : result A E :=
  match o with Some a => ROk a | None => RErr e end.
