(* ===== verification/Metrics.v ===== *)
(** [ShredMetrics] (proxy/src/forwarder.rs): the counters every thread shares.

    Each [AtomicU64] is a field; [Counter] names the fields so that the generic
    operations [load], [fetch_add] and [swap] and their lemmas are stated once.
    [fetch_add] wraps at 2^64, whatever the build profile. *)

From S2P Require Import Prelude Net.

Record ShredMetrics := mkShredMetrics {
  received : Z;
  success_forward : Z;
  fail_forward : Z;
  duplicate : Z;
  packets_received : gmap IpAddr (Z * Z);
  send_batch_size_sum : Z;
  send_batch_count : Z;
  saturated_iov_count : Z;
  unsaturated_iov_count : Z;
  enabled_grpc_service : bool;
  recovered_count : Z;
  entry_count : Z;
  txn_count : Z;
  unknown_start_position_count : Z;
  fec_recovery_error_count : Z;
  bincode_deserialize_error_count : Z;
  unknown_start_position_error_count : Z;
  dedup_time_spent : Z;
  batch_send_time_spent : Z;
  agg_received_cumulative : Z;
  agg_success_forward_cumulative : Z;
  agg_fail_forward_cumulative : Z;
  duplicate_cumulative : Z;
}.

(** The [AtomicU64] fields. *)
Inductive Counter :=
  | Received | SuccessForward | FailForward | Duplicate
  | SendBatchSizeSum | SendBatchCount | SaturatedIovCount | UnsaturatedIovCount
  | RecoveredCount | EntryCount | TxnCount
  | UnknownStartPositionCount | FecRecoveryErrorCount
  | BincodeDeserializeErrorCount | UnknownStartPositionErrorCount
  | DedupTimeSpent | BatchSendTimeSpent
  | AggReceivedCumulative | AggSuccessForwardCumulative
  | AggFailForwardCumulative | DuplicateCumulative.

#[global] Instance Counter_eq_dec : EqDecision Counter.
Proof. solve_decision. Defined.

Definition load (c : Counter) (m : ShredMetrics) : Z :=
  match c with
  | Received => received m
  | SuccessForward => success_forward m
  | FailForward => fail_forward m
  | Duplicate => duplicate m
  | SendBatchSizeSum => send_batch_size_sum m
  | SendBatchCount => send_batch_count m
  | SaturatedIovCount => saturated_iov_count m
  | UnsaturatedIovCount => unsaturated_iov_count m
  | RecoveredCount => recovered_count m
  | EntryCount => entry_count m
  | TxnCount => txn_count m
  | UnknownStartPositionCount => unknown_start_position_count m
  | FecRecoveryErrorCount => fec_recovery_error_count m
  | BincodeDeserializeErrorCount => bincode_deserialize_error_count m
  | UnknownStartPositionErrorCount => unknown_start_position_error_count m
  | DedupTimeSpent => dedup_time_spent m
  | BatchSendTimeSpent => batch_send_time_spent m
  | AggReceivedCumulative => agg_received_cumulative m
  | AggSuccessForwardCumulative => agg_success_forward_cumulative m
  | AggFailForwardCumulative => agg_fail_forward_cumulative m
  | DuplicateCumulative => duplicate_cumulative m
  end.

Definition store (c : Counter) (v : Z) (m : ShredMetrics) : ShredMetrics :=
  match m with
  | mkShredMetrics x1 x2 x3 x4 x5 x6 x7 x8 x9 x10 x11 x12 x13 x14 x15 x16 x17
      x18 x19 x20 x21 x22 x23 =>
    match c with
    | Received => mkShredMetrics v x2 x3 x4 x5 x6 x7 x8 x9 x10 x11 x12 x13 x14 x15 x16 x17 x18 x19 x20 x21 x22 x23
    | SuccessForward => mkShredMetrics x1 v x3 x4 x5 x6 x7 x8 x9 x10 x11 x12 x13 x14 x15 x16 x17 x18 x19 x20 x21 x22 x23
    | FailForward => mkShredMetrics x1 x2 v x4 x5 x6 x7 x8 x9 x10 x11 x12 x13 x14 x15 x16 x17 x18 x19 x20 x21 x22 x23
    | Duplicate => mkShredMetrics x1 x2 x3 v x5 x6 x7 x8 x9 x10 x11 x12 x13 x14 x15 x16 x17 x18 x19 x20 x21 x22 x23
    | SendBatchSizeSum => mkShredMetrics x1 x2 x3 x4 x5 v x7 x8 x9 x10 x11 x12 x13 x14 x15 x16 x17 x18 x19 x20 x21 x22 x23
    | SendBatchCount => mkShredMetrics x1 x2 x3 x4 x5 x6 v x8 x9 x10 x11 x12 x13 x14 x15 x16 x17 x18 x19 x20 x21 x22 x23
    | SaturatedIovCount => mkShredMetrics x1 x2 x3 x4 x5 x6 x7 v x9 x10 x11 x12 x13 x14 x15 x16 x17 x18 x19 x20 x21 x22 x23
    | UnsaturatedIovCount => mkShredMetrics x1 x2 x3 x4 x5 x6 x7 x8 v x10 x11 x12 x13 x14 x15 x16 x17 x18 x19 x20 x21 x22 x23
    | RecoveredCount => mkShredMetrics x1 x2 x3 x4 x5 x6 x7 x8 x9 x10 v x12 x13 x14 x15 x16 x17 x18 x19 x20 x21 x22 x23
    | EntryCount => mkShredMetrics x1 x2 x3 x4 x5 x6 x7 x8 x9 x10 x11 v x13 x14 x15 x16 x17 x18 x19 x20 x21 x22 x23
    | TxnCount => mkShredMetrics x1 x2 x3 x4 x5 x6 x7 x8 x9 x10 x11 x12 v x14 x15 x16 x17 x18 x19 x20 x21 x22 x23
    | UnknownStartPositionCount => mkShredMetrics x1 x2 x3 x4 x5 x6 x7 x8 x9 x10 x11 x12 x13 v x15 x16 x17 x18 x19 x20 x21 x22 x23
    | FecRecoveryErrorCount => mkShredMetrics x1 x2 x3 x4 x5 x6 x7 x8 x9 x10 x11 x12 x13 x14 v x16 x17 x18 x19 x20 x21 x22 x23
    | BincodeDeserializeErrorCount => mkShredMetrics x1 x2 x3 x4 x5 x6 x7 x8 x9 x10 x11 x12 x13 x14 x15 v x17 x18 x19 x20 x21 x22 x23
    | UnknownStartPositionErrorCount => mkShredMetrics x1 x2 x3 x4 x5 x6 x7 x8 x9 x10 x11 x12 x13 x14 x15 x16 v x18 x19 x20 x21 x22 x23
    | DedupTimeSpent => mkShredMetrics x1 x2 x3 x4 x5 x6 x7 x8 x9 x10 x11 x12 x13 x14 x15 x16 x17 v x19 x20 x21 x22 x23
    | BatchSendTimeSpent => mkShredMetrics x1 x2 x3 x4 x5 x6 x7 x8 x9 x10 x11 x12 x13 x14 x15 x16 x17 x18 v x20 x21 x22 x23
    | AggReceivedCumulative => mkShredMetrics x1 x2 x3 x4 x5 x6 x7 x8 x9 x10 x11 x12 x13 x14 x15 x16 x17 x18 x19 v x21 x22 x23
    | AggSuccessForwardCumulative => mkShredMetrics x1 x2 x3 x4 x5 x6 x7 x8 x9 x10 x11 x12 x13 x14 x15 x16 x17 x18 x19 x20 v x22 x23
    | AggFailForwardCumulative => mkShredMetrics x1 x2 x3 x4 x5 x6 x7 x8 x9 x10 x11 x12 x13 x14 x15 x16 x17 x18 x19 x20 x21 v x23
    | DuplicateCumulative => mkShredMetrics x1 x2 x3 x4 x5 x6 x7 x8 x9 x10 x11 x12 x13 x14 x15 x16 x17 x18 x19 x20 x21 x22 v
    end
  end.

(** [AtomicU64::fetch_add] without its result, and [AtomicU64::swap]. *)
Definition fetch_add (c : Counter) (n : Z) (m : ShredMetrics) : ShredMetrics :=
  store c (wrap 64 (load c m + n)) m.
Definition swap (c : Counter) (v : Z) (m : ShredMetrics) : Z * ShredMetrics :=
  (load c m, store c v m).

Definition set_packets_received (p : gmap IpAddr (Z * Z)) (m : ShredMetrics) : ShredMetrics :=
  match m with
  | mkShredMetrics x1 x2 x3 x4 _ x6 x7 x8 x9 x10 x11 x12 x13 x14 x15 x16 x17
      x18 x19 x20 x21 x22 x23 =>
    mkShredMetrics x1 x2 x3 x4 p x6 x7 x8 x9 x10 x11 x12 x13 x14 x15 x16 x17
      x18 x19 x20 x21 x22 x23
  end.

(** [ShredMetrics::new]. *)
Definition ShredMetrics_new (enabled_grpc_service : bool) : ShredMetrics :=
  mkShredMetrics 0 0 0 0 ∅ 0 0 0 0 enabled_grpc_service 0 0 0 0 0 0 0 0 0 0 0 0 0.

(** One [datapoint_info!] line of [report]: its name and its values. *)
Inductive Datapoint :=
  | ConnectionMetrics (received success_forward fail_forward duplicate : Z)
  | SendmmsgIovMetrics (max_iov_count unsaturated_iov_count : Z)
  | BatchSendMetrics (send_batch_size_sum send_batch_count : Z)
  | TimeAllocation (deduping batch_send : Z)
  | ServiceMetrics (recovered entries txns unknown_start fec_error bincode_error
                    unknown_start_error : Z)
  | ReceiverStats (addr : IpAddr) (discarded_packets not_discarded_packets : Z).

(** [ShredMetrics::report]: the current counters are only read, the service
    counters are swapped to zero when the gRPC service is on, and every
    per-address entry is reported and removed ([retain] with [false]).  The model
    assumes that the metrics crate logs at the info level: [datapoint_info!]
    evaluates its arguments, the swaps included, only when it does. *)
Definition report (m : ShredMetrics) : list Datapoint * ShredMetrics :=
  let head :=
    [ ConnectionMetrics (load Received m) (load SuccessForward m)
        (load FailForward m) (load Duplicate m);
      SendmmsgIovMetrics (load SaturatedIovCount m) (load UnsaturatedIovCount m);
      BatchSendMetrics (load SendBatchSizeSum m) (load SendBatchCount m);
      TimeAllocation (load DedupTimeSpent m) (load BatchSendTimeSpent m) ] in
  let '(service, m1) :=
    if enabled_grpc_service m then
      let '(v1, m) := swap RecoveredCount 0 m in
      let '(v2, m) := swap EntryCount 0 m in
      let '(v3, m) := swap TxnCount 0 m in
      let '(v4, m) := swap UnknownStartPositionCount 0 m in
      let '(v5, m) := swap FecRecoveryErrorCount 0 m in
      let '(v6, m) := swap BincodeDeserializeErrorCount 0 m in
      let '(v7, m) := swap UnknownStartPositionErrorCount 0 m in
      ([ServiceMetrics v1 v2 v3 v4 v5 v6 v7], m)
    else ([], m) in
  let receivers :=
    (λ p : IpAddr * (Z * Z), ReceiverStats p.1 p.2.1 p.2.2)
      <$> map_to_list (packets_received m1) in
  (head ++ service ++ receivers, set_packets_received ∅ m1).

(** [self.to.fetch_add(self.from.swap(0))]. *)
Definition move_counter (from to : Counter) (m : ShredMetrics) : ShredMetrics :=
  let '(v, m) := swap from 0 m in fetch_add to v m.

(** The statements of [ShredMetrics::reset]: each is a [swap] with 0, whose
    result is added to a cumulative counter or dropped. *)
Definition reset_script : list (Counter * option Counter) :=
  [(Received, Some AggReceivedCumulative);
   (SuccessForward, Some AggSuccessForwardCumulative);
   (FailForward, Some AggFailForwardCumulative);
   (Duplicate, Some DuplicateCumulative);
   (DedupTimeSpent, None);
   (BatchSendTimeSpent, None);
   (SendBatchSizeSum, None);
   (SendBatchCount, None);
   (SaturatedIovCount, None);
   (UnsaturatedIovCount, None)].

Definition reset_statement (m : ShredMetrics) (s : Counter * option Counter) : ShredMetrics :=
  match s with
  | (from, Some to) => move_counter from to m
  | (from, None) => (swap from 0 m).2
  end.

(** [ShredMetrics::reset], when no other thread counts meanwhile. *)
Definition reset (m : ShredMetrics) : ShredMetrics := foldl reset_statement m reset_script.

(** Every counter is a 64-bit value. *)
Definition metrics_wf (m : ShredMetrics) : Prop := ∀ c, in_width 64 (load c m).

(** The pair a cumulative counter forms with the one [reset] drains into it. *)
Definition cumulative_of (c : Counter) : option Counter :=
  match c with
  | Received => Some AggReceivedCumulative
  | SuccessForward => Some AggSuccessForwardCumulative
  | FailForward => Some AggFailForwardCumulative
  | Duplicate => Some DuplicateCumulative
  | _ => None
  end.

(** Counters are reasoned about with the lemmas below, never by unfolding. *)
Arguments load : simpl never.
Arguments store : simpl never.
Arguments fetch_add : simpl never.

(** * Lemmas *)

(** [reset] as the sequence of its atomic operations. *)
Ltac unfold_reset := unfold reset, reset_script; cbn [foldl reset_statement];
  unfold move_counter, swap; cbn [fst snd].

Lemma load_store c c' v m :
  load c (store c' v m) = if decide (c = c') then v else load c m.
Proof. by destruct m, c, c'. Qed.

Lemma load_store_eq c v m : load c (store c v m) = v.
Proof. by rewrite load_store, decide_True. Qed.

Lemma load_store_ne c c' v m : c ≠ c' → load c (store c' v m) = load c m.
Proof. intros. by rewrite load_store, decide_False. Qed.

Lemma load_fetch_add c c' n m :
  load c (fetch_add c' n m) =
  if decide (c = c') then wrap 64 (load c m + n) else load c m.
Proof. unfold fetch_add. rewrite load_store. by case_decide; subst. Qed.

Lemma load_fetch_add_eq c n m : load c (fetch_add c n m) = wrap 64 (load c m + n).
Proof. by rewrite load_fetch_add, decide_True. Qed.

Lemma load_fetch_add_ne c c' n m : c ≠ c' → load c (fetch_add c' n m) = load c m.
Proof. intros. by rewrite load_fetch_add, decide_False. Qed.

Lemma load_set_packets_received c p m : load c (set_packets_received p m) = load c m.
Proof. by destruct m, c. Qed.

Lemma load_new c b : load c (ShredMetrics_new b) = 0.
Proof. by destruct c. Qed.

Lemma store_packets_received c v m : packets_received (store c v m) = packets_received m.
Proof. by destruct m, c. Qed.

Lemma fetch_add_packets_received c v m :
  packets_received (fetch_add c v m) = packets_received m.
Proof. apply store_packets_received. Qed.

Lemma set_packets_received_get p m : packets_received (set_packets_received p m) = p.
Proof. by destruct m. Qed.

Lemma store_enabled c v m : enabled_grpc_service (store c v m) = enabled_grpc_service m.
Proof. by destruct m, c. Qed.

(** Reads a counter after a known sequence of [fetch_add]s. *)
Ltac solve_load :=
  repeat first
    [ rewrite load_fetch_add_eq
    | rewrite load_fetch_add_ne by discriminate
    | rewrite load_set_packets_received ];
  try reflexivity.

(** Two states with the same counters, addresses and mode are equal. *)
Lemma metrics_eq m1 m2 :
  (∀ c, load c m1 = load c m2) → packets_received m1 = packets_received m2 →
  enabled_grpc_service m1 = enabled_grpc_service m2 → m1 = m2.
Proof.
  intros Hc Hp He. destruct m1, m2. simpl in *. subst.
  pose proof (Hc Received); pose proof (Hc SuccessForward); pose proof (Hc FailForward);
  pose proof (Hc Duplicate); pose proof (Hc SendBatchSizeSum); pose proof (Hc SendBatchCount);
  pose proof (Hc SaturatedIovCount); pose proof (Hc UnsaturatedIovCount);
  pose proof (Hc RecoveredCount); pose proof (Hc EntryCount); pose proof (Hc TxnCount);
  pose proof (Hc UnknownStartPositionCount); pose proof (Hc FecRecoveryErrorCount);
  pose proof (Hc BincodeDeserializeErrorCount);
  pose proof (Hc UnknownStartPositionErrorCount);
  pose proof (Hc DedupTimeSpent); pose proof (Hc BatchSendTimeSpent);
  pose proof (Hc AggReceivedCumulative); pose proof (Hc AggSuccessForwardCumulative);
  pose proof (Hc AggFailForwardCumulative); pose proof (Hc DuplicateCumulative).
  unfold load in *; simpl in *; by subst.
Qed.

#[export] Hint Rewrite load_store load_fetch_add load_set_packets_received load_new
  store_packets_received fetch_add_packets_received set_packets_received_get
  store_enabled : metrics.

(** Atomic adds commute, so the order in which threads add does not matter. *)
Lemma fetch_add_comm c1 c2 a b m :
  fetch_add c1 a (fetch_add c2 b m) = fetch_add c2 b (fetch_add c1 a m).
Proof.
  apply metrics_eq.
  - intros c. rewrite !load_fetch_add. repeat case_decide; subst; try done.
    autorewrite with rust. f_equal. lia.
  - unfold fetch_add. by rewrite !store_packets_received.
  - unfold fetch_add. by rewrite !store_enabled.
Qed.

Lemma fetch_add_fetch_add c a b m :
  fetch_add c a (fetch_add c b m) = fetch_add c (a + b) m.
Proof.
  apply metrics_eq.
  - intros c'. rewrite !load_fetch_add. repeat case_decide; subst; try done.
    autorewrite with rust. f_equal. lia.
  - unfold fetch_add. by rewrite !store_packets_received.
  - unfold fetch_add. by rewrite !store_enabled.
Qed.

Lemma fetch_add_wf c n m : metrics_wf m → metrics_wf (fetch_add c n m).
Proof.
  intros Hm c'. rewrite load_fetch_add. case_decide; [by apply wrap_range|done].
Qed.

Lemma store_wf c v m : in_width 64 v → metrics_wf m → metrics_wf (store c v m).
Proof. intros Hv Hm c'. rewrite load_store. by case_decide. Qed.

Lemma new_wf b : metrics_wf (ShredMetrics_new b).
Proof. intros c. rewrite load_new. done. Qed.

#[export] Hint Resolve fetch_add_wf store_wf new_wf : metrics.
