(* ===== verification/MetricsTheorems.v ===== *)
(** The properties of [ShredMetrics]: what [report] and [reset] do, alone and
    while other threads keep counting. *)

From S2P Require Import Prelude Net Metrics.

(** * [reset] while other threads count

    [reset] runs in the accessory thread while the forwarder threads count.
    Each [swap] and each [fetch_add] of its statements is atomic, the pair of
    them is not: between the two the value is in neither counter. *)

(** The shared metrics, the value in flight and the swaps still to do. *)
Record ResetRun := mkResetRun {
  run_metrics : ShredMetrics;
  in_flight : option (Counter * Z);
  todo : list (Counter * option Counter);
}.

(** One step of [reset], or a [fetch_add] of another thread; the label is what
    the environment added. *)
Inductive reset_step : ResetRun → option (Counter * Z) → ResetRun → Prop :=
  | step_swap m c o rest :
      reset_step (mkResetRun m None ((c, o) :: rest)) None
        (mkResetRun (store c 0 m) ((λ to, (to, load c m)) <$> o) rest)
  | step_add m to v rest :
      reset_step (mkResetRun m (Some (to, v)) rest) None
        (mkResetRun (fetch_add to v m) None rest)
  | step_other m p rest c n :
      reset_step (mkResetRun m p rest) (Some (c, n)) (mkResetRun (fetch_add c n m) p rest).

Inductive reset_steps : ResetRun → list (Counter * Z) → ResetRun → Prop :=
  | steps_refl r : reset_steps r [] r
  | steps_cons r o r' l r'' :
      reset_step r o r' → reset_steps r' l r'' →
      reset_steps r (match o with Some a => a :: l | None => l end) r''.

(** What the other threads added to [c]. *)
Definition added (c : Counter) (l : list (Counter * Z)) : Z :=
  sumZ (λ a : Counter * Z, if decide (a.1 = c) then a.2 else 0) l.

Definition flying (c : Counter) (r : ResetRun) : Z :=
  match in_flight r with Some (to, v) => if decide (to = c) then v else 0 | None => 0 end.

(** The current value, the cumulative value and what moves between them. *)
Definition total (c cum : Counter) (r : ResetRun) : Z :=
  load c (run_metrics r) + load cum (run_metrics r) + flying cum r.

(** Every swap of [c] in the rest of the script goes to [cum], and no other
    swap does or touches [cum]. *)
Definition drains (c cum : Counter) (l : list (Counter * option Counter)) : Prop :=
  c ≠ cum ∧ Forall (λ p : Counter * option Counter,
    p.1 ≠ cum ∧ if decide (p.1 = c) then p.2 = Some cum else p.2 ≠ Some c ∧ p.2 ≠ Some cum) l.

Definition flight_ok (c : Counter) (r : ResetRun) : Prop :=
  match in_flight r with Some (to, _) => to ≠ c | None => True end.

#[local] Arguments added : simpl never.

Lemma reset_step_total c cum r o r' :
  drains c cum (todo r) → flight_ok c r → reset_step r o r' →
  wrap 64 (total c cum r')
    = wrap 64 (total c cum r + match o with Some a => added c [a] + added cum [a] | None => 0 end)
  ∧ drains c cum (todo r') ∧ flight_ok c r'.
Proof.
  intros [Hne Hd] Hf Hs. destruct Hs as [m c' o rest|m to v rest|m p rest c' n];
    unfold total, flying, flight_ok, drains in *; simpl in *.
  - inversion Hd as [|? ? [Hc Hx] Hd']; subst. simpl in *. rewrite !load_store, Z.add_0_r.
    rewrite (decide_False (P := cum = c')) by congruence.
    destruct (decide (c' = c)) as [->|Hcc].
    + subst o. rewrite decide_True by done. simpl. rewrite decide_True by done.
      split_and!; try done. f_equal. lia.
    + rewrite (decide_False (P := c = c')) by congruence.
      destruct o as [to|]; simpl; [|by split_and!].
      rewrite decide_False by (intros ->; by destruct Hx).
      split_and!; try done. intros ->. by destruct Hx.
  - split_and!; try done. rewrite !load_fetch_add. rewrite Z.add_0_r.
    rewrite (decide_False (P := c = to)) by congruence.
    destruct (decide (cum = to)) as [->|].
    + rewrite decide_True by done. rewrite Z.add_0_r. autorewrite with rust. f_equal. lia.
    + rewrite decide_False by congruence. by rewrite !Z.add_0_r.
  - split_and!; try done. rewrite !load_fetch_add. unfold added, sumZ. simpl.
    rewrite !Z.add_0_r. destruct (decide (c = c')) as [<-|].
    + rewrite (decide_False (P := cum = c)) by congruence.
      rewrite !decide_True, (decide_False (P := c = cum)) by done.
      rewrite <-!Z.add_assoc, wrap_add_l. f_equal. lia.
    + rewrite (decide_False (P := c' = c)) by congruence.
      destruct (decide (cum = c')) as [<-|].
      * rewrite decide_True by done.
        rewrite (Z.add_comm (load c m)), <-!Z.add_assoc, wrap_add_l. f_equal. lia.
      * rewrite decide_False by congruence. f_equal. lia.
Qed.

Lemma added_cons c a l : added c (a :: l) = added c [a] + added c l.
Proof. unfold added, sumZ. simpl. by rewrite Z.add_0_r. Qed.

Lemma reset_steps_total c cum r l r' :
  reset_steps r l r' → drains c cum (todo r) → flight_ok c r →
  wrap 64 (total c cum r') = wrap 64 (total c cum r + added c l + added cum l).
Proof.
  induction 1 as [r|r o r' l r'' Hs _ IH]; intros Hd Hf.
  { unfold added, sumZ. simpl. by rewrite !Z.add_0_r. }
  destruct (reset_step_total _ _ _ _ _ Hd Hf Hs) as (Ht & Hd' & Hf').
  rewrite IH by done. rewrite <-Z.add_assoc, <-wrap_add_l, Ht, wrap_add_l. f_equal.
  destruct o as [a|]; [|lia]. rewrite (added_cons c a l), (added_cons cum a l). lia.
Qed.

Lemma script_drains c cum : cumulative_of c = Some cum → drains c cum reset_script.
Proof. destruct c; intros [= <-]; split; try done; repeat constructor; simpl; try done. Qed.

(** The sequential [reset] is one of the runs. *)
Lemma reset_is_script m :
  reset_steps (mkResetRun m None reset_script) [] (mkResetRun (reset m) None []).
Proof.
  unfold_reset.
  repeat (eapply (steps_cons _ None _ []); [constructor|cbn [fmap option_fmap option_map]]).
  apply steps_refl.
Qed.

(** * The properties *)

(** [reset] drains every connection counter into its cumulative counter
    (modulo 2^64), sets the other per-interval counters to zero, and leaves the
    service counters and the per-address counts to [report]. *)
Theorem reset_spec m :
  metrics_wf m →
  metrics_wf (reset m) ∧
  (∀ c cum, cumulative_of c = Some cum →
     load c (reset m) = 0 ∧ load cum (reset m) = wrap 64 (load cum m + load c m)) ∧
  (∀ c, c ∈ [DedupTimeSpent; BatchSendTimeSpent; SendBatchSizeSum; SendBatchCount;
             SaturatedIovCount; UnsaturatedIovCount] → load c (reset m) = 0) ∧
  (∀ c, c ∈ [RecoveredCount; EntryCount; TxnCount; UnknownStartPositionCount;
             FecRecoveryErrorCount; BincodeDeserializeErrorCount;
             UnknownStartPositionErrorCount] → load c (reset m) = load c m) ∧
  packets_received (reset m) = packets_received m.
Proof.
  intros Hm. unfold_reset.
  split_and!.
  - repeat first [apply store_wf; [done|] | apply fetch_add_wf]. done.
  - intros c cum Hc. autorewrite with metrics.
    destruct c; simplify_eq/=; repeat (rewrite decide_False by done || rewrite decide_True by done);
      done.
  - intros c Hc. autorewrite with metrics. repeat (apply elem_of_cons in Hc as [->|Hc]; [done|]).
    by apply elem_of_nil in Hc.
  - intros c Hc. autorewrite with metrics. repeat (apply elem_of_cons in Hc as [->|Hc]; [done|]).
    by apply elem_of_nil in Hc.
  - by autorewrite with metrics.
Qed.

(** C34: [reset] loses nothing: whatever the other threads count between any two
    of its atomic operations, a connection counter and its cumulative counter
    together hold at the end what they held at the start plus what was added
    (modulo 2^64); and [reset] on its own is the run in which nothing is added. *)
Theorem reset_conserves c cum m :
  cumulative_of c = Some cum →
  (∀ l m', reset_steps (mkResetRun m None reset_script) l (mkResetRun m' None []) →
     wrap 64 (load c m' + load cum m')
     = wrap 64 (load c m + load cum m + added c l + added cum l)) ∧
  reset_steps (mkResetRun m None reset_script) [] (mkResetRun (reset m) None []) ∧
  wrap 64 (load c (reset m) + load cum (reset m)) = wrap 64 (load c m + load cum m).
Proof.
  intros Hc%script_drains.
  assert (∀ l m', reset_steps (mkResetRun m None reset_script) l (mkResetRun m' None []) →
     wrap 64 (load c m' + load cum m')
     = wrap 64 (load c m + load cum m + added c l + added cum l)) as Hall.
  { intros l m' Hs. pose proof (reset_steps_total _ _ _ _ _ Hs Hc I) as Ht.
    unfold total, flying in Ht. simpl in Ht. by rewrite !Z.add_0_r in Ht. }
  pose proof (reset_is_script m) as Hr. split; [done|]. split; [done|].
  rewrite (Hall _ _ Hr). unfold added, sumZ. simpl. by rewrite !Z.add_0_r.
Qed.

(** [report] reads the per-interval counters without changing them, reports
    the service counters exactly when the gRPC service is on and sets them to
    zero then, and reports every source address once and forgets it. *)
Lemma report_spec m :
  let '(dps, m') := report m in
  (∀ c, load c m' = if decide (enabled_grpc_service m = true ∧
          c ∈ [RecoveredCount; EntryCount; TxnCount; UnknownStartPositionCount;
               FecRecoveryErrorCount; BincodeDeserializeErrorCount;
               UnknownStartPositionErrorCount]) then 0 else load c m) ∧
  packets_received m' = ∅ ∧
  head dps = Some (ConnectionMetrics (load Received m) (load SuccessForward m)
                     (load FailForward m) (load Duplicate m)) ∧
  (∀ a b c d e f g, ServiceMetrics a b c d e f g ∈ dps ↔
     enabled_grpc_service m = true ∧
     (a, b, c, d, e, f, g)
     = (load RecoveredCount m, load EntryCount m, load TxnCount m,
        load UnknownStartPositionCount m, load FecRecoveryErrorCount m,
        load BincodeDeserializeErrorCount m, load UnknownStartPositionErrorCount m)) ∧
  omap (λ dp, match dp with ReceiverStats a x y => Some (a, (x, y)) | _ => None end) dps
    ≡ₚ map_to_list (packets_received m).
Proof.
  unfold report, swap.
  set (rs := (λ p : IpAddr * (Z * Z), ReceiverStats p.1 p.2.1 p.2.2)).
  set (sel := λ dp, match dp with ReceiverStats a x y => Some (a, (x, y)) | _ => None end).
  assert (∀ l : list (IpAddr * (Z * Z)), omap sel (rs <$> l) = l) as Hsel.
  { intros l. induction l as [|[a [x y]] l IH]; [done|]. simpl. by f_equal. }
  assert (∀ (l : list (IpAddr * (Z * Z))) a b c d e f g,
    ServiceMetrics a b c d e f g ∈ rs <$> l → False) as Hno.
  { intros l a b c d e f g ([? []] & ? & _)%list_elem_of_fmap. done. }
  destruct (enabled_grpc_service m) eqn:He; split_and!;
    rewrite ?set_packets_received_get; try done.
  - intros c. autorewrite with metrics. destruct c; reflexivity.
  - intros a b c d e f g. rewrite !load_store_ne by done. simpl. rewrite !elem_of_cons.
    split; [|naive_solver].
    intros [?|[?|[?|[?|[Hx|Hx]]]]]; try done; [by injection Hx as -> -> -> -> -> -> ->|].
    by apply Hno in Hx.
  - rewrite !omap_app, Hsel. by rewrite ?store_packets_received.
  - intros c. autorewrite with metrics. by rewrite decide_False by naive_solver.
  - intros a b c d e f g. simpl. rewrite !elem_of_cons. split; [|naive_solver].
    intros [?|[?|[?|[?|Hx]]]]; try done. by apply Hno in Hx.
  - rewrite !omap_app, Hsel. by rewrite ?store_packets_received.
Qed.

(** * Witnesses *)

Definition toy_metrics : ShredMetrics := fetch_add Received 5 (ShredMetrics_new true).

Lemma reset_spec_witness :
  load Received (reset toy_metrics) = 0 ∧ load AggReceivedCumulative (reset toy_metrics) = 5.
Proof.
  destruct (reset_spec toy_metrics) as (_ & Hc & _).
  - apply fetch_add_wf, new_wf.
  - exact (Hc Received AggReceivedCumulative eq_refl).
Defined.

(** Another thread counts 7 packets between the [swap] and the [fetch_add]. *)
Lemma reset_conserves_witness :
  ∃ m', reset_steps (mkResetRun toy_metrics None reset_script) [(Received, 7)]
          (mkResetRun m' None []) ∧
        wrap 64 (load Received m' + load AggReceivedCumulative m') = 12.
Proof.
  assert (∃ m', reset_steps (mkResetRun toy_metrics None reset_script) [(Received, 7)]
            (mkResetRun m' None [])) as [m' Hm].
  { eexists. unfold reset_script. eapply (steps_cons _ None); [constructor|].
    eapply (steps_cons _ (Some (Received, 7))); [constructor|].
    repeat (eapply (steps_cons _ None _ []); [constructor|cbn [fmap option_fmap option_map]]).
    apply steps_refl. }
  exists m'. split; [exact Hm|].
  exact (proj1 (reset_conserves Received AggReceivedCumulative toy_metrics eq_refl)
           [(Received, 7)] m' Hm).
Defined.
