(* ===== verification/Shreds.v ===== *)
(** The interface to the crates the shred code calls ([solana_ledger],
    [solana_entry], [bincode], the generated protobuf types), and
    [ComparableShred] of proxy/src/deshred.rs, which is written against it.

    Nothing of those crates is defined here: their types are carriers, their
    functions are fields of [ShredLib], and what the proxy relies on is
    [ShredLibLaws].  [merkle::Shred] has the two variants the code matches on. *)

From Stdlib Require Import Strings.Byte.
From S2P Require Import Prelude.

Abbreviation bytes := (list Byte.byte).

#[global] Instance byte_eq_decision : EqDecision Byte.byte := Byte.byte_eq_dec.

(** * External types *)

Class ShredTypes := {
  ShredCodeT : Type;
  ShredDataT : Type;
  ShredCommonHeader : Type;
  CodingShredHeader : Type;
  DataShredHeader : Type;
  (** [solana_ledger::shred::Shred], before [merkle::Shred::try_from] *)
  LedgerShred : Type;
  ShredType : Type;
  Entry : Type;
  #[global] ShredCommonHeader_eq :: EqDecision ShredCommonHeader;
  #[global] CodingShredHeader_eq :: EqDecision CodingShredHeader;
  #[global] DataShredHeader_eq :: EqDecision DataShredHeader;
  #[global] ShredType_eq :: EqDecision ShredType;
}.

(** [solana_ledger::shred::merkle::Shred] *)
Inductive Shred `{ShredTypes} :=
  | ShredCode (s : ShredCodeT)
  | ShredData (s : ShredDataT).

(** * External functions and constants *)

Class ShredLib `{ShredTypes} := {
  (** struct fields the proxy reads *)
  code_common_header : ShredCodeT → ShredCommonHeader;
  coding_header : ShredCodeT → CodingShredHeader;
  code_payload : ShredCodeT → bytes;
  data_common_header : ShredDataT → ShredCommonHeader;
  data_header : ShredDataT → DataShredHeader;
  num_data_shreds : CodingShredHeader → Z;
  num_coding_shreds : CodingShredHeader → Z;
  (** [ShredVariant::MerkleCode { proof_size, chained, resigned }], if it is one *)
  merkle_code_variant : ShredCommonHeader → option (nat * bool * bool);
  (** methods of [merkle::Shred] and [merkle::ShredData] *)
  shred_slot : Shred → Z;
  shred_index : Shred → Z;
  shred_fec_set_index : Shred → Z;
  shred_type : Shred → ShredType;
  payload : Shred → bytes;
  data_complete : ShredDataT → bool;
  last_in_slot : ShredDataT → bool;
  (** [ShredType::Data], and [as u8] *)
  ShredType_Data : ShredType;
  shred_type_as_u8 : ShredType → Z;
  (** parsing, erasure recovery, deshredding, deserialization *)
  new_from_serialized_shred : bytes → option LedgerShred;
  Shred_try_from : LedgerShred → option Shred;
  recover : list Shred → option (list (option Shred));
  deshred : list bytes → option bytes;
  layout_get_data : bytes → option bytes;
  bincode_deserialize : bytes → option (list Entry);
  transactions_len : Entry → nat;
  TraceShred_decode_is_ok : bytes → bool;
  (** constants *)
  MAX_DATA_SHREDS_PER_SLOT : nat;
  MAX_PROCESSING_AGE : nat;
  SIZE_OF_PAYLOAD : nat;
  SIZE_OF_MERKLE_PROOF_ENTRY : nat;
  SIZE_OF_SIGNATURE : nat;
  (** the order [HashSet::iter] visits a set in; the standard library leaves it
      open, so it is any function of the set *)
  hashset_iter : list Shred → list Shred;
}.

(** What the proxy relies on: the widths of the header fields, that the shred
    type of a shred is that of its variant, that [Data as u8] is above
    [Code as u8], and that iterating a set visits its elements once each. *)
Class ShredLibLaws `{ShredLib} : Prop := {
  shred_slot_u64 s : in_width 64 (shred_slot s);
  shred_index_u32 s : in_width 32 (shred_index s);
  shred_fec_set_index_u32 s : in_width 32 (shred_fec_set_index s);
  num_data_shreds_u16 h : in_width 16 (num_data_shreds h);
  num_coding_shreds_u16 h : in_width 16 (num_coding_shreds h);
  shred_type_data s : shred_type (ShredData s) = ShredType_Data;
  shred_type_code s : shred_type (ShredCode s) ≠ ShredType_Data;
  shred_type_u8 s : in_width 8 (shred_type_as_u8 (shred_type s));
  shred_type_u8_order c :
    shred_type_as_u8 (shred_type (ShredCode c)) < shred_type_as_u8 ShredType_Data;
  hashset_iter_perm l : hashset_iter l ≡ₚ l;
}.

(** * [ComparableShred] *)

Section comparable.
Context `{ShredLib}.

(** The bytes of a code shred that [eq] compares: all but the Merkle proof and
    the retransmitter signature. *)
Definition comparison_len (proof_size : nat) (resigned : bool) : nat :=
  (SIZE_OF_PAYLOAD
   - (proof_size * SIZE_OF_MERKLE_PROOF_ENTRY
      + if resigned then SIZE_OF_SIGNATURE else 0))%nat.

(** [<ComparableShred as PartialEq>::eq] *)
Definition ComparableShred_eq (self other : Shred) : outcome bool :=
  match self with
  | ShredCode s1 =>
      match other with
      | ShredCode s2 =>
          match merkle_code_variant (code_common_header s1) with
          | Some (proof_size, _chained, resigned) =>
              let n := comparison_len proof_size resigned in
              if decide (coding_header s1 = coding_header s2) then
                if decide (code_common_header s1 = code_common_header s2) then
                  p1 ← vec_prefix (code_payload s1) n;
                  p2 ← vec_prefix (code_payload s2) n;
                  Ok (bool_decide (p1 = p2))
                else Ok false
              else Ok false
          | None => Ok false
          end
      | ShredData _ => Ok false
      end
  | ShredData s1 =>
      match other with
      | ShredCode _ => Ok false
      | ShredData s2 =>
          match layout_get_data (payload self) with
          | None => Ok false
          | Some s1_data =>
              match layout_get_data (payload other) with
              | None => Ok false
              | Some s2_data =>
                  Ok (bool_decide (data_header s1 = data_header s2
                                   ∧ data_common_header s1 = data_common_header s2
                                   ∧ s1_data = s2_data))
              end
          end
      end
  end.

(** What [<ComparableShred as Hash>::hash] feeds the hasher. *)
Definition ComparableShred_hash (self : Shred) :
    (ShredCommonHeader * CodingShredHeader) + (ShredCommonHeader * DataShredHeader) :=
  match self with
  | ShredCode s => inl (code_common_header s, coding_header s)
  | ShredData s => inr (data_common_header s, data_header s)
  end.

(** [HashSet::contains] and [HashSet::insert]: an element equal to a stored one
    is not inserted and does not replace it.  The set is its elements in order
    of insertion. *)
Fixpoint hashset_contains (s : Shred) (set : list Shred) : outcome bool :=
  match set with
  | [] => Ok false
  | x :: set =>
      b ← ComparableShred_eq s x;
      if b : bool then Ok true else hashset_contains s set
  end.

Definition hashset_insert (s : Shred) (set : list Shred) : outcome (list Shred) :=
  b ← hashset_contains s set;
  Ok (if b : bool then set else set ++ [s]).

(** A code shred whose payload is at least as long as what [eq] slices. *)
Definition payload_ok (s : Shred) : Prop :=
  match s with
  | ShredCode c => (SIZE_OF_PAYLOAD ≤ length (code_payload c))%nat
  | ShredData _ => True
  end.

(** A shred that is equal to itself: a Merkle code shred, or a data shred whose
    layout parses. *)
Definition comparable (s : Shred) : Prop :=
  match s with
  | ShredCode c => merkle_code_variant (code_common_header c) ≠ None
  | ShredData _ => layout_get_data (payload s) ≠ None
  end.

Lemma ComparableShred_eq_returns s1 s2 :
  payload_ok s1 → payload_ok s2 → ∃ b, ComparableShred_eq s1 s2 = Ok b.
Proof.
  destruct s1 as [c1|d1], s2 as [c2|d2]; simpl; intros H1 H2; [|by eauto..|].
  - destruct (merkle_code_variant _) as [[[ps ch] rs]|]; [|by eauto].
    repeat (case_decide; [|by eauto]).
    unfold vec_prefix, comparison_len.
    rewrite !decide_True by lia. simpl. eauto.
  - repeat case_match; eauto.
Qed.

(** Equal shreds agree on all that [eq] looks at. *)
Lemma ComparableShred_eq_true s1 s2 :
  ComparableShred_eq s1 s2 = Ok true →
  match s1, s2 with
  | ShredCode c1, ShredCode c2 =>
      coding_header c1 = coding_header c2 ∧ code_common_header c1 = code_common_header c2 ∧
      ∃ ps ch rs, merkle_code_variant (code_common_header c1) = Some (ps, ch, rs) ∧
        take (comparison_len ps rs) (code_payload c1)
          = take (comparison_len ps rs) (code_payload c2) ∧
        (comparison_len ps rs ≤ length (code_payload c1))%nat ∧
        (comparison_len ps rs ≤ length (code_payload c2))%nat
  | ShredData d1, ShredData d2 =>
      data_header d1 = data_header d2 ∧ data_common_header d1 = data_common_header d2 ∧
      is_Some (layout_get_data (payload s1)) ∧
      layout_get_data (payload s1) = layout_get_data (payload s2)
  | _, _ => False
  end.
Proof.
  destruct s1 as [c1|d1], s2 as [c2|d2]; simpl; [|done..|].
  - destruct (merkle_code_variant _) as [[[ps ch] rs]|]; [|done].
    repeat (case_decide; [|done]).
    intros (p1 & [? ->]%vec_prefix_Ok & (p2 & [? ->]%vec_prefix_Ok & Hb)%bind_Ok)%bind_Ok.
    injection Hb as Hp%bool_decide_eq_true. naive_solver.
  - case_match eqn:E1; [|done]. case_match eqn:E2; [|done].
    intros [= (Hh & Hc & ->)%bool_decide_eq_true]. naive_solver.
Qed.

Lemma ComparableShred_eq_true_intro s1 s2 :
  match s1, s2 with
  | ShredCode c1, ShredCode c2 =>
      coding_header c1 = coding_header c2 ∧ code_common_header c1 = code_common_header c2 ∧
      ∃ ps ch rs, merkle_code_variant (code_common_header c1) = Some (ps, ch, rs) ∧
        take (comparison_len ps rs) (code_payload c1)
          = take (comparison_len ps rs) (code_payload c2) ∧
        (comparison_len ps rs ≤ length (code_payload c1))%nat ∧
        (comparison_len ps rs ≤ length (code_payload c2))%nat
  | ShredData d1, ShredData d2 =>
      data_header d1 = data_header d2 ∧ data_common_header d1 = data_common_header d2 ∧
      is_Some (layout_get_data (payload s1)) ∧
      layout_get_data (payload s1) = layout_get_data (payload s2)
  | _, _ => False
  end → ComparableShred_eq s1 s2 = Ok true.
Proof.
  destruct s1 as [c1|d1], s2 as [c2|d2]; simpl; [|done..|].
  - intros (Hc & Hh & ps & ch & rs & Hv & Ht & Hl1 & Hl2). rewrite Hv.
    rewrite !decide_True by done. unfold vec_prefix. rewrite !decide_True by done. simpl.
    by rewrite bool_decide_eq_true_2.
  - intros (Hh & Hc & [x Hx] & Heq). rewrite <-Heq, Hx.
    by rewrite bool_decide_eq_true_2.
Qed.

(** Equal shreds feed the hasher the same bytes ([Hash] agrees with [Eq]). *)
Lemma ComparableShred_eq_hash s1 s2 :
  ComparableShred_eq s1 s2 = Ok true → ComparableShred_hash s1 = ComparableShred_hash s2.
Proof.
  intros E%ComparableShred_eq_true.
  destruct s1, s2; [|done..|]; destruct E as (E1 & E2 & _); simpl; by rewrite E1, E2.
Qed.

Lemma ComparableShred_eq_sym s1 s2 :
  ComparableShred_eq s1 s2 = Ok true → ComparableShred_eq s2 s1 = Ok true.
Proof.
  intros E%ComparableShred_eq_true. apply ComparableShred_eq_true_intro.
  destruct s1, s2; [|done..|].
  - destruct E as (-> & -> & ps & ch & rs & ? & ? & ? & ?). naive_solver.
  - destruct E as (-> & -> & [x Hx] & E). rewrite <-E. naive_solver.
Qed.

Lemma ComparableShred_eq_trans s1 s2 s3 :
  ComparableShred_eq s1 s2 = Ok true → ComparableShred_eq s2 s3 = Ok true →
  ComparableShred_eq s1 s3 = Ok true.
Proof.
  intros E1%ComparableShred_eq_true E2%ComparableShred_eq_true.
  apply ComparableShred_eq_true_intro. destruct s1, s2, s3; try done.
  - destruct E1 as (-> & -> & ps & ch & rs & Hv & ? & ? & ?).
    destruct E2 as (-> & Hh & ps' & ch' & rs' & Hv' & ? & ? & ?). rewrite Hh in *. simplify_eq.
    split_and!; [done..|]. do 3 eexists.
    split_and!; [done|congruence|done..].
  - destruct E1 as (-> & -> & ? & E1), E2 as (-> & -> & ? & E2). rewrite E1. naive_solver.
Qed.

Lemma ComparableShred_eq_refl s :
  payload_ok s → comparable s → ComparableShred_eq s s = Ok true.
Proof.
  intros Hp Hc. apply ComparableShred_eq_true_intro. destruct s; simpl in *.
  - destruct (merkle_code_variant _) as [[[ps ch] rs]|] eqn:E; [|done].
    split_and!; [done..|]. exists ps, ch, rs. unfold comparison_len.
    split_and!; [done..|lia|lia].
  - split_and!; [done..| |done]. by apply not_eq_None_Some.
Qed.

Lemma hashset_contains_returns s set :
  payload_ok s → Forall payload_ok set → ∃ b, hashset_contains s set = Ok b.
Proof.
  intros Hs. induction 1 as [|x set Hx Hset IH]; simpl; [eauto|].
  destruct (ComparableShred_eq_returns s x) as [b ->]; [done..|]. simpl.
  destruct b; eauto.
Qed.

Lemma hashset_insert_Ok s set set' :
  hashset_insert s set = Ok set' →
  set' = set ++ [s] ∨ (set' = set ∧ ∃ x, x ∈ set ∧ ComparableShred_eq s x = Ok true).
Proof.
  unfold hashset_insert. intros (b & Hb & Heq)%bind_Ok. injection Heq as <-.
  destruct b; [right|by left]. split; [done|].
  induction set as [|x set IH]; [done|]. simpl in Hb.
  apply bind_Ok in Hb as (b & Hx & Hb). destruct b; [set_solver|].
  destruct (IH Hb) as (y & Hy & ?). set_solver.
Qed.

Lemma hashset_insert_returns s set :
  payload_ok s → Forall payload_ok set → ∃ set', hashset_insert s set = Ok set'.
Proof.
  intros Hs Hset. unfold hashset_insert.
  destruct (hashset_contains_returns s set) as [b ->]; [done..|]. simpl. eauto.
Qed.

Lemma hashset_insert_elem_of s set set' x :
  hashset_insert s set = Ok set' → x ∈ set' → x = s ∨ x ∈ set.
Proof. intros [->|[-> _]]%hashset_insert_Ok; set_solver. Qed.
End comparable.
