(* ===== verification/Tracker.v ===== *)
(** [ShredStatus], [ShredsStateTracker], [update_state_tracker] and
    [get_indexes] of proxy/src/deshred.rs: what is known of the data shreds of
    one slot, and the search for a complete segment of them. *)

From S2P Require Import Prelude Shreds.

Inductive ShredStatus :=
  | Unknown
  | NotDataComplete
  | DataComplete.

#[global] Instance ShredStatus_eq_dec : EqDecision ShredStatus.
Proof. solve_decision. Defined.

Record ShredsStateTracker `{ShredTypes} := mkTracker {
  data_status : list ShredStatus;
  data_shreds : list (option Shred);
  already_recovered_fec_sets : list bool;
  already_deshredded : list bool;
}.
Arguments mkTracker {_} _ _ _ _.

Section tracker.
Context `{ShredLib}.

(** [<ShredsStateTracker as Default>::default] *)
Definition tracker_default : ShredsStateTracker := {|
  data_status := replicate MAX_DATA_SHREDS_PER_SLOT Unknown;
  data_shreds := replicate MAX_DATA_SHREDS_PER_SLOT None;
  already_recovered_fec_sets := replicate MAX_DATA_SHREDS_PER_SLOT false;
  already_deshredded := replicate MAX_DATA_SHREDS_PER_SLOT false;
|}.

(** [shred.index() as usize] and [shred.fec_set_index() as usize] *)
Definition idx (s : Shred) : nat := Z.to_nat (shred_index s).
Definition fec (s : Shred) : nat := Z.to_nat (shred_fec_set_index s).

(** [s.data_complete() || s.last_in_slot()] *)
Definition completes (s : ShredDataT) : bool := data_complete s || last_in_slot s.

(** [update_state_tracker]: the returned index (or [None]) and the tracker. *)
Definition update_state_tracker (shred : Shred) (t : ShredsStateTracker) :
    outcome (option nat * ShredsStateTracker) :=
  recovered ← vec_get (already_recovered_fec_sets t) (fec shred);
  if recovered : bool then Ok (None, t) else
  seen ← (if decide (shred_type shred = ShredType_Data) then
            d ← vec_get (data_shreds t) (idx shred);
            if decide (is_Some d) then Ok true else
            st ← vec_get (data_status t) (idx shred);
            Ok (bool_decide (st ≠ Unknown))
          else Ok false);
  if seen : bool then Ok (None, t) else
  match shred with
  | ShredData s =>
      ds ← vec_set (data_shreds t) (idx shred) (Some shred);
      st ← vec_set (data_status t) (idx shred)
             (if completes s then DataComplete else NotDataComplete);
      Ok (Some (idx shred),
          mkTracker st ds (already_recovered_fec_sets t) (already_deshredded t))
  | ShredCode _ => Ok (Some (idx shred), t)
  end.

(** The [while] loop of [get_indexes] towards the right: [None] when the
    function returns [None] from it, otherwise the value of [end] after it.
    The bound is the number of iterations left; [get_indexes] gives it the
    length of the vector, which it cannot exhaust. *)
Fixpoint scan_right (t : ShredsStateTracker) (bound e : nat) : outcome (option nat) :=
  if decide (e < length (data_status t))%nat then
    match bound with
    | O => Panicked LoopBoundReached
    | S bound =>
        d ← vec_get (already_deshredded t) e;
        if d : bool then Ok None else
        st ← vec_get (data_status t) e;
        match st with
        | Unknown => Ok None
        | DataComplete => Ok (Some e)
        | NotDataComplete => scan_right t bound (S e)
        end
    end
  else Ok (Some e).

(** The [loop] of [get_indexes] towards the left, with its [start] and [next]. *)
Fixpoint scan_left (t : ShredsStateTracker) (e start next : nat) :
    outcome (option (nat * nat * bool)) :=
  st ← vec_get (data_status t) next;
  match st with
  | NotDataComplete =>
      d ← vec_get (already_deshredded t) next;
      if d : bool then Ok None else
      match next with
      | O => Ok (Some (0%nat, e, false))
      | S next' => scan_left t e next next'
      end
  | DataComplete => Ok (Some (start, e, false))
  | Unknown => Ok (Some (start, e, true))
  end.

(** [get_indexes] *)
Definition get_indexes (t : ShredsStateTracker) (index : nat) :
    outcome (option (nat * nat * bool)) :=
  if decide (length (data_status t) ≤ index)%nat then Ok None else
  r ← scan_right t (length (data_status t)) index;
  match r with
  | None => Ok None
  | Some e =>
      if decide (e = length (data_status t)) then Ok None
      else if decide (e = 0%nat) then Ok (Some (0%nat, 0%nat, false))
      else match index with
           | O => Ok (Some (0%nat, e, false))
           | S next => scan_left t e index next
           end
  end.

(** [state_tracker.already_recovered_fec_sets[i] = true] *)
Definition set_recovered (i : nat) (t : ShredsStateTracker) : outcome ShredsStateTracker :=
  r ← vec_set (already_recovered_fec_sets t) i true;
  Ok (mkTracker (data_status t) (data_shreds t) r (already_deshredded t)).

(** [state_tracker.already_deshredded[i] = true] *)
Definition set_deshredded (i : nat) (t : ShredsStateTracker) : outcome ShredsStateTracker :=
  d ← vec_set (already_deshredded t) i true;
  Ok (mkTracker (data_status t) (data_shreds t) (already_recovered_fec_sets t) d).

(** The closure run over [to_deshred] after a successful deserialization. *)
Definition mark_deshredded (t : ShredsStateTracker) (shred : option Shred) :
    outcome ShredsStateTracker :=
  match shred with
  | None => Ok t
  | Some shred =>
      t ← set_recovered (fec shred) t;
      set_deshredded (idx shred) t
  end.

(** * What the tracker promises *)

(** The status a slot of [data_shreds] should have. *)
Definition status_of (o : option Shred) : ShredStatus :=
  match o with
  | Some (ShredData s) => if completes s then DataComplete else NotDataComplete
  | _ => Unknown
  end.

(** The four vectors have [MAX_DATA_SHREDS_PER_SLOT] entries; a stored shred is
    a data shred at its own index, and the status vector is the status of the
    stored shreds; what is marked deshredded is stored and its FEC set is
    marked recovered. *)
Record tracker_wf (t : ShredsStateTracker) : Prop := {
  wf_len_status : length (data_status t) = MAX_DATA_SHREDS_PER_SLOT;
  wf_len_shreds : length (data_shreds t) = MAX_DATA_SHREDS_PER_SLOT;
  wf_len_recovered : length (already_recovered_fec_sets t) = MAX_DATA_SHREDS_PER_SLOT;
  wf_len_deshredded : length (already_deshredded t) = MAX_DATA_SHREDS_PER_SLOT;
  wf_shreds i s :
    data_shreds t !! i = Some (Some s) → (∃ d, s = ShredData d) ∧ idx s = i;
  wf_status i o : data_shreds t !! i = Some o → data_status t !! i = Some (status_of o);
  wf_deshredded i :
    already_deshredded t !! i = Some true →
    ∃ s, data_shreds t !! i = Some (Some s) ∧
         already_recovered_fec_sets t !! fec s = Some true;
}.

(** A segment at [index]: the declarative reading of the doc comment of
    [get_indexes].  It ends at the first complete shred at or after [index],
    all its shreds are known and none has been deshredded, and it starts at
    index 0, after a complete shred, or (flag [u]) after an unknown one. *)
Record is_segment (t : ShredsStateTracker) (index s e : nat) (u : bool) : Prop := {
  seg_contains : (s ≤ index ≤ e)%nat;
  seg_end : data_status t !! e = Some DataComplete;
  seg_middle j : (s ≤ j < e)%nat → data_status t !! j = Some NotDataComplete;
  seg_fresh j : (s ≤ j ≤ e)%nat → already_deshredded t !! j = Some false;
  seg_start :
    match s with
    | O => u = false
    | S p => data_status t !! p = Some (if u then Unknown else DataComplete)
    end;
}.

(** The vectors [get_indexes] reads in lockstep. *)
Definition same_len (t : ShredsStateTracker) : Prop :=
  length (already_deshredded t) = length (data_status t).

(** A shred the tracker's vectors have room for. *)
Definition in_bounds (s : Shred) : Prop :=
  (idx s < MAX_DATA_SHREDS_PER_SLOT)%nat ∧ (fec s < MAX_DATA_SHREDS_PER_SLOT)%nat.

(** [t'] knows at least what [t] knows, and has forgotten nothing. *)
Record tracker_le (t t' : ShredsStateTracker) : Prop := {
  le_shreds i s : data_shreds t !! i = Some (Some s) → data_shreds t' !! i = Some (Some s);
  le_recovered i :
    already_recovered_fec_sets t !! i = Some true →
    already_recovered_fec_sets t' !! i = Some true;
  le_deshredded i :
    already_deshredded t !! i = Some true → already_deshredded t' !! i = Some true;
}.

(** ** Lemmas: the searches *)

Lemma scan_right_Some t bound i e :
  same_len t → (length (data_status t) ≤ bound + i)%nat →
  scan_right t bound i = Ok (Some e) →
  (i ≤ e)%nat ∧
  (∀ j, (i ≤ j < e)%nat → data_status t !! j = Some NotDataComplete ∧
                          already_deshredded t !! j = Some false) ∧
  ((length (data_status t) ≤ e)%nat ∨
   data_status t !! e = Some DataComplete ∧ already_deshredded t !! e = Some false).
Proof.
  intros Hlen. revert i. induction bound as [|bound IH]; intros i Hb; simpl.
  { rewrite decide_False by lia. intros [= ->]. split_and!; [lia|intros; lia|lia]. }
  case_decide as Hi; [|intros [= ->]; split_and!; [lia|intros; lia|lia]].
  intros (d & Hd%vec_get_Ok & Hr)%bind_Ok. destruct d; [done|].
  apply bind_Ok in Hr as (st & Hst%vec_get_Ok & Hr). destruct st; simplify_eq/=.
  - apply IH in Hr as (Hle & Hmid & Hend); [|lia].
    split_and!; [lia| |done]. intros j Hj.
    destruct (decide (j = i)) as [->|]; [done|]. apply Hmid. lia.
  - split_and!; [lia|intros; lia|by right].
Qed.

Lemma scan_right_intro t bound i e :
  same_len t → (length (data_status t) ≤ bound + i)%nat → (i ≤ e)%nat →
  (∀ j, (i ≤ j < e)%nat → data_status t !! j = Some NotDataComplete ∧
                          already_deshredded t !! j = Some false) →
  data_status t !! e = Some DataComplete → already_deshredded t !! e = Some false →
  scan_right t bound i = Ok (Some e).
Proof.
  intros Hlen. revert i. induction bound as [|bound IH]; intros i Hb Hie Hmid He Hde;
    pose proof (lookup_lt_Some _ _ _ He); [lia|]. simpl.
  rewrite decide_True by lia.
  destruct (decide (i = e)) as [->|].
  - by rewrite (vec_get_lookup _ _ _ Hde), (vec_get_lookup _ _ _ He).
  - destruct (Hmid i) as [Hi Hdi]; [lia|].
    rewrite (vec_get_lookup _ _ _ Hdi), (vec_get_lookup _ _ _ Hi). simpl. apply IH; try done; [lia|lia|]. intros j Hj. apply Hmid. lia.
Qed.

Lemma scan_right_total t bound i :
  same_len t → (length (data_status t) ≤ bound + i)%nat →
  ∃ r, scan_right t bound i = Ok r.
Proof.
  intros Hlen. revert i. induction bound as [|bound IH]; intros i Hb; simpl.
  { rewrite decide_False by lia. eauto. }
  case_decide as Hi; [|by eauto]. unfold same_len in Hlen.
  destruct (vec_get_lt (already_deshredded t) i) as (d & -> & _); [lia|]. simpl.
  destruct d; [by eauto|].
  destruct (vec_get_lt (data_status t) i) as (st & -> & _); [lia|]. simpl.
  destruct st; [by eauto| |by eauto]. apply IH. lia.
Qed.

(** The invariant of the left search: everything in [start..] down to the
    position it starts from is known, incomplete and fresh. *)
Lemma scan_left_Some t e0 start next s e u :
  start = S next → scan_left t e0 start next = Ok (Some (s, e, u)) →
  e = e0 ∧ (s ≤ start)%nat ∧
  (∀ j, (s ≤ j < start)%nat → data_status t !! j = Some NotDataComplete ∧
                              already_deshredded t !! j = Some false) ∧
  match s with
  | O => u = false
  | S p => data_status t !! p = Some (if u then Unknown else DataComplete)
  end.
Proof.
  revert start. induction next as [|next IH]; intros start ->; cbn [scan_left];
    intros (st & Hst%vec_get_Ok & Hr)%bind_Ok; destruct st; simplify_eq/=;
    try (split_and!; [done|lia|intros; lia|done]).
  - apply bind_Ok in Hr as (d & Hd%vec_get_Ok & Hr). destruct d; simplify_eq/=.
    split_and!; [done|lia| |done]. intros j Hj. by replace j with 0%nat by lia.
  - apply bind_Ok in Hr as (d & Hd%vec_get_Ok & Hr). destruct d; [done|].
    apply IH in Hr as (-> & Hle & Hmid & Hs); [|done].
    split_and!; [done|lia| |done]. intros j Hj.
    destruct (decide (j = S next)) as [->|]; [done|]. apply Hmid. lia.
Qed.

Lemma scan_left_intro t e start next s u :
  start = S next → (s ≤ start)%nat →
  (∀ j, (s ≤ j < start)%nat → data_status t !! j = Some NotDataComplete ∧
                              already_deshredded t !! j = Some false) →
  match s with
  | O => u = false
  | S p => data_status t !! p = Some (if u then Unknown else DataComplete)
  end →
  scan_left t e start next = Ok (Some (s, e, u)).
Proof.
  revert start. induction next as [|next IH]; intros start -> Hle Hmid Hs; cbn [scan_left].
  - destruct (decide (s = 1%nat)) as [->|].
    { rewrite (vec_get_lookup _ _ _ Hs). by destruct u. }
    assert (s = 0%nat) as -> by lia. destruct (Hmid 0%nat) as [Hst Hd]; [lia|].
    rewrite (vec_get_lookup _ _ _ Hst). simpl. rewrite (vec_get_lookup _ _ _ Hd). by subst.
  - destruct (decide (s = S (S next))) as [->|].
    { rewrite (vec_get_lookup _ _ _ Hs). by destruct u. }
    destruct (Hmid (S next)) as [Hst Hd]; [lia|].
    rewrite (vec_get_lookup _ _ _ Hst). simpl. rewrite (vec_get_lookup _ _ _ Hd).
    simpl. apply IH; [done|lia| |done]. intros j Hj. apply Hmid. lia.
Qed.

Lemma scan_left_total t e start next :
  same_len t → (next < length (data_status t))%nat →
  ∃ r, scan_left t e start next = Ok r.
Proof.
  unfold same_len. intros Hlen. revert start.
  induction next as [|next IH]; intros start Hn; cbn [scan_left];
    (destruct (vec_get_lt _ _ Hn) as (st & -> & _); simpl;
     destruct st; [by eauto| |by eauto]); rewrite <-Hlen in Hn;
    (destruct (vec_get_lt _ _ Hn) as (d & -> & _); simpl; destruct d; [by eauto|]).
  - eauto.
  - apply IH. lia.
Qed.

Lemma get_indexes_total t i : same_len t → ∃ r, get_indexes t i = Ok r.
Proof.
  intros Hlen. unfold get_indexes. case_decide as Hi; [by eauto|].
  destruct (scan_right_total t (length (data_status t)) i) as [r ->]; [done|lia|]. simpl.
  destruct r as [e|]; [|by eauto]. repeat (case_decide; [by eauto|]).
  destruct i as [|next]; [by eauto|]. apply scan_left_total; [done|lia].
Qed.

Lemma get_indexes_segment t i s e u :
  same_len t → get_indexes t i = Ok (Some (s, e, u)) → is_segment t i s e u.
Proof.
  intros Hlen. unfold get_indexes. case_decide as Hi; [done|].
  intros (r & Hr & Hg)%bind_Ok. destruct r as [e'|]; [|done].
  apply scan_right_Some in Hr as (Hie & Hmid & Hend); [|done|lia].
  case_decide as He; [done|].
  destruct Hend as [Hend|[Hend Hde]].
  { exfalso. destruct (Hmid (length (data_status t))) as [Hx _]; [lia|].
    apply lookup_lt_Some in Hx. lia. }
  assert (∀ j, (i ≤ j ≤ e')%nat → already_deshredded t !! j = Some false) as Hfresh.
  { intros j Hj. destruct (decide (j = e')) as [->|]; [done|]. apply Hmid. lia. }
  case_decide as He0; [|destruct i as [|next]].
  - simplify_eq. split; [lia|done|intros; lia| |done].
    intros j Hj. apply Hfresh. lia.
  - simplify_eq. split; [lia|done| |auto|done]. intros. by apply Hmid.
  - apply scan_left_Some in Hg as (-> & Hle & Hl & Hs); [|done].
    split; [lia|done| | |done].
    + intros j Hj. destruct (decide (j < S next)%nat); [apply Hl; lia|apply Hmid; lia].
    + intros j Hj. destruct (decide (j < S next)%nat); [apply Hl; lia|apply Hfresh; lia].
Qed.

Lemma segment_get_indexes t i s e u :
  same_len t → is_segment t i s e u → get_indexes t i = Ok (Some (s, e, u)).
Proof.
  intros Hlen [Hc He Hm Hf Hs]. pose proof (lookup_lt_Some _ _ _ He).
  unfold get_indexes. rewrite decide_False by lia.
  rewrite (scan_right_intro t _ i e); try done; [|lia|lia| |apply Hf; lia].
  2:{ intros j Hj. split; [apply Hm; lia|apply Hf; lia]. }
  simpl. rewrite decide_False by lia. case_decide as He0.
  - subst. assert (s = 0%nat) as -> by lia. by subst.
  - destruct i as [|next].
    + assert (s = 0%nat) as -> by lia. by subst.
    + apply scan_left_intro; [done|lia| |done].
      intros j Hj. split; [apply Hm; lia|apply Hf; lia].
Qed.
(** Segments of one index are unique, whatever way they are found. *)
Lemma is_segment_unique t i s1 e1 u1 s2 e2 u2 :
  same_len t → is_segment t i s1 e1 u1 → is_segment t i s2 e2 u2 →
  s1 = s2 ∧ e1 = e2 ∧ u1 = u2.
Proof.
  intros Hl H1%segment_get_indexes H2%segment_get_indexes; [|done..].
  rewrite H1 in H2. by simplify_eq.
Qed.

(** ** Lemmas: the invariant *)

Lemma wf_same_len t : tracker_wf t → same_len t.
Proof. intros Ht. unfold same_len. by rewrite wf_len_deshredded, wf_len_status. Qed.

Lemma default_wf : tracker_wf tracker_default.
Proof.
  split; simpl; rewrite ?length_replicate; try done.
  - intros i s [Hx _]%lookup_replicate. done.
  - intros i o [-> Hi]%lookup_replicate. by rewrite lookup_replicate.
  - intros i [Hx _]%lookup_replicate. done.
Qed.

Lemma tracker_le_refl t : tracker_le t t.
Proof. by split. Qed.

Lemma tracker_le_trans t1 t2 t3 : tracker_le t1 t2 → tracker_le t2 t3 → tracker_le t1 t3.
Proof. intros [] []. split; eauto. Qed.

(** The tracker with a new data shred in it. *)
Definition store_shred (d : ShredDataT) (t : ShredsStateTracker) : ShredsStateTracker :=
  mkTracker
    (<[idx (ShredData d) := if completes d then DataComplete else NotDataComplete]>
       (data_status t))
    (<[idx (ShredData d) := Some (ShredData d)]> (data_shreds t))
    (already_recovered_fec_sets t) (already_deshredded t).

Lemma store_shred_wf d t :
  tracker_wf t → data_shreds t !! idx (ShredData d) = Some None →
  tracker_wf (store_shred d t).
Proof.
  intros [L1 L2 L3 L4 Hsh Hst Hd] Hnone.
  pose proof (lookup_lt_Some _ _ _ Hnone) as Hlt.
  split; simpl; rewrite ?length_insert; try done.
  - intros i s. rewrite list_lookup_insert. case_decide; [|by apply Hsh].
    intros [= <-]. destruct_and!. subst. eauto.
  - intros i o. rewrite !list_lookup_insert. rewrite L1, <-L2.
    case_decide; [|by apply Hst]. by intros [= <-].
  - intros i (s & Hs & Hr)%Hd. exists s. split; [|done].
    rewrite list_lookup_insert_ne; [done|]. intros <-. congruence.
Qed.

Lemma store_shred_le d t :
  data_shreds t !! idx (ShredData d) = Some None → tracker_le t (store_shred d t).
Proof.
  intros Hnone. split; simpl; try done. intros i s Hi.
  rewrite list_lookup_insert_ne; [done|]. intros <-. congruence.
Qed.

Lemma set_recovered_Ok i t t' :
  set_recovered i t = Ok t' ↔
  (i < length (already_recovered_fec_sets t))%nat ∧
  t' = mkTracker (data_status t) (data_shreds t)
         (<[i:=true]> (already_recovered_fec_sets t)) (already_deshredded t).
Proof.
  unfold set_recovered. rewrite bind_Ok. setoid_rewrite vec_set_Ok. naive_solver.
Qed.

Lemma set_deshredded_Ok i t t' :
  set_deshredded i t = Ok t' ↔
  (i < length (already_deshredded t))%nat ∧
  t' = mkTracker (data_status t) (data_shreds t) (already_recovered_fec_sets t)
         (<[i:=true]> (already_deshredded t)).
Proof.
  unfold set_deshredded. rewrite bind_Ok. setoid_rewrite vec_set_Ok. naive_solver.
Qed.

Lemma insert_true_mono (l : list bool) i j :
  l !! j = Some true → <[i:=true]> l !! j = Some true.
Proof.
  intros Hj. rewrite list_lookup_insert. case_decide; [|done]. done.
Qed.

Lemma set_recovered_wf i t t' : tracker_wf t → set_recovered i t = Ok t' → tracker_wf t'.
Proof.
  intros [] [? ->]%set_recovered_Ok. split; simpl; rewrite ?length_insert; try done.
  intros j (s & ? & ?)%wf_deshredded0. eauto using insert_true_mono.
Qed.

Lemma set_recovered_le i t t' : set_recovered i t = Ok t' → tracker_le t t'.
Proof. intros [? ->]%set_recovered_Ok. split; simpl; eauto using insert_true_mono. Qed.

Lemma mark_deshredded_Ok s t t' :
  mark_deshredded t (Some s) = Ok t' ↔
  (fec s < length (already_recovered_fec_sets t))%nat ∧
  (idx s < length (already_deshredded t))%nat ∧
  t' = mkTracker (data_status t) (data_shreds t)
         (<[fec s:=true]> (already_recovered_fec_sets t))
         (<[idx s:=true]> (already_deshredded t)).
Proof.
  simpl. rewrite bind_Ok. setoid_rewrite set_recovered_Ok. split.
  - intros (t1 & [? ->] & [? ->]%set_deshredded_Ok). done.
  - intros (? & ? & ->). eexists. split; [done|]. by apply set_deshredded_Ok.
Qed.

Lemma mark_deshredded_wf o t t' :
  tracker_wf t → (∀ s, o = Some s → data_shreds t !! idx s = Some (Some s)) →
  mark_deshredded t o = Ok t' → tracker_wf t'.
Proof.
  intros Ht Ho Hm. destruct o as [s|]; [|by simplify_eq/=].
  apply mark_deshredded_Ok in Hm as (? & ? & ->). destruct Ht.
  split; simpl; rewrite ?length_insert; try done.
  intros j. rewrite list_lookup_insert. case_decide as Hj.
  - intros _. destruct Hj as [<- _]. exists s. split; [by apply Ho|].
    rewrite list_lookup_insert_eq; [done|]. done.
  - intros (s' & ? & ?)%wf_deshredded0. eauto using insert_true_mono.
Qed.

Lemma mark_deshredded_le o t t' : mark_deshredded t o = Ok t' → tracker_le t t'.
Proof.
  destruct o as [s|]; [|intros; simplify_eq/=; apply tracker_le_refl].
  intros (? & ? & ->)%mark_deshredded_Ok. split; simpl; eauto using insert_true_mono.
Qed.

(** ** Lemmas: [update_state_tracker] *)

Context `{!ShredLibLaws}.

Inductive update_result (s : Shred) (t : ShredsStateTracker) :
    option nat * ShredsStateTracker → Prop :=
  | update_recovered :
      already_recovered_fec_sets t !! fec s = Some true → update_result s t (None, t)
  | update_stored d :
      s = ShredData d → (∃ s', data_shreds t !! idx s = Some (Some s')) →
      update_result s t (None, t)
  | update_new d :
      s = ShredData d → already_recovered_fec_sets t !! fec s = Some false →
      data_shreds t !! idx s = Some None →
      update_result s t (Some (idx s), store_shred d t)
  | update_code c :
      s = ShredCode c → already_recovered_fec_sets t !! fec s = Some false →
      update_result s t (Some (idx s), t).

Lemma update_state_tracker_cases s t r :
  tracker_wf t → update_state_tracker s t = Ok r → update_result s t r.
Proof.
  intros Ht. unfold update_state_tracker.
  intros (rec & Hrec%vec_get_Ok & Hr)%bind_Ok.
  destruct rec; [simplify_eq/=; by constructor|].
  apply bind_Ok in Hr as (seen & Hseen & Hr). destruct s as [c|d].
  - rewrite decide_False in Hseen by apply shred_type_code. simplify_eq/=.
    by econstructor.
  - rewrite decide_True in Hseen by apply shred_type_data.
    apply bind_Ok in Hseen as (o & Ho%vec_get_Ok & Hseen).
    destruct o as [s'|].
    { rewrite decide_True in Hseen by done. simplify_eq/=. eapply update_stored; eauto. }
    rewrite decide_False in Hseen by (by intros [? ?]).
    apply bind_Ok in Hseen as (st & Hst%vec_get_Ok & Hseen).
    pose proof (wf_status _ Ht _ _ Ho) as Hst'. simplify_eq/=.
    apply bind_Ok in Hr as (ds & [_ ->]%vec_set_Ok & Hr).
    apply bind_Ok in Hr as (sts & [_ ->]%vec_set_Ok & Hr). simplify_eq/=.
    by apply update_new.
Qed.

Lemma update_state_tracker_returns s t :
  tracker_wf t → in_bounds s → ∃ r, update_state_tracker s t = Ok r.
Proof.
  intros Ht [Hi Hf]. unfold update_state_tracker. destruct Ht.
  destruct (vec_get_lt (already_recovered_fec_sets t) (fec s)) as (rec & -> & _); [lia|].
  simpl. destruct rec; [by eauto|].
  destruct (vec_get_lt (data_shreds t) (idx s)) as (o & -> & _); [lia|].
  destruct (vec_get_lt (data_status t) (idx s)) as (st & -> & _); [lia|].
  simpl. assert (∀ b : bool, ∃ r,
    (if b then Ok (None, t) else
     match s with
     | ShredData d =>
         ds ← vec_set (data_shreds t) (idx s) (Some s);
         st ← vec_set (data_status t) (idx s)
                (if completes d then DataComplete else NotDataComplete);
         Ok (Some (idx s), mkTracker st ds (already_recovered_fec_sets t) (already_deshredded t))
     | ShredCode _ => Ok (Some (idx s), t)
     end) = Ok r) as Hstore.
  { intros []; [by eauto|]. destruct s; [by eauto|].
    rewrite !vec_set_lt by lia. simpl. eauto. }
  destruct (decide (shred_type s = _)); simpl; [destruct (decide (is_Some o)); simpl|];
    [apply (Hstore true)|apply Hstore|apply (Hstore false)].
Qed.

Lemma update_state_tracker_wf s t o t' :
  tracker_wf t → update_state_tracker s t = Ok (o, t') → tracker_wf t'.
Proof.
  intros Ht Hu. pose proof (update_state_tracker_cases _ _ _ Ht Hu) as Hr.
  inversion Hr; subst; try done. by apply store_shred_wf.
Qed.

Lemma update_state_tracker_le s t o t' :
  tracker_wf t → update_state_tracker s t = Ok (o, t') → tracker_le t t'.
Proof.
  intros Ht Hu. pose proof (update_state_tracker_cases _ _ _ Ht Hu) as Hr.
  inversion Hr; subst; try apply tracker_le_refl. by apply store_shred_le.
Qed.
End tracker.
