(* ===== verification/FecSet.v ===== *)
(** One FEC set of proxy/src/deshred.rs: [get_data_shred_info], which decides
    whether a set can be recovered, and the order in which its shreds are handed
    to [merkle::recover]. *)

From S2P Require Import Prelude Shreds Tracker.

Section fecset.
Context `{ShredLib} `{BuildProfile}.

(** One iteration of the loop of [get_data_shred_info].  The accumulator is
    (num_expected_data_shreds, num_expected_coding_shreds, num_data_shreds,
    num_coding_shreds), all [u16]; [index - fec_set_index] is a [u32]
    subtraction, then truncated to [u16]. *)
Definition info_step (acc : Z * Z * Z * Z) (shred : Shred) : outcome (Z * Z * Z * Z) :=
  let '(num_expected_data, num_expected_coding, num_data, num_coding) := acc in
  match shred with
  | ShredCode s =>
      num_coding ← arith 16 (num_coding + 1);
      Ok (num_data_shreds (coding_header s), num_coding_shreds (coding_header s),
          num_data, num_coding)
  | ShredData s =>
      num_data ← arith 16 (num_data + 1);
      if bool_decide (num_expected_data = 0) && completes s then
        d ← arith 32 (shred_index shred - shred_fec_set_index shred);
        n ← arith 16 (wrap 16 d + 1);
        Ok (n, num_expected_coding, num_data, num_coding)
      else Ok (num_expected_data, num_expected_coding, num_data, num_coding)
  end.

(** [get_data_shred_info] *)
Definition get_data_shred_info (shreds : list Shred) : outcome (Z * Z * Z * Z) :=
  foldM info_step (0, 0, 0, 0) (hashset_iter shreds).

(** The key of [sorted_by_key]: [(u8::MAX - shred_type as u8, index)]. *)
Definition sort_key (s : Shred) : Z * Z :=
  (255 - shred_type_as_u8 (shred_type s), shred_index s).

(** The derived lexicographic order on pairs of integers. *)
Definition pair_leb (x y : Z * Z) : bool :=
  (x.1 <? y.1) || ((x.1 =? y.1) && (x.2 <=? y.2)).

(** [merkle_shreds], the argument of [merkle::recover]. *)
Definition merkle_shreds (shreds : list Shred) : list Shred :=
  sort_by (λ a b, pair_leb (sort_key a) (sort_key b)) (hashset_iter shreds).

(** * Specification *)

Definition is_code (s : Shred) : bool := match s with ShredCode _ => true | _ => false end.
Definition is_data (s : Shred) : bool := negb (is_code s).
Definition is_last (s : Shred) : bool :=
  match s with ShredData d => completes d | _ => false end.
Definition count (p : Shred → bool) (l : list Shred) : Z :=
  sumZ (λ s, if p s then 1 else 0) l.
#[local] Arguments count : simpl never.

(** The size a set has if [s] is its last data shred, as the code computes it. *)
Definition size_from_last (s : Shred) : Z :=
  wrap 16 (wrap 16 (wrap 32 (shred_index s - shred_fec_set_index s)) + 1).

(** The shreds of an honest FEC set: the code shreds agree on the two sizes and
    the data shreds flagged as last agree on the size. *)
Record coherent (n m k : Z) (shreds : list Shred) : Prop := {
  coh_code c : ShredCode c ∈ shreds →
    num_data_shreds (coding_header c) = n ∧ num_coding_shreds (coding_header c) = m;
  coh_nonzero : n ≠ 0;
  coh_last s : s ∈ shreds → is_last s = true → size_from_last s = k;
}.

(** * Lemmas *)

Lemma pair_leb_total x y : pair_leb x y = true ∨ pair_leb y x = true.
Proof.
  unfold pair_leb. rewrite !orb_true_iff, !andb_true_iff, !Z.ltb_lt, !Z.eqb_eq, !Z.leb_le.
  lia.
Qed.

Lemma pair_leb_trans x y z : pair_leb x y = true → pair_leb y z = true → pair_leb x z = true.
Proof.
  unfold pair_leb. rewrite !orb_true_iff, !andb_true_iff, !Z.ltb_lt, !Z.eqb_eq, !Z.leb_le.
  lia.
Qed.

Lemma pair_leb_antisym x y : pair_leb x y = true → pair_leb y x = true → x = y.
Proof.
  unfold pair_leb. rewrite !orb_true_iff, !andb_true_iff, !Z.ltb_lt, !Z.eqb_eq, !Z.leb_le.
  destruct x, y. simpl. intros. f_equal; lia.
Qed.

Lemma count_cons p x l : count p (x :: l) = (if p x then 1 else 0) + count p l.
Proof. done. Qed.

#[global] Instance count_perm p : Proper ((≡ₚ) ==> (=)) (count p).
Proof. intros l1 l2 Hl. unfold count. by rewrite Hl. Qed.

(** The loop, in closed form: on an honest set the expected sizes are those of
    the code shreds if there is one, else that of the last data shred. *)
Definition info_summary (n m k : Z) (l : list Shred) (acc : Z * Z * Z * Z) : Z * Z * Z * Z :=
  let '(ned, nec, nd, nc) := acc in
  (if existsb is_code l then n
   else if bool_decide (ned = 0) && existsb is_last l then k else ned,
   if existsb is_code l then m else nec,
   wrap 16 (nd + count is_data l),
   wrap 16 (nc + count is_code l)).

Lemma tuple4_eq {A} (a a' b b' c c' d d' : A) :
  a = a' → b = b' → c = c' → d = d' → (a, b, c, d) = (a', b', c', d').
Proof. by intros -> -> -> ->. Qed.

Lemma coherent_cons n m k x l : coherent n m k (x :: l) → coherent n m k l.
Proof. intros [Hc Hn Hl]. split; [|done|]; intros; [apply Hc|apply Hl]; set_solver. Qed.

Lemma info_step_summary n m k x l acc acc' :
  coherent n m k (x :: l) → info_step acc x = Ok acc' →
  info_summary n m k l acc' = info_summary n m k (x :: l) acc.
Proof.
  intros [Hc Hn Hl] Hs. destruct acc as [[[ned nec] nd] nc]. destruct x as [c|d]; simpl in Hs.
  - apply bind_Ok in Hs as (nc' & ->%arith_wrap & Hs). simplify_eq.
    destruct (Hc c) as [-> ->]; [set_solver|]. simpl.
    rewrite !count_cons. simpl. rewrite bool_decide_eq_false_2 by done.
    autorewrite with rust. apply tuple4_eq; [by destruct (existsb is_code l)..|done|f_equal; lia].
  - apply bind_Ok in Hs as (nd' & ->%arith_wrap & Hs). simpl. rewrite !count_cons. simpl.
    destruct (completes d) eqn:Hd; rewrite ?andb_true_r, ?andb_false_r in Hs; simpl.
    + case_bool_decide as Hz; simpl in *.
      * apply bind_Ok in Hs as (v & ->%arith_wrap & Hs).
        apply bind_Ok in Hs as (v & ->%arith_wrap & Hs). simplify_eq.
        assert (wrap 16 (wrap 16 (wrap 32 (shred_index (ShredData d)
                - shred_fec_set_index (ShredData d))) + 1) = k) as ->
          by (apply (Hl (ShredData d)); [set_solver|done]). simpl.
        autorewrite with rust. apply tuple4_eq; [|done|f_equal; lia|done].
        destruct (existsb is_code l); [done|]. by destruct (_ && _).
      * simplify_eq. simpl. rewrite bool_decide_eq_false_2 by done.
        autorewrite with rust. apply tuple4_eq; [done|done|f_equal; lia|done].
    + simplify_eq. simpl. autorewrite with rust.
      apply tuple4_eq; [done|done|f_equal; lia|done].
Qed.

Lemma info_loop n m k l acc r :
  coherent n m k l → in_width 16 acc.1.2 → in_width 16 acc.2 →
  foldM info_step acc l = Ok r → r = info_summary n m k l acc.
Proof.
  revert acc. induction l as [|x l IH]; intros acc Hcoh Hnd Hnc.
  - destruct acc as [[[ned nec] nd] nc]. intros [= <-]. simpl in *.
    rewrite andb_false_r. unfold count, sumZ. simpl. rewrite !Z.add_0_r. by rewrite !wrap_small.
  - simpl. intros (acc' & Hs & Hr)%bind_Ok.
    rewrite <-(info_step_summary n m k x l acc acc') by done.
    apply IH in Hr; [done|by eapply coherent_cons| |];
      destruct acc as [[[ned nec] nd] nc], x; simpl in *;
      apply bind_Ok in Hs as (v & ->%arith_wrap & Hs);
      repeat (case_match; repeat (apply bind_Ok in Hs as (? & ? & Hs)));
      simplify_eq; simpl in *; try done; by apply wrap_range.
Qed.

(** In the release profile the loop never panics. *)
Lemma info_loop_release acc l :
  overflow_checks = false → ∃ r, foldM info_step acc l = Ok r.
Proof.
  intros Ho. revert acc. induction l as [|x l IH]; intros acc; simpl; [eauto|].
  assert (∃ acc', info_step acc x = Ok acc') as [acc' ->]; [|by apply IH].
  destruct acc as [[[ned nec] nd] nc], x as [c|d]; simpl; [|case_match];
    repeat (rewrite arith_release by done; simpl); eauto.
Qed.

Lemma get_data_shred_info_release shreds :
  overflow_checks = false → ∃ r, get_data_shred_info shreds = Ok r.
Proof. apply info_loop_release. Qed.

Context `{!ShredLibLaws}.

Lemma merkle_shreds_perm shreds : merkle_shreds shreds ≡ₚ shreds.
Proof. unfold merkle_shreds. by rewrite sort_by_perm, hashset_iter_perm. Qed.

Lemma merkle_shreds_sorted shreds :
  StronglySorted (λ a b, pair_leb (sort_key a) (sort_key b) = true) (merkle_shreds shreds).
Proof.
  apply sort_by_sorted.
  - intros. apply pair_leb_total.
  - intros x y z. apply pair_leb_trans.
Qed.

(** No data shred is above a code shred in the sort order. *)
Lemma sort_key_code_data c d :
  pair_leb (sort_key (ShredCode c)) (sort_key (ShredData d)) = false.
Proof.
  apply not_true_is_false. unfold pair_leb, sort_key. simpl.
  rewrite orb_true_iff, andb_true_iff, Z.ltb_lt, Z.eqb_eq, Z.leb_le, shred_type_data.
  pose proof (shred_type_u8_order c). lia.
Qed.

Lemma sorted_partition l :
  StronglySorted (λ a b, pair_leb (sort_key a) (sort_key b) = true) l →
  l = List.filter is_data l ++ List.filter is_code l.
Proof.
  induction 1 as [|x l Hl IH Hx]; [done|]. destruct x as [c|d]; simpl; [|by f_equal].
  assert (List.filter is_data l = []) as Hd.
  { clear IH Hl. induction Hx as [|y l Hy Hl' IH]; [done|]. destruct y as [c'|d]; simpl; [done|].
    by rewrite sort_key_code_data in Hy. }
  rewrite Hd in IH |- *. simpl in *. by f_equal.
Qed.

Lemma info_summary_perm n m k l1 l2 acc :
  l1 ≡ₚ l2 → info_summary n m k l1 acc = info_summary n m k l2 acc.
Proof.
  intros Hl. destruct acc as [[[ned nec] nd] nc]. unfold info_summary.
  assert (∀ p, existsb p l1 = existsb p l2) as Hex.
  { intros p. apply eq_true_iff_eq. rewrite !existsb_exists.
    by setoid_rewrite <-list_elem_of_In; setoid_rewrite Hl. }
  by rewrite !Hex, Hl.
Qed.

Lemma coherent_perm n m k l1 l2 : l1 ≡ₚ l2 → coherent n m k l1 → coherent n m k l2.
Proof.
  intros Hl [Hc Hn Hs]. split; [|done|]; intros; [apply Hc|apply Hs]; by rewrite ?Hl.
Qed.

Lemma info_of_coherent n m k shreds :
  overflow_checks = false → coherent n m k shreds →
  get_data_shred_info shreds = Ok (info_summary n m k shreds (0, 0, 0, 0)).
Proof.
  intros Ho Hc. destruct (get_data_shred_info_release shreds Ho) as [r Hr]. rewrite Hr.
  unfold get_data_shred_info in Hr.
  apply (info_loop n m k) in Hr; [|by eapply coherent_perm; [symmetry; apply hashset_iter_perm|]
    |done|done].
  rewrite (info_summary_perm _ _ _ _ shreds) in Hr by apply hashset_iter_perm. by rewrite Hr.
Qed.

Lemma count_filter p l : count p l = Z.of_nat (length (List.filter p l)).
Proof.
  induction l as [|x l IH]; [done|]. rewrite count_cons, IH. simpl.
  destruct (p x); simpl; lia.
Qed.

Lemma count_data_code l : count is_data l + count is_code l = Z.of_nat (length l).
Proof.
  induction l as [|x l IH]; [done|]. rewrite !count_cons. destruct x; simpl in *; lia.
Qed.

(** A set that repeats no shred, and lacks one of the data shreds [ds] it takes
    its own from, holds fewer data shreds than [ds] has. *)
Lemma count_data_missing ds shreds d :
  NoDup shreds → (∀ x, x ∈ shreds → is_data x = true → x ∈ ds) → d ∈ ds → d ∉ shreds →
  count is_data shreds < Z.of_nat (length ds).
Proof.
  intros Hnd Hsub Hd Hmiss. rewrite count_filter.
  assert (d :: List.filter is_data shreds ⊆+ ds) as Hs%submseteq_length; [|simpl in Hs; lia].
  assert (∀ x, x ∈ List.filter is_data shreds ↔ x ∈ shreds ∧ is_data x = true) as Hin
    by (intros x; by rewrite !list_elem_of_In, filter_In).
  apply NoDup_submseteq.
  - constructor; [by rewrite Hin; intros []|]. apply NoDup_ListNoDup, List.NoDup_filter.
    by apply NoDup_ListNoDup.
  - intros x [->|[? ?]%Hin]%elem_of_cons; eauto.
Qed.

Lemma count_code_exists l : 0 < count is_code l → existsb is_code l = true.
Proof.
  induction l as [|x l IH]; [done|]. rewrite count_cons. simpl. destruct (is_code x); [done|].
  intros. apply IH. lia.
Qed.
End fecset.
