(* ===== verification/Packets.v ===== *)
(** The interface to [solana_perf::packet]: a [Packet] is a buffer with a
    [Meta]; a [PacketBatch] is a vector of them. *)

From S2P Require Import Prelude Net Shreds.

Class PacketLib := {
  Packet : Type;
  (** [packet.data(..)]: the bytes, unless the packet is discarded *)
  packet_data : Packet → option bytes;
  (** [packet.meta().discard()] and [packet.meta().addr] *)
  packet_discard : Packet → bool;
  packet_addr : Packet → IpAddr;
}.

(** A discarded packet has no data. *)
Class PacketLibLaws `{PacketLib} : Prop := {
  packet_data_discarded p : packet_discard p = true → packet_data p = None;
}.

Abbreviation PacketBatch := (list Packet).
