(* ===== verification/Deshred.v ===== *)
(** [reconstruct_shreds] of proxy/src/deshred.rs: ingest a batch of packets,
    recover FEC sets, deshred and deserialize complete segments, drop old slots.

    The [&mut] parameters of the function are the fields of [Recon]; [log] is the
    sequence of [debug!], [warn!] and [datapoint_warn!] lines, which nothing
    reads back.  A [HashMap] is a [gmap]; [entry(k).or_default()] inserts. *)

From S2P Require Import Prelude Net Metrics Shreds Tracker FecSet Packets.

Definition SLOT_LOOKBACK : Z := 50.

Inductive LogEvent :=
  | LogOldShred (slot fec_set_index : Z) (index : nat)
  | LogAlreadyCompleted (slot fec_set_index : Z) (index : nat)
  | LogDecodeFailed
  | LogRecoverFailed (slot fec_set_index : Z) (info : Z * Z * Z * Z)
  | LogRecoverShredFailed (slot fec_set_index : Z)
  | LogRecovered (slot fec_set_index : Z) (count : nat)
  | LogDeshredFailed (slot : Z) (start_idx end_idx : nat)
  | LogDeserializeFailed (len : nat) (slot : Z) (start_idx end_idx : nat) (unknown_start : bool)
  | LogDecoded (slot : Z) (start_idx end_idx : nat) (entries : nat) (txns : Z)
  | LogMissedFecSets (sets : list (Z * list (Z * Z * nat))) (slot_count fec_set_count : nat).

(** The value type of [all_shreds]. *)
Abbreviation SlotState := (gmap Z (list Shred) * ShredsStateTracker)%type.

Record Recon `{ShredTypes} := mkRecon {
  all_shreds : gmap Z SlotState;
  slot_fec_indexes_to_iterate : list (Z * Z);
  deshredded_entries : list (Z * list Entry * bytes);
  highest_slot_seen : Z;
  metrics : ShredMetrics;
  log : list LogEvent;
}.
Arguments mkRecon {_} _ _ _ _ _ _.

Section deshred.
Context `{ShredLib} `{PacketLib} `{BuildProfile}.

(** * State updates *)

Definition with_all (a : gmap Z SlotState) (st : Recon) : Recon :=
  mkRecon a (slot_fec_indexes_to_iterate st) (deshredded_entries st)
    (highest_slot_seen st) (metrics st) (log st).
Definition with_list (l : list (Z * Z)) (st : Recon) : Recon :=
  mkRecon (all_shreds st) l (deshredded_entries st) (highest_slot_seen st) (metrics st) (log st).
Definition with_entries (l : list (Z * list Entry * bytes)) (st : Recon) : Recon :=
  mkRecon (all_shreds st) (slot_fec_indexes_to_iterate st) l (highest_slot_seen st)
    (metrics st) (log st).
Definition with_highest (h : Z) (st : Recon) : Recon :=
  mkRecon (all_shreds st) (slot_fec_indexes_to_iterate st) (deshredded_entries st) h
    (metrics st) (log st).
Definition with_metrics (m : ShredMetrics) (st : Recon) : Recon :=
  mkRecon (all_shreds st) (slot_fec_indexes_to_iterate st) (deshredded_entries st)
    (highest_slot_seen st) m (log st).
Definition logging (e : list LogEvent) (st : Recon) : Recon :=
  mkRecon (all_shreds st) (slot_fec_indexes_to_iterate st) (deshredded_entries st)
    (highest_slot_seen st) (metrics st) (log st ++ e).
Definition bump (c : Counter) (n : Z) (st : Recon) : Recon :=
  with_metrics (fetch_add c n (metrics st)) st.

(** [all_shreds.entry(slot).or_default()] *)
Definition slot_entry (slot : Z) (st : Recon) : SlotState :=
  default (∅, tracker_default) (all_shreds st !! slot).
Definition set_slot (slot : Z) (v : SlotState) (st : Recon) : Recon :=
  with_all (<[slot := v]> (all_shreds st)) st.
Definition fec_entry (fec_set_index : Z) (fecs : gmap Z (list Shred)) : list Shred :=
  default [] (fecs !! fec_set_index).

(** * Ingesting packets *)

(** The [Ok(shred)] arm of the ingest loop. *)
Definition ingest_shred (st : Recon) (shred : Shred) : outcome Recon :=
  let slot := shred_slot shred in
  let index := idx shred in
  let fec_set_index := shred_fec_set_index shred in
  let '(fecs, t) := slot_entry slot st in
  let st := set_slot slot (fecs, t) st in
  if decide (slot < saturating_sub (highest_slot_seen st) SLOT_LOOKBACK) then
    Ok (logging [LogOldShred slot fec_set_index index] st)
  else
  recovered ← vec_get (already_recovered_fec_sets t) (fec shred);
  completed ← (if recovered : bool then Ok true else vec_get (already_deshredded t) index);
  if completed : bool then
    Ok (logging [LogAlreadyCompleted slot fec_set_index index] st)
  else
  '(shred_index, t) ← update_state_tracker shred t;
  match shred_index with
  | None => Ok (set_slot slot (fecs, t) st)
  | Some _ =>
      set ← hashset_insert shred (fec_entry fec_set_index fecs);
      let st := set_slot slot (<[fec_set_index := set]> fecs, t) st in
      let st := with_list (slot_fec_indexes_to_iterate st ++ [(slot, fec_set_index)]) st in
      Ok (with_highest (Z.max (highest_slot_seen st) slot) st)
  end.

(** [new_from_serialized_shred(packet).and_then(Shred::try_from)] *)
Definition parse_packet (packet : bytes) : option Shred :=
  new_from_serialized_shred packet ≫= Shred_try_from.

(** One iteration of the ingest loop. *)
Definition ingest_packet (st : Recon) (packet : bytes) : outcome Recon :=
  match parse_packet packet with
  | Some shred => ingest_shred st shred
  | None =>
      if TraceShred_decode_is_ok packet then Ok st
      else Ok (logging [LogDecodeFailed] st)
  end.

Definition ingest_batch (packet_batch : PacketBatch) (st : Recon) : outcome Recon :=
  foldM ingest_packet st (omap packet_data packet_batch).

(** [sort_unstable] and [dedup] of [slot_fec_indexes_to_iterate]. *)
Definition sort_indexes (st : Recon) : Recon :=
  with_list (dedup (sort_by pair_leb (slot_fec_indexes_to_iterate st))) st.

(** * Recovering FEC sets *)

(** The [for shred in recovered] loop; the accumulator is the tracker, the
    number of new shreds and the log lines. *)
Definition note_recovered (slot fec_set_index : Z)
    (acc : ShredsStateTracker * nat * list LogEvent) (shred : option Shred) :
    outcome (ShredsStateTracker * nat * list LogEvent) :=
  let '(t, n, lg) := acc in
  match shred with
  | Some shred =>
      '(o, t) ← update_state_tracker shred t;
      match o with
      | None => Ok (t, n, lg)
      | Some _ => Ok (t, S n, lg)
      end
  | None => Ok (t, n, lg ++ [LogRecoverShredFailed slot fec_set_index])
  end.

(** One iteration of the recovery loop, with [total_recovered_count]. *)
Definition recover_fec_set (acc : Recon * nat) (key : Z * Z) : outcome (Recon * nat) :=
  let '(st, total_recovered_count) := acc in
  let '(slot, fec_set_index) := key in
  let '(fecs, t) := slot_entry slot st in
  let shreds := fec_entry fec_set_index fecs in
  let fecs := <[fec_set_index := shreds]> fecs in
  let st := set_slot slot (fecs, t) st in
  info ← get_data_shred_info shreds;
  let '(num_expected_data, _, num_data, _) := info in
  if decide (num_expected_data = 0
             ∨ (length shreds < Z.to_nat num_expected_data)%nat
             ∨ num_data = num_expected_data) then
    Ok (st, total_recovered_count)
  else
  match recover (merkle_shreds shreds) with
  | None => Ok (logging [LogRecoverFailed slot fec_set_index info] st, total_recovered_count)
  | Some recovered =>
      '(t, n, lg) ← foldM (note_recovered slot fec_set_index) (t, 0%nat, []) recovered;
      if decide (0 < n)%nat then
        t ← set_recovered (Z.to_nat fec_set_index) t;
        let st := set_slot slot (<[fec_set_index := []]> fecs, t) st in
        Ok (logging (lg ++ [LogRecovered slot fec_set_index n]) st,
            (total_recovered_count + n)%nat)
      else
        Ok (logging lg (set_slot slot (fecs, t) st), total_recovered_count)
  end.

(** * Deshredding *)

(** One iteration of the "deshred and bincode deserialize" loop. *)
Definition deshred_fec_set (st : Recon) (key : Z * Z) : outcome Recon :=
  let '(slot, fec_set_index) := key in
  let '(fecs, t) := slot_entry slot st in
  let st := set_slot slot (fecs, t) st in
  r ← get_indexes t (Z.to_nat fec_set_index);
  match r with
  | None => Ok st
  | Some (start_idx, end_idx, unknown_start) =>
      let st := if unknown_start : bool then bump UnknownStartPositionCount 1 st else st in
      to_deshred ← vec_slice_incl (data_shreds t) start_idx end_idx;
      payloads ← mapM_outcome (λ s, s ← unwrap s; Ok (payload s)) to_deshred;
      match deshred payloads with
      | None =>
          let st := logging [LogDeshredFailed slot start_idx end_idx] st in
          let st := bump FecRecoveryErrorCount 1 st in
          Ok (if unknown_start then bump UnknownStartPositionErrorCount 1 st else st)
      | Some deshredded_payload =>
          match bincode_deserialize deshredded_payload with
          | None =>
              let st := logging [LogDeserializeFailed (length deshredded_payload) slot
                                   start_idx end_idx unknown_start] st in
              let st := bump BincodeDeserializeErrorCount 1 st in
              Ok (if unknown_start then bump UnknownStartPositionErrorCount 1 st else st)
          | Some entries =>
              let st := bump EntryCount (Z.of_nat (length entries)) st in
              let txns := sumZ (λ e, Z.of_nat (transactions_len e)) entries in
              let st := bump TxnCount txns st in
              let st := logging [LogDecoded slot start_idx end_idx (length entries) txns] st in
              let st := with_entries
                (deshredded_entries st ++ [(slot, entries, deshredded_payload)]) st in
              t ← foldM mark_deshredded t to_deshred;
              Ok (set_slot slot (fecs, t) st)
          end
      end
  end.

(** * Dropping old slots *)

(** The inner loop over the FEC sets of a slot, for the set of one entry. *)
Definition count_missed (slot : Z) (t : ShredsStateTracker)
    (acc : gmap Z (list (Z * Z * nat)) * nat) (p : Z * list Shred) :
    outcome (gmap Z (list (Z * Z * nat)) * nat) :=
  let '(incomplete, n) := acc in
  let '(fec_set_index, shreds) := p in
  recovered ← vec_get (already_recovered_fec_sets t) (Z.to_nat fec_set_index);
  if recovered : bool then Ok (incomplete, n) else
  '(num_expected_data, _, _, _) ← get_data_shred_info shreds;
  Ok (<[slot := default [] (incomplete !! slot)
                ++ [(fec_set_index, num_expected_data, length shreds)]]> incomplete,
      S n).

(** The closure of [retain], with the kept entries as accumulator. *)
Definition retain_slot (slot_threshold : Z)
    (acc : gmap Z SlotState * gmap Z (list (Z * Z * nat)) * nat) (p : Z * SlotState) :
    outcome (gmap Z SlotState * gmap Z (list (Z * Z * nat)) * nat) :=
  let '(kept, incomplete, n) := acc in
  let '(slot, (fecs, t)) := p in
  if decide (slot_threshold ≤ slot) then Ok (<[slot := (fecs, t)]> kept, incomplete, n)
  else
    '(incomplete, n) ← foldM (count_missed slot t) (incomplete, n) (map_to_list fecs);
    Ok (kept, incomplete, n).

(** The derived lexicographic order on [(u32, u16, usize)]. *)
Definition missed_leb (x y : Z * Z * nat) : bool :=
  if decide (x.1 = y.1) then bool_decide (x.2 ≤ y.2)%nat else pair_leb x.1 y.1.

(** [incomplete_fec_sets], each vector sorted, sorted by slot. *)
Definition missed_report (incomplete : gmap Z (list (Z * Z * nat))) :
    list (Z * list (Z * Z * nat)) :=
  sort_by (λ a b, a.1 <=? b.1)
    ((λ p : Z * list (Z * Z * nat), (p.1, sort_by missed_leb p.2)) <$> map_to_list incomplete).

Definition drop_old_slots (st : Recon) : outcome Recon :=
  if decide (MAX_PROCESSING_AGE < size (all_shreds st))%nat then
    let slot_threshold := saturating_sub (highest_slot_seen st) SLOT_LOOKBACK in
    '(kept, incomplete, n) ←
      foldM (retain_slot slot_threshold) (∅, ∅, 0%nat) (map_to_list (all_shreds st));
    let st := with_all kept st in
    Ok (if decide (0 < n)%nat then
          logging [LogMissedFecSets (missed_report incomplete) (size incomplete) n] st
        else st)
  else Ok st.

(** [debug_remaining_shreds]: what it prints. *)
Definition debug_remaining_shreds (all_shreds : gmap Z SlotState) :
    outcome (list (Z * list (Z * Z * nat))) :=
  '(incomplete, _) ←
    foldM (λ acc (p : Z * SlotState),
             foldM (count_missed p.1 p.2.2) acc (map_to_list p.2.1))
      (∅, 0%nat) (map_to_list all_shreds);
  Ok (missed_report incomplete).

(** * [reconstruct_shreds] *)

(** The two [clear]s at the start. *)
Definition clear_outputs (st : Recon) : Recon := with_list [] (with_entries [] st).

Definition recover_all (st : Recon) : outcome (Recon * nat) :=
  foldM recover_fec_set (st, 0%nat) (slot_fec_indexes_to_iterate st).

Definition deshred_all (st : Recon) : outcome Recon :=
  foldM deshred_fec_set st (slot_fec_indexes_to_iterate st).

(** Returns [total_recovered_count] and the state. *)
Definition reconstruct_shreds (packet_batch : PacketBatch) (st : Recon) :
    outcome (nat * Recon) :=
  st ← ingest_batch packet_batch (clear_outputs st);
  '(st, total_recovered_count) ← recover_all (sort_indexes st);
  st ← deshred_all st;
  st ← drop_old_slots st;
  let st := if decide (0 < total_recovered_count)%nat
            then bump RecoveredCount (Z.of_nat total_recovered_count) st else st in
  Ok (total_recovered_count, st).

(** The state the reconstructor thread starts from. *)
Definition recon_init (m : ShredMetrics) : Recon := mkRecon ∅ [] [] 0 m [].
End deshred.
