(* ===== verification/DeshredInv.v ===== *)
(** The invariant of [reconstruct_shreds] and that every phase keeps it and
    never panics.

    [good] is any property of shreds that parsing establishes and recovery
    keeps: the theorems then say that only good shreds are ever stored,
    recovered from or delivered. *)

From S2P Require Import Prelude Net Metrics Shreds Tracker FecSet Packets Deshred.

(** What is asked of [good] and of [merkle::recover]: a good shred has indices
    the tracker has room for and a payload of full length; and what is recovered
    from good shreds is good and belongs to the slot and FEC set of an input. *)
Class GoodShreds `{ShredLib} (good : Shred → Prop) : Prop := {
  good_in_bounds s : good s → in_bounds s;
  good_payload_ok s : good s → payload_ok s;
  good_recover l l' s :
    Forall good l → recover l = Some l' → Some s ∈ l' →
    good s ∧ ∃ x, x ∈ l ∧ shred_slot s = shred_slot x ∧
                  shred_fec_set_index s = shred_fec_set_index x;
}.

Section invariant.
Context `{ShredLib} `{PacketLib} `{BuildProfile} `{!ShredLibLaws}.
Context (good : Shred → Prop) `{!GoodShreds good}.
Implicit Types (st : Recon) (t : ShredsStateTracker) (s : Shred).

(** * The invariant *)

(** The state of one slot: its tracker is well formed and holds good shreds of
    the slot; its FEC sets hold good shreds of the slot and the set. *)
Record slot_wf (slot : Z) (v : SlotState) : Prop := {
  sw_tracker : tracker_wf v.2;
  sw_shreds i s :
    data_shreds v.2 !! i = Some (Some s) → shred_slot s = slot ∧ good s;
  sw_fecs f set s :
    v.1 !! f = Some set → s ∈ set →
    shred_slot s = slot ∧ shred_fec_set_index s = f ∧ good s;
  sw_keys f : is_Some (v.1 !! f) → 0 ≤ f ∧ (Z.to_nat f < MAX_DATA_SHREDS_PER_SLOT)%nat;
}.

Record recon_wf (st : Recon) : Prop := {
  rw_slot slot v : all_shreds st !! slot = Some v → slot_wf slot v;
  rw_range slot : is_Some (all_shreds st !! slot) → 0 ≤ slot ≤ highest_slot_seen st;
  rw_list slot f :
    (slot, f) ∈ slot_fec_indexes_to_iterate st →
    0 ≤ f ∧ (Z.to_nat f < MAX_DATA_SHREDS_PER_SLOT)%nat ∧
    0 ≤ slot ≤ highest_slot_seen st;
  rw_highest : 0 ≤ highest_slot_seen st;
}.

(** A batch whose packets parse to good shreds, if they parse at all. *)
Definition batch_good (packet_batch : PacketBatch) : Prop :=
  ∀ p b s, p ∈ packet_batch → packet_data p = Some b → parse_packet b = Some s → good s.

(** No slot forgets a shred, a recovered set or a deshredded index. *)
Definition recon_le (st st' : Recon) : Prop :=
  ∀ slot fecs t, all_shreds st !! slot = Some (fecs, t) →
    ∃ fecs' t', all_shreds st' !! slot = Some (fecs', t') ∧ tracker_le t t'.

(** A log line that is not a delivery. *)
Definition not_decoded (e : LogEvent) : Prop :=
  match e with LogDecoded _ _ _ _ _ => False | _ => True end.

(** * Basic lemmas *)

Lemma recon_le_refl st : recon_le st st.
Proof. intros slot fecs t Ht. eauto using tracker_le_refl. Qed.

Lemma recon_le_trans st1 st2 st3 : recon_le st1 st2 → recon_le st2 st3 → recon_le st1 st3.
Proof.
  intros H12 H23 slot fecs t (fecs' & t' & (fecs'' & t'' & ? & ?)%H23 & ?)%H12.
  eauto using tracker_le_trans.
Qed.

Lemma slot_entry_le slot fecs t v st :
  slot_entry slot st = (fecs, t) → tracker_le t v.2 → recon_le st (set_slot slot v st).
Proof.
  intros He Hle slot' fecs' t' Hl. simpl. rewrite lookup_insert. case_decide; subst.
  - unfold slot_entry in He. rewrite Hl in He. simpl in He. simplify_eq.
    destruct v. eauto.
  - eauto using tracker_le_refl.
Qed.

Lemma default_slot_wf slot : slot_wf slot (∅, tracker_default).
Proof.
  split; simpl.
  - apply default_wf.
  - intros i s [Hx _]%lookup_replicate. done.
  - intros f set s Hf. by rewrite lookup_empty in Hf.
  - intros f [? Hf]. by rewrite lookup_empty in Hf.
Qed.

Lemma slot_entry_wf slot st : recon_wf st → slot_wf slot (slot_entry slot st).
Proof.
  intros Hst. unfold slot_entry. destruct (all_shreds st !! slot) as [v|] eqn:E; simpl.
  - by apply (rw_slot st).
  - apply default_slot_wf.
Qed.

Lemma set_slot_wf slot v st :
  recon_wf st → slot_wf slot v → 0 ≤ slot ≤ highest_slot_seen st →
  recon_wf (set_slot slot v st).
Proof.
  intros [Hs Hr Hl Hh] Hv Hslot. split; simpl; try done.
  - intros slot' v'. rewrite lookup_insert. case_decide; [|by apply Hs]. by intros [= <-]; subst.
  - intros slot'. rewrite lookup_insert. case_decide; [by subst|apply Hr].
Qed.

Lemma logging_wf e st : recon_wf st → recon_wf (logging e st).
Proof. by intros []. Qed.
Lemma with_metrics_wf m st : recon_wf st → recon_wf (with_metrics m st).
Proof. by intros []. Qed.
Lemma bump_wf c n st : recon_wf st → recon_wf (bump c n st).
Proof. apply with_metrics_wf. Qed.
Lemma with_entries_wf l st : recon_wf st → recon_wf (with_entries l st).
Proof. by intros []. Qed.

Lemma slot_u64 s : 0 ≤ shred_slot s.
Proof. apply shred_slot_u64. Qed.
Lemma fec_u32 s : 0 ≤ shred_fec_set_index s.
Proof. apply shred_fec_set_index_u32. Qed.

Lemma update_slot_wf slot fecs t s o t' :
  slot_wf slot (fecs, t) → good s → shred_slot s = slot →
  update_state_tracker s t = Ok (o, t') → slot_wf slot (fecs, t').
Proof.
  intros [Ht Hs Hf Hk] Hg Hslot Hu. simpl in *.
  pose proof (update_state_tracker_cases _ _ _ Ht Hu) as Hc.
  split; simpl; try done; [by eapply update_state_tracker_wf|].
  intros i s'. inversion Hc; subst; try apply Hs; simpl.
  rewrite list_lookup_insert. case_decide; [|apply Hs]. by intros [= <-].
Qed.

Lemma set_slot_set_slot slot v v' st :
  set_slot slot v (set_slot slot v' st) = set_slot slot v st.
Proof. unfold set_slot, with_all. simpl. by rewrite insert_insert_eq. Qed.

(** * Ingesting *)

Inductive ingest_result (st : Recon) (s : Shred) : Recon → Prop :=
  | ingest_skipped lg :
      Forall not_decoded lg →
      shred_slot s < saturating_sub (highest_slot_seen st) SLOT_LOOKBACK
        ∨ is_Some (all_shreds st !! shred_slot s) →
      ingest_result st s
        (logging lg (set_slot (shred_slot s) (slot_entry (shred_slot s) st) st))
  | ingest_accepted fecs t t' set :
      slot_entry (shred_slot s) st = (fecs, t) →
      saturating_sub (highest_slot_seen st) SLOT_LOOKBACK ≤ shred_slot s →
      update_state_tracker s t = Ok (Some (idx s), t') →
      hashset_insert s (fec_entry (shred_fec_set_index s) fecs) = Ok set →
      ingest_result st s
        (mkRecon
           (<[shred_slot s := (<[shred_fec_set_index s := set]> fecs, t')]> (all_shreds st))
           (slot_fec_indexes_to_iterate st ++ [(shred_slot s, shred_fec_set_index s)])
           (deshredded_entries st)
           (Z.max (highest_slot_seen st) (shred_slot s)) (metrics st) (log st)).

(** A tracker that rejects a shred is not a fresh one. *)
Lemma slot_entry_present slot st fecs t i :
  slot_entry slot st = (fecs, t) →
  already_recovered_fec_sets t !! i = Some true
    ∨ already_deshredded t !! i = Some true
    ∨ (∃ s, data_shreds t !! i = Some (Some s)) →
  is_Some (all_shreds st !! slot).
Proof.
  unfold slot_entry. destruct (all_shreds st !! slot) as [v|] eqn:E; [by eauto|].
  simpl. intros [= <- <-] Hi. simpl in Hi.
  destruct Hi as [[Hi _]%lookup_replicate|[[Hi _]%lookup_replicate|(s & [Hi _]%lookup_replicate)]];
    done.
Qed.

Lemma logging_nil st : logging [] st = st.
Proof. destruct st. unfold logging. simpl. by rewrite app_nil_r. Qed.

Lemma ingest_shred_cases st s st' :
  recon_wf st → ingest_shred st s = Ok st' → ingest_result st s st'.
Proof.
  intros Hst. unfold ingest_shred.
  pose proof (slot_entry_wf (shred_slot s) _ Hst) as Hwf.
  destruct (slot_entry (shred_slot s) st) as [fecs t] eqn:He. simpl.
  case_decide as Hold.
  { intros [= <-]. rewrite <-He. apply ingest_skipped; [by repeat constructor|by left]. }
  intros (rec & Hrec%vec_get_Ok & Hr)%bind_Ok.
  apply bind_Ok in Hr as (comp & Hcomp & Hr). destruct comp.
  { simplify_eq. rewrite <-He. apply ingest_skipped; [by repeat constructor|right].
    destruct rec; [eapply (slot_entry_present _ _ _ _ (fec s)); eauto|].
    apply vec_get_Ok in Hcomp. eapply (slot_entry_present _ _ _ _ (idx s)); eauto. }
  apply bind_Ok in Hr as ([o t'] & Hu & Hr).
  pose proof (update_state_tracker_cases _ _ _ (sw_tracker _ _ Hwf) Hu) as Hc.
  destruct o as [i|].
  - apply bind_Ok in Hr as (set & Hset & Hr). simplify_eq.
    assert (i = idx s) as -> by (by inversion Hc).
    unfold set_slot, with_all, with_list, with_highest. simpl. rewrite insert_insert_eq.
    eapply ingest_accepted; eauto. lia.
  - assert (t' = t) as -> by (by inversion Hc). simplify_eq.
    rewrite set_slot_set_slot, <-(logging_nil (set_slot _ _ _)), <-He. apply ingest_skipped; [constructor|right].
    inversion Hc as [Hx|d Hd [s' Hx]| |]; subst; simplify_eq;
      eapply slot_entry_present; eauto.
Qed.
Lemma fec_set_wf slot fecs s set f set' x :
  slot_wf slot (fecs, set) → good s → shred_slot s = slot →
  hashset_insert s (fec_entry (shred_fec_set_index s) fecs) = Ok set' →
  <[shred_fec_set_index s := set']> fecs !! f = Some x →
  ∀ y, y ∈ x → shred_slot y = slot ∧ shred_fec_set_index y = f ∧ good y.
Proof.
  intros [_ _ Hf _] Hg Hslot Hins. rewrite lookup_insert. case_decide as Hd.
  - intros [= <-] y Hy. subst f.
    eapply hashset_insert_elem_of in Hy as [->|Hy]; [done| |done].
    unfold fec_entry in Hy.
    destruct (fecs !! shred_fec_set_index s) as [set0|] eqn:E; [|by apply elem_of_nil in Hy].
    by eapply (Hf _ set0).
  - intros Hx y Hy. by eapply Hf.
Qed.

Lemma ingest_shred_wf st s st' :
  recon_wf st → good s → ingest_shred st s = Ok st' → recon_wf st' ∧ recon_le st st'.
Proof.
  intros Hst Hg Hi%ingest_shred_cases; [|done].
  pose proof (slot_entry_wf (shred_slot s) _ Hst) as Hwf.
  pose proof (slot_u64 s) as Hu. pose proof (rw_highest _ Hst) as Hh.
  destruct Hi as [lg _ Hold|fecs t t' set He Hnew Hupd Hins].
  - split.
    + apply logging_wf, set_slot_wf; [done..|]. destruct Hold as [Hold|Hin].
      * unfold saturating_sub, SLOT_LOOKBACK in *. lia.
      * by apply (rw_range st).
    + destruct (slot_entry (shred_slot s) st) as [fecs t] eqn:He.
      eapply slot_entry_le; [done|]. apply tracker_le_refl.
  - rewrite He in Hwf. split; [|eapply (slot_entry_le _ _ _ (_, _) _ He);
      eapply update_state_tracker_le; [apply Hwf|done]].
    pose proof (update_slot_wf _ _ _ _ _ _ Hwf Hg eq_refl Hupd) as Hwf'.
    destruct (good_in_bounds s Hg) as [_ Hfb]. unfold fec in Hfb.
    pose proof (fec_u32 s) as Hf0.
    destruct Hst as [Hs Hr Hl _]. split; simpl; [| | |lia].
    + intros slot v. rewrite lookup_insert. case_decide as Hd; [|apply Hs].
      intros [= <-]. subst slot. destruct Hwf' as [Ht Hsh Hf Hk].
      split; simpl in *; [done..| |].
      * intros f x y Hx Hy. by eapply fec_set_wf.
      * intros f. rewrite lookup_insert. case_decide as Hd; [by subst|apply Hk].
    + intros slot. rewrite lookup_insert. case_decide; [lia|].
      intros Hin%Hr. lia.
    + intros slot f [Hin|Hin]%elem_of_app.
      * apply Hl in Hin. split_and!; try apply Hin; lia.
      * apply list_elem_of_singleton in Hin. simplify_eq. split_and!; [done|done|lia|lia].
Qed.

Lemma fec_entry_payload slot fecs t f :
  slot_wf slot (fecs, t) → Forall payload_ok (fec_entry f fecs).
Proof.
  intros [_ _ Hf _]. apply Forall_forall. intros x Hx. unfold fec_entry in Hx.
  destruct (fecs !! f) as [set|] eqn:E; simpl in Hx; [|by apply elem_of_nil in Hx].
  apply good_payload_ok. by eapply Hf.
Qed.

Lemma ingest_shred_returns st s :
  recon_wf st → good s → ∃ st', ingest_shred st s = Ok st'.
Proof.
  intros Hst Hg. unfold ingest_shred.
  pose proof (slot_entry_wf (shred_slot s) _ Hst) as Hwf.
  destruct (slot_entry (shred_slot s) st) as [fecs t] eqn:He. simpl.
  case_decide; [by eauto|].
  pose proof (good_in_bounds s Hg) as [Hi Hf]. destruct (sw_tracker _ _ Hwf) as [L1 L2 L3 L4].
  simpl in *.
  destruct (vec_get_lt (already_recovered_fec_sets t) (fec s)) as (rec & -> & _); [lia|].
  destruct (vec_get_lt (already_deshredded t) (idx s)) as (d & -> & _); [lia|].
  destruct (update_state_tracker_returns s t) as [[o t'] Hu];
    [apply Hwf|by apply good_in_bounds|].
  destruct (hashset_insert_returns s (fec_entry (shred_fec_set_index s) fecs)) as [set Hset];
    [by apply good_payload_ok|by eapply fec_entry_payload|].
  destruct rec, d; simpl; eauto. rewrite Hu. simpl. destruct o; [|by eauto].
  rewrite Hset. simpl. eauto.
Qed.

Lemma ingest_packet_returns st b :
  recon_wf st → (∀ s, parse_packet b = Some s → good s) →
  returns (ingest_packet st b) (λ st', recon_wf st' ∧ recon_le st st').
Proof.
  intros Hst Hb. unfold ingest_packet. destruct (parse_packet b) as [s|].
  - destruct (ingest_shred_returns st s) as [st' Hs]; [auto..|]. rewrite Hs.
    eapply ingest_shred_wf; eauto.
  - case_match; simpl; [by auto using recon_le_refl|].
    split; [by apply logging_wf|exact (recon_le_refl st)].
Qed.

Lemma ingest_batch_returns batch st :
  recon_wf st → batch_good batch →
  returns (ingest_batch batch st) (λ st', recon_wf st' ∧ recon_le st st').
Proof.
  intros Hst Hb. unfold ingest_batch.
  apply foldM_returns; [by auto using recon_le_refl|].
  intros st1 b (p & Hp & Hd)%list_elem_of_omap [Hw Hle].
  eapply returns_mono; [apply ingest_packet_returns; [done|by eauto]|].
  intros st2 [? ?]. eauto using recon_le_trans.
Qed.

(** * Sorting *)

Lemma sort_indexes_elem_of st k :
  k ∈ slot_fec_indexes_to_iterate (sort_indexes st) ↔ k ∈ slot_fec_indexes_to_iterate st.
Proof. simpl. rewrite dedup_elem_of. by rewrite (sort_by_perm pair_leb). Qed.

Lemma sort_indexes_wf st : recon_wf st → recon_wf (sort_indexes st).
Proof.
  intros [Hs Hr Hl Hh]. split; try done. intros slot f Hin.
  apply Hl. by apply sort_indexes_elem_of.
Qed.

Lemma sort_indexes_sorted st :
  StronglySorted (λ x y, pair_leb x y = true ∧ x ≠ y)
    (slot_fec_indexes_to_iterate (sort_indexes st)).
Proof.
  apply (dedup_sorted (λ x y, pair_leb x y = true)); [apply pair_leb_antisym|].
  apply sort_by_sorted; [apply pair_leb_total|apply pair_leb_trans].
Qed.
(** * Recovering *)

(** What recovery leaves alone: everything but the slots and the log. *)
Record recover_frame (st st' : Recon) : Prop := {
  rf_list : slot_fec_indexes_to_iterate st' = slot_fec_indexes_to_iterate st;
  rf_highest : highest_slot_seen st' = highest_slot_seen st;
  rf_entries : deshredded_entries st' = deshredded_entries st;
  rf_metrics : metrics st' = metrics st;
  rf_log : ∃ lg, log st' = log st ++ lg ∧ Forall not_decoded lg;
  rf_le : recon_le st st';
}.

Lemma recover_frame_refl st : recover_frame st st.
Proof.
  split; try done; [|apply recon_le_refl]. exists []. by rewrite app_nil_r.
Qed.

Lemma recover_frame_trans st1 st2 st3 :
  recover_frame st1 st2 → recover_frame st2 st3 → recover_frame st1 st3.
Proof.
  intros [? ? ? ? (lg1 & E1 & F1) ?] [? ? ? ? (lg2 & E2 & F2) ?].
  split; try congruence; [|by eapply recon_le_trans].
  exists (lg1 ++ lg2). rewrite E2, E1, app_assoc. split; [done|]. by apply Forall_app.
Qed.

Lemma set_slot_frame slot fecs t v lg st :
  slot_entry slot st = (fecs, t) → tracker_le t v.2 → Forall not_decoded lg →
  recover_frame st (logging lg (set_slot slot v st)).
Proof.
  intros He Hle Hlg. split; try done; [by exists lg|]. by eapply slot_entry_le.
Qed.

Lemma note_recovered_loop slot f fecs t recovered :
  slot_wf slot (fecs, t) →
  (∀ s, Some s ∈ recovered → good s ∧ shred_slot s = slot) →
  returns (foldM (note_recovered slot f) (t, 0%nat, []) recovered)
    (λ r, slot_wf slot (fecs, r.1.1) ∧ tracker_le t r.1.1 ∧ Forall not_decoded r.2).
Proof.
  intros Hwf Hrec.
  apply (foldM_returns _ (λ r, slot_wf slot (fecs, r.1.1) ∧ tracker_le t r.1.1
                               ∧ Forall not_decoded r.2)).
  { auto using tracker_le_refl. }
  intros [[t1 n] lg] [s|] Hin (Hwf1 & Hle & Hlg); simpl in *.
  - destruct (Hrec s Hin) as [Hg Hslot].
    destruct (update_state_tracker_returns s t1) as [[o t2] Hu];
      [apply Hwf1|by apply good_in_bounds|]. rewrite Hu. simpl.
    assert (slot_wf slot (fecs, t2)) by (by eapply update_slot_wf).
    assert (tracker_le t1 t2) by (eapply update_state_tracker_le; [apply Hwf1|done]).
    destruct o; simpl; eauto using tracker_le_trans.
  - split_and!; [done|done|]. apply Forall_app. by repeat constructor.
Qed.

Lemma slot_wf_insert_fec slot fecs t f set :
  slot_wf slot (fecs, t) → 0 ≤ f → (Z.to_nat f < MAX_DATA_SHREDS_PER_SLOT)%nat →
  (∀ s, s ∈ set → s ∈ fec_entry f fecs) → slot_wf slot (<[f := set]> fecs, t).
Proof.
  intros [Ht Hs Hf Hk] Hf0 Hfb Hset. split; simpl in *; [done|done| |].
  - intros f' set' s. rewrite lookup_insert. case_decide; [|by apply Hf].
    intros [= <-] Hin%Hset. subst f'. unfold fec_entry in Hin.
    destruct (fecs !! f) as [x|] eqn:E; simpl in Hin; [by eapply Hf|by apply elem_of_nil in Hin].
  - intros f'. rewrite lookup_insert. case_decide; [by subst|apply Hk].
Qed.

Lemma slot_wf_recovered slot fecs t f t' :
  slot_wf slot (fecs, t) → set_recovered f t = Ok t' → slot_wf slot (fecs, t').
Proof.
  intros [Ht Hs Hf Hk] Hr. split; simpl in *; [by eapply set_recovered_wf| |done|done].
  apply set_recovered_Ok in Hr as [_ ->]. simpl. done.
Qed.

Lemma fec_entry_good slot fecs t f :
  slot_wf slot (fecs, t) →
  Forall good (merkle_shreds (fec_entry f fecs)) ∧
  ∀ x, x ∈ merkle_shreds (fec_entry f fecs) → shred_slot x = slot.
Proof.
  intros [_ _ Hf _]. rewrite merkle_shreds_perm. setoid_rewrite merkle_shreds_perm.
  unfold fec_entry. destruct (fecs !! f) as [set|] eqn:E; simpl.
  - split; [apply Forall_forall|]; intros x Hx; by destruct (Hf f set x) as (? & ? & ?).
  - split; [constructor|]. by intros x Hx%elem_of_nil.
Qed.

Lemma recover_fec_set_returns st total slot f :
  overflow_checks = false → recon_wf st → 0 ≤ f →
  (Z.to_nat f < MAX_DATA_SHREDS_PER_SLOT)%nat → 0 ≤ slot ≤ highest_slot_seen st →
  returns (recover_fec_set (st, total) (slot, f))
    (λ r, recon_wf r.1 ∧ recover_frame st r.1).
Proof.
  intros Ho Hst Hf0 Hfb Hslot. unfold recover_fec_set.
  pose proof (slot_entry_wf slot _ Hst) as Hwf.
  destruct (slot_entry slot st) as [fecs t] eqn:He. simpl.
  assert (slot_wf slot (<[f := fec_entry f fecs]> fecs, t)) as Hwf1
    by (by apply slot_wf_insert_fec).
  assert (∀ t' lg, slot_wf slot (<[f := fec_entry f fecs]> fecs, t') → tracker_le t t' →
            Forall not_decoded lg →
            recon_wf (logging lg (set_slot slot (<[f:=fec_entry f fecs]> fecs, t') st)) ∧
            recover_frame st (logging lg (set_slot slot (<[f:=fec_entry f fecs]> fecs, t') st)))
    as Hres.
  { intros t' lg Hw Hle Hlg. split; [|by eapply set_slot_frame].
    apply logging_wf. by apply set_slot_wf. }
  destruct (get_data_shred_info_release (fec_entry f fecs)) as [info ->]; [done|]. simpl.
  destruct info as [[[ned nec] nd] nc]. case_decide as Hskip; simpl.
  { rewrite <-(logging_nil (set_slot _ _ _)). apply Hres; auto using tracker_le_refl. }
  destruct (recover (merkle_shreds (fec_entry f fecs))) as [recovered|] eqn:Hrec; simpl;
    [|apply Hres; [done|apply tracker_le_refl|by repeat constructor]].
  destruct (fec_entry_good _ _ _ f Hwf) as [Hgood Hsl].
  eapply returns_bind; [apply (note_recovered_loop slot f (<[f := fec_entry f fecs]> fecs) t recovered Hwf1)|].
  { intros s Hs. destruct (good_recover _ _ s Hgood Hrec Hs) as (Hg & x & Hx & -> & _). auto. }
  intros [[t' n] lg] (Hw & Hle & Hlg). simpl in *. case_decide as Hn; simpl.
  - destruct (set_recovered (Z.to_nat f) t') as [t2|p] eqn:Hr; simpl.
    2:{ unfold set_recovered in Hr. rewrite vec_set_lt in Hr; [done|].
        rewrite wf_len_recovered; [done|apply Hw]. }
    pose proof (set_recovered_le _ _ _ Hr). pose proof (slot_wf_recovered _ _ _ _ _ Hw Hr) as Hw2.
    rewrite insert_insert_eq, set_slot_set_slot.
    assert (slot_wf slot (<[f:=[]]> fecs, t2)) as Hw3.
    { rewrite <-(insert_insert_eq fecs f [] (fec_entry f fecs)).
      apply slot_wf_insert_fec; [done..|]. by intros s Hs%elem_of_nil. }
    split; [by apply logging_wf, set_slot_wf|].
    eapply set_slot_frame; [done|by eapply tracker_le_trans|].
    apply Forall_app. by repeat constructor.
  - rewrite set_slot_set_slot. by apply Hres.
Qed.

Lemma recover_fold_returns st n keys :
  overflow_checks = false → recon_wf st →
  (∀ k, k ∈ keys → k ∈ slot_fec_indexes_to_iterate st) →
  returns (foldM recover_fec_set (st, n) keys) (λ r, recon_wf r.1 ∧ recover_frame st r.1).
Proof.
  intros Ho Hst Hk.
  apply (foldM_returns _ (λ r, recon_wf r.1 ∧ recover_frame st r.1)).
  { auto using recover_frame_refl. }
  intros [st1 k] [slot f] Hin%Hk [Hw Hfr]. destruct (rw_list _ Hst _ _ Hin) as (? & ? & ?).
  eapply returns_mono.
  - apply recover_fec_set_returns; try done. simpl in Hfr. by rewrite (rf_highest _ _ Hfr).
  - intros r [? ?]. eauto using recover_frame_trans.
Qed.

Lemma recover_all_returns st :
  overflow_checks = false → recon_wf st →
  returns (recover_all st) (λ r, recon_wf r.1 ∧ recover_frame st r.1).
Proof. intros Ho Hst. by apply recover_fold_returns. Qed.

(** * Deshredding *)

(** [ds] are the shreds stored at [start_idx..=end_idx]. *)
Definition segment_shreds (t : ShredsStateTracker) (start_idx end_idx : nat)
    (ds : list Shred) : Prop :=
  (start_idx + length ds = S end_idx)%nat ∧
  ∀ j d, ds !! j = Some d → data_shreds t !! (start_idx + j)%nat = Some (Some d).

(** The tracker after marking [ds]. *)
Definition mark_all (ds : list Shred) (t : ShredsStateTracker) : ShredsStateTracker :=
  mkTracker (data_status t) (data_shreds t)
    (foldl (λ l d, <[fec d := true]> l) (already_recovered_fec_sets t) ds)
    (foldl (λ l d, <[idx d := true]> l) (already_deshredded t) ds).

Lemma length_mark (g : Shred → nat) ds (l : list bool) :
  length (foldl (λ l d, <[g d := true]> l) l ds) = length l.
Proof. revert l. induction ds as [|d ds IH]; intros l; simpl; [done|]. by rewrite IH, length_insert. Qed.

Lemma lookup_mark (g : Shred → nat) ds (l : list bool) i :
  (∀ d, d ∈ ds → (g d < length l)%nat) →
  foldl (λ l d, <[g d := true]> l) l ds !! i
  = if decide (i ∈ g <$> ds) then Some true else l !! i.
Proof.
  revert l. induction ds as [|d ds IH]; intros l Hlen; simpl.
  { done. }
  rewrite IH by (intros d' Hd'; rewrite length_insert; apply Hlen; by right).
  assert (g d < length l)%nat by (apply Hlen; left).
  rewrite list_lookup_insert. repeat case_decide; try done; set_solver.
Qed.

Lemma mark_loop ds t :
  (∀ d, d ∈ ds → (fec d < length (already_recovered_fec_sets t))%nat ∧
                 (idx d < length (already_deshredded t))%nat) →
  foldM mark_deshredded t (Some <$> ds) = Ok (mark_all ds t).
Proof.
  revert t. induction ds as [|d ds IH]; intros t Hlen; [by destruct t|].
  cbn [fmap list_fmap foldM]. destruct (Hlen d) as [Hf Hi]; [left|].
  assert (mark_deshredded t (Some d) = Ok (mark_all [d] t)) as ->
    by (by apply mark_deshredded_Ok). simpl.
  rewrite IH; [done|]. intros d' Hd'. simpl. rewrite !length_insert. apply Hlen. by right.
Qed.

(** Under the invariant, the shreds of a segment are all there. *)
Lemma segment_slice t i (s e : nat) u :
  tracker_wf t → is_segment t i s e u →
  ∃ ds, vec_slice_incl (data_shreds t) s e = Ok (Some <$> ds) ∧ segment_shreds t s e ds.
Proof.
  intros Ht [Hc He Hm _ _]. pose proof (lookup_lt_Some _ _ _ He) as Hlt.
  rewrite wf_len_status in Hlt by done.
  assert (∀ j, (s ≤ j ≤ e)%nat → ∃ d, data_shreds t !! j = Some (Some d)) as Hall.
  { intros j Hj. destruct (lookup_lt_is_Some_2 (data_shreds t) j) as [o Ho];
      [rewrite wf_len_shreds by done; lia|].
    pose proof (wf_status _ Ht _ _ Ho) as Hst. destruct o as [d|]; [by eauto|].
    exfalso. destruct (decide (j = e)) as [->|]; [by rewrite He in Hst|].
    rewrite Hm in Hst; [done|lia]. }
  assert (∃ l', vec_slice_incl (data_shreds t) s e = Ok l') as [l' Hl'].
  { unfold vec_slice_incl. rewrite decide_True; [by eauto|]. rewrite wf_len_shreds by done. lia. }
  destruct (vec_slice_incl_length _ _ _ _ Hl') as [Hlen _].
  exists (omap id l'). assert (l' = Some <$> omap id l') as Hsome.
  { assert (Forall is_Some l') as Hf.
    { apply Forall_forall. intros o Ho.
      apply (vec_slice_incl_elem_of _ _ _ _ _ Hl') in Ho as (j & Hj & Ho).
      destruct (Hall j Hj). naive_solver. }
    clear -Hf. induction Hf as [|o l' [d ->] _ IH]; [done|]. cbn. by f_equal. }
  split; [by rewrite <-Hsome|]. split.
  - rewrite <-(length_fmap Some), <-Hsome. lia.
  - intros j d Hj. pose proof (lookup_lt_Some _ _ _ Hj) as Hjl.
    rewrite <-(length_fmap Some), <-Hsome in Hjl.
    rewrite <-(vec_slice_incl_lookup _ _ _ _ _ Hl') by lia. rewrite Hsome.
    by rewrite list_lookup_fmap, Hj.
Qed.

Lemma mapM_Some {A B} (f : option A → outcome B) (g : A → B) (l : list A) :
  (∀ x, f (Some x) = Ok (g x)) → mapM_outcome f (Some <$> l) = Ok (g <$> l).
Proof.
  intros Hf. induction l as [|x l IH]; [done|]. cbn [fmap list_fmap mapM_outcome].
  rewrite Hf. cbn. by rewrite IH.
Qed.

(** Evaluates the record updates of a known state. *)
Ltac recon_cbv :=
  cbv beta iota zeta delta
    [bump with_metrics with_all with_list with_entries with_highest logging set_slot
     all_shreds slot_fec_indexes_to_iterate deshredded_entries highest_slot_seen metrics log
     returns mbind outcome_bind].

(** Whatever the segment search, deshredding or deserialization gives. *)
Inductive deshred_result (st : Recon) (slot f : Z) (fecs : gmap Z (list Shred))
    (t : ShredsStateTracker) : Recon → Prop :=
  | deshred_nothing :
      get_indexes t (Z.to_nat f) = Ok None →
      deshred_result st slot f fecs t (set_slot slot (fecs, t) st)
  | deshred_failed (s e : nat) u ds lg m :
      is_segment t (Z.to_nat f) s e u → segment_shreds t s e ds →
      deshred (payload <$> ds) ≫= bincode_deserialize = None →
      Forall not_decoded lg →
      (∀ c, c ∈ [EntryCount; TxnCount; RecoveredCount] → load c m = load c (metrics st)) →
      deshred_result st slot f fecs t
        (with_metrics m (logging lg (set_slot slot (fecs, t) st)))
  | deshred_decoded (s e : nat) u ds p es m :
      is_segment t (Z.to_nat f) s e u → segment_shreds t s e ds →
      deshred (payload <$> ds) = Some p → bincode_deserialize p = Some es →
      load EntryCount m = wrap 64 (load EntryCount (metrics st) + Z.of_nat (length es)) →
      load TxnCount m
        = wrap 64 (load TxnCount (metrics st)
                   + sumZ (λ x, Z.of_nat (transactions_len x)) es) →
      load RecoveredCount m = load RecoveredCount (metrics st) →
      deshred_result st slot f fecs t
        (mkRecon (<[slot := (fecs, mark_all ds t)]> (all_shreds st))
           (slot_fec_indexes_to_iterate st)
           (deshredded_entries st ++ [(slot, es, p)]) (highest_slot_seen st) m
           (log st ++ [LogDecoded slot s e (length es)
                         (sumZ (λ x, Z.of_nat (transactions_len x)) es)])).

Lemma segment_shreds_elem t (s e : nat) ds d :
  segment_shreds t s e ds → d ∈ ds →
  ∃ i, (s ≤ i ≤ e)%nat ∧ data_shreds t !! i = Some (Some d).
Proof.
  intros [Hl Hd] [j Hj]%list_elem_of_lookup. pose proof (lookup_lt_Some _ _ _ Hj).
  exists (s + j)%nat. split; [lia|auto].
Qed.

Lemma slot_wf_tracker slot fecs t : slot_wf slot (fecs, t) → tracker_wf t.
Proof. by intros []. Qed.

Lemma slot_shred_bounds slot fecs t i d :
  slot_wf slot (fecs, t) → data_shreds t !! i = Some (Some d) → in_bounds d.
Proof. intros Hw Hd. apply good_in_bounds. by eapply (sw_shreds _ _ Hw). Qed.

Lemma deshred_fec_set_cases st slot f fecs t :
  recon_wf st → slot_entry slot st = (fecs, t) →
  returns (deshred_fec_set st (slot, f)) (deshred_result st slot f fecs t).
Proof.
  intros Hst He. unfold deshred_fec_set.
  pose proof (slot_entry_wf slot _ Hst) as Hwf. rewrite He in Hwf. rewrite He. simpl.
  pose proof (sw_tracker _ _ Hwf) as Ht. simpl in Ht.
  destruct (get_indexes_total t (Z.to_nat f)) as [r Hr]; [by apply wf_same_len|].
  rewrite Hr. simpl. destruct r as [[[s e] u]|]; [|by apply deshred_nothing].
  pose proof (get_indexes_segment _ _ _ _ _ (wf_same_len _ Ht) Hr) as Hseg.
  destruct (segment_slice _ _ _ _ _ Ht Hseg) as (ds & Hsl & Hds). rewrite Hsl. simpl.
  rewrite (mapM_Some _ payload) by done. cbn [mbind outcome_bind].
  assert (foldM mark_deshredded t (Some <$> ds) = Ok (mark_all ds t)) as Hmark.
  { apply mark_loop. intros d Hin.
    destruct (segment_shreds_elem _ _ _ _ _ Hds Hin) as (i & _ & Hi).
    destruct (slot_shred_bounds _ _ _ _ _ Hwf Hi) as [? ?].
    rewrite wf_len_recovered, wf_len_deshredded by done. done. }
  rewrite Hmark. clear Hst He. destruct st as [al sl en hi me lo].
  destruct (deshred (payload <$> ds)) as [p|] eqn:Hd;
    [destruct (bincode_deserialize p) as [es|] eqn:Hb|]; destruct u; recon_cbv;
    rewrite ?insert_insert_eq.
  1,2: eapply (deshred_decoded (mkRecon al sl en hi me lo) slot f fecs t s e _ ds p es _
                 Hseg Hds Hd Hb); solve_load.
  all: eapply (deshred_failed (mkRecon al sl en hi me lo) slot f fecs t s e _ ds [_] _ Hseg Hds);
    [by rewrite Hd|by repeat constructor|intros c Hc; rewrite !elem_of_cons, elem_of_nil in Hc;
     destruct Hc as [->|[->|[->|[]]]]; solve_load].
Qed.

Lemma segment_shreds_idx slot fecs t (s e : nat) ds d :
  slot_wf slot (fecs, t) → segment_shreds t s e ds → d ∈ ds →
  (s ≤ idx d ≤ e)%nat ∧ data_shreds t !! idx d = Some (Some d) ∧ in_bounds d.
Proof.
  intros Hw Hds Hd. destruct (segment_shreds_elem _ _ _ _ _ Hds Hd) as (i & Hi & Hl).
  destruct (wf_shreds _ (slot_wf_tracker _ _ _ Hw) _ _ Hl) as [_ <-].
  split_and!; [lia..|done|by eapply slot_shred_bounds].
Qed.

(** What marking does to [already_deshredded]: exactly the segment. *)
Lemma mark_all_deshredded slot fecs t (s e : nat) ds i :
  slot_wf slot (fecs, t) → segment_shreds t s e ds →
  already_deshredded (mark_all ds t) !! i
  = if decide (s ≤ i ≤ e)%nat then Some true else already_deshredded t !! i.
Proof.
  intros Hw Hds. simpl. rewrite lookup_mark.
  2:{ intros d Hd. destruct (segment_shreds_idx _ _ _ _ _ _ _ Hw Hds Hd) as (_ & _ & [? _]).
      by rewrite (wf_len_deshredded _ (slot_wf_tracker _ _ _ Hw)). }
  destruct (decide (s ≤ i ≤ e)%nat) as [Hi|Hi].
  - rewrite decide_True; [done|]. apply list_elem_of_fmap. destruct Hds as [Hlen Hl].
    destruct (lookup_lt_is_Some_2 ds (i - s)) as [d Hd]; [lia|]. exists d.
    split; [|by eapply list_elem_of_lookup_2].
    apply Hl in Hd. apply (wf_shreds _ (slot_wf_tracker _ _ _ Hw)) in Hd as [_ ->]. lia.
  - rewrite decide_False; [done|]. intros (d & -> & Hd)%list_elem_of_fmap.
    by destruct (segment_shreds_idx _ _ _ _ _ _ _ Hw Hds Hd).
Qed.

Lemma mark_all_le ds t :
  (∀ d, d ∈ ds → (fec d < length (already_recovered_fec_sets t))%nat ∧
                 (idx d < length (already_deshredded t))%nat) →
  tracker_le t (mark_all ds t).
Proof.
  intros Hb. split; simpl; [done|..]; intros i Hi; rewrite lookup_mark;
    try (by intros d ?%Hb; naive_solver); by case_decide.
Qed.

Lemma mark_all_slot_wf slot fecs t (s e : nat) ds :
  slot_wf slot (fecs, t) → segment_shreds t s e ds →
  slot_wf slot (fecs, mark_all ds t) ∧ tracker_le t (mark_all ds t).
Proof.
  intros Hw Hds. pose proof (slot_wf_tracker _ _ _ Hw) as Ht. simpl in Ht.
  assert (∀ d, d ∈ ds → (fec d < length (already_recovered_fec_sets t))%nat ∧
                 (idx d < length (already_deshredded t))%nat) as Hb.
  { intros d Hd. destruct (segment_shreds_idx _ _ _ _ _ _ _ Hw Hds Hd) as (_ & _ & [? ?]).
    by rewrite wf_len_recovered, wf_len_deshredded by done. }
  split; [|by apply mark_all_le]. destruct Hw as [_ Hs Hf Hk]. split; simpl in *; [|done..].
  destruct Ht as [L1 L2 L3 L4 Hsh Hst Hde].
  split; simpl; rewrite ?length_mark; [done..|].
  intros i. rewrite lookup_mark by naive_solver. case_decide as Hi.
  - intros _. apply list_elem_of_fmap in Hi as (d & -> & Hd). exists d.
    destruct (segment_shreds_elem _ _ _ _ _ Hds Hd) as (i & _ & Hl).
    destruct (Hsh _ _ Hl) as [_ ->]. split; [done|].
    rewrite lookup_mark by naive_solver. rewrite decide_True; [done|].
    apply list_elem_of_fmap. eauto.
  - intros (d & Hd & Hr)%Hde. exists d. split; [done|].
    rewrite lookup_mark by naive_solver. by case_decide.
Qed.

Lemma deshred_result_wf st slot f fecs t st' :
  recon_wf st → slot_entry slot st = (fecs, t) → 0 ≤ slot ≤ highest_slot_seen st →
  deshred_result st slot f fecs t st' →
  recon_wf st' ∧ recon_le st st' ∧
  slot_fec_indexes_to_iterate st' = slot_fec_indexes_to_iterate st ∧
  highest_slot_seen st' = highest_slot_seen st.
Proof.
  intros Hst He Hslot Hr.
  pose proof (slot_entry_wf slot _ Hst) as Hwf. rewrite He in Hwf.
  destruct Hr as [?|s e u ds lg m _ _ _ _ _|s e u ds p es m _ Hds _ _ _ _ _].
  - split_and!; [by apply set_slot_wf| |done|done].
    eapply slot_entry_le; [done|apply tracker_le_refl].
  - split_and!; [by apply with_metrics_wf, logging_wf, set_slot_wf| |done|done].
    eapply (slot_entry_le slot fecs t (fecs, t)); [done|apply tracker_le_refl].
  - destruct (mark_all_slot_wf _ _ _ _ _ _ Hwf Hds) as [Hw' Hle].
    split_and!; [| |done|done].
    + pose proof (set_slot_wf slot _ _ Hst Hw' Hslot) as [? ? ? ?]. by split.
    + eapply (slot_entry_le slot fecs t (fecs, mark_all ds t)); done.
Qed.

Lemma deshred_all_returns st :
  recon_wf st →
  returns (deshred_all st)
    (λ st', recon_wf st' ∧ recon_le st st' ∧
            slot_fec_indexes_to_iterate st' = slot_fec_indexes_to_iterate st ∧
            highest_slot_seen st' = highest_slot_seen st).
Proof.
  intros Hst. apply foldM_returns; [by auto using recon_le_refl|].
  intros st1 [slot f] Hin (Hw & Hle & Hl & Hh).
  destruct (rw_list _ Hst _ _ Hin) as (_ & _ & Hslot).
  destruct (slot_entry slot st1) as [fecs t] eqn:He.
  eapply returns_mono; [by apply deshred_fec_set_cases|].
  intros st2 Hr%deshred_result_wf; [|done|done|by rewrite Hh].
  destruct Hr as (? & ? & ? & ?). split_and!; try congruence.
  by eapply recon_le_trans.
Qed.

(** * Dropping old slots *)

Lemma count_missed_returns slot fecs t incomplete n :
  overflow_checks = false → slot_wf slot (fecs, t) →
  returns (foldM (count_missed slot t) (incomplete, n) (map_to_list fecs)) (λ _, True).
Proof.
  intros Ho Hw. apply foldM_returns; [done|].
  intros [inc k] [f set] Hin%elem_of_map_to_list _. simpl.
  destruct (sw_keys _ _ Hw f) as [_ Hf]; [by eauto|].
  destruct (vec_get_lt (already_recovered_fec_sets t) (Z.to_nat f)) as (r & -> & _);
    [by rewrite (wf_len_recovered _ (slot_wf_tracker _ _ _ Hw))|]. simpl.
  destruct r; [done|].
  destruct (get_data_shred_info_release set) as [[[[a b] c] d] ->]; done.
Qed.

Lemma retain_loop_returns thr kept incomplete n l :
  overflow_checks = false → (∀ slot v, (slot, v) ∈ l → slot_wf slot v) →
  returns (foldM (retain_slot thr) (kept, incomplete, n) l) (λ _, True).
Proof.
  intros Ho Hw. apply foldM_returns; [done|].
  intros [[kept' inc] k] [slot [fecs t]] Hin _. simpl. case_decide; [done|].
  eapply returns_bind; [by apply (count_missed_returns _ fecs), Hw|].
  by intros [inc' k'] _.
Qed.

Lemma retain_loop_kept thr l kept inc n kept' inc' n' k :
  NoDup l.*1 → (∀ p, p ∈ l → kept !! p.1 = None) →
  foldM (retain_slot thr) (kept, inc, n) l = Ok (kept', inc', n') →
  ∀ v, kept' !! k = Some v ↔ kept !! k = Some v ∨ ((k, v) ∈ l ∧ thr ≤ k).
Proof.
  revert kept inc n. induction l as [|[slot [fecs t]] l IH]; intros kept inc n Hnd Hnone.
  { intros [= <- <- <-] v. split; [by left|]. intros [?|[?%elem_of_nil _]]; done. }
  simpl in *. apply NoDup_cons in Hnd as [Hni Hnd].
  assert (∀ p : Z * SlotState, p ∈ l → p.1 ≠ slot) as Hne.
  { intros p Hp <-. apply Hni. by apply list_elem_of_fmap_2. }
  intros (acc & Hs & Hr)%bind_Ok. case_decide as Hthr.
  - injection Hs as <-. intros v. rewrite (IH _ _ _ Hnd) by
      (done || intros p Hp; rewrite lookup_insert_ne by (by apply not_eq_sym, Hne);
       apply Hnone; by right).
    rewrite lookup_insert, elem_of_cons. case_decide as Hk.
    + subst. assert (kept !! k = None) as -> by (apply (Hnone (k, (fecs, t))); left). split.
      * intros [[= <-]|[? _]]; [by auto|naive_solver].
      * intros [?|[[?|?] _]]; [done|by simplify_eq; left|naive_solver].
    + naive_solver.
  - apply bind_Ok in Hs as ([inc1 n1] & _ & Hs). injection Hs as <-.
    intros v. rewrite (IH _ _ _ Hnd) by (done || intros; apply Hnone; by right).
    rewrite elem_of_cons. split; [naive_solver|].
    intros [?|[[?|?] ?]]; [by left|simplify_eq; lia|by right].
Qed.

Lemma retain_kept thr (m : gmap Z SlotState) inc n kept inc' n' :
  foldM (retain_slot thr) (∅, inc, n) (map_to_list m) = Ok (kept, inc', n') →
  kept = filter (λ p, thr ≤ p.1) m.
Proof.
  intros Hr. apply map_eq. intros k. apply option_eq. intros v.
  rewrite (retain_loop_kept _ _ _ _ _ _ _ _ k (NoDup_fst_map_to_list m)
             (λ _ _, lookup_empty _) Hr).
  rewrite lookup_empty, elem_of_map_to_list, map_lookup_filter_Some. naive_solver.
Qed.

(** The slots left, and the fields left alone. *)
Lemma drop_old_slots_Ok st st' :
  drop_old_slots st = Ok st' →
  (all_shreds st' = all_shreds st ∧ (size (all_shreds st) ≤ MAX_PROCESSING_AGE)%nat
   ∨ all_shreds st'
     = filter (λ p, saturating_sub (highest_slot_seen st) SLOT_LOOKBACK ≤ p.1) (all_shreds st)) ∧
  slot_fec_indexes_to_iterate st' = slot_fec_indexes_to_iterate st ∧
  deshredded_entries st' = deshredded_entries st ∧
  highest_slot_seen st' = highest_slot_seen st ∧ metrics st' = metrics st ∧
  ∃ lg, log st' = log st ++ lg ∧ Forall not_decoded lg.
Proof.
  unfold drop_old_slots. case_decide as Hsz.
  - intros ([[kept inc] n] & Hr & Heq)%bind_Ok. apply retain_kept in Hr. subst kept.
    injection Heq as <-. case_decide; simpl; split_and!; auto.
    + eexists. split; [done|]. by repeat constructor.
    + exists []. by rewrite app_nil_r.
  - intros [= <-]. split_and!; auto; [left; split; [done|lia]|].
    exists []. by rewrite app_nil_r.
Qed.

Lemma drop_old_slots_wf st st' : recon_wf st → drop_old_slots st = Ok st' → recon_wf st'.
Proof.
  intros [Hs Hr Hl Hh] (Hall & El & _ & Eh & _)%drop_old_slots_Ok.
  assert (∀ k v, all_shreds st' !! k = Some v → all_shreds st !! k = Some v) as Hsub.
  { intros k v. destruct Hall as [[-> _]| ->]; [done|].
    by intros [? _]%map_lookup_filter_Some. }
  split; rewrite ?El, ?Eh; [eauto| |done|done].
  intros slot [v Hv]. apply Hr. eauto.
Qed.

Lemma drop_old_slots_returns st :
  overflow_checks = false → recon_wf st → ∃ st', drop_old_slots st = Ok st'.
Proof.
  intros Ho Hst. unfold drop_old_slots. case_decide; [|by eauto].
  destruct (foldM _ _ _) as [[[kept inc] n]|p] eqn:E; simpl; [by eauto|].
  exfalso. pose proof (retain_loop_returns
    (saturating_sub (highest_slot_seen st) SLOT_LOOKBACK) ∅ ∅ 0
    (map_to_list (all_shreds st)) Ho) as Hx.
  rewrite E in Hx. apply Hx. intros slot v Hv%elem_of_map_to_list. by eapply rw_slot.
Qed.

(** A map whose keys lie in an interval is no larger than it. *)
Lemma size_interval {A} (m : gmap Z A) a n :
  (∀ k, is_Some (m !! k) → a ≤ k < a + Z.of_nat n) → (size m ≤ n)%nat.
Proof.
  intros Hk. rewrite <-size_dom.
  transitivity (size (list_to_set ((λ i, a + Z.of_nat i) <$> seq 0 n) : gset Z)).
  - apply subseteq_size. intros k Hin%elem_of_dom%Hk. apply elem_of_list_to_set.
    apply list_elem_of_fmap. exists (Z.to_nat (k - a)). split; [lia|].
    apply elem_of_seq. lia.
  - rewrite size_list_to_set by (apply NoDup_fmap_2; [intros ???; lia|apply NoDup_seq]).
    by rewrite length_fmap, length_seq.
Qed.

Lemma drop_old_slots_size st st' :
  recon_wf st → drop_old_slots st = Ok st' →
  (size (all_shreds st') ≤ max MAX_PROCESSING_AGE (S (Z.to_nat SLOT_LOOKBACK)))%nat.
Proof.
  intros Hst Hd. pose proof (drop_old_slots_wf _ _ Hst Hd) as Hst'.
  destruct (drop_old_slots_Ok _ _ Hd) as ([[-> ?]|E] & _ & _ & Eh & _); [lia|].
  etrans; [|apply Nat.le_max_r].
  apply (size_interval _ (saturating_sub (highest_slot_seen st) SLOT_LOOKBACK)).
  intros k Hk. pose proof (rw_range _ Hst' k Hk) as Hr. rewrite Eh in Hr.
  destruct Hk as [v Hv]. rewrite E in Hv. apply map_lookup_filter_Some in Hv as [_ Hv].
  simpl in Hv. unfold saturating_sub, SLOT_LOOKBACK in *. lia.
Qed.

(** * The whole function *)

Lemma clear_outputs_wf st : recon_wf st → recon_wf (clear_outputs st).
Proof. intros [Hs Hr Hl Hh]. split; try done. by intros slot f ?%elem_of_nil. Qed.

Lemma recon_init_wf m : recon_wf (recon_init m).
Proof.
  split; simpl; [| | |done].
  - intros slot v Hv. by rewrite lookup_empty in Hv.
  - intros slot [v Hv]. by rewrite lookup_empty in Hv.
  - by intros slot f ?%elem_of_nil.
Qed.

(** The states between the phases of a call that returns. *)
Lemma reconstruct_shreds_phases batch st n st' :
  reconstruct_shreds batch st = Ok (n, st') →
  ∃ st1 st2 st3 st4,
    ingest_batch batch (clear_outputs st) = Ok st1 ∧
    recover_all (sort_indexes st1) = Ok (st2, n) ∧
    deshred_all st2 = Ok st3 ∧ drop_old_slots st3 = Ok st4 ∧
    st' = if decide (0 < n)%nat then bump RecoveredCount (Z.of_nat n) st4 else st4.
Proof.
  unfold reconstruct_shreds. intros (st1 & H1' & Hr)%bind_Ok.
  apply bind_Ok in Hr as ([st2 n'] & H2' & Hr).
  apply bind_Ok in Hr as (st3 & H3' & Hr). apply bind_Ok in Hr as (st4 & H4' & Hr).
  injection Hr as <- <-. eauto 10.
Qed.

Lemma reconstruct_shreds_returns batch st :
  overflow_checks = false → recon_wf st → batch_good batch →
  returns (reconstruct_shreds batch st)
    (λ r, recon_wf r.2 ∧
          (size (all_shreds r.2) ≤ max MAX_PROCESSING_AGE (S (Z.to_nat SLOT_LOOKBACK)))%nat).
Proof.
  intros Ho Hst Hb. unfold reconstruct_shreds.
  eapply returns_bind; [apply ingest_batch_returns; [by apply clear_outputs_wf|done]|].
  intros st1 [Hw1 _].
  eapply returns_bind; [apply recover_all_returns; [done|by apply sort_indexes_wf]|].
  intros [st2 n] [Hw2 _]. simpl in Hw2.
  eapply returns_bind; [by apply deshred_all_returns|]. intros st3 (Hw3 & _).
  destruct (drop_old_slots_returns _ Ho Hw3) as [st4 Hd]. rewrite Hd. simpl.
  pose proof (drop_old_slots_size _ _ Hw3 Hd). pose proof (drop_old_slots_wf _ _ Hw3 Hd).
  case_decide; simpl; split; auto using bump_wf.
Qed.
End invariant.
