(* ===== verification/Delivery.v ===== *)
(** What [reconstruct_shreds] delivers, over any number of calls: every entry
    comes from one contiguous segment of good data shreds, no data shred is
    delivered twice, entries leave in slot order, nothing decodable that a batch
    touched is left behind, and the counters add up. *)

From S2P Require Import Prelude Net Metrics Shreds Tracker FecSet Packets Deshred DeshredInv.

Section delivery.
Context `{ShredLib} `{PacketLib} `{BuildProfile} `{!ShredLibLaws}.
Context (good : Shred → Prop) `{!GoodShreds good}.
Implicit Types (st : Recon) (t : ShredsStateTracker).

(** The calls of the reconstructor thread, one after the other. *)
Definition run_batches (st : Recon) (batches : list PacketBatch) : outcome Recon :=
  foldM (λ st b, r ← reconstruct_shreds b st; Ok r.2) st batches.

(** * Specification *)

(** The segments a log says were delivered. *)
Definition decoded_of (e : LogEvent) : option (Z * nat * nat) :=
  match e with LogDecoded slot a b _ _ => Some (slot, a, b) | _ => None end.

(** All indices [a..=b] of [slot] are marked as deshredded. *)
Definition marked (st : Recon) (slot : Z) (a b : nat) : Prop :=
  (a ≤ b)%nat ∧ ∃ fecs t, all_shreds st !! slot = Some (fecs, t) ∧
            ∀ i, (a ≤ i ≤ b)%nat → already_deshredded t !! i = Some true.

(** A slot so old that its shreds are ignored. *)
Definition old (st : Recon) (slot : Z) : Prop :=
  slot < saturating_sub (highest_slot_seen st) SLOT_LOOKBACK.

(** Two deliveries of one slot are of disjoint index ranges. *)
Definition disjoint_deliveries (ds : list (Z * nat * nat)) : Prop :=
  ∀ i j slot a1 b1 a2 b2, (i < j)%nat →
    ds !! i = Some (slot, a1, b1) → ds !! j = Some (slot, a2, b2) →
    (b1 < a2 ∨ b2 < a1)%nat.

(** [ds] are good data shreds of [slot] at consecutive indices from [a] on, of
    which the last one and no other completes a segment. *)
Record segment_run (slot : Z) (a : nat) (ds : list Shred) : Prop := {
  run_nonempty : ds ≠ [];
  run_shred j d : ds !! j = Some d →
    ∃ x, d = ShredData x ∧ idx d = (a + j)%nat ∧ shred_slot d = slot ∧ good d ∧
         completes x = bool_decide (S j = length ds);
}.

(** The entry is what the shreds of the delivered segment decode to. *)
Definition delivery_ok (seg : Z * nat * nat) (entry : Z * list Entry * bytes) : Prop :=
  ∃ ds, seg.1.1 = entry.1.1 ∧ segment_run seg.1.1 seg.1.2 ds ∧
        (seg.1.2 + length ds = S seg.2)%nat ∧
        deshred (payload <$> ds) = Some entry.2 ∧
        bincode_deserialize entry.2 = Some entry.1.2.

(** The data shred before index [a] completes a segment or is not known, or there
    is none: no run of known shreds of one segment starts further left. *)
Definition left_maximal (t : ShredsStateTracker) (a : nat) : Prop :=
  match a with
  | O => True
  | S p => data_status t !! p = Some DataComplete ∨ data_status t !! p = Some Unknown
  end.

(** No segment at [f] decodes. *)
Definition nothing_left (t : ShredsStateTracker) (f : nat) : Prop :=
  ∀ a b u ds, is_segment t f a b u → segment_shreds t a b ds →
    deshred (payload <$> ds) ≫= bincode_deserialize = None.

(** The history invariant between calls, and its part for the indexes that the
    current call still has to process. *)
Definition settled (st : Recon) : Prop :=
  ∀ slot a b, (slot, a, b) ∈ omap decoded_of (log st) → marked st slot a b ∨ old st slot.
Definition listed (st : Recon) : Prop :=
  ∀ slot f a b, (slot, f) ∈ slot_fec_indexes_to_iterate st →
    (slot, a, b) ∈ omap decoded_of (log st) → marked st slot a b.
Definition history (st : Recon) : Prop :=
  settled st ∧ disjoint_deliveries (omap decoded_of (log st)).

(** * Lemmas: exactly once *)

Lemma decoded_of_none lg : Forall not_decoded lg → omap decoded_of lg = [].
Proof. induction 1 as [|[] lg]; simpl; try done. Qed.

Lemma marked_mono st st' slot a b : recon_le st st' → marked st slot a b → marked st' slot a b.
Proof.
  intros Hle (Hab & fecs & t & Ht & Hm). destruct (Hle _ _ _ Ht) as (fecs' & t' & ? & Htt).
  split; [done|]. exists fecs', t'. split; [done|]. intros i Hi. by apply (le_deshredded _ _ Htt), Hm.
Qed.

Lemma old_mono st st' slot :
  highest_slot_seen st ≤ highest_slot_seen st' → old st slot → old st' slot.
Proof. unfold old, saturating_sub, SLOT_LOOKBACK. lia. Qed.

(** Steps that deliver nothing keep the history. *)
Lemma history_mono st st' lg :
  recon_le st st' → highest_slot_seen st ≤ highest_slot_seen st' →
  log st' = log st ++ lg → Forall not_decoded lg → history st → history st'.
Proof.
  intros Hle Hh Hlog Hlg [Hs Hd]. unfold history, settled.
  rewrite Hlog, omap_app, (decoded_of_none lg), app_nil_r by done. split; [|done].
  intros slot a b [?|?]%Hs; eauto using marked_mono, old_mono.
Qed.

Lemma listed_mono st st' lg :
  recon_le st st' → slot_fec_indexes_to_iterate st' = slot_fec_indexes_to_iterate st →
  log st' = log st ++ lg → Forall not_decoded lg → listed st → listed st'.
Proof.
  intros Hle Hl Hlog Hlg Hs slot f a b. rewrite Hl, Hlog, omap_app, (decoded_of_none lg),
    app_nil_r by done. eauto using marked_mono.
Qed.

Lemma ingest_shred_history st s st' :
  recon_wf good st → good s → ingest_shred st s = Ok st' →
  history st → listed st → history st' ∧ listed st'.
Proof.
  intros Hst Hg Hi Hh Hl.
  destruct (ingest_shred_wf good _ _ _ Hst Hg Hi) as [_ Hle].
  apply (ingest_shred_cases good) in Hi; [|done].
  destruct Hi as [lg Hlg _|fecs t t' set He Hnew Hupd Hins].
  - split; [apply (history_mono st _ lg)|apply (listed_mono st _ lg)]; try done; simpl; lia.
  - split.
    { apply (history_mono st _ []); simpl; rewrite ?app_nil_r; try done; lia. }
    intros slot f a b [Hin|Hin]%elem_of_app Hdec; eapply marked_mono; try done.
    + by eapply Hl.
    + apply list_elem_of_singleton in Hin. simplify_eq.
      destruct (proj1 Hh _ _ _ Hdec) as [?|Hold]; [done|]. unfold old in Hold. simpl in *. lia.
Qed.

Lemma ingest_packet_history st b st' :
  recon_wf good st → (∀ s, parse_packet b = Some s → good s) →
  ingest_packet st b = Ok st' → history st → listed st → history st' ∧ listed st'.
Proof.
  intros Hst Hb. unfold ingest_packet. destruct (parse_packet b) as [s|].
  - intros. eapply ingest_shred_history; eauto.
  - case_match; intros [= <-]; [done|]. intros ? ?.
    split; [apply (history_mono st _ [LogDecodeFailed])|apply (listed_mono st _ [LogDecodeFailed])];
      try done; first [by repeat constructor|exact (recon_le_refl st)|simpl; lia].
Qed.

Lemma ingest_batch_history batch st :
  recon_wf good st → batch_good good batch → history st → listed st →
  ensures (ingest_batch batch st) (λ st', recon_wf good st' ∧ history st' ∧ listed st').
Proof.
  intros Hst Hb Hh Hl. apply foldM_ensures; [done|].
  intros st1 b (p & Hp & Hd)%list_elem_of_omap (Hw & Hh1 & Hl1).
  assert (∀ s, parse_packet b = Some s → good s) as Hg by eauto.
  pose proof (ingest_packet_returns good st1 b Hw Hg) as Hr.
  destruct (ingest_packet st1 b) as [st2|] eqn:E; [|done]. destruct Hr as [Hw2 _].
  simpl. split; [done|]. by apply (ingest_packet_history st1 b).
Qed.

Lemma disjoint_snoc ds slot a b :
  disjoint_deliveries ds →
  (∀ a' b', (slot, a', b') ∈ ds → (b' < a ∨ b < a')%nat) →
  disjoint_deliveries (ds ++ [(slot, a, b)]).
Proof.
  intros Hd Hn i j slot' a1 b1 a2 b2 Hij Hi Hj.
  assert (i < length ds)%nat as Hil.
  { apply lookup_lt_Some in Hj. rewrite length_app in Hj. simpl in Hj. lia. }
  rewrite lookup_app_l in Hi by done.
  destruct (decide (j < length ds)%nat).
  - rewrite lookup_app_l in Hj by done. by eapply (Hd i j).
  - rewrite lookup_app_r in Hj by lia. apply list_lookup_singleton_Some in Hj as [_ Hj].
    simplify_eq. apply Hn. by eapply list_elem_of_lookup_2.
Qed.

Lemma deshred_result_history st slot f fecs t st' :
  recon_wf good st → slot_entry slot st = (fecs, t) → 0 ≤ slot ≤ highest_slot_seen st →
  (slot, f) ∈ slot_fec_indexes_to_iterate st →
  deshred_result st slot f fecs t st' → history st → listed st → history st' ∧ listed st'.
Proof.
  intros Hst He Hslot Hin Hr Hh Hl.
  destruct (deshred_result_wf good _ _ _ _ _ _ Hst He Hslot Hr) as (_ & Hle & El & Eh).
  pose proof (slot_entry_wf good slot _ Hst) as Hwf. rewrite He in Hwf.
  destruct Hr as [?|a b u ds lg m _ _ _ Hlg _|a b u ds p es m Hseg Hds _ _ _ _ _].
  - split; [apply (history_mono st _ [])|apply (listed_mono st _ [])]; simpl;
      rewrite ?app_nil_r; try done; lia.
  - split; [apply (history_mono st _ lg)|apply (listed_mono st _ lg)]; try done; simpl; lia.
  - set (st' := mkRecon _ _ _ _ _ _) in *.
    assert (marked st' slot a b) as Hnew.
    { split; [destruct Hseg; lia|]. exists fecs, (mark_all ds t). split; [apply lookup_insert_eq|].
      intros i Hi. rewrite (mark_all_deshredded good slot fecs t a b) by done.
      by rewrite decide_True. }
    assert (omap decoded_of (log st') = omap decoded_of (log st) ++ [(slot, a, b)]) as Hlog.
    { simpl. by rewrite omap_app. }
    split; [split|].
    + intros slot' a' b'. rewrite Hlog. intros [Hd|Hd]%elem_of_app.
      * destruct (proj1 Hh _ _ _ Hd); [left; by eapply marked_mono|right; by eapply old_mono].
      * apply list_elem_of_singleton in Hd. simplify_eq. by left.
    + rewrite Hlog. apply disjoint_snoc; [apply Hh|]. intros a' b' Hd.
      destruct (Hl _ _ _ _ Hin Hd) as (Hab & fecs' & t' & Ht' & Hm).
      unfold slot_entry in He. rewrite Ht' in He. simpl in He. simplify_eq.
      destruct (decide (b' < a)%nat); [by left|]. destruct (decide (b < a')%nat); [by right|].
      exfalso. destruct Hseg as [Hc _ _ Hf _].
      pose proof (Hm (max a a') ltac:(lia)) as Hx. by rewrite Hf in Hx by lia.
    + intros slot' f' a' b' Hin'. rewrite Hlog. intros [Hd|Hd]%elem_of_app.
      * eapply marked_mono; [done|]. by eapply Hl.
      * apply list_elem_of_singleton in Hd. by simplify_eq.
Qed.
(** One iteration of the deshredding loop, from a state of that loop. *)
Definition in_loop (st0 st : Recon) : Prop :=
  recon_wf good st ∧ slot_fec_indexes_to_iterate st = slot_fec_indexes_to_iterate st0 ∧
  highest_slot_seen st = highest_slot_seen st0.

Lemma deshred_step st0 st slot f st' :
  recon_wf good st0 → in_loop st0 st → (slot, f) ∈ slot_fec_indexes_to_iterate st0 →
  deshred_fec_set st (slot, f) = Ok st' →
  0 ≤ slot ≤ highest_slot_seen st ∧ in_loop st0 st' ∧
  ∃ fecs t, slot_entry slot st = (fecs, t) ∧ deshred_result st slot f fecs t st'.
Proof.
  intros Hst0 (Hw & El & Eh) Hin Hd.
  destruct (rw_list _ _ Hst0 _ _ Hin) as (_ & _ & Hslot). rewrite <-Eh in Hslot.
  destruct (slot_entry slot st) as [fecs t] eqn:He.
  pose proof (deshred_fec_set_cases good st slot f fecs t Hw He) as Hr.
  rewrite Hd in Hr. simpl in Hr.
  destruct (deshred_result_wf good _ _ _ _ _ _ Hw He Hslot Hr) as (? & _ & ? & ?).
  split; [done|]. split; [split_and!; congruence|]. eauto.
Qed.

Lemma deshred_all_history st :
  recon_wf good st → history st → listed st →
  ensures (deshred_all st) (λ st', recon_wf good st' ∧ history st').
Proof.
  intros Hst Hh Hl. eapply ensures_mono.
  - apply (foldM_ensures _ (λ st', in_loop st st' ∧ history st' ∧ listed st')); [done|].
    intros st1 [slot f] Hin (HJ & Hh1 & Hl1).
    destruct (deshred_fec_set st1 (slot, f)) as [st2|] eqn:E; [|done].
    destruct (deshred_step _ _ _ _ _ Hst HJ Hin E) as (Hslot & HJ2 & fecs & t & He & Hr).
    split; [done|]. destruct HJ as (Hw & El & _).
    eapply deshred_result_history; eauto. by rewrite El.
  - by intros st' ((? & _) & ? & _).
Qed.

Lemma drop_old_slots_history st st' :
  drop_old_slots st = Ok st' → history st → history st'.
Proof.
  intros (Hall & _ & _ & Eh & _ & lg & Elog & Hlg)%drop_old_slots_Ok [Hs Hd].
  unfold history, settled. rewrite Elog, omap_app, (decoded_of_none lg), app_nil_r by done.
  split; [|done]. intros slot a b Hdec.
  destruct (Hs _ _ _ Hdec) as [(Hab & fecs & t & Ht & Hm)|Ho];
    [|right; unfold old in *; by rewrite Eh].
  destruct Hall as [[E _]|E]; [left; split; [done|]; exists fecs, t; by rewrite E|].
  destruct (decide (saturating_sub (highest_slot_seen st) SLOT_LOOKBACK ≤ slot)).
  - left. split; [done|]. exists fecs, t. split; [|done].
    rewrite E. by apply map_lookup_filter_Some.
  - right. unfold old. rewrite Eh. lia.
Qed.

Lemma reconstruct_shreds_history batch st n st' :
  overflow_checks = false → recon_wf good st → batch_good good batch → history st →
  reconstruct_shreds batch st = Ok (n, st') → recon_wf good st' ∧ history st'.
Proof.
  intros Ho Hst Hb Hh Hr.
  pose proof (reconstruct_shreds_returns good batch st Ho Hst Hb) as Hret.
  rewrite Hr in Hret. destruct Hret as [Hw' _]. split; [done|].
  apply reconstruct_shreds_phases in Hr as (st1 & st2 & st3 & st4 & E1 & E2 & E3 & E4 & ->).
  pose proof (ingest_batch_history batch (clear_outputs st)) as H1'.
  rewrite E1 in H1'. destruct H1' as (Hw1 & Hh1 & Hl1);
    [by apply clear_outputs_wf|done|done|by intros ???? ?%elem_of_nil|].
  pose proof (recover_all_returns good (sort_indexes st1) Ho) as H2'.
  rewrite E2 in H2'. destruct H2' as [Hw2 [F1 F2 _ _ (lg & F3 & F4) F5]];
    [by apply sort_indexes_wf|]. simpl in Hw2, F1, F2, F3, F5.
  assert (history st2 ∧ listed st2) as [Hh2 Hl2].
  { split.
    - apply (history_mono (sort_indexes st1) _ lg); try done. simpl. lia.
    - apply (listed_mono (sort_indexes st1) _ lg); try done.
      intros slot f a b Hin. apply Hl1 with f. by apply sort_indexes_elem_of. }
  pose proof (deshred_all_history st2 Hw2 Hh2 Hl2) as H3'. rewrite E3 in H3'.
  destruct H3' as [_ Hh3]. apply drop_old_slots_history in E4; [|done].
  case_decide; [|done]. apply E4.
Qed.

Lemma recon_init_history m : history (recon_init m).
Proof.
  split; simpl.
  - by intros slot a b ?%elem_of_nil.
  - intros i j slot a1 b1 a2 b2 _ Hi. done.
Qed.

Lemma run_batches_history st batches :
  overflow_checks = false → recon_wf good st → Forall (batch_good good) batches →
  history st → returns (run_batches st batches) (λ st', recon_wf good st' ∧ history st').
Proof.
  intros Ho Hst Hb Hh. apply foldM_returns; [done|].
  intros st1 b Hin [Hw1 Hh1]. rewrite Forall_forall in Hb.
  pose proof (reconstruct_shreds_returns good b st1 Ho Hw1 (Hb _ Hin)) as Hr.
  destruct (reconstruct_shreds b st1) as [[n st2]|] eqn:E; [|done]. simpl.
  eapply (reconstruct_shreds_history b st1 n); eauto.
Qed.

(** * Lemmas: what an entry is *)

Lemma segment_is_run slot fecs t f a b u ds :
  slot_wf good slot (fecs, t) → is_segment t f a b u → segment_shreds t a b ds →
  segment_run slot a ds.
Proof.
  intros Hw [Hc He Hm _ _] [Hlen Hds]. split; [intros ->; simpl in *; lia|].
  intros j d Hj. pose proof (lookup_lt_Some _ _ _ Hj) as Hjl. apply Hds in Hj.
  destruct (wf_shreds _ (slot_wf_tracker _ _ _ _ Hw) _ _ Hj) as [[x ->] Hidx].
  pose proof (wf_status _ (slot_wf_tracker _ _ _ _ Hw) _ _ Hj) as Hst. simpl in Hst.
  destruct (sw_shreds _ _ _ Hw _ _ Hj) as [? ?].
  exists x. split_and!; try done. case_bool_decide as Hl.
  - replace (a + j)%nat with b in Hst by lia. rewrite He in Hst. by destruct (completes x).
  - rewrite Hm in Hst by lia. by destruct (completes x).
Qed.

Lemma deshred_all_delivers st st' :
  recon_wf good st → deshred_all st = Ok st' →
  ∃ lg es, log st' = log st ++ lg ∧ deshredded_entries st' = deshredded_entries st ++ es ∧
           Forall2 delivery_ok (omap decoded_of lg) es.
Proof.
  intros Hst Hd. pose proof (foldM_ensures deshred_fec_set (λ st', in_loop st st' ∧
    ∃ lg es, log st' = log st ++ lg ∧ deshredded_entries st' = deshredded_entries st ++ es ∧
             Forall2 delivery_ok (omap decoded_of lg) es)
    st (slot_fec_indexes_to_iterate st)) as Hi. unfold deshred_all in Hd. rewrite Hd in Hi.
  apply Hi; clear Hi Hd.
  { split; [done|]. exists [], []. rewrite !app_nil_r. by repeat constructor. }
  intros st1 [slot f] Hin (HJ & lg & es & Elog & Ees & HF).
  destruct (deshred_fec_set st1 (slot, f)) as [st2|] eqn:E; [|done].
  destruct (deshred_step _ _ _ _ _ Hst HJ Hin E) as (Hslot & HJ2 & fecs & t & He & Hr).
  split; [done|]. destruct HJ as (Hw & _ & _).
  pose proof (slot_entry_wf good slot _ Hw) as Hwf. rewrite He in Hwf.
  destruct Hr as [?|a b u ds lg' m _ _ _ Hlg _|a b u ds p es' m Hseg Hds Hdes Hbin _ _ _]; simpl.
  - eauto.
  - exists (lg ++ lg'), es. rewrite Elog, app_assoc, omap_app, (decoded_of_none lg'),
      app_nil_r by done. done.
  - eexists (lg ++ [_]), (es ++ [_]). rewrite Elog, Ees, !app_assoc, omap_app.
    split_and!; [done..|]. apply Forall2_app; [done|]. constructor; [|constructor].
    exists ds. simpl. split_and!; try done; [by eapply segment_is_run|apply Hds].
Qed.
(** Ingesting delivers nothing and counts nothing. *)
Lemma ingest_batch_quiet batch st :
  recon_wf good st → batch_good good batch →
  ensures (ingest_batch batch st) (λ st', recon_wf good st' ∧
    deshredded_entries st' = deshredded_entries st ∧ metrics st' = metrics st ∧
    ∃ lg, log st' = log st ++ lg ∧ Forall not_decoded lg).
Proof.
  intros Hst Hb. apply foldM_ensures.
  { split_and!; try done. exists []. by rewrite app_nil_r. }
  intros st1 b (p & Hp & Hd)%list_elem_of_omap (Hw & Ee & Em & lg & El & Hlg).
  assert (∀ s, parse_packet b = Some s → good s) as Hg by eauto.
  pose proof (ingest_packet_returns good st1 b Hw Hg) as Hr.
  destruct (ingest_packet st1 b) as [st2|] eqn:E; [|done]. destruct Hr as [Hw2 _].
  split; [done|]. unfold ingest_packet in E.
  destruct (parse_packet b) as [s|].
  - apply (ingest_shred_cases good) in E; [|done]. destruct E; simpl; [|by eauto].
    rewrite El, <-app_assoc. split_and!; [done..|]. eexists. split; [done|].
    by apply Forall_app.
  - case_match; simplify_eq; simpl; [by eauto|]. rewrite El, <-app_assoc.
    split_and!; [done..|]. eexists. split; [done|]. apply Forall_app. by repeat constructor.
Qed.

(** The state in which the deshredding loop of a call starts. *)
Lemma reconstruct_shreds_loop batch st n st' :
  overflow_checks = false → recon_wf good st → batch_good good batch →
  reconstruct_shreds batch st = Ok (n, st') →
  ∃ st2 st3 lg2 lg4, recon_wf good st2 ∧
    StronglySorted (λ x y, pair_leb x y = true ∧ x ≠ y) (slot_fec_indexes_to_iterate st2) ∧
    deshredded_entries st2 = [] ∧ metrics st2 = metrics st ∧
    log st2 = log st ++ lg2 ∧ Forall not_decoded lg2 ∧
    deshred_all st2 = Ok st3 ∧
    deshredded_entries st' = deshredded_entries st3 ∧
    log st' = log st3 ++ lg4 ∧ Forall not_decoded lg4 ∧
    slot_fec_indexes_to_iterate st' = slot_fec_indexes_to_iterate st2 ∧
    (∀ slot v, all_shreds st' !! slot = Some v → all_shreds st3 !! slot = Some v) ∧
    (∀ c, load c (metrics st') =
          load c (if decide (0 < n)%nat
                  then fetch_add RecoveredCount (Z.of_nat n) (metrics st3) else metrics st3)).
Proof.
  intros Ho Hst Hb
    (st1 & st2 & st3 & st4 & E1 & E2 & E3 & E4 & ->)%reconstruct_shreds_phases.
  pose proof (ingest_batch_quiet batch (clear_outputs st)) as H1'. rewrite E1 in H1'.
  destruct H1' as (Hw1 & Ee1 & Em1 & lg1 & El1 & Hlg1); [by apply clear_outputs_wf|done|].
  pose proof (recover_all_returns good (sort_indexes st1) Ho) as H2'. rewrite E2 in H2'.
  destruct H2' as [Hw2 [F1 F2 F3 F4 (lg2 & F5 & F6) _]]; [by apply sort_indexes_wf|].
  simpl in Hw2, F1, F2, F3, F4, F5.
  pose proof (deshred_all_returns good st2 Hw2) as H3'. rewrite E3 in H3'.
  destruct H3' as (_ & _ & El3 & _).
  destruct (drop_old_slots_Ok _ _ E4) as (Hall & El4 & Ee4 & _ & Em4 & lg4 & Elg4 & Hlg4).
  exists st2, st3, (lg1 ++ lg2), lg4.
  assert (∀ slot v, all_shreds st4 !! slot = Some v → all_shreds st3 !! slot = Some v).
  { intros slot v. destruct Hall as [[-> _]| ->]; [done|].
    by intros [? _]%map_lookup_filter_Some. }
  split; [done|]. split; [rewrite F1; apply sort_indexes_sorted|].
  split; [by rewrite F3, Ee1|]. split; [by rewrite F4, Em1|].
  split; [by rewrite F5, El1, app_assoc|]. split; [by apply Forall_app|].
  case_decide; simpl; split_and!; try congruence; intros; rewrite ?Em4; eauto.
Qed.

(** What a call returns is what its new deliveries decode to. *)
Lemma call_delivers batch st n st' :
  overflow_checks = false → recon_wf good st → batch_good good batch →
  reconstruct_shreds batch st = Ok (n, st') →
  ∃ lg, log st' = log st ++ lg ∧
        Forall2 delivery_ok (omap decoded_of lg) (deshredded_entries st').
Proof.
  intros Ho Hst Hb Hr.
  destruct (reconstruct_shreds_loop _ _ _ _ Ho Hst Hb Hr) as
    (st2 & st3 & lg2 & lg4 & Hw & _ & Ee & _ & El & Hlg2 & Ed & Ee' & El' & Hlg4 & _).
  destruct (deshred_all_delivers _ _ Hw Ed) as (lg & es & El3 & Ee3 & HF).
  exists (lg2 ++ lg ++ lg4). rewrite El', El3, El, Ee', Ee3, Ee, <-!app_assoc. split; [done|].
  by rewrite !omap_app, (decoded_of_none lg2), (decoded_of_none lg4), app_nil_r by done.
Qed.

(** * Lemmas: where a delivery starts *)

(** Every delivered segment of [ds] starts where the tracker's shreds do. *)
Definition starts_maximal (st : Recon) (ds : list (Z * nat * nat)) : Prop :=
  ∀ slot a b, (slot, a, b) ∈ ds →
    ∃ fecs t, all_shreds st !! slot = Some (fecs, t) ∧ left_maximal t a.

Lemma segment_left_maximal t f a b u : is_segment t f a b u → left_maximal t a.
Proof. intros [_ _ _ _ Hs]. destruct a; [done|]. destruct u; [by right|by left]. Qed.

(** A deshredding step leaves the statuses of every slot as they are. *)
Lemma deshred_result_status st slot f fecs t st' slot' fecs' t' :
  slot_entry slot st = (fecs, t) → deshred_result st slot f fecs t st' →
  all_shreds st !! slot' = Some (fecs', t') →
  ∃ t2, all_shreds st' !! slot' = Some (fecs', t2) ∧ data_status t2 = data_status t'.
Proof.
  intros He Hr Hl.
  assert (∀ t1, data_status t1 = data_status t →
    ∃ t2, <[slot := (fecs, t1)]> (all_shreds st) !! slot' = Some (fecs', t2) ∧
          data_status t2 = data_status t') as Hins.
  { intros t1 Ht1. rewrite lookup_insert. case_decide as Hs; [|by eauto]. subst slot'.
    unfold slot_entry in He. rewrite Hl in He. simpl in He. simplify_eq. eauto. }
  destruct Hr; simpl; by apply Hins.
Qed.

Lemma starts_maximal_mono st st' ds :
  (∀ slot fecs t, all_shreds st !! slot = Some (fecs, t) →
     ∃ t', all_shreds st' !! slot = Some (fecs, t') ∧ data_status t' = data_status t) →
  starts_maximal st ds → starts_maximal st' ds.
Proof.
  intros Hst Hs slot a b (fecs & t & Hl & Hm)%Hs. destruct (Hst _ _ _ Hl) as (t' & ? & E).
  exists fecs, t'. split; [done|]. destruct a; [done|]. simpl in *. by rewrite E.
Qed.

Lemma deshred_step_maximal st slot f fecs t st' ds :
  recon_wf good st → slot_entry slot st = (fecs, t) → deshred_result st slot f fecs t st' →
  starts_maximal st ds →
  ∃ lg, log st' = log st ++ lg ∧ starts_maximal st' (ds ++ omap decoded_of lg).
Proof.
  intros Hw He Hr Hs. assert (starts_maximal st' ds) as Hs'.
  { eapply starts_maximal_mono; [|done]. intros. by eapply deshred_result_status. }
  destruct Hr as [?|a b u ds' lg m _ _ _ Hlg _|a b u ds' p es m Hseg _ _ _ _ _ _].
  - exists []. simpl. by rewrite !app_nil_r.
  - exists lg. by rewrite (decoded_of_none lg), app_nil_r.
  - eexists. split; [done|]. intros slot' a' b' [?|Hd]%elem_of_app; [by eapply Hs'|].
    apply list_elem_of_singleton in Hd. simplify_eq. simpl.
    exists fecs, (mark_all ds' t). split; [apply lookup_insert_eq|].
    exact (segment_left_maximal _ _ _ _ _ Hseg).
Qed.

Lemma deshred_all_maximal st st' :
  recon_wf good st → deshred_all st = Ok st' →
  ∃ lg, log st' = log st ++ lg ∧ starts_maximal st' (omap decoded_of lg).
Proof.
  intros Hst Hd. pose proof (foldM_ensures deshred_fec_set (λ st', in_loop st st' ∧
    ∃ lg, log st' = log st ++ lg ∧ starts_maximal st' (omap decoded_of lg))
    st (slot_fec_indexes_to_iterate st)) as Hi. unfold deshred_all in Hd. rewrite Hd in Hi.
  apply Hi; clear Hi Hd.
  { split; [done|]. exists []. rewrite app_nil_r. split; [done|]. by intros ??? ?%elem_of_nil. }
  intros st1 [slot f] Hin (HJ & lg & Elog & Hs).
  destruct (deshred_fec_set st1 (slot, f)) as [st2|] eqn:E; [|done].
  destruct (deshred_step _ _ _ _ _ Hst HJ Hin E) as (_ & HJ2 & fecs & t & He & Hr).
  split; [done|].
  destruct (deshred_step_maximal _ _ _ _ _ _ _ (proj1 HJ) He Hr Hs) as (lg' & E' & Hs').
  exists (lg ++ lg'). by rewrite E', Elog, app_assoc, omap_app.
Qed.

(** In the state after a call, for the slots it keeps. *)
Lemma call_delivers_maximal batch st n st' lg :
  overflow_checks = false → recon_wf good st → batch_good good batch →
  reconstruct_shreds batch st = Ok (n, st') → log st' = log st ++ lg →
  ∀ slot a b fecs t, (slot, a, b) ∈ omap decoded_of lg →
    all_shreds st' !! slot = Some (fecs, t) → left_maximal t a.
Proof.
  intros Ho Hst Hb Hr Hlg slot a b fecs t Hin Hl.
  destruct (reconstruct_shreds_loop _ _ _ _ Ho Hst Hb Hr) as
    (st2 & st3 & lg2 & lg4 & Hw & _ & _ & _ & El & Hlg2 & Ed & _ & El' & Hlg4 & _ & Hk & _).
  destruct (deshred_all_maximal _ _ Hw Ed) as (lg3 & El3 & Hs).
  rewrite El', El3, El, <-!app_assoc in Hlg. apply app_inv_head in Hlg. subst lg.
  rewrite !omap_app, (decoded_of_none lg2), (decoded_of_none lg4), app_nil_r in Hin by done.
  destruct (Hs _ _ _ Hin) as (fecs' & t' & Hl' & Hm). apply Hk in Hl. congruence.
Qed.

(** * Lemmas: order *)

Lemma deshred_fold_slots st0 st keys st' :
  recon_wf good st0 → in_loop st0 st →
  (∀ k, k ∈ keys → k ∈ slot_fec_indexes_to_iterate st0) →
  StronglySorted (λ x y : Z * Z, pair_leb x y = true ∧ x ≠ y) keys →
  foldM deshred_fec_set st keys = Ok st' →
  ∃ es, deshredded_entries st' = deshredded_entries st ++ es ∧
        StronglySorted Z.le es.*1.*1 ∧ ∀ e, e ∈ es → e.1.1 ∈ keys.*1.
Proof.
  intros Hst0. revert st. induction keys as [|[slot f] keys IH]; intros st HJ Hin Hs.
  { intros [= <-]. exists []. rewrite app_nil_r. split_and!; [done|constructor|].
    by intros e ?%elem_of_nil. }
  simpl. intros (st1 & E & Hr)%bind_Ok. apply StronglySorted_cons in Hs as [Hle Hs].
  destruct (deshred_step _ _ _ _ _ Hst0 HJ (Hin _ ltac:(left)) E) as (_ & HJ1 & fecs & t & He & Hd).
  destruct (IH st1 HJ1) as (es & Ees & Hsort & Hslots); [intros; apply Hin; by right|done|done|].
  assert (∀ e, e ∈ es → slot ≤ e.1.1) as Hge.
  { intros e (k & -> & Hk)%Hslots%list_elem_of_fmap. rewrite Forall_forall in Hle.
    destruct (Hle _ Hk) as [Hp _]. unfold pair_leb in Hp.
    apply orb_true_iff in Hp as [?%Z.ltb_lt|[?%Z.eqb_eq _]%andb_true_iff]; simpl in *; lia. }
  destruct Hd as [?|a b u ds lg m _ _ _ _ _|a b u ds p es' m _ _ _ _ _ _ _]; simpl in Ees.
  1,2: exists es; split_and!; [done..|]; intros e He'; right; by apply Hslots.
  exists ((slot, es', p) :: es). rewrite Ees, <-app_assoc. split_and!; [done| |].
  - simpl. constructor; [done|]. apply Forall_forall. intros z Hz.
    apply list_elem_of_fmap in Hz as ([z' l'] & -> & Hz).
    apply list_elem_of_fmap in Hz as (e & -> & He'). by apply Hge.
  - intros e [->|He']%elem_of_cons; [left|right; by apply Hslots].
Qed.

(** * Lemmas: nothing is left *)

Lemma mark_all_segment t f a b u a' b' ds slot fecs :
  slot_wf good slot (fecs, t) → segment_shreds t a' b' ds →
  is_segment (mark_all ds t) f a b u → is_segment t f a b u.
Proof.
  intros Hw Hds [Hc He Hm Hf Hs]. split; [done..| |done].
  intros j Hj. specialize (Hf j Hj).
  rewrite (mark_all_deshredded good slot fecs t a' b') in Hf by done. by case_decide.
Qed.

Lemma segment_shreds_unique t a b ds ds' :
  segment_shreds t a b ds → segment_shreds t a b ds' → ds = ds'.
Proof.
  intros [Hl Hd] [Hl' Hd']. apply list_eq. intros i.
  destruct (decide (i < length ds)%nat) as [Hi|Hi].
  - destruct (lookup_lt_is_Some_2 ds i Hi) as [d Hx].
    destruct (lookup_lt_is_Some_2 ds' i ltac:(lia)) as [d' Hx'].
    pose proof (Hd _ _ Hx) as E1. pose proof (Hd' _ _ Hx') as E2. congruence.
  - rewrite !lookup_ge_None_2 by lia. done.
Qed.

(** A step leaves nothing at its own key, and keeps what was settled before. *)
Lemma deshred_result_left st slot f fecs t st' :
  recon_wf good st → slot_entry slot st = (fecs, t) →
  deshred_result st slot f fecs t st' →
  (∀ fecs' t', all_shreds st' !! slot = Some (fecs', t') → nothing_left t' (Z.to_nat f)) ∧
  (∀ slot' f' fecs' t', all_shreds st' !! slot' = Some (fecs', t') →
     (∀ fecs0 t0, all_shreds st !! slot' = Some (fecs0, t0) → nothing_left t0 f') →
     is_Some (all_shreds st !! slot') → nothing_left t' f').
Proof.
  intros Hst He Hr. pose proof (slot_entry_wf good slot _ Hst) as Hwf. rewrite He in Hwf.
  pose proof (slot_wf_tracker _ _ _ _ Hwf) as Ht. pose proof (wf_same_len _ Ht) as Hsl.
  assert (∀ slot' f', is_Some (all_shreds st !! slot') → slot' = slot →
    (∀ fecs0 t0, all_shreds st !! slot' = Some (fecs0, t0) → nothing_left t0 f') →
    nothing_left t f') as Hkeep.
  { intros slot' f' [[fecs0 t0] H0'] -> Hn. unfold slot_entry in He. rewrite H0' in He.
    simpl in He. simplify_eq. eauto. }
  assert (∀ v slot' f' fecs' t', <[slot := v]> (all_shreds st) !! slot' = Some (fecs', t') →
    (∀ fecs0 t0, all_shreds st !! slot' = Some (fecs0, t0) → nothing_left t0 f') →
    is_Some (all_shreds st !! slot') →
    (nothing_left t f' → nothing_left v.2 f') → nothing_left t' f') as Hother.
  { intros v slot' f' fecs' t'. rewrite lookup_insert. case_decide as Hs; [|by eauto].
    intros [= ->] Hn Hin Hv. apply Hv. by eapply Hkeep. }
  destruct Hr as [Hnone|a b u ds lg m Hseg Hds Hdec _ _|a b u ds p es m Hseg Hds _ _ _ _ _];
    simpl; rewrite lookup_insert_eq; (split; [|intros; eapply Hother; eauto]).
  - intros fecs' t' [= <- <-] a b u ds Hseg _.
    apply segment_get_indexes in Hseg; [congruence|done].
  - intros fecs' t' [= <- <-] a' b' u' ds' Hseg' Hds'.
    destruct (is_segment_unique _ _ _ _ _ _ _ _ Hsl Hseg Hseg') as (<- & <- & _).
    by rewrite (segment_shreds_unique _ _ _ _ _ Hds' Hds).
  - intros fecs' t' [= <- <-] a' b' u' ds' Hseg' _. exfalso.
    destruct Hseg as [Hc _ _ _ _]. destruct Hseg' as [Hc' _ _ Hf' _].
    specialize (Hf' (Z.to_nat f) Hc').
    rewrite (mark_all_deshredded good slot fecs t a b) in Hf' by done.
    by rewrite decide_True in Hf'.
  - simpl. intros Hn a' b' u' ds' Hseg' Hds'. eapply Hn; [|exact Hds'].
    by apply (mark_all_segment t _ _ _ _ a b ds slot fecs).
Qed.

Lemma deshred_fold_left st0 st keys st' done_keys :
  recon_wf good st0 → in_loop st0 st →
  (∀ k, k ∈ keys → k ∈ slot_fec_indexes_to_iterate st0) →
  (∀ slot f, (slot, f) ∈ done_keys → is_Some (all_shreds st !! slot) ∧
     ∀ fecs t, all_shreds st !! slot = Some (fecs, t) → nothing_left t (Z.to_nat f)) →
  foldM deshred_fec_set st keys = Ok st' →
  ∀ slot f fecs t, (slot, f) ∈ done_keys ++ keys →
    all_shreds st' !! slot = Some (fecs, t) → nothing_left t (Z.to_nat f).
Proof.
  intros Hst0. revert st done_keys. induction keys as [|[slot f] keys IH];
    intros st done_keys HJ Hin Hdone.
  { intros [= <-] slot f fecs t. rewrite app_nil_r. intros Hk. by apply (Hdone _ _ Hk). }
  simpl. intros (st1 & E & Hr)%bind_Ok.
  destruct (deshred_step _ _ _ _ _ Hst0 HJ (Hin _ ltac:(left)) E)
    as (Hslot & HJ1 & fecs0 & t0 & He & Hd).
  pose proof (deshred_result_left _ _ _ _ _ _ (proj1 HJ) He Hd) as [Hown Hkeep].
  assert (∀ k, k = slot ∨ is_Some (all_shreds st !! k) → is_Some (all_shreds st1 !! k)) as Hsome.
  { intros k Hk. destruct Hd; simpl; rewrite lookup_insert; case_decide; naive_solver. }
  intros slot' f' fecs' t' Hk. apply (IH st1 (done_keys ++ [(slot, f)]) HJ1);
    [intros; apply Hin; by right| |done|by rewrite <-app_assoc].
  intros k g [Hk'|Hk']%elem_of_app.
  - destruct (Hdone _ _ Hk') as [Hs Hn]. split; [apply Hsome; by right|].
    intros fecs t Hl. by eapply Hkeep.
  - apply list_elem_of_singleton in Hk'. simplify_eq. split; [apply Hsome; by left|].
    intros fecs t. apply Hown.
Qed.

(** * Lemmas: the counters *)

Definition entries_total (es : list (Z * list Entry * bytes)) : Z :=
  sumZ (λ e : Z * list Entry * bytes, Z.of_nat (length e.1.2)) es.
Definition txns_total (es : list (Z * list Entry * bytes)) : Z :=
  sumZ (λ e : Z * list Entry * bytes,
    sumZ (λ x, Z.of_nat (transactions_len x)) e.1.2) es.

Lemma deshred_all_counts st st' :
  recon_wf good st → metrics_wf (metrics st) → deshred_all st = Ok st' →
  ∃ es, deshredded_entries st' = deshredded_entries st ++ es ∧
    load EntryCount (metrics st')
      = wrap 64 (load EntryCount (metrics st) + entries_total es) ∧
    load TxnCount (metrics st')
      = wrap 64 (load TxnCount (metrics st) + txns_total es) ∧
    load RecoveredCount (metrics st') = load RecoveredCount (metrics st).
Proof.
  intros Hst Hm Hd. pose proof (foldM_ensures deshred_fec_set (λ st', in_loop st st' ∧
    ∃ es, deshredded_entries st' = deshredded_entries st ++ es ∧
      load EntryCount (metrics st')
        = wrap 64 (load EntryCount (metrics st) + entries_total es) ∧
      load TxnCount (metrics st')
        = wrap 64 (load TxnCount (metrics st) + txns_total es) ∧
      load RecoveredCount (metrics st') = load RecoveredCount (metrics st))
    st (slot_fec_indexes_to_iterate st)) as Hi. unfold deshred_all in Hd. rewrite Hd in Hi.
  apply Hi; clear Hi Hd.
  { split; [done|]. exists []. rewrite app_nil_r. unfold entries_total, txns_total, sumZ. simpl.
    by rewrite !Z.add_0_r, !wrap_small by apply Hm. }
  intros st1 [slot f] Hin (HJ & es & Ees & Een & Etx & Erec).
  destruct (deshred_fec_set st1 (slot, f)) as [st2|] eqn:E; [|done].
  destruct (deshred_step _ _ _ _ _ Hst HJ Hin E) as (_ & HJ2 & fecs & t & He & Hr).
  split; [done|].
  destruct Hr as [?|a b u ds lg' m _ _ _ _ Hm'|a b u ds p es' m _ _ _ _ He1 He2 He3]; simpl.
  - eauto.
  - exists es. rewrite !Hm' by set_solver. done.
  - exists (es ++ [(slot, es', p)]). rewrite Ees, app_assoc, He1, He2, He3.
    unfold entries_total, txns_total in *. rewrite !sumZ_app, !sumZ_cons. simpl.
    unfold sumZ at 2 5. simpl. rewrite !Z.add_0_r, Een, Etx.
    autorewrite with rust. split_and!; [done| | |done]; f_equal; lia.
Qed.
End delivery.
