(* ===== verification/Complete.v ===== *)
(** Completeness of [reconstruct_shreds]: a segment all of whose data shreds
    arrive in one batch is delivered by that call, whatever the order of the
    packets and whatever else the batch holds. *)

From S2P Require Import Prelude Net Metrics Shreds Tracker FecSet Packets Deshred DeshredInv.
From S2P Require Import Delivery.

Section complete.
Context `{ShredLib} `{PacketLib} `{BuildProfile} `{!ShredLibLaws}.
Context (good : Shred → Prop) `{!GoodShreds good}.
Implicit Types (st : Recon) (t : ShredsStateTracker).

(** The shred is in the batch. *)
Definition carries (batch : PacketBatch) (s : Shred) : Prop :=
  ∃ b, b ∈ omap packet_data batch ∧ parse_packet b = Some s.

(** * Frame lemmas *)

Lemma slot_entry_set_slot slot slot' v st :
  slot_entry slot (set_slot slot' v st) = if decide (slot = slot') then v else slot_entry slot st.
Proof.
  unfold slot_entry. simpl. rewrite lookup_insert. by repeat case_decide; subst; try done.
Qed.

Lemma update_state_tracker_frame s t o t' :
  update_state_tracker s t = Ok (o, t') →
  already_deshredded t' = already_deshredded t ∧
  already_recovered_fec_sets t' = already_recovered_fec_sets t.
Proof.
  unfold update_state_tracker. intros (rec & _ & Hr)%bind_Ok. destruct rec; [by simplify_eq|].
  apply bind_Ok in Hr as (seen & _ & Hr). destruct seen; [by simplify_eq|].
  destruct s; [by simplify_eq|].
  apply bind_Ok in Hr as (? & _ & Hr). apply bind_Ok in Hr as (? & _ & Hr). by simplify_eq.
Qed.

Lemma note_recovered_frame slot f acc l acc' :
  foldM (note_recovered slot f) acc l = Ok acc' →
  already_deshredded acc'.1.1 = already_deshredded acc.1.1.
Proof.
  intros Hf. pose proof (foldM_ensures (note_recovered slot f)
    (λ a, already_deshredded a.1.1 = already_deshredded acc.1.1) acc l) as Hi.
  rewrite Hf in Hi. apply Hi; [done|]. intros [[t n] lg] [s|] _ Ha; simpl in *; [|done].
  destruct (update_state_tracker s t) as [[o t']|] eqn:E; [|done]. simpl.
  apply update_state_tracker_frame in E as [E _]. destruct o; simpl; congruence.
Qed.

(** Recovering one set changes the entry of its slot and the log, and marks
    nothing as deshredded. *)
Lemma recover_fec_set_shape st n slot f st' n' :
  recover_fec_set (st, n) (slot, f) = Ok (st', n') →
  ∃ v lg, st' = logging lg (set_slot slot v st) ∧
          already_deshredded v.2 = already_deshredded (slot_entry slot st).2.
Proof.
  unfold recover_fec_set. destruct (slot_entry slot st) as [fecs t].
  intros (info & _ & Hr)%bind_Ok. destruct info as [[[ned nec] nd] nc].
  case_decide as Hskip; [simplify_eq; eexists _, []; by rewrite logging_nil|].
  destruct (recover _) as [l|]; [|simplify_eq; by eexists _, _].
  apply bind_Ok in Hr as ([[t' k] lg] & Hn & Hr). apply note_recovered_frame in Hn. simpl in Hn.
  case_decide.
  - apply bind_Ok in Hr as (t2 & [_ ->]%set_recovered_Ok & Hr). simplify_eq.
    rewrite set_slot_set_slot. by eexists _, _.
  - simplify_eq. rewrite set_slot_set_slot. by eexists _, _.
Qed.

Lemma recover_fec_set_other st n slot' f st' n' slot :
  recover_fec_set (st, n) (slot', f) = Ok (st', n') → slot' ≠ slot →
  slot_entry slot st' = slot_entry slot st.
Proof.
  intros (v & lg & -> & _)%recover_fec_set_shape Hne.
  change (slot_entry slot (logging lg ?x)) with (slot_entry slot x).
  by rewrite slot_entry_set_slot, decide_False by congruence.
Qed.

Lemma recover_fec_set_frame st n key st' n' slot :
  recover_fec_set (st, n) key = Ok (st', n') →
  already_deshredded (slot_entry slot st').2 = already_deshredded (slot_entry slot st).2.
Proof.
  destruct key as [slot' f]. intros (v & lg & -> & Hv)%recover_fec_set_shape.
  change (slot_entry slot (logging lg ?x)) with (slot_entry slot x).
  rewrite slot_entry_set_slot. case_decide; [|done]. by subst.
Qed.

Lemma recover_all_frame st st' n slot :
  recover_all st = Ok (st', n) →
  already_deshredded (slot_entry slot st').2 = already_deshredded (slot_entry slot st).2.
Proof.
  intros Hr. pose proof (foldM_ensures recover_fec_set
    (λ r, already_deshredded (slot_entry slot r.1).2 = already_deshredded (slot_entry slot st).2)
    (st, 0%nat) (slot_fec_indexes_to_iterate st)) as Hi. unfold recover_all in Hr.
  rewrite Hr in Hi. apply Hi; [done|]. intros [st1 k] key _ Ha. simpl in Ha.
  destruct (recover_fec_set (st1, k) key) as [[st2 k']|] eqn:E; [|done]. simpl.
  rewrite <-Ha. by eapply recover_fec_set_frame.
Qed.

(** A slot keeps the shreds it holds. *)
Lemma slot_entry_le_shreds slot st st' i s :
  recon_le st st' → data_shreds (slot_entry slot st).2 !! i = Some (Some s) →
  data_shreds (slot_entry slot st').2 !! i = Some (Some s).
Proof.
  intros Hle Hs. destruct (slot_entry slot st) as [fecs t] eqn:He.
  destruct (slot_entry_present slot st fecs t i He) as [[fecs' t'] Hx]; [by eauto|].
  destruct (Hle _ _ _ Hx) as (fecs2 & t2 & Hl2 & Htt).
  unfold slot_entry in He |- *. rewrite Hx in He. simpl in He. simplify_eq.
  rewrite Hl2. by apply (le_shreds _ _ Htt).
Qed.

(** * Ingesting into a slot nothing of which is recovered yet *)

Definition untouched t : Prop :=
  ∀ i, already_recovered_fec_sets t !! i ≠ Some true ∧ already_deshredded t !! i ≠ Some true.

Lemma ingest_shred_open st s st' fecs t :
  recon_wf good st → slot_entry (shred_slot s) st = (fecs, t) →
  saturating_sub (highest_slot_seen st) SLOT_LOOKBACK ≤ shred_slot s → untouched t →
  ingest_shred st s = Ok st' →
  (∃ t' set, update_state_tracker s t = Ok (Some (idx s), t') ∧
     hashset_insert s (fec_entry (shred_fec_set_index s) fecs) = Ok set ∧
     st' = mkRecon
             (<[shred_slot s := (<[shred_fec_set_index s := set]> fecs, t')]> (all_shreds st))
             (slot_fec_indexes_to_iterate st ++ [(shred_slot s, shred_fec_set_index s)])
             (deshredded_entries st)
             (Z.max (highest_slot_seen st) (shred_slot s)) (metrics st) (log st)) ∨
  (st' = set_slot (shred_slot s) (fecs, t) st ∧ is_data s = true ∧
   ∃ s', data_shreds t !! idx s = Some (Some s')).
Proof.
  intros Hst He Hnew Hu. unfold ingest_shred. rewrite He.
  pose proof (slot_entry_wf good (shred_slot s) _ Hst) as Hwf. rewrite He in Hwf. simpl.
  rewrite decide_False by lia. intros (rec & Hrec%vec_get_Ok & Hr)%bind_Ok.
  destruct rec; [by destruct (Hu (fec s))|].
  apply bind_Ok in Hr as (comp & Hcomp%vec_get_Ok & Hr).
  destruct comp; [by destruct (Hu (idx s))|].
  apply bind_Ok in Hr as ([o t'] & Hup & Hr).
  pose proof (update_state_tracker_cases _ _ _ (slot_wf_tracker _ _ _ _ Hwf) Hup) as Hc.
  destruct o as [i|].
  - left. assert (i = idx s) as -> by (by inversion Hc).
    apply bind_Ok in Hr as (set & Hset & Hr). simplify_eq.
    exists t', set. do 2 (split; [done|]).
    unfold set_slot, with_all, with_list, with_highest. simpl. by rewrite insert_insert_eq.
  - right. inversion Hc as [Hx|d Hd Hx| |]; subst; [by destruct (Hu (fec s))|].
    simplify_eq. by rewrite set_slot_set_slot.
Qed.

(** The state while the batch is ingested, for one such slot that held [prior]
    before the call. *)
Record ingest_inv (slot : Z) (prior : list Shred) (seen : list bytes) (st : Recon) : Prop := {
  ii_wf : recon_wf good st;
  ii_highest : saturating_sub (highest_slot_seen st) SLOT_LOOKBACK ≤ slot;
  ii_untouched : untouched (slot_entry slot st).2;
  ii_stored b s : b ∈ seen → parse_packet b = Some s → shred_slot s = slot →
    is_data s = true → ∃ s', data_shreds (slot_entry slot st).2 !! idx s = Some (Some s');
  ii_from i s : data_shreds (slot_entry slot st).2 !! i = Some (Some s) →
    s ∈ prior ∨ (∃ b, b ∈ seen ∧ parse_packet b = Some s) ∧
                (slot, shred_fec_set_index s) ∈ slot_fec_indexes_to_iterate st;
}.

Lemma slot_entry_accepted slot slot' v st l e h m lg :
  slot_entry slot (mkRecon (<[slot' := v]> (all_shreds st)) l e h m lg)
  = if decide (slot = slot') then v else slot_entry slot st.
Proof. exact (slot_entry_set_slot slot slot' v st). Qed.

(** A step that leaves the slot alone and only extends the list of keys. *)
Lemma ingest_inv_frame slot prior seen b st st' l :
  ingest_inv slot prior seen st → recon_wf good st' → slot_entry slot st' = slot_entry slot st →
  slot_fec_indexes_to_iterate st' = slot_fec_indexes_to_iterate st ++ l →
  saturating_sub (highest_slot_seen st') SLOT_LOOKBACK ≤ slot →
  (∀ s, parse_packet b = Some s → shred_slot s = slot → is_data s = true →
        ∃ s', data_shreds (slot_entry slot st).2 !! idx s = Some (Some s')) →
  ingest_inv slot prior (seen ++ [b]) st'.
Proof.
  intros [Hw Hh Hu Hs Hf] Hw' E El Hh' Hb. split; rewrite ?E; try done.
  - intros b' s [?|Hx%list_elem_of_singleton]%elem_of_app; subst; eauto.
  - intros i s Hi. destruct (Hf i s Hi) as [?|[(b' & ? & ?) ?]]; [by left|right].
    rewrite El. set_solver.
Qed.

(** The slot's own shred is accepted. *)
Lemma ingest_inv_accepted slot prior seen b st s fecs t t' set :
  ingest_inv slot prior seen st → parse_packet b = Some s → shred_slot s = slot →
  slot_entry slot st = (fecs, t) → update_state_tracker s t = Ok (Some (idx s), t') →
  saturating_sub (Z.max (highest_slot_seen st) slot) SLOT_LOOKBACK ≤ slot →
  let st' := mkRecon (<[slot := (<[shred_fec_set_index s := set]> fecs, t')]> (all_shreds st))
               (slot_fec_indexes_to_iterate st ++ [(slot, shred_fec_set_index s)])
               (deshredded_entries st) (Z.max (highest_slot_seen st) slot)
               (metrics st) (log st) in
  recon_wf good st' → ingest_inv slot prior (seen ++ [b]) st'.
Proof.
  intros [Hw _ Hu Hstored Hfrom] Hp Hs He Hup Hmax st' Hw'.
  pose proof (slot_entry_wf good slot _ Hw) as Hwf. rewrite He in Hwf, Hu, Hstored, Hfrom.
  pose proof (slot_wf_tracker _ _ _ _ Hwf) as Ht. simpl in Hu, Hstored, Hfrom.
  destruct (update_state_tracker_frame _ _ _ _ Hup) as [Ed Er].
  pose proof (update_state_tracker_cases _ _ _ Ht Hup) as Hc.
  split; unfold st'; rewrite ?slot_entry_accepted, ?decide_True by done; simpl; [done|done| | |].
  - intros i. by rewrite Ed, Er.
  - intros b' s' Hb' Hp' Hs' Hd'.
    apply elem_of_app in Hb' as [Hb'|Hb'%list_elem_of_singleton]; [|subst b'].
    + destruct (Hstored b' s' Hb' Hp' Hs' Hd') as [x Hx].
      exists x. by apply (le_shreds _ _ (update_state_tracker_le _ _ _ _ Ht Hup)).
    + rewrite Hp in Hp'. injection Hp' as <-. inversion Hc; subst; [|done].
      exists (ShredData d). simpl. apply list_lookup_insert_eq. by eapply lookup_lt_Some.
  - intros i s' Hi'.
    assert (s' = s ∨ data_shreds t !! i = Some (Some s')) as [->|Hold].
    { inversion Hc; subst; simpl in Hi'; [|by right].
      rewrite list_lookup_insert in Hi'. case_decide; naive_solver. }
    + right. split; [exists b|]; set_solver.
    + destruct (Hfrom i s' Hold) as [?|[(b' & ? & ?) ?]]; [by left|right].
      split; [exists b'|]; set_solver.
Qed.

(** What one packet does to the state, seen from one slot: it leaves the slot
    alone, or it is a shred of the slot and is accepted. *)
Inductive slot_step (slot : Z) (b : bytes) (st st' : Recon) : Prop :=
  | slot_kept l :
      slot_entry slot st' = slot_entry slot st →
      slot_fec_indexes_to_iterate st' = slot_fec_indexes_to_iterate st ++ l →
      (∀ s, parse_packet b = Some s → shred_slot s = slot → is_data s = true ∧
            ∃ s', data_shreds (slot_entry slot st).2 !! idx s = Some (Some s')) →
      slot_step slot b st st'
  | slot_accepted s fecs t t' set :
      parse_packet b = Some s → shred_slot s = slot → slot_entry slot st = (fecs, t) →
      update_state_tracker s t = Ok (Some (idx s), t') →
      hashset_insert s (fec_entry (shred_fec_set_index s) fecs) = Ok set →
      st' = mkRecon (<[slot := (<[shred_fec_set_index s := set]> fecs, t')]> (all_shreds st))
              (slot_fec_indexes_to_iterate st ++ [(slot, shred_fec_set_index s)])
              (deshredded_entries st) (Z.max (highest_slot_seen st) slot)
              (metrics st) (log st) →
      slot_step slot b st st'.

Lemma ingest_slot_step slot prior seen b st st' :
  ingest_inv slot prior seen st → ingest_packet st b = Ok st' → slot_step slot b st st'.
Proof.
  intros Hinv Hi. unfold ingest_packet in Hi.
  destruct (parse_packet b) as [s|] eqn:Hp.
  2:{ case_match; simplify_eq; apply slot_kept with []; by rewrite ?app_nil_r, ?Hp. }
  destruct (decide (shred_slot s = slot)) as [Hs|Hs].
  2:{ assert (∀ s', parse_packet b = Some s' → shred_slot s' = slot → False) as Hno
        by (rewrite Hp; by intros s' [= <-]).
      apply (ingest_shred_cases good) in Hi; [|apply Hinv].
      destruct Hi as [lg _ _|fecs t t' set _ _ _ _].
      - apply slot_kept with []; [|by rewrite app_nil_r|by intros; exfalso; eauto].
        change (slot_entry slot (logging lg ?x)) with (slot_entry slot x).
        by rewrite slot_entry_set_slot, decide_False by congruence.
      - eapply slot_kept; [|done|by intros; exfalso; eauto].
        by rewrite slot_entry_accepted, decide_False by congruence. }
  destruct (slot_entry slot st) as [fecs t] eqn:He.
  pose proof (ii_untouched _ _ _ _ Hinv) as Hu. rewrite He in Hu. simpl in Hu.
  pose proof (ii_highest _ _ _ _ Hinv) as Hh.
  eapply ingest_shred_open in Hi; [|apply Hinv|by rewrite Hs|by rewrite Hs|done].
  rewrite Hs in Hi. destruct Hi as [(t' & set & Hup & Hins & ->)|(-> & Hd & Hst)].
  - by eapply slot_accepted.
  - apply slot_kept with []; [|by rewrite app_nil_r|].
    + by rewrite slot_entry_set_slot, decide_True.
    + rewrite Hp, He. by intros s' [= <-].
Qed.

Lemma ingest_packet_highest slot prior seen b st st' :
  ingest_inv slot prior seen st → 0 ≤ slot →
  (∀ s, parse_packet b = Some s → shred_slot s ≤ slot + SLOT_LOOKBACK) →
  ingest_packet st b = Ok st' →
  saturating_sub (highest_slot_seen st') SLOT_LOOKBACK ≤ slot.
Proof.
  intros Hinv Hslot Hle Hi. pose proof (ii_highest _ _ _ _ Hinv) as Hh. unfold ingest_packet in Hi.
  destruct (parse_packet b) as [s|]; [|by case_match; simplify_eq].
  specialize (Hle s eq_refl). apply (ingest_shred_cases good) in Hi; [|apply Hinv].
  destruct Hi; [done|]. unfold saturating_sub, SLOT_LOOKBACK in *. simpl. lia.
Qed.

Lemma ingest_inv_step slot prior seen b st st' :
  ingest_inv slot prior seen st → (∀ s, parse_packet b = Some s → good s) →
  (∀ s, parse_packet b = Some s → shred_slot s ≤ slot + SLOT_LOOKBACK) → 0 ≤ slot →
  ingest_packet st b = Ok st' → ingest_inv slot prior (seen ++ [b]) st'.
Proof.
  intros Hinv Hg Hle Hslot Hi.
  pose proof (ingest_packet_returns good st b (ii_wf _ _ _ _ Hinv) Hg) as Hr. rewrite Hi in Hr.
  destruct Hr as [Hw' _].
  pose proof (ingest_packet_highest _ _ _ _ _ _ Hinv Hslot Hle Hi) as Hh.
  destruct (ingest_slot_step _ _ _ _ _ _ Hinv Hi) as [l E El Hst|s fecs t t' set Hp Hs He Hup _ ->].
  - eapply ingest_inv_frame; eauto. intros s Hp Hs _. by apply Hst.
  - eapply ingest_inv_accepted; eauto.
Qed.

Lemma ingest_inv_fold slot prior seen st l st' :
  ingest_inv slot prior seen st → 0 ≤ slot →
  (∀ b s, b ∈ l → parse_packet b = Some s → good s ∧ shred_slot s ≤ slot + SLOT_LOOKBACK) →
  foldM ingest_packet st l = Ok st' → ingest_inv slot prior (seen ++ l) st'.
Proof.
  intros Hinv Hslot. revert seen st Hinv. induction l as [|b l IH]; intros seen st Hinv Hl.
  { intros [= <-]. by rewrite app_nil_r. }
  simpl. intros (st1 & E & Hr)%bind_Ok. rewrite cons_middle, app_assoc.
  apply (IH _ st1); [|intros; apply (Hl b0); [by right|done]|done].
  eapply ingest_inv_step; eauto; intros s Hs; by apply (Hl b s ltac:(left)).
Qed.

(** * The deshredding loop reaches the segment *)

Lemma deshred_fold_finds st0 st keys st' slot fecs t b u ds p es :
  recon_wf good st0 → in_loop good st0 st →
  (∀ k, k ∈ keys → k ∈ slot_fec_indexes_to_iterate st0) →
  StronglySorted (λ x y : Z * Z, pair_leb x y = true ∧ x ≠ y) keys →
  slot_entry slot st = (fecs, t) → (slot, 0) ∈ keys →
  is_segment t 0 0 b u → segment_shreds t 0 b ds →
  deshred (payload <$> ds) = Some p → bincode_deserialize p = Some es →
  foldM deshred_fec_set st keys = Ok st' → (slot, es, p) ∈ deshredded_entries st'.
Proof.
  intros Hst0 HJ Hin Hs. revert st HJ. induction keys as [|[slot' g] keys IH];
    intros st HJ He Hk Hseg Hds Hp Hes; [by apply elem_of_nil in Hk|].
  pose proof Hs as [Hhd Hs']%StronglySorted_cons.
  simpl. intros (st1 & E & Hr)%bind_Ok.
  destruct (deshred_step _ _ _ _ _ _ Hst0 HJ (Hin _ ltac:(left)) E)
    as (_ & HJ1 & fecs0 & t0 & He0 & Hd).
  assert (∀ k, k ∈ keys → k ∈ slot_fec_indexes_to_iterate st0) as Hin'
    by (intros; apply Hin; by right).
  destruct (decide ((slot', g) = (slot, 0))) as [Heq|Hne].
  - injection Heq as -> ->. rewrite He in He0. injection He0 as <- <-.
    destruct (deshred_fold_slots good st0 st1 keys st' Hst0 HJ1 Hin' Hs' Hr) as (es' & -> & _).
    pose proof (proj1 HJ) as Hw. pose proof (slot_entry_wf good slot _ Hw) as Hwf.
    rewrite He in Hwf. pose proof (wf_same_len _ (slot_wf_tracker _ _ _ _ Hwf)) as Hsl.
    apply elem_of_app. left. destruct Hd as [Hn|a' b' u' ds' lg m Hseg' Hds' Hf _ _
      |a' b' u' ds' p' es'' m Hseg' Hds' Hp' Hes' _ _ _].
    + apply segment_get_indexes in Hseg; [|done]. change (Z.to_nat 0) with 0%nat in Hn. congruence.
    + destruct (is_segment_unique _ _ _ _ _ _ _ _ Hsl Hseg Hseg') as (<- & <- & _).
      rewrite (segment_shreds_unique _ _ _ _ _ Hds' Hds), Hp in Hf. simpl in Hf. congruence.
    + destruct (is_segment_unique _ _ _ _ _ _ _ _ Hsl Hseg Hseg') as (<- & <- & _).
      rewrite (segment_shreds_unique _ _ _ _ _ Hds' Hds), Hp in Hp'.
      simplify_eq. simpl. set_solver.
  - apply elem_of_cons in Hk as [Hk|Hk]; [congruence|].
    apply (IH Hin' Hs' st1 HJ1); try done.
    rewrite Forall_forall in Hhd. destruct (Hhd _ Hk) as [Hle _].
    destruct (rw_list _ _ Hst0 _ _ (Hin _ ltac:(left))) as (Hg & _).
    assert (slot' ≠ slot) as Hns.
    { intros ->. unfold pair_leb in Hle. simpl in Hle. rewrite Z.ltb_irrefl, Z.eqb_refl in Hle.
      simpl in Hle. apply Z.leb_le in Hle. apply Hne. f_equal. lia. }
    rewrite <-He. destruct Hd; unfold slot_entry; simpl; by rewrite lookup_insert_ne.
Qed.

(** * The segment is there when the loop starts *)

Lemma run_is_segment t slot fecs ds :
  slot_wf good slot (fecs, t) → segment_run good slot 0 ds →
  (∀ j d, ds !! j = Some d → data_shreds t !! j = Some (Some d)) →
  (∀ i, already_deshredded t !! i ≠ Some true) →
  is_segment t 0 0 (pred (length ds)) false ∧ segment_shreds t 0 (pred (length ds)) ds.
Proof.
  intros Hwf [Hne Hrun] Hds Hu. pose proof (slot_wf_tracker _ _ _ _ Hwf) as Ht.
  assert (0 < length ds)%nat by (destruct ds; simpl; [done|lia]).
  assert (∀ j, (j < length ds)%nat → data_status t !! j
    = Some (if decide (S j = length ds) then DataComplete else NotDataComplete)) as Hst.
  { intros j Hj. destruct (lookup_lt_is_Some_2 ds j Hj) as [d Hd].
    destruct (Hrun j d Hd) as (x & -> & _ & _ & _ & Hc).
    rewrite (wf_status _ Ht _ _ (Hds _ _ Hd)). simpl. rewrite Hc.
    by repeat (case_bool_decide || case_decide). }
  split; [split|split]; try done; try lia.
  - rewrite Hst by lia. rewrite decide_True by lia. done.
  - intros j Hj. rewrite Hst by lia. by rewrite decide_False by lia.
  - intros j Hj. destruct (lookup_lt_is_Some_2 (already_deshredded t) j) as [b Hb].
    { rewrite wf_len_deshredded by done. pose proof (lookup_lt_Some _ _ _ (Hst j ltac:(lia))).
      by rewrite <-(wf_len_status t). }
    destruct b; [by destruct (Hu j)|done].
Qed.

(** A slot of which nothing is recovered or delivered yet, and whose data shreds
    are among [prior]. *)
Record open_slot (slot : Z) (prior : list Shred) (st : Recon) : Prop := {
  os_untouched : untouched (slot_entry slot st).2;
  os_stored i s : data_shreds (slot_entry slot st).2 !! i = Some (Some s) → s ∈ prior;
}.

Lemma untracked_open st slot prior : all_shreds st !! slot = None → open_slot slot prior st.
Proof.
  intros Hnone. split; unfold slot_entry; rewrite Hnone; simpl.
  - intros i. split; by intros [? _]%lookup_replicate.
  - by intros i s [? _]%lookup_replicate.
Qed.

(** The ingest phase of a call, for an open slot. *)
Lemma ingest_inv_init st slot prior :
  recon_wf good st → open_slot slot prior st →
  saturating_sub (highest_slot_seen st) SLOT_LOOKBACK ≤ slot →
  ingest_inv slot prior [] (clear_outputs st).
Proof.
  intros Hst [Hu Hs] Hold. split; [by apply clear_outputs_wf|done|done|..].
  - by intros b s ?%elem_of_nil.
  - intros i s Hi. left. by eapply Hs.
Qed.

Lemma ingest_batch_inv batch st st1 slot prior :
  recon_wf good st → batch_good good batch → open_slot slot prior st → 0 ≤ slot →
  saturating_sub (highest_slot_seen st) SLOT_LOOKBACK ≤ slot →
  (∀ s, carries batch s → shred_slot s ≤ slot + SLOT_LOOKBACK) →
  ingest_batch batch (clear_outputs st) = Ok st1 →
  ingest_inv slot prior (omap packet_data batch) st1.
Proof.
  intros Hst Hb Hopen Hs0 Hold Hle E1.
  pose proof (ingest_inv_init st slot prior Hst Hopen Hold) as H0'.
  apply ingest_inv_fold with (slot := slot) (prior := prior) (seen := []) in E1; [done..|].
  intros b s Hin Hp. split; [|apply Hle; by exists b].
  apply list_elem_of_omap in Hin as (p & Hp1 & Hp2). by eapply Hb.
Qed.

(** The data shreds the tracker then holds are those the batch carries, when
    neither the batch nor what was there before contradicts them. *)
Lemma ingest_inv_stores batch st1 slot prior d :
  ingest_inv slot prior (omap packet_data batch) st1 → carries batch d → is_data d = true →
  shred_slot d = slot →
  (∀ s, s ∈ prior ∨ carries batch s → is_data s = true → shred_slot s = slot →
        idx s = idx d → s = d) →
  data_shreds (slot_entry slot st1).2 !! idx d = Some (Some d).
Proof.
  intros [Hw1 _ _ Hst1 Hfr1] (b & Hb1 & Hb2) Hd Hsl Huniq.
  destruct (Hst1 b _ Hb1 Hb2 Hsl Hd) as [s' Hs'].
  pose proof (slot_entry_wf good slot _ Hw1) as Hwf.
  destruct (wf_shreds _ (sw_tracker _ _ _ Hwf) _ _ Hs') as [[y ->] Hj'].
  destruct (sw_shreds _ _ _ Hwf _ _ Hs') as [Hslot' _].
  rewrite Hs'. do 2 f_equal. apply Huniq; try done.
  destruct (Hfr1 _ _ Hs') as [?|[(b' & ? & ?) _]]; [by left|right; by exists b'].
Qed.

(** The state after the ingest and recovery phases, for a slot that was not
    tracked before the call. *)
Lemma phases_untracked batch st st1 st2 n slot ds :
  overflow_checks = false → recon_wf good st → batch_good good batch →
  all_shreds st !! slot = None → 0 ≤ slot →
  saturating_sub (highest_slot_seen st) SLOT_LOOKBACK ≤ slot →
  (∀ s, carries batch s → shred_slot s ≤ slot + SLOT_LOOKBACK) →
  (∀ d, d ∈ ds → carries batch d) → segment_run good slot 0 ds →
  (∀ s d, carries batch s → is_data s = true → shred_slot s = slot → d ∈ ds →
          idx s = idx d → s = d) →
  ingest_batch batch (clear_outputs st) = Ok st1 →
  recover_all (sort_indexes st1) = Ok (st2, n) →
  recon_wf good st2 ∧
  (∀ d, d ∈ ds → (slot, shred_fec_set_index d) ∈ slot_fec_indexes_to_iterate st2) ∧
  slot_fec_indexes_to_iterate st2 = slot_fec_indexes_to_iterate (sort_indexes st1) ∧
  (∀ j d, ds !! j = Some d → data_shreds (slot_entry slot st2).2 !! j = Some (Some d)) ∧
  (∀ i, already_deshredded (slot_entry slot st2).2 !! i ≠ Some true).
Proof.
  intros Ho Hst Hb Hnone Hs0 Hold Hle Hcar [Hne Hrun] Huniq E1 E2.
  apply (ingest_batch_inv batch st st1 slot []) in E1 as Hinv; [|by auto using untracked_open..].
  pose proof Hinv as [Hw1 _ Hu1 _ Hfr1].
  pose proof (recover_all_returns good (sort_indexes st1) Ho) as H2'. rewrite E2 in H2'.
  destruct H2' as [Hw2 [F1 _ _ _ _ Fle]]; [by apply sort_indexes_wf|]. simpl in Hw2, F1, Fle.
  assert (∀ j d, ds !! j = Some d →
            data_shreds (slot_entry slot st1).2 !! j = Some (Some d)) as Hd1.
  { intros j d Hj. destruct (Hrun j d Hj) as (x & -> & Hidx & Hsl & _ & _).
    pose proof (list_elem_of_lookup_2 _ _ _ Hj) as Hin.
    change j with (0 + j)%nat. rewrite <-Hidx. eapply ingest_inv_stores; eauto.
    intros s [?%elem_of_nil|?]; [done|by eauto]. }
  pose proof (recover_all_frame _ _ _ slot E2) as Hfd.
  change (slot_entry slot (sort_indexes st1)) with (slot_entry slot st1) in Hfd.
  split; [done|]. split_and!; [|done| |].
  - intros d [j Hj]%list_elem_of_lookup. rewrite F1. apply sort_indexes_elem_of.
    by destruct (Hfr1 _ _ (Hd1 _ _ Hj)) as [?%elem_of_nil|[_ ?]].
  - intros j d Hj. by eapply slot_entry_le_shreds; [exact Fle|apply Hd1].
  - intros i. rewrite Hfd. apply Hu1.
Qed.

(** From there the deshredding loop delivers the segment. *)
Lemma segment_delivered st2 st3 st4 slot ds p es :
  recon_wf good st2 → segment_run good slot 0 ds →
  StronglySorted (λ x y, pair_leb x y = true ∧ x ≠ y) (slot_fec_indexes_to_iterate st2) →
  (slot, 0) ∈ slot_fec_indexes_to_iterate st2 →
  (∀ j d, ds !! j = Some d → data_shreds (slot_entry slot st2).2 !! j = Some (Some d)) →
  (∀ i, already_deshredded (slot_entry slot st2).2 !! i ≠ Some true) →
  deshred (payload <$> ds) = Some p → bincode_deserialize p = Some es →
  deshred_all st2 = Ok st3 → drop_old_slots st3 = Ok st4 →
  (slot, es, p) ∈ deshredded_entries st4.
Proof.
  intros Hw2 Hrun Hsort Hk Hd Hu Hp Hes E3 E4.
  destruct (slot_entry slot st2) as [fecs t] eqn:He. simpl in Hd, Hu.
  pose proof (slot_entry_wf good slot _ Hw2) as Hwf. rewrite He in Hwf.
  destruct (run_is_segment t slot fecs ds Hwf Hrun Hd Hu) as [Hseg Hds].
  destruct (drop_old_slots_Ok _ _ E4) as (_ & _ & -> & _).
  by apply (deshred_fold_finds st2 st2 (slot_fec_indexes_to_iterate st2) st3 slot fecs t
    (pred (length ds)) false ds).
Qed.
End complete.
