(* ===== verification/Recovery.v ===== *)
(** What one iteration of the recovery loop of [reconstruct_shreds] does to the
    tracker and to the count of recovered shreds. *)

From S2P Require Import Prelude Net Metrics Shreds Tracker FecSet Packets Deshred DeshredInv.
From S2P Require Import Complete.

Section recovery.
Context `{ShredLib} `{PacketLib} `{BuildProfile} `{!ShredLibLaws}.
Context (good : Shred → Prop) `{!GoodShreds good}.
Implicit Types (st : Recon) (t : ShredsStateTracker).

(** The number of data shreds a tracker holds. *)
Definition stored t : nat := length (omap id (data_shreds t)).

(** The code shreds in a list of recovery results. *)
Definition codes (l : list (option Shred)) : nat :=
  length (List.filter (λ o, match o with Some s => is_code s | None => false end) l).

Lemma omap_insert_Some {A} (l : list (option A)) i x :
  l !! i = Some None → length (omap id (<[i := Some x]> l)) = S (length (omap id l)).
Proof.
  revert i. induction l as [|o l IH]; intros [|i] Hi; simpl in *; simplify_eq; [done|].
  destruct o; simpl; by rewrite IH.
Qed.

Lemma stored_update s t o t' :
  tracker_wf t → update_state_tracker s t = Ok (o, t') →
  stored t' = (stored t + if decide (o ≠ None ∧ is_data s = true) then 1 else 0)%nat.
Proof.
  intros Ht Hu. pose proof (update_state_tracker_cases _ _ _ Ht Hu) as Hc.
  inversion Hc; subst; case_decide as Hd; try (exfalso; naive_solver); try lia.
  unfold stored. simpl. rewrite omap_insert_Some by done. lia.
Qed.

(** A stored shred was stored before or is the one the update is for. *)
Lemma update_from s t o t' :
  tracker_wf t → update_state_tracker s t = Ok (o, t') →
  ∀ i s', data_shreds t' !! i = Some (Some s') → data_shreds t !! i = Some (Some s') ∨ s' = s.
Proof.
  intros Ht Hu i s'. pose proof (update_state_tracker_cases _ _ _ Ht Hu) as Hc.
  inversion Hc; subst; simpl; try by left.
  rewrite list_lookup_insert. case_decide; [intros [= <-]; by right|by left].
Qed.

(** The loop over the recovered shreds: every data shred of the list ends up
    stored, and the count is that of the new data shreds and the code shreds. *)
Lemma note_recovered_spec slot f fecs t n lg recovered :
  slot_wf good slot (fecs, t) → already_recovered_fec_sets t !! f = Some false →
  (∀ s, Some s ∈ recovered → good s ∧ shred_slot s = slot ∧ fec s = f) →
  ∃ t' n' lg', foldM (note_recovered slot (Z.of_nat f)) (t, n, lg) recovered = Ok (t', n', lg') ∧
    slot_wf good slot (fecs, t') ∧ tracker_le t t' ∧
    already_recovered_fec_sets t' = already_recovered_fec_sets t ∧
    (∀ d, Some d ∈ recovered → is_data d = true →
          ∃ s', data_shreds t' !! idx d = Some (Some s')) ∧
    (∀ i s', data_shreds t' !! i = Some (Some s') →
             data_shreds t !! i = Some (Some s') ∨ Some s' ∈ recovered) ∧
    (n' + stored t = n + stored t' + codes recovered)%nat.
Proof.
  revert t n lg. induction recovered as [|o l IH]; intros t n lg Hw Hrec Hl.
  { exists t, n, lg. split_and!;
      [done|done|apply tracker_le_refl|done|by intros d ?%elem_of_nil|by left|].
    unfold codes. simpl. lia. }
  assert (∀ s, Some s ∈ l → good s ∧ shred_slot s = slot ∧ fec s = f) as Hl' by (intros; apply Hl; by right).
  destruct o as [s|].
  2:{ simpl. destruct (IH t n (lg ++ [LogRecoverShredFailed slot (Z.of_nat f)]) Hw Hrec Hl')
        as (t' & n' & lg' & E & ? & ? & ? & Hst & Hfr & ?).
      exists t', n', lg'. split_and!; try done.
      - intros d [?|?]%elem_of_cons; [done|by apply Hst].
      - intros i s' [?|?]%Hfr; [by left|right; by right]. }
  destruct (Hl s ltac:(left)) as (Hg & Hs & Hf).
  destruct (update_state_tracker_returns s t (slot_wf_tracker _ _ _ _ Hw) (good_in_bounds s Hg))
    as [[o t1] Hu].
  pose proof (slot_wf_tracker _ _ _ _ Hw) as Ht.
  pose proof (stored_update _ _ _ _ Ht Hu) as Hstored.
  pose proof (update_state_tracker_le _ _ _ _ Ht Hu) as Hle.
  pose proof (update_state_tracker_cases _ _ _ Ht Hu) as Hc.
  destruct (update_state_tracker_frame _ _ _ _ Hu) as [_ Er].
  pose proof (update_slot_wf good _ _ _ _ _ _ Hw Hg Hs Hu) as Hw1.
  rewrite <-Er in Hrec.
  assert (is_data s = true → ∃ s', data_shreds t1 !! idx s = Some (Some s')) as Hnew.
  { intros Hd. inversion Hc as [Hx|? ? Hx|d ? ? Hn|]; subst; try done; [congruence|].
    exists (ShredData d). apply list_lookup_insert_eq. by eapply lookup_lt_Some. }
  set (n1 := match o with Some _ => S n | None => n end).
  pose proof (update_from _ _ _ _ Ht Hu) as Hnew'.
  destruct (IH t1 n1 lg Hw1 Hrec Hl') as (t' & n' & lg' & E & Hw' & Hle' & Er' & Hst & Hfr & Hn).
  exists t', n', lg'. split_and!; [|done|by eapply tracker_le_trans|by rewrite Er'| | |].
  - cbn [foldM note_recovered]. rewrite Hu. destruct o; exact E.
  - intros d [[= ->]|Hd]%elem_of_cons; [|by apply Hst].
    intros (s' & Hs')%Hnew. exists s'. by apply (le_shreds _ _ Hle').
  - intros i s' [[?| ->]%Hnew'|?]%Hfr; [by left|right; left|right; by right].
  - unfold codes in *. simpl. unfold n1 in Hn. clear E IH Hnew Hnew' Hfr.
    destruct (decide (o ≠ None ∧ is_data s = true)) as [[Ho Hd]|Hd];
      inversion Hc; subst; simpl in *; try congruence; try lia; naive_solver.
Qed.

(** One iteration of the recovery loop that does recover. *)
Lemma recover_set_runs st total slot f fecs t n m d c l :
  recon_wf good st → 0 ≤ f → slot_entry slot st = (fecs, t) →
  already_recovered_fec_sets t !! Z.to_nat f = Some false →
  get_data_shred_info (fec_entry f fecs) = Ok (n, m, d, c) →
  n ≠ 0 → (Z.to_nat n ≤ length (fec_entry f fecs))%nat → d ≠ n →
  recover (merkle_shreds (fec_entry f fecs)) = Some l →
  ∃ st' t' k, recover_fec_set (st, total) (slot, f) = Ok (st', (total + k)%nat) ∧
    all_shreds st' = <[slot := (<[f := if decide (0 < k)%nat then [] else fec_entry f fecs]> fecs,
                                t')]> (all_shreds st) ∧
    tracker_wf t' ∧ tracker_le t t' ∧
    (∀ x, Some x ∈ l → is_data x = true → ∃ y, data_shreds t' !! idx x = Some (Some y)) ∧
    (∀ i y, data_shreds t' !! i = Some (Some y) →
            data_shreds t !! i = Some (Some y) ∨ Some y ∈ l) ∧
    (k + stored t = stored t' + codes l)%nat ∧
    already_recovered_fec_sets t' !! Z.to_nat f = Some (bool_decide (0 < k)%nat).
Proof.
  intros Hst Hf0 He Hrec Hinfo Hn Hlen Hd Hl.
  pose proof (slot_entry_wf good slot _ Hst) as Hwf. rewrite He in Hwf.
  destruct (fec_entry_good good _ _ _ f Hwf) as [Hgood Hsl].
  assert (∀ x, x ∈ merkle_shreds (fec_entry f fecs) → shred_fec_set_index x = f) as Hfx.
  { intros x Hx. rewrite merkle_shreds_perm in Hx. unfold fec_entry in Hx.
    destruct (fecs !! f) as [set|] eqn:Es; [|by apply elem_of_nil in Hx].
    by destruct (sw_fecs _ _ _ Hwf f set x Es Hx) as (_ & ? & _). }
  destruct (note_recovered_spec slot (Z.to_nat f) fecs t 0 [] l Hwf Hrec)
    as (t' & k & lg & Hfold & Hw' & Hle & Er & Hst' & Hfr & Hk).
  { intros x Hx. destruct (good_recover _ _ x Hgood Hl Hx) as (Hg & y & Hy & E1 & E2).
    split_and!; [done|by rewrite E1; apply Hsl|]. unfold fec. by rewrite E2, (Hfx y). }
  rewrite Z2Nat.id in Hfold by done. unfold recover_fec_set. rewrite He, Hinfo. simpl.
  rewrite decide_False by lia. rewrite Hl, Hfold. simpl.
  pose proof (slot_wf_tracker _ _ _ _ Hw') as Ht'. case_decide as Hpos.
  - destruct (set_recovered (Z.to_nat f) t') as [t2|] eqn:E.
    2:{ unfold set_recovered in E. rewrite vec_set_lt in E; [done|].
        rewrite Er. by eapply lookup_lt_Some. }
    pose proof (set_recovered_le _ _ _ E) as Hle2. pose proof (set_recovered_wf _ _ _ Ht' E).
    simpl. eexists _, t2, k. split; [done|]. simpl. rewrite decide_True, !insert_insert_eq by done.
    apply set_recovered_Ok in E as [E ->]. split_and!; try done; try lia.
    + by eapply tracker_le_trans.
    + rewrite bool_decide_eq_true_2 by done. by apply list_lookup_insert_eq.
  - exists (logging lg (set_slot slot (<[f:=fec_entry f fecs]> fecs, t')
              (set_slot slot (<[f:=fec_entry f fecs]> fecs, t) st))), t', k.
    split; [repeat f_equal; lia|]. simpl. rewrite decide_False, insert_insert_eq by done.
    rewrite Er, bool_decide_eq_false_2 by done. by split_and!.
Qed.
End recovery.
