(* ===== verification/Erasure.v ===== *)
(** Loss tolerance of [reconstruct_shreds]: a FEC set of [n] data shreds is
    delivered by the call whose batch brings the number of its data and code
    shreds that have arrived to [n], whichever they are. *)

From S2P Require Import Prelude Net Metrics Shreds Tracker FecSet Packets Deshred DeshredInv.
From S2P Require Import Delivery Complete Recovery.

Section erasure.
Context `{ShredLib} `{PacketLib} `{BuildProfile} `{!ShredLibLaws}.
Context (good : Shred → Prop) `{!GoodShreds good}.
Implicit Types (st : Recon) (t : ShredsStateTracker).

(** * Specification *)

(** The first FEC set of a slot as a leader makes it: the data shreds [ds] are
    one segment, whose size fits the [u16] of a header, the code shreds [cs] state
    the two sizes of the set, and no two different shreds of it compare equal. *)
Record fec_block (slot m : Z) (ds cs : list Shred) : Prop := {
  fb_run : segment_run good slot 0 ds;
  fb_size : in_width 16 (Z.of_nat (length ds));
  fb_set x : x ∈ ds ++ cs → shred_fec_set_index x = 0 ∧ comparable x;
  fb_code c : c ∈ cs → ∃ x, c = ShredCode x ∧ shred_slot c = slot ∧
    num_data_shreds (coding_header x) = Z.of_nat (length ds) ∧
    num_coding_shreds (coding_header x) = m;
  fb_distinct x y : x ∈ ds ++ cs → y ∈ ds ++ cs → ComparableShred_eq x y = Ok true → x = y;
}.

(** What an erasure code promises of the set: from as many different shreds of
    the set as it has data shreds, every missing data shred is recovered, and no
    other data shred. *)
Definition erasure_code (ds cs : list Shred) : Prop :=
  ∀ l, NoDup l → (∀ x, x ∈ l → x ∈ ds ++ cs) → (length ds ≤ length l)%nat →
    (∃ d, d ∈ ds ∧ d ∉ l) →
    ∃ l', recover l = Some l' ∧ (∀ d, d ∈ ds → d ∉ l → Some d ∈ l') ∧
          (∀ x, Some x ∈ l' → is_data x = true → x ∈ ds).

(** Packets that do not contradict the set: their shreds of the set, and their
    data shreds at the indexes of the set, are those of the set. *)
Definition honest (packets : list bytes) (slot : Z) (ds cs : list Shred) : Prop :=
  ∀ b s, b ∈ packets → parse_packet b = Some s → shred_slot s = slot →
    (shred_fec_set_index s = 0 → s ∈ ds ++ cs) ∧
    (is_data s = true → (idx s < length ds)%nat → s ∈ ds).

(** Nothing of the slot is recovered or delivered, and what it holds of the set
    agrees with it. *)
Record part_of_set (ds cs : list Shred) (v : SlotState) : Prop := {
  ps_untouched : untouched v.2;
  ps_set x : x ∈ fec_entry 0 v.1 → x ∈ ds ++ cs;
  ps_nodup : NoDup (fec_entry 0 v.1);
  ps_stored d : d ∈ ds → d ∈ fec_entry 0 v.1 → data_shreds v.2 !! idx d = Some (Some d);
  ps_only i s : data_shreds v.2 !! i = Some (Some s) → (i < length ds)%nat → s ∈ ds;
}.

(** The slot holds shreds of the set and no other data shreds, but not yet as
    many as the set has data shreds. *)
Record pending (ds cs : list Shred) (v : SlotState) : Prop := {
  pe_part : part_of_set ds cs v;
  pe_few : (length (fec_entry 0 v.1) < length ds)%nat;
  pe_held i s : data_shreds v.2 !! i = Some (Some s) → s ∈ fec_entry 0 v.1;
}.

(** A batch completes the set in a state in which it is pending: with it, as many
    different shreds of the set are there as the set has data shreds, whichever
    they are.  They may come in any order, repeated or not, and among any other
    good shreds, as long as none of those moves the lookback window past the slot
    or contradicts the set. *)
Record set_arrives (st : Recon) (batch : PacketBatch) (slot : Z) (ds cs : list Shred) : Prop := {
  sa_good : batch_good good batch;
  sa_before : pending ds cs (slot_entry slot st);
  sa_recent : saturating_sub (highest_slot_seen st) SLOT_LOOKBACK ≤ slot;
  sa_window s : carries batch s → shred_slot s ≤ slot + SLOT_LOOKBACK;
  sa_honest : honest (omap packet_data batch) slot ds cs;
  sa_enough : ∃ l, NoDup l ∧ (length ds ≤ length l)%nat ∧
    ∀ x, x ∈ l → x ∈ ds ++ cs ∧ (x ∈ fec_entry 0 (slot_entry slot st).1 ∨ carries batch x);
}.

Lemma untracked_pending ds cs st slot :
  ds ≠ [] → all_shreds st !! slot = None → pending ds cs (slot_entry slot st).
Proof.
  intros Hne Hnone. destruct (untracked_open st slot [] Hnone) as [Hu Hs].
  unfold slot_entry in *. rewrite Hnone in *. simpl in *.
  split; [split| |]; simpl; try done.
  - by intros x ?%elem_of_nil.
  - constructor.
  - by intros d _ ?%elem_of_nil.
  - by intros i s ?%Hs%elem_of_nil.
  - change (0 < length ds)%nat. destruct ds; [done|simpl; lia].
Qed.

(** * Ingesting: the set holds what the batch carries of it *)

Record set_inv (slot : Z) (prior : list Shred) (seen : list bytes) (st : Recon) : Prop := {
  si_prior x : x ∈ prior → x ∈ fec_entry 0 (slot_entry slot st).1;
  si_in b s : b ∈ seen → parse_packet b = Some s → shred_slot s = slot →
    shred_fec_set_index s = 0 → s ∈ fec_entry 0 (slot_entry slot st).1;
  si_from s : s ∈ fec_entry 0 (slot_entry slot st).1 →
    s ∈ prior ∨ ∃ b, b ∈ seen ∧ parse_packet b = Some s;
  si_nodup : NoDup (fec_entry 0 (slot_entry slot st).1);
  si_key : (∀ x, x ∈ fec_entry 0 (slot_entry slot st).1 → x ∈ prior) ∨
    (slot, 0) ∈ slot_fec_indexes_to_iterate st;
  si_data i s : data_shreds (slot_entry slot st).2 !! i = Some (Some s) →
    shred_fec_set_index s = 0 → s ∈ fec_entry 0 (slot_entry slot st).1;
}.

Lemma hashset_insert_new s set set' :
  payload_ok s → comparable s → NoDup set →
  (∀ x, x ∈ set → ComparableShred_eq s x = Ok true → s = x) →
  hashset_insert s set = Ok set' →
  NoDup set' ∧ (∀ x, x ∈ set' ↔ x = s ∨ x ∈ set).
Proof.
  intros Hp Hc Hnd Huniq Hi.
  assert (s ∈ set → set' = set) as Hin.
  { intros Hs. unfold hashset_insert in Hi. apply bind_Ok in Hi as (b & Hb & Hi). simplify_eq.
    destruct b; [done|]. exfalso. induction set as [|x set IH]; [by apply elem_of_nil in Hs|].
    simpl in Hb. apply bind_Ok in Hb as (b & Hx & Hb). destruct b; [done|].
    apply elem_of_cons in Hs as [<-|Hs]; [by rewrite ComparableShred_eq_refl in Hx|].
    apply NoDup_cons in Hnd as [_ Hnd]. apply IH; try done. intros. apply Huniq; [by right|done]. }
  destruct (hashset_insert_Ok _ _ _ Hi) as [->|(-> & x & Hx & Heq)].
  - assert (s ∉ set) as Hns.
    { intros Hs. apply Hin in Hs. apply (f_equal length) in Hs. rewrite length_app in Hs.
      simpl in Hs. lia. }
    split; [|set_solver]. apply NoDup_app. split_and!; [done| |apply NoDup_singleton].
    intros x Hx ->%list_elem_of_singleton. done.
  - pose proof (Huniq x Hx Heq) as <-. set_solver.
Qed.

Lemma fec_entry_insert f g set fecs :
  fec_entry f (<[g := set]> fecs) = if decide (f = g) then set else fec_entry f fecs.
Proof. unfold fec_entry. rewrite lookup_insert. by repeat case_decide; subst. Qed.

(** Two data shreds of the set at one index are the same. *)
Lemma run_idx_inj slot ds x y :
  segment_run good slot 0 ds → x ∈ ds → y ∈ ds → idx x = idx y → x = y.
Proof.
  intros [_ Hrun] [i Hi]%list_elem_of_lookup [j Hj]%list_elem_of_lookup Hxy.
  destruct (Hrun i x Hi) as (? & _ & Ex & _). destruct (Hrun j y Hj) as (? & _ & Ey & _).
  simpl in *. assert (i = j) as -> by congruence. congruence.
Qed.

Lemma run_idx slot ds x : segment_run good slot 0 ds → x ∈ ds →
  (idx x < length ds)%nat ∧ ds !! idx x = Some x ∧ is_data x = true ∧ shred_slot x = slot.
Proof.
  intros [_ Hrun] [i Hi]%list_elem_of_lookup.
  destruct (Hrun i x Hi) as (y & -> & Ex & Hs & _). simpl in *. rewrite Ex.
  split_and!; try done. by eapply lookup_lt_Some.
Qed.

Lemma block_data slot m ds cs x :
  fec_block slot m ds cs → x ∈ ds ++ cs → is_data x = true → x ∈ ds.
Proof.
  intros Hb [?|Hx]%elem_of_app Hd; [done|]. by destruct (fb_code _ _ _ _ Hb x Hx) as (? & -> & _).
Qed.

(** A shred of the set whose place in the tracker is taken is in the set. *)
Lemma known_in_set slot m ds cs prior seen b st s s' :
  fec_block slot m ds cs → (∀ x, x ∈ prior → x ∈ ds ++ cs) → honest (seen ++ [b]) slot ds cs →
  ingest_inv good slot prior seen st → set_inv slot prior seen st →
  parse_packet b = Some s → shred_slot s = slot → shred_fec_set_index s = 0 →
  is_data s = true → data_shreds (slot_entry slot st).2 !! idx s = Some (Some s') →
  s ∈ fec_entry 0 (slot_entry slot st).1.
Proof.
  intros Hbl Hprior Hho Hinv Hsi Hp Hs Hf Hd Hs'.
  pose proof (slot_entry_wf good slot _ (ii_wf _ _ _ _ _ Hinv)) as Hwf.
  destruct (wf_shreds _ (sw_tracker _ _ _ Hwf) _ _ Hs') as [[y ->] Hj].
  destruct (sw_shreds _ _ _ Hwf _ _ Hs') as [Hsl _].
  pose proof (fb_run _ _ _ _ Hbl) as Hrun.
  assert (s ∈ ds) as Hsd.
  { eapply block_data; [done| |done]. apply (Hho b s); [set_solver|done..]. }
  destruct (run_idx _ _ _ Hrun Hsd) as [Hlt _].
  assert (ShredData y ∈ ds) as Hyd.
  { destruct (ii_from _ _ _ _ _ Hinv _ _ Hs') as [Hx|[(b' & Hb' & Hp') _]].
    - eapply block_data; [done|by apply Hprior|done].
    - apply (Hho b' (ShredData y)); [set_solver|done..|by rewrite Hj]. }
  rewrite (run_idx_inj _ _ _ _ Hrun Hsd Hyd) in Hf |- * by done. by eapply si_data.
Qed.

(** A shred of the set is added to it, once. *)
Lemma accepted_in_set slot m ds cs prior seen b s fecs t st set :
  fec_block slot m ds cs → (∀ x, x ∈ prior → x ∈ ds ++ cs) →
  honest (seen ++ [b]) slot ds cs → good s →
  ingest_inv good slot prior seen st → set_inv slot prior seen st → slot_entry slot st = (fecs, t) →
  parse_packet b = Some s → shred_slot s = slot → shred_fec_set_index s = 0 →
  hashset_insert s (fec_entry 0 fecs) = Ok set →
  NoDup set ∧ (∀ x, x ∈ set ↔ x = s ∨ x ∈ fec_entry 0 fecs).
Proof.
  intros Hbl Hprior Hho Hg Hinv [_ _ Sfrom Snd _ _] He Hp Hs Hf Hins.
  pose proof (slot_entry_wf good slot _ (ii_wf _ _ _ _ _ Hinv)) as Hwf. rewrite He in *.
  assert (s ∈ ds ++ cs) as Hsb by (apply (Hho b s); [set_solver|done..]).
  destruct (fb_set _ _ _ _ Hbl s Hsb) as [_ Hcmp].
  apply hashset_insert_new; try done; [by apply good_payload_ok|].
  intros x Hx. apply (fb_distinct _ _ _ _ Hbl); [done|].
  destruct (Sfrom x Hx) as [?|(b' & ? & ?)]; [by apply Hprior|].
  unfold fec_entry in Hx. simpl in Hx.
  destruct (fecs !! 0) as [set0|] eqn:E0; [|by apply elem_of_nil in Hx].
  destruct (sw_fecs _ _ _ Hwf 0 set0 x E0 Hx) as (? & ? & _).
  apply (Hho b' x); [set_solver|done..].
Qed.

Lemma set_inv_step slot m ds cs prior seen b st st' :
  fec_block slot m ds cs → (∀ x, x ∈ prior → x ∈ ds ++ cs) → honest (seen ++ [b]) slot ds cs →
  (∀ s, parse_packet b = Some s → good s) →
  ingest_inv good slot prior seen st → set_inv slot prior seen st →
  ingest_packet st b = Ok st' → set_inv slot prior (seen ++ [b]) st'.
Proof.
  intros Hbl Hprior Hho Hg Hinv Hsi Hi. pose proof Hsi as [Spr Sin Sfrom Snd Skey Sdata].
  assert (∀ s, (s ∈ prior ∨ ∃ b', b' ∈ seen ∧ parse_packet b' = Some s) →
               s ∈ prior ∨ ∃ b', b' ∈ seen ++ [b] ∧ parse_packet b' = Some s) as Hmono.
  { intros s [?|(b' & ? & ?)]; [by left|right; exists b'; set_solver]. }
  destruct (ingest_slot_step good _ _ _ _ _ _ Hinv Hi)
    as [l E El Hkept|s fecs t t' set Hp Hs He Hup Hins ->].
  { split; rewrite ?E; try done.
    - intros b' s [?|Hx%list_elem_of_singleton]%elem_of_app Hp Hs Hf; [by eauto|]. subst b'.
      destruct (Hkept s Hp Hs) as (Hd & s' & Hs'). by eapply known_in_set.
    - eauto.
    - rewrite El. destruct Skey; [by left|right; apply elem_of_app; by left]. }
  pose proof (slot_entry_wf good slot _ (ii_wf _ _ _ _ _ Hinv)) as Hwf. rewrite He in Hwf.
  pose proof (update_from _ _ _ _ (slot_wf_tracker _ _ _ _ Hwf) Hup) as Hfrom.
  destruct (decide (shred_fec_set_index s = 0)) as [Hf|Hf].
  - rewrite Hf in Hins. destruct (accepted_in_set slot m ds cs prior seen b s fecs t st set)
      as [Hnd Hset]; eauto. rewrite He in *. simpl in *.
    split; rewrite ?slot_entry_accepted, ?decide_True by done; simpl;
      rewrite ?fec_entry_insert, ?decide_True by done; try done.
    + intros x Hx. apply Hset. right. by apply Spr.
    + intros b' s' [?|Hx%list_elem_of_singleton]%elem_of_app Hp' Hs' Hf'; apply Hset;
        [right; by eapply Sin|subst b'; left; congruence].
    + intros s' [->|?]%Hset; [right; exists b; set_solver|eauto].
    + right. rewrite Hf. set_solver.
    + intros i s' [?| ->]%Hfrom Hf'; apply Hset; [right; by eapply Sdata|by left].
  - rewrite He in *. simpl in *.
    split; rewrite ?slot_entry_accepted, ?decide_True by done; simpl;
      rewrite ?fec_entry_insert, ?(decide_False (P := 0 = shred_fec_set_index s)) by done; try done.
    + intros b' s' [?|Hx%list_elem_of_singleton]%elem_of_app Hp' Hs' Hf'; [by eapply Sin|].
      subst b'. congruence.
    + eauto.
    + destruct Skey; [by left|right; apply elem_of_app; by left].
    + intros i s' [?| ->]%Hfrom Hf'; [by eapply Sdata|done].
Qed.

Lemma set_inv_fold slot m ds cs prior seen st l st' :
  fec_block slot m ds cs → (∀ x, x ∈ prior → x ∈ ds ++ cs) → honest (seen ++ l) slot ds cs →
  0 ≤ slot →
  (∀ b s, b ∈ l → parse_packet b = Some s → good s ∧ shred_slot s ≤ slot + SLOT_LOOKBACK) →
  ingest_inv good slot prior seen st → set_inv slot prior seen st →
  foldM ingest_packet st l = Ok st' → set_inv slot prior (seen ++ l) st'.
Proof.
  intros Hbl Hprior Hho Hslot Hl. revert seen st Hho Hl.
  induction l as [|b l IH]; intros seen st Hho Hl Hinv Hsi.
  { intros [= <-]. by rewrite app_nil_r. }
  simpl. intros (st1 & E & Hr)%bind_Ok. rewrite cons_middle, app_assoc in Hho |- *.
  assert (∀ s, parse_packet b = Some s → good s ∧ shred_slot s ≤ slot + SLOT_LOOKBACK) as Hb
    by (intros; apply (Hl b); [left|done]).
  apply (IH _ st1); [done|intros; apply (Hl b0); [by right|done]| | |done].
  - eapply ingest_inv_step; eauto; intros s Hs; by apply Hb.
  - eapply set_inv_step; eauto; [|intros s Hs; by apply Hb].
    intros b' s Hb'. apply Hho. set_solver.
Qed.

(** * Recovering: every data shred of the set is in the tracker afterwards *)

Lemma block_coherent slot m ds cs shreds :
  fec_block slot m ds cs → (∀ x, x ∈ shreds → x ∈ ds ++ cs) →
  let n := Z.of_nat (length ds) in
  coherent n m (wrap 16 (wrap 16 (wrap 32 (n - 1)) + 1)) shreds.
Proof.
  intros Hbl Hsub n. pose proof (fb_run _ _ _ _ Hbl) as [Hne Hrun]. split.
  - intros c Hc%Hsub. apply elem_of_app in Hc as [Hc|Hc].
    + apply list_elem_of_lookup in Hc as [j Hj]. by destruct (Hrun j _ Hj) as (? & ? & _).
    + by destruct (fb_code _ _ _ _ Hbl _ Hc) as (x & [= <-] & _ & ? & ?).
  - unfold n. destruct ds; [done|]. simpl. lia.
  - intros s Hs%Hsub Hlast. destruct (fb_set _ _ _ _ Hbl s Hs) as [Hf _].
    assert (s ∈ ds) as Hd by (eapply block_data; eauto; by destruct s).
    apply list_elem_of_lookup in Hd as [j Hj].
    destruct (Hrun j s Hj) as (x & -> & Hidx & _ & _ & Hc). simpl in Hlast.
    rewrite Hlast in Hc. symmetry in Hc. apply bool_decide_eq_true in Hc.
    unfold size_from_last. rewrite Hf, Z.sub_0_r.
    unfold idx in Hidx. simpl in Hidx.
    replace (shred_index (ShredData x)) with (n - 1); [done|].
    pose proof (proj1 (shred_index_u32 (ShredData x))). unfold n. lia.
Qed.

(** When a data shred is missing, the check before the recovery lets the set
    through. *)
Lemma block_info slot m ds cs shreds d :
  overflow_checks = false → fec_block slot m ds cs → (∀ x, x ∈ shreds → x ∈ ds ++ cs) →
  NoDup shreds → (length ds ≤ length shreds)%nat → d ∈ ds → d ∉ shreds →
  ∃ nd nc, get_data_shred_info shreds = Ok (Z.of_nat (length ds), m, nd, nc) ∧
           nd ≠ Z.of_nat (length ds).
Proof.
  intros Ho Hbl Hsub Hnd Hlen Hd Hmiss.
  pose proof (count_data_missing ds shreds d Hnd) as Hlt.
  assert (count is_data shreds < Z.of_nat (length ds)) as Hcd.
  { apply Hlt; try done. intros x Hx%Hsub. by eapply block_data. }
  pose proof (count_data_code shreds) as Hsum.
  assert (existsb is_code shreds = true) as Hc by (apply count_code_exists; lia).
  rewrite (info_of_coherent _ _ _ _ Ho (block_coherent _ _ _ _ _ Hbl Hsub)).
  unfold info_summary. rewrite Hc. eexists _, _. split; [done|].
  pose proof (fb_size _ _ _ _ Hbl) as Hw.
  rewrite wrap_small; [lia|]. unfold in_width in *. rewrite count_filter in *. lia.
Qed.

(** The tracker holds a data shred of the set, or the set lacks it. *)
Definition held t (d : Shred) : Prop := is_Some (mjoin (data_shreds t !! idx d)).
#[local] Instance held_dec t d : Decision (held t d).
Proof. unfold held. apply _. Defined.

Lemma held_stored slot ds fecs t d :
  slot_wf good slot (fecs, t) → segment_run good slot 0 ds →
  (∀ i s, data_shreds t !! i = Some (Some s) → (i < length ds)%nat → s ∈ ds) →
  d ∈ ds → held t d → data_shreds t !! idx d = Some (Some d).
Proof.
  intros Hwf Hrun Honly Hd [s Hs]. destruct (data_shreds t !! idx d) as [o|] eqn:E; [|done].
  simpl in Hs. subst o. destruct (wf_shreds _ (slot_wf_tracker _ _ _ _ Hwf) _ _ E) as [_ Hj].
  destruct (run_idx _ _ _ Hrun Hd) as [Hlt _]. do 2 f_equal. eapply run_idx_inj; eauto.
Qed.

Lemma not_held_missing ds cs fecs t d :
  part_of_set ds cs (fecs, t) → d ∈ ds → ¬ held t d → d ∉ fec_entry 0 fecs.
Proof.
  intros Hin Hd Hh Hs. apply Hh. pose proof (ps_stored _ _ _ Hin d Hd Hs) as Hx. simpl in Hx.
  unfold held. rewrite Hx. by eexists.
Qed.

(** The iteration for the set, when it lacks a data shred. *)
Lemma recover_missing slot m ds cs st k fecs t d0 :
  overflow_checks = false → recon_wf good st → fec_block slot m ds cs → erasure_code ds cs →
  slot_entry slot st = (fecs, t) → part_of_set ds cs (fecs, t) →
  (length ds ≤ length (fec_entry 0 fecs))%nat → d0 ∈ ds → ¬ held t d0 →
  ∃ st' k' t' fecs', recover_fec_set (st, k) (slot, 0) = Ok (st', k') ∧
    slot_entry slot st' = (fecs', t') ∧ tracker_wf t' ∧ ∀ d, d ∈ ds → held t' d ∧
    ∀ i s, data_shreds t' !! i = Some (Some s) → (i < length ds)%nat → s ∈ ds.
Proof.
  intros Ho Hst Hbl Hec He Hin Henough Hd0 Hh0. pose proof (slot_entry_wf good slot _ Hst) as Hwf.
  rewrite He in Hwf. pose proof (fb_run _ _ _ _ Hbl) as Hrun.
  pose proof (not_held_missing _ _ _ _ _ Hin Hd0 Hh0) as Hmiss.
  pose proof Hin as [Hu Hsub Hnd Hsto Honly]. simpl in *.
  destruct (block_info slot m ds cs (fec_entry 0 fecs) d0) as (nd & nc & Hinfo & Hne); [done..|].
  destruct (Hec (merkle_shreds (fec_entry 0 fecs))) as (l & Hrec & Hall & Hdata).
  { by rewrite merkle_shreds_perm. }
  { intros x. rewrite merkle_shreds_perm. apply Hsub. }
  { by rewrite merkle_shreds_perm. }
  { exists d0. by rewrite merkle_shreds_perm. }
  assert (already_recovered_fec_sets t !! 0%nat = Some false) as Hrf.
  { destruct (already_recovered_fec_sets t !! 0%nat) as [[]|] eqn:E; [by destruct (Hu 0%nat)|done|].
    apply lookup_ge_None in E. rewrite wf_len_recovered in E by apply Hwf.
    destruct (run_idx _ _ _ Hrun Hd0) as (_ & Hj & _).
    destruct (run_shred _ _ _ _ Hrun _ _ Hj) as (x & _ & _ & _ & Hg & _).
    destruct (good_in_bounds d0 Hg). lia. }
  destruct (recover_set_runs good st k slot 0 fecs t (Z.of_nat (length ds)) m nd nc l)
    as (st' & t' & k' & E & Eall & Ht' & Hle & Hst' & Hfrom & _); try done.
  { destruct Hrun as [Hne' _]. destruct ds; [done|]. simpl. lia. }
  { by rewrite Nat2Z.id. }
  eexists st', _, t', _. split; [done|]. split.
  { unfold slot_entry. by rewrite Eall, lookup_insert_eq. }
  split; [done|]. intros d Hd. split.
  - destruct (decide (held t d)) as [[s Hs]|Hh].
    + destruct (data_shreds t !! idx d) as [o|] eqn:Ed; [|done]. simpl in Hs. subst o.
      unfold held. rewrite (le_shreds _ _ Hle _ _ Ed). by eexists.
    + destruct (Hst' d) as [y Hy]; [|by apply (run_idx _ _ _ Hrun)|unfold held; rewrite Hy; by eexists].
      apply Hall; [done|]. rewrite merkle_shreds_perm. by eapply not_held_missing.
  - intros i s Hs Hi. destruct (wf_shreds _ Ht' _ _ Hs) as [[x ->] _].
    destruct (Hfrom i _ Hs) as [?|?]; eauto.
Qed.

Lemma recover_block slot m ds cs st k st' k' :
  overflow_checks = false → recon_wf good st → fec_block slot m ds cs → erasure_code ds cs →
  part_of_set ds cs (slot_entry slot st) →
  (length ds ≤ length (fec_entry 0 (slot_entry slot st).1))%nat →
  recover_fec_set (st, k) (slot, 0) = Ok (st', k') → recon_wf good st' → recon_le st st' →
  ∀ d, d ∈ ds → data_shreds (slot_entry slot st').2 !! idx d = Some (Some d).
Proof.
  intros Ho Hst Hbl Hec Hin Hlen Hr Hst' Hle. pose proof (fb_run _ _ _ _ Hbl) as Hrun.
  pose proof (slot_entry_wf good slot _ Hst) as Hwf.
  destruct (slot_entry slot st) as [fecs t] eqn:He.
  destruct (decide (Forall (held t) ds)) as [Hall|Hex].
  - rewrite Forall_forall in Hall. intros d Hd. eapply slot_entry_le_shreds; [done|].
    rewrite He. eapply held_stored; eauto. apply Hin.
  - apply not_Forall_Exists in Hex as (d0 & Hd0 & Hh0)%Exists_exists; [|apply _].
    destruct (recover_missing slot m ds cs st k fecs t d0) as (st2 & k2 & t' & fecs' & E & He' & Ht' & Hd);
      try done. rewrite E in Hr. simplify_eq. intros d Hd'. destruct (Hd d Hd') as [Hh Honly].
    pose proof (slot_entry_wf good slot _ Hst') as Hwf'. rewrite He' in Hwf' |- *.
    by eapply held_stored.
Qed.

(** * The whole call *)

Lemma block_slot slot m ds cs x : fec_block slot m ds cs → x ∈ ds ++ cs → shred_slot x = slot.
Proof.
  intros Hbl [Hx|Hx]%elem_of_app; [by apply (run_idx _ _ _ (fb_run _ _ _ _ Hbl))|].
  by destruct (fb_code _ _ _ _ Hbl x Hx) as (? & _ & ? & _).
Qed.

(** The ingest phase adds to a set exactly what the batch carries of it, and
    lists it when that is anything. *)
Record gathered (slot : Z) (ds cs : list Shred) (batch : PacketBatch) (st st1 : Recon) : Prop := {
  ga_part : part_of_set ds cs (slot_entry slot st1);
  ga_set x : x ∈ fec_entry 0 (slot_entry slot st1).1 ↔
    x ∈ fec_entry 0 (slot_entry slot st).1 ∨ x ∈ ds ++ cs ∧ carries batch x;
  ga_key :
    (∀ x, x ∈ fec_entry 0 (slot_entry slot st1).1 → x ∈ fec_entry 0 (slot_entry slot st).1) ∨
    (slot, 0) ∈ slot_fec_indexes_to_iterate st1;
  ga_data i s : data_shreds (slot_entry slot st1).2 !! i = Some (Some s) →
    shred_fec_set_index s = 0 → s ∈ fec_entry 0 (slot_entry slot st1).1;
}.

Lemma set_inv_init st slot ds cs :
  pending ds cs (slot_entry slot st) →
  set_inv slot (fec_entry 0 (slot_entry slot st).1) [] (clear_outputs st).
Proof.
  intros [[_ _ Hnd _ _] _ Hheld]. split; try done.
  - by intros b s ?%elem_of_nil.
  - intros s Hs. by left.
  - by left.
  - intros i s Hs _. by eapply Hheld.
Qed.

Lemma ingest_batch_set batch st st1 slot m ds cs :
  recon_wf good st → batch_good good batch → pending ds cs (slot_entry slot st) → 0 ≤ slot →
  saturating_sub (highest_slot_seen st) SLOT_LOOKBACK ≤ slot →
  (∀ s, carries batch s → shred_slot s ≤ slot + SLOT_LOOKBACK) →
  fec_block slot m ds cs → honest (omap packet_data batch) slot ds cs →
  ingest_batch batch (clear_outputs st) = Ok st1 →
  ingest_inv good slot (fec_entry 0 (slot_entry slot st).1) (omap packet_data batch) st1 ∧
  gathered slot ds cs batch st st1.
Proof.
  intros Hst Hb Hpe Hs0 Hold Hle Hbl Hho E1. pose proof Hpe as [[Hu Hsub _ Hsto _] _ Hheld].
  set (prior := fec_entry 0 (slot_entry slot st).1) in *.
  assert (open_slot slot prior st) as Hopen by (by split).
  pose proof (ingest_batch_inv good batch st st1 slot prior Hst Hb Hopen Hs0 Hold Hle E1) as Hinv.
  pose proof (ingest_batch_returns good batch _ (clear_outputs_wf good _ Hst) Hb) as Hret.
  rewrite E1 in Hret. destruct Hret as [_ Hrle].
  assert (set_inv slot prior (omap packet_data batch) st1) as [Spr Sin Sfrom Snd Skey Sdata].
  { apply (set_inv_fold slot m ds cs prior [] (clear_outputs st)); try done.
    - intros b s (p & Hp1 & Hp2)%list_elem_of_omap Hp. split; [by eapply Hb|].
      apply Hle. exists b. split; [|done]. apply list_elem_of_omap. eauto.
    - by apply ingest_inv_init.
    - by eapply set_inv_init. }
  pose proof (fb_run _ _ _ _ Hbl) as Hrun.
  pose proof (slot_entry_wf good slot _ (ii_wf _ _ _ _ _ Hinv)) as Hwf.
  assert (∀ x, x ∈ fec_entry 0 (slot_entry slot st1).1 → x ∈ prior ∨ x ∈ ds ++ cs ∧ carries batch x)
    as Hfrom.
  { intros x Hx. destruct (Sfrom x Hx) as [?|(b & ? & ?)]; [by left|right].
    split; [|by exists b]. unfold fec_entry in Hx.
    destruct ((slot_entry slot st1).1 !! 0) as [set0|] eqn:E0; [|by apply elem_of_nil in Hx].
    destruct (sw_fecs _ _ _ Hwf 0 set0 x E0 Hx) as (? & ? & _). by apply (Hho b x). }
  split; [done|]. split; [split| | |]; try done; [apply Hinv|..].
  - intros x [?|[? _]]%Hfrom; auto.
  - intros d Hd Hx. destruct (Hfrom d Hx) as [?|[_ Hc]].
    + eapply slot_entry_le_shreds; [exact Hrle|]. by apply Hsto.
    + destruct (run_idx _ _ _ Hrun Hd) as (Hlt & _ & Hdd & Hds).
      apply (ingest_inv_stores good batch st1 slot prior); try done.
      intros s Hs Hsd Hss Hi. eapply run_idx_inj; eauto. destruct Hs as [Hs|(b' & ? & ?)].
      * eapply block_data; eauto.
      * apply (Hho b' s); try done. by rewrite Hi.
  - intros i s Hs Hi. destruct (wf_shreds _ (sw_tracker _ _ _ Hwf) _ _ Hs) as [[x ->] <-].
    destruct (sw_shreds _ _ _ Hwf _ _ Hs) as [? _].
    destruct (ii_from _ _ _ _ _ Hinv _ _ Hs) as [Hx|[(b & ? & ?) _]].
    + eapply block_data; eauto.
    + by apply (Hho b (ShredData x)).
  - intros x. split; [apply Hfrom|]. intros [?|[Hx (b & ? & ?)]]; [by apply Spr|].
    eapply Sin; eauto; [by eapply block_slot|by apply (fb_set _ _ _ _ Hbl)].
Qed.

Lemma pair_leb_slot slot f slot' :
  pair_leb (slot', f) (slot, 0) = true → (slot', f) ≠ (slot, 0) → 0 ≤ f → slot' ≠ slot.
Proof.
  unfold pair_leb. simpl. intros Hp Hne Hf ->. rewrite Z.ltb_irrefl, Z.eqb_refl in Hp. simpl in Hp.
  apply Z.leb_le in Hp. apply Hne. f_equal. lia.
Qed.

(** The recovery loop gets to the set with the slot as the ingest phase left
    it, and keeps what it recovers there. *)
Lemma recover_all_block slot m ds cs st st' n :
  overflow_checks = false → recon_wf good st → fec_block slot m ds cs → erasure_code ds cs →
  StronglySorted (λ x y, pair_leb x y = true ∧ x ≠ y) (slot_fec_indexes_to_iterate st) →
  (slot, 0) ∈ slot_fec_indexes_to_iterate st → part_of_set ds cs (slot_entry slot st) →
  (length ds ≤ length (fec_entry 0 (slot_entry slot st).1))%nat →
  recover_all st = Ok (st', n) →
  ∀ d, d ∈ ds → data_shreds (slot_entry slot st').2 !! idx d = Some (Some d).
Proof.
  intros Ho Hst Hbl Hec Hsort Hk Hin Hlen Hr d Hd. unfold recover_all in Hr.
  apply list_elem_of_split in Hk as (k1 & k2 & Ek). rewrite Ek in Hr, Hsort.
  rewrite foldM_app in Hr. apply bind_Ok in Hr as ([st1 n1] & E1 & Hr).
  simpl in Hr. apply bind_Ok in Hr as ([st2 n2] & E2 & E3).
  assert (∀ k, k ∈ k1 ++ (slot, 0) :: k2 → k ∈ slot_fec_indexes_to_iterate st) as Hks
    by (by rewrite Ek).
  pose proof (recover_fold_returns good st 0 k1 Ho Hst) as H1'. rewrite E1 in H1'.
  destruct H1' as [Hw1 Hf1]; [intros; apply Hks; set_solver|]. simpl in Hw1, Hf1.
  assert (slot_entry slot st1 = slot_entry slot st) as He1.
  { pose proof (foldM_ensures recover_fec_set (λ r, slot_entry slot r.1 = slot_entry slot st)
      (st, 0%nat) k1) as Hi. rewrite E1 in Hi. apply Hi; [done|].
    intros [st0 n0] [slot' f] Hkey He0. destruct (recover_fec_set (st0, n0) (slot', f)) as [[sta na]|] eqn:E; [|done].
    simpl in *. rewrite <-He0. eapply recover_fec_set_other; [done|].
    destruct (rw_list _ _ Hst slot' f) as (Hf0 & _); [apply Hks; set_solver|].
    destruct (StronglySorted_app_1_elem_of _ _ _ (slot', f) (slot, 0) Hsort Hkey) as [Hp Hne];
      [left|]. by eapply pair_leb_slot. }
  pose proof (recover_fold_returns good st1 n1 [(slot, 0)] Ho Hw1) as H2'. simpl in H2'.
  rewrite E2 in H2'. destruct H2' as [Hw2 Hf2];
    [intros k; rewrite (rf_list _ _ Hf1); set_solver|]. simpl in Hw2, Hf2.
  pose proof (recover_fold_returns good st2 n2 k2 Ho Hw2) as H3'. rewrite E3 in H3'.
  destruct H3' as [_ Hf3];
    [intros k; rewrite (rf_list _ _ Hf2), (rf_list _ _ Hf1); set_solver|]. simpl in Hf3.
  eapply slot_entry_le_shreds; [apply (rf_le _ _ Hf3)|].
  eapply (recover_block slot m ds cs st1); eauto; [by rewrite He1..|apply (rf_le _ _ Hf2)].
Qed.

(** The state after the ingest and recovery phases. *)
Lemma phases_erasure batch st st1 st2 n slot m ds cs :
  overflow_checks = false → recon_wf good st → 0 ≤ slot →
  fec_block slot m ds cs → erasure_code ds cs → set_arrives st batch slot ds cs →
  ingest_batch batch (clear_outputs st) = Ok st1 →
  recover_all (sort_indexes st1) = Ok (st2, n) →
  recon_wf good st2 ∧ (slot, 0) ∈ slot_fec_indexes_to_iterate st2 ∧
  StronglySorted (λ x y, pair_leb x y = true ∧ x ≠ y) (slot_fec_indexes_to_iterate st2) ∧
  (∀ j d, ds !! j = Some d → data_shreds (slot_entry slot st2).2 !! j = Some (Some d)) ∧
  (∀ i, already_deshredded (slot_entry slot st2).2 !! i ≠ Some true).
Proof.
  intros Ho Hst Hs0 Hbl Hec [Hb Hpe Hold Hle Hho (l & Hnd & Hlen & Hl)] E1 E2.
  destruct (ingest_batch_set batch st st1 slot m ds cs) as [Hinv [Hpart Hset Hkey _]]; [done..|].
  set (X1 := fec_entry 0 (slot_entry slot st1).1) in *.
  assert (length ds ≤ length X1)%nat as Henough.
  { etrans; [exact Hlen|]. apply submseteq_length, NoDup_submseteq; [done|].
    intros x (? & [?|?])%Hl; apply Hset; auto. }
  assert ((slot, 0) ∈ slot_fec_indexes_to_iterate st1) as Hk.
  { destruct Hkey as [Hall|]; [|done]. exfalso. pose proof (pe_few _ _ _ Hpe) as Hfew.
    assert (X1 ⊆+ fec_entry 0 (slot_entry slot st).1) as Hs%submseteq_length; [|lia].
    apply NoDup_submseteq; [apply Hpart|done]. }
  pose proof (sort_indexes_wf good _ (ii_wf _ _ _ _ _ Hinv)) as Hw1.
  pose proof (recover_all_returns good (sort_indexes st1) Ho Hw1) as H2'. rewrite E2 in H2'.
  destruct H2' as [Hw2 [F1 _ _ _ _ _]]. simpl in Hw2, F1.
  pose proof (recover_all_frame _ _ _ slot E2) as Hfd.
  split; [done|]. rewrite F1. split; [by apply sort_indexes_elem_of|].
  split; [apply sort_indexes_sorted|]. split.
  - intros j d Hj. pose proof (fb_run _ _ _ _ Hbl) as Hrun.
    destruct (run_shred _ _ _ _ Hrun j d Hj) as (_ & _ & Hidx & _). simpl in Hidx. rewrite <-Hidx.
    eapply (recover_all_block slot m ds cs (sort_indexes st1)); eauto.
    + apply sort_indexes_sorted.
    + by apply sort_indexes_elem_of.
    + by eapply list_elem_of_lookup_2.
  - intros i. rewrite Hfd. apply (ii_untouched _ _ _ _ _ Hinv).
Qed.

Lemma block_delivered batch st slot m ds cs p es :
  overflow_checks = false → recon_wf good st → fec_block slot m ds cs → erasure_code ds cs →
  set_arrives st batch slot ds cs →
  deshred (payload <$> ds) = Some p → bincode_deserialize p = Some es →
  returns (reconstruct_shreds batch st) (λ r, (slot, es, p) ∈ deshredded_entries r.2).
Proof.
  intros Ho Hst Hbl Hec Harr Hp Hes.
  pose proof (reconstruct_shreds_returns good batch st Ho Hst (sa_good _ _ _ _ _ Harr)) as Hret.
  destruct (reconstruct_shreds batch st) as [[n st']|] eqn:E; [|done]. simpl. clear Hret.
  apply reconstruct_shreds_phases in E as (st1 & st2 & st3 & st4 & E1 & E2 & E3 & E4 & ->).
  assert (0 ≤ slot) as Hs0.
  { pose proof (sa_recent _ _ _ _ _ Harr). unfold saturating_sub in *. lia. }
  destruct (phases_erasure batch st st1 st2 n slot m ds cs) as (Hw2 & Hk & Hs & Hd & Hu); [done..|].
  assert ((slot, es, p) ∈ deshredded_entries st4); [|by case_decide].
  eapply (segment_delivered good st2 st3); eauto. apply Hbl.
Qed.
End erasure.
