(* ===== verification/Pending.v ===== *)
(** Loss tolerance over several calls of [reconstruct_shreds]: a call that brings
    shreds of a FEC set, but not yet enough of them, leaves the set waiting with
    exactly what has arrived of it. *)

From S2P Require Import Prelude Net Metrics Shreds Tracker FecSet Packets Deshred DeshredInv.
From S2P Require Import Delivery Complete Recovery Erasure.

Section pending.
Context `{ShredLib} `{PacketLib} `{BuildProfile} `{!ShredLibLaws}.
Context (good : Shred → Prop) `{!GoodShreds good}.
Implicit Types (st : Recon) (t : ShredsStateTracker).

(** * Specification *)

(** What the batch carries of the slot belongs to the set. *)
Definition only_set (batch : PacketBatch) (slot : Z) (ds cs : list Shred) : Prop :=
  ∀ s, carries batch s → shred_slot s = slot → s ∈ ds ++ cs.

(** The shred is in one of the batches. *)
Definition carried (batches : list PacketBatch) (s : Shred) : Prop :=
  ∃ batch, batch ∈ batches ∧ carries batch s.

(** A set that starts an untracked slot arrives over several batches: as many
    different shreds of it as there are data shreds come in all of them, but not
    without the last one.  The earlier ones bring nothing else of the slot, and
    none contradicts the set or moves the lookback window past the slot. *)
Record set_arrives_over (st : Recon) (earlier : list PacketBatch) (last : PacketBatch)
    (slot : Z) (ds cs : list Shred) : Prop := {
  so_good batch : batch ∈ earlier ++ [last] → batch_good good batch;
  so_untracked : all_shreds st !! slot = None;
  so_recent : saturating_sub (highest_slot_seen st) SLOT_LOOKBACK ≤ slot;
  so_window s : carried (earlier ++ [last]) s → shred_slot s ≤ slot + SLOT_LOOKBACK;
  so_only batch : batch ∈ earlier → only_set batch slot ds cs;
  so_honest : honest (omap packet_data last) slot ds cs;
  so_few l : NoDup l → (∀ x, x ∈ l → x ∈ ds ++ cs ∧ carried earlier x) →
    (length l < length ds)%nat;
  so_enough : ∃ l, NoDup l ∧ (length ds ≤ length l)%nat ∧
    ∀ x, x ∈ l → x ∈ ds ++ cs ∧ carried (earlier ++ [last]) x;
}.

(** * The phases leave a pending set alone *)

(** The same shreds of the set and the same tracker. *)
Definition same_set (v v' : SlotState) : Prop :=
  fec_entry 0 v'.1 = fec_entry 0 v.1 ∧ v'.2 = v.2.

#[local] Instance same_set_preorder : PreOrder same_set.
Proof.
  split; [by intros ?|]. intros v1 v2 v3 [E1 E2] [E3 E4]. unfold same_set. by rewrite E3, E4.
Qed.

Lemma pending_same ds cs v v' : same_set v v' → pending ds cs v → pending ds cs v'.
Proof.
  intros [E1 E2] [[Hu Hs Hn Hst Ho] Hf Hh]. split; [split|..]; by rewrite ?E1, ?E2.
Qed.

Lemma run_NoDup slot ds : segment_run good slot 0 ds → NoDup ds.
Proof.
  intros [_ Hrun]. apply NoDup_alt. intros i j d Hi Hj.
  destruct (Hrun i d Hi) as (? & _ & Ei & _). destruct (Hrun j d Hj) as (? & _ & Ej & _).
  simpl in *. lia.
Qed.

(** The check before the recovery does not let the set through. *)
Lemma pending_info slot m ds cs shreds :
  overflow_checks = false → fec_block good slot m ds cs → (∀ x, x ∈ shreds → x ∈ ds ++ cs) →
  (length shreds < length ds)%nat →
  ∃ ned nec nd nc, get_data_shred_info shreds = Ok (ned, nec, nd, nc) ∧
    (ned = 0 ∨ (length shreds < Z.to_nat ned)%nat).
Proof.
  intros Ho Hbl Hsub Hlen.
  rewrite (info_of_coherent _ _ _ _ Ho (block_coherent good _ _ _ _ _ Hbl Hsub)).
  unfold info_summary. eexists _, _, _, _. split; [done|].
  pose proof (fb_size _ _ _ _ _ Hbl) as Hmax. unfold in_width in Hmax.
  destruct (existsb is_code shreds); [right; lia|].
  destruct (_ && _); [right|by left].
  rewrite (wrap_small 32), (wrap_small 16 (_ - 1)), wrap_small; unfold in_width; lia.
Qed.

Lemma recover_pending slot m ds cs st k f st' k' slot' :
  overflow_checks = false → fec_block good slot m ds cs → pending ds cs (slot_entry slot st) →
  (slot' = slot → f = 0) → recover_fec_set (st, k) (slot', f) = Ok (st', k') →
  same_set (slot_entry slot st) (slot_entry slot st').
Proof.
  intros Ho Hbl [Hpart Hfew _] Hf Hr. destruct (decide (slot' = slot)) as [->|Hne].
  2:{ by rewrite (recover_fec_set_other _ _ _ _ _ _ _ Hr Hne). }
  rewrite (Hf eq_refl) in Hr. unfold recover_fec_set in Hr.
  destruct (slot_entry slot st) as [fecs t] eqn:He.
  destruct (pending_info slot m ds cs (fec_entry 0 fecs)) as (ned & nec & nd & nc & Hi & Hskip);
    [done..|apply (ps_set _ _ _ Hpart)|done|].
  rewrite Hi in Hr. simpl in Hr. rewrite decide_True in Hr by tauto. simplify_eq.
  rewrite slot_entry_set_slot, decide_True by done. split; [|done]. simpl.
  by rewrite fec_entry_insert, decide_True.
Qed.

(** No segment that starts at index 0 is complete. *)
Lemma pending_indexes slot m ds cs fecs t :
  slot_wf good slot (fecs, t) → fec_block good slot m ds cs → pending ds cs (fecs, t) →
  get_indexes t 0 = Ok None.
Proof.
  intros Hwf Hbl [Hpart Hfew Hheld]. simpl in *. pose proof (slot_wf_tracker good _ _ _ Hwf) as Ht.
  destruct (get_indexes_total t 0) as [[[[s e] u]|] Hr]; [by apply wf_same_len| |done].
  exfalso. apply get_indexes_segment in Hr as Hseg; [|by apply wf_same_len].
  destruct (segment_slice t _ _ _ _ Ht Hseg) as (l & _ & [Hlen Hl]).
  pose proof (seg_contains _ _ _ _ _ Hseg). assert (s = 0%nat) as -> by lia.
  pose proof (fb_run _ _ _ _ _ Hbl) as Hrun. pose proof Hrun as [_ Hshred].
  assert (∀ i, (i ≤ e)%nat → ∃ d, d ∈ ds ∧ d ∈ fec_entry 0 fecs ∧ idx d = i ∧
            data_status t !! i = Some (status_of (Some d))) as Hall.
  { intros i Hi. destruct (lookup_lt_is_Some_2 l i) as [d Hd]; [lia|].
    assert (data_shreds t !! i = Some (Some d)) as Hs by (by apply (Hl i)).
    destruct (wf_shreds _ Ht _ _ Hs) as [[x ->] Hx]. exists (ShredData x).
    split_and!; [|by eapply Hheld|done|by apply wf_status].
    eapply block_data; [done|by eapply (ps_set _ _ _ Hpart), Hheld|done]. }
  destruct (Hall e) as (de & [j Hj]%list_elem_of_lookup & _ & Hie & Hst); [lia|].
  destruct (Hshred j de Hj) as (x & -> & Hij & _ & _ & Hc). simpl in Hij.
  rewrite (seg_end _ _ _ _ _ Hseg) in Hst. simpl in Hst. rewrite Hc in Hst.
  case_bool_decide as Hlast; [|done].
  assert (ds ⊆+ fec_entry 0 fecs) as Hsub%submseteq_length; [|lia].
  apply NoDup_submseteq; [by eapply run_NoDup|]. intros d Hd.
  destruct (run_idx good _ _ _ Hrun Hd) as (Hlt & _).
  destruct (Hall (idx d)) as (d' & Hd' & Hin & Hi' & _); [lia|].
  by rewrite (run_idx_inj good _ _ _ _ Hrun Hd Hd' (eq_sym Hi')).
Qed.

Lemma deshred_pending slot m ds cs st0 st f st' slot' :
  recon_wf good st0 → in_loop good st0 st → (slot', f) ∈ slot_fec_indexes_to_iterate st0 →
  fec_block good slot m ds cs → pending ds cs (slot_entry slot st) →
  (slot' = slot → f = 0) → deshred_fec_set st (slot', f) = Ok st' →
  same_set (slot_entry slot st) (slot_entry slot st') ∧ in_loop good st0 st'.
Proof.
  intros Hst0 HJ Hin Hbl Hpe Hf Hr.
  destruct (deshred_step good _ _ _ _ _ Hst0 HJ Hin Hr) as (_ & HJ' & fecs & t & He & Hres).
  split; [|done]. destruct (decide (slot' = slot)) as [->|Hne].
  2:{ assert (slot_entry slot st' = slot_entry slot st) as ->; [|done].
      destruct Hres; unfold slot_entry; simpl; by rewrite lookup_insert_ne. }
  rewrite (Hf eq_refl) in Hres. rewrite He in *.
  pose proof (slot_entry_wf good slot _ (proj1 HJ)) as Hwf. rewrite He in Hwf.
  pose proof (pending_indexes _ _ _ _ _ _ Hwf Hbl Hpe) as Hno. change 0%nat with (Z.to_nat 0) in Hno.
  destruct Hres as [_|s e u l lg mm Hseg|s e u l p es mm Hseg].
  2,3: apply segment_get_indexes in Hseg; [congruence|by eapply wf_same_len, slot_wf_tracker].
  by rewrite slot_entry_set_slot, decide_True.
Qed.

(** The slot of the set is within the lookback window, so it is kept. *)
Lemma drop_pending slot st st' :
  drop_old_slots st = Ok st' → saturating_sub (highest_slot_seen st) SLOT_LOOKBACK ≤ slot →
  slot_entry slot st' = slot_entry slot st ∧ highest_slot_seen st' = highest_slot_seen st.
Proof.
  intros (Hall & _ & _ & Eh & _)%drop_old_slots_Ok Hle. split; [|done].
  unfold slot_entry. f_equal. destruct Hall as [[-> _]| ->]; [done|].
  rewrite map_lookup_filter. destruct (all_shreds st !! slot); [|done]. simpl.
  by rewrite option_guard_True.
Qed.

(** Where the listed keys come from. *)
Lemma ingest_keys l st st' :
  recon_wf good st → (∀ b s, b ∈ l → parse_packet b = Some s → good s) →
  foldM ingest_packet st l = Ok st' →
  ∀ k, k ∈ slot_fec_indexes_to_iterate st' → k ∈ slot_fec_indexes_to_iterate st ∨
    ∃ b s, b ∈ l ∧ parse_packet b = Some s ∧ k = (shred_slot s, shred_fec_set_index s).
Proof.
  intros Hst Hg Hf. set (I st' := recon_wf good st' ∧ ∀ k, k ∈ slot_fec_indexes_to_iterate st' →
    k ∈ slot_fec_indexes_to_iterate st ∨
    ∃ b s, b ∈ l ∧ parse_packet b = Some s ∧ k = (shred_slot s, shred_fec_set_index s)).
  pose proof (foldM_ensures ingest_packet I st l) as Hi. rewrite Hf in Hi. apply Hi.
  { split; [done|]. by left. }
  intros st1 b Hb [Hw Hk].
  pose proof (ingest_packet_returns good st1 b Hw) as Hret.
  destruct (ingest_packet st1 b) as [st2|] eqn:E; [|done].
  destruct Hret as [Hw2 _]; [by intros; eapply Hg|]. split; [done|].
  unfold ingest_packet in E. destruct (parse_packet b) as [s|] eqn:Hp.
  - apply (ingest_shred_cases good) in E; [|done]. destruct E as [lg _ _|]; [exact Hk|].
    intros k [?|Hx%list_elem_of_singleton]%elem_of_app; [by apply Hk|].
    right. exists b, s. by split_and!.
  - case_match; simplify_eq; exact Hk.
Qed.

(** * A whole call, and several of them *)

(** The recovery and deshredding loops, when the slot is listed with the set only. *)
Lemma loops_pending slot m ds cs st st2 n st3 :
  overflow_checks = false → recon_wf good st → fec_block good slot m ds cs →
  pending ds cs (slot_entry slot st) →
  (∀ f, (slot, f) ∈ slot_fec_indexes_to_iterate st → f = 0) →
  recover_all st = Ok (st2, n) → deshred_all st2 = Ok st3 →
  same_set (slot_entry slot st) (slot_entry slot st3) ∧
  highest_slot_seen st3 = highest_slot_seen st.
Proof.
  intros Ho Hst Hbl Hpe Hk E2 E3.
  pose proof (recover_all_returns good st Ho Hst) as H2'. rewrite E2 in H2'.
  destruct H2' as [Hw2 [F1 F2 _ _ _ _]]. simpl in Hw2, F1, F2.
  assert (same_set (slot_entry slot st) (slot_entry slot st2)) as Hs2.
  { pose proof (foldM_ensures recover_fec_set
      (λ r, same_set (slot_entry slot st) (slot_entry slot r.1)) (st, 0%nat)
      (slot_fec_indexes_to_iterate st)) as Hi. unfold recover_all in E2. rewrite E2 in Hi.
    apply Hi; [done|]. intros [sta k] [slot' f] Hin Hsa. simpl in Hsa.
    destruct (recover_fec_set (sta, k) (slot', f)) as [[stb k']|] eqn:E; [|done]. simpl.
    etrans; [exact Hsa|]. eapply (recover_pending slot m ds cs); [done|done| | |done].
    - by eapply pending_same.
    - intros ->. by apply Hk. }
  set (I r := same_set (slot_entry slot st) (slot_entry slot r) ∧ in_loop good st2 r).
  pose proof (foldM_ensures deshred_fec_set I st2 (slot_fec_indexes_to_iterate st2)) as Hi.
  unfold deshred_all in E3. rewrite E3 in Hi.
  cut (I st3); [intros [Hs3 (_ & _ & Eh)]; split; [done|congruence]|]. apply Hi; [by split|].
  intros sta [slot' f] Hin [Hsa HJ].
  destruct (deshred_fec_set sta (slot', f)) as [stb|] eqn:E; [|done]. simpl.
  destruct (deshred_pending slot m ds cs st2 sta f stb slot') as [Hsb HJb]; try done.
  { by eapply pending_same. }
  { intros ->. rewrite F1 in Hin. by apply Hk. }
  split; [|done]. by etrans.
Qed.

(** A call whose batch does not complete the set. *)
Lemma call_pending batch st n st' slot m ds cs :
  overflow_checks = false → recon_wf good st → batch_good good batch → 0 ≤ slot →
  fec_block good slot m ds cs → pending ds cs (slot_entry slot st) →
  saturating_sub (highest_slot_seen st) SLOT_LOOKBACK ≤ slot →
  (∀ s, carries batch s → shred_slot s ≤ slot + SLOT_LOOKBACK) → only_set batch slot ds cs →
  (∀ l, NoDup l → (∀ x, x ∈ l → x ∈ fec_entry 0 (slot_entry slot st).1 ∨
                               x ∈ ds ++ cs ∧ carries batch x) → (length l < length ds)%nat) →
  reconstruct_shreds batch st = Ok (n, st') →
  pending ds cs (slot_entry slot st') ∧
  saturating_sub (highest_slot_seen st') SLOT_LOOKBACK ≤ slot ∧
  ∀ x, x ∈ fec_entry 0 (slot_entry slot st').1 ↔
       x ∈ fec_entry 0 (slot_entry slot st).1 ∨ x ∈ ds ++ cs ∧ carries batch x.
Proof.
  intros Ho Hst Hb Hs0 Hbl Hpe Hold Hle Honly Hfew E.
  apply reconstruct_shreds_phases in E as (st1 & st2 & st3 & st4 & E1 & E2 & E3 & E4 & ->).
  assert (honest (omap packet_data batch) slot ds cs) as Hho.
  { intros b s Hbb Hp Hs. assert (s ∈ ds ++ cs) as Hin by (apply Honly; [by exists b|done]).
    split; [done|]. intros Hd _. by eapply block_data. }
  destruct (ingest_batch_set good batch st st1 slot m ds cs) as [Hinv [Hpart Hset _ Hdata]]; [done..|].
  assert (pending ds cs (slot_entry slot st1)) as Hpe1.
  { split; [done| |].
    - apply Hfew; [apply Hpart|]. intros x Hx. by apply Hset.
    - intros i s Hs. destruct (ii_from good _ _ _ _ Hinv _ _ Hs) as [?|[(b & Hb1 & Hb2) _]].
      + apply Hset. by left.
      + pose proof (slot_entry_wf good slot _ (ii_wf good _ _ _ _ Hinv)) as Hwf.
        destruct (sw_shreds good _ _ Hwf _ _ Hs) as [? _].
        eapply Hdata; [done|]. eapply (fb_set _ _ _ _ _ Hbl), Honly; [by exists b|done]. }
  assert (∀ b s, b ∈ omap packet_data batch → parse_packet b = Some s → good s) as Hg.
  { intros b s (p & ? & ?)%list_elem_of_omap Hp. by eapply Hb. }
  destruct (loops_pending slot m ds cs (sort_indexes st1) st2 n st3) as [Hs3 Eh3]; try done.
  { apply sort_indexes_wf, Hinv. }
  { intros f Hf. apply (proj1 (sort_indexes_elem_of st1 _)) in Hf.
    destruct (ingest_keys _ _ _ (clear_outputs_wf good _ Hst) Hg E1 (slot, f) Hf)
      as [Hx|(b & s & Hb1 & Hb2 & [= Hs Hf'])]; [by apply elem_of_nil in Hx|].
    rewrite Hf'. eapply (fb_set _ _ _ _ _ Hbl), Honly; [by exists b|done]. }
  pose proof (ii_highest good _ _ _ _ Hinv) as Hh1.
  destruct (drop_pending slot _ _ E4) as [E5 Eh5]; [by rewrite Eh3|].
  assert (∀ st'', slot_entry slot st'' = slot_entry slot st4 →
            highest_slot_seen st'' = highest_slot_seen st4 →
            pending ds cs (slot_entry slot st'') ∧
            saturating_sub (highest_slot_seen st'') SLOT_LOOKBACK ≤ slot ∧
            ∀ x, x ∈ fec_entry 0 (slot_entry slot st'').1 ↔
                 x ∈ fec_entry 0 (slot_entry slot st).1 ∨ x ∈ ds ++ cs ∧ carries batch x) as Hend.
  { intros st'' -> ->. rewrite E5, Eh5, Eh3. split_and!; [|done|].
    - by eapply pending_same.
    - destruct Hs3 as [-> _]. apply Hset. }
  case_decide; by apply Hend.
Qed.

Lemma carried_cons batch batches x :
  carried (batch :: batches) x ↔ carries batch x ∨ carried batches x.
Proof.
  unfold carried. setoid_rewrite elem_of_cons. split; [|naive_solver].
  intros (b & [->|?] & ?); [by left|right; eauto].
Qed.

Lemma carried_snoc batches batch x :
  carried (batches ++ [batch]) x ↔ carried batches x ∨ carries batch x.
Proof.
  unfold carried. setoid_rewrite elem_of_app. setoid_rewrite list_elem_of_singleton.
  split; [|naive_solver]. intros (b & [?| ->] & ?); [left; eauto|by right].
Qed.

(** The calls before the one that completes the set. *)
Lemma run_pending earlier st slot m ds cs :
  overflow_checks = false → recon_wf good st → 0 ≤ slot → fec_block good slot m ds cs →
  (∀ batch, batch ∈ earlier → batch_good good batch ∧ only_set batch slot ds cs) →
  pending ds cs (slot_entry slot st) →
  saturating_sub (highest_slot_seen st) SLOT_LOOKBACK ≤ slot →
  (∀ s, carried earlier s → shred_slot s ≤ slot + SLOT_LOOKBACK) →
  (∀ l, NoDup l → (∀ x, x ∈ l → x ∈ fec_entry 0 (slot_entry slot st).1 ∨
                               x ∈ ds ++ cs ∧ carried earlier x) → (length l < length ds)%nat) →
  returns (run_batches st earlier) (λ st',
    recon_wf good st' ∧ pending ds cs (slot_entry slot st') ∧
    saturating_sub (highest_slot_seen st') SLOT_LOOKBACK ≤ slot ∧
    ∀ x, x ∈ fec_entry 0 (slot_entry slot st').1 ↔
         x ∈ fec_entry 0 (slot_entry slot st).1 ∨ x ∈ ds ++ cs ∧ carried earlier x).
Proof.
  intros Ho Hst Hs0 Hbl. revert st Hst.
  induction earlier as [|batch earlier IH]; intros st Hst Hb Hpe Hold Hle Hfew.
  { split_and!; try done. intros x. split; [by left|].
    intros [?|[_ (? & ?%elem_of_nil & _)]]; done. }
  destruct (Hb batch) as [Hg Honly]; [left|].
  unfold run_batches. cbn [foldM]. setoid_rewrite carried_cons in Hle.
  setoid_rewrite carried_cons in Hfew.
  pose proof (reconstruct_shreds_returns good batch st Ho Hst Hg) as Hret.
  destruct (reconstruct_shreds batch st) as [[n st1]|] eqn:E; [|done]. destruct Hret as [Hst1 _].
  destruct (call_pending batch st n st1 slot m ds cs) as (Hpe1 & Hold1 & Hset); auto.
  { intros l Hnd Hl. apply Hfew; [done|]. intros x [?|[? ?]]%Hl; auto. }
  cbn [mbind outcome_bind snd]. eapply returns_mono.
  { apply (IH st1); auto.
    - intros b' Hb'. apply Hb. by right.
    - intros l Hnd Hl. apply Hfew; [done|]. intros x [[?|[? ?]]%Hset|[? ?]]%Hl; auto. }
  intros st2 (Hw2 & Hpe2 & Hold2 & Hset2). split_and!; [done..|].
  intros x. rewrite Hset2, Hset, carried_cons. tauto.
Qed.

Lemma batches_deliver earlier last st slot m ds cs p es :
  overflow_checks = false → recon_wf good st → fec_block good slot m ds cs →
  erasure_code ds cs → set_arrives_over st earlier last slot ds cs →
  deshred (payload <$> ds) = Some p → bincode_deserialize p = Some es →
  returns (run_batches st earlier) (λ st',
    returns (reconstruct_shreds last st') (λ r, (slot, es, p) ∈ deshredded_entries r.2)).
Proof.
  intros Ho Hst Hbl Hec [Hb Hnone Hold Hle Honly Hho Hfew (l & Hnd & Hlen & Hl)] Hp Hes.
  assert (0 ≤ slot) as Hs0 by (unfold saturating_sub in Hold; lia).
  assert (fec_entry 0 (slot_entry slot st).1 = []) as H0'
    by (unfold slot_entry; by rewrite Hnone).
  setoid_rewrite carried_snoc in Hle. eapply returns_mono.
  { apply (run_pending earlier st slot m ds cs); auto.
    - intros batch Hin. split; [apply Hb, elem_of_app; by left|by apply Honly].
    - apply untracked_pending; [apply (fb_run _ _ _ _ _ Hbl)|done].
    - intros l' Hnd' Hl'. apply Hfew; [done|]. intros x Hx%Hl'. rewrite H0' in Hx.
      by destruct Hx as [?%elem_of_nil|?]. }
  intros st1 (Hst1 & Hpe1 & Hold1 & Hset1). eapply block_delivered; eauto. split; auto.
  - apply Hb, elem_of_app. right. by left.
  - exists l. split_and!; [done..|]. intros x (Hx & Hc)%Hl. split; [done|].
    apply carried_snoc in Hc as [?|?]; [left; apply Hset1; by right|by right].
Qed.
End pending.
