(* ===== verification/Reconstructor.v ===== *)
(** The "shred_reconstructor" thread of proxy/src/forwarder.rs: it takes batches
    from the forwarder threads, runs [reconstruct_shreds] on them and broadcasts
    the payload of every entry it returns to the gRPC subscribers. *)

From S2P Require Import Prelude Net Metrics Shreds Tracker FecSet Packets Deshred DeshredInv.
From S2P Require Import Delivery.

(** [jito_protos::shredstream::Entry] *)
Record PbEntry := mkPbEntry { pb_slot : Z; pb_entries : bytes }.

(** The result of [reconstruct_rx.recv_timeout]. *)
Inductive RecvTimeout (A : Type) := RecvOk (a : A) | Timeout | Disconnected.
Arguments RecvOk {A} _.
Arguments Timeout {A}.
Arguments Disconnected {A}.

Section reconstructor.
Context `{ShredLib} `{PacketLib} `{BuildProfile}.

Definition to_pb (e : Z * list Entry * bytes) : PbEntry := mkPbEntry e.1.1 e.2.

(** The body of the [while] loop; [sent] is what went to [entry_sender], whose
    result is ignored.  The flag says whether the loop goes on. *)
Definition reconstructor_step (st : Recon) (sent : list PbEntry)
    (r : RecvTimeout PacketBatch) : outcome (Recon * list PbEntry * bool) :=
  match r with
  | RecvOk pkt_batch =>
      '(_, st) ← reconstruct_shreds pkt_batch st;
      Ok (with_entries [] st, sent ++ (to_pb <$> deshredded_entries st), true)
  | Timeout => Ok (st, sent, true)
  | Disconnected => Ok (st, sent, false)
  end.

(** The loop over a finite prefix of its iterations; an iteration is the value of
    [exit] at its start and what the channel gives. *)
Fixpoint reconstructor_loop (st : Recon) (sent : list PbEntry)
    (its : list (bool * RecvTimeout PacketBatch)) : outcome (Recon * list PbEntry * bool) :=
  match its with
  | [] => Ok (st, sent, true)
  | (exit, r) :: its =>
      if exit : bool then Ok (st, sent, false) else
      '(st, sent, running) ← reconstructor_step st sent r;
      if running : bool then reconstructor_loop st sent its else Ok (st, sent, false)
  end.

(** * Lemmas *)

Context `{!ShredLibLaws} (good : Shred → Prop) `{!GoodShreds good}.

(** Draining the entries changes nothing for the next call. *)
Lemma reconstruct_shreds_drained batch st :
  reconstruct_shreds batch (with_entries [] st) = reconstruct_shreds batch st.
Proof. done. Qed.

(** The invariant of the loop: what was sent is what was delivered. *)
Record pipeline_inv (st : Recon) (sent : list PbEntry) : Prop := {
  pi_wf : recon_wf good st;
  pi_history : history st;
  pi_entries : ∃ es, sent = to_pb <$> es ∧
                     Forall2 (delivery_ok good) (omap decoded_of (log st)) es;
}.

Lemma pipeline_inv_init m : pipeline_inv (recon_init m) [].
Proof. split; [apply recon_init_wf|apply recon_init_history|]. exists []. by split. Qed.

Definition iteration_good (it : bool * RecvTimeout PacketBatch) : Prop :=
  match it.2 with RecvOk b => batch_good good b | _ => True end.

Lemma reconstructor_step_inv st sent r :
  overflow_checks = false → pipeline_inv st sent → iteration_good (false, r) →
  returns (reconstructor_step st sent r) (λ x, pipeline_inv x.1.1 x.1.2).
Proof.
  intros Ho [Hw Hh (es & Es & HF)] Hg. destruct r as [b| |]; simpl; [|by split; eauto..].
  pose proof (reconstruct_shreds_returns good b st Ho Hw Hg) as Hret.
  destruct (reconstruct_shreds b st) as [[n st']|] eqn:E; [|done]. simpl.
  destruct (reconstruct_shreds_history good _ _ _ _ Ho Hw Hg Hh E) as [Hw' Hh'].
  destruct (call_delivers good _ _ _ _ Ho Hw Hg E) as (lg & El & HF').
  split; [by apply with_entries_wf|exact Hh'|].
  exists (es ++ deshredded_entries st'). simpl. rewrite fmap_app, Es, El, omap_app.
  split; [done|]. by apply Forall2_app.
Qed.

Lemma reconstructor_loop_inv st sent its :
  overflow_checks = false → pipeline_inv st sent → Forall iteration_good its →
  returns (reconstructor_loop st sent its) (λ x, pipeline_inv x.1.1 x.1.2).
Proof.
  intros Ho. revert st sent. induction its as [|[e r] its IH]; intros st sent Hi Hg; [done|].
  apply Forall_cons in Hg as [Hg1 Hg]. simpl. destruct e; [done|].
  eapply returns_bind; [by apply reconstructor_step_inv|].
  intros [[st' sent'] running] Hi'. simpl in Hi'. destruct running; [by apply IH|done].
Qed.
End reconstructor.
