(* ===== verification/Prompt.v ===== *)
(** Promptness of [reconstruct_shreds]: over any sequence of calls, as soon as a
    slot holds all data shreds of a segment, the segment is delivered.

    The leader's layout of its slots is a parameter: which data indexes complete
    a segment.  Good shreds agree with it, and a FEC set lies within one segment,
    so the key under which a shred is listed leads the search of the deshredding
    loop to the shred's own segment. *)

From S2P Require Import Prelude Net Metrics Shreds Tracker FecSet Packets Deshred DeshredInv.
From S2P Require Import Delivery Complete Recovery Reconstructor.

Section prompt.
Context `{ShredLib} `{PacketLib} `{BuildProfile} `{!ShredLibLaws}.
Context (good : Shred → Prop) `{!GoodShreds good}.
Context (complete_at : Z → nat → bool).
Implicit Types (st : Recon) (t : ShredsStateTracker).

(** * Specification *)

(** The leader makes one data shred per index, sets the flag of the layout, and
    keeps every FEC set within a segment. *)
Record leader_layout : Prop := {
  ll_unique s s' : good s → good s' → is_data s = true → is_data s' = true →
    shred_slot s = shred_slot s' → idx s = idx s' → s = s';
  ll_completes x : good (ShredData x) →
    completes x = complete_at (shred_slot (ShredData x)) (idx (ShredData x));
  ll_set x j : good (ShredData x) → (fec (ShredData x) ≤ j < idx (ShredData x))%nat →
    complete_at (shred_slot (ShredData x)) j = false;
  ll_first x : good (ShredData x) → (fec (ShredData x) ≤ idx (ShredData x))%nat;
}.

(** The indexes [a..=b] of the slot are one segment of the layout. *)
Record layout_segment (slot : Z) (a b : nat) : Prop := {
  ls_le : (a ≤ b)%nat;
  ls_end : complete_at slot b = true;
  ls_middle j : (a ≤ j < b)%nat → complete_at slot j = false;
  ls_start : match a with O => True | S p => complete_at slot p = true end;
}.

(** What a segment decodes to. *)
Definition decode (ds : list Shred) : option (list Entry) :=
  deshred (payload <$> ds) ≫= bincode_deserialize.

(** A stretch that a delivery in the log covers, up to the end of its segment. *)
Record delivery_of (st : Recon) (slot : Z) (a b : nat) (ds : list Shred) : Prop := {
  do_logged : (slot, a, b) ∈ omap decoded_of (log st);
  do_end : complete_at slot b = true;
  do_middle j : (a ≤ j < b)%nat → complete_at slot j = false;
  do_shreds : segment_shreds (slot_entry slot st).2 a b ds;
  do_decodes : is_Some (decode ds);
}.

(** Every index marked as deshredded belongs to a delivery. *)
Definition accounted (st : Recon) : Prop :=
  ∀ slot j, already_deshredded (slot_entry slot st).2 !! j = Some true →
    ∃ a b ds, (a ≤ j ≤ b)%nat ∧ delivery_of st slot a b ds.

(** Every segment that is there and decodes has been delivered, or a tail of it
    that decodes has. *)
Definition prompt (st : Recon) : Prop :=
  ∀ slot a b ds, layout_segment slot a b → segment_shreds (slot_entry slot st).2 a b ds →
    is_Some (decode ds) →
    ∃ k, (k < length ds)%nat ∧ delivery_of st slot (a + k) b (drop k ds).

(** * Keeping the accounts *)

Lemma delivery_of_mono st st' slot a b ds :
  (∀ i s, data_shreds (slot_entry slot st).2 !! i = Some (Some s) →
          data_shreds (slot_entry slot st').2 !! i = Some (Some s)) →
  (∀ x, x ∈ omap decoded_of (log st) → x ∈ omap decoded_of (log st')) →
  delivery_of st slot a b ds → delivery_of st' slot a b ds.
Proof. intros Hsh Hlog [Hl He Hm [Hlen Hs] Hd]. split; auto. split; auto. Qed.

Lemma delivery_of_le st st' lg slot a b ds :
  recon_le st st' → log st' = log st ++ lg →
  delivery_of st slot a b ds → delivery_of st' slot a b ds.
Proof.
  intros Hle Hlog. apply delivery_of_mono.
  - intros i s. by apply slot_entry_le_shreds.
  - intros x Hx. rewrite Hlog, omap_app. apply elem_of_app. by left.
Qed.

(** Only the slots and the log matter. *)
Lemma accounts_ext st st' :
  all_shreds st' = all_shreds st → log st' = log st →
  (accounted st → accounted st') ∧ (prompt st → prompt st').
Proof.
  intros Ea El. assert (∀ slot, slot_entry slot st' = slot_entry slot st) as He
    by (intros slot; unfold slot_entry; by rewrite Ea).
  assert (∀ slot a b ds, delivery_of st slot a b ds → delivery_of st' slot a b ds) as Hd.
  { intros slot a b ds. apply delivery_of_mono; [intros i s; by rewrite He|by rewrite El]. }
  split.
  - intros Hacc slot j. rewrite He. intros (a & b & ds & ? & ?)%Hacc. exists a, b, ds. auto.
  - intros Hpr slot a b ds Hseg. rewrite He. intros Hds Hdec.
    destruct (Hpr slot a b ds Hseg Hds Hdec) as (k & ? & ?). eauto.
Qed.

(** A step that marks nothing keeps the accounts. *)
Lemma accounted_same st st' lg :
  recon_le st st' → log st' = log st ++ lg →
  (∀ slot, already_deshredded (slot_entry slot st').2
           = already_deshredded (slot_entry slot st).2) →
  accounted st → accounted st'.
Proof.
  intros Hle Hlog Hsame Hacc slot j Hj. rewrite Hsame in Hj.
  destruct (Hacc _ _ Hj) as (a & b & ds & Hj' & Hdel). exists a, b, ds.
  split; [done|]. by eapply delivery_of_le.
Qed.

(** A step that marks nothing, and stores shreds under listed keys only. *)
Record gained st st' : Prop := {
  gn_wf : recon_wf good st';
  gn_le : recon_le st st';
  gn_log : ∃ lg, log st' = log st ++ lg ∧ Forall not_decoded lg;
  gn_marks slot : already_deshredded (slot_entry slot st').2
                  = already_deshredded (slot_entry slot st).2;
  gn_list k : k ∈ slot_fec_indexes_to_iterate st → k ∈ slot_fec_indexes_to_iterate st';
  gn_new slot i s : data_shreds (slot_entry slot st').2 !! i = Some (Some s) →
    data_shreds (slot_entry slot st).2 !! i = Some (Some s) ∨
    (slot, shred_fec_set_index s) ∈ slot_fec_indexes_to_iterate st';
}.

Lemma gained_refl st : recon_wf good st → gained st st.
Proof.
  intros Hw. split; [done|apply recon_le_refl| |done|done|by left].
  exists []. by rewrite app_nil_r.
Qed.

Lemma gained_trans st1 st2 st3 : gained st1 st2 → gained st2 st3 → gained st1 st3.
Proof.
  intros [_ L1 (lg1 & E1 & F1) M1 K1 N1] [W2 L2 (lg2 & E2 & F2) M2 K2 N2].
  split; [done|by eapply recon_le_trans| | |auto|].
  - exists (lg1 ++ lg2). rewrite E2, E1, app_assoc. split; [done|]. by apply Forall_app.
  - intros slot. by rewrite M2.
  - intros slot i s [[?|?]%N1|?]%N2; auto.
Qed.

Lemma ingest_packet_gained st b :
  recon_wf good st → (∀ s, parse_packet b = Some s → good s) →
  returns (ingest_packet st b) (gained st).
Proof.
  intros Hst Hg. pose proof (ingest_packet_returns good st b Hst Hg) as Hr.
  destruct (ingest_packet st b) as [st'|] eqn:E; [|done]. destruct Hr as [Hw Hle].
  unfold ingest_packet in E. destruct (parse_packet b) as [s|].
  2:{ case_match; simplify_eq/=; split; try done; [exists []; by rewrite app_nil_r|by left| |by left].
      eexists. split; [done|]. by repeat constructor. }
  apply (ingest_shred_cases good) in E; [|done].
  destruct E as [lg Hlg _|fecs t t' set He _ Hup _].
  - assert (∀ slot, slot_entry slot (logging lg (set_slot (shred_slot s) (slot_entry (shred_slot s) st) st))
              = slot_entry slot st) as Hsame.
    { intros slot. change (slot_entry slot (logging lg ?x)) with (slot_entry slot x).
      rewrite slot_entry_set_slot. by case_decide; subst. }
    split; try done; [by exists lg|intros; by rewrite Hsame|].
    intros slot i x. rewrite Hsame. by left.
  - pose proof (slot_entry_wf good (shred_slot s) _ Hst) as Hwf. rewrite He in Hwf.
    destruct (update_state_tracker_frame _ _ _ _ Hup) as [Ed _].
    pose proof (update_from _ _ _ _ (slot_wf_tracker good _ _ _ Hwf) Hup) as Hfrom.
    split; simpl; try done.
    + exists []. by rewrite app_nil_r.
    + intros slot. rewrite slot_entry_accepted. case_decide; [|done]. subst. by rewrite He.
    + intros k Hk. apply elem_of_app. by left.
    + intros slot i x. rewrite slot_entry_accepted. case_decide; [|by left]. subst.
      rewrite He. simpl. intros [?| ->]%Hfrom; [by left|right].
      apply elem_of_app. right. by left.
Qed.

Lemma ingest_batch_gained batch st :
  recon_wf good st → batch_good good batch → returns (ingest_batch batch st) (gained st).
Proof.
  intros Hst Hb. apply foldM_returns; [by apply gained_refl|].
  intros st1 b (p & Hp & Hd)%list_elem_of_omap Hi.
  eapply returns_mono; [apply ingest_packet_gained; [apply Hi|by eauto]|].
  intros st2 Hi2. by eapply gained_trans.
Qed.

Lemma note_recovered_from slot f t recovered t' k lg :
  tracker_wf t → foldM (note_recovered slot f) (t, 0%nat, []) recovered = Ok (t', k, lg) →
  ∀ i s, data_shreds t' !! i = Some (Some s) →
         data_shreds t !! i = Some (Some s) ∨ Some s ∈ recovered.
Proof.
  intros Ht Hf. set (I := λ r : ShredsStateTracker * nat * list LogEvent, tracker_wf r.1.1 ∧
    ∀ i s, data_shreds r.1.1 !! i = Some (Some s) →
           data_shreds t !! i = Some (Some s) ∨ Some s ∈ recovered).
  pose proof (foldM_ensures (note_recovered slot f) I (t, 0%nat, []) recovered) as Hi.
  rewrite Hf in Hi. apply Hi; [by split; [|left]|].
  intros [[t1 n] lg1] [s|] Hin [Hw Hfrom]; simpl in *; [|by split].
  destruct (update_state_tracker s t1) as [[o t2]|] eqn:E; [|done]. simpl.
  assert (I (t2, n, lg1)) as Hi2.
  { split; [by eapply update_state_tracker_wf|]. simpl. intros i s' Hs.
    destruct (update_from _ _ _ _ Hw E i s' Hs) as [?| ->]; [by apply Hfrom|by right]. }
  by destruct o.
Qed.

(** What a recovered set stores in the tracker are shreds of the set. *)
Lemma recover_fec_set_new st n slot f st' n' :
  recon_wf good st → recover_fec_set (st, n) (slot, f) = Ok (st', n') →
  ∀ i s, data_shreds (slot_entry slot st').2 !! i = Some (Some s) →
    data_shreds (slot_entry slot st).2 !! i = Some (Some s) ∨ shred_fec_set_index s = f.
Proof.
  intros Hst. unfold recover_fec_set. pose proof (slot_entry_wf good slot _ Hst) as Hwf.
  destruct (slot_entry slot st) as [fecs t] eqn:He.
  assert (∀ v lg st1 i s, slot_entry slot (logging lg (set_slot slot v st1)) = v →
    data_shreds (slot_entry slot (logging lg (set_slot slot v st1))).2 !! i = Some (Some s) →
    data_shreds v.2 !! i = Some (Some s)) as Hset by (by intros ? ? ? ? ? ->).
  assert (∀ v lg st1, slot_entry slot (logging lg (set_slot slot v st1)) = v) as Hv.
  { intros v lg st1. change (slot_entry slot (logging lg ?x)) with (slot_entry slot x).
    by rewrite slot_entry_set_slot, decide_True. }
  intros (info & _ & Hr)%bind_Ok. destruct info as [[[ned nec] nd] nc].
  case_decide as Hskip.
  { injection Hr as <- <-. intros i s. rewrite slot_entry_set_slot, decide_True by done. by left. }
  destruct (recover _) as [l|] eqn:El; [|injection Hr as <- <-; intros i s; rewrite Hv; by left].
  apply bind_Ok in Hr as ([[t' k] lg] & Hn & Hr).
  pose proof (note_recovered_from _ _ _ _ _ _ _ (slot_wf_tracker good _ _ _ Hwf) Hn) as Hfrom.
  assert (∀ i s, data_shreds t' !! i = Some (Some s) →
            data_shreds t !! i = Some (Some s) ∨ shred_fec_set_index s = f) as Hnew.
  { intros i s [?|Hs]%Hfrom; [by left|right].
    destruct (fec_entry_good good _ _ _ f Hwf) as [Hgood _].
    destruct (good_recover _ _ s Hgood El Hs) as (_ & x & Hx & _ & ->).
    rewrite merkle_shreds_perm in Hx. unfold fec_entry in Hx.
    destruct (fecs !! f) as [set0|] eqn:E0; [|by apply elem_of_nil in Hx].
    by destruct (sw_fecs good _ _ Hwf f set0 x E0 Hx) as (_ & ? & _). }
  case_decide.
  - apply bind_Ok in Hr as (t2 & [_ ->]%set_recovered_Ok & Hr). injection Hr as <- <-.
    intros i s. rewrite Hv. apply Hnew.
  - injection Hr as <- <-. intros i s. rewrite Hv. apply Hnew.
Qed.

Lemma recover_all_gained st st' n :
  overflow_checks = false → recon_wf good st → recover_all st = Ok (st', n) → gained st st'.
Proof.
  intros Ho Hst Hr. pose proof (foldM_ensures recover_fec_set
    (λ r, gained st r.1 ∧ highest_slot_seen r.1 = highest_slot_seen st ∧
          slot_fec_indexes_to_iterate r.1 = slot_fec_indexes_to_iterate st)
    (st, 0%nat) (slot_fec_indexes_to_iterate st)) as Hi. unfold recover_all in Hr.
  rewrite Hr in Hi. apply Hi; [split_and!; [by apply gained_refl|done|done]|].
  intros [st1 k] [slot f] Hin (Hg & Eh & El). cbn [fst] in Hg, Eh, El.
  destruct (rw_list good _ Hst _ _ Hin) as (Hf0 & Hfb & Hslot). rewrite <-Eh in Hslot.
  pose proof (recover_fec_set_returns good st1 k slot f Ho (gn_wf _ _ Hg) Hf0 Hfb Hslot) as Hret.
  destruct (recover_fec_set (st1, k) (slot, f)) as [[st2 k']|] eqn:E; [|done].
  destruct Hret as [Hw2 [F1 F2 _ _ F5 F6]]. cbn [fst snd ensures] in *. split; [|split; congruence].
  eapply gained_trans; [exact Hg|]. split; try done.
  - intros slot'. by eapply recover_fec_set_frame.
  - by rewrite F1.
  - intros slot' i s Hs. destruct (decide (slot' = slot)) as [->|Hne].
    + destruct (recover_fec_set_new _ _ _ _ _ _ (gn_wf _ _ Hg) E i s Hs) as [?| ->]; [by left|].
      right. by rewrite F1, El.
    + left. by rewrite <-(recover_fec_set_other _ _ _ _ _ _ slot' E (not_eq_sym Hne)).
Qed.

(** * Delivering *)

Context (Hlayout : leader_layout).

Lemma layout_of_shred slot fecs t i x :
  slot_wf good slot (fecs, t) → data_shreds t !! i = Some (Some x) →
  ∃ y, x = ShredData y ∧ good x ∧ shred_slot x = slot ∧ idx x = i ∧
       completes y = complete_at slot i.
Proof.
  intros Hwf Hs. destruct (wf_shreds _ (slot_wf_tracker good _ _ _ Hwf) _ _ Hs) as [[y ->] Hi].
  destruct (sw_shreds good _ _ Hwf _ _ Hs) as [Hsl Hg]. exists y. split_and!; try done.
  by rewrite (ll_completes Hlayout), Hsl, Hi.
Qed.

Lemma layout_status slot fecs t i o :
  slot_wf good slot (fecs, t) → data_shreds t !! i = Some o →
  data_status t !! i = Some (match o with
    | Some _ => if complete_at slot i then DataComplete else NotDataComplete
    | None => Unknown end).
Proof.
  intros Hwf Ho. rewrite (wf_status _ (slot_wf_tracker good _ _ _ Hwf) _ _ Ho).
  destruct o as [x|]; [|done].
  destruct (layout_of_shred _ _ _ _ _ Hwf Ho) as (y & -> & _ & _ & _ & Hc). simpl. by rewrite Hc.
Qed.

(** One iteration of the deshredding loop keeps the accounts. *)
Lemma deshred_accounted st slot f fecs t st' :
  recon_wf good st → slot_entry slot st = (fecs, t) → deshred_result st slot f fecs t st' →
  recon_le st st' → accounted st → accounted st'.
Proof.
  intros Hst He Hr Hle Hacc. pose proof (slot_entry_wf good slot _ Hst) as Hwf. rewrite He in Hwf.
  destruct Hr as [_|a b u ds lg m _ _ _ _ _|a b u ds p es m Hseg Hds Hp Hes _ _ _].
  - eapply (accounted_same st _ []); [done|by rewrite app_nil_r| |done].
    intros slot'. rewrite slot_entry_set_slot. case_decide; [|done]. subst. by rewrite He.
  - eapply (accounted_same st _ lg); [done|done| |done]. intros slot'.
    change (slot_entry slot' (with_metrics m (logging lg ?x))) with (slot_entry slot' x).
    rewrite slot_entry_set_slot. case_decide; [|done]. subst. by rewrite He.
  - set (st' := mkRecon _ _ _ _ _ _) in *.
    assert (delivery_of st' slot a b ds) as Hnew.
    { split.
      - simpl. rewrite omap_app. apply elem_of_app. right. by left.
      - destruct Hds as [Hlen Hds]. destruct (lookup_lt_is_Some_2 ds (b - a)) as [x Hx];
          [destruct Hseg; lia|]. apply Hds in Hx as Hs.
        pose proof (layout_status _ _ _ _ _ Hwf Hs) as Hst'. simpl in Hst'.
        replace (a + (b - a))%nat with b in Hst' by (destruct Hseg; lia).
        rewrite (seg_end _ _ _ _ _ Hseg) in Hst'. by destruct (complete_at slot b).
      - intros j Hj. destruct Hds as [Hlen Hds].
        destruct (lookup_lt_is_Some_2 ds (j - a)) as [x Hx]; [lia|]. apply Hds in Hx as Hs.
        pose proof (layout_status _ _ _ _ _ Hwf Hs) as Hst'. simpl in Hst'.
        replace (a + (j - a))%nat with j in Hst' by lia.
        rewrite (seg_middle _ _ _ _ _ Hseg) in Hst' by done. by destruct (complete_at slot j).
      - unfold st'. rewrite slot_entry_accepted, decide_True by done. exact Hds.
      - unfold decode. rewrite Hp. simpl. by rewrite Hes. }
    intros slot' j. unfold st'. rewrite slot_entry_accepted. case_decide as Hs.
    + subst slot'. cbn [snd]. intros Hj.
      rewrite (mark_all_deshredded good slot fecs t a b ds j Hwf Hds) in Hj.
      case_decide as Hab; [by exists a, b, ds|].
      destruct (Hacc slot j) as (a' & b' & ds' & Hj' & Hd'); [by rewrite He|].
      exists a', b', ds'. split; [done|]. by eapply delivery_of_le.
    + intros (a' & b' & ds' & Hj' & Hd')%Hacc. exists a', b', ds'. split; [done|].
      by eapply delivery_of_le.
Qed.

(** The key of a shred of a segment leads into the segment. *)
Lemma layout_key slot a b d y :
  layout_segment slot a b → d = ShredData y → good d → shred_slot d = slot →
  (a ≤ idx d ≤ b)%nat → (a ≤ fec d ≤ b)%nat.
Proof.
  intros [_ _ _ Hstart] -> Hg Hs Hi. pose proof (ll_first Hlayout y Hg). split; [|lia].
  destruct (decide (a ≤ fec (ShredData y))%nat) as [|Hlt]; [done|exfalso].
  destruct a as [|p]; [lia|]. pose proof (ll_set Hlayout y p Hg ltac:(lia)) as Hx.
  rewrite Hs in Hx. congruence.
Qed.

(** A delivery that meets a segment of the layout is of a tail of it. *)
Lemma delivery_in_segment st slot a b ds a' b' ds' j :
  layout_segment slot a b → segment_shreds (slot_entry slot st).2 a b ds →
  (a ≤ j ≤ b)%nat → (a' ≤ j ≤ b')%nat → delivery_of st slot a' b' ds' →
  ∃ k, (k < length ds)%nat ∧ delivery_of st slot (a + k) b (drop k ds).
Proof.
  intros [Hab He Hm Hs] [Hlen Hds] Hj Hj' Hdel. pose proof Hdel as [_ He' Hm' _ _].
  assert (b' = b) as ->.
  { destruct (decide (b' < b)%nat); [rewrite Hm in He' by lia; done|].
    destruct (decide (b < b')%nat); [rewrite Hm' in He by lia; done|lia]. }
  assert (a ≤ a')%nat as Haa.
  { destruct (decide (a ≤ a')%nat); [done|]. destruct a as [|p]; [lia|].
    rewrite Hm' in Hs by lia. done. }
  exists (a' - a)%nat. split; [lia|]. replace (a + (a' - a))%nat with a' by lia.
  assert (ds' = drop (a' - a) ds) as <-; [|done].
  eapply segment_shreds_unique; [apply Hdel|]. split; [rewrite length_drop; lia|].
  intros i d. rewrite lookup_drop. intros Hd%Hds. by replace (a' + i)%nat with (a + (a' - a + i))%nat by lia.
Qed.

(** When the search from one of its shreds has left nothing, a segment is delivered. *)
Lemma segment_reached st slot fecs t a b ds d :
  slot_wf good slot (fecs, t) → slot_entry slot st = (fecs, t) → accounted st →
  layout_segment slot a b → segment_shreds t a b ds → is_Some (decode ds) →
  d ∈ ds → nothing_left t (fec d) →
  ∃ k, (k < length ds)%nat ∧ delivery_of st slot (a + k) b (drop k ds).
Proof.
  intros Hwf He Hacc Hseg Hds Hdec Hd Hleft. pose proof (slot_wf_tracker good _ _ _ Hwf) as Ht.
  destruct (decide (Exists (λ j, already_deshredded t !! j = Some true) (seq a (length ds))))
    as [(j & Hj & Hm)%Exists_exists|Hno].
  { destruct (Hacc slot j) as (a' & b' & ds' & Hj' & Hdel); [by rewrite He|].
    apply elem_of_seq in Hj. pose proof Hds as [Hlen _].
    eapply (delivery_in_segment st slot a b ds a' b' ds' j); try done; [by rewrite He|lia]. }
  exfalso. pose proof Hseg as [Hab Hend Hmid Hstart]. pose proof Hds as [Hlen Hsh].
  assert (∀ j, (a ≤ j ≤ b)%nat → ∃ x, data_shreds t !! j = Some (Some x)) as Hall.
  { intros j Hj. destruct (lookup_lt_is_Some_2 ds (j - a)) as [x Hx]; [lia|].
    exists x. rewrite <-(Hsh _ _ Hx). f_equal. lia. }
  assert (∃ u, is_segment t (fec d) a b u) as [u Hsg].
  { destruct (segment_shreds_elem t a b ds d Hds Hd) as (i & Hi & Hx).
    destruct (layout_of_shred _ _ _ _ _ Hwf Hx) as (y & -> & Hg & Hs & <- & _).
    assert (∃ u, match a with O => u = false
      | S p => data_status t !! p = Some (if u : bool then Unknown else DataComplete) end)
      as [u Hu].
    { destruct a as [|p]; [by exists false|].
      destruct (lookup_lt_is_Some_2 (data_shreds t) p) as [o Ho].
      { destruct (Hall (S p)) as [x Hx']; [lia|]. apply lookup_lt_Some in Hx'. lia. }
      rewrite (layout_status _ _ _ _ _ Hwf Ho), Hstart. destruct o; [by exists false|by exists true]. }
    exists u. split.
    - by eapply layout_key.
    - destruct (Hall b) as [x Hx']; [lia|]. by rewrite (layout_status _ _ _ _ _ Hwf Hx'), Hend.
    - intros j Hj. destruct (Hall j) as [x Hx']; [lia|].
      by rewrite (layout_status _ _ _ _ _ Hwf Hx'), Hmid.
    - intros j Hj. destruct (Hall j Hj) as [x Hx'].
      destruct (lookup_lt_is_Some_2 (already_deshredded t) j) as [[] Hm]; [|exfalso|done].
      { rewrite wf_len_deshredded, <-(wf_len_shreds t) by done. by eapply lookup_lt_Some. }
      apply Hno, Exists_exists. exists j. split; [apply elem_of_seq; lia|done].
    - done. }
  destruct Hdec as [es Hes]. pose proof (Hleft a b u ds Hsg Hds) as Hnone.
  unfold decode in Hes. congruence.
Qed.

(** * Whole calls *)

Lemma deshred_all_accounted st st' :
  recon_wf good st → accounted st → deshred_all st = Ok st' →
  recon_wf good st' ∧ recon_le st st' ∧ accounted st' ∧
  (∃ lg, log st' = log st ++ lg) ∧
  ∀ slot, data_shreds (slot_entry slot st').2 = data_shreds (slot_entry slot st).2.
Proof.
  intros Hst Hacc Hd. set (I := λ st', in_loop good st st' ∧ recon_le st st' ∧ accounted st' ∧
    (∃ lg, log st' = log st ++ lg) ∧
    ∀ slot, data_shreds (slot_entry slot st').2 = data_shreds (slot_entry slot st).2).
  pose proof (foldM_ensures deshred_fec_set I st (slot_fec_indexes_to_iterate st)) as Hi.
  unfold deshred_all in Hd. rewrite Hd in Hi.
  cut (I st'); [by intros ((? & _) & ? & ? & ? & ?)|]. apply Hi; clear Hi Hd.
  { split_and!; try done; [apply recon_le_refl|]. exists []. by rewrite app_nil_r. }
  intros st1 [slot f] Hin (HJ & Hle & Hacc1 & (lg & El) & Hsame).
  destruct (deshred_fec_set st1 (slot, f)) as [st2|] eqn:E; [|done].
  destruct (deshred_step good _ _ _ _ _ Hst HJ Hin E) as (Hslot & HJ2 & fecs & t & He & Hr).
  destruct (deshred_result_wf good _ _ _ _ _ _ (proj1 HJ) He Hslot Hr) as (_ & Hle2 & _ & _).
  split_and!; [done|by eapply recon_le_trans|by apply (deshred_accounted st1 slot f fecs t st2 (proj1 HJ))| |].
  - destruct Hr; simpl; rewrite El; [by exists lg|eexists; by rewrite <-app_assoc..].
  - intros slot'. rewrite <-Hsame.
    assert (∃ v, data_shreds v.2 = data_shreds t ∧
              ∀ k, slot_entry k st2 = if decide (k = slot) then v else slot_entry k st1) as (v & Hv & Hk).
    { destruct Hr; [exists (fecs, t)|exists (fecs, t)|exists (fecs, mark_all ds t)];
        (split; [done|]); intros k; unfold slot_entry; simpl; rewrite lookup_insert;
        by repeat case_decide; subst. }
    rewrite Hk. case_decide; [|done]. subst. by rewrite Hv, He.
Qed.

(** Dropping old slots: a slot is as it was, or is forgotten. *)
Lemma drop_slot_entry st st' slot :
  drop_old_slots st = Ok st' →
  slot_entry slot st' = slot_entry slot st ∨ all_shreds st' !! slot = None.
Proof.
  intros (Hall & _)%drop_old_slots_Ok. destruct (all_shreds st' !! slot) as [v|] eqn:E; [left|by right].
  unfold slot_entry. rewrite E. destruct Hall as [[<- _]|Ef]; [by rewrite E|].
  rewrite Ef in E. by apply map_lookup_filter_Some in E as [-> _].
Qed.

Lemma drop_accounted st st' lg :
  drop_old_slots st = Ok st' → log st' = log st ++ lg → accounted st → accounted st'.
Proof.
  intros Hd Hlog Hacc slot j Hj. destruct (drop_slot_entry st st' slot Hd) as [E|E].
  - rewrite E in Hj. destruct (Hacc _ _ Hj) as (a & b & ds & Hab & Hdel). exists a, b, ds.
    split; [done|]. eapply delivery_of_mono; [| |exact Hdel]; [by rewrite E|].
    intros x Hx. rewrite Hlog, omap_app. apply elem_of_app. by left.
  - unfold slot_entry in Hj. rewrite E in Hj. by apply lookup_replicate in Hj as [? _].
Qed.

Lemma segment_tracked st slot a b ds :
  segment_shreds (slot_entry slot st).2 a b ds → ds ≠ [] → is_Some (all_shreds st !! slot).
Proof.
  intros [_ Hds] Hne. destruct ds as [|d ds]; [done|]. specialize (Hds 0%nat d eq_refl).
  destruct (slot_entry slot st) as [fecs t] eqn:He. eapply slot_entry_present; eauto.
Qed.

(** Shreds of FEC sets that a call does not touch were there before it. *)
Lemma untouched_segment st2 slot (t t0 : ShredsStateTracker) a b ds :
  segment_shreds t a b ds →
  ¬ Exists (λ d, (slot, shred_fec_set_index d) ∈ slot_fec_indexes_to_iterate st2) ds →
  (∀ j d, data_shreds t !! j = Some (Some d) →
     (slot, shred_fec_set_index d) ∉ slot_fec_indexes_to_iterate st2 →
     data_shreds t0 !! j = Some (Some d)) →
  segment_shreds t0 a b ds.
Proof.
  intros [Hlen Hds] Hno Hold. split; [done|]. intros j d Hj.
  apply Hold; [by apply Hds|]. intros Hk. apply Hno, Exists_exists. exists d.
  split; [by eapply list_elem_of_lookup_2|done].
Qed.

(** The deliveries of a call and of the calls before it. *)
Lemma call_prompt batch st n st' :
  overflow_checks = false → recon_wf good st → batch_good good batch →
  accounted st → prompt st → reconstruct_shreds batch st = Ok (n, st') →
  accounted st' ∧ prompt st'.
Proof.
  intros Ho Hst Hb Hacc Hpr Hr. pose proof Hr as Hr0.
  apply reconstruct_shreds_phases in Hr as (st1 & st2 & st3 & st4 & E1 & E2 & E3 & E4 & Est').
  pose proof (ingest_batch_gained batch _ (clear_outputs_wf good _ Hst) Hb) as G1.
  rewrite E1 in G1. pose proof G1 as [Hw1 L1 (lg1 & El1 & _) M1 _ N1].
  pose proof (sort_indexes_wf good _ Hw1) as Hw1'.
  destruct (recover_all_gained _ _ _ Ho Hw1' E2) as [Hw2 L2 (lg2 & El2 & _) M2 K2 N2].
  assert (accounted st2) as Hacc2.
  { eapply (accounted_same (sort_indexes st1)); [done|done|done|].
    apply (accounts_ext st1); [done..|].
    eapply (accounted_same (clear_outputs st)); [exact L1|exact El1|exact M1|].
    by apply (accounts_ext st). }
  destruct (deshred_all_accounted _ _ Hw2 Hacc2 E3) as (Hw3 & L3 & Hacc3 & (lg3 & El3) & D3).
  destruct (drop_old_slots_Ok _ _ E4) as (_ & Ek4 & _ & _ & _ & lg4 & El4 & _).
  pose proof (drop_accounted _ _ _ E4 El4 Hacc3) as Hacc4.
  destruct (accounts_ext st4 st') as [Hacc' Hpr']; [rewrite Est'; by case_decide..|].
  split; [by apply Hacc'|apply Hpr'].
  intros slot a b ds Hseg Hds Hdec.
  assert (ds ≠ []) as Hne by (intros ->; destruct Hds, Hseg; simpl in *; lia).
  destruct (drop_slot_entry _ _ slot E4) as [E|E].
  2:{ destruct (segment_tracked _ _ _ _ _ Hds Hne) as [v Hv]. congruence. }
  destruct (slot_entry slot st4) as [fecs t] eqn:He4.
  pose proof (drop_old_slots_wf good _ _ Hw3 E4) as Hw4.
  pose proof (slot_entry_wf good slot _ Hw4) as Hwf. rewrite He4 in Hwf.
  destruct (decide (Exists (λ d, (slot, shred_fec_set_index d) ∈ slot_fec_indexes_to_iterate st2) ds))
    as [(d & Hd & Hk)%Exists_exists|Hno].
  - eapply segment_reached; try done.
    destruct (segment_tracked _ _ _ _ _ ltac:(by rewrite He4) Hne) as [v Hv].
    assert (v = (fecs, t)) as -> by (unfold slot_entry in He4; rewrite Hv in He4; done).
    assert (all_shreds st3 !! slot = Some (fecs, t)) as Hv3.
    { destruct (drop_old_slots_Ok _ _ E4) as ([[Ea _]|Ea] & _); rewrite Ea in Hv; [done|].
      by apply map_lookup_filter_Some in Hv as [? _]. }
    eapply (deshred_fold_left good st2 st2 (slot_fec_indexes_to_iterate st2) st3 []);
      eauto; [by split_and!|by intros ?? ?%elem_of_nil].
  - assert (segment_shreds (slot_entry slot st).2 a b ds) as Hold.
    { eapply (untouched_segment st2 slot t); [done..|]. intros j d Hs Hnk.
      change t with (fecs, t).2 in Hs. rewrite E, D3 in Hs.
      destruct (N2 _ _ _ Hs) as [Hs1|]; [|done].
      destruct (N1 _ _ _ Hs1) as [?|Hk]; [done|]. destruct Hnk.
      by apply K2, sort_indexes_elem_of. }
    destruct (Hpr slot a b ds Hseg Hold Hdec) as (k & Hk & Hdel). exists k. split; [done|].
    eapply delivery_of_mono; [| |exact Hdel].
    + intros i s Hs. rewrite He4, E. eapply slot_entry_le_shreds; [exact L3|].
      eapply slot_entry_le_shreds; [exact L2|]. by eapply slot_entry_le_shreds; [exact L1|].
    + intros x Hx. rewrite El4, El3, El2. simpl. rewrite El1, !omap_app, !elem_of_app. simpl. tauto.
Qed.

(** * The reconstructor thread *)

(** The invariant of the thread's loop with the accounts. *)
Record prompt_inv (st : Recon) (sent : list PbEntry) : Prop := {
  pm_pipe : pipeline_inv good st sent;
  pm_accounted : accounted st;
  pm_prompt : prompt st;
}.

Lemma prompt_inv_init m : prompt_inv (recon_init m) [].
Proof.
  split; [apply pipeline_inv_init|..].
  - intros slot j. unfold slot_entry. simpl. rewrite lookup_empty. simpl.
    by intros [? _]%lookup_replicate.
  - intros slot a b ds [Hab _ _ _] Hds _.
    assert (ds ≠ []) as Hne by (intros ->; destruct Hds; simpl in *; lia).
    destruct (segment_tracked _ _ _ _ _ Hds Hne) as [v Hv]. simpl in Hv. by rewrite lookup_empty in Hv.
Qed.

Lemma prompt_inv_metrics m st sent : prompt_inv st sent → prompt_inv (with_metrics m st) sent.
Proof.
  intros [[Hw Hh He] Ha Hp]. destruct (accounts_ext st (with_metrics m st)) as [Ha' Hp']; [done..|].
  split; [split; [by apply with_metrics_wf|done|done]|by apply Ha'|by apply Hp'].
Qed.

Lemma reconstructor_step_prompt st sent r :
  overflow_checks = false → prompt_inv st sent → iteration_good good (false, r) →
  returns (reconstructor_step st sent r) (λ x, prompt_inv x.1.1 x.1.2).
Proof.
  intros Ho [Hpipe Ha Hp] Hg. pose proof (reconstructor_step_inv good st sent r Ho Hpipe Hg) as Hr.
  destruct (reconstructor_step st sent r) as [[[st' sent'] b]|] eqn:E; [|done].
  split; [exact Hr|..]; destruct r as [batch| |]; simpl in E; try by simplify_eq/=.
  all: apply bind_Ok in E as ([n st1] & E1 & E2); injection E2 as <- <- <-.
  all: destruct (call_prompt batch st n st1 Ho (pi_wf good _ _ Hpipe) Hg Ha Hp E1) as [Ha' Hp'].
  all: by apply (accounts_ext st1).
Qed.

(** The shreds of a delivery are the ones the slot holds. *)
Lemma run_is_held slot fecs t a b ds ds' :
  slot_wf good slot (fecs, t) → segment_shreds t a b ds → segment_run good slot a ds' →
  length ds' = length ds → ds' = ds.
Proof.
  intros Hwf [_ Hds] [_ Hrun] Hlen. apply list_eq_same_length with (length ds); [done..|].
  intros i x y _ Hx Hy. destruct (Hrun i x Hx) as (z & -> & Hi & Hs & Hg & _).
  destruct (layout_of_shred _ _ _ _ _ Hwf (Hds _ _ Hy)) as (w & -> & Hg' & Hs' & Hi' & _).
  apply (ll_unique Hlayout); try done; congruence.
Qed.

(** What the slots hold of complete segments has been broadcast. *)
Lemma prompt_broadcast st sent slot a b ds p es :
  prompt_inv st sent → layout_segment slot a b → segment_shreds (slot_entry slot st).2 a b ds →
  deshred (payload <$> ds) = Some p → bincode_deserialize p = Some es →
  ∃ k p', (k < length ds)%nat ∧ deshred (payload <$> drop k ds) = Some p' ∧
    is_Some (bincode_deserialize p') ∧ mkPbEntry slot p' ∈ sent.
Proof.
  intros [[Hw _ (entries & -> & HF)] _ Hpr] Hseg Hds Hp Hes.
  destruct (Hpr slot a b ds Hseg Hds) as (k & Hk & [Hlog _ _ Hsh Hdec]).
  { unfold decode. rewrite Hp. simpl. by rewrite Hes. }
  apply list_elem_of_lookup in Hlog as [i Hi].
  destruct (Forall2_lookup_l _ _ _ _ _ HF Hi) as (e & He & ds' & Hs & Hrun & Hlen & Hpay & Hbin).
  simpl in *. pose proof (slot_entry_wf good slot _ Hw) as Hwf.
  destruct (slot_entry slot st) as [fecs t].
  assert (ds' = drop k ds) as ->.
  { eapply run_is_held; [done|exact Hsh|done|]. destruct Hsh. simpl in *. lia. }
  exists k, e.2. split_and!; [done|done|by eexists|]. apply list_elem_of_fmap. exists e.
  split; [by rewrite Hs|]. by eapply list_elem_of_lookup_2.
Qed.
End prompt.
