(* ===== verification/Missed.v ===== *)
(** The report of missed FEC sets that [reconstruct_shreds] makes when it drops
    old slots, and [debug_remaining_shreds], against a declarative list of the
    sets that were never recovered. *)

From S2P Require Import Prelude Net Metrics Shreds Tracker FecSet Packets Deshred DeshredInv.

Section missed.
Context `{ShredLib} `{PacketLib} `{BuildProfile} `{!ShredLibLaws}.
Context (good : Shred → Prop) `{!GoodShreds good}.
Implicit Types (st : Recon) (t : ShredsStateTracker).

(** * Specification *)

(** What is reported of one set, if it was not recovered. *)
Definition missed_set t (p : Z * list Shred) : option (Z * Z * nat) :=
  match already_recovered_fec_sets t !! Z.to_nat p.1, get_data_shred_info p.2 with
  | Some false, Ok (n, _, _, _) => Some (p.1, n, length p.2)
  | _, _ => None
  end.
Definition missed_of (v : SlotState) : list (Z * Z * nat) :=
  omap (missed_set v.2) (map_to_list v.1).

Definition below (thr slot : Z) : bool := bool_decide (slot < thr).

(** The missed sets of the slots that [drop] selects. *)
Definition missed_slots (drop : Z → bool) (m : gmap Z SlotState) : gmap Z (list (Z * Z * nat)) :=
  map_imap (λ slot v, if drop slot then match missed_of v with [] => None | l => Some l end
                      else None) m.

(** * Lemmas *)

Definition push_missed (slot : Z) (l : list (Z * Z * nat))
    (inc : gmap Z (list (Z * Z * nat))) : gmap Z (list (Z * Z * nat)) :=
  match l with [] => inc | _ => <[slot := default [] (inc !! slot) ++ l]> inc end.

Lemma count_missed_spec slot t l inc n :
  overflow_checks = false →
  (∀ p, p ∈ l → (Z.to_nat p.1 < length (already_recovered_fec_sets t))%nat) →
  foldM (count_missed slot t) (inc, n) l
  = Ok (push_missed slot (omap (missed_set t) l) inc, (n + length (omap (missed_set t) l))%nat).
Proof.
  intros Ho. revert inc n. induction l as [|[f set] l IH]; intros inc n Hl.
  { simpl. by rewrite Nat.add_0_r. }
  assert (∀ p, p ∈ l → (Z.to_nat p.1 < length (already_recovered_fec_sets t))%nat) as Hl'
    by (intros; apply Hl; by right).
  assert (omap (missed_set t) ((f, set) :: l)
          = match missed_set t (f, set) with
            | Some y => y :: omap (missed_set t) l | None => omap (missed_set t) l end) as -> by done.
  pose proof (Hl (f, set) ltac:(left)) as Hf. simpl in Hf.
  destruct (vec_get_lt _ _ Hf) as (r & Eg & Er). cbn [foldM count_missed]. rewrite Eg.
  assert (missed_set t (f, set) = if r then None else
    match get_data_shred_info set with Ok (n, _, _, _) => Some (f, n, length set) | _ => None end)
    as -> by (unfold missed_set; simpl; rewrite Er; by destruct r).
  destruct r; cbn [mbind outcome_bind]; [by apply IH|].
  destruct (get_data_shred_info_release set Ho) as [[[[a b] c] d] E]. rewrite E.
  cbn [mbind outcome_bind]. rewrite IH by done. f_equal. f_equal; [|simpl; lia].
  unfold push_missed. destruct (omap _ l) as [|x l'] eqn:El; [done|].
  rewrite lookup_insert_eq, insert_insert_eq. simpl. by rewrite <-app_assoc.
Qed.

Lemma slot_missed slot v inc n :
  overflow_checks = false → slot_wf good slot v →
  foldM (count_missed slot v.2) (inc, n) (map_to_list v.1)
  = Ok (push_missed slot (missed_of v) inc, (n + length (missed_of v))%nat).
Proof.
  intros Ho Hw. apply count_missed_spec; [done|]. intros [f set] Hf%elem_of_map_to_list. simpl.
  rewrite (wf_len_recovered _ (sw_tracker _ _ _ Hw)). by apply (sw_keys _ _ _ Hw f).
Qed.

(** What a list of slots adds to the map of incomplete sets. *)
Definition missed_total (drop : Z → bool) (l : list (Z * SlotState)) : nat :=
  foldr (λ (p : Z * SlotState) n, ((if drop p.1 then length (missed_of p.2) else 0) + n)%nat) 0%nat l.

Fixpoint push_all (drop : Z → bool) (l : list (Z * SlotState))
    (inc : gmap Z (list (Z * Z * nat))) : gmap Z (list (Z * Z * nat)) :=
  match l with
  | [] => inc
  | p :: l => push_all drop l (if drop p.1 then push_missed p.1 (missed_of p.2) inc else inc)
  end.

Lemma retain_missed thr l kept inc n :
  overflow_checks = false → (∀ slot v, (slot, v) ∈ l → slot_wf good slot v) →
  ∃ kept', foldM (retain_slot thr) (kept, inc, n) l
    = Ok (kept', push_all (below thr) l inc, (n + missed_total (below thr) l)%nat).
Proof.
  intros Ho. revert kept inc n. induction l as [|[slot [fecs t]] l IH]; intros kept inc n Hl.
  { exists kept. simpl. unfold missed_total. simpl. by rewrite Nat.add_0_r. }
  unfold missed_total, below. cbn [foldM retain_slot push_all fmap list_fmap fst snd foldr].
  case_decide as Hthr; simpl.
  - rewrite (bool_decide_eq_false_2 (slot < thr)) by lia.
    destruct (IH (<[slot:=(fecs, t)]> kept) inc n) as [kept' ->]; [|by eauto].
    intros; apply Hl; by right.
  - rewrite (bool_decide_eq_true_2 (slot < thr)) by lia.
    pose proof (slot_missed slot (fecs, t) inc n Ho (Hl _ _ ltac:(left))) as E. simpl in E.
    rewrite E. simpl.
    destruct (IH kept (push_missed slot (missed_of (fecs, t)) inc)
                (n + length (missed_of (fecs, t)))%nat) as [kept' ->].
    + intros; apply Hl; by right.
    + exists kept'. f_equal. f_equal. unfold missed_total, below. by rewrite Nat.add_assoc.
Qed.

Lemma push_all_lookup drop l inc slot :
  NoDup l.*1 → (∀ p, p ∈ l → inc !! p.1 = None) →
  push_all drop l inc !! slot
  = match (list_to_map l : gmap Z SlotState) !! slot with
    | Some v => if drop slot then match missed_of v with [] => None | l => Some l end else None
    | None => inc !! slot
    end.
Proof.
  revert inc. induction l as [|[k v] l IH]; intros inc Hnd Hl; [done|].
  simpl in Hnd. apply NoDup_cons in Hnd as [Hk Hnd]. simpl.
  assert (∀ p : Z * SlotState, p ∈ l → p.1 ≠ k) as Hne.
  { intros p Hp <-. apply Hk. by apply list_elem_of_fmap_2. }
  assert (inc !! k = None) as Hinc by (apply (Hl (k, v)); left).
  rewrite IH; [|done|].
  2:{ intros p Hp. destruct (drop k); [|apply Hl; by right]. unfold push_missed.
      destruct (missed_of v); [apply Hl; by right|].
      rewrite lookup_insert_ne by (by apply not_eq_sym, Hne). apply Hl. by right. }
  rewrite lookup_insert. case_decide as Heq.
  - subst. assert ((list_to_map l : gmap Z SlotState) !! slot = None) as ->
      by (by apply not_elem_of_list_to_map_1).
    destruct (drop slot); [|done]. unfold push_missed. rewrite Hinc. simpl.
    destruct (missed_of v); [done|]. by rewrite lookup_insert_eq.
  - destruct (list_to_map l !! slot); [done|]. destruct (drop k); [|done].
    unfold push_missed. destruct (missed_of v); [done|]. by rewrite lookup_insert_ne.
Qed.

Lemma push_all_missed drop (m : gmap Z SlotState) :
  push_all drop (map_to_list m) ∅ = missed_slots drop m.
Proof.
  apply map_eq. intros slot. rewrite push_all_lookup.
  - rewrite list_to_map_to_list. unfold missed_slots. rewrite map_lookup_imap.
    by destruct (m !! slot).
  - apply NoDup_fst_map_to_list.
  - intros. apply lookup_empty.
Qed.

Lemma missed_of_elem (v : SlotState) x :
  x ∈ missed_of v ↔ ∃ f set, v.1 !! f = Some set ∧ missed_set v.2 (f, set) = Some x.
Proof.
  unfold missed_of. rewrite list_elem_of_omap. split.
  - intros ([f set] & Hf%elem_of_map_to_list & Hx). eauto.
  - intros (f & set & Hf & Hx). exists (f, set). by rewrite elem_of_map_to_list.
Qed.

Lemma missed_slots_lookup drop (m : gmap Z SlotState) slot l :
  missed_slots drop m !! slot = Some l ↔
  ∃ v, m !! slot = Some v ∧ drop slot = true ∧ l = missed_of v ∧ l ≠ [].
Proof.
  unfold missed_slots. rewrite map_lookup_imap. destruct (m !! slot) as [v|]; simpl.
  2:{ split; [done|]. by intros (v & ? & _). }
  destruct (drop slot); [|split; [done|by intros (? & _ & ? & _)]]. split.
  - intros Hl. exists v. destruct (missed_of v); [done|]. by simplify_eq.
  - intros (v' & [= <-] & _ & -> & Hl). by destruct (missed_of v).
Qed.

Lemma missed_report_elem inc slot x :
  (∃ l, (slot, l) ∈ missed_report inc ∧ x ∈ l) ↔ ∃ l, inc !! slot = Some l ∧ x ∈ l.
Proof.
  unfold missed_report. setoid_rewrite sort_by_perm. setoid_rewrite list_elem_of_fmap. split.
  - intros (l & ([slot' l'] & ? & Hin%elem_of_map_to_list) & Hx). simplify_eq/=.
    exists l'. by rewrite sort_by_perm in Hx.
  - intros (l & Hl%elem_of_map_to_list & Hx). exists (sort_by missed_leb l).
    split; [by exists (slot, l)|]. by rewrite sort_by_perm.
Qed.

Lemma missed_report_sorted inc : StronglySorted Z.le (missed_report inc).*1.
Proof.
  unfold missed_report.
  set (l := (λ p : Z * list (Z * Z * nat), (p.1, sort_by missed_leb p.2)) <$> map_to_list inc).
  clearbody l. pose proof (sort_by_sorted (λ a b : Z * list (Z * Z * nat), a.1 <=? b.1)
    ltac:(intros x y; rewrite !Z.leb_le; lia) ltac:(intros x y z; rewrite !Z.leb_le; lia) l) as Hs.
  induction Hs as [|x l' Hl IH Hx]; simpl; constructor; [done|].
  apply Forall_fmap. eapply Forall_impl; [exact Hx|]. intros y Hy. by apply Z.leb_le.
Qed.
End missed.
