(* ===== verification/Toy.v ===== *)
(** A concrete instance of the interfaces, small enough to run.

    It shows that the laws the theorems assume can hold together, and lets the
    witnesses evaluate the definitions.  A packet is
    [kind; slot; fec_set_index; index; x; y; body...]; kind 0 is a data shred
    with flag [x] (1: data complete), kind 1 a code shred with [x] data and [y]
    code shreds in its set, whose body is one or more whole data packets (a
    replication code), so recovery decodes the bodies. *)

From Stdlib Require Import Strings.Byte.
From S2P Require Import Prelude Net Shreds Tracker FecSet Packets.

Record ToyHeader := mkToyHeader { h_slot : byte; h_fec : byte; h_index : byte }.
Record ToyData := mkToyData { d_header : ToyHeader; d_flag : byte; d_body : bytes }.
Record ToyCode := mkToyCode { c_header : ToyHeader; c_sizes : byte * byte; c_body : bytes }.

#[global] Instance ToyHeader_eq : EqDecision ToyHeader.
Proof. solve_decision. Defined.

Definition byteZ (b : byte) : Z := Z.of_N (Byte.to_N b).

#[global] Instance ToyTypes : ShredTypes := {|
  ShredCodeT := ToyCode;
  ShredDataT := ToyData;
  ShredCommonHeader := ToyHeader;
  CodingShredHeader := byte * byte;
  DataShredHeader := byte;
  LedgerShred := ToyCode + ToyData;
  ShredType := bool;
  Entry := byte;
|}.

Definition toy_header (s : Shred) : ToyHeader :=
  match s with ShredCode c => c_header c | ShredData d => d_header d end.

Definition toy_parse (b : bytes) : option (ToyCode + ToyData) :=
  match b with
  | x00 :: slot :: fec :: index :: flag :: _ :: body =>
      Some (inr (mkToyData (mkToyHeader slot fec index) flag body))
  | x01 :: slot :: fec :: index :: n :: m :: body =>
      Some (inl (mkToyCode (mkToyHeader slot fec index) (n, m) body))
  | _ => None
  end.

Definition toy_data_payload (d : ToyData) : bytes :=
  [x00; h_slot (d_header d); h_fec (d_header d); h_index (d_header d); d_flag d; x00]
  ++ d_body d.

Definition toy_payload (s : Shred) : bytes :=
  match s with
  | ShredCode c =>
      [x01; h_slot (c_header c); h_fec (c_header c); h_index (c_header c);
       (c_sizes c).1; (c_sizes c).2] ++ c_body c
  | ShredData d => toy_data_payload d
  end.

Definition toy_shred (b : bytes) : option Shred :=
  match toy_parse b with
  | Some (inl c) => Some (ShredCode c)
  | Some (inr d) => Some (ShredData d)
  | None => None
  end.

(** The data shred in a packet, if it has the slot and set of the code shred and
    an index below the room the tracker has. *)
Definition toy_recover_packet (c : ToyCode) (b : bytes) : option Shred :=
  match toy_shred b with
  | Some (ShredData d) =>
      if decide (h_slot (d_header d) = h_slot (c_header c)
                 ∧ h_fec (d_header d) = h_fec (c_header c)
                 ∧ byteZ (h_index (d_header d)) < 16)
      then Some (ShredData d) else None
  | _ => None
  end.

(** The packets of seven bytes in the body of a code shred. *)
Fixpoint toy_packets (fuel : nat) (b : bytes) : list bytes :=
  match fuel with
  | 0%nat => [b]
  | S fuel => if decide (length b ≤ 7)%nat then [b] else take 7 b :: toy_packets fuel (drop 7 b)
  end.

(** The shreds a code shred carries. *)
Definition toy_recover_one (s : Shred) : list (option Shred) :=
  match s with
  | ShredCode c => toy_recover_packet c <$> toy_packets (length (c_body c)) (c_body c)
  | ShredData _ => []
  end.

Definition toy_recover (l : list Shred) : option (list (option Shred)) :=
  match l with [] => None | _ => Some (l ≫= toy_recover_one) end.

(** Concatenates the bodies; a body that starts with [xff] does not deshred. *)
Fixpoint toy_deshred (l : list bytes) : option bytes :=
  match l with
  | [] => Some []
  | (_ :: _ :: _ :: _ :: _ :: _ :: body) :: l =>
      match body with
      | xff :: _ => None
      | _ => (λ r, body ++ r) <$> toy_deshred l
      end
  | _ => None
  end.

Definition toy_deserialize (b : bytes) : option (list byte) :=
  match b with xee :: _ => None | _ => Some b end.

#[global] Instance ToyLib : ShredLib := {|
  code_common_header := c_header;
  coding_header := c_sizes;
  code_payload c := toy_payload (ShredCode c);
  data_common_header := d_header;
  data_header := d_flag;
  num_data_shreds h := byteZ h.1;
  num_coding_shreds h := byteZ h.2;
  merkle_code_variant _ := Some (0%nat, false, false);
  shred_slot s := byteZ (h_slot (toy_header s));
  shred_index s := byteZ (h_index (toy_header s));
  shred_fec_set_index s := byteZ (h_fec (toy_header s));
  shred_type s := match s with ShredCode _ => false | ShredData _ => true end;
  payload := toy_payload;
  data_complete d := bool_decide (d_flag d = x01);
  last_in_slot d := bool_decide (d_flag d = x02);
  ShredType_Data := true;
  shred_type_as_u8 (t : bool) := if t then 165 else 90;
  new_from_serialized_shred := toy_parse;
  Shred_try_from r := Some (match r with inl c => ShredCode c | inr d => ShredData d end);
  recover := toy_recover;
  deshred := toy_deshred;
  layout_get_data b := Some (drop 6 b);
  bincode_deserialize := toy_deserialize;
  transactions_len _ := 1%nat;
  TraceShred_decode_is_ok b := match b with x07 :: _ => true | _ => false end;
  MAX_DATA_SHREDS_PER_SLOT := 16;
  MAX_PROCESSING_AGE := 2;
  SIZE_OF_PAYLOAD := 6;
  SIZE_OF_MERKLE_PROOF_ENTRY := 20;
  SIZE_OF_SIGNATURE := 64;
  hashset_iter l := l;
|}.

(** A packet is its bytes and a discard flag and a source address. *)
#[global] Instance ToyPackets : PacketLib := {|
  Packet := bytes * bool * IpAddr;
  packet_data p := if p.1.2 then None else Some p.1.1;
  packet_discard p := p.1.2;
  packet_addr p := p.2;
|}.

Definition toy_packet (b : bytes) : Packet := (b, false, V4 1).

(** The shreds the toy tracker has room for. *)
Definition toy_good (s : Shred) : Prop :=
  byteZ (h_index (toy_header s)) < 16 ∧ byteZ (h_fec (toy_header s)) < 16.

#[global] Instance toy_good_dec s : Decision (toy_good s).
Proof. unfold toy_good. apply _. Defined.

(** The release profile. *)
Definition release : BuildProfile := false.

Lemma byteZ_range b w : 8 ≤ w → in_width w (byteZ b).
Proof.
  intros Hw. unfold in_width, byteZ. pose proof (Byte.to_N_bounded b).
  assert (2 ^ 8 ≤ 2 ^ w) by (apply Z.pow_le_mono_r; lia). lia.
Qed.

#[global] Instance ToyLaws : ShredLibLaws.
Proof.
  split; intros; simpl; try (apply byteZ_range; lia); try done.
  by destruct s.
Qed.

#[global] Instance ToyPacketLaws : PacketLibLaws.
Proof. split. intros [[b []] a]; done. Qed.
