(* ===== verification/ToyRuns.v ===== *)
(** Runs of [reconstruct_shreds] on the concrete instance of [Toy], which the
    witnesses use. *)

From Stdlib Require Import Strings.Byte.
From S2P Require Import Prelude Net Metrics Shreds Tracker FecSet Packets Deshred DeshredInv.
From S2P Require Import Delivery Toy.

Section calls.
Context `{ShredLib} `{PacketLib} `{BuildProfile} `{!ShredLibLaws}.
Context (good : Shred → Prop) `{!GoodShreds good}.

Lemma call_wf batch st n st' :
  overflow_checks = false → recon_wf good st → batch_good good batch →
  reconstruct_shreds batch st = Ok (n, st') → recon_wf good st'.
Proof.
  intros Ho Hst Hb Hr. pose proof (reconstruct_shreds_returns good batch st Ho Hst Hb) as Hret.
  rewrite Hr in Hret. apply Hret.
Qed.

Lemma run_batches_two b1 b2 st n1 st1 n2 st2 :
  reconstruct_shreds b1 st = Ok (n1, st1) → reconstruct_shreds b2 st1 = Ok (n2, st2) →
  run_batches st [b1; b2] = Ok st2.
Proof. intros E1 E2. unfold run_batches. simpl. rewrite E1. simpl. by rewrite E2. Qed.
End calls.

(** * The concrete runs *)

#[global] Instance toy_good_shreds : GoodShreds toy_good.
Proof.
  split.
  - intros s [Hi Hf]. unfold in_bounds, idx, fec. simpl.
    pose proof (byteZ_range (h_index (toy_header s)) 8).
    pose proof (byteZ_range (h_fec (toy_header s)) 8). unfold in_width in *. lia.
  - intros [c|d] _; simpl; lia.
  - intros l l' s Hl Hr Hs.
    assert (l' = l ≫= toy_recover_one) as -> by (destruct l; [done|by injection Hr as <-]).
    apply list_elem_of_bind in Hs as (y & Hs & Hy). rewrite Forall_forall in Hl.
    destruct (Hl y Hy) as [_ Hf]. unfold toy_recover_one in Hs. destruct y as [c|d];
      [|by apply elem_of_nil in Hs].
    apply list_elem_of_fmap in Hs as (pk & Hs & _). unfold toy_recover_packet in Hs.
    destruct (toy_shred pk) as [[c'|d]|]; [done| |done]. case_decide as Hd; [|done]. simplify_eq.
    destruct Hd as (Hslot & Hfec & Hidx). simpl in *. split.
    + split; simpl; [done|]. by rewrite Hfec.
    + eexists. split; [exact Hy|]. simpl. by rewrite Hslot, Hfec.
Qed.

(** Slot 5, FEC set 0: data shred 0, and a code shred carrying data shred 1,
    which completes the segment. *)
Definition toy_d0 : bytes := [x00; x05; x00; x00; x00; x00; x0a].
Definition toy_d1 : bytes := [x00; x05; x00; x01; x01; x00; x0b].
Definition toy_c0 : bytes := [x01; x05; x00; x00; x02; x02] ++ toy_d1.
Definition toy_batch : PacketBatch := toy_packet <$> [toy_d0; toy_c0; toy_d0].
(** A segment of slot 5 whose start is not known, and one of slot 6. *)
Definition toy_batch2 : PacketBatch :=
  toy_packet <$> [[x00; x06; x00; x00; x02; x00; x0c]; [x00; x05; x04; x04; x01; x00; x0d];
                  [x09]; [x07]].

Definition toy_init : Recon := recon_init (ShredMetrics_new true).
Definition toy_result (o : outcome (nat * Recon)) : nat * Recon :=
  match o with Ok r => r | Panicked _ => (0%nat, toy_init) end.
#[local] Existing Instance release.
Definition toy_after1 : nat * Recon := toy_result (reconstruct_shreds toy_batch toy_init).
Definition toy_after2 : nat * Recon := toy_result (reconstruct_shreds toy_batch2 toy_after1.2).

Lemma toy_batch_good batch :
  forallb (λ p, match packet_data p ≫= parse_packet with
                | Some s => bool_decide (toy_good s) | None => true end) batch = true →
  batch_good toy_good batch.
Proof.
  intros Hb p b s Hp Hd Hs. rewrite forallb_forall in Hb.
  specialize (Hb p (proj1 (list_elem_of_In _ _) Hp)). rewrite Hd in Hb. simpl in Hb.
  rewrite Hs in Hb. by apply bool_decide_eq_true in Hb.
Qed.

Example toy_run :
  (toy_after1.1, deshredded_entries toy_after1.2, deshredded_entries toy_after2.2)
  = (1%nat, [(5, [x0a; x0b], [x0a; x0b])], [(5, [x0d], [x0d]); (6, [x0c], [x0c])]).
Proof. vm_compute. reflexivity. Qed.

Lemma release_checks : @overflow_checks release = false.
Proof. done. Qed.

Lemma toy_batches_good : Forall (batch_good toy_good) [toy_batch; toy_batch2].
Proof. constructor; [|constructor; [|done]]; apply toy_batch_good; vm_compute; reflexivity. Qed.

(** A call that returns, from the evaluation of a test. *)
Definition is_ok {A} (o : outcome A) : bool := match o with Ok _ => true | _ => false end.
Lemma toy_result_Ok o : is_ok o = true → o = Ok (toy_result o).
Proof. by destruct o. Qed.

Lemma toy_call1 : reconstruct_shreds toy_batch toy_init = Ok (toy_after1.1, toy_after1.2).
Proof. rewrite <-surjective_pairing. apply toy_result_Ok. vm_compute. reflexivity. Qed.
Lemma toy_call2 :
  reconstruct_shreds toy_batch2 toy_after1.2 = Ok (toy_after2.1, toy_after2.2).
Proof. rewrite <-surjective_pairing. apply toy_result_Ok. vm_compute. reflexivity. Qed.
Lemma toy_after1_wf : recon_wf toy_good toy_after1.2.
Proof.
  apply (call_wf toy_good toy_batch toy_init toy_after1.1);
    [apply release_checks|apply recon_init_wf| |apply toy_call1].
  apply toy_batch_good. vm_compute. reflexivity.
Qed.
Lemma toy_runs : run_batches toy_init [toy_batch; toy_batch2] = Ok toy_after2.2.
Proof. apply (run_batches_two _ _ _ _ _ _ _ toy_call1 toy_call2). Qed.
