(* ===== verification/ToyErasure.v ===== *)
(** A segment of two data shreds and its erasure-coded set, in the concrete
    instance of [Toy]: batches that carry all of it, or lack a data shred, or bring
    it bit by bit. *)

From Stdlib Require Import Strings.Byte.
From S2P Require Import Prelude Net Metrics Shreds Tracker FecSet Packets Deshred DeshredInv.
From S2P Require Import Delivery Complete Recovery Erasure Pending Prompt Toy ToyRuns.

(** Shreds 1 and 0 of slot 7 in reverse order, with a repeat, a code shred, a
    shred of another slot and garbage between them. *)
Definition toy_d70 : Shred := ShredData (mkToyData (mkToyHeader x07 x00 x00) x00 [x0a]).
Definition toy_d71 : Shred := ShredData (mkToyData (mkToyHeader x07 x00 x01) x01 [x0b]).
Definition toy_d7 : list Shred := [toy_d70; toy_d71].
Definition toy_batch3 : PacketBatch :=
  toy_packet <$> [[x00; x07; x00; x01; x01; x00; x0b]; [x09]; [x00; x06; x00; x00; x02; x00; x0c];
                  [x00; x07; x00; x01; x01; x00; x0b]; [x01; x07; x00; x00; x02; x02];
                  [x00; x07; x00; x00; x00; x00; x0a]].
Definition toy_e6 : Shred := ShredData (mkToyData (mkToyHeader x06 x00 x00) x02 [x0c]).
Definition toy_c7 : Shred := ShredCode (mkToyCode (mkToyHeader x07 x00 x00) (x02, x02) []).

Lemma toy_carries3 s : carries toy_batch3 s ↔ s ∈ [toy_d71; toy_e6; toy_d71; toy_c7; toy_d70].
Proof.
  assert (omap parse_packet (omap packet_data toy_batch3)
          = [toy_d71; toy_e6; toy_d71; toy_c7; toy_d70]) as <- by reflexivity.
  by rewrite list_elem_of_omap.
Qed.

Lemma toy_d7_run : segment_run toy_good 7 0 toy_d7.
Proof.
  split; [done|]. intros [|[|j]] d Hj; simpl in Hj; simplify_eq; eexists;
    (split_and!; [reflexivity..| |reflexivity]); split; reflexivity.
Qed.

(** Slot 7 again, with a code shred that carries both data shreds: data shred 0
    is lost. *)
Definition toy_c7b : Shred :=
  ShredCode (mkToyCode (mkToyHeader x07 x00 x00) (x02, x01)
    ([x00; x07; x00; x00; x00; x00; x0a] ++ [x00; x07; x00; x01; x01; x00; x0b])).
Definition toy_batch7 : PacketBatch :=
  toy_packet <$> [toy_payload toy_c7b; [x09]; [x00; x06; x00; x00; x02; x00; x0c];
                  toy_payload toy_d71; toy_payload toy_c7b].

Lemma toy_packets7 b s :
  b ∈ omap packet_data toy_batch7 → parse_packet b = Some s → s ∈ [toy_c7b; toy_e6; toy_d71].
Proof.
  intros Hb Hp. assert (s ∈ omap parse_packet (omap packet_data toy_batch7)) as Hs
    by (apply list_elem_of_omap; eauto).
  assert (omap parse_packet (omap packet_data toy_batch7)
          = [toy_c7b; toy_e6; toy_d71; toy_c7b]) as E by reflexivity.
  rewrite E in Hs. set_solver.
Qed.

Lemma toy_block7 : fec_block toy_good 7 1 toy_d7 [toy_c7b].
Proof.
  split.
  - apply toy_d7_run.
  - vm_compute. split; [discriminate|reflexivity].
  - intros x Hx. simpl in Hx. rewrite !elem_of_cons, elem_of_nil in Hx.
    by destruct Hx as [->|[->|[->|[]]]].
  - intros c ->%list_elem_of_singleton. by eexists.
  - intros x y Hx Hy. simpl in Hx, Hy. rewrite !elem_of_cons, elem_of_nil in Hx, Hy.
    destruct Hx as [->|[->|[->|[]]]], Hy as [->|[->|[->|[]]]]; done.
Qed.

(** Any two of the three shreds with a data shred missing include the code
    shred. *)
Lemma toy_erasure7 : erasure_code toy_d7 [toy_c7b].
Proof.
  intros l Hnd Hsub Hlen (d & Hd & Hmiss).
  assert (toy_c7b ∈ l) as Hc.
  { destruct (decide (existsb is_code l = true)) as [(c & Hc%list_elem_of_In & Hcode)%existsb_exists|Hno].
    - specialize (Hsub c Hc). simpl in Hsub. rewrite !elem_of_cons, elem_of_nil in Hsub.
      by destruct Hsub as [->|[->|[->|[]]]].
    - exfalso. assert (d :: l ⊆+ toy_d7) as Hs%submseteq_length; [|simpl in *; lia].
      apply NoDup_submseteq; [by constructor|]. intros x [->|Hx]%elem_of_cons; [done|].
      specialize (Hsub x Hx). apply elem_of_app in Hsub as [?| ->%list_elem_of_singleton]; [done|].
      destruct Hno. apply existsb_exists. exists toy_c7b. by rewrite <-list_elem_of_In. }
  exists (l ≫= toy_recover_one).
  assert (∀ x, x ∈ l → toy_recover_one x = if is_code x then [Some toy_d70; Some toy_d71] else []) as Hone.
  { intros x Hx%Hsub. simpl in Hx. rewrite !elem_of_cons, elem_of_nil in Hx.
    by destruct Hx as [->|[->|[->|[]]]]. }
  split_and!.
  - simpl. unfold toy_recover. by destruct l; [apply elem_of_nil in Hc|].
  - intros d' Hd' _. apply list_elem_of_bind. exists toy_c7b. rewrite (Hone _ Hc). simpl.
    unfold toy_d7 in Hd'. set_solver.
  - intros x (y & Hx & Hy)%list_elem_of_bind _. rewrite (Hone _ Hy) in Hx.
    unfold toy_d7. destruct (is_code y); set_solver.
Qed.

Lemma toy_arrives7 : set_arrives toy_good toy_init toy_batch7 7 toy_d7 [toy_c7b].
Proof.
  split; [apply toy_batch_good; vm_compute; reflexivity|by apply untracked_pending
    |vm_compute; discriminate|..].
  - intros s (b & Hb & Hp). pose proof (toy_packets7 b s Hb Hp) as Hs.
    rewrite !elem_of_cons, elem_of_nil in Hs. destruct Hs as [->|[->|[->|[]]]]; vm_compute; discriminate.
  - intros b s Hb Hp. pose proof (toy_packets7 b s Hb Hp) as Hs.
    rewrite !elem_of_cons, elem_of_nil in Hs. unfold toy_d7.
    destruct Hs as [->|[->|[->|[]]]]; try done; intros _; split; intros; try done; set_solver.
  - exists [toy_c7b; toy_d71]. split_and!; [|simpl; lia|].
    + apply NoDup_cons. split; [by intros ?%list_elem_of_singleton|apply NoDup_singleton].
    + intros x Hx. rewrite !elem_of_cons, elem_of_nil in Hx. unfold toy_d7. split; [set_solver|right].
      destruct Hx as [->|[->|[]]]; [exists (toy_payload toy_c7b)|exists (toy_payload toy_d71)];
        (split; [simpl; set_solver|reflexivity]).
Qed.

(** The code shred comes first, alone of its slot; data shred 1 completes the set
    in a later batch. *)
Definition toy_batch7a : PacketBatch :=
  toy_packet <$> [toy_payload toy_c7b; [x09]; [x00; x06; x00; x00; x02; x00; x0c];
                  toy_payload toy_c7b].
Definition toy_batch7b : PacketBatch := toy_packet <$> [[x09]; toy_payload toy_d71].

Lemma toy_carries7a s : carries toy_batch7a s → s ∈ [toy_c7b; toy_e6].
Proof.
  intros Hc. apply list_elem_of_omap in Hc.
  assert (omap parse_packet (omap packet_data toy_batch7a) = [toy_c7b; toy_e6; toy_c7b]) as E
    by reflexivity.
  rewrite E in Hc. set_solver.
Qed.

Lemma toy_carries7b s : carries toy_batch7b s → s = toy_d71.
Proof.
  intros Hc. apply list_elem_of_omap in Hc.
  assert (omap parse_packet (omap packet_data toy_batch7b) = [toy_d71]) as E by reflexivity.
  rewrite E in Hc. by apply list_elem_of_singleton.
Qed.

Lemma toy_carried7 s : carried ([toy_batch7a] ++ [toy_batch7b]) s → s ∈ [toy_c7b; toy_e6; toy_d71].
Proof.
  intros [Hc|Hc]%carried_snoc; [|apply toy_carries7b in Hc; set_solver].
  destruct Hc as (b & ->%list_elem_of_singleton & Hc%toy_carries7a). set_solver.
Qed.

(** Of the set, the first batch carries the code shred only. *)
Lemma toy_first7 x : x ∈ toy_d7 ++ [toy_c7b] → carried [toy_batch7a] x → x ∈ [toy_c7b].
Proof.
  intros Hx (b & ->%list_elem_of_singleton & Hc%toy_carries7a).
  simpl in Hx. rewrite !elem_of_cons, elem_of_nil in Hx. rewrite !elem_of_cons, elem_of_nil in Hc.
  destruct Hc as [->|[->|[]]]; [set_solver|]. by destruct Hx as [?|[?|[?|[]]]].
Qed.

Lemma toy_arrives_over7 :
  set_arrives_over toy_good toy_init [toy_batch7a] toy_batch7b 7 toy_d7 [toy_c7b].
Proof.
  split.
  - intros b Hb. simpl in Hb. rewrite !elem_of_cons, elem_of_nil in Hb.
    destruct Hb as [->|[->|[]]]; apply toy_batch_good; vm_compute; reflexivity.
  - reflexivity.
  - vm_compute. discriminate.
  - intros s Hs%toy_carried7. rewrite !elem_of_cons, elem_of_nil in Hs.
    destruct Hs as [->|[->|[->|[]]]]; vm_compute; discriminate.
  - intros b ->%list_elem_of_singleton s Hc%toy_carries7a Hs.
    rewrite !elem_of_cons, elem_of_nil in Hc. unfold toy_d7.
    destruct Hc as [->|[->|[]]]; [set_solver|done].
  - intros b s Hb Hp Hs. assert (s = toy_d71) as -> by (apply toy_carries7b; by exists b).
    unfold toy_d7. split; intros; set_solver.
  - intros l Hnd Hl. assert (l ⊆+ [toy_c7b]) as Hsub%submseteq_length; [|simpl in *; lia].
    apply NoDup_submseteq; [done|]. intros x Hx. destruct (Hl x Hx). by apply toy_first7.
  - exists [toy_c7b; toy_d71]. split_and!; [|simpl; lia|].
    + apply NoDup_cons. split; [by intros ?%list_elem_of_singleton|apply NoDup_singleton].
    + intros x Hx. rewrite !elem_of_cons, elem_of_nil in Hx. unfold toy_d7. split; [set_solver|].
      apply carried_snoc. destruct Hx as [->|[->|[]]]; [left; exists toy_batch7a; split; [by left|]|right].
      * exists (toy_payload toy_c7b). split; [simpl; set_solver|reflexivity].
      * exists (toy_payload toy_d71). split; [simpl; set_solver|reflexivity].
Qed.

(** A leader that made the shreds above and no others: every index completes a
    segment but index 0 of slot 7. *)
Definition toy_made : list Shred := toy_d7 ++ [toy_c7b; toy_e6].
Definition toy_leader (s : Shred) : Prop := s ∈ toy_made.
Definition toy_complete_at (slot : Z) (i : nat) : bool :=
  negb (bool_decide (slot = 7 ∧ i = 0%nat)).

Lemma toy_made_cases s : toy_leader s ↔ s = toy_d70 ∨ s = toy_d71 ∨ s = toy_c7b ∨ s = toy_e6.
Proof.
  unfold toy_leader, toy_made, toy_d7. simpl. rewrite !elem_of_cons, elem_of_nil. tauto.
Qed.

#[global] Instance toy_leader_shreds : GoodShreds toy_leader.
Proof.
  assert (∀ s, toy_leader s → toy_good s) as Hgood.
  { intros s Hs%toy_made_cases. by destruct Hs as [->|[->|[->| ->]]]. }
  split.
  - intros s Hs%Hgood. by apply good_in_bounds.
  - intros s Hs%Hgood. by apply good_payload_ok.
  - intros l l' s Hl Hr Hs.
    assert (l' = l ≫= toy_recover_one) as -> by (destruct l; [done|by injection Hr as <-]).
    apply list_elem_of_bind in Hs as (y & Hs & Hy). rewrite Forall_forall in Hl.
    pose proof (Hl y Hy) as Hm. apply toy_made_cases in Hm.
    destruct Hm as [->|[->|[->| ->]]]; [by apply elem_of_nil in Hs..| |by apply elem_of_nil in Hs].
    assert (toy_recover_one toy_c7b = [Some toy_d70; Some toy_d71]) as E by reflexivity.
    rewrite E, !elem_of_cons, elem_of_nil in Hs.
    split; [apply toy_made_cases; naive_solver|]. exists toy_c7b. split; [done|].
    by destruct Hs as [[= ->]|[[= ->]|[]]].
Qed.

Lemma toy_layout : leader_layout toy_leader toy_complete_at.
Proof.
  assert (∀ x, toy_leader (ShredData x) →
    ShredData x = toy_d70 ∨ ShredData x = toy_d71 ∨ ShredData x = toy_e6) as Hdata
    by (intros x Hx%toy_made_cases; naive_solver).
  split.
  - intros s s' Hs%toy_made_cases Hs'%toy_made_cases.
    destruct Hs as [->|[->|[->| ->]]], Hs' as [->|[->|[->| ->]]]; done.
  - intros x Hx%Hdata. by destruct Hx as [[= ->]|[[= ->]|[= ->]]].
  - intros x j Hx%Hdata [_ Hj]. destruct Hx as [[= ->]|[[= ->]|[= ->]]].
    + change (j < 0)%nat in Hj. lia.
    + change (j < 1)%nat in Hj. by replace j with 0%nat by lia.
    + change (j < 0)%nat in Hj. lia.
  - intros x Hx%Hdata. destruct Hx as [[= ->]|[[= ->]|[= ->]]]; vm_compute; lia.
Qed.

Lemma toy_leader_batch b : (∀ s, carries b s → toy_leader s) → batch_good toy_leader b.
Proof.
  intros Hc p d s Hp Hd Hs. apply Hc. exists d. split; [|done]. apply list_elem_of_omap. eauto.
Qed.

Lemma toy_leader_batches : batch_good toy_leader toy_batch7a ∧ batch_good toy_leader toy_batch7b.
Proof.
  split; apply toy_leader_batch; intros s; rewrite toy_made_cases.
  - intros Hs%toy_carries7a. rewrite !elem_of_cons, elem_of_nil in Hs. tauto.
  - intros Hs%toy_carries7b. tauto.
Qed.
