(* ===== verification/TrackerRefinement.v ===== *)
(** The four vectors of a [ShredsStateTracker] refine an abstract view of a slot:
    a finite map of the data shreds that are known, the set of recovered FEC sets
    and the set of delivered indexes.  Every operation the reconstructor performs
    on a tracker is a step of the abstract view with the same answer. *)

From Stdlib Require Import Strings.Byte.
From S2P Require Import Prelude Shreds Tracker FecSet Toy.

(** * The abstract view *)

Record SlotView `{ShredTypes} := mkSlotView {
  known : gmap nat Shred;
  recovered : gset nat;
  delivered_at : gset nat;
}.
Arguments mkSlotView {_} _ _ _.

Section refinement.
Context `{ShredLib}.

Inductive TrackerOp :=
  | OpUpdate (s : Shred)          (** [update_state_tracker] *)
  | OpRecovered (f : nat)         (** a FEC set has been recovered *)
  | OpSearch (i : nat)            (** [get_indexes] *)
  | OpDelivered (s : Shred).      (** a shred has been delivered *)

Inductive TrackerAnswer :=
  | AnsIndex (o : option nat)
  | AnsSegment (o : option (nat * nat * bool))
  | AnsDone.

Definition view_empty : SlotView := mkSlotView ∅ ∅ ∅.

(** Whether the shred is news: its set is not recovered, and it is not known. *)
Definition is_news (v : SlotView) (s : Shred) : Prop :=
  (fec s ∉ recovered v) ∧ (is_data s = true → known v !! idx s = None).
#[global] Instance is_news_dec v s : Decision (is_news v s).
Proof. unfold is_news. apply _. Defined.

(** Shred [i] is known and completes a segment, or does not. *)
Definition known_as (v : SlotView) (i : nat) (complete : bool) : Prop :=
  ∃ d, known v !! i = Some (ShredData d) ∧ completes d = complete.

Record view_segment (v : SlotView) (i s e : nat) (u : bool) : Prop := {
  vseg_contains : (s ≤ i ≤ e)%nat;
  vseg_end : known_as v e true;
  vseg_middle j : (s ≤ j < e)%nat → known_as v j false;
  vseg_fresh j : (s ≤ j ≤ e)%nat → j ∉ delivered_at v;
  vseg_start :
    match s with
    | O => u = false
    | S p => if u then known v !! p = None else known_as v p true
    end;
}.

Definition view_next (v : SlotView) (op : TrackerOp) : SlotView :=
  match op with
  | OpUpdate s =>
      if decide (is_news v s ∧ is_data s = true)
      then mkSlotView (<[idx s := s]> (known v)) (recovered v) (delivered_at v) else v
  | OpRecovered f => mkSlotView (known v) ({[f]} ∪ recovered v) (delivered_at v)
  | OpSearch _ => v
  | OpDelivered s =>
      mkSlotView (known v) ({[fec s]} ∪ recovered v) ({[idx s]} ∪ delivered_at v)
  end.

Definition view_answers (v : SlotView) (op : TrackerOp) (a : TrackerAnswer) : Prop :=
  match op, a with
  | OpUpdate s, AnsIndex o => o = if decide (is_news v s) then Some (idx s) else None
  | OpSearch i, AnsSegment o => ∀ s e u, o = Some (s, e, u) ↔ view_segment v i s e u
  | OpRecovered _, AnsDone | OpDelivered _, AnsDone => True
  | _, _ => False
  end.

(** What an operation asks for: room for the indexes, and that only known shreds
    are delivered. *)
Definition op_ok (v : SlotView) (op : TrackerOp) : Prop :=
  match op with
  | OpUpdate s => in_bounds s
  | OpRecovered f => (f < MAX_DATA_SHREDS_PER_SLOT)%nat
  | OpSearch _ => True
  | OpDelivered s => in_bounds s ∧ known v !! idx s = Some s
  end.

(** * The operations on the tracker *)

Definition tracker_op (t : ShredsStateTracker) (op : TrackerOp) :
    outcome (TrackerAnswer * ShredsStateTracker) :=
  match op with
  | OpUpdate s => '(o, t) ← update_state_tracker s t; Ok (AnsIndex o, t)
  | OpRecovered f => t ← set_recovered f t; Ok (AnsDone, t)
  | OpSearch i => o ← get_indexes t i; Ok (AnsSegment o, t)
  | OpDelivered s => t ← mark_deshredded t (Some s); Ok (AnsDone, t)
  end.

Fixpoint tracker_run (t : ShredsStateTracker) (ops : list TrackerOp) :
    outcome (list TrackerAnswer * ShredsStateTracker) :=
  match ops with
  | [] => Ok ([], t)
  | op :: ops =>
      '(a, t) ← tracker_op t op; '(l, t) ← tracker_run t ops; Ok (a :: l, t)
  end.

Fixpoint view_run (v : SlotView) (ops : list TrackerOp) (l : list TrackerAnswer) : Prop :=
  match ops, l with
  | [], [] => True
  | op :: ops, a :: l => view_answers v op a ∧ view_run (view_next v op) ops l
  | _, _ => False
  end.
Fixpoint ops_ok (v : SlotView) (ops : list TrackerOp) : Prop :=
  match ops with
  | [] => True
  | op :: ops => op_ok v op ∧ ops_ok (view_next v op) ops
  end.
Definition view_after (v : SlotView) (ops : list TrackerOp) : SlotView := foldl view_next v ops.

(** * The simulation *)

(** The tracker represents the view. *)
Record represents (t : ShredsStateTracker) (v : SlotView) : Prop := {
  rep_wf : tracker_wf t;
  rep_known i s : known v !! i = Some s ↔ data_shreds t !! i = Some (Some s);
  rep_recovered i : i ∈ recovered v ↔ already_recovered_fec_sets t !! i = Some true;
  rep_delivered i : i ∈ delivered_at v ↔ already_deshredded t !! i = Some true;
}.

Lemma represents_default : represents tracker_default view_empty.
Proof.
  split; [apply default_wf|..]; intros; simpl.
  - rewrite lookup_empty. split; [done|]. by intros [? _]%lookup_replicate.
  - split; [set_solver|]. by intros [? _]%lookup_replicate.
  - split; [set_solver|]. by intros [? _]%lookup_replicate.
Qed.

Lemma represents_status t v i :
  represents t v → (i < MAX_DATA_SHREDS_PER_SLOT)%nat →
  (known v !! i = None ↔ data_status t !! i = Some Unknown) ∧
  ∀ c, known_as v i c ↔ data_status t !! i = Some (if c then DataComplete else NotDataComplete).
Proof.
  intros [Hwf Hk _ _] Hi. unfold known_as.
  destruct (lookup_lt_is_Some_2 (data_shreds t) i) as [o Ho]; [by rewrite wf_len_shreds|].
  rewrite (wf_status _ Hwf _ _ Ho). destruct o as [s|].
  - destruct (wf_shreds _ Hwf _ _ Ho) as [[d ->] _]. apply Hk in Ho. rewrite Ho. simpl.
    split; [by destruct (completes d)|]. intros c.
    split; [by intros (? & [= <-] & ->)|intros E; exists d; split; [done|]].
    by destruct (completes d), c.
  - assert (known v !! i = None) as ->.
    { destruct (known v !! i) eqn:E; [|done]. apply Hk in E. by simplify_eq. }
    split; [done|]. intros c. split; [by intros (? & ? & _)|by destruct c].
Qed.

Lemma represents_fresh t v i :
  represents t v → (i < MAX_DATA_SHREDS_PER_SLOT)%nat →
  i ∉ delivered_at v ↔ already_deshredded t !! i = Some false.
Proof.
  intros [Hwf _ _ Hd] Hi. rewrite Hd.
  destruct (lookup_lt_is_Some_2 (already_deshredded t) i) as [b ->];
    [by rewrite wf_len_deshredded|]. destruct b; naive_solver.
Qed.

Lemma represents_segment t v i s e u :
  represents t v → is_segment t i s e u ↔ view_segment v i s e u.
Proof.
  intros Hrep. pose proof (rep_wf _ _ Hrep) as Hwf.
  assert (∀ j st, data_status t !! j = Some st → (j < MAX_DATA_SHREDS_PER_SLOT)%nat) as Hlt.
  { intros j st Hj%lookup_lt_Some. by rewrite wf_len_status in Hj. }
  assert (∀ j c, known_as v j c → (j < MAX_DATA_SHREDS_PER_SLOT)%nat) as Hlt'.
  { intros j c (d & Hd%(rep_known _ _ Hrep)%lookup_lt_Some & _). by rewrite wf_len_shreds in Hd. }
  assert (∀ j c, known_as v j c ↔
    data_status t !! j = Some (if c then DataComplete else NotDataComplete)) as Hs.
  { intros j c. split.
    - intros Hj. by apply (represents_status t v j Hrep); [eapply Hlt'|].
    - intros Hj. by apply (represents_status t v j Hrep); [eapply Hlt|]. }
  split.
  - intros [Hc He Hm Hf Hst]. pose proof (Hlt _ _ He) as Hle. split; [done|..].
    + by apply Hs.
    + intros j Hj. by apply Hs, Hm.
    + intros j Hj. apply (represents_fresh t); [done|lia|by apply Hf].
    + destruct s as [|p]; [done|]. destruct u; [|by apply Hs].
      by apply (represents_status t v p Hrep); [lia|].
  - intros [Hc He Hm Hf Hst]. pose proof (Hlt' _ _ He) as Hle. split; [done|..].
    + by apply Hs in He.
    + intros j Hj. by apply Hm, Hs in Hj.
    + intros j Hj. apply (represents_fresh _ v); [done|lia|by apply Hf].
    + destruct s as [|p]; [done|]. destruct u; [|by apply Hs in Hst].
      by apply (represents_status t v p Hrep); [lia|].
Qed.

Lemma insert_true_iff (l : list bool) i j :
  (i < length l)%nat → <[i:=true]> l !! j = Some true ↔ j = i ∨ l !! j = Some true.
Proof.
  intros Hi. rewrite list_lookup_insert. case_decide as Hd.
  - destruct Hd as [-> _]. tauto.
  - split; [auto|]. intros [->|]; [by destruct Hd|done].
Qed.

Context `{!ShredLibLaws}.

Lemma simulate_update t v s :
  represents t v → in_bounds s →
  ∃ a t', tracker_op t (OpUpdate s) = Ok (a, t') ∧ view_answers v (OpUpdate s) a ∧
    represents t' (view_next v (OpUpdate s)).
Proof.
  intros Hrep Hb. pose proof (rep_wf _ _ Hrep) as Hwf.
  destruct (update_state_tracker_returns s t Hwf Hb) as [[o t'] Hu]. simpl. rewrite Hu. simpl.
  exists (AnsIndex o), t'. split; [done|].
  pose proof (update_state_tracker_cases _ _ _ Hwf Hu) as Hc.
  destruct Hrep as [_ Hk Hr Hd]. unfold is_news.
  inversion Hc as [Hrec|d Hs (s' & Hs')|d Hs Hrec Hnone|c Hs Hrec]; subst.
  - apply Hr in Hrec. rewrite !decide_False by tauto. split; [done|]. by split.
  - apply Hk in Hs'. rewrite !decide_False; [|naive_solver..]. split; [done|]. by split.
  - assert (fec (ShredData d) ∉ recovered v) as Hn by (rewrite Hr; congruence).
    assert (known v !! idx (ShredData d) = None) as Hn'.
    { destruct (known v !! idx (ShredData d)) eqn:E; [|done]. apply Hk in E. congruence. }
    rewrite !decide_True by done. split; [done|]. split; simpl; [by apply store_shred_wf| |done..].
    intros i x. rewrite lookup_insert, list_lookup_insert.
    pose proof (lookup_lt_Some _ _ _ Hnone) as Hlt.
    destruct (decide (idx (ShredData d) = i)) as [<-|Hne].
    + rewrite decide_True by done. split; congruence.
    + rewrite decide_False by tauto. apply Hk.
  - assert (fec (ShredCode c) ∉ recovered v) as Hn by (rewrite Hr; congruence).
    rewrite decide_True by done. rewrite decide_False by (by intros [_ ?]). split; [done|].
    by split.
Qed.

Lemma simulate_op t v op :
  represents t v → op_ok v op →
  ∃ a t', tracker_op t op = Ok (a, t') ∧ view_answers v op a ∧ represents t' (view_next v op).
Proof.
  intros Hrep Hop. pose proof (rep_wf _ _ Hrep) as Hwf.
  destruct op as [s|f|i|s]; [by apply simulate_update|..].
  - destruct (set_recovered f t) as [t'|] eqn:E.
    2: { exfalso. assert (∃ t', set_recovered f t = Ok t') as [t' ?]; [|congruence].
         eexists. apply set_recovered_Ok. split; [|done]. by rewrite wf_len_recovered. }
    pose proof (set_recovered_wf _ _ _ Hwf E) as Hwf'. apply set_recovered_Ok in E as E'.
    destruct E' as [Hlt ->]. simpl. rewrite E. simpl. eexists _, _. split_and!; [done..|].
    destruct Hrep as [_ Hk Hr Hd]. split; simpl; try done.
    intros j. rewrite insert_true_iff by done. set_solver.
  - destruct (get_indexes_total t i (wf_same_len t Hwf)) as [r Hr].
    simpl. rewrite Hr. simpl. eexists _, _. split_and!; [done| |done].
    intros s e u. rewrite <-(represents_segment t) by done. split.
    + intros ->. apply get_indexes_segment; [by apply wf_same_len|done].
    + intros Hs%segment_get_indexes; [|by apply wf_same_len]. congruence.
  - destruct Hop as [[Hi Hf] Hkn]. destruct (mark_deshredded t (Some s)) as [t'|] eqn:E.
    2: { exfalso. assert (∃ t', mark_deshredded t (Some s) = Ok t') as [t' ?]; [|congruence].
         eexists. apply mark_deshredded_Ok.
         by rewrite wf_len_recovered, wf_len_deshredded by done. }
    assert (tracker_wf t') as Hwf'.
    { eapply mark_deshredded_wf; [done| |done]. intros ? [= <-]. by apply (rep_known _ _ Hrep). }
    apply mark_deshredded_Ok in E as E'. destruct E' as (Hl1 & Hl2 & ->).
    unfold tracker_op. rewrite E. eexists _, _. split_and!; [done..|].
    destruct Hrep as [_ Hk Hr Hd]. split; simpl; try done.
    + intros j. rewrite insert_true_iff by done. set_solver.
    + intros j. rewrite insert_true_iff by done. set_solver.
Qed.

(** C20: refinement: starting from an empty tracker, any sequence of operations
    whose indexes have room and that delivers only known shreds runs without a
    panic and gives exactly the answers of the abstract slot (a finite map of
    known data shreds and two sets), and the four vectors represent that slot
    afterwards. *)
Theorem tracker_refines_view ops :
  ops_ok view_empty ops →
  ∃ answers t, tracker_run tracker_default ops = Ok (answers, t) ∧
    view_run view_empty ops answers ∧ represents t (view_after view_empty ops).
Proof.
  generalize represents_default. generalize tracker_default, view_empty.
  induction ops as [|op ops IH]; intros t v Hrep Hok; [by eexists [], t|].
  destruct Hok as [Hop Hok]. destruct (simulate_op t v op Hrep Hop) as (a & t1 & E & Ha & Hrep1).
  destruct (IH _ _ Hrep1 Hok) as (l & t2 & E2 & Hl & Hrep2).
  exists (a :: l), t2. cbn [tracker_run]. rewrite E. simpl. rewrite E2. by split_and!.
Qed.
End refinement.

(** * Witness *)

(** Data shreds 0 and 1 of FEC set 0, of which shred 1 completes the segment. *)
Definition view_shred (i flag v : byte) : Shred :=
  ShredData (mkToyData (mkToyHeader x05 x00 i) flag [v]).
Definition toy_ops : list TrackerOp :=
  [OpUpdate (view_shred x01 x01 x0b); OpSearch 0; OpUpdate (view_shred x00 x00 x0a); OpSearch 0;
   OpDelivered (view_shred x00 x00 x0a); OpDelivered (view_shred x01 x01 x0b); OpSearch 0;
   OpUpdate (view_shred x02 x00 x0c)].

Example toy_answers :
  match tracker_run tracker_default toy_ops with
  | Ok (l, _) =>
      l = [AnsIndex (Some 1%nat); AnsSegment None; AnsIndex (Some 0%nat);
           AnsSegment (Some (0%nat, 1%nat, false)); AnsDone; AnsDone; AnsSegment None;
           AnsIndex None]
  | Panicked _ => False
  end.
Proof. vm_compute. reflexivity. Qed.

Lemma tracker_refines_view_witness :
  ∃ answers t, tracker_run tracker_default toy_ops = Ok (answers, t) ∧
    view_run view_empty toy_ops answers ∧ represents t (view_after view_empty toy_ops).
Proof.
  apply (tracker_refines_view toy_ops). unfold toy_ops. cbn [ops_ok op_ok]. unfold in_bounds.
  repeat split; vm_compute; try reflexivity; lia.
Defined.
