(* ===== verification/ShredTheorems.v ===== *)
(** The properties of the parts of proxy/src/deshred.rs that one call to
    [reconstruct_shreds] is built from: the tracker of a slot, the FEC sets and
    the equality of shreds, each with a concrete run. *)

From Stdlib Require Import Strings.Byte.
From S2P Require Import Prelude Shreds Tracker FecSet Toy.

(** * Concrete shreds *)

Definition toy_data (f i flag v : byte) : Shred :=
  ShredData (mkToyData (mkToyHeader x05 f i) flag [v]).
Definition toy_code (f i n m : byte) : Shred :=
  ShredCode (mkToyCode (mkToyHeader x05 f i) (n, m) []).

(** Data shreds 0, 1 and 2 of the slot, of which shred 1 completes a segment. *)
Definition toy_tracker : ShredsStateTracker := {|
  data_status := [NotDataComplete; DataComplete; NotDataComplete] ++ replicate 13 Unknown;
  data_shreds := [Some (toy_data x00 x00 x00 x0a); Some (toy_data x00 x01 x01 x0b);
                  Some (toy_data x02 x02 x00 x0c)] ++ replicate 13 None;
  already_recovered_fec_sets := replicate 16 false;
  already_deshredded := replicate 16 false;
|}.

Lemma toy_tracker_wf : tracker_wf toy_tracker.
Proof.
  split; try done.
  - intros [|[|[|i]]] s Hs; simpl in Hs; simplify_eq; [by eauto..|].
    by apply (lookup_replicate 13 None) in Hs as [? _].
  - intros [|[|[|i]]] o Ho; simpl in Ho; simplify_eq; [done..|].
    apply (lookup_replicate 13 None) in Ho as [-> Hi]. by apply (lookup_replicate_2 13 Unknown i).
  - intros i Hi. by apply lookup_replicate in Hi as [? _].
Qed.

(** * The properties *)

Section parts.
Context `{ShredLib} `{BuildProfile} `{!ShredLibLaws}.

(** C19: [get_indexes] terminates without a panic and is exactly the search its
    doc comment describes: it returns (start, end, unknown start) if and only
    if that range is a segment around the index, none of it deshredded. *)
Theorem get_indexes_spec (t : ShredsStateTracker) index :
  same_len t →
  ∃ r, get_indexes t index = Ok r ∧
       ∀ s e u, r = Some (s, e, u) ↔ is_segment t index s e u.
Proof.
  intros Hl. destruct (get_indexes_total t index Hl) as [r Hr]. exists r. split; [done|].
  intros s e u. split.
  - intros ->. by apply get_indexes_segment.
  - intros Hs%segment_get_indexes; [|done]. congruence.
Qed.

(** [update_state_tracker] on a shred within bounds returns, keeps the
    tracker well formed and forgets nothing; it answers [None] exactly when the
    FEC set is already recovered or the data shred already stored, and
    otherwise the index, having stored a data shred at its index and nothing
    else. *)
Theorem update_state_tracker_spec s (t : ShredsStateTracker) :
  tracker_wf t → in_bounds s →
  ∃ o t', update_state_tracker s t = Ok (o, t') ∧ tracker_wf t' ∧ tracker_le t t' ∧
    (o = None ∨ o = Some (idx s)) ∧
    (o = None ↔ already_recovered_fec_sets t !! fec s = Some true ∨
                is_data s = true ∧ ∃ s', data_shreds t !! idx s = Some (Some s')) ∧
    already_recovered_fec_sets t' = already_recovered_fec_sets t ∧
    already_deshredded t' = already_deshredded t ∧
    data_shreds t' = if decide (o ≠ None ∧ is_data s = true)
                     then <[idx s := Some s]> (data_shreds t) else data_shreds t.
Proof.
  intros Ht Hb. destruct (update_state_tracker_returns s t Ht Hb) as [[o t'] Hu].
  exists o, t'. split; [done|].
  split; [by eapply update_state_tracker_wf|]. split; [by eapply update_state_tracker_le|].
  pose proof (update_state_tracker_cases _ _ _ Ht Hu) as Hr.
  inversion Hr; subst; case_decide as Hd; try (exfalso; naive_solver); simpl;
    naive_solver congruence.
Qed.

(** A data shred is noted once: after it has been accepted, the same shred
    is answered with [None] and changes nothing; a code shred is answered with
    its index every time. *)
Theorem update_state_tracker_twice s (t t' : ShredsStateTracker) i :
  tracker_wf t → update_state_tracker s t = Ok (Some i, t') →
  update_state_tracker s t' = Ok (if is_data s then None else Some i, t').
Proof.
  intros Ht Hu. pose proof (update_state_tracker_cases _ _ _ Ht Hu) as Hr.
  inversion Hr as [| |d ? Hrec Hnone|]; subst; [|done].
  unfold update_state_tracker. simpl. unfold fec in *.
  rewrite (vec_get_lookup _ _ _ Hrec). simpl.
  rewrite decide_True by apply shred_type_data.
  rewrite (vec_get_lookup _ _ (Some (ShredData d)));
    [done|apply list_lookup_insert_eq; by eapply lookup_lt_Some].
Qed.

(** C15: on a FEC set whose code shreds agree on their two sizes, the number of data
    shreds not being 0, and whose shreds flagged as last agree on the size that
    follows from their index, [get_data_shred_info] returns, and its answer does not depend on
    the order the [HashSet] is visited in: the expected sizes are those of the code
    shreds if there is one, else the data size is the one of the shred flagged as
    last (0 if there is none), and the two counts are those of the set, as 16-bit
    numbers. *)
Theorem get_data_shred_info_spec n m k shreds :
  overflow_checks = false → coherent n m k shreds →
  get_data_shred_info shreds
  = Ok (if existsb is_code shreds then n else if existsb is_last shreds then k else 0,
        if existsb is_code shreds then m else 0,
        wrap 16 (count is_data shreds), wrap 16 (count is_code shreds)).
Proof.
  intros Ho Hc. by rewrite (info_of_coherent n m k).
Qed.

(** [merkle::recover] is handed every shred of the set once, all data
    shreds before all code shreds and each kind by index. *)
Lemma merkle_shreds_order shreds :
  merkle_shreds shreds ≡ₚ shreds ∧
  merkle_shreds shreds
    = List.filter is_data (merkle_shreds shreds) ++ List.filter is_code (merkle_shreds shreds) ∧
  ∀ i j a b, (i < j)%nat → merkle_shreds shreds !! i = Some a →
    merkle_shreds shreds !! j = Some b → shred_type a = shred_type b →
    shred_index a ≤ shred_index b.
Proof.
  split; [apply merkle_shreds_perm|]. split; [apply sorted_partition, merkle_shreds_sorted|].
  intros i j a b Hij Ha Hb Hab.
  pose proof (merkle_shreds_sorted shreds) as Hs.
  pose proof (StronglySorted_lookup _ _ _ _ _ _ Hs Ha Hb Hij) as Hle.
  unfold pair_leb, sort_key in Hle. simpl in Hle. rewrite Hab, Z.ltb_irrefl, Z.eqb_refl in Hle.
  by apply Z.leb_le.
Qed.

(** C39: [eq] on shreds is a partial equivalence that [Hash] respects, so equal
    shreds cannot both be in a set; it never panics on payloads of full length
    and is reflexive on the shreds it can compare. *)
Theorem ComparableShred_lawful s1 s2 s3 :
  payload_ok s1 → payload_ok s2 →
  (∃ b, ComparableShred_eq s1 s2 = Ok b) ∧
  (comparable s1 → ComparableShred_eq s1 s1 = Ok true) ∧
  (ComparableShred_eq s1 s2 = Ok true →
   ComparableShred_hash s1 = ComparableShred_hash s2 ∧ ComparableShred_eq s2 s1 = Ok true ∧
   (ComparableShred_eq s2 s3 = Ok true → ComparableShred_eq s1 s3 = Ok true)).
Proof.
  intros H1' H2'. split; [by apply ComparableShred_eq_returns|].
  split; [by apply ComparableShred_eq_refl|].
  intros He. split; [by apply ComparableShred_eq_hash|].
  split; [by apply ComparableShred_eq_sym|]. by apply ComparableShred_eq_trans.
Qed.
End parts.

(** * Witnesses *)

#[local] Existing Instance release.

Lemma get_indexes_spec_witness :
  get_indexes toy_tracker 0 = Ok (Some (0%nat, 1%nat, false)) ∧
  ∃ r, get_indexes toy_tracker 0 = Ok r ∧
       ∀ s e u, r = Some (s, e, u) ↔ is_segment toy_tracker 0 s e u.
Proof. split; [reflexivity|]. apply (get_indexes_spec toy_tracker 0). reflexivity. Defined.

Lemma update_state_tracker_spec_witness :
  ∃ o t', update_state_tracker (toy_data x02 x03 x01 x0d) toy_tracker = Ok (o, t') ∧
          tracker_wf t' ∧ tracker_le toy_tracker t'.
Proof.
  destruct (update_state_tracker_spec (toy_data x02 x03 x01 x0d) toy_tracker)
    as (o & t' & ? & ? & ? & _).
  - apply toy_tracker_wf.
  - unfold in_bounds, idx, fec. simpl. unfold byteZ. simpl. lia.
  - by exists o, t'.
Defined.

Lemma update_state_tracker_twice_witness :
  update_state_tracker (toy_code x02 x03 x02 x02) toy_tracker = Ok (Some 3%nat, toy_tracker).
Proof.
  exact (update_state_tracker_twice (toy_code x02 x03 x02 x02) toy_tracker toy_tracker 3%nat
           toy_tracker_wf eq_refl).
Defined.

(** Two data shreds, of which the second completes the set, and a code shred. *)
Definition toy_set : list Shred :=
  [toy_code x00 x02 x02 x02; toy_data x00 x01 x01 x0b; toy_data x00 x00 x00 x0a].

Lemma toy_set_coherent : coherent 2 2 2 toy_set.
Proof.
  split; [|done|].
  - intros c. unfold toy_set, toy_code, toy_data. rewrite !elem_of_cons, elem_of_nil. intros [?|[?|[?|?]]]; by simplify_eq.
  - intros s. unfold toy_set. rewrite !elem_of_cons, elem_of_nil. intros [->|[->|[->|?]]]; done.
Qed.

Lemma get_data_shred_info_spec_witness :
  get_data_shred_info toy_set = Ok (2, 2, 2, 1).
Proof. exact (get_data_shred_info_spec 2 2 2 toy_set eq_refl toy_set_coherent). Defined.

Lemma merkle_shreds_order_witness :
  merkle_shreds toy_set = [toy_data x00 x00 x00 x0a; toy_data x00 x01 x01 x0b;
                           toy_code x00 x02 x02 x02] ∧ merkle_shreds toy_set ≡ₚ toy_set.
Proof. split; [reflexivity|]. apply merkle_shreds_order. Defined.

Lemma ComparableShred_lawful_witness :
  ComparableShred_eq (toy_code x00 x02 x02 x02) (toy_code x00 x02 x02 x02) = Ok true.
Proof.
  destruct (ComparableShred_lawful (toy_code x00 x02 x02 x02) (toy_code x00 x02 x02 x02)
              (toy_code x00 x02 x02 x02)) as (_ & Hr & _); [simpl; lia|simpl; lia|].
  apply Hr. done.
Defined.
