(* ===== verification/DeshredTheorems.v ===== *)
(** The properties of proxy/src/deshred.rs, each with a run of the concrete
    instance of [Toy] that meets its hypotheses. *)

From Stdlib Require Import Strings.Byte.
From S2P Require Import Prelude Net Metrics Shreds Tracker FecSet Packets Deshred DeshredInv.
From S2P Require Import Delivery Complete Recovery Erasure Pending Missed Toy ToyRuns ToyErasure.

(** * Whole runs of the reconstructor *)

Section runs.
Context `{ShredLib} `{PacketLib} `{BuildProfile} `{!ShredLibLaws}.
Context (good : Shred → Prop) `{!GoodShreds good}.

(** C4: from its initial state the reconstructor gets through any sequence of
    batches of good shreds without a panic (no index, slice or unwrap fails,
    no loop runs away), and its state is well formed afterwards: every tracker
    has [MAX_DATA_SHREDS_PER_SLOT] entries per vector, holds at index [i] only
    the data shred [i] of its slot, with the status that shred has, and only
    stored shreds of recovered sets are marked as deshredded. *)
Theorem reconstruct_never_panics m batches :
  overflow_checks = false → Forall (batch_good good) batches →
  returns (run_batches (recon_init m) batches) (recon_wf good).
Proof.
  intros Ho Hb. eapply returns_mono.
  - apply (run_batches_history good); auto using recon_init_wf, recon_init_history.
  - by intros st [? _].
Qed.

(** C7: over any sequence of batches no data shred is delivered twice: the index
    ranges of any two deliveries of one slot are disjoint. *)
Theorem deliveries_disjoint m batches st :
  overflow_checks = false → Forall (batch_good good) batches →
  run_batches (recon_init m) batches = Ok st →
  disjoint_deliveries (omap decoded_of (log st)).
Proof.
  intros Ho Hb Hr.
  pose proof (run_batches_history good (recon_init m) batches Ho (recon_init_wf good m) Hb
                (recon_init_history m)) as Hret.
  rewrite Hr in Hret. apply Hret.
Qed.

(** C8: every entry a call returns is what [deshred] and [bincode] make of one
    run of consecutive data shreds of its slot, of which the last and no other
    completes a segment; there is one per delivery and no other.  The run is
    maximal to the left: in the tracker after the call, if the slot is still
    tracked, the shred before it completes a segment or is not known, unless the
    run starts at index 0. *)
Theorem entries_sound batch st n st' :
  overflow_checks = false → recon_wf good st → batch_good good batch →
  reconstruct_shreds batch st = Ok (n, st') →
  ∃ lg, log st' = log st ++ lg ∧
        Forall2 (delivery_ok good) (omap decoded_of lg) (deshredded_entries st') ∧
        ∀ slot a b fecs t, (slot, a, b) ∈ omap decoded_of lg →
          all_shreds st' !! slot = Some (fecs, t) → left_maximal t a.
Proof.
  intros Ho Hst Hb Hr. destruct (call_delivers good _ _ _ _ Ho Hst Hb Hr) as (lg & E & HF).
  exists lg. split; [done|]. split; [done|].
  by apply (call_delivers_maximal good batch st n).
Qed.

(** C16: a call leaves nothing decodable behind: for every FEC set that a shred
    of the batch was added to, if its slot is still tracked, no fresh complete
    segment through the first index of the set deserializes. *)
Theorem nothing_decodable_left batch st n st' slot f fecs t :
  overflow_checks = false → recon_wf good st → batch_good good batch →
  reconstruct_shreds batch st = Ok (n, st') →
  (slot, f) ∈ slot_fec_indexes_to_iterate st' →
  all_shreds st' !! slot = Some (fecs, t) → nothing_left t (Z.to_nat f).
Proof.
  intros Ho Hst Hb Hr Hin Hl.
  destruct (reconstruct_shreds_loop good _ _ _ _ Ho Hst Hb Hr) as
    (st2 & st3 & lg2 & lg4 & Hw & _ & _ & _ & _ & _ & Ed & _ & _ & _ & Ek & Hall & _).
  rewrite Ek in Hin.
  eapply (deshred_fold_left good st2 st2 (slot_fec_indexes_to_iterate st2) st3 []);
    eauto; [by split_and!|by intros ?? ?%elem_of_nil].
Qed.

(** C18: after a call the reconstructor holds at most the slots of the lookback
    window, or [MAX_PROCESSING_AGE] of them if that is more. *)
Theorem slots_bounded batch st n st' :
  overflow_checks = false → recon_wf good st → batch_good good batch →
  reconstruct_shreds batch st = Ok (n, st') →
  (size (all_shreds st') ≤ max MAX_PROCESSING_AGE (S (Z.to_nat SLOT_LOOKBACK)))%nat.
Proof.
  intros Ho Hst Hb Hr. pose proof (reconstruct_shreds_returns good batch st Ho Hst Hb) as Hret.
  rewrite Hr in Hret. apply Hret.
Qed.

(** The entries of a call come out in slot order. *)
Lemma entries_in_slot_order batch st n st' :
  overflow_checks = false → recon_wf good st → batch_good good batch →
  reconstruct_shreds batch st = Ok (n, st') →
  StronglySorted Z.le (deshredded_entries st').*1.*1.
Proof.
  intros Ho Hst Hb Hr.
  destruct (reconstruct_shreds_loop good _ _ _ _ Ho Hst Hb Hr) as
    (st2 & st3 & lg2 & lg4 & Hw & Hs & Ee & _ & _ & _ & Ed & Ee' & _).
  destruct (deshred_fold_slots good st2 st2 (slot_fec_indexes_to_iterate st2) st3)
    as (es & Ees & Hsort & _); [done|by split_and!|done..|].
  by rewrite Ee', Ees, Ee.
Qed.

(** A call adds to the shared counters exactly what it returns: the entries,
    their transactions and the recovered shreds, modulo 2^64. *)
Lemma counters_match_entries batch st n st' :
  overflow_checks = false → recon_wf good st → batch_good good batch →
  metrics_wf (metrics st) → reconstruct_shreds batch st = Ok (n, st') →
  load EntryCount (metrics st')
    = wrap 64 (load EntryCount (metrics st) + entries_total (deshredded_entries st')) ∧
  load TxnCount (metrics st')
    = wrap 64 (load TxnCount (metrics st) + txns_total (deshredded_entries st')) ∧
  load RecoveredCount (metrics st')
    = wrap 64 (load RecoveredCount (metrics st) + Z.of_nat n).
Proof.
  intros Ho Hst Hb Hm Hr.
  destruct (reconstruct_shreds_loop good _ _ _ _ Ho Hst Hb Hr) as
    (st2 & st3 & lg2 & lg4 & Hw & _ & Ee & Em & _ & _ & Ed & Ee' & _ & _ & _ & _ & Hload).
  rewrite <-Em in Hm |- *.
  destruct (deshred_all_counts good _ _ Hw Hm Ed) as (es & Ees & E1 & E2 & E3).
  rewrite Ee', Ees, Ee, !Hload. simpl. case_decide as Hn.
  - rewrite !load_fetch_add. simpl. by rewrite E3.
  - rewrite E1, E2, E3. replace n with 0%nat by lia. by rewrite Z.add_0_r, (wrap_small _ (load RecoveredCount _)) by apply Hm.
Qed.

(** C1: a segment that starts a slot the reconstructor does not track yet is
    delivered by the call whose batch carries its data shreds, in any order,
    repeated or not, and among any other good shreds, as long as none of those
    moves the lookback window past the slot or contradicts the segment. *)
Theorem complete_segment_delivered batch st slot ds d0 p es :
  overflow_checks = false → recon_wf good st → batch_good good batch →
  all_shreds st !! slot = None →
  saturating_sub (highest_slot_seen st) SLOT_LOOKBACK ≤ slot →
  (∀ s, carries batch s → shred_slot s ≤ slot + SLOT_LOOKBACK) →
  segment_run good slot 0 ds → (∀ d, d ∈ ds → carries batch d) →
  (∀ s d, carries batch s → is_data s = true → shred_slot s = slot → d ∈ ds →
          idx s = idx d → s = d) →
  d0 ∈ ds → shred_fec_set_index d0 = 0 →
  deshred (payload <$> ds) = Some p → bincode_deserialize p = Some es →
  returns (reconstruct_shreds batch st) (λ r, (slot, es, p) ∈ deshredded_entries r.2).
Proof.
  intros Ho Hst Hb Hnone Hold Hle Hrun Hcar Huniq Hd0 Hf0 Hp Hes.
  pose proof (reconstruct_shreds_returns good batch st Ho Hst Hb) as Hret.
  destruct (reconstruct_shreds batch st) as [[n st']|] eqn:E; [|done]. simpl. clear Hret.
  apply reconstruct_shreds_phases in E as (st1 & st2 & st3 & st4 & E1 & E2 & E3 & E4 & ->).
  assert (0 ≤ slot) as Hs0.
  { unfold saturating_sub in Hold. lia. }
  destruct (phases_untracked good batch st st1 st2 n slot ds) as (Hw2 & Hk & El & Hd & Hu); [done..|].
  assert ((slot, es, p) ∈ deshredded_entries st4); [|by case_decide].
  eapply (segment_delivered good st2 st3); eauto.
  - rewrite El. apply sort_indexes_sorted.
  - rewrite <-Hf0. by apply Hk.
Qed.

(** C2: loss tolerance, for a FEC set that is one whole segment: the last of its
    [n] data shreds and no other completes a segment (a set may also end in the
    middle of a segment; such a set is not covered here, but by C3), and together
    they decode; [n] fits the header's [u16].  Such a set that starts an untracked
    slot is delivered by the call that brings the number of its different data
    and code shreds that have arrived to [n], whichever they are, over however
    many batches they come, in any order, repeated or not, and among any other
    good shreds, as long as the earlier batches carry nothing else of the slot,
    none contradicts the set or moves the lookback window past the slot, and the
    slot is within the window.  Of [merkle::recover] it uses that it is an erasure
    code on the set. *)
Theorem any_n_shreds_deliver earlier last st slot m ds cs p es :
  overflow_checks = false → recon_wf good st →
  fec_block good slot m ds cs → erasure_code ds cs →
  set_arrives_over good st earlier last slot ds cs →
  deshred (payload <$> ds) = Some p → bincode_deserialize p = Some es →
  returns (run_batches st earlier) (λ st',
    returns (reconstruct_shreds last st') (λ r, (slot, es, p) ∈ deshredded_entries r.2)).
Proof. apply (batches_deliver good). Qed.

(** C17: when a set has enough shreds and misses a data shred, and the erasure
    code recovers it, every recovered data shred is in the tracker afterwards;
    the count grows by the data shreds that were new plus the recovered code
    shreds; if that is any at all, the set is emptied and marked as recovered,
    and otherwise it is left as it was. *)
Theorem recover_fec_set_spec st total slot f fecs t n m d c l :
  recon_wf good st → 0 ≤ f → slot_entry slot st = (fecs, t) →
  already_recovered_fec_sets t !! Z.to_nat f = Some false →
  get_data_shred_info (fec_entry f fecs) = Ok (n, m, d, c) →
  n ≠ 0 → (Z.to_nat n ≤ length (fec_entry f fecs))%nat → d ≠ n →
  recover (merkle_shreds (fec_entry f fecs)) = Some l →
  ∃ st' t' k, recover_fec_set (st, total) (slot, f) = Ok (st', (total + k)%nat) ∧
    all_shreds st' = <[slot := (<[f := if decide (0 < k)%nat then [] else fec_entry f fecs]> fecs,
                                t')]> (all_shreds st) ∧
    tracker_wf t' ∧ tracker_le t t' ∧
    (∀ x, Some x ∈ l → is_data x = true → ∃ y, data_shreds t' !! idx x = Some (Some y)) ∧
    (k + stored t = stored t' + codes l)%nat ∧
    already_recovered_fec_sets t' !! Z.to_nat f = Some (bool_decide (0 < k)%nat).
Proof.
  intros Hst Hf0 He Hrec Hinfo Hn Hlen Hd Hl.
  destruct (recover_set_runs good st total slot f fecs t n m d c l)
    as (st' & t' & k & E & Eall & Ht & Hle & Hin & _ & Hk & Hr); [done..|].
  by exists st', t', k.
Qed.

(** A data shred that the tracker already holds changes nothing but the log,
    whether or not its segment has been delivered: duplicates are harmless. *)
Theorem known_data_shred_ignored st s fecs t s' :
  recon_wf good st → good s → is_data s = true →
  all_shreds st !! shred_slot s = Some (fecs, t) →
  data_shreds t !! idx s = Some (Some s') →
  ∃ lg, ingest_shred st s = Ok (logging lg st).
Proof.
  intros Hst Hg Hd Hl Hs'. destruct (ingest_shred_returns good st s Hst Hg) as [st' Hi].
  pose proof (ingest_shred_cases good _ _ _ Hst Hi) as Hc. rewrite Hi.
  inversion Hc as [lg _ _ E|fecs' t1 t2 set He _ Hu _ E].
  - exists lg. unfold set_slot, slot_entry. rewrite Hl. simpl. unfold with_all.
    rewrite insert_id by done. by destruct st.
  - exfalso. unfold slot_entry in He. rewrite Hl in He. simpl in He. simplify_eq.
    pose proof (rw_slot _ _ Hst _ _ Hl) as Hw.
    pose proof (update_state_tracker_cases _ _ _ (slot_wf_tracker _ _ _ _ Hw) Hu) as Hr.
    inversion Hr; subst; [congruence|done].
Qed.

(** The check before a shred is accepted compares the index of a code shred
    with the delivered data indexes: a code shred whose own index happens to be
    that of a delivered data shred is dropped although its FEC set is not
    recovered. *)
Theorem code_shred_dropped st c fecs t :
  saturating_sub (highest_slot_seen st) SLOT_LOOKBACK ≤ shred_slot (ShredCode c) →
  all_shreds st !! shred_slot (ShredCode c) = Some (fecs, t) →
  already_recovered_fec_sets t !! fec (ShredCode c) = Some false →
  already_deshredded t !! idx (ShredCode c) = Some true →
  ∃ lg, ingest_shred st (ShredCode c) = Ok (logging lg st).
Proof.
  intros Hnew Hl Hr Hd. unfold ingest_shred, slot_entry. rewrite Hl. simpl.
  rewrite decide_False by lia.
  rewrite (vec_get_lookup _ _ _ Hr). simpl. rewrite (vec_get_lookup _ _ _ Hd). simpl.
  eexists. unfold set_slot, with_all. rewrite insert_id by done. by destruct st.
Qed.

(** C33: when more than [MAX_PROCESSING_AGE] slots are tracked, the slots behind
    the lookback window are dropped and no other; one report is logged if they
    held an FEC set that was never recovered, none otherwise; the report is
    sorted by slot and lists exactly those sets, each with the size it should
    have had and the number of its shreds that arrived. *)
Theorem missed_fec_sets_reported st thr :
  overflow_checks = false → recon_wf good st →
  (MAX_PROCESSING_AGE < size (all_shreds st))%nat →
  thr = saturating_sub (highest_slot_seen st) SLOT_LOOKBACK →
  let missed := missed_slots (below thr) (all_shreds st) in
  let n := missed_total (below thr) (map_to_list (all_shreds st)) in
  ∃ st', drop_old_slots st = Ok st' ∧
    all_shreds st' = filter (λ p, thr ≤ p.1) (all_shreds st) ∧
    log st' = log st ++ (if decide (0 < n)%nat
                         then [LogMissedFecSets (missed_report missed) (size missed) n] else []) ∧
    StronglySorted Z.le (missed_report missed).*1 ∧
    ∀ slot x, (∃ l, (slot, l) ∈ missed_report missed ∧ x ∈ l) ↔
      slot < thr ∧ ∃ fecs t f set, all_shreds st !! slot = Some (fecs, t) ∧
        fecs !! f = Some set ∧ already_recovered_fec_sets t !! Z.to_nat f = Some false ∧
        ∃ e1 e2 e3 e4, get_data_shred_info set = Ok (e1, e2, e3, e4) ∧ x = (f, e1, length set).
Proof.
  intros Ho Hst Hsz -> missed n. unfold drop_old_slots. rewrite decide_True by done.
  destruct (retain_missed good (saturating_sub (highest_slot_seen st) SLOT_LOOKBACK)
              (map_to_list (all_shreds st)) ∅ ∅ 0 Ho) as [kept E].
  { intros slot v Hv%elem_of_map_to_list. by eapply rw_slot. }
  rewrite push_all_missed in E. rewrite E. simpl. apply retain_kept in E. subst kept.
  fold missed. fold n. eexists. split; [done|].
  split; [by case_decide|]. split; [by case_decide; rewrite ?app_nil_r|].
  split; [apply missed_report_sorted|]. intros slot x. rewrite missed_report_elem.
  unfold missed. setoid_rewrite missed_slots_lookup. unfold below. split.
  - intros (l & ([fecs t] & Hv & Hb%bool_decide_eq_true & -> & _) & Hx).
    split; [done|]. apply missed_of_elem in Hx as (f & set & Hf & Hx). simpl in Hf.
    exists fecs, t, f, set. unfold missed_set in Hx. simpl in Hx.
    repeat case_match; simplify_eq. naive_solver.
  - intros (Hb & fecs & t & f & set & Hv & Hf & Hr & e1 & e2 & e3 & e4 & Hi & ->).
    assert ((f, e1, length set) ∈ missed_of (fecs, t)) as Hx.
    { apply missed_of_elem. exists f, set. split; [done|]. unfold missed_set. simpl.
      by rewrite Hr, Hi. }
    exists (missed_of (fecs, t)). split; [|done]. exists (fecs, t).
    rewrite bool_decide_eq_true. split_and!; try done. intros E'. rewrite E' in Hx.
    by apply elem_of_nil in Hx.
Qed.
End runs.

(** * Witnesses for whole runs *)

#[local] Existing Instance release.

Lemma reconstruct_never_panics_witness :
  returns (run_batches toy_init [toy_batch; toy_batch2]) (recon_wf toy_good).
Proof. apply (reconstruct_never_panics toy_good); [apply release_checks|apply toy_batches_good]. Defined.

Lemma deliveries_disjoint_witness :
  run_batches toy_init [toy_batch; toy_batch2] = Ok toy_after2.2 ∧
  omap decoded_of (log toy_after2.2) = [(5, 0%nat, 1%nat); (5, 4%nat, 4%nat); (6, 0%nat, 0%nat)] ∧
  disjoint_deliveries (omap decoded_of (log toy_after2.2)).
Proof.
  split; [apply toy_runs|]. split; [vm_compute; reflexivity|].
  apply (deliveries_disjoint toy_good (ShredMetrics_new true) [toy_batch; toy_batch2]);
    [apply release_checks|apply toy_batches_good|apply toy_runs].
Defined.

Lemma entries_sound_witness :
  deshredded_entries toy_after1.2 = [(5, [x0a; x0b], [x0a; x0b])] ∧
  ∃ lg, log toy_after1.2 = log toy_init ++ lg ∧
    Forall2 (delivery_ok toy_good) (omap decoded_of lg) (deshredded_entries toy_after1.2) ∧
    ∀ slot a b fecs t, (slot, a, b) ∈ omap decoded_of lg →
      all_shreds toy_after1.2 !! slot = Some (fecs, t) → left_maximal t a.
Proof.
  split; [vm_compute; reflexivity|].
  apply (entries_sound toy_good toy_batch toy_init toy_after1.1);
    [apply release_checks|apply recon_init_wf|apply toy_batch_good; vm_compute; reflexivity|apply toy_call1].
Defined.

Definition toy_slot5 : SlotState := slot_entry 5 toy_after1.2.
Lemma slot_entry_Some `{ShredLib} slot st :
  bool_decide (is_Some (all_shreds st !! slot)) = true →
  all_shreds st !! slot = Some ((slot_entry slot st).1, (slot_entry slot st).2).
Proof.
  intros [[fecs t] Hs]%bool_decide_eq_true. unfold slot_entry. by rewrite Hs.
Qed.

Lemma nothing_decodable_left_witness : nothing_left toy_slot5.2 0%nat.
Proof.
  apply (nothing_decodable_left toy_good toy_batch toy_init toy_after1.1 toy_after1.2 5 0
           toy_slot5.1);
    [apply release_checks|apply recon_init_wf|apply toy_batch_good; vm_compute; reflexivity
    |apply toy_call1| |apply slot_entry_Some; vm_compute; reflexivity].
  apply list_elem_of_In. vm_compute. by left.
Defined.

Lemma slots_bounded_witness :
  size (all_shreds toy_after1.2) = 1%nat ∧ 
  (size (all_shreds toy_after1.2) ≤ max MAX_PROCESSING_AGE (S (Z.to_nat SLOT_LOOKBACK)))%nat.
Proof.
  split; [vm_compute; reflexivity|].
  apply (slots_bounded toy_good toy_batch toy_init toy_after1.1);
    [apply release_checks|apply recon_init_wf|apply toy_batch_good; vm_compute; reflexivity|apply toy_call1].
Defined.

Lemma entries_in_slot_order_witness :
  (deshredded_entries toy_after2.2).*1.*1 = [5; 6] ∧
  StronglySorted Z.le (deshredded_entries toy_after2.2).*1.*1.
Proof.
  split; [vm_compute; reflexivity|].
  apply (entries_in_slot_order toy_good toy_batch2 toy_after1.2 toy_after2.1);
    [apply release_checks|apply toy_after1_wf|apply toy_batch_good; vm_compute; reflexivity|apply toy_call2].
Defined.

Lemma counters_match_entries_witness :
  load EntryCount (metrics toy_after1.2) = 2 ∧
  load EntryCount (metrics toy_after1.2)
    = wrap 64 (load EntryCount (metrics toy_init) + entries_total (deshredded_entries toy_after1.2)).
Proof.
  split; [vm_compute; reflexivity|].
  apply (counters_match_entries toy_good toy_batch toy_init toy_after1.1);
    [apply release_checks|apply recon_init_wf|apply toy_batch_good; vm_compute; reflexivity|apply new_wf|apply toy_call1].
Defined.

Lemma complete_segment_delivered_witness :
  returns (reconstruct_shreds toy_batch3 toy_init)
    (λ r, (7, [x0a; x0b], [x0a; x0b]) ∈ deshredded_entries r.2).
Proof.
  apply (complete_segment_delivered toy_good toy_batch3 toy_init 7 toy_d7 toy_d70);
    [apply release_checks|apply recon_init_wf|apply toy_batch_good; vm_compute; reflexivity
    |reflexivity|vm_compute; discriminate| |apply toy_d7_run| | | |reflexivity..].
  - intros s Hs%toy_carries3. rewrite !elem_of_cons, elem_of_nil in Hs.
    destruct Hs as [->|[->|[->|[->|[->|[]]]]]]; vm_compute; discriminate.
  - intros d Hd. apply toy_carries3. unfold toy_d7 in Hd. set_solver.
  - intros s d Hs%toy_carries3 Hds Hslot Hd. unfold toy_d7 in Hd. rewrite !elem_of_cons, elem_of_nil in Hs.
    rewrite !elem_of_cons, elem_of_nil in Hd.
    destruct Hs as [->|[->|[->|[->|[->|[]]]]]], Hd as [->|[->|[]]]; done.
  - left.
Defined.

Lemma any_n_shreds_deliver_witness :
  returns (run_batches toy_init [toy_batch7a]) (λ st',
    returns (reconstruct_shreds toy_batch7b st')
      (λ r, (7, [x0a; x0b], [x0a; x0b]) ∈ deshredded_entries r.2)).
Proof.
  apply (any_n_shreds_deliver toy_good [toy_batch7a] toy_batch7b toy_init 7 1 toy_d7 [toy_c7b]);
    [apply release_checks|apply recon_init_wf|apply toy_block7|apply toy_erasure7
    |apply toy_arrives_over7|reflexivity..].
Defined.

(** The state between the ingest and the recovery of the first batch. *)
Definition toy_ingested : Recon :=
  match ingest_batch toy_batch toy_init with Ok st => st | Panicked _ => toy_init end.
Definition toy_ingested5 : SlotState := slot_entry 5 toy_ingested.

Lemma toy_ingested_wf : recon_wf toy_good toy_ingested.
Proof.
  pose proof (ingest_batch_returns toy_good toy_batch toy_init (recon_init_wf toy_good _)) as Hr.
  unfold toy_ingested. destruct (ingest_batch toy_batch toy_init) as [st|].
  - apply Hr. apply toy_batch_good. vm_compute. reflexivity.
  - apply recon_init_wf.
Qed.

Definition toy_recovered : Shred := ShredData (mkToyData (mkToyHeader x05 x00 x01) x01 [x0b]).

Lemma recover_fec_set_spec_witness :
  ∃ st' t' k, recover_fec_set (toy_ingested, 0%nat) (5, 0) = Ok (st', (0 + k)%nat) ∧
    (∀ x, Some x ∈ [Some toy_recovered] → is_data x = true →
          ∃ y, data_shreds t' !! idx x = Some (Some y)) ∧
    (k + stored toy_ingested5.2 = stored t' + 0)%nat.
Proof.
  destruct (recover_fec_set_spec toy_good toy_ingested 0 5 0 toy_ingested5.1 toy_ingested5.2
              2 2 1 1 [Some toy_recovered])
    as (st' & t' & k & E & _ & _ & _ & Hx & Hk & _).
  1: apply toy_ingested_wf.
  1: lia.
  1: apply surjective_pairing.
  1-5: vm_compute; first [reflexivity|discriminate|lia].
  1: reflexivity.
  exists st', t', k. split; [exact E|]. split; [exact Hx|exact Hk].
Defined.

Lemma known_data_shred_ignored_witness :
  ∃ lg, ingest_shred toy_after1.2 toy_recovered = Ok (logging lg toy_after1.2).
Proof.
  apply (known_data_shred_ignored toy_good toy_after1.2 toy_recovered toy_slot5.1 toy_slot5.2
           toy_recovered).
  - apply toy_after1_wf.
  - split; reflexivity.
  - reflexivity.
  - apply slot_entry_Some. vm_compute. reflexivity.
  - reflexivity.
Defined.

Definition toy_late_code : ToyCode := mkToyCode (mkToyHeader x05 x02 x01) (x02, x02) [].

Lemma code_shred_dropped_witness :
  ∃ lg, ingest_shred toy_after1.2 (@ShredCode ToyTypes toy_late_code)
        = Ok (logging lg toy_after1.2).
Proof.
  apply (code_shred_dropped toy_after1.2 toy_late_code toy_slot5.1 toy_slot5.2).
  - vm_compute. discriminate.
  - apply slot_entry_Some. vm_compute. reflexivity.
  - vm_compute. reflexivity.
  - vm_compute. reflexivity.
Defined.

(** Slots 1, 2 and 60, each with one lone shred: slots 1 and 2 are behind the
    window, and more than two slots are tracked. *)
Definition toy_old_batch : PacketBatch :=
  toy_packet <$> [[x00; x01; x00; x00; x00; x00; x0a]; [x00; x02; x04; x05; x01; x00; x0b];
                  [x00; x3c; x00; x00; x00; x00; x0c]].
Definition toy_old : Recon :=
  match ingest_batch toy_old_batch toy_init with Ok st => st | Panicked _ => toy_init end.

Lemma toy_old_wf : recon_wf toy_good toy_old.
Proof.
  pose proof (ingest_batch_returns toy_good toy_old_batch toy_init (recon_init_wf toy_good _)) as Hr.
  unfold toy_old. destruct (ingest_batch toy_old_batch toy_init) as [st|].
  - apply Hr. apply toy_batch_good. vm_compute. reflexivity.
  - apply recon_init_wf.
Qed.

Lemma missed_fec_sets_reported_witness :
  missed_report (missed_slots (below 10) (all_shreds toy_old))
    = [(1, [(0, 0, 1%nat)]); (2, [(4, 2, 1%nat)])] ∧
  ∃ st', drop_old_slots toy_old = Ok st' ∧
         all_shreds st' = filter (λ p, 10 ≤ p.1) (all_shreds toy_old).
Proof.
  split; [vm_compute; reflexivity|].
  destruct (missed_fec_sets_reported toy_good toy_old 10 release_checks toy_old_wf)
    as (st' & E & Hall & _).
  - vm_compute. lia.
  - vm_compute. reflexivity.
  - exists st'. split; [exact E|exact Hall].
Defined.
