(* ===== verification/Prom.v ===== *)
(** proxy/src/prom.rs: the Prometheus metrics the forwarder feeds, the registry
    they are in, and the scrape server.

    The [prometheus] crate keeps the values; what the proxy does to a metric is
    recorded as a [PromOp], in order.  The count is the integer the source
    converts with [as f64] at the call. *)

From S2P Require Import Prelude Net Errors.

Inductive PromHistogram :=
  | DEDUP_DURATION_HIST | SEND_DURATION_HIST | SEND_PACKET_COUNT_HIST
  | RECV_INTERVAL_HIST | RECV_PACKET_COUNT_HIST.
Inductive PromCounter :=
  | PACKETS_RECEIVED_TOTAL | PACKETS_DEDUPED_TOTAL | PACKETS_FORWARDED_TOTAL
  | PACKETS_FORWARD_FAILED_TOTAL.

#[global] Instance PromHistogram_eq_dec : EqDecision PromHistogram.
Proof. solve_decision. Defined.
#[global] Instance PromCounter_eq_dec : EqDecision PromCounter.
Proof. solve_decision. Defined.

(** The two label values of [PACKETS_BY_SOURCE]'s [status]. *)
Inductive SourceStatus := Discarded | Forwarded.
#[global] Instance SourceStatus_eq_dec : EqDecision SourceStatus.
Proof. solve_decision. Defined.

Inductive PromOp :=
  | Observe (h : PromHistogram) (value : Z)
  | IncBy (c : PromCounter) (count : Z)
  | IncBySource (addr : IpAddr) (status : SourceStatus) (count : Z).

Abbreviation Prom := (list PromOp).

(** * The operations *)

Definition observe_dedup_time (microseconds : Z) (p : Prom) : Prom :=
  p ++ [Observe DEDUP_DURATION_HIST microseconds].
Definition observe_send_packet_count (count : Z) (p : Prom) : Prom :=
  p ++ [Observe SEND_PACKET_COUNT_HIST count].
Definition observe_send_duration (microseconds : Z) (p : Prom) : Prom :=
  p ++ [Observe SEND_DURATION_HIST microseconds].
Definition observe_recv_interval (microseconds : Z) (p : Prom) : Prom :=
  p ++ [Observe RECV_INTERVAL_HIST microseconds].
Definition observe_recv_packet_count (count : Z) (p : Prom) : Prom :=
  p ++ [Observe RECV_PACKET_COUNT_HIST count].
Definition inc_packets_received (count : Z) (p : Prom) : Prom :=
  p ++ [IncBy PACKETS_RECEIVED_TOTAL count].
Definition inc_packets_deduped (count : Z) (p : Prom) : Prom :=
  p ++ [IncBy PACKETS_DEDUPED_TOTAL count].
Definition inc_packets_forwarded (count : Z) (p : Prom) : Prom :=
  p ++ [IncBy PACKETS_FORWARDED_TOTAL count].
Definition inc_packets_forward_failed (count : Z) (p : Prom) : Prom :=
  p ++ [IncBy PACKETS_FORWARD_FAILED_TOTAL count].
Definition inc_packets_by_source (addr : IpAddr) (status : SourceStatus) (count : Z) (p : Prom) :
    Prom := p ++ [IncBySource addr status count].

(** * The registry *)

Inductive PromMetric :=
  | MetricHistogram (h : PromHistogram)
  | MetricCounter (c : PromCounter)
  | MetricBySource.

(** The metric names of the [lazy_static!] block. *)
Definition metric_name (m : PromMetric) : string :=
  match m with
  | MetricHistogram DEDUP_DURATION_HIST => "shredstream_dedup_duration_usec"
  | MetricHistogram SEND_DURATION_HIST => "shredstream_send_duration_usec"
  | MetricHistogram SEND_PACKET_COUNT_HIST => "shredstream_send_packet_count"
  | MetricHistogram RECV_INTERVAL_HIST => "shredstream_recv_interval_usec"
  | MetricHistogram RECV_PACKET_COUNT_HIST => "shredstream_recv_packet_count"
  | MetricCounter PACKETS_RECEIVED_TOTAL => "shredstream_packets_received_total"
  | MetricCounter PACKETS_DEDUPED_TOTAL => "shredstream_packets_deduped_total"
  | MetricCounter PACKETS_FORWARDED_TOTAL => "shredstream_packets_forwarded_total"
  | MetricCounter PACKETS_FORWARD_FAILED_TOTAL => "shredstream_packets_forward_failed_total"
  | MetricBySource => "shredstream_packets_by_source"
  end.

(** The upper bounds of the buckets, in tenths. *)
Definition hist_buckets (h : PromHistogram) : list Z :=
  match h with
  | DEDUP_DURATION_HIST => [5; 10; 20; 30; 50; 80; 130; 210]
  | SEND_DURATION_HIST => [5; 10; 20; 30; 50; 80; 130; 210; 340; 550]
  | SEND_PACKET_COUNT_HIST => [10; 20; 30; 50; 100; 200; 500; 1000]
  | RECV_INTERVAL_HIST => [10; 50; 100; 250; 500; 1000; 2000; 5000; 10000; 20000]
  | RECV_PACKET_COUNT_HIST => [10; 20; 30; 50; 100; 200; 300; 400; 500; 640; 1000]
  end.

(** What the crate needs of a histogram's buckets ([with_opts] fails otherwise,
    and the [unwrap] panics): they are strictly increasing. *)
Fixpoint strictly_increasing (l : list Z) : bool :=
  match l with
  | x :: (y :: _) as l' => (x <? y) && strictly_increasing l'
  | _ => true
  end.

(** The metrics in the order [register_metrics] registers them. *)
Definition registered_metrics : list PromMetric :=
  [MetricHistogram DEDUP_DURATION_HIST; MetricHistogram SEND_DURATION_HIST;
   MetricHistogram SEND_PACKET_COUNT_HIST; MetricHistogram RECV_INTERVAL_HIST;
   MetricHistogram RECV_PACKET_COUNT_HIST; MetricCounter PACKETS_RECEIVED_TOTAL;
   MetricCounter PACKETS_DEDUPED_TOTAL; MetricCounter PACKETS_FORWARDED_TOTAL;
   MetricCounter PACKETS_FORWARD_FAILED_TOTAL; MetricBySource].

(** [prometheus::Registry]: the names in it, and [register], which fails on a
    name that is taken. *)
Class RegistryLib := {
  Registry : Type;
  registry_names : Registry → list string;
  register : string → Registry → option Registry;
}.
Class RegistryLaws `{RegistryLib} : Prop := {
  register_fresh n r : n ∉ registry_names r →
    ∃ r', register n r = Some r' ∧ registry_names r' = registry_names r ++ [n];
}.

(** [register_metrics]: every [register] is unwrapped. *)
Definition register_metrics `{RegistryLib} (r : Registry) : outcome Registry :=
  foldM (λ r m, unwrap (register (metric_name m) r)) r registered_metrics.

(** * The scrape server *)

(** What [server.recv_timeout] returns. *)
Inductive HttpRecv (Request : Type) := RecvFailed | NoRequest | Got (r : Request).
Arguments RecvFailed {Request}.
Arguments NoRequest {Request}.
Arguments Got {Request} _.

(** Where the thread of [spawn_prometheus_server] is: binding its address, before
    [try_recv] in its loop, in [recv_timeout], or behind the loop. *)
Inductive PromPhase := PromBinding | PromPolling | PromServing | PromEnded.
#[global] Instance PromPhase_eq_dec : EqDecision PromPhase.
Proof. solve_decision. Defined.

Section server.
Context {Request Scrape : Type}.

(** The loop body behind [recv_timeout]: the responses, all with status 200;
    [encoded] is what [registry.gather()] and [encode_to_string] give now. *)
Definition prom_respond (encoded : option Scrape) (result : HttpRecv Request) :
    outcome (list (Request * Scrape)) :=
  match result with
  | RecvFailed => Panicked (ExplicitPanic "Error receiving request")
  | NoRequest => Ok []
  | Got request =>
      match encoded with
      | None => Panicked (ExplicitPanic "Failed to encode prometheus metrics")
      | Some encoded => Ok [(request, encoded)]
      end
  end.

(** A step of the thread of [spawn_prometheus_server], with what it meets there:
    the result of [Server::http(bind_addr)], which is unwrapped, whether there is
    a shutdown token, and the result of [recv_timeout]. *)
Definition prom_server_step (bound : result unit details) (token : bool)
    (encoded : option Scrape) (received : HttpRecv Request) (ph : PromPhase) :
    outcome (PromPhase * list (Request * Scrape)) :=
  match ph with
  | PromBinding =>
      match bound with
      | ROk _ => Ok (PromPolling, [])
      | RErr e => Panicked (ExplicitPanic e)
      end
  | PromPolling => Ok (if token then PromEnded else PromServing, [])
  | PromServing => rs ← prom_respond encoded received; Ok (PromPolling, rs)
  | PromEnded => Ok (PromEnded, [])
  end.
End server.

(** * Lemmas *)

Lemma metric_names_distinct : NoDup (metric_name <$> registered_metrics).
Proof. apply (bool_decide_eq_true _). vm_compute. reflexivity. Qed.

Lemma hist_buckets_increasing h : strictly_increasing (hist_buckets h) = true.
Proof. by destruct h. Qed.

Lemma register_all `{RegistryLaws} r (l : list PromMetric) :
  NoDup (metric_name <$> l) → (∀ m, m ∈ l → metric_name m ∉ registry_names r) →
  returns (foldM (λ r m, unwrap (register (metric_name m) r)) r l)
    (λ r', registry_names r' = registry_names r ++ (metric_name <$> l)).
Proof.
  revert r. induction l as [|m l IH]; intros r Hnd Hm; simpl.
  { by rewrite app_nil_r. }
  apply NoDup_cons in Hnd as [Hn Hnd].
  destruct (register_fresh (metric_name m) r) as (r' & -> & Hr'); [apply Hm; left|]. simpl.
  eapply returns_mono; [apply IH; [done|]|].
  - intros m' Hm'. rewrite Hr', elem_of_app, list_elem_of_singleton. intros [Hx|Hx].
    + by apply (Hm m'); [right|].
    + apply Hn. rewrite <-Hx. by apply list_elem_of_fmap_2.
  - intros r'' ->. by rewrite Hr', <-app_assoc.
Qed.
