(* ===== verification/Forwarder.v ===== *)
(** [recv_from_channel_and_send_multiple_dest] of proxy/src/forwarder.rs: one
    batch of packets from the listener is counted, offered to the reconstructor,
    deduplicated and sent to every destination.

    [World] is what the function reads and changes outside the process's own
    counters (the deduper, the socket, the channel, the clock); its operations
    are parameters.  [calls] records them in order. *)

From S2P Require Import Prelude Net Metrics Shreds Packets Prom Errors.

Class ForwardLib `{PacketLib} := {
  World : Type;
  (** [deduper.read().unwrap()] panics on a poisoned lock *)
  deduper_poisoned : World → bool;
  (** [dedup_packets_and_count_discards]: the batch afterwards and the count *)
  dedup_packets : PacketBatch → World → PacketBatch * Z * World;
  (** [batch_send]: [None] is [Ok(())], [Some n] is [IoError(_, n)] *)
  batch_send : list (bytes * SocketAddr) → World → option nat * World;
  (** [reconstruct_tx.try_send], whose result is ignored *)
  reconstruct_try_send : PacketBatch → World → World;
  (** [t.elapsed().as_micros()], a [u128] *)
  elapsed_micros : World → Z * World;
  (** [SystemTime::now()], in microseconds *)
  system_now : World → Z * World;
  UIO_MAXIOV : nat;
  (** [TraceShred] and the conversion of its timestamp *)
  TraceShred : Type;
  TraceShred_decode : bytes → option TraceShred;
  Timestamp : Type;
  created_at : TraceShred → option Timestamp;
  trace_region : TraceShred → string;
  trace_seq_num : TraceShred → Z;
  SystemTime_try_from : Timestamp → option Z;
}.

(** What the documentation of [solana_perf::deduper] says: a packet is left as
    it is or marked as discarded, and the result is the number of discarded
    packets; and that an [iovec] array has room for at least one entry. *)
Class ForwardLaws `{ForwardLib} : Prop := {
  dedup_marks b w : Forall2 (λ p p', packet_addr p' = packet_addr p ∧
      (packet_discard p' = false → p' = p)) b (dedup_packets b w).1.1;
  dedup_count b w :
    (dedup_packets b w).1.2
    = sumZ (λ p, if packet_discard p then 1 else 0) (dedup_packets b w).1.1;
  maxiov_pos : (0 < UIO_MAXIOV)%nat;
}.

Section forwarder.
Context `{ForwardLib} `{BuildProfile}.

Inductive Call :=
  | CallReconstruct (b : PacketBatch)
  | CallDedup (b : PacketBatch)
  | CallBatchSend (pkts : list (bytes * SocketAddr)) (failed : option nat)
  | CallTraceLatency (region : string) (seq_num elapsed : Z).

Record Fwd := mkFwd {
  fwd_metrics : ShredMetrics;
  fwd_prom : Prom;
  fwd_world : World;
  fwd_calls : list Call;
}.

Definition with_fwd_metrics (f : ShredMetrics → ShredMetrics) (st : Fwd) : Fwd :=
  mkFwd (f (fwd_metrics st)) (fwd_prom st) (fwd_world st) (fwd_calls st).
Definition with_prom (f : Prom → Prom) (st : Fwd) : Fwd :=
  mkFwd (fwd_metrics st) (f (fwd_prom st)) (fwd_world st) (fwd_calls st).
Definition with_world (w : World) (c : list Call) (st : Fwd) : Fwd :=
  mkFwd (fwd_metrics st) (fwd_prom st) w (fwd_calls st ++ c).
Definition count_fwd (c : Counter) (n : Z) (st : Fwd) : Fwd :=
  with_fwd_metrics (fetch_add c n) st.

(** [b as u64] *)
Definition u64_of_bool (b : bool) : Z := if b then 1 else 0.

(** [t.elapsed().as_micros() as u64] *)
Definition stopwatch (st : Fwd) : Z * Fwd :=
  let '(t, w) := elapsed_micros (fwd_world st) in (wrap 64 t, with_world w [] st).

(** One iteration of the "Store stats for each Packet" loop. *)
Definition note_source (st : Fwd) (packet : Packet) : outcome Fwd :=
  let addr := packet_addr packet in
  let is_discarded := packet_discard packet in
  v ← match packets_received (fwd_metrics st) !! addr with
      | Some (discarded, not_discarded) =>
          d ← arith 64 (discarded + u64_of_bool is_discarded);
          n ← arith 64 (not_discarded + u64_of_bool (negb is_discarded));
          Ok (d, n)
      | None => Ok (u64_of_bool is_discarded, u64_of_bool (negb is_discarded))
      end;
  let st := with_fwd_metrics
    (λ m, set_packets_received (<[addr := v]> (packets_received m)) m) st in
  let status := if is_discarded then Discarded else Forwarded in
  Ok (with_prom (inc_packets_by_source addr status 1) st).

(** What is sent to one destination. *)
Definition packets_with_dest (batch : PacketBatch) (dest : SocketAddr) :
    list (bytes * SocketAddr) :=
  omap (λ pkt, data ← packet_data pkt; Some (data, dest)) batch.

(** One iteration of the "send out to RPCs" loop. *)
Definition send_to_dest (batch : PacketBatch) (num_deduped : Z) (st : Fwd) (dest : SocketAddr) :
    Fwd :=
  let pkts := packets_with_dest batch dest in
  let len := Z.of_nat (length pkts) in
  let st := count_fwd SendBatchSizeSum len st in
  let st := count_fwd SendBatchCount 1 st in
  let max_iov_count := (length pkts / UIO_MAXIOV)%nat in
  let unsaturated_iov_count := (length pkts mod UIO_MAXIOV)%nat in
  let st := count_fwd SaturatedIovCount (Z.of_nat max_iov_count) st in
  let st := count_fwd UnsaturatedIovCount (Z.of_nat unsaturated_iov_count) st in
  let st := with_prom (observe_send_packet_count len) st in
  let '(failed, w) := batch_send pkts (fwd_world st) in
  let st := with_world w [CallBatchSend pkts failed] st in
  let st :=
    match failed with
    | None =>
        let st := count_fwd SuccessForward len st in
        let st := count_fwd Duplicate num_deduped st in
        with_prom (inc_packets_forwarded len) st
    | Some num_failed =>
        let st := count_fwd FailForward len st in
        let st := count_fwd Duplicate (Z.of_nat num_failed) st in
        with_prom (inc_packets_forward_failed len) st
    end in
  let '(t_send_usecs, st) := stopwatch st in
  let st := count_fwd BatchSendTimeSpent t_send_usecs st in
  with_prom (observe_send_duration t_send_usecs) st.

(** One iteration of the "Count TraceShred shreds" loop. *)
Definition note_trace (received_time : Z) (st : Fwd) (trace_shred : TraceShred) : outcome Fwd :=
  created ← unwrap (created_at trace_shred ≫= SystemTime_try_from);
  let elapsed := Z.max 0 (received_time - created) in
  Ok (with_world (fwd_world st)
        [CallTraceLatency (trace_region trace_shred) (trace_seq_num trace_shred) elapsed] st).

(** The trace shreds of a batch that have a creation time. *)
Definition trace_shreds (batch : PacketBatch) : list TraceShred :=
  List.filter (λ t, bool_decide (is_Some (created_at t)))
    (omap (λ p, packet_data p ≫= TraceShred_decode) batch).

Definition recv_from_channel_and_send_multiple_dest
    (maybe_packet_batch : option PacketBatch) (local_dest_sockets : list SocketAddr)
    (should_reconstruct_shreds debug_trace_shred : bool) (st : Fwd) :
    outcome (result unit ShredstreamProxyError * Fwd) :=
  match maybe_packet_batch with
  | None => Ok (RErr RecvErr, st)
  | Some packet_batch =>
      let '(trace_shred_received_time, w) := system_now (fwd_world st) in
      let st := with_world w [] st in
      let batch_len := Z.of_nat (length packet_batch) in
      let st := count_fwd Received batch_len st in
      let st := with_prom (inc_packets_received batch_len) st in
      let st := with_prom (observe_recv_packet_count batch_len) st in
      let st := if should_reconstruct_shreds
                then with_world (reconstruct_try_send packet_batch (fwd_world st))
                       [CallReconstruct packet_batch] st
                else st in
      if deduper_poisoned (fwd_world st) then Panicked (ExplicitPanic "PoisonError") else
      let '(batch, num_deduped, w) := dedup_packets packet_batch (fwd_world st) in
      let st := with_world w [CallDedup packet_batch] st in
      let '(t_dedup_usecs, st) := stopwatch st in
      let st := count_fwd DedupTimeSpent t_dedup_usecs st in
      let st := with_prom (observe_dedup_time t_dedup_usecs) st in
      let st := with_prom (inc_packets_deduped num_deduped) st in
      st ← foldM note_source st batch;
      let st := foldl (send_to_dest batch num_deduped) st local_dest_sockets in
      st ← (if debug_trace_shred
            then foldM (note_trace trace_shred_received_time) st (trace_shreds batch) else Ok st);
      Ok (ROk tt, st)
  end.

(** The batches that a list of calls offers to the reconstructor. *)
Definition offered (cs : list Call) : list PacketBatch :=
  omap (λ c, match c with CallReconstruct b => Some b | _ => None end) cs.
End forwarder.
