(* ===== verification/ForwarderProofs.v ===== *)
(** Lemmas on [recv_from_channel_and_send_multiple_dest]: the calls it makes, what
    it counts, and that it returns; and a small world to run it in. *)

From Stdlib Require Import Strings.Byte.
From S2P Require Import Prelude Net Metrics Shreds Packets Prom Errors Forwarder Toy.

Section forwarder_proofs.
Context `{ForwardLib} `{BuildProfile} `{!PacketLibLaws} `{!ForwardLaws}.
Implicit Types (st : Fwd) (b batch : PacketBatch).

(** * Specification *)

(** The payloads of a batch that are not discarded. *)
Definition payloads batch : list bytes := omap packet_data batch.

(** The world in which a batch is deduplicated: the clock has been read and the
    batch offered to the reconstructor; then the batch that comes out. *)
Definition dedup_world (recon : bool) b (w : World) : World :=
  let w := (system_now w).2 in if recon then reconstruct_try_send b w else w.
Definition deduplicated (recon : bool) b (w : World) : PacketBatch :=
  (dedup_packets b (dedup_world recon b w)).1.1.

(** The world in which the sends start: the deduplication has been timed. *)
Definition send_world (recon : bool) b (w : World) : World :=
  (elapsed_micros (dedup_packets b (dedup_world recon b w)).2).2.

(** What the socket answers when the payloads [ps] are sent to one destination
    after the other, each send timed. *)
Fixpoint send_answers (ps : list bytes) (dests : list SocketAddr) (w : World) :
    list (option nat) :=
  match dests with
  | [] => []
  | d :: dests =>
      let r := batch_send ((λ p, (p, d)) <$> ps) w in
      r.1 :: send_answers ps dests (elapsed_micros r.2).2
  end.

(** What one send adds to a counter. *)
Definition send_delta (len num_deduped : Z) (failed : option nat) (c : Counter) : Z :=
  match c, failed with
  | SendBatchSizeSum, _ => len
  | SendBatchCount, _ => 1
  | SaturatedIovCount, _ => Z.of_nat (Z.to_nat len / UIO_MAXIOV)
  | UnsaturatedIovCount, _ => Z.of_nat (Z.to_nat len mod UIO_MAXIOV)
  | SuccessForward, None => len
  | FailForward, Some _ => len
  | Duplicate, None => num_deduped
  | Duplicate, Some n => Z.of_nat n
  | _, _ => 0
  end.

(** The packets of a batch from an address, with a given discard mark. *)
Definition from_source (addr : IpAddr) (d : bool) batch : Z :=
  sumZ (λ p, if decide (packet_addr p = addr ∧ packet_discard p = d) then 1 else 0) batch.

(** The destinations and results of the sends in a list of calls. *)
Definition sends (cs : list Call) : list (list (bytes * SocketAddr)) :=
  omap (λ c, match c with CallBatchSend pkts _ => Some pkts | _ => None end) cs.
Definition results (cs : list Call) : list (option nat) :=
  omap (λ c, match c with CallBatchSend _ r => Some r | _ => None end) cs.

(** The calls that follow the deduplication. *)
Definition outgoing (c : Call) : Prop :=
  match c with CallBatchSend _ _ | CallTraceLatency _ _ _ => True | _ => False end.

#[local] Arguments send_delta : simpl never.
#[local] Arguments sumZ : simpl never.

(** * Lemmas: sending *)

Lemma packets_with_dest_payloads batch dest :
  packets_with_dest batch dest = (λ p, (p, dest)) <$> payloads batch.
Proof.
  unfold packets_with_dest, payloads. induction batch as [|p batch IH]; [done|]. simpl.
  destruct (packet_data p); simpl; [f_equal|]; exact IH.
Qed.

Lemma send_answers_length ps dests w : length (send_answers ps dests w) = length dests.
Proof. revert w. induction dests as [|d dests IH]; intros w; simpl; [done|]. by rewrite IH. Qed.

Lemma load_count_fwd c c' n st :
  load c (fwd_metrics (count_fwd c' n st))
  = if decide (c = c') then wrap 64 (load c (fwd_metrics st) + n) else load c (fwd_metrics st).
Proof. apply load_fetch_add. Qed.

Lemma stopwatch_fwd st :
  fwd_metrics (stopwatch st).2 = fwd_metrics st ∧ fwd_prom (stopwatch st).2 = fwd_prom st ∧
  fwd_calls (stopwatch st).2 = fwd_calls st ∧
  fwd_world (stopwatch st).2 = (elapsed_micros (fwd_world st)).2.
Proof.
  unfold stopwatch. destruct (elapsed_micros _). simpl. by rewrite app_nil_r.
Qed.

(** The step: one call, and what it adds to every counter. *)
Lemma send_to_dest_step batch n st dest :
  let r := batch_send ((λ p, (p, dest)) <$> payloads batch) (fwd_world st) in
  fwd_calls (send_to_dest batch n st dest)
      = fwd_calls st ++ [CallBatchSend (packets_with_dest batch dest) r.1] ∧
    fwd_world (send_to_dest batch n st dest) = (elapsed_micros r.2).2 ∧
    packets_received (fwd_metrics (send_to_dest batch n st dest))
      = packets_received (fwd_metrics st) ∧
    (metrics_wf (fwd_metrics st) → metrics_wf (fwd_metrics (send_to_dest batch n st dest))) ∧
    ∀ c, c ≠ BatchSendTimeSpent → metrics_wf (fwd_metrics st) →
      load c (fwd_metrics (send_to_dest batch n st dest))
      = wrap 64 (load c (fwd_metrics st)
                 + send_delta (Z.of_nat (length (payloads batch))) n r.1 c).
Proof.
  assert (length (packets_with_dest batch dest) = length (payloads batch)) as Hlen
    by (by rewrite packets_with_dest_payloads, length_fmap).
  unfold send_to_dest. rewrite Hlen. simpl. rewrite packets_with_dest_payloads in *.
  destruct (batch_send _ _) as [failed w]. simpl.
  set (st1 := match failed with None => _ | Some _ => _ end).
  pose proof (stopwatch_fwd st1) as (Hm & _ & Hc & Hw1). destruct (stopwatch st1) as [t st2].
  simpl in Hm, Hc, Hw1. simpl.
  assert (fwd_calls st1 = fwd_calls st ++ [CallBatchSend ((λ p, (p, dest)) <$> payloads batch) failed]
          ∧ fwd_world st1 = w) as [E1 W1] by (unfold st1; by destruct failed).
  split; [congruence|]. split; [congruence|]. rewrite Hm. split.
  { unfold st1. by destruct failed; simpl; autorewrite with metrics. }
  split.
  { intros Hw. unfold st1. destruct failed; simpl; auto 10 using fetch_add_wf. }
  intros c Hne Hw. rewrite load_fetch_add_ne by done.
  unfold st1. destruct failed as [k|], c; simpl; solve_load; unfold send_delta;
    rewrite ?Nat2Z.id, ?Z.add_0_r; autorewrite with rust; try done; symmetry;
    by rewrite wrap_small by apply Hw.
Qed.

Lemma send_all_spec batch n dests st :
  let outs := send_answers (payloads batch) dests (fwd_world st) in
    fwd_calls (foldl (send_to_dest batch n) st dests)
      = fwd_calls st ++ zip_with (λ d o, CallBatchSend (packets_with_dest batch d) o) dests outs ∧
    packets_received (fwd_metrics (foldl (send_to_dest batch n) st dests))
      = packets_received (fwd_metrics st) ∧
    (metrics_wf (fwd_metrics st) → metrics_wf (fwd_metrics (foldl (send_to_dest batch n) st dests))) ∧
    ∀ c, c ≠ BatchSendTimeSpent → metrics_wf (fwd_metrics st) →
      load c (fwd_metrics (foldl (send_to_dest batch n) st dests))
      = wrap 64 (load c (fwd_metrics st)
          + sumZ (λ o, send_delta (Z.of_nat (length (payloads batch))) n o c) outs).
Proof.
  revert st. induction dests as [|d dests IH]; intros st.
  { simpl. rewrite app_nil_r. split_and!; try done.
    intros c _ Hw. unfold sumZ. simpl. by rewrite Z.add_0_r, wrap_small by apply Hw. }
  destruct (send_to_dest_step batch n st d) as (Ec & Ew & Ep & Hwf & Hl).
  destruct (IH (send_to_dest batch n st d)) as (Ec' & Ep' & Hwf' & Hl').
  rewrite Ew in Ec', Hl'. cbn [send_answers foldl]. cbv zeta. split_and!; [|congruence|by auto|].
  - rewrite Ec', Ec, <-app_assoc. done.
  - intros c Hne Hw. rewrite Hl' by auto. rewrite Hl by done. rewrite sumZ_cons.
    autorewrite with rust. f_equal. lia.
Qed.

(** * Lemmas: sources *)

(** A source's entry after [x] discarded and [y] other packets. *)
Definition source_after (o : option (Z * Z)) (x y : Z) : option (Z * Z) :=
  if decide (x + y = 0) then o
  else Some (wrap 64 ((default (0, 0) o).1 + x), wrap 64 ((default (0, 0) o).2 + y)).

Lemma from_source_nonneg addr d batch : 0 ≤ from_source addr d batch.
Proof.
  induction batch as [|p batch IH]; [done|]. unfold from_source in *. rewrite sumZ_cons.
  case_decide; lia.
Qed.

Lemma source_after_add o x y x' y' :
  0 ≤ x → 0 ≤ y → 0 ≤ x' → 0 ≤ y' →
  source_after (source_after o x y) x' y' = source_after o (x + x') (y + y').
Proof.
  intros. unfold source_after. destruct (decide (x + y = 0)) as [E|E].
  - replace x with 0 by lia. by replace y with 0 by lia.
  - rewrite (decide_False (P := x + x' + (y + y') = 0)) by lia. case_decide as E'.
    + replace x' with 0 by lia. replace y' with 0 by lia. by rewrite !Z.add_0_r.
    + simpl. autorewrite with rust. do 2 f_equal; f_equal; lia.
Qed.

Lemma note_source_step st p :
  overflow_checks = false →
  ∃ st', note_source st p = Ok st' ∧ fwd_calls st' = fwd_calls st ∧
    fwd_world st' = fwd_world st ∧
    (∀ c, load c (fwd_metrics st') = load c (fwd_metrics st)) ∧
    ∀ addr, packets_received (fwd_metrics st') !! addr
            = source_after (packets_received (fwd_metrics st) !! addr)
                (from_source addr true [p]) (from_source addr false [p]).
Proof.
  intros Ho. unfold note_source.
  set (old := default (0, 0) (packets_received (fwd_metrics st) !! packet_addr p)).
  set (v := (wrap 64 (old.1 + u64_of_bool (packet_discard p)),
             wrap 64 (old.2 + u64_of_bool (negb (packet_discard p))))).
  assert (match packets_received (fwd_metrics st) !! packet_addr p with
          | Some (discarded, not_discarded) =>
              d ← arith 64 (discarded + u64_of_bool (packet_discard p));
              n ← arith 64 (not_discarded + u64_of_bool (negb (packet_discard p))); Ok (d, n)
          | None => Ok (u64_of_bool (packet_discard p), u64_of_bool (negb (packet_discard p)))
          end = Ok v) as ->.
  { unfold v, old. destruct (packets_received _ !! _) as [[d n]|]; simpl.
    - by rewrite !arith_release by done.
    - by destruct (packet_discard p). }
  simpl. eexists. split; [done|]. simpl. split_and!; try done.
  - intros c. apply load_set_packets_received.
  - intros addr. rewrite set_packets_received_get, lookup_insert.
    unfold from_source, source_after, sumZ. simpl. rewrite !Z.add_0_r.
    case_decide as Ha; [subst addr|].
    + unfold v, old. destruct (packet_discard p); simpl.
      * rewrite (decide_True (P := packet_addr p = packet_addr p ∧ true = true)) by done.
        by rewrite (decide_False (P := packet_addr p = packet_addr p ∧ true = false)) by (by intros []).
      * rewrite (decide_False (P := packet_addr p = packet_addr p ∧ false = true)) by (by intros []).
        by rewrite (decide_True (P := packet_addr p = packet_addr p ∧ false = false)) by done.
    + assert (∀ d, ¬ (packet_addr p = addr ∧ packet_discard p = d)) as Hn by (by intros d [? _]).
      rewrite (decide_False (P := _ ∧ packet_discard p = true)) by apply Hn.
      by rewrite (decide_False (P := _ ∧ packet_discard p = false)) by apply Hn.
Qed.

Lemma note_sources_spec st batch :
  overflow_checks = false →
  ∃ st', foldM note_source st batch = Ok st' ∧ fwd_calls st' = fwd_calls st ∧
    fwd_world st' = fwd_world st ∧
    (∀ c, load c (fwd_metrics st') = load c (fwd_metrics st)) ∧
    ∀ addr, packets_received (fwd_metrics st') !! addr
            = source_after (packets_received (fwd_metrics st) !! addr)
                (from_source addr true batch) (from_source addr false batch).
Proof.
  intros Ho. revert st. induction batch as [|p batch IH]; intros st.
  { exists st. by split_and!. }
  destruct (note_source_step st p Ho) as (st1 & E & Hc & Hw & Hl & Hs).
  destruct (IH st1) as (st2 & E2 & Hc2 & Hw2 & Hl2 & Hs2).
  exists st2. simpl. rewrite E. simpl. split_and!; try congruence.
  intros addr. rewrite Hs2, Hs, source_after_add by apply from_source_nonneg.
  unfold from_source. rewrite !(sumZ_cons _ p). unfold sumZ at 1 3. simpl.
  by rewrite !Z.add_0_r.
Qed.

(** * Lemmas: trace shreds *)

Lemma note_traces_spec now st ts :
  (∀ t, t ∈ ts → is_Some (created_at t ≫= SystemTime_try_from)) →
  ∃ st' cs, foldM (note_trace now) st ts = Ok st' ∧ fwd_calls st' = fwd_calls st ++ cs ∧
    sends cs = [] ∧ results cs = [] ∧ Forall outgoing cs ∧ fwd_metrics st' = fwd_metrics st.
Proof.
  revert st. induction ts as [|t ts IH]; intros st Ht.
  { exists st, []. by rewrite app_nil_r. }
  destruct (Ht t ltac:(left)) as [x Hx].
  set (st1 := with_world (fwd_world st)
    [CallTraceLatency (trace_region t) (trace_seq_num t) (Z.max 0 (now - x))] st).
  assert (note_trace now st t = Ok st1) as E1 by (unfold note_trace; by rewrite Hx).
  cbn [foldM]. rewrite E1. cbn [mbind outcome_bind].
  destruct (IH st1) as (st' & cs & E & Ec & Es & Er & Eo & Em); [intros; apply Ht; by right|].
  rewrite E. eexists st', (_ :: cs). simpl in Ec. rewrite Ec, <-app_assoc. split_and!; try done. by constructor.
Qed.

(** * The whole function *)

Lemma sends_zip batch dests outs :
  length outs = length dests →
  let cs := zip_with (λ d o, CallBatchSend (packets_with_dest batch d) o) dests outs in
  sends cs = packets_with_dest batch <$> dests ∧ results cs = outs ∧ Forall outgoing cs.
Proof.
  revert outs. induction dests as [|d dests IH]; intros [|o outs] Hl; simplify_eq/=; [done|].
  destruct (IH outs Hl) as (-> & -> & ?). split_and!; [done..|]. by constructor.
Qed.

Lemma sends_app cs1 cs2 : sends (cs1 ++ cs2) = sends cs1 ++ sends cs2.
Proof. apply omap_app. Qed.
Lemma results_app cs1 cs2 : results (cs1 ++ cs2) = results cs1 ++ results cs2.
Proof. apply omap_app. Qed.
Lemma offered_outgoing cs : Forall outgoing cs → offered cs = [].
Proof. induction 1 as [|[]]; simpl; done. Qed.
Lemma offered_app cs1 cs2 : offered (cs1 ++ cs2) = offered cs1 ++ offered cs2.
Proof. apply omap_app. Qed.

(** The lock of the deduper is not poisoned, and a trace shred that says when it
    was made says a time the system can represent. *)
Definition no_poison : Prop := ∀ w, deduper_poisoned w = false.
Definition traces_ok (debug_trace_shred : bool) : Prop :=
  debug_trace_shred = true → ∀ t ts, created_at t = Some ts → is_Some (SystemTime_try_from ts).

Lemma trace_shreds_ok batch t :
  traces_ok true → t ∈ trace_shreds batch → is_Some (created_at t ≫= SystemTime_try_from).
Proof.
  intros Ht Hin. apply list_elem_of_In, filter_In in Hin as [_ Hin].
  apply bool_decide_eq_true in Hin as [ts Hts]. rewrite Hts. simpl. by apply (Ht eq_refl t).
Qed.

Lemma forward_spec b dests recon debug st :
  overflow_checks = false → no_poison → traces_ok debug → metrics_wf (fwd_metrics st) →
  let w := dedup_world recon b (fwd_world st) in
  let batch := (dedup_packets b w).1.1 in let n := (dedup_packets b w).1.2 in
  ∃ st' cs,
    recv_from_channel_and_send_multiple_dest (Some b) dests recon debug st = Ok (ROk tt, st') ∧
    fwd_calls st' = fwd_calls st ++ (if recon then [CallReconstruct b] else []) ++ [CallDedup b] ++ cs ∧
    sends cs = packets_with_dest batch <$> dests ∧
    results cs = send_answers (payloads batch) dests (send_world recon b (fwd_world st)) ∧
    metrics_wf (fwd_metrics st') ∧
    (∀ addr, packets_received (fwd_metrics st') !! addr
       = source_after (packets_received (fwd_metrics st) !! addr)
           (from_source addr true batch) (from_source addr false batch)) ∧
    Forall outgoing cs ∧
    ∀ c, c ≠ DedupTimeSpent → c ≠ BatchSendTimeSpent →
      load c (fwd_metrics st')
      = wrap 64 (load c (fwd_metrics st)
          + (if decide (c = Received) then Z.of_nat (length b) else 0)
          + sumZ (λ o, send_delta (Z.of_nat (length (payloads batch))) n o c) (results cs)).
Proof.
  intros Ho Hp Ht Hwf. unfold recv_from_channel_and_send_multiple_dest, send_world, dedup_world.
  destruct (system_now _) as [now w0]. rewrite Hp.
  set (st1 := if recon then with_world _ _ _ else _).
  assert (fwd_calls st1 = fwd_calls st ++ (if recon then [CallReconstruct b] else []) ∧
          fwd_metrics st1 = fetch_add Received (Z.of_nat (length b)) (fwd_metrics st) ∧
          fwd_world st1 = if recon then reconstruct_try_send b w0 else w0) as (C1 & M1 & W1).
  { unfold st1. destruct recon; simpl; by rewrite ?app_nil_r. }
  clearbody st1. cbv zeta. simpl snd. rewrite <-W1. clear W1.
  destruct (dedup_packets b (fwd_world st1)) as [[batch n] w1]. simpl.
  set (st2 := with_world w1 [CallDedup b] st1).
  pose proof (stopwatch_fwd st2) as (M2 & _ & C2 & W2). destruct (stopwatch st2) as [t st3].
  simpl in M2, C2, W2. clear st2.
  set (st4 := with_prom (inc_packets_deduped n) _).
  destruct (note_sources_spec st4 batch Ho) as (st5 & E5 & C5 & W5 & L5 & S5). rewrite E5. simpl.
  destruct (send_all_spec batch n dests st5) as (C6 & S6 & W6 & L6).
  rewrite W5 in C6, L6. simpl in C6, L6. rewrite W2 in C6, L6.
  set (outs := send_answers _ _ _) in *.
  assert (length outs = length dests) as Hlen by apply send_answers_length.
  set (st6 := foldl _ st5 dests) in *.
  assert (∃ st7 cs7, (if debug then foldM (note_trace now) st6 (trace_shreds batch) else Ok st6)
            = Ok st7 ∧ fwd_calls st7 = fwd_calls st6 ++ cs7 ∧ sends cs7 = [] ∧ results cs7 = [] ∧
            Forall outgoing cs7 ∧ fwd_metrics st7 = fwd_metrics st6)
    as (st7 & cs7 & E7 & C7 & Se7 & Re7 & Oe7 & M7).
  { destruct debug; [|exists st6, []; by rewrite app_nil_r].
    apply note_traces_spec. intros t' Ht'. by eapply trace_shreds_ok. }
  rewrite E7. simpl. destruct (sends_zip batch dests outs Hlen) as (Hs & Hr & Hof).
  eexists st7, _. split; [done|]. split.
  { rewrite C7, C6, C5. simpl. rewrite C2. simpl. rewrite C1, <-!app_assoc. reflexivity. }
  rewrite sends_app, results_app, Hs, Hr, Se7, Re7, !app_nil_r.
  split; [done|]. split; [done|]. rewrite M7.
  assert (metrics_wf (fwd_metrics st5)) as Hwf5.
  { intros c. rewrite L5. simpl. rewrite M2. simpl. rewrite M1. by repeat apply fetch_add_wf. }
  split; [by apply W6|]. split.
  { intros addr. rewrite S6, S5. simpl. rewrite M2. simpl. rewrite M1.
    by rewrite !fetch_add_packets_received. }
  split; [by apply Forall_app|].
  intros c Hc1 Hc2. rewrite L6, L5 by done. simpl. rewrite M2. simpl. rewrite M1.
  rewrite load_fetch_add_ne, load_fetch_add by done.
  case_decide; autorewrite with rust; f_equal; lia.
Qed.

(** The sends that failed, and the packets they say failed. *)
Definition failures (rs : list (option nat)) : Z :=
  sumZ (λ o, if decide (is_Some o) then 1 else 0) rs.
Definition failed_packets (rs : list (option nat)) : Z :=
  sumZ (λ o, match o with Some k => Z.of_nat k | None => 0 end) rs.

Lemma dedup_sublist b w : payloads (dedup_packets b w).1.1 `sublist_of` payloads b.
Proof.
  pose proof (dedup_marks b w) as Hf. unfold payloads.
  induction Hf as [|p p' l l' [_ Hd] _ IH]; [constructor|]. simpl.
  destruct (packet_discard p') eqn:E.
  - rewrite packet_data_discarded by done. destruct (packet_data p); [by constructor|done].
  - rewrite Hd by done. destruct (packet_data p); [by constructor|done].
Qed.

Lemma sumZ_failures (x y : Z) rs :
  sumZ (λ o : option nat, match o with None => x | Some _ => y end) rs
  = x * (Z.of_nat (length rs) - failures rs) + y * failures rs.
Proof.
  unfold failures. induction rs as [|o rs IH]; [unfold sumZ; simpl; lia|].
  rewrite !sumZ_cons, IH. cbn [length]. destruct o; simpl; lia.
Qed.

Lemma failures_range rs : 0 ≤ failures rs ≤ Z.of_nat (length rs).
Proof.
  unfold failures. induction rs as [|o rs IH]; [done|]. rewrite sumZ_cons. cbn [length].
  case_decide; lia.
Qed.

Lemma sum_deltas n d c x y rs :
  send_delta n d None c = x → (∀ k, send_delta n d (Some k) c = y) →
  sumZ (λ o, send_delta n d o c) rs = x * (Z.of_nat (length rs) - failures rs) + y * failures rs.
Proof.
  intros Hx Hy. rewrite <-sumZ_failures. unfold sumZ.
  induction rs as [|[k|] rs IH]; simpl; [done|by rewrite Hy, IH|by rewrite Hx, IH].
Qed.
End forwarder_proofs.

(** * A concrete world *)

(** The payloads seen by the deduper; sends to port 9 fail with one packet. *)
Definition toy_dedup_one (acc : list Packet * list bytes) (p : Packet) :
    list Packet * list bytes :=
  let '(b, seen) := acc in
  match packet_data p with
  | None => (b ++ [p], seen)
  | Some d =>
      if decide (d ∈ seen) then (b ++ [(p.1.1, true, p.2)], seen) else (b ++ [p], d :: seen)
  end.
Definition toy_dedup (b : PacketBatch) (seen : list bytes) : PacketBatch * Z * list bytes :=
  let '(b', seen') := foldl toy_dedup_one ([], seen) b in
  (b', sumZ (λ p, if packet_discard p then 1 else 0) b', seen').
Definition toy_send (pkts : list (bytes * SocketAddr)) (w : list bytes) : option nat * list bytes :=
  (match pkts with (_, d) :: _ => if decide (socket_port d = 9) then Some 1%nat else None
                 | [] => None end, w).

#[global] Instance ToyForward : ForwardLib := {|
  World := list bytes;
  deduper_poisoned _ := false;
  dedup_packets := toy_dedup;
  batch_send := toy_send;
  reconstruct_try_send _ w := w;
  elapsed_micros w := (7, w);
  system_now w := (1000, w);
  UIO_MAXIOV := 2%nat;
  TraceShred := bytes;
  TraceShred_decode b := match b with x07 :: l => Some l | _ => None end;
  Timestamp := nat;
  created_at (t : bytes) := Some (length t);
  trace_region _ := "toy"%string;
  trace_seq_num _ := 1;
  SystemTime_try_from n := Some (Z.of_nat n);
|}.

Lemma toy_dedup_marks b acc :
  ∃ l, (foldl toy_dedup_one acc b).1 = acc.1 ++ l ∧
    Forall2 (λ p p', packet_addr p' = packet_addr p ∧ (packet_discard p' = false → p' = p)) b l.
Proof.
  revert acc. induction b as [|p b IH]; intros [acc seen].
  { exists []. simpl. by rewrite app_nil_r. }
  assert (∃ p' seen', toy_dedup_one (acc, seen) p = (acc ++ [p'], seen') ∧
      packet_addr p' = packet_addr p ∧ (packet_discard p' = false → p' = p))
    as (p' & seen' & E & Ha & Hd).
  { unfold toy_dedup_one. destruct (packet_data p) as [d|]; [case_decide|].
    - exists (p.1.1, true, p.2), seen. by split_and!.
    - exists p, (d :: seen). by split_and!.
    - exists p, seen. by split_and!. }
  cbn [foldl]. rewrite E. destruct (IH (acc ++ [p'], seen')) as (l & -> & HF). simpl.
  exists (p' :: l). rewrite <-app_assoc. split; [done|]. by constructor.
Qed.

Lemma toy_dedup_fold b w :
  toy_dedup b w = ((foldl toy_dedup_one ([], w) b).1,
    sumZ (λ p, if packet_discard p then 1 else 0) (foldl toy_dedup_one ([], w) b).1,
    (foldl toy_dedup_one ([], w) b).2).
Proof. unfold toy_dedup. by destruct (foldl toy_dedup_one ([], w) b). Qed.

Lemma toy_dedup_marks_all b w :
  Forall2 (λ p p', packet_addr p' = packet_addr p ∧ (packet_discard p' = false → p' = p))
    b (toy_dedup b w).1.1.
Proof.
  rewrite toy_dedup_fold. by destruct (toy_dedup_marks b ([], w)) as (l & -> & HF).
Qed.

Lemma toy_dedup_counts b w :
  (toy_dedup b w).1.2 = sumZ (λ p, if packet_discard p then 1 else 0) (toy_dedup b w).1.1.
Proof. by rewrite toy_dedup_fold. Qed.

#[global] Instance ToyForwardLaws : ForwardLaws.
Proof.
  split; [exact toy_dedup_marks_all|exact toy_dedup_counts|simpl; lia].
Qed.

Lemma toy_no_poison : no_poison.
Proof. done. Qed.
Lemma toy_traces debug : traces_ok debug.
Proof. intros _ t ts [= <-]. by eexists. Qed.

Definition toy_fwd : Fwd := mkFwd (ShredMetrics_new true) [] [[x02]] [].
(** Packet [x01] twice, [x02] which was seen before, and [x03]. *)
Definition toy_fwd_batch : PacketBatch := toy_packet <$> [[x01]; [x02]; [x01]; [x03]].
Definition toy_dests : list SocketAddr := [SocketAddrV4 1 8001; SocketAddrV4 2 9].
