(* ===== verification/ForwarderTheorems.v ===== *)
(** The properties of [recv_from_channel_and_send_multiple_dest]: who gets which
    packets, and that the counters account for every one of them. *)

From Stdlib Require Import Strings.Byte.
From S2P Require Import Prelude Net Metrics Shreds Packets Prom Errors Forwarder Toy.
From S2P Require Import ForwarderProofs.

Section forwarder_properties.
Context `{ForwardLib} `{BuildProfile} `{!PacketLibLaws} `{!ForwardLaws}.
Implicit Types (st : Fwd) (b : PacketBatch).

#[local] Arguments send_delta : simpl never.
#[local] Arguments sumZ : simpl never.

(** C11: a batch is handed to the reconstructor as it was received, if at all,
    then deduplicated, and every destination is sent exactly the payloads of the
    packets that are not discarded, as received or by deduplication, in order; no
    destination is skipped or served twice, and these payloads are payloads of the
    batch.  (No lock is poisoned, and traces, where they are logged, have times
    that can be represented: the function panics otherwise.) *)
Theorem forward_to_every_destination b dests recon debug st :
  overflow_checks = false → no_poison → traces_ok debug → metrics_wf (fwd_metrics st) →
  let ps := payloads (deduplicated recon b (fwd_world st)) in
  ∃ st' cs, recv_from_channel_and_send_multiple_dest (Some b) dests recon debug st
      = Ok (ROk tt, st') ∧
    fwd_calls st' = fwd_calls st ++ (if recon then [CallReconstruct b] else []) ++ [CallDedup b] ++ cs ∧
    sends cs = (λ d, (λ p, (p, d)) <$> ps) <$> dests ∧
    ps `sublist_of` payloads b.
Proof.
  intros Ho Hp Ht Hwf ps.
  destruct (forward_spec b dests recon debug st Ho Hp Ht Hwf) as (st' & cs & E & Ec & Es & _).
  exists st', cs. split; [done|]. split; [done|].
  split; [|apply dedup_sublist]. rewrite Es. apply list_fmap_ext. intros _ d _.
  apply packets_with_dest_payloads.
Qed.


(** The duplicate counter does not count the duplicates of the batch: it
    grows by the number of discarded packets once per destination that was sent
    to, and by the number of packets that could not be sent for every other. *)
Lemma duplicate_counter b dests recon debug st :
  overflow_checks = false → no_poison → traces_ok debug → metrics_wf (fwd_metrics st) →
  ∃ st' cs, recv_from_channel_and_send_multiple_dest (Some b) dests recon debug st
      = Ok (ROk tt, st') ∧
    fwd_calls st' = fwd_calls st ++ (if recon then [CallReconstruct b] else []) ++ [CallDedup b] ++ cs ∧
    let discarded :=
      sumZ (λ p, if packet_discard p then 1 else 0) (deduplicated recon b (fwd_world st)) in
    load Duplicate (fwd_metrics st')
    = wrap 64 (load Duplicate (fwd_metrics st)
               + discarded * (Z.of_nat (length dests) - failures (results cs))
               + failed_packets (results cs)).
Proof.
  intros Ho Hp Ht Hwf.
  destruct (forward_spec b dests recon debug st Ho Hp Ht Hwf)
    as (st' & cs & E & Ec & _ & Er & _ & _ & _ & Hl).
  exists st', cs. split; [done|]. split; [done|]. cbv zeta.
  assert (length (results cs) = length dests) as Hlen by (rewrite Er; apply send_answers_length).
  unfold deduplicated. rewrite Hl, <-dedup_count, <-Hlen by done. clear Er. f_equal. simpl. rewrite Z.add_0_r, <-Z.add_assoc.
  f_equal. unfold failures, failed_packets. generalize ((dedup_packets b (dedup_world recon b (fwd_world st))).1.2) as d. intros d.
  clear Hl Hlen Ec. induction (results cs) as [|o rs IH]; [unfold sumZ; simpl; lia|].
  rewrite !sumZ_cons, IH. cbn [length]. rewrite Nat2Z.inj_succ.
  destruct o as [k|]; [change (send_delta _ d (Some k) Duplicate) with (Z.of_nat k)
                      |change (send_delta _ d None Duplicate) with d]; simpl; lia.
Qed.

(** Per source address, exactly the packets of the batch are counted, split
    by whether deduplication discarded them, whether the address was known or
    not; an address the batch does not mention keeps its counts. *)
Lemma sources_counted b dests recon debug st :
  overflow_checks = false → no_poison → traces_ok debug → metrics_wf (fwd_metrics st) →
  ∃ st', recv_from_channel_and_send_multiple_dest (Some b) dests recon debug st
      = Ok (ROk tt, st') ∧
    let batch := deduplicated recon b (fwd_world st) in
    ∀ addr,
      from_source addr true batch + from_source addr false batch
      = sumZ (λ p, if decide (packet_addr p = addr) then 1 else 0) b ∧
      packets_received (fwd_metrics st') !! addr
      = source_after (packets_received (fwd_metrics st) !! addr)
          (from_source addr true batch) (from_source addr false batch).
Proof.
  intros Ho Hp Ht Hwf.
  destruct (forward_spec b dests recon debug st Ho Hp Ht Hwf)
    as (st' & cs & E & _ & _ & _ & _ & Hs & _).
  exists st'. split; [done|]. intros batch addr. split; [|apply Hs].
  unfold batch, from_source, deduplicated.
  pose proof (dedup_marks b (dedup_world recon b (fwd_world st))) as Hf. clear -Hf.
  induction Hf as [|p p' l l' [Ha _] _ IH]; [done|]. rewrite !sumZ_cons, <-IH. rewrite Ha.
  destruct (decide (packet_addr p = addr)) as [Hx|Hx], (packet_discard p');
    repeat case_decide; naive_solver lia.
Qed.
End forwarder_properties.

(** * Witnesses *)

#[local] Existing Instance release.

Lemma forward_to_every_destination_witness :
  ∃ st' cs, recv_from_channel_and_send_multiple_dest (Some toy_fwd_batch) toy_dests true true
      toy_fwd = Ok (ROk tt, st') ∧ fwd_calls st' = [CallReconstruct toy_fwd_batch] ++
        [CallDedup toy_fwd_batch] ++ cs ∧
      sends cs = (λ d, (λ p, (p, d)) <$> [[x01]; [x03]]) <$> toy_dests ∧
      [[x01]; [x03]] `sublist_of` payloads toy_fwd_batch.
Proof.
  exact (forward_to_every_destination toy_fwd_batch toy_dests true true toy_fwd eq_refl
           toy_no_poison (toy_traces true) (new_wf true)).
Defined.


Lemma duplicate_counter_witness :
  ∃ st' cs, recv_from_channel_and_send_multiple_dest (Some toy_fwd_batch) toy_dests true false
      toy_fwd = Ok (ROk tt, st') ∧
    load Duplicate (fwd_metrics st')
    = wrap 64 (0 + 2 * (2 - failures (results cs)) + failed_packets (results cs)).
Proof.
  destruct (duplicate_counter toy_fwd_batch toy_dests true false toy_fwd eq_refl toy_no_poison
              (toy_traces false) (new_wf true)) as (st' & cs & E & _ & Hd).
  exists st', cs. split; [exact E|exact Hd].
Defined.

Lemma sources_counted_witness :
  ∃ st', recv_from_channel_and_send_multiple_dest (Some toy_fwd_batch) toy_dests false false
      toy_fwd = Ok (ROk tt, st') ∧
    packets_received (fwd_metrics st') !! V4 1 = Some (2, 2).
Proof.
  destruct (sources_counted toy_fwd_batch toy_dests false false toy_fwd eq_refl toy_no_poison
              (toy_traces false) (new_wf true)) as (st' & E & Hs).
  exists st'. split; [exact E|]. exact (proj2 (Hs (V4 1))).
Defined.

(** One run, evaluated: two packets are left, the second destination fails. *)
Example toy_forward_run :
  match recv_from_channel_and_send_multiple_dest (Some toy_fwd_batch) toy_dests false true toy_fwd with
  | Ok (ROk tt, st) =>
      (load Received (fwd_metrics st), load SuccessForward (fwd_metrics st),
       load FailForward (fwd_metrics st), load Duplicate (fwd_metrics st),
       packets_received (fwd_metrics st) !! V4 1) = (4, 2, 2, 3, Some (2, 2))
  | _ => False
  end.
Proof. vm_compute. reflexivity. Qed.
