(* ===== verification/Destinations.v ===== *)
(** Where shreds are forwarded to: [resolve_hostname_port] of proxy/src/main.rs,
    [fetch_unioned_destinations] and the destination refresh thread of
    proxy/src/forwarder.rs. *)

From S2P Require Import Prelude Net Errors Shreds.

(** What the outside world answers at one moment: the resolver behind
    [to_socket_addrs], the discovery service, and the JSON parser. *)
Record Outside := mkOutside {
  to_socket_addrs : string → result (list SocketAddr) IoError;
  http_get : string → result bytes string;
  parse_ip_list : bytes → result (list IpAddr) string;
}.

(** [resolve_hostname_port] *)
Definition resolve_hostname_port (o : Outside) (hostname_port : string) :
    result (SocketAddr * string) IoError :=
  try_ id (to_socket_addrs o hostname_port) (λ addrs,
  try_ id (ok_or (head addrs)
             (mkIoError AddrNotAvailable ("Could not find destination " +:+ hostname_port)))
    (λ socketaddr, ROk (socketaddr, hostname_port))).

(** [fetch_unioned_destinations] *)
Definition fetch_unioned_destinations (o : Outside) (endpoint_discovery_url : string)
    (discovered_endpoints_port : Z) (static_dest_sockets : list (SocketAddr * string)) :
    result (list SocketAddr) ShredstreamProxyError :=
  try_ ReqwestErr (http_get o endpoint_discovery_url) (λ bytes,
  match parse_ip_list o bytes with
  | RErr e => RErr (SerdeJsonErr e)
  | ROk sockets_json =>
      let static_dest_sockets :=
        omap (λ p : SocketAddr * string, fst <$> result_ok (resolve_hostname_port o p.2))
          static_dest_sockets in
      ROk (unique (((λ ip, SocketAddr_new ip discovered_endpoints_port) <$> sockets_json)
                   ++ static_dest_sockets))
  end).

(** * The refresh thread *)

Inductive RefreshEvent :=
  | FetchTick (o : Outside)
  | RefreshMetricsTick
  | RefreshShutdown.

Inductive RefreshLog :=
  | RefreshError (prev_unioned_dest_count : nat) (e : ShredstreamProxyError)
  | RefreshStats (destination_count : nat).

(** The shared destinations, the thread's own count and its datapoints. *)
Record Refresh := mkRefresh {
  unioned_dest_sockets : list SocketAddr;
  socket_count : nat;
  refresh_log : list RefreshLog;
}.

Section refresh.
Context (endpoint_discovery_url : string) (discovered_endpoints_port : Z).
Context (static_dest_sockets : list (SocketAddr * string)).

(** One [select!]; the flag says whether the loop goes on. *)
Definition refresh_step (st : Refresh) (ev : RefreshEvent) : Refresh * bool :=
  match ev with
  | FetchTick o =>
      match fetch_unioned_destinations o endpoint_discovery_url discovered_endpoints_port
              static_dest_sockets with
      | ROk new_sockets => (mkRefresh new_sockets (length new_sockets) (refresh_log st), true)
      | RErr e =>
          (mkRefresh (unioned_dest_sockets st) (socket_count st)
             (refresh_log st ++ [RefreshError (socket_count st) e]), true)
      end
  | RefreshMetricsTick =>
      (mkRefresh (unioned_dest_sockets st) (socket_count st)
         (refresh_log st ++ [RefreshStats (socket_count st)]), true)
  | RefreshShutdown => (st, false)
  end.

(** The loop over a finite prefix of its iterations. *)
Fixpoint refresh_loop (st : Refresh) (its : list (bool * RefreshEvent)) : Refresh * bool :=
  match its with
  | [] => (st, true)
  | (exit, ev) :: its =>
      if exit : bool then (st, false) else
      let '(st, running) := refresh_step st ev in
      if running then refresh_loop st its else (st, false)
  end.

(** [main] starts the destinations, and the thread its count, from the CLI. *)
Definition refresh_init : Refresh :=
  mkRefresh (fst <$> static_dest_sockets) (length static_dest_sockets) [].
End refresh.

(** * Lemmas *)

Lemma resolve_hostname_port_ok o h s :
  result_ok (resolve_hostname_port o h) = Some s ↔
  s.2 = h ∧ ∃ rest, to_socket_addrs o h = ROk (s.1 :: rest).
Proof.
  unfold resolve_hostname_port. destruct (to_socket_addrs o h) as [[|a l]|e]; simpl;
    destruct s; naive_solver.
Qed.

Lemma static_resolved o (static : list (SocketAddr * string)) s :
  s ∈ omap (λ p : SocketAddr * string, fst <$> result_ok (resolve_hostname_port o p.2)) static ↔
  ∃ a h rest, (a, h) ∈ static ∧ to_socket_addrs o h = ROk (s :: rest).
Proof.
  rewrite list_elem_of_omap. split.
  - intros ([a h] & Hin & ([s' h'] & Hr & ->)%fmap_Some).
    apply resolve_hostname_port_ok in Hr as [_ [rest Hr]]. simpl in *. eauto.
  - intros (a & h & rest & Hin & Hr). exists (a, h). split; [done|]. apply fmap_Some.
    exists (s, h). split; [|done]. apply resolve_hostname_port_ok. eauto.
Qed.

(** The destinations the last successful fetch of a run of events left. *)
Definition last_fetch (url : string) (port : Z) (static : list (SocketAddr * string))
    (cur : list SocketAddr) (evs : list RefreshEvent) : list SocketAddr :=
  foldl (λ cur ev, match ev with
                   | FetchTick o => default cur (result_ok (fetch_unioned_destinations o url port static))
                   | _ => cur end) cur evs.

(** The events a run handles: those before the first exit flag or shutdown. *)
Fixpoint handled (its : list (bool * RefreshEvent)) : list RefreshEvent :=
  match its with
  | (false, RefreshShutdown) :: _ | (true, _) :: _ | [] => []
  | (false, ev) :: its => ev :: handled its
  end.

Lemma refresh_loop_spec url port static st its :
  socket_count st = length (unioned_dest_sockets st) →
  let st' := (refresh_loop url port static st its).1 in
  unioned_dest_sockets st' = last_fetch url port static (unioned_dest_sockets st) (handled its) ∧
  socket_count st' = length (unioned_dest_sockets st').
Proof.
  revert st. induction its as [|[exit ev] its IH]; intros st Hc; [done|]. simpl.
  destruct exit; [done|]. destruct ev as [o| |]; simpl; [| |done].
  - destruct (fetch_unioned_destinations _ _ _ _) as [l|e]; simpl.
    + exact (IH (mkRefresh l (length l) _) eq_refl).
    + exact (IH (mkRefresh _ _ _) Hc).
  - exact (IH (mkRefresh _ _ _) Hc).
Qed.
