(* ===== verification/NetText.v ===== *)
(** The text form of addresses in the standard library ([core::net::parser] and
    [Display]): what [.parse::<IpAddr>()], [.parse::<Ipv4Addr>()] and
    [.parse::<u8>()] accept, and how an IPv4 address is printed.

    A reader takes the remaining input and gives a value and what is left, or
    fails and consumes nothing ([read_atomically]). *)

From Stdlib Require Import Ascii.
From stdpp Require Import pretty.
From S2P Require Import Prelude Net.

(** [char::to_digit]. *)
Definition to_digit (radix : Z) (c : ascii) : option Z :=
  let n := Z.of_N (Ascii.N_of_ascii c) in
  let d := if decide (48 ≤ n ≤ 57) then Some (n - 48)
           else if decide (97 ≤ n ≤ 122) then Some (n - 87)
           else if decide (65 ≤ n ≤ 90) then Some (n - 55) else None in
  d ≫= λ d, if decide (d < radix) then Some d else None.

Abbreviation reader A := (string → option (A * string)).

Definition read_given_char (c : ascii) : reader unit := λ s,
  match s with
  | String d s => if decide (c = d) then Some (tt, s) else None
  | EmptyString => None
  end.

(** The digit loop of [read_number]: it fails at the digit after [max_digits]. *)
Fixpoint read_digits (radix : Z) (max_digits : nat) (result : Z) (digit_count : nat)
    (s : string) : option (Z * nat * string) :=
  match s with
  | EmptyString => Some (result, digit_count, s)
  | String c s' =>
      match to_digit radix c with
      | None => Some (result, digit_count, s)
      | Some d =>
          if decide (max_digits < S digit_count)%nat then None
          else read_digits radix max_digits (result * radix + d) (S digit_count) s'
      end
  end.

Definition starts_with_zero (s : string) : bool :=
  match s with String c _ => bool_decide (c = "0"%char) | EmptyString => false end.

(** [read_number] into a type of [bound] values. *)
Definition read_number (radix : Z) (max_digits : nat) (allow_zero_prefix : bool) (bound : Z) :
    reader Z := λ s,
  '(result, digit_count, rest) ← read_digits radix max_digits 0 0 s;
  if decide (digit_count = 0%nat) then None
  else if negb allow_zero_prefix && starts_with_zero s && bool_decide (1 < digit_count)%nat
  then None
  else if decide (result < bound) then Some (result, rest) else None.

Definition read_separator {A} (sep : ascii) (index : nat) (inner : reader A) : reader A := λ s,
  match index with
  | O => inner s
  | S _ => '(_, s) ← read_given_char sep s; inner s
  end.

Definition read_octet (index : nat) : reader Z :=
  read_separator "." index (read_number 10 3 false 256).

Definition of_octets (a b c d : Z) : Z := ((a * 256 + b) * 256 + c) * 256 + d.

Definition read_ipv4_addr : reader Z := λ s,
  '(a, s) ← read_octet 0 s; '(b, s) ← read_octet 1 s;
  '(c, s) ← read_octet 2 s; '(d, s) ← read_octet 3 s;
  Some (of_octets a b c d, s).

(** [read_groups] from slot [i] with [slots] slots left. *)
Fixpoint read_groups (i slots : nat) (s : string) : list Z * bool * string :=
  match slots with
  | O => ([], false, s)
  | S slots =>
      match (match slots with O => None | S _ => read_separator ":" i read_ipv4_addr s end) with
      | Some (v4, s) => ([Z.shiftr v4 16; Z.land v4 0xffff], true, s)
      | None =>
          match read_separator ":" i (read_number 16 4 true 65536) s with
          | Some (g, s) => let '(gs, b, s) := read_groups (S i) slots s in (g :: gs, b, s)
          | None => ([], false, s)
          end
      end
  end.

Definition of_groups (gs : list Z) : Z := foldl (λ v g, v * 65536 + g) 0 gs.

Definition read_ipv6_addr : reader Z := λ s,
  let '(hd, head_ipv4, s) := read_groups 0 8 s in
  if decide (length hd = 8%nat) then Some (of_groups hd, s)
  else if head_ipv4 : bool then None else
  '(_, s) ← read_given_char ":" s; '(_, s) ← read_given_char ":" s;
  let limit := (8 - (length hd + 1))%nat in
  let '(tl, _, s) := read_groups 0 limit s in
  Some (of_groups (hd ++ replicate (8 - length hd - length tl) 0 ++ tl), s).

Definition read_ip_addr : reader IpAddr := λ s,
  match read_ipv4_addr s with
  | Some (a, s) => Some (V4 a, s)
  | None => '(a, s) ← read_ipv6_addr s; Some (V6 a, s)
  end.

(** [parse_with]: the whole input must be read. *)
Definition parse_with {A} (r : reader A) (s : string) : option A :=
  '(a, rest) ← r s; if decide (rest = "") then Some a else None.

Definition parse_IpAddr : string → option IpAddr := parse_with read_ip_addr.
Definition parse_Ipv4Addr (s : string) : option Z :=
  if decide (15 < String.length s)%nat then None else parse_with read_ipv4_addr s.

(** [u8::from_str]: an optional plus sign and at least one digit, below 256. *)
Fixpoint digits_value (v : Z) (s : string) : option Z :=
  match s with
  | EmptyString => Some v
  | String c s =>
      d ← to_digit 10 c;
      let v := v * 10 + d in if decide (v < 256) then digits_value v s else None
  end.
Definition parse_u8 (s : string) : option Z :=
  let digits := match s with String "+" s => s | _ => s end in
  if decide (digits = "") then None else digits_value 0 digits.

(** [str::split_once]. *)
Fixpoint split_once (c : ascii) (s : string) : option (string * string) :=
  match s with
  | EmptyString => None
  | String d s =>
      if decide (c = d) then Some ("", s)
      else '(a, b) ← split_once c s; Some (String d a, b)
  end.

(** [Display] of an [Ipv4Addr]. *)
Definition octet (a : Z) (i : Z) : Z := Z.land (Z.shiftr a (8 * i)) 0xff.
Definition show_octet (o : Z) : string := pretty (Z.to_N o).
Definition show_ipv4 (a : Z) : string :=
  show_octet (octet a 3) +:+ "." +:+ show_octet (octet a 2) +:+ "." +:+
  show_octet (octet a 1) +:+ "." +:+ show_octet (octet a 0).

Example parse_examples :
  (parse_IpAddr "233.84.178.2", parse_IpAddr "ff02::1", parse_IpAddr "::1.2.3.4",
   parse_IpAddr "1.2.3.04", parse_IpAddr "default", parse_IpAddr "1:2:3:4:5:6:7::",
   show_ipv4 3914641922, parse_u8 "+032", parse_u8 "256")
  = (Some (V4 3914641922), Some (V6 (0xff02 * 2 ^ 112 + 1)), Some (V6 0x01020304),
     None, None, Some (V6 0x00010002000300040005000600070000),
     "233.84.178.2", Some 32, None).
Proof. vm_compute. reflexivity. Qed.

(** * Lemmas *)

(** A rest at which the digits end. *)
Definition no_digit (radix : Z) (s : string) : Prop :=
  match s with String c _ => to_digit radix c = None | EmptyString => True end.

Lemma read_digits_app radix m v n s1 v' n' rest :
  read_digits radix m v n s1 = Some (v', n', "") → no_digit radix rest →
  read_digits radix m v n (s1 +:+ rest) = Some (v', n', rest).
Proof.
  intros Hs Hrest. revert v n Hs. induction s1 as [|c s1 IH]; intros v n; simpl.
  - intros [= <- <-]. destruct rest as [|c rest]; [done|]. simpl in *. by rewrite Hrest.
  - destruct (to_digit radix c); [|done]. case_decide; [done|]. apply IH.
Qed.

Lemma read_number_app radix m z b s1 v rest :
  read_number radix m z b s1 = Some (v, "") → no_digit radix rest →
  read_number radix m z b (s1 +:+ rest) = Some (v, rest).
Proof.
  unfold read_number. intros Hs Hrest.
  destruct (read_digits radix m 0 0 s1) as [[[r n] s']|] eqn:E; [|done]. simpl in Hs.
  assert (s' = "") as ->.
  { revert Hs. repeat case_match; congruence. }
  rewrite (read_digits_app _ _ _ _ _ _ _ _ E Hrest). simpl.
  destruct s1 as [|c s1]; [|simpl in *; repeat case_match; congruence].
  simpl in E. injection E as <- <-. by rewrite decide_True in Hs.
Qed.

(** Every octet is printed as digits that are read back, by enumeration. *)
Fixpoint string_forallb (f : ascii → bool) (s : string) : bool :=
  match s with String c s => f c && string_forallb f s | EmptyString => true end.

Definition is_digit (c : ascii) : bool := bool_decide (to_digit 10 c ≠ None).

Definition octet_checks (o : Z) : bool :=
  bool_decide (read_number 10 3 false 256 (show_octet o) = Some (o, "")) &&
  string_forallb is_digit (show_octet o).

Lemma all_octets_check : forallb octet_checks (seqZ 0 256) = true.
Proof. vm_compute. reflexivity. Qed.

Lemma octet_check o : 0 ≤ o < 256 → octet_checks o = true.
Proof.
  intros Ho. pose proof all_octets_check as Hall. rewrite forallb_forall in Hall.
  apply Hall, list_elem_of_In, elem_of_seqZ. lia.
Qed.

Lemma read_show_octet o rest :
  0 ≤ o < 256 → no_digit 10 rest →
  read_number 10 3 false 256 (show_octet o +:+ rest) = Some (o, rest).
Proof.
  intros Ho Hrest. apply octet_check in Ho. unfold octet_checks in Ho.
  apply andb_true_iff in Ho as [Hr _]. apply bool_decide_eq_true in Hr.
  by apply read_number_app.
Qed.

Lemma show_octet_digits o : 0 ≤ o < 256 → string_forallb is_digit (show_octet o) = true.
Proof. intros Ho. apply octet_check, andb_true_iff in Ho. tauto. Qed.

Lemma octet_bound a i : 0 ≤ octet a i < 256.
Proof.
  unfold octet. change 0xff with (Z.ones 8). rewrite Z.land_ones by lia.
  apply Z.mod_pos_bound. lia.
Qed.

Lemma of_octets_octet a :
  0 ≤ a < 2 ^ 32 → of_octets (octet a 3) (octet a 2) (octet a 1) (octet a 0) = a.
Proof.
  intros Ha. unfold of_octets, octet. change 0xff with (Z.ones 8).
  rewrite !Z.land_ones, !Z.shiftr_div_pow2 by lia.
  change (2 ^ (8 * 3)) with 16777216. change (2 ^ (8 * 2)) with 65536.
  change (2 ^ (8 * 1)) with 256. change (2 ^ (8 * 0)) with 1. change (2 ^ 8) with 256.
  change (2 ^ 32) with 4294967296 in Ha.
  pose proof (Z.div_mod a 256 ltac:(lia)).
  pose proof (Z.div_mod (a / 256) 256 ltac:(lia)).
  pose proof (Z.div_mod (a / 256 / 256) 256 ltac:(lia)).
  rewrite Z.div_1_r. change 16777216 with (256 * 256 * 256). change 65536 with (256 * 256).
  rewrite <-!Z.div_div by lia.
  rewrite (Z.mod_small (a / 256 / 256 / 256) 256); [lia|].
  split; [repeat apply Z.div_pos; lia|].
  rewrite !Z.div_div by lia. apply Z.div_lt_upper_bound; lia.
Qed.

Lemma string_app_assoc (a b c : string) : (a +:+ b) +:+ c = a +:+ b +:+ c.
Proof. induction a as [|x a IH]; [done|]. change (String x ((a +:+ b) +:+ c) = String x (a +:+ b +:+ c)). by rewrite IH. Qed.

Lemma string_app_nil (a : string) : a +:+ "" = a.
Proof. induction a as [|x a IH]; [done|]. change (String x (a +:+ "") = String x a). by rewrite IH. Qed.

Lemma read_sep {A} c i (r : reader A) s :
  read_separator c (S i) r (String c s) = r s.
Proof. unfold read_separator, read_given_char. by rewrite decide_True. Qed.

Lemma read_octet_0 o rest :
  0 ≤ o < 256 → no_digit 10 rest → read_octet 0 (show_octet o +:+ rest) = Some (o, rest).
Proof. apply read_show_octet. Qed.

Lemma read_octet_S i o rest :
  0 ≤ o < 256 → no_digit 10 rest →
  read_octet (S i) ("." +:+ show_octet o +:+ rest) = Some (o, rest).
Proof.
  intros Ho Hrest. unfold read_octet. change ("." +:+ ?s) with (String "." s).
  rewrite read_sep. by apply read_show_octet.
Qed.

Lemma option_bind_Some {A B} (f : A → option B) a : (Some a ≫= f) = f a.
Proof. done. Qed.

Lemma read_show_ipv4 a rest :
  0 ≤ a < 2 ^ 32 → no_digit 10 rest →
  read_ipv4_addr (show_ipv4 a +:+ rest) = Some (a, rest).
Proof.
  intros Ha Hrest. pose proof (octet_bound a) as Hb. unfold show_ipv4, read_ipv4_addr.
  rewrite !string_app_assoc, read_octet_0, option_bind_Some by done.
  do 3 (rewrite read_octet_S, option_bind_Some by done). by rewrite of_octets_octet.
Qed.

Lemma parse_show_ipv4 a : 0 ≤ a < 2 ^ 32 → parse_IpAddr (show_ipv4 a) = Some (V4 a).
Proof.
  intros Ha. unfold parse_IpAddr, parse_with, read_ip_addr.
  pose proof (read_show_ipv4 a "" Ha I) as Hr. rewrite string_app_nil in Hr. by rewrite Hr.
Qed.

Lemma split_once_spec c s :
  match split_once c s with
  | None => string_forallb (λ d, negb (bool_decide (c = d))) s = true
  | Some (a, b) => s = a +:+ String c b ∧
      string_forallb (λ d, negb (bool_decide (c = d))) a = true
  end.
Proof.
  induction s as [|d s IH]; simpl; [done|]. destruct (decide (c = d)) as [<-|Hne]; [done|].
  destruct (split_once c s) as [[a b]|]; simpl.
  - destruct IH as [-> IH]. split; [done|]. by rewrite bool_decide_eq_false_2.
  - by rewrite bool_decide_eq_false_2.
Qed.

Lemma split_once_app c a b :
  string_forallb (λ d, negb (bool_decide (c = d))) a = true →
  split_once c (a +:+ String c b) = Some (a, b).
Proof.
  induction a as [|d a IH]; simpl.
  - intros _. change ("" +:+ ?s) with s. simpl. by rewrite decide_True.
  - intros [Hd Ha]%andb_true_iff. apply negb_true_iff, bool_decide_eq_false in Hd.
    change (String d a +:+ ?s) with (String d (a +:+ s)). simpl.
    rewrite decide_False by done. by rewrite IH.
Qed.

Lemma split_once_None c s :
  string_forallb (λ d, negb (bool_decide (c = d))) s = true → split_once c s = None.
Proof.
  induction s as [|d s IH]; simpl; [done|]. intros [Hd Hs]%andb_true_iff.
  apply negb_true_iff, bool_decide_eq_false in Hd. by rewrite decide_False, IH.
Qed.

Lemma string_forallb_app f a b :
  string_forallb f (a +:+ b) = string_forallb f a && string_forallb f b.
Proof.
  induction a as [|c a IH]; [done|]. change (String c a +:+ b) with (String c (a +:+ b)).
  simpl. by rewrite IH, andb_assoc.
Qed.

Lemma string_forallb_impl f g s :
  (∀ c, f c = true → g c = true) → string_forallb f s = true → string_forallb g s = true.
Proof.
  intros Hfg. induction s as [|c s IH]; simpl; [done|]. rewrite !andb_true_iff. naive_solver.
Qed.

(** A printed address has no slash. *)
Lemma show_ipv4_no_slash a :
  string_forallb (λ d, negb (bool_decide ("/"%char = d))) (show_ipv4 a) = true.
Proof.
  unfold show_ipv4. rewrite !string_forallb_app.
  assert (∀ i, string_forallb (λ d, negb (bool_decide ("/"%char = d)))
                 (show_octet (octet a i)) = true) as Hd.
  { intros i. eapply string_forallb_impl, show_octet_digits, octet_bound.
    intros c Hc. apply negb_true_iff, bool_decide_eq_false. intros <-. discriminate Hc. }
  by rewrite !Hd.
Qed.
