(* ===== verification/Ipv6Text.v ===== *)
(** [Display] of an address in the standard library, and that parsing what was
    printed gives the address back.

    An IPv6 address is printed as its eight groups in lower-case hexadecimal,
    the first longest run of at least two zero groups as [::], and an IPv4-mapped
    one with its last four octets in decimal. *)

From Stdlib Require Import Ascii.
From stdpp Require Import pretty.
From S2P Require Import Prelude Net NetText.

(** * Printing *)

(** [{:x}] of a [u16]: at most four digits. *)
Definition hex_char (d : Z) : ascii := Ascii.ascii_of_N (Z.to_N (if d <? 10 then 48 + d else 87 + d)).
Fixpoint lower_hex (digits : nat) (g : Z) : string :=
  match digits with
  | O => ""
  | S digits =>
      (if g <? 16 then "" else lower_hex digits (g / 16)) +:+ String (hex_char (g mod 16)) ""
  end.
Definition show_group (g : Z) : string := lower_hex 4 g.

(** [Ipv6Addr::segments]. *)
Definition group (a : Z) (i : nat) : Z := Z.land (Z.shiftr a (16 * Z.of_nat i)) 0xffff.
Definition segments (a : Z) : list Z := group a <$> [7; 6; 5; 4; 3; 2; 1; 0]%nat.

(** [Ipv6Addr::to_ipv4_mapped]. *)
Definition to_ipv4_mapped (a : Z) : option Z :=
  if decide (Z.shiftr a 32 = 0xffff) then Some (Z.land a 0xffffffff) else None.

(** The run of zero groups to print as [::]: the [longest] so far and the [current]
    one, as first index and length. *)
Fixpoint zero_span (i : nat) (longest current : nat * nat) (segments : list Z) : nat * nat :=
  match segments with
  | [] => longest
  | segment :: segments =>
      if decide (segment = 0) then
        let current := (if decide (current.2 = 0)%nat then i else current.1, S current.2) in
        zero_span (S i) (if decide (longest.2 < current.2)%nat then current else longest)
          current segments
      else zero_span (S i) longest (0, 0)%nat segments
  end.

(** [fmt_subslice]. *)
Fixpoint fmt_tail (chunk : list Z) : string :=
  match chunk with [] => "" | g :: chunk => String ":" (show_group g +:+ fmt_tail chunk) end.
Definition fmt_subslice (chunk : list Z) : string :=
  match chunk with [] => "" | g :: chunk => show_group g +:+ fmt_tail chunk end.

Definition show_ipv6 (a : Z) : string :=
  match to_ipv4_mapped a with
  | Some v4 => "::ffff:" +:+ show_ipv4 v4
  | None =>
      let segments := segments a in
      let '(start, len) := zero_span 0 (0, 0)%nat (0, 0)%nat segments in
      if decide (1 < len)%nat
      then fmt_subslice (take start segments) +:+ "::" +:+ fmt_subslice (drop (start + len) segments)
      else fmt_subslice segments
  end.

Definition show_IpAddr (ip : IpAddr) : string :=
  match ip with V4 a => show_ipv4 a | V6 a => show_ipv6 a end.

(** The values an [IpAddr] has. *)
Definition ip_wf (ip : IpAddr) : Prop :=
  match ip with V4 a => 0 ≤ a < 2 ^ 32 | V6 a => 0 ≤ a < 2 ^ 128 end.

Example show_examples :
  (show_ipv6 0, show_ipv6 1, show_ipv6 (0xff02 * 2 ^ 112 + 1), show_ipv6 (0xffff * 2 ^ 32 + 0x0a000001),
   show_ipv6 0x00010000000000030000000000000008, show_ipv6 0x0001000200030004000500060007000a,
   show_ipv6 (0xfe80 * 2 ^ 112))
  = ("::", "::1", "ff02::1", "::ffff:10.0.0.1", "1:0:0:3::8", "1:2:3:4:5:6:7:a", "fe80::").
Proof. vm_compute. reflexivity. Qed.

(** * Lemmas *)

Lemma string_cons_app c (a b : string) : String c a +:+ b = String c (a +:+ b).
Proof. done. Qed.

(** ** One group *)

Lemma hex_char_digit d : 0 ≤ d < 16 → to_digit 16 (hex_char d) = Some d ∧ hex_char d ≠ "."%char.
Proof.
  intros Hd.
  assert (forallb (λ d, bool_decide (to_digit 16 (hex_char d) = Some d ∧ hex_char d ≠ "."%char))
            (seqZ 0 16) = true) as Hall by (vm_compute; reflexivity).
  rewrite forallb_forall in Hall. apply (bool_decide_eq_true _), Hall.
  apply list_elem_of_In, elem_of_seqZ. lia.
Qed.

Lemma read_digits_more radix m v n s1 v' n' s2 :
  read_digits radix m v n s1 = Some (v', n', "") →
  read_digits radix m v n (s1 +:+ s2) = read_digits radix m v' n' s2.
Proof.
  revert v n. induction s1 as [|c s1 IH]; intros v n; [by intros [= <- <-]|].
  rewrite string_cons_app. simpl. destruct (to_digit radix c); [|done]. case_decide; [done|]. apply IH.
Qed.

Lemma read_lower_hex k g :
  (k ≤ 3)%nat → 0 ≤ g < 16 ^ Z.of_nat (S k) →
  ∃ n, (0 < n ≤ S k)%nat ∧ read_digits 16 4 0 0 (lower_hex (S k) g) = Some (g, n, "").
Proof.
  revert g. induction k as [|k IH]; intros g Hk Hg.
  - exists 1%nat. split; [lia|]. change (16 ^ Z.of_nat 1) with 16 in Hg.
    unfold lower_hex. rewrite (proj2 (Z.ltb_lt g 16)) by lia. change ("" +:+ ?s) with s.
    rewrite Z.mod_small by lia. cbn [read_digits]. destruct (hex_char_digit g Hg) as [-> _].
    by rewrite decide_False by lia.
  - cbn [lower_hex]. fold (lower_hex (S k) (g / 16)).
    pose proof (Z.mod_pos_bound g 16 ltac:(lia)) as Hm.
    destruct (hex_char_digit _ Hm) as [Hd _]. destruct (Z.ltb_spec g 16).
    + exists 1%nat. split; [lia|]. change ("" +:+ ?s) with s. cbn [read_digits]. rewrite Hd.
      rewrite decide_False by lia. by rewrite Z.mod_small by lia.
    + destruct (IH (g / 16)) as (n & Hn & E); [lia| |].
      { rewrite Nat2Z.inj_succ, Z.pow_succ_r in Hg by lia.
        split; [apply Z.div_pos; lia|apply Z.div_lt_upper_bound; lia]. }
      exists (S n). split; [lia|]. rewrite (read_digits_more _ _ _ _ _ _ _ _ E).
      cbn [read_digits]. rewrite Hd. rewrite decide_False by lia.
      pose proof (Z.div_mod g 16 ltac:(lia)). do 3 f_equal. lia.
Qed.

Definition group_ok (g : Z) : Prop := 0 ≤ g < 65536.

Lemma read_show_group g rest :
  group_ok g → no_digit 16 rest →
  read_number 16 4 true 65536 (show_group g +:+ rest) = Some (g, rest).
Proof.
  intros Hg Hrest. apply read_number_app; [|done].
  destruct (read_lower_hex 3 g ltac:(lia) Hg) as (n & Hn & E).
  unfold read_number, show_group. rewrite E. cbn. rewrite decide_False by lia.
  unfold group_ok in Hg. by rewrite decide_True by lia.
Qed.

(** ** No dots *)

Definition no_dot (s : string) : bool := string_forallb (λ c, negb (bool_decide (c = "."%char))) s.

Lemma lower_hex_no_dot k g : 0 ≤ g → no_dot (lower_hex k g) = true.
Proof.
  revert g. induction k as [|k IH]; intros g Hg; [done|]. cbn [lower_hex]. unfold no_dot.
  rewrite string_forallb_app. apply andb_true_iff. split.
  - destruct (g <? 16); [done|]. apply IH, Z.div_pos; lia.
  - simpl. rewrite bool_decide_eq_false_2; [done|].
    apply hex_char_digit, Z.mod_pos_bound. lia.
Qed.

Lemma fmt_no_dot gs :
  Forall group_ok gs → no_dot (fmt_tail gs) = true ∧ no_dot (fmt_subslice gs) = true.
Proof.
  unfold no_dot. intros Hgs.
  assert (string_forallb (λ c, negb (bool_decide (c = "."%char))) (fmt_tail gs) = true) as Ht.
  { induction Hgs as [|g gs Hg _ IH]; [done|]. cbn [fmt_tail string_forallb].
    pose proof (lower_hex_no_dot 4 g ltac:(apply Hg)) as Hd. unfold no_dot in Hd.
    unfold show_group. by rewrite string_forallb_app, IH, Hd. }
  split; [done|]. destruct Hgs as [|g gs Hg Hgs]; [done|]. cbn [fmt_subslice fmt_tail] in *.
  exact Ht.
Qed.

(** What a reader leaves is the end of what it was given. *)
Lemma read_digits_suffix radix m v n s v' n' rest :
  read_digits radix m v n s = Some (v', n', rest) → ∃ s1, s = s1 +:+ rest.
Proof.
  revert v n. induction s as [|c s IH]; intros v n; simpl.
  { intros [= <- <- <-]. by exists "". }
  destruct (to_digit radix c) as [d|]; [|intros [= <- <- <-]; by exists ""].
  case_decide; [done|]. intros (s1 & ->)%IH. by exists (String c s1).
Qed.

Lemma read_number_suffix radix m z b s v rest :
  read_number radix m z b s = Some (v, rest) → ∃ s1, s = s1 +:+ rest.
Proof.
  unfold read_number. destruct (read_digits _ _ _ _ s) as [[[r n] s']|] eqn:E; [|done].
  simpl. repeat case_match; intros; simplify_eq. by eapply read_digits_suffix.
Qed.

(** Without a dot there is no IPv4 address. *)
Lemma read_ipv4_no_dot s : no_dot s = true → read_ipv4_addr s = None.
Proof.
  intros Hs. unfold read_ipv4_addr, read_octet. cbn [read_separator].
  destruct (read_number 10 3 false 256 s) as [[a rest]|] eqn:E; [|done].
  cbn [mbind option_bind]. apply read_number_suffix in E as (s1 & ->). unfold no_dot in Hs.
  rewrite string_forallb_app in Hs. apply andb_true_iff in Hs as [_ Hs].
  unfold read_separator, read_given_char. destruct rest as [|c rest]; [done|].
  simpl in Hs. apply andb_true_iff in Hs as [Hc _]. rewrite decide_False; [done|].
  intros <-. by rewrite bool_decide_eq_true_2 in Hc.
Qed.

(** ** The groups *)

(** A rest at which [read_groups] stops, once it has read [i] groups. *)
Definition stops (i : nat) (rest : string) : Prop :=
  no_digit 16 rest ∧ no_dot rest = true ∧
  read_separator ":" i (read_number 16 4 true 65536) rest = None.

Lemma no_digit_colon s : no_digit 16 (String ":" s).
Proof. done. Qed.

Lemma read_sep_no_dot i s :
  no_dot s = true → read_separator ":" i read_ipv4_addr s = None.
Proof.
  intros Hs. destruct i; cbn [read_separator]; [by apply read_ipv4_no_dot|].
  unfold read_given_char. destruct s as [|c s]; [done|]. case_decide; [|done].
  cbn [mbind option_bind]. apply read_ipv4_no_dot. unfold no_dot in *. simpl in Hs.
  by apply andb_true_iff in Hs as [_ Hs].
Qed.

Lemma read_groups_stop i slots rest : stops i rest → read_groups i slots rest = ([], false, rest).
Proof.
  intros (_ & Hd & Hr). destruct slots as [|slots]; [done|]. cbn [read_groups].
  rewrite Hr. destruct slots; [done|]. by rewrite (read_sep_no_dot i rest Hd).
Qed.

Lemma read_groups_tail i slots gs rest :
  Forall group_ok gs → (length gs ≤ slots)%nat → stops (S i + length gs) rest →
  read_groups (S i) slots (fmt_tail gs +:+ rest) = (gs, false, rest).
Proof.
  intros Hgs. revert i slots. induction Hgs as [|g gs Hg Hgs IH]; intros i slots Hl Hstop.
  { apply read_groups_stop. by rewrite Nat.add_0_r in Hstop. }
  destruct slots as [|slots]; simpl in Hl; [lia|].
  assert (no_dot (fmt_tail (g :: gs) +:+ rest) = true) as Hd.
  { unfold no_dot. rewrite string_forallb_app. apply andb_true_iff. split; [|apply Hstop].
    apply fmt_no_dot. by constructor. }
  cbn [read_groups]. cbn [fmt_tail] in *. rewrite string_cons_app, string_app_assoc in *.
  rewrite (read_sep_no_dot (S i) _ Hd).
  assert (no_digit 16 (fmt_tail gs +:+ rest)) as Hn by (by destruct gs; [apply Hstop|]).
  destruct slots as [|slots]; rewrite read_sep, read_show_group by done;
    (rewrite IH; [done|lia|]);
    by replace (S (S i) + length gs)%nat with (S i + length (g :: gs))%nat by (simpl; lia).
Qed.

Lemma read_groups_subslice slots gs rest :
  Forall group_ok gs → (length gs ≤ slots)%nat → stops (length gs) rest →
  read_groups 0 slots (fmt_subslice gs +:+ rest) = (gs, false, rest).
Proof.
  intros Hgs Hl Hstop. pose proof (fmt_no_dot gs Hgs) as [_ Hd].
  destruct Hgs as [|g gs Hg Hgs]; [by apply read_groups_stop|].
  destruct slots as [|slots]; simpl in Hl; [lia|]. cbn [read_groups fmt_subslice] in *.
  assert (no_dot ((show_group g +:+ fmt_tail gs) +:+ rest) = true) as Hd'.
  { unfold no_dot in *. rewrite string_forallb_app, Hd. apply Hstop. }
  rewrite string_app_assoc in *. cbn [read_separator]. rewrite (read_ipv4_no_dot _ Hd').
  assert (no_digit 16 (fmt_tail gs +:+ rest)) as Hn by (by destruct gs; [apply Hstop|]).
  destruct slots as [|slots]; rewrite read_show_group by done;
    rewrite (read_groups_tail 0) by (done || lia); done.
Qed.

(** ** The address of its groups *)

Lemma group_bound a i : group_ok (group a i).
Proof.
  unfold group_ok, group. change 0xffff with (Z.ones 16). rewrite Z.land_ones by lia.
  apply Z.mod_pos_bound. lia.
Qed.

Lemma of_groups_cons g gs : of_groups (g :: gs) = g * 65536 ^ Z.of_nat (length gs) + of_groups gs.
Proof.
  unfold of_groups. simpl.
  assert (∀ v, foldl (λ v g, v * 65536 + g) v gs
               = v * 65536 ^ Z.of_nat (length gs) + foldl (λ v g, v * 65536 + g) 0 gs) as Hv.
  { induction gs as [|h gs IH]; intros v; cbn [foldl length]; [rewrite Z.pow_0_r; lia|].
    rewrite Nat2Z.inj_succ, Z.pow_succ_r by lia. rewrite IH, (IH (0 * 65536 + h)). lia. }
  apply (Hv g).
Qed.

Lemma of_groups_of a k : of_groups (group a <$> rev (seq 0 k)) = a mod 65536 ^ Z.of_nat k.
Proof.
  induction k as [|k IH]; [by rewrite Z.mod_1_r|].
  rewrite seq_S, rev_app_distr. cbn [rev app fmap list_fmap]. rewrite of_groups_cons, IH.
  rewrite length_fmap, length_rev, length_seq. unfold group. change 0xffff with (Z.ones 16).
  rewrite Z.land_ones, Z.shiftr_div_pow2 by lia. cbn [Nat.add].
  rewrite Nat2Z.inj_succ, Z.pow_succ_r, (Z.mul_comm 65536), Z.rem_mul_r by lia.
  change 65536 with (2 ^ 16). rewrite <-Z.pow_mul_r by lia. lia.
Qed.

Lemma of_segments a : 0 ≤ a < 2 ^ 128 → of_groups (segments a) = a.
Proof.
  intros Ha. change (segments a) with (group a <$> rev (seq 0 8)). rewrite of_groups_of.
  by apply Z.mod_small.
Qed.

Lemma segments_ok a : Forall group_ok (segments a).
Proof. apply Forall_fmap, Forall_true. intros i. apply group_bound. Qed.

(** The span found is one of zeros. *)
Definition span_ok (gs : list Z) (s : nat * nat) : Prop :=
  take s.2 (drop s.1 gs) = replicate s.2 0.

Lemma zero_span_ok seen gs longest current :
  span_ok (seen ++ gs) longest →
  (current.2 = 0%nat ∨ current.1 + current.2 = length seen ∧ span_ok (seen ++ gs) current)%nat →
  span_ok (seen ++ gs) (zero_span (length seen) longest current gs).
Proof.
  revert seen longest current. induction gs as [|g gs IH]; intros seen longest current Hl Hc; [done|].
  cbn [zero_span]. rewrite (cons_middle g seen gs), app_assoc in *.
  replace (S (length seen)) with (length (seen ++ [g])) by (rewrite length_app; simpl; lia).
  destruct (decide (g = 0)) as [->|Hg]; [|apply IH; [done|by left]].
  set (current' := (if decide _ then _ else _, S _)).
  assert ((current'.1 + current'.2)%nat = length (seen ++ [0])) as Hlen.
  { unfold current'. rewrite length_app. simpl. case_decide; simpl; lia. }
  assert (span_ok ((seen ++ [0]) ++ gs) current') as Hok.
  { unfold span_ok, current' in *. simpl. case_decide as Hz.
    - rewrite Hz, <-app_assoc, drop_app_length. done.
    - destruct Hc as [?|[Hc1 Hc2]]; [done|].
      rewrite (take_S_r _ _ 0), Hc2, <-replicate_cons_app; [done|].
      rewrite lookup_drop, Hc1, <-app_assoc, lookup_app_r, Nat.sub_diag by lia. done. }
  apply IH; [|by right]. by case_decide.
Qed.

(** ** The round trip *)

Lemma stops_double_colon i s : no_dot s = true → stops i (String ":" (String ":" s)).
Proof. intros Hs. split; [done|]. split; [exact Hs|]. by destruct i. Qed.

Lemma stops_end i : stops i "".
Proof. split; [done|]. split; [done|]. by destruct i. Qed.

Lemma parse_with_end {A} (r : reader A) s a : r s = Some (a, "") → parse_with r s = Some a.
Proof. unfold parse_with. by intros ->. Qed.

Lemma read_ip_no_dot s a :
  no_dot s = true → read_ipv6_addr s = Some (a, "") → parse_IpAddr s = Some (V6 a).
Proof.
  intros Hd Hr. apply parse_with_end. unfold read_ip_addr.
  by rewrite (read_ipv4_no_dot _ Hd), Hr.
Qed.

(** All eight groups. *)
Lemma read_all_groups gs :
  Forall group_ok gs → length gs = 8%nat → parse_IpAddr (fmt_subslice gs) = Some (V6 (of_groups gs)).
Proof.
  intros Hgs Hl. apply read_ip_no_dot; [by apply fmt_no_dot|]. unfold read_ipv6_addr.
  pose proof (read_groups_subslice 8 gs "" Hgs ltac:(lia) (stops_end _)) as Hr.
  rewrite string_app_nil in Hr. rewrite Hr. by rewrite decide_True.
Qed.

(** A run of zeros left out. *)
Lemma read_compressed hd tl k :
  Forall group_ok hd → Forall group_ok tl → (0 < k)%nat → (length hd + k + length tl = 8)%nat →
  parse_IpAddr (fmt_subslice hd +:+ "::" +:+ fmt_subslice tl)
  = Some (V6 (of_groups (hd ++ replicate k 0 ++ tl))).
Proof.
  intros Hhd Htl Hk Hl. destruct (fmt_no_dot hd Hhd) as [_ Hd1], (fmt_no_dot tl Htl) as [_ Hd2].
  change ("::" +:+ fmt_subslice tl) with (String ":" (String ":" (fmt_subslice tl))).
  apply read_ip_no_dot; [unfold no_dot in *; rewrite string_forallb_app, Hd1; exact Hd2|].
  unfold read_ipv6_addr.
  rewrite (read_groups_subslice 8 hd _ Hhd ltac:(lia) (stops_double_colon _ _ Hd2)).
  rewrite decide_False by lia. unfold read_given_char. rewrite !decide_True by done.
  cbn [mbind option_bind]. rewrite decide_True by done. cbn [mbind option_bind].
  pose proof (read_groups_subslice (8 - (length hd + 1)) tl "" Htl ltac:(lia) (stops_end _)) as Hr.
  rewrite string_app_nil in Hr. rewrite Hr. by replace (8 - length hd - length tl)%nat with k by lia.
Qed.

Lemma read_sep_0 {A} c (r : reader A) s : read_separator c 0 r s = r s.
Proof. done. Qed.

(** An IPv4-mapped address. *)
Lemma read_mapped v :
  0 ≤ v < 2 ^ 32 → parse_IpAddr ("::ffff:" +:+ show_ipv4 v) = Some (V6 (0xffff * 2 ^ 32 + v)).
Proof.
  intros Hv. apply parse_with_end.
  pose proof (read_show_ipv4 v "" Hv I) as Hr. rewrite string_app_nil in Hr.
  assert (read_groups 0 7 ("ffff:" +:+ show_ipv4 v)
          = ([0xffff; Z.shiftr v 16; Z.land v 0xffff], true, "")) as Hg.
  { change ("ffff:" +:+ show_ipv4 v) with ("ffff" +:+ String ":" (show_ipv4 v)).
    cbn [read_groups]. rewrite !read_sep_0.
    change (read_ipv4_addr ("ffff" +:+ String ":" (show_ipv4 v))) with (None (A := Z * string)).
    rewrite (read_number_app 16 4 true 65536 "ffff" 0xffff) by done.
    by rewrite read_sep, Hr. }
  unfold read_ip_addr. change ("::ffff:" +:+ show_ipv4 v) with (String ":" (String ":" ("ffff:" +:+ show_ipv4 v))).
  change (read_ipv4_addr (String ":" _)) with (None (A := Z * string)). unfold read_ipv6_addr.
  assert (∀ s, read_groups 0 8 (String ":" s) = ([], false, String ":" s)) as -> by done.
  rewrite decide_False by (simpl; lia). unfold read_given_char. rewrite !decide_True by done.
  cbn [mbind option_bind]. rewrite decide_True by done. cbn [mbind option_bind].
  change (8 - (length [] + 1))%nat with 7%nat. rewrite Hg. do 2 f_equal.
  change 0xffff with (Z.ones 16). rewrite Z.land_ones, Z.shiftr_div_pow2 by lia.
  unfold of_groups. cbn [length Nat.sub replicate app foldl]. change (Z.ones 16) with 65535.
  change (2 ^ 16) with 65536. pose proof (Z.div_mod v 65536 ltac:(lia)). cbn [mbind option_bind].
  do 3 f_equal. lia.
Qed.

Lemma mapped_value a v :
  0 ≤ a < 2 ^ 128 → to_ipv4_mapped a = Some v → a = 0xffff * 2 ^ 32 + v ∧ 0 ≤ v < 2 ^ 32.
Proof.
  intros Ha. unfold to_ipv4_mapped. case_decide as Hm; [|done]. intros [= <-].
  change 0xffffffff with (Z.ones 32). rewrite Z.land_ones by lia.
  rewrite Z.shiftr_div_pow2 in Hm by lia.
  pose proof (Z.div_mod a (2 ^ 32) ltac:(lia)). pose proof (Z.mod_pos_bound a (2 ^ 32) ltac:(lia)).
  rewrite Hm in *. lia.
Qed.

Lemma parse_show_IpAddr ip : ip_wf ip → parse_IpAddr (show_IpAddr ip) = Some ip.
Proof.
  destruct ip as [a|a]; [apply parse_show_ipv4|]. intros Ha. cbn [show_IpAddr]. unfold show_ipv6.
  destruct (to_ipv4_mapped a) as [v|] eqn:Hm.
  { destruct (mapped_value a v Ha Hm) as [-> Hv]. by apply read_mapped. }
  pose proof (segments_ok a) as Hok. pose proof (of_segments a Ha) as Hval.
  assert (length (segments a) = 8%nat) as Hlen by done.
  destruct (zero_span 0 _ _ (segments a)) as [start len] eqn:Hz. case_decide as Hl.
  - assert (span_ok (segments a) (start, len)) as Hspan.
    { rewrite <-Hz. apply (zero_span_ok []); [done|by left]. }
    unfold span_ok in Hspan. cbn [fst snd] in Hspan.
    pose proof (f_equal length Hspan) as Hlens.
    rewrite length_take, length_drop, length_replicate, Hlen in Hlens.
    rewrite (read_compressed _ _ len).
    + rewrite <-Hspan, <-drop_drop, take_drop, take_drop. by rewrite Hval.
    + by apply Forall_take.
    + by apply Forall_drop.
    + lia.
    + rewrite length_take, length_drop, Hlen. lia.
  - rewrite read_all_groups by done. by rewrite Hval.
Qed.

(** ** What is parsed is an address *)

Lemma to_digit_nonneg radix c d : to_digit radix c = Some d → 0 ≤ d.
Proof.
  unfold to_digit. repeat case_decide; cbn [mbind option_bind]; try done;
    case_decide; intros [= <-]; lia.
Qed.

Lemma read_digits_nonneg radix m v n s v' n' rest :
  0 ≤ radix → 0 ≤ v → read_digits radix m v n s = Some (v', n', rest) → 0 ≤ v'.
Proof.
  intros Hr. revert v n. induction s as [|c s IH]; intros v n Hv; simpl; [by intros [= <- <- <-]|].
  destruct (to_digit radix c) as [d|] eqn:Hd; [|by intros [= <- <- <-]]. case_decide; [done|].
  apply IH. apply to_digit_nonneg in Hd. nia.
Qed.

Lemma read_number_bound radix m z b s v rest :
  0 ≤ radix → read_number radix m z b s = Some (v, rest) → 0 ≤ v < b.
Proof.
  intros Hr. unfold read_number. destruct (read_digits _ _ _ _ s) as [[[r n] s']|] eqn:E; [|done].
  apply read_digits_nonneg in E; [|done..]. simpl. repeat case_match; intros; simplify_eq. lia.
Qed.

Lemma read_octet_bound i s o rest : read_octet i s = Some (o, rest) → 0 ≤ o < 256.
Proof.
  unfold read_octet, read_separator. destruct i; [by apply read_number_bound|].
  intros ([? ?] & _ & Hr)%bind_Some. by apply read_number_bound in Hr.
Qed.

Lemma read_ipv4_bound s a rest : read_ipv4_addr s = Some (a, rest) → 0 ≤ a < 2 ^ 32.
Proof.
  unfold read_ipv4_addr, of_octets.
  intros ([o3 s3] & H3%read_octet_bound & Hr)%bind_Some.
  apply bind_Some in Hr as ([o2 s2] & H2%read_octet_bound & Hr).
  apply bind_Some in Hr as ([o1 s1] & H1%read_octet_bound & Hr).
  apply bind_Some in Hr as ([o0 s0] & H0%read_octet_bound & [= <- <-]).
  change (2 ^ 32) with 4294967296. lia.
Qed.

Lemma read_groups_bound i slots s gs b rest :
  read_groups i slots s = (gs, b, rest) → Forall group_ok gs ∧ (length gs ≤ slots)%nat.
Proof.
  revert i s gs b rest. induction slots as [|slots IH]; intros i s gs b rest; cbn [read_groups].
  { intros [= <- <- <-]. split; [constructor|done]. }
  destruct (match slots with O => None | S _ => _ end) as [[v s']|] eqn:E4.
  - intros [= <- <- <-]. destruct slots as [|slots]; [done|]. split; [|simpl; lia].
    assert (0 ≤ v < 2 ^ 32) as Hv.
    { unfold read_separator in E4. destruct i; [by eapply read_ipv4_bound|].
      apply bind_Some in E4 as ([? ?] & _ & E4). by eapply read_ipv4_bound. }
    unfold group_ok. change 0xffff with (Z.ones 16). rewrite Z.land_ones, Z.shiftr_div_pow2 by lia.
    change (2 ^ 32) with (65536 * 65536) in Hv. change (2 ^ 16) with 65536. repeat constructor.
    + apply Z.div_pos; lia.
    + apply Z.div_lt_upper_bound; lia.
    + apply Z.mod_pos_bound; lia.
    + apply Z.mod_pos_bound; lia.
  - destruct (read_separator ":" i (read_number 16 4 true 65536) s) as [[g s']|] eqn:Eg;
      [|intros [= <- <- <-]; split; [constructor|simpl; lia]].
    destruct (read_groups (S i) slots s') as [[gs' b'] s''] eqn:E. intros [= <- <- <-].
    apply IH in E as [Hgs Hl]. split; [constructor; [|done]|simpl; lia].
    unfold read_separator in Eg. destruct i; [by apply read_number_bound in Eg|].
    apply bind_Some in Eg as ([? ?] & _ & Eg). by apply read_number_bound in Eg.
Qed.

Lemma of_groups_bound gs : Forall group_ok gs → 0 ≤ of_groups gs < 65536 ^ Z.of_nat (length gs).
Proof.
  induction 1 as [|g gs Hg _ IH]; [by compute|]. rewrite of_groups_cons. cbn [length].
  rewrite Nat2Z.inj_succ, Z.pow_succ_r by lia. unfold group_ok in Hg. nia.
Qed.

Lemma parse_IpAddr_wf s ip : parse_IpAddr s = Some ip → ip_wf ip.
Proof.
  unfold parse_IpAddr, parse_with. intros ([ip' rest] & Hr & Hip)%bind_Some.
  case_decide; [|done]. injection Hip as <-. unfold read_ip_addr in Hr.
  destruct (read_ipv4_addr s) as [[a s']|] eqn:E4.
  { injection Hr as <- <-. by eapply read_ipv4_bound. }
  apply bind_Some in Hr as ([a s'] & Hr & [= <- <-]). unfold read_ipv6_addr in Hr.
  assert (∀ gs, Forall group_ok gs → length gs = 8%nat → ip_wf (V6 (of_groups gs))) as Hwf.
  { intros gs Hgs Hl. pose proof (of_groups_bound gs Hgs) as Hb. by rewrite Hl in Hb. }
  destruct (read_groups 0 8 s) as [[hd b] s1] eqn:Eh. apply read_groups_bound in Eh as [Hhd Hlh].
  case_decide as Hl8; [injection Hr as <- <-; by apply Hwf|]. destruct b; [done|].
  apply bind_Some in Hr as ([? s2] & _ & Hr). apply bind_Some in Hr as ([? s3] & _ & Hr).
  destruct (read_groups 0 (8 - (length hd + 1)) s3) as [[tl b'] s4] eqn:Et.
  apply read_groups_bound in Et as [Htl Hlt]. injection Hr as <- <-. apply Hwf.
  - apply Forall_app. split; [done|]. apply Forall_app. split; [|done].
    apply Forall_replicate. by compute.
  - rewrite !length_app, length_replicate. lia.
Qed.
