(* ===== verification/Multicast.v ===== *)
(** proxy/src/multicast_config.rs: which multicast groups are routed to a device,
    and the sockets that join them. *)

From Stdlib Require Import Ascii.
From S2P Require Import Prelude Net Errors Shreds NetText.

(** What [Command::output] gives. *)
Record CommandOutput := mkOutput {
  status_success : bool;
  status_string : string;
  stdout : bytes;
}.

(** The rows the JSON parsers deserialize into. *)
Record RouteRow := mkRouteRow { dst : string }.
Record AddrInfo := mkAddrInfo { family : option string; local : option string }.
Record IfaceRow := mkIfaceRow { addr_info : option (list AddrInfo) }.
Record LinkRow := mkLinkRow { ifindex : option Z }.

(** A bound UDP socket and the groups it joined, each with the interface (an
    address for IPv4, an index for IPv6), the last first. *)
Record UdpSocket := mkUdpSocket {
  local_addr : SocketAddr;
  memberships : list (IpAddr * Z);
}.

(** The operating system and [serde_json]. *)
Class Host := {
  command_output : list string → result CommandOutput IoError;
  routes_from_slice : bytes → result (list RouteRow) details;
  ifaces_from_slice : bytes → result (list IfaceRow) details;
  links_from_slice : bytes → result (list LinkRow) details;
  bind_udp : SocketAddr → result unit IoError;
  join_multicast : UdpSocket → IpAddr → Z → result unit IoError;
}.

Section multicast.
Context `{Host}.

(** [run_ip_json] *)
Definition run_ip_json (args : list string) : result bytes IoError :=
  try_ id (command_output args) (λ output,
  if status_success output then ROk (stdout output)
  else RErr (mkIoError OtherKind
         ("`ip " +:+ String.concat " " args +:+ "` failed with status "
          +:+ status_string output))).

(** The closure of [parse_ip_route_for_device]'s [filter_map]. *)
Definition route_group (r : RouteRow) : option IpAddr :=
  match split_once "/"%char (dst r) with
  | Some (base, mask_str) =>
      ip ← parse_IpAddr base;
      mask ← parse_u8 mask_str;
      let is_exact := match ip with V4 _ => mask =? 32 | V6 _ => mask =? 128 end in
      if is_multicast ip && is_exact then Some ip else None
  | None =>
      ip ← parse_IpAddr (dst r); if is_multicast ip then Some ip else None
  end.

(** [parse_ip_route_for_device] *)
Definition parse_ip_route_for_device (bytes : bytes) : result (list IpAddr) IoError :=
  try_ (mkIoError InvalidData) (routes_from_slice bytes) (λ rows,
  ROk (dedup (sort_by ip_leb (omap route_group rows)))).

Definition get_ip_route_for_device (device : string) : result (list IpAddr) IoError :=
  try_ id (run_ip_json ["--json"; "route"; "show"; "dev"; device]) parse_ip_route_for_device.

(** [find_map] *)
Fixpoint find_map {A B} (f : A → option B) (l : list A) : option B :=
  match l with
  | [] => None
  | x :: l => match f x with Some y => Some y | None => find_map f l end
  end.

(** [parse_ipv4_addr_from_ip_addr_show_json] *)
Definition parse_ipv4_addr_from_ip_addr_show_json (bytes : bytes) : result (option Z) IoError :=
  try_ (mkIoError InvalidData) (ifaces_from_slice bytes) (λ rows,
  ROk (find_map (λ info, if decide (family info = Some "inet") then local info else None)
         (mjoin ((λ row, default [] (addr_info row)) <$> rows)) ≫= parse_Ipv4Addr)).

Definition ipv4_addr_for_device (device : string) : result (option Z) IoError :=
  try_ id (run_ip_json ["--json"; "addr"; "show"; "dev"; device])
    parse_ipv4_addr_from_ip_addr_show_json.

(** [parse_ifindex_from_ip_link_show_json] *)
Definition parse_ifindex_from_ip_link_show_json (bytes : bytes) : result (option Z) IoError :=
  try_ (mkIoError InvalidData) (links_from_slice bytes) (λ rows,
  ROk (last rows ≫= ifindex)).

Definition ifindex_for_device (device : string) : result (option Z) IoError :=
  try_ id (run_ip_json ["--json"; "link"; "show"; "dev"; device])
    parse_ifindex_from_ip_link_show_json.

(** The two groups lists of [create_multicast_socket_on_device]. *)
Definition v4_of (ip : IpAddr) : option Z := match ip with V4 a => Some a | V6 _ => None end.
Definition v6_of (ip : IpAddr) : option Z := match ip with V6 a => Some a | V4 _ => None end.
Definition multicast_groups (device_name : string) (multicast_ip : option IpAddr) :
    list Z * list Z :=
  match multicast_ip with
  | Some (V4 g) => ([g], [])
  | Some (V6 g6) => ([], [g6])
  | None =>
      match get_ip_route_for_device device_name with
      | ROk ips => (omap v4_of ips, omap v6_of ips)
      | RErr _ => ([], [])
      end
  end.

(** The loop that joins the groups; a failure is only logged. *)
Definition join_groups (sock : UdpSocket) (groups : list IpAddr) (interface : Z) : UdpSocket :=
  foldl (λ sock g,
    match join_multicast sock g interface with
    | ROk _ => mkUdpSocket (local_addr sock) ((g, interface) :: memberships sock)
    | RErr _ => sock
    end) sock groups.

(** Binds the socket of one family and joins its groups. *)
Definition family_socket (addr : SocketAddr) (groups : list IpAddr) (interface : Z) :
    list UdpSocket :=
  if decide (groups = []) then [] else
  match bind_udp addr with
  | ROk _ => [join_groups (mkUdpSocket addr []) groups interface]
  | RErr _ => []
  end.

(** [create_multicast_socket_on_device] *)
Definition create_multicast_socket_on_device (device_name : string) (multicast_port : Z)
    (multicast_ip : option IpAddr) : option (list UdpSocket) :=
  let device_ipv4 := match ipv4_addr_for_device device_name with ROk a => a | RErr _ => None end in
  let device_ifindex_v6 := match ifindex_for_device device_name with ROk i => i | RErr _ => None end in
  let '(groups_v4, groups_v6) := multicast_groups device_name multicast_ip in
  if decide (groups_v4 = [] ∧ groups_v6 = []) then None else
  let sockets :=
    family_socket (SocketAddr_new (V4 UNSPECIFIED_V4) multicast_port) (V4 <$> groups_v4)
      (default UNSPECIFIED_V4 device_ipv4) ++
    family_socket (SocketAddr_new (V6 UNSPECIFIED_V6) multicast_port) (V6 <$> groups_v6)
      (default 0 device_ifindex_v6) in
  if decide (sockets = []) then None else Some sockets.
End multicast.
