(* ===== verification/MulticastTheorems.v ===== *)
(** The properties of the multicast discovery: the groups read from the routes of
    a device, and the sockets that join them. *)

From Stdlib Require Import Ascii.
From S2P Require Import Prelude Net Errors Shreds NetText Multicast.

Section multicast.
Context `{Host}.

(** * Specification *)

Definition no_slash (s : string) : Prop :=
  string_forallb (λ d, negb (bool_decide ("/"%char = d))) s = true.

Definition full_length (ip : IpAddr) : Z := match ip with V4 _ => 32 | V6 _ => 128 end.

(** A route to exactly the address [ip]: the address, or the address with a
    full-length mask. *)
Definition routes_to (r : RouteRow) (ip : IpAddr) : Prop :=
  (no_slash (dst r) ∧ parse_IpAddr (dst r) = Some ip) ∨
  (∃ base mask, dst r = base +:+ String "/" mask ∧ no_slash base ∧
     parse_IpAddr base = Some ip ∧ parse_u8 mask = Some (full_length ip)).

(** An IPv4 route as [ip] prints it. *)
Definition show_route (r : Z * option Z) : RouteRow :=
  mkRouteRow (show_ipv4 r.1 +:+ match r.2 with Some m => String "/" (show_octet m) | None => "" end).

Definition strictly_sorted : list IpAddr → Prop :=
  StronglySorted (λ x y, ip_leb x y = true ∧ x ≠ y).

(** The groups a socket is wanted for, the address it is bound to and the
    interface it joins on. *)
Definition wanted (device : string) (multicast_ip : option IpAddr) (g : IpAddr) : Prop :=
  match multicast_ip with
  | Some ip => g = ip
  | None => ∃ ips, get_ip_route_for_device device = ROk ips ∧ g ∈ ips
  end.
Definition wildcard (g : IpAddr) (port : Z) : SocketAddr :=
  SocketAddr_new (match g with V4 _ => V4 UNSPECIFIED_V4 | V6 _ => V6 UNSPECIFIED_V6 end) port.
Definition interface_for (device : string) (g : IpAddr) : Z :=
  match g with
  | V4 _ => default UNSPECIFIED_V4 (match ipv4_addr_for_device device with ROk a => a | RErr _ => None end)
  | V6 _ => default 0 (match ifindex_for_device device with ROk i => i | RErr _ => None end)
  end.

(** * Lemmas *)

Lemma route_group_spec r ip :
  route_group r = Some ip ↔ is_multicast ip = true ∧ routes_to r ip.
Proof.
  unfold route_group, routes_to, no_slash. pose proof (split_once_spec "/" (dst r)) as Hs.
  destruct (split_once "/" (dst r)) as [[base mask]|] eqn:E.
  - destruct Hs as [Hd Hb]. split.
    + destruct (parse_IpAddr base) as [ip'|] eqn:Ei; [|done]. simpl.
      destruct (parse_u8 mask) as [m|] eqn:Em; [|done]. simpl.
      destruct (is_multicast ip' && _) eqn:Ec; [|done]. intros [= <-].
      apply andb_true_iff in Ec as [Hm Hx]. split; [done|]. right. exists base, mask.
      split_and!; try done. destruct ip'; apply Z.eqb_eq in Hx; by subst.
    + intros [Hm [[Hn _]|(base' & mask' & Hd' & Hb' & Hi & Hk)]].
      * rewrite split_once_None in E by done. done.
      * rewrite Hd', split_once_app in E by done. injection E as <- <-.
        rewrite Hi, option_bind_Some, Hk, option_bind_Some, Hm. by destruct ip.
  - split.
    + destruct (parse_IpAddr (dst r)) as [ip'|]; [|done]. simpl.
      destruct (is_multicast ip') eqn:Hm; [|done]. intros [= <-]. auto.
    + intros [Hm [[_ Hi]|(base' & mask' & Hd' & Hb' & _)]].
      * by rewrite Hi, option_bind_Some, Hm.
      * by rewrite Hd', split_once_app in E.
Qed.

Lemma groups_of_rows rows :
  let groups := dedup (sort_by ip_leb (omap route_group rows)) in
  strictly_sorted groups ∧
  ∀ ip, ip ∈ groups ↔ is_multicast ip = true ∧ ∃ r, r ∈ rows ∧ routes_to r ip.
Proof.
  intros groups. split.
  - apply dedup_sorted; [eauto with rust..|]. apply sort_by_sorted; eauto with rust.
  - intros ip. unfold groups. rewrite dedup_elem_of, sort_by_perm, list_elem_of_omap.
    setoid_rewrite route_group_spec. naive_solver.
Qed.

Lemma parse_u8_octet o : 0 ≤ o < 256 → parse_u8 (show_octet o) = Some o.
Proof.
  intros Ho. assert (forallb (λ o, bool_decide (parse_u8 (show_octet o) = Some o)) (seqZ 0 256)
    = true) as Hall by (vm_compute; reflexivity).
  rewrite forallb_forall in Hall. eapply bool_decide_eq_true, Hall, list_elem_of_In, elem_of_seqZ.
  lia.
Qed.

Lemma route_group_show a m :
  0 ≤ a < 2 ^ 32 → (∀ m', m = Some m' → 0 ≤ m' < 256) →
  route_group (show_route (a, m))
  = if decide (is_multicast (V4 a) = true ∧ m ∈ [None; Some 32]) then Some (V4 a) else None.
Proof.
  intros Ha Hm. unfold route_group, show_route. cbn [dst fst snd].
  assert (m ∈ [None; Some 32] ↔ m = None ∨ m = Some 32) as Hmm.
  { rewrite !elem_of_cons, elem_of_nil. tauto. }
  destruct m as [m|].
  - specialize (Hm m eq_refl). rewrite split_once_app by apply show_ipv4_no_slash.
    rewrite parse_show_ipv4, option_bind_Some, parse_u8_octet, option_bind_Some by done.
    case_decide as Hd; rewrite Hmm in Hd;
      destruct (is_multicast (V4 a)), (Z.eqb_spec m 32); naive_solver.
  - rewrite string_app_nil, split_once_None by apply show_ipv4_no_slash.
    rewrite parse_show_ipv4, option_bind_Some by done.
    case_decide as Hd; rewrite Hmm in Hd; destruct (is_multicast (V4 a)); naive_solver.
Qed.

Lemma join_groups_spec sock groups i :
  let sock' := join_groups sock groups i in
  local_addr sock' = local_addr sock ∧
  (∀ g j, (g, j) ∈ memberships sock' → (g, j) ∈ memberships sock ∨ g ∈ groups ∧ j = i) ∧
  (∀ g, g ∈ groups → (g, i) ∈ memberships sock' ∨ ∃ s e, join_multicast s g i = RErr e) ∧
  (∀ p, p ∈ memberships sock → p ∈ memberships sock').
Proof.
  unfold join_groups. revert sock. induction groups as [|g groups IH]; intros sock; simpl.
  { split_and!; try done; [by left|by intros ? ?%elem_of_nil]. }
  destruct (join_multicast sock g i) as [[]|e] eqn:E.
  - destruct (IH (mkUdpSocket (local_addr sock) ((g, i) :: memberships sock)))
      as (Ha & Hin & Hall & Hk). split_and!; [done| | |].
    + intros g' j Hg. destruct (Hin g' j Hg) as [Hg'|[Hg' ->]]; simpl in *.
      * apply elem_of_cons in Hg' as [[= -> ->]|]; [|by left].
        right. split; [constructor|done].
      * right. split; [by constructor|done].
    + intros g' [->|Hg]%elem_of_cons; [|by apply Hall].
      left. apply Hk. constructor.
    + intros p Hp. apply Hk. by constructor.
  - destruct (IH sock) as (Ha & Hin & Hall & Hk). split_and!; [done| | |done].
    + intros g' j Hg. destruct (Hin g' j Hg) as [|[? ->]]; [by left|].
      right. split; [by constructor|done].
    + intros g' [->|Hg]%elem_of_cons; [|by apply Hall]. right. eauto.
Qed.

Lemma family_socket_spec addr groups i :
  let socks := family_socket addr groups i in
  (∀ s, s ∈ socks → local_addr s = addr ∧ groups ≠ [] ∧
     ∀ g j, (g, j) ∈ memberships s → g ∈ groups) ∧
  (∀ g, g ∈ groups → (∃ e, bind_udp addr = RErr e) ∨
     ∃ s, s ∈ socks ∧ ((g, i) ∈ memberships s ∨ ∃ s0 e, join_multicast s0 g i = RErr e)) ∧
  (length socks ≤ 1)%nat.
Proof.
  unfold family_socket. case_decide as Hn.
  { subst. split_and!; [by intros ? ?%elem_of_nil|by intros ? ?%elem_of_nil|simpl; lia]. }
  destruct (bind_udp addr) as [[]|e] eqn:E; simpl.
  - destruct (join_groups_spec (mkUdpSocket addr []) groups i) as (Ha & Hin & Hall & _).
    split_and!; [| |lia].
    + intros s ->%list_elem_of_singleton. split_and!; [done..|]. intros g j Hg.
      destruct (Hin g j Hg) as [?%elem_of_nil|[? _]]; done.
    + intros g Hg. right. eexists. split; [by apply list_elem_of_singleton|]. by apply Hall.
  - split_and!; [by intros ? ?%elem_of_nil| |lia]. intros. left. eauto.
Qed.

Lemma wanted_groups device mip g :
  let '(g4, g6) := multicast_groups device mip in
  wanted device mip g ↔ g ∈ (V4 <$> g4) ∨ g ∈ (V6 <$> g6).
Proof.
  unfold multicast_groups, wanted. destruct mip as [[a|a]|]; simpl.
  - rewrite list_elem_of_singleton, elem_of_nil. naive_solver.
  - rewrite list_elem_of_singleton, elem_of_nil. naive_solver.
  - destruct (get_ip_route_for_device device) as [ips|e].
    + rewrite !list_elem_of_fmap. setoid_rewrite list_elem_of_omap. split.
      * intros (? & [= <-] & Hg). destruct g as [a|a]; [left|right]; exists a; split; try done;
          eexists; split; eauto.
      * intros [(a & -> & ip & Hip & E)|(a & -> & ip & Hip & E)]; destruct ip; simplify_eq/=; eauto.
    + simpl. rewrite !elem_of_nil. split; [by intros (? & ? & _)|tauto].
Qed.

(** * The properties *)

(** The multicast groups parsed from the routes of a device are in strictly
    increasing order and are exactly the multicast addresses that some row routes
    to as a host (a bare address, or one with a mask of full length); rows with a
    partial mask, and destinations that are not addresses, contribute nothing.
    JSON that does not parse is an [InvalidData] error. *)
Lemma parse_ip_route_spec bytes :
  match routes_from_slice bytes with
  | ROk rows => ∃ groups, parse_ip_route_for_device bytes = ROk groups ∧ strictly_sorted groups ∧
      ∀ ip, ip ∈ groups ↔ is_multicast ip = true ∧ ∃ r, r ∈ rows ∧ routes_to r ip
  | RErr e => parse_ip_route_for_device bytes = RErr (mkIoError InvalidData e)
  end.
Proof.
  unfold parse_ip_route_for_device. destruct (routes_from_slice bytes) as [rows|e]; [|done].
  eexists. split; [done|]. apply groups_of_rows.
Qed.

(** C38: printing IPv4 routes and parsing them back gives exactly the multicast
    addresses among those printed without a mask or with [/32]: every 32-bit
    address and every mask is read back as it was printed. *)
Theorem routes_roundtrip bytes (routes : list (Z * option Z)) :
  routes_from_slice bytes = ROk (show_route <$> routes) →
  Forall (λ r, 0 ≤ r.1 < 2 ^ 32 ∧ ∀ m, r.2 = Some m → 0 ≤ m < 256) routes →
  ∃ groups, parse_ip_route_for_device bytes = ROk groups ∧ strictly_sorted groups ∧
    ∀ ip, ip ∈ groups ↔ ∃ a m, ip = V4 a ∧ (a, m) ∈ routes ∧
      is_multicast (V4 a) = true ∧ m ∈ [None; Some 32].
Proof.
  intros Hr Hb. unfold parse_ip_route_for_device. rewrite Hr. cbn [try_].
  eexists. split; [done|]. split; [apply groups_of_rows|]. intros ip.
  rewrite dedup_elem_of, sort_by_perm, list_elem_of_omap. rewrite Forall_forall in Hb.
  setoid_rewrite list_elem_of_fmap. split.
  - intros (r & ([a m] & -> & Hin) & Hg). destruct (Hb _ Hin) as [Ha Hm].
    rewrite route_group_show in Hg by assumption. case_decide as Hd; [|discriminate Hg].
    injection Hg as <-. destruct Hd. exists a, m. auto.
  - intros (a & m & -> & Hin & Hmc & Hmm). destruct (Hb _ Hin) as [Ha Hm].
    exists (show_route (a, m)). split; [eauto|].
    rewrite route_group_show by assumption. by rewrite decide_True.
Qed.

(** C37: the sockets of the multicast listener: at most one per address family,
    bound to the wildcard address of the family and the given port, only for
    families that have a wanted group (the given address, or else the groups
    routed to the device), and member only of wanted groups of its family; every
    wanted group is joined on the interface of the device unless the operating
    system refuses to bind or to join.  [None] means that there is no socket. *)
Theorem multicast_sockets device port mip :
  let socks := default [] (create_multicast_socket_on_device device port mip) in
  create_multicast_socket_on_device device port mip ≠ Some [] ∧
  NoDup (local_addr <$> socks) ∧
  (∀ s, s ∈ socks → ∃ g, wanted device mip g ∧ local_addr s = wildcard g port ∧
     ∀ g' i, (g', i) ∈ memberships s → wanted device mip g' ∧ wildcard g' port = local_addr s) ∧
  (∀ g, wanted device mip g →
     (∃ e, bind_udp (wildcard g port) = RErr e) ∨
     ∃ s, s ∈ socks ∧ local_addr s = wildcard g port ∧
       ((g, interface_for device g) ∈ memberships s ∨
        ∃ s0 e, join_multicast s0 g (interface_for device g) = RErr e)).
Proof.
  intros socks. unfold socks, create_multicast_socket_on_device. clear socks.
  pose proof (wanted_groups device mip) as Hw.
  destruct (multicast_groups device mip) as [g4 g6].
  set (i4 := interface_for device (V4 0)). set (i6 := interface_for device (V6 0)).
  change (default UNSPECIFIED_V4 _) with i4. change (default 0 _) with i6.
  destruct (family_socket_spec (wildcard (V4 0) port) (V4 <$> g4) i4) as (Hs4 & Hw4 & Hl4).
  destruct (family_socket_spec (wildcard (V6 0) port) (V6 <$> g6) i6) as (Hs6 & Hw6 & Hl6).
  change (SocketAddr_new (V4 UNSPECIFIED_V4) port) with (wildcard (V4 0) port).
  change (SocketAddr_new (V6 UNSPECIFIED_V6) port) with (wildcard (V6 0) port).
  set (l4 := family_socket (wildcard (V4 0) port) _ i4) in *.
  set (l6 := family_socket (wildcard (V6 0) port) _ i6) in *.
  set (res := if decide (g4 = [] ∧ g6 = []) then None
              else if decide (l4 ++ l6 = []) then None else Some (l4 ++ l6)).
  assert (default [] res = l4 ++ l6 ∧ res ≠ Some []) as [-> Hne].
  { unfold res. destruct (decide (g4 = [] ∧ g6 = [])) as [[-> ->]|]; [done|].
    destruct (decide (l4 ++ l6 = [])) as [->|]; [done|]. split; [done|congruence]. }
  split_and!; [done| | |].
  - rewrite fmap_app. apply NoDup_app. split_and!.
    + destruct l4 as [|? [|]]; simpl in *; [constructor|apply NoDup_singleton|lia].
    + intros x (s & -> & Hs)%list_elem_of_fmap (s' & E & Hs')%list_elem_of_fmap.
      apply Hs4 in Hs as (E4 & _). apply Hs6 in Hs' as (E6 & _). by rewrite E4, E6 in E.
    + destruct l6 as [|? [|]]; simpl in *; [constructor|apply NoDup_singleton|lia].
  - intros s [Hs|Hs]%elem_of_app.
    + destruct (Hs4 s Hs) as (Ha & Hg & Hm). destruct g4 as [|a g4]; [done|]. exists (V4 a).
      split_and!; [apply Hw; left; constructor|done|]. intros g' i Hi%Hm.
      split; [apply Hw; by left|]. rewrite Ha. by apply list_elem_of_fmap in Hi as (? & -> & _).
    + destruct (Hs6 s Hs) as (Ha & Hg & Hm). destruct g6 as [|a g6]; [done|]. exists (V6 a).
      split_and!; [apply Hw; right; constructor|done|]. intros g' i Hi%Hm.
      split; [apply Hw; by right|]. rewrite Ha. by apply list_elem_of_fmap in Hi as (? & -> & _).
  - intros g [Hg|Hg]%Hw.
    + destruct (Hw4 g Hg) as [He|(s & Hs & Hj)];
        apply list_elem_of_fmap in Hg as (a & -> & _); [by left|right].
      exists s. split_and!; [apply elem_of_app; by left|by apply Hs4|done].
    + destruct (Hw6 g Hg) as [He|(s & Hs & Hj)];
        apply list_elem_of_fmap in Hg as (a & -> & _); [by left|right].
      exists s. split_and!; [apply elem_of_app; by right|by apply Hs6|done].
Qed.
End multicast.

(** * Witnesses *)

(** The routes of the repository's own test, and a group with a partial mask. *)
Definition toy_routes : list (Z * option Z) :=
  [(2851996272, Some 31); (3914641922, None); (3758096384, Some 4); (3758096640, Some 32)].

#[local] Instance ToyHost : Host := {|
  command_output := λ _, ROk (mkOutput true "exit status: 0" []);
  routes_from_slice := λ _, ROk (show_route <$> toy_routes);
  ifaces_from_slice := λ _, ROk [mkIfaceRow (Some [mkAddrInfo (Some "inet6") (Some "fe80::1234");
                                                   mkAddrInfo (Some "inet") (Some "192.168.1.10")])];
  links_from_slice := λ _, ROk [mkLinkRow (Some 3)];
  bind_udp := λ _, ROk tt;
  join_multicast := λ _ _ _, ROk tt |}.

Example toy_multicast :
  (dst <$> (show_route <$> toy_routes), parse_ip_route_for_device [],
   parse_ipv4_addr_from_ip_addr_show_json [], parse_ifindex_from_ip_link_show_json [],
   create_multicast_socket_on_device "doublezero1" 20001 None)
  = (["169.254.2.112/31"; "233.84.178.2"; "224.0.0.0/4"; "224.0.1.0/32"],
     ROk [V4 3758096640; V4 3914641922], ROk (Some 3232235786), ROk (Some 3),
     Some [mkUdpSocket (SocketAddrV4 0 20001)
             [(V4 3914641922, 3232235786); (V4 3758096640, 3232235786)]]).
Proof. vm_compute. reflexivity. Qed.

Lemma routes_roundtrip_witness :
  ∃ groups, parse_ip_route_for_device [] = ROk groups ∧ strictly_sorted groups ∧
    ∀ ip, ip ∈ groups ↔ ∃ a m, ip = V4 a ∧ (a, m) ∈ toy_routes ∧
      is_multicast (V4 a) = true ∧ m ∈ [None; Some 32].
Proof.
  apply (routes_roundtrip [] toy_routes); [reflexivity|].
  unfold toy_routes. rewrite !Forall_cons.
  repeat split; try (apply Forall_nil); cbn [fst snd] in *; simplify_eq; lia.
Defined.
