(* ===== verification/ForwardThreads.v ===== *)
(** The threads of proxy/src/forwarder.rs: which ones [start_forwarder_threads]
    spawns and the sockets they listen on, a forwarder thread, and the accessory
    thread that reports and resets the metrics. *)

From S2P Require Import Prelude Net Metrics Shreds Packets Prom Errors Forwarder ForwarderProofs.
From S2P Require Import NetText Multicast.

(** * Spawning *)

(** [solana_net_utils::multi_bind_in_range_with_config] with [reuseport]: the port
    that was bound and the sockets on it; [std::thread::available_parallelism]. *)
Class Listening := {
  multi_bind : IpAddr → Z * Z → nat → option (Z * list UdpSocket);
  available_parallelism : option nat;
}.

(** A port of the range is bound, which does not include its end; port 0 stands
    for one that the operating system chooses, and that is not 0. *)
Class ListeningLaws `{Listening} : Prop := {
  multi_bind_spec addr lo hi n port sockets :
    multi_bind addr (lo, hi) n = Some (port, sockets) →
    lo < hi ∧ 0 < port ∧ (lo ≠ 0 → lo ≤ port < hi) ∧
    ∀ s, s ∈ sockets → local_addr s = SocketAddr_new addr port;
}.

(** The name of a thread, and the socket it listens on. *)
Inductive ThreadName :=
  | ShredReconstructor
  | SsListen (thread_id : nat) (incoming_shred_socket : UdpSocket)
  | SsPxyTx (thread_id : nat).

(** [start_forwarder_threads]: the threads it spawns and those whose handles it
    returns.  The port range ends at [src_port + 1], a [u16] addition; the port
    that was bound is discarded. *)
Definition start_forwarder_threads `{BuildProfile} `{Listening}
    (src_addr : IpAddr) (src_port : Z) (maybe_multicast_socket : option (list UdpSocket))
    (num_threads : option nat) (should_reconstruct_shreds : bool) :
    outcome (list ThreadName * list ThreadName) :=
  num_threads ← match num_threads with
                | Some n => Ok n
                | None => n ← unwrap available_parallelism; Ok (min n 4)
                end;
  port_end ← arith 16 (src_port + 1);
  match multi_bind src_addr (src_port, port_end) num_threads with
  | None => Panicked (ExplicitPanic "Failed to bind listener sockets")
  | Some (_port, sockets) =>
      let thread_hdls := if should_reconstruct_shreds then [ShredReconstructor] else [] in
      let socket_hdls :=
        mjoin (imap (λ thread_id incoming_shred_socket,
                       [SsListen thread_id incoming_shred_socket; SsPxyTx thread_id])
                 (sockets ++ default [] maybe_multicast_socket)) in
      Ok (thread_hdls ++ socket_hdls, socket_hdls)
  end.

(** * A forwarder thread *)

Section thread.
Context `{ForwardLib} `{BuildProfile}.

(** What [select!] picks: a packet batch ([None] when the channel is closed), the
    refresh tick with the shared destinations at that moment, or a shutdown. *)
Inductive FwdEvent :=
  | FwdPackets (maybe_packet_batch : option PacketBatch)
  | FwdRefresh (unioned_dest_sockets : list SocketAddr)
  | FwdShutdown.

(** The flags of the thread, which do not change. *)
Context (should_reconstruct_shreds debug_trace_shred : bool).

(** One iteration; the flag says whether the loop goes on. *)
Definition forwarder_step (st : Fwd) (local_dest_sockets : list SocketAddr) (ev : FwdEvent) :
    outcome (Fwd * list SocketAddr * bool) :=
  match ev with
  | FwdPackets maybe_packet_batch =>
      let '(e, w) := elapsed_micros (fwd_world st) in
      let st := with_world w [] st in
      let st := with_prom (observe_recv_interval e) st in
      '(res, st) ← recv_from_channel_and_send_multiple_dest maybe_packet_batch
                     local_dest_sockets should_reconstruct_shreds debug_trace_shred st;
      match res with
      | RErr _ => Ok (st, local_dest_sockets, false)
      | ROk _ => Ok (st, local_dest_sockets, true)
      end
  | FwdRefresh unioned => Ok (st, unioned, true)
  | FwdShutdown => Ok (st, local_dest_sockets, false)
  end.

(** The loop over a finite prefix of its iterations, each with the exit flag. *)
Fixpoint forwarder_loop (st : Fwd) (local_dest_sockets : list SocketAddr)
    (its : list (bool * FwdEvent)) : outcome (Fwd * list SocketAddr * bool) :=
  match its with
  | [] => Ok (st, local_dest_sockets, true)
  | (exit, ev) :: its =>
      if exit : bool then Ok (st, local_dest_sockets, false) else
      '(st, local_dest_sockets, running) ← forwarder_step st local_dest_sockets ev;
      if running : bool then forwarder_loop st local_dest_sockets its
      else Ok (st, local_dest_sockets, false)
  end.

(** The thread: it binds the socket it sends from, reads the shared destinations
    and enters the loop. *)
Definition forwarder_thread (send_socket : result unit IoError)
    (unioned_dest_sockets : list SocketAddr) (st : Fwd) (its : list (bool * FwdEvent)) :
    outcome (Fwd * list SocketAddr * bool) :=
  match send_socket with
  | RErr _ => Panicked (ExplicitPanic "to bind to udp port for forwarding")
  | ROk _ => forwarder_loop st unioned_dest_sockets its
  end.
End thread.

(** * The accessory thread *)

(** What happens while it runs: its own ticks, and the counting of the other
    threads; a metrics tick runs [report] and then [reset], with whatever the
    others count in between. *)
Inductive AccEvent :=
  | DeduperResetTick
  | MetricsTick (between : list (Counter * Z))
  | OthersCount (adds : list (Counter * Z))
  | AccShutdown.

Definition count_all (adds : list (Counter * Z)) (m : ShredMetrics) : ShredMetrics :=
  foldl (λ m a, fetch_add a.1 a.2 m) m adds.

(** [deduper_resets] counts the calls of [maybe_reset]. *)
Record Accessory := mkAccessory {
  acc_metrics : ShredMetrics;
  acc_datapoints : list Datapoint;
  deduper_resets : nat;
}.

Definition accessory_step (st : Accessory) (ev : AccEvent) : Accessory * bool :=
  match ev with
  | DeduperResetTick =>
      (mkAccessory (acc_metrics st) (acc_datapoints st) (S (deduper_resets st)), true)
  | MetricsTick between =>
      let '(dps, m) := report (acc_metrics st) in
      (mkAccessory (reset (count_all between m)) (acc_datapoints st ++ dps) (deduper_resets st),
       true)
  | OthersCount adds =>
      (mkAccessory (count_all adds (acc_metrics st)) (acc_datapoints st) (deduper_resets st), true)
  | AccShutdown => (st, false)
  end.

Fixpoint accessory_loop (st : Accessory) (its : list (bool * AccEvent)) : Accessory * bool :=
  match its with
  | [] => (st, true)
  | (exit, ev) :: its =>
      if exit : bool then (st, false) else
      let '(st, running) := accessory_step st ev in
      if running : bool then accessory_loop st its else (st, false)
  end.

(** * Specification *)

(** What was reported as received, and what was counted between a report and
    the reset after it. *)
Definition reported_received (dps : list Datapoint) : Z :=
  sumZ (λ dp, match dp with ConnectionMetrics r _ _ _ => r | _ => 0 end) dps.
Definition received_in (adds : list (Counter * Z)) : Z :=
  sumZ (λ a : Counter * Z, if decide (a.1 = Received) then a.2 else 0) adds.
Fixpoint unreported (its : list (bool * AccEvent)) : Z :=
  match its with
  | (false, MetricsTick between) :: its => received_in between + unreported its
  | (false, AccShutdown) :: _ | (true, _) :: _ | [] => 0
  | (false, _) :: its => unreported its
  end.

(** Nobody but [reset] adds to the cumulative counters. *)
Definition no_cumulative (adds : list (Counter * Z)) : Prop :=
  Forall (λ a : Counter * Z, a.1 ≠ AggReceivedCumulative) adds.
Definition acc_event_ok (it : bool * AccEvent) : Prop :=
  match it.2 with MetricsTick l | OthersCount l => no_cumulative l | _ => True end.

(** * Lemmas *)

(** The threads of the sockets: a listener for each, and a forwarder. *)
Lemma spawned_spec `{BuildProfile} `{Listening} src_addr src_port multicast num_threads recon
    spawned returned :
  start_forwarder_threads src_addr src_port multicast num_threads recon = Ok (spawned, returned) →
  ∃ n hi port sockets, arith 16 (src_port + 1) = Ok hi ∧
    multi_bind src_addr (src_port, hi) n = Some (port, sockets) ∧
    (∀ name, name ∈ returned ↔ ∃ i sock, (sockets ++ default [] multicast) !! i = Some sock ∧
       (name = SsListen i sock ∨ name = SsPxyTx i)) ∧
    spawned = (if recon then [ShredReconstructor] else []) ++ returned.
Proof.
  unfold start_forwarder_threads. intros (n & _ & (hi & Hhi & Hr)%bind_Ok)%bind_Ok.
  destruct (multi_bind _ _ _) as [[port socks]|] eqn:E; [|done].
  injection Hr as <- <-. exists n, hi, port, socks. split_and!; [done|done| |done].
  intros name. rewrite list_elem_of_join. setoid_rewrite elem_of_lookup_imap. split.
  - intros (l & Hin & i & sock & -> & Hi). exists i, sock. split; [done|]. set_solver.
  - intros (i & sock & Hi & Hn). eexists. split; [|by exists i, sock]. set_solver.
Qed.

Lemma count_all_wf adds m : metrics_wf m → metrics_wf (count_all adds m).
Proof.
  unfold count_all. revert m. induction adds as [|a adds IH]; intros m Hm; simpl; [done|].
  by apply IH, fetch_add_wf.
Qed.

Lemma count_all_received adds m :
  metrics_wf m →
  load Received (count_all adds m) = wrap 64 (load Received m + received_in adds).
Proof.
  unfold count_all, received_in. revert m. induction adds as [|a adds IH]; intros m Hm; simpl.
  { unfold sumZ. simpl. by rewrite Z.add_0_r, wrap_small by apply Hm. }
  rewrite IH by (by apply fetch_add_wf). rewrite load_fetch_add.
  change (foldr _ 0 adds) with
    (sumZ (λ a : Counter * Z, if decide (a.1 = Received) then a.2 else 0) adds).
  destruct (decide (a.1 = Received)) as [E|E].
  - rewrite decide_True by done. autorewrite with rust. f_equal. lia.
  - rewrite decide_False by done. f_equal.
Qed.

Lemma count_all_cumulative adds m :
  no_cumulative adds → load AggReceivedCumulative (count_all adds m) = load AggReceivedCumulative m.
Proof.
  unfold count_all. revert m. induction adds as [|a adds IH]; intros m Hn; simpl; [done|].
  apply Forall_cons in Hn as [Ha Hn]. rewrite IH by done. by rewrite load_fetch_add_ne by done.
Qed.

Lemma reset_received m :
  load AggReceivedCumulative (reset m)
  = wrap 64 (load AggReceivedCumulative m + load Received m).
Proof. unfold_reset. by autorewrite with metrics. Qed.

Lemma reset_wf m : metrics_wf m → metrics_wf (reset m).
Proof.
  intros. unfold_reset.
  by repeat first [apply store_wf; [done|] | apply fetch_add_wf].
Qed.

Lemma report_received m :
  let '(dps, m') := report m in
  reported_received dps = load Received m ∧ load Received m' = load Received m ∧
  load AggReceivedCumulative m' = load AggReceivedCumulative m ∧
  (metrics_wf m → metrics_wf m').
Proof.
  unfold report, swap, reported_received.
  assert (∀ l : list (IpAddr * (Z * Z)), sumZ (λ dp, match dp with ConnectionMetrics r _ _ _ => r | _ => 0 end)
    ((λ p : IpAddr * (Z * Z), ReceiverStats p.1 p.2.1 p.2.2) <$> l) = 0) as Hz.
  { intros l. induction l as [|x l IH]; [done|]. by rewrite fmap_cons, sumZ_cons, IH. }
  destruct (enabled_grpc_service m); rewrite !sumZ_app, !sumZ_cons, Hz; unfold sumZ; simpl;
    rewrite ?Z.add_0_r; autorewrite with metrics; split_and!; try done.
  - intros Hm c. autorewrite with metrics. by repeat case_decide.
  - intros Hm c. autorewrite with metrics. apply Hm.
Qed.

Lemma accessory_loop_accounts st its :
  metrics_wf (acc_metrics st) → Forall acc_event_ok its →
  let st' := (accessory_loop st its).1 in
  load AggReceivedCumulative (acc_metrics st')
  = wrap 64 (load AggReceivedCumulative (acc_metrics st)
             + (reported_received (acc_datapoints st') - reported_received (acc_datapoints st))
             + unreported its).
Proof.
  revert st. induction its as [|[exit ev] its IH]; intros st Hm Hok.
  { simpl. rewrite Z.sub_diag, !Z.add_0_r, wrap_small by apply Hm. done. }
  apply Forall_cons in Hok as [Hev Hok]. simpl in *.
  assert (load AggReceivedCumulative (acc_metrics st)
    = wrap 64 (load AggReceivedCumulative (acc_metrics st)
        + (reported_received (acc_datapoints st) - reported_received (acc_datapoints st)) + 0))
    as Hend by (by rewrite Z.sub_diag, !Z.add_0_r, wrap_small by apply Hm).
  destruct exit; [done|].
  destruct ev as [|between|adds|]; [exact (IH (mkAccessory _ _ _) Hm Hok)| | |done]; simpl.
  - pose proof (report_received (acc_metrics st)) as Hr.
    destruct (report (acc_metrics st)) as [dps m1]. destruct Hr as (Hd & Hrec & Hcum & Hwf).
    simpl. rewrite IH by (done || by apply reset_wf, count_all_wf, Hwf). simpl.
    rewrite reset_received, count_all_received, count_all_cumulative, Hrec, Hcum
      by (done || by apply Hwf).
    unfold reported_received in *. rewrite sumZ_app, Hd.
    autorewrite with rust. rewrite <-!Z.add_assoc, wrap_add_l. f_equal. lia.
  - rewrite IH by (done || by apply count_all_wf). simpl. by rewrite count_all_cumulative.
Qed.

Section thread_steps.
Context `{ForwardLib} `{BuildProfile} `{!PacketLibLaws} `{!ForwardLaws}.
Implicit Types b : PacketBatch.

(** The payloads a forwarder thread sends for a batch: its stopwatch has been
    read before. *)
Definition forwarded (recon : bool) b (w : World) : list bytes :=
  payloads (deduplicated recon b (elapsed_micros w).2).

Lemma forwarder_step_packets b dests recon debug st :
  overflow_checks = false → no_poison → traces_ok debug → metrics_wf (fwd_metrics st) →
  let ps := forwarded recon b (fwd_world st) in
  ∃ st' cs, forwarder_step recon debug st dests (FwdPackets (Some b)) = Ok (st', dests, true) ∧
    metrics_wf (fwd_metrics st') ∧
    fwd_calls st' = fwd_calls st ++ (if recon then [CallReconstruct b] else []) ++ [CallDedup b] ++ cs ∧
    sends cs = (λ d, (λ p, (p, d)) <$> ps) <$> dests ∧ ps `sublist_of` payloads b ∧
    Forall outgoing cs.
Proof.
  intros Ho Hp Ht Hwf ps. unfold forwarder_step, ps, forwarded. clear ps.
  destruct (elapsed_micros _) as [e w].
  destruct (forward_spec b dests recon debug
    (with_prom (observe_recv_interval e) (with_world w [] st)) Ho Hp Ht Hwf)
    as (st' & cs & E & Ec & Es & _ & Hw & _ & Eo & _).
  exists st', cs. rewrite E. simpl in Ec.
  rewrite app_nil_r in Ec. split; [done|]. split; [done|]. split; [done|].
  split; [|split; [apply dedup_sublist|done]]. rewrite Es. apply list_fmap_ext. intros _ d _.
  apply packets_with_dest_payloads.
Qed.

End thread_steps.
