(* ===== verification/ThreadTheorems.v ===== *)
(** The properties of the forwarder's threads and of its destinations. *)

From Stdlib Require Import Strings.Byte.
From S2P Require Import Prelude Net Metrics Shreds Packets Prom Errors Forwarder Toy.
From S2P Require Import ForwarderProofs Destinations ForwardThreads.

(** * Destinations *)

(** C28: the fetched destinations have no duplicates and are exactly the union of
    the discovered addresses, at the discovery port, and the static hosts as
    they resolve now (a host that does not resolve is left out); the discovered
    ones come first. *)
Theorem fetch_unioned_spec o url port static body ips :
  http_get o url = ROk body → parse_ip_list o body = ROk ips →
  ∃ l, fetch_unioned_destinations o url port static = ROk l ∧ NoDup l ∧
    (∀ s, s ∈ l ↔ (∃ ip, ip ∈ ips ∧ s = SocketAddr_new ip port) ∨
                  ∃ a h rest, (a, h) ∈ static ∧ to_socket_addrs o h = ROk (s :: rest)) ∧
    unique ((λ ip, SocketAddr_new ip port) <$> ips) `prefix_of` l.
Proof.
  intros Hg Hp. unfold fetch_unioned_destinations. rewrite Hg. simpl. rewrite Hp.
  eexists. split; [done|]. split; [apply unique_NoDup|]. split.
  - intros s. rewrite unique_elem_of, elem_of_app, static_resolved, list_elem_of_fmap.
    naive_solver.
  - apply unique_prefix.
Qed.

(** C27: the refresh thread always leaves the destinations of its last successful
    fetch, or the static ones if there was none: a failing fetch changes
    nothing; the count it reports is the number of destinations in use. *)
Theorem refresh_keeps_last_fetch url port static its st running :
  refresh_loop url port static (refresh_init static) its = (st, running) →
  unioned_dest_sockets st = last_fetch url port static (fst <$> static) (handled its) ∧
  socket_count st = length (unioned_dest_sockets st).
Proof.
  intros Hr. pose proof (refresh_loop_spec url port static (refresh_init static) its) as Hs.
  rewrite Hr in Hs. apply Hs. simpl. by rewrite length_fmap.
Qed.

(** * Threads *)

Section threads.
Context `{ForwardLib} `{BuildProfile} `{!PacketLibLaws} `{!ForwardLaws}.

(** The destinations after a run: those of the last refresh. *)
Definition last_refresh (dests : list SocketAddr) (its : list (bool * FwdEvent)) :
    list SocketAddr :=
  foldl (λ dests it, match it.2 with FwdRefresh l => l | _ => dests end) dests its.

(** An iteration after which the loop goes on. *)
Definition goes_on (it : bool * FwdEvent) : Prop :=
  it.1 = false ∧ it.2 ≠ FwdShutdown ∧ it.2 ≠ FwdPackets None.

Lemma forwarder_loop_app recon debug st dests its1 its2 st1 dests1 :
  forwarder_loop recon debug st dests its1 = Ok (st1, dests1, true) →
  forwarder_loop recon debug st dests (its1 ++ its2) = forwarder_loop recon debug st1 dests1 its2.
Proof.
  revert st dests. induction its1 as [|[e ev] its1 IH]; intros st dests; simpl.
  { by intros [= -> ->]. }
  destruct e; [done|]. destruct (forwarder_step _ _ st dests ev) as [[[st' d'] r]|]; [|done].
  simpl. destruct r; [apply IH|done].
Qed.

Lemma forwarder_loop_runs recon debug st dests its :
  overflow_checks = false → no_poison → traces_ok debug → metrics_wf (fwd_metrics st) →
  Forall goes_on its →
  ∃ st', forwarder_loop recon debug st dests its = Ok (st', last_refresh dests its, true) ∧
         metrics_wf (fwd_metrics st').
Proof.
  intros Ho Hp Ht. revert st dests. induction its as [|[e ev] its IH]; intros st dests Hwf Hg.
  { by exists st. }
  apply Forall_cons in Hg as [(He & Hs & Hn) Hg]. simpl in He, Hs, Hn. subst e. cbn [forwarder_loop].
  destruct ev as [[b|]|l|]; [|done| |done].
  - destruct (forwarder_step_packets b dests recon debug st Ho Hp Ht Hwf)
      as (st' & _ & E & Hwf' & _). rewrite E. by apply IH.
  - by apply (IH st l).
Qed.

(** C26: a forwarder thread that has bound its socket gets through any sequence of
    batches and refreshes without stopping, and sends the next batch to exactly
    the destinations of the last refresh (or those that were shared when it
    started): each payload that is not discarded, as received or by
    deduplication, once to each of them, in order.  (No lock is poisoned, and
    traces, where they are logged, have times that can be represented.) *)
Theorem forwarder_uses_last_refresh recon debug st dests its b :
  overflow_checks = false → no_poison → traces_ok debug → metrics_wf (fwd_metrics st) →
  Forall goes_on its →
  ∃ st1 st2 cs,
    forwarder_thread recon debug (ROk tt) dests st its = Ok (st1, last_refresh dests its, true) ∧
    forwarder_thread recon debug (ROk tt) dests st (its ++ [(false, FwdPackets (Some b))])
      = Ok (st2, last_refresh dests its, true) ∧
    fwd_calls st2 = fwd_calls st1 ++ (if recon then [CallReconstruct b] else []) ++ [CallDedup b] ++ cs ∧
    sends cs = (λ d, (λ p, (p, d)) <$> forwarded recon b (fwd_world st1)) <$> last_refresh dests its ∧
    forwarded recon b (fwd_world st1) `sublist_of` payloads b.
Proof.
  intros Ho Hp Ht Hwf Hg. unfold forwarder_thread.
  destruct (forwarder_loop_runs recon debug st dests its Ho Hp Ht Hwf Hg) as (st1 & E1 & Hwf1).
  destruct (forwarder_step_packets b (last_refresh dests its) recon debug st1 Ho Hp Ht Hwf1)
    as (st2 & cs & E2 & _ & Ec & Es & Hsub & _).
  exists st1, st2, cs. split; [done|]. split; [|done].
  rewrite (forwarder_loop_app _ _ _ _ _ _ _ _ E1). cbn [forwarder_loop]. by rewrite E2.
Qed.

(** A forwarder thread stops at the first exit flag, shutdown token or closed
    packet channel: nothing that comes after is forwarded or counted. *)
Theorem forwarder_stops recon debug st dests its it rest st1 dests1 :
  forwarder_loop recon debug st dests its = Ok (st1, dests1, true) → ¬ goes_on it →
  ∃ st2, forwarder_loop recon debug st dests (its ++ it :: rest) = Ok (st2, dests1, false) ∧
    fwd_calls st2 = fwd_calls st1 ∧ fwd_metrics st2 = fwd_metrics st1.
Proof.
  intros E Hit. rewrite (forwarder_loop_app _ _ _ _ _ _ _ _ E).
  destruct it as [[] ev]; [by exists st1|]. cbn [forwarder_loop].
  destruct ev as [[b|]|l|]; simpl; try (exfalso; apply Hit; done); [|by exists st1].
  destruct (elapsed_micros _) as [e w]. simpl. eexists. split; [done|]. simpl.
  by rewrite app_nil_r.
Qed.
End threads.

(** Over any run of the accessory thread, what it reports as received plus
    what was counted between a report and the reset after it is what the
    cumulative counter grows by: a packet counted in that gap never shows up in
    a datapoint, and nothing else is missing. *)
Lemma accessory_accounts m its st running :
  metrics_wf m → Forall acc_event_ok its →
  accessory_loop (mkAccessory m [] 0) its = (st, running) →
  load AggReceivedCumulative (acc_metrics st)
  = wrap 64 (load AggReceivedCumulative m + reported_received (acc_datapoints st)
             + unreported its).
Proof.
  intros Hm Hok Hr. pose proof (accessory_loop_accounts (mkAccessory m [] 0) its Hm Hok) as Ha.
  rewrite Hr in Ha. simpl in Ha. rewrite Ha. change (reported_received []) with 0. f_equal. lia.
Qed.

(** * Witnesses *)

#[local] Existing Instance release.

(** The discovery service knows 10.0.0.1 twice; one static host resolves to that
    same address and port, one to another, one to nothing. *)
Definition toy_outside : Outside := {|
  to_socket_addrs h :=
    if decide (h = "a:80"%string) then ROk [SocketAddrV4 10 80; SocketAddrV4 11 80]
    else if decide (h = "b:80"%string) then ROk [SocketAddrV4 12 80] else ROk [];
  http_get _ := ROk [x01];
  parse_ip_list _ := ROk [V4 10; V4 10];
|}.
Definition toy_static : list (SocketAddr * string) :=
  [(SocketAddrV4 1 80, "a:80"%string); (SocketAddrV4 2 80, "b:80"%string);
   (SocketAddrV4 3 80, "c:80"%string)].

Example toy_fetch :
  fetch_unioned_destinations toy_outside "url" 80 toy_static
  = ROk [SocketAddrV4 10 80; SocketAddrV4 12 80].
Proof. reflexivity. Qed.

Lemma fetch_unioned_spec_witness :
  ∃ l, fetch_unioned_destinations toy_outside "url" 80 toy_static = ROk l ∧ NoDup l ∧
    (∀ s, s ∈ l ↔ (∃ ip, ip ∈ [V4 10; V4 10] ∧ s = SocketAddr_new ip 80) ∨
       ∃ a h rest, (a, h) ∈ toy_static ∧ to_socket_addrs toy_outside h = ROk (s :: rest)) ∧
    unique ((λ ip, SocketAddr_new ip 80) <$> [V4 10; V4 10]) `prefix_of` l.
Proof. apply (fetch_unioned_spec toy_outside "url" 80 toy_static [x01]); reflexivity. Defined.

(** A fetch, then one that fails. *)
Definition toy_down : Outside :=
  mkOutside (to_socket_addrs toy_outside) (λ _, RErr "down"%string) (parse_ip_list toy_outside).
Definition toy_refresh : list (bool * RefreshEvent) :=
  [(false, FetchTick toy_outside); (false, RefreshMetricsTick); (false, FetchTick toy_down)].
Definition toy_refreshed : Refresh * bool :=
  refresh_loop "url" 80 toy_static (refresh_init toy_static) toy_refresh.

Lemma refresh_keeps_last_fetch_witness :
  unioned_dest_sockets toy_refreshed.1 = [SocketAddrV4 10 80; SocketAddrV4 12 80] ∧
  socket_count toy_refreshed.1 = 2%nat.
Proof.
  destruct (refresh_keeps_last_fetch "url" 80 toy_static toy_refresh toy_refreshed.1
              toy_refreshed.2) as [E1 E2]; [reflexivity|].
  split; [exact E1|exact E2].
Defined.

Definition toy_fwd_its : list (bool * FwdEvent) :=
  [(false, FwdPackets (Some toy_fwd_batch)); (false, FwdRefresh toy_dests)].

Lemma toy_goes_on : Forall goes_on toy_fwd_its.
Proof. repeat constructor; done. Qed.

(** A second batch, one of whose packets the first batch had. *)
Definition toy_fwd_batch2 : PacketBatch := toy_packet <$> [[x04]; [x01]; [x05]].

Lemma forwarder_uses_last_refresh_witness :
  ∃ st1 st2 cs, forwarder_thread true false (ROk tt) [] toy_fwd toy_fwd_its = Ok (st1, toy_dests, true) ∧
    forwarder_thread true false (ROk tt) [] toy_fwd (toy_fwd_its ++ [(false, FwdPackets (Some toy_fwd_batch2))])
      = Ok (st2, toy_dests, true) ∧
    fwd_calls st2 = fwd_calls st1 ++ [CallReconstruct toy_fwd_batch2] ++ [CallDedup toy_fwd_batch2] ++ cs ∧
    sends cs = (λ d, (λ p, (p, d)) <$> [[x04]; [x05]]) <$> toy_dests.
Proof.
  destruct (forwarder_uses_last_refresh true false toy_fwd [] toy_fwd_its toy_fwd_batch2 eq_refl
           toy_no_poison (toy_traces false) (new_wf true) toy_goes_on)
    as (st1 & st2 & cs & E1 & E2 & Ec & Es & _).
  exists st1, st2, cs. split; [exact E1|]. split; [exact E2|]. split; [exact Ec|].
  assert (fwd_world st1 = [[x03]; [x01]; [x02]]) as Hw.
  { revert E1. vm_compute. by intros [= <-]. }
  rewrite Hw in Es. exact Es.
Defined.

Lemma forwarder_stops_witness :
  ∃ st2, forwarder_loop true false toy_fwd toy_dests
      ([(false, FwdRefresh [])] ++ (false, FwdPackets None) :: toy_fwd_its) = Ok (st2, [], false) ∧
    fwd_calls st2 = fwd_calls toy_fwd ∧ fwd_metrics st2 = fwd_metrics toy_fwd.
Proof.
  apply (forwarder_stops true false toy_fwd toy_dests [(false, FwdRefresh [])]
           (false, FwdPackets None) toy_fwd_its toy_fwd []); [reflexivity|].
  intros (_ & _ & Hn). by apply Hn.
Defined.

(** Five packets, of which two arrive between the report and the reset. *)
Definition toy_acc : list (bool * AccEvent) :=
  [(false, OthersCount [(Received, 3)]); (false, MetricsTick [(Received, 2)]);
   (false, DeduperResetTick); (false, AccShutdown)].

Lemma accessory_accounts_witness :
  load AggReceivedCumulative
    (acc_metrics (accessory_loop (mkAccessory (ShredMetrics_new false) [] 0) toy_acc).1) = 5.
Proof.
  rewrite (accessory_accounts (ShredMetrics_new false) toy_acc _
             (accessory_loop (mkAccessory (ShredMetrics_new false) [] 0) toy_acc).2).
  - vm_compute. reflexivity.
  - apply new_wf.
  - repeat constructor; done.
  - vm_compute. reflexivity.
Defined.
