(* ===== verification/Server.v ===== *)
(** proxy/src/server.rs: the gRPC service that streams the broadcast entries to
    its subscribers. *)

From S2P Require Import Prelude Shreds Packets Reconstructor.

(** What [entry_receiver.recv()] of the broadcast channel returns. *)
Inductive BroadcastRecv :=
  | BroadcastOk (e : PbEntry)
  | BroadcastLagged (skipped : Z)
  | BroadcastClosed.

(** The task [subscribe_entries] spawns, over a finite prefix of its iterations:
    an iteration is what the receiver returned and whether [tx.send] to the
    client succeeded.  The result is what the client was sent and whether the
    task has ended. *)
Fixpoint subscribe_entries (its : list (BroadcastRecv * bool)) : list PbEntry * bool :=
  match its with
  | [] => ([], false)
  | (BroadcastOk entry, sent_ok) :: its =>
      if sent_ok : bool
      then let '(sent, ended) := subscribe_entries its in (entry :: sent, ended)
      else ([], true)
  | (BroadcastLagged _, _) :: _ | (BroadcastClosed, _) :: _ => ([], true)
  end.

(** The loop of [start_server_thread]: an iteration is the value of [exit] and
    whether a shutdown token arrived within the second.  The result is whether
    the server task was aborted and whether the loop has ended. *)
Fixpoint start_server_thread (its : list (bool * bool)) : bool * bool :=
  match its with
  | [] => (false, false)
  | (exit, shutdown) :: its =>
      if exit : bool then (false, true)
      else if shutdown : bool then (true, true) else start_server_thread its
  end.

(** * Specification *)

(** The entries the receiver returned. *)
Definition received_entries (its : list (BroadcastRecv * bool)) : list PbEntry :=
  omap (λ it : BroadcastRecv * bool, match it.1 with BroadcastOk e => Some e | _ => None end) its.

(** An iteration that goes on: an entry that the client took. *)
Definition delivered (it : BroadcastRecv * bool) : bool :=
  match it with (BroadcastOk _, true) => true | _ => false end.

Lemma subscribe_entries_split good bad :
  forallb delivered good = true → (∀ it its, bad = it :: its → delivered it = false) →
  subscribe_entries (good ++ bad)
  = (received_entries good, match bad with [] => false | _ => true end).
Proof.
  intros Hg Hb. induction good as [|[r ok] good IH]; simpl in *.
  - destruct bad as [|[r ok] bad]; [done|]. specialize (Hb _ _ eq_refl). simpl in Hb.
    by destruct r, ok.
  - apply andb_true_iff in Hg as [Hd Hg]. destruct r, ok; try done. rewrite IH by done.
    by destruct bad.
Qed.

(** Every run splits at its first iteration that does not go on. *)
Lemma split_delivered its :
  ∃ good bad, its = good ++ bad ∧ forallb delivered good = true ∧
    ∀ it its, bad = it :: its → delivered it = false.
Proof.
  induction its as [|it its IH]; [by exists [], []|].
  destruct (delivered it) eqn:E.
  - destruct IH as (good & bad & -> & Hg & Hb). exists (it :: good), bad. simpl.
    by rewrite E.
  - exists [], (it :: its). split_and!; try done. by intros ? ? [= <- <-].
Qed.
