(* ===== verification/ServiceTheorems.v ===== *)
(** The properties of the path from packets to subscribers: the reconstructor
    thread and the gRPC service. *)

From Stdlib Require Import Strings.Byte.
From S2P Require Import Prelude Net Metrics Shreds Tracker FecSet Packets Deshred DeshredInv.
From S2P Require Import Delivery Reconstructor Server Toy ToyRuns.

Section service.
Context `{ShredLib} `{PacketLib} `{BuildProfile} `{!ShredLibLaws}.
Context (good : Shred → Prop) `{!GoodShreds good}.

(** C9: whatever batches of good shreds, timeouts, disconnects and exit flags the
    reconstructor thread meets, it does not panic, and what it broadcasts is, in
    order and one for one, the payload of every segment it delivered; each
    payload deserializes, comes from one run of consecutive data shreds of its
    slot, and no data shred goes into two of them. *)
Theorem reconstructor_broadcasts m its :
  overflow_checks = false → Forall (iteration_good good) its →
  returns (reconstructor_loop (recon_init m) [] its) (λ '(st, sent, _),
    recon_wf good st ∧
    (∃ es, sent = to_pb <$> es ∧ Forall2 (delivery_ok good) (omap decoded_of (log st)) es) ∧
    disjoint_deliveries (omap decoded_of (log st))).
Proof.
  intros Ho Hg. eapply returns_mono;
    [by apply (reconstructor_loop_inv good); [|apply pipeline_inv_init|]|].
  intros [[st sent] b] [Hw [_ Hd] He]. done.
Qed.

(** Once the exit flag is seen or the channel is disconnected, the
    reconstructor thread handles nothing more: what comes after changes neither
    its state nor what it broadcasts. *)
Theorem reconstructor_stops st sent its it rest st' sent' :
  reconstructor_loop st sent its = Ok (st', sent', true) →
  it.1 = true ∨ it.2 = Disconnected →
  reconstructor_loop st sent (its ++ it :: rest) = Ok (st', sent', false).
Proof.
  revert st sent. induction its as [|[e r] its IH]; intros st sent; simpl.
  - intros [= -> ->] Hit. destruct it as [[] r]; [done|]. destruct Hit as [?|Hr]; [done|].
    simpl in Hr. by subst r.
  - destruct e; [done|]. destruct (reconstructor_step st sent r) as [[[st1 sent1] b]|]; [|done].
    simpl. destruct b; [apply IH|done].
Qed.
End service.

(** A subscriber is sent a prefix of the entries broadcast since it
    subscribed, without a gap, up to the first send that fails, the first lag or
    the close of the channel, where the stream ends for good: after the receiver
    has lagged, entries it could still receive are not sent. *)
Lemma subscriber_prefix its sent ended :
  subscribe_entries its = (sent, ended) →
  ∃ served rest, its = served ++ rest ∧ sent = received_entries served ∧
    Forall (λ it, delivered it = true) served ∧
    ended = bool_decide (rest ≠ []) ∧ ∀ it its', rest = it :: its' → delivered it = false.
Proof.
  destruct (split_delivered its) as (good & bad & -> & Hg & Hb).
  rewrite subscribe_entries_split by done. intros [= <- <-]. exists good, bad.
  split_and!; try done.
  - apply Forall_forall. intros it Hit. rewrite forallb_forall in Hg.
    by apply Hg, list_elem_of_In.
  - by destruct bad.
Qed.

(** * Witnesses *)

#[local] Existing Instance release.

Definition toy_its : list (bool * RecvTimeout PacketBatch) :=
  [(false, RecvOk toy_batch); (false, Timeout); (false, RecvOk toy_batch2)].

Lemma toy_its_good : Forall (iteration_good toy_good) toy_its.
Proof.
  pose proof toy_batches_good as Hb. rewrite !Forall_cons in Hb.
  destruct Hb as (H1 & H2 & _). unfold toy_its. rewrite !Forall_cons. by split_and!.
Qed.

Lemma reconstructor_broadcasts_witness :
  returns (reconstructor_loop toy_init [] toy_its) (λ '(st, sent, _),
    recon_wf toy_good st ∧
    (∃ es, sent = to_pb <$> es ∧ Forall2 (delivery_ok toy_good) (omap decoded_of (log st)) es) ∧
    disjoint_deliveries (omap decoded_of (log st))).
Proof.
  exact (reconstructor_broadcasts toy_good (ShredMetrics_new true) toy_its release_checks
           toy_its_good).
Defined.

(** The same run, evaluated: what the subscribers would be sent. *)
Example toy_broadcast :
  match reconstructor_loop toy_init [] toy_its with
  | Ok (_, sent, true) =>
      sent = [mkPbEntry 5 [x0a; x0b]; mkPbEntry 5 [x0d]; mkPbEntry 6 [x0c]]
  | _ => False
  end.
Proof. vm_compute. reflexivity. Qed.

Lemma reconstructor_stops_witness :
  reconstructor_loop toy_init [] ([(false, Timeout)] ++ (true, RecvOk toy_batch) :: toy_its)
  = Ok (toy_init, [], false).
Proof.
  apply (reconstructor_stops toy_init [] [(false, Timeout)] (true, RecvOk toy_batch) toy_its);
    [reflexivity|by left].
Defined.

Lemma subscriber_prefix_witness :
  ∃ served rest,
    [(BroadcastOk (mkPbEntry 1 []), true); (BroadcastLagged 3, true);
     (BroadcastOk (mkPbEntry 2 []), true)] = served ++ rest ∧
    [mkPbEntry 1 []] = received_entries served ∧
    Forall (λ it, delivered it = true) served ∧ true = bool_decide (rest ≠ []) ∧
    ∀ it its', rest = it :: its' → delivered it = false.
Proof. apply subscriber_prefix. reflexivity. Defined.
