(* ===== verification/Client.v ===== *)
(** examples/deshred.rs: the example client of the gRPC service, and what it
    prints when it is connected to the proxy's own pipeline. *)

From Stdlib Require Import Strings.Byte.
From S2P Require Import Prelude Net Metrics Shreds Tracker FecSet Packets Deshred DeshredInv.
From S2P Require Import Delivery Reconstructor Server Toy ToyRuns.

(** What [stream.message().await] gives. *)
Inductive StreamMessage :=
  | Message (slot_entry : PbEntry)
  | StreamEnd
  | StreamError (status : string).

(** A line on standard output. *)
Inductive Printed :=
  | PrintedEntries (slot entries transactions : Z)
  | PrintedFailure.

Section client.
Context `{ShredLib}.

(** The loop of the example's [main] over a finite prefix of the stream: what it
    prints, and whether it has ended. *)
Fixpoint client_loop (msgs : list StreamMessage) : outcome (list Printed * bool) :=
  match msgs with
  | [] => Ok ([], false)
  | StreamError e :: _ => Panicked (ExplicitPanic e)
  | StreamEnd :: _ => Ok ([], true)
  | Message slot_entry :: msgs =>
      let line :=
        match bincode_deserialize (pb_entries slot_entry) with
        | None => PrintedFailure
        | Some entries =>
            PrintedEntries (pb_slot slot_entry) (Z.of_nat (length entries))
              (sumZ (λ e, Z.of_nat (transactions_len e)) entries)
        end in
      '(lines, ended) ← client_loop msgs;
      Ok (line :: lines, ended)
  end.

(** * Specification *)

(** The line for a delivered segment. *)
Definition line_of (e : Z * list Entry * bytes) : Printed :=
  PrintedEntries e.1.1 (Z.of_nat (length e.1.2))
    (sumZ (λ e, Z.of_nat (transactions_len e)) e.1.2).

Lemma client_loop_lines es :
  Forall (λ e, bincode_deserialize e.2 = Some e.1.2) es →
  client_loop (Message <$> (to_pb <$> es)) = Ok (line_of <$> es, false).
Proof.
  induction 1 as [|[[slot es1] p] es He _ IH]; [done|].
  rewrite !fmap_cons. cbn [client_loop]. rewrite IH. simpl in *. by rewrite He.
Qed.

Lemma received_entries_app its1 its2 :
  received_entries (its1 ++ its2) = received_entries its1 ++ received_entries its2.
Proof. apply omap_app. Qed.
End client.

Section pipeline.
Context `{ShredLib} `{PacketLib} `{BuildProfile} `{!ShredLibLaws}.
Context (good : Shred → Prop) `{!GoodShreds good}.

(** C10: end to end, from packets to the client's output: whatever batches the
    reconstructor has handled, a client whose subscription receives entries of
    the broadcast from the start, in order, prints one line per entry it is sent,
    with the slot, the number of entries and the number of transactions of the
    delivered segments, in the order of delivery; it never fails to decode, and
    if its subscription has not ended it has printed everything it received. *)
Theorem client_prints_deliveries m its st sent running recvs out ended :
  overflow_checks = false → Forall (iteration_good good) its →
  reconstructor_loop (recon_init m) [] its = Ok (st, sent, running) →
  received_entries recvs `prefix_of` sent →
  subscribe_entries recvs = (out, ended) →
  ∃ es k, sent = to_pb <$> es ∧ Forall2 (delivery_ok good) (omap decoded_of (log st)) es ∧
    client_loop (Message <$> out) = Ok (line_of <$> take k es, false) ∧
    (ended = false → k = length (received_entries recvs)).
Proof.
  intros Ho Hg Hr [rest Hp] Hs.
  pose proof (reconstructor_loop_inv good (recon_init m) [] its Ho (pipeline_inv_init good m) Hg)
    as Hi. rewrite Hr in Hi. destruct Hi as [_ _ (es & Es & HF)]. simpl in Es, HF.
  destruct (split_delivered recvs) as (gd & bad & -> & Hgd & Hb).
  rewrite subscribe_entries_split in Hs by done. injection Hs as <- <-.
  exists es, (length (received_entries gd)). split_and!; [done..| |].
  - assert (received_entries gd = to_pb <$> take (length (received_entries gd)) es) as Ht.
    { rewrite fmap_take, <-Es, Hp, received_entries_app, <-app_assoc. by rewrite take_app_length. }
    rewrite Ht at 1. apply client_loop_lines, Forall_take. clear -HF.
    induction HF as [|seg e segs es (ds & _ & _ & _ & _ & He)]; by constructor.
  - destruct bad; [|done]. by rewrite app_nil_r.
Qed.
End pipeline.

(** * Witness *)

#[local] Existing Instance release.

(** A subscriber that takes the first two of the three toy entries, and a third
    that the client does not take. *)
Definition toy_recvs : list (BroadcastRecv * bool) :=
  [(BroadcastOk (mkPbEntry 5 [x0a; x0b]), true); (BroadcastOk (mkPbEntry 5 [x0d]), true);
   (BroadcastOk (mkPbEntry 6 [x0c]), false)].
Definition toy_packets : list (bool * RecvTimeout PacketBatch) :=
  [(false, RecvOk toy_batch); (false, RecvOk toy_batch2)].

Lemma toy_sent :
  match reconstructor_loop toy_init [] toy_packets with
  | Ok (_, sent, _) => sent = received_entries toy_recvs
  | Panicked _ => False
  end.
Proof. vm_compute. reflexivity. Qed.

Lemma client_prints_deliveries_witness :
  match reconstructor_loop toy_init [] toy_packets with
  | Ok (st, sent, _) =>
      ∃ es k, sent = to_pb <$> es ∧
        Forall2 (delivery_ok toy_good) (omap decoded_of (log st)) es ∧
        client_loop (Message <$> (subscribe_entries toy_recvs).1)
          = Ok (line_of <$> take k es, false) ∧
        (true = false → k = length (received_entries toy_recvs))
  | Panicked _ => False
  end.
Proof.
  pose proof toy_sent as Hs.
  destruct (reconstructor_loop toy_init [] toy_packets) as [[[st sent] running]|] eqn:E; [|done].
  apply (client_prints_deliveries toy_good (ShredMetrics_new true) toy_packets
           st sent running toy_recvs (subscribe_entries toy_recvs).1 true).
  - exact release_checks.
  - pose proof toy_batches_good as Hb. rewrite !Forall_cons in Hb.
    destruct Hb as (H1 & H2 & _). unfold toy_packets. rewrite !Forall_cons. by split_and!.
  - exact E.
  - by rewrite Hs.
  - reflexivity.
Defined.
