(* ===== verification/Heartbeat.v ===== *)
(** proxy/src/heartbeat.rs: the loop that keeps the subscription to the block
    engine alive, and its subscribe-only variant.

    Both are two nested loops around [select!].  They are written as machines
    that handle one event at a time: what [exit] is when a loop condition is
    checked, and what the connection attempt, the heartbeat or the tick gives.
    [ScopedAtomicBool] is one flag per connection attempt, set when its scope
    ends, which stops the token refresh task of that connection. *)

From S2P Require Import Prelude Net Errors NetText Ipv6Text.

(** * What a heartbeat says *)

(** [jito_protos::shared::Socket]: the port is a [u16] as an [i64]. *)
Record HbSocket := mkHbSocket { sock_ip : string; sock_port : Z }.
Definition heartbeat_socket (recv_socket : SocketAddr) : HbSocket :=
  mkHbSocket (show_IpAddr (socket_ip recv_socket)) (socket_port recv_socket).

(** [jito_protos::shredstream::Heartbeat], which every heartbeat sends. *)
Record HbRequest := mkHbRequest { req_socket : option HbSocket; req_regions : list string }.
Definition heartbeat_request (recv_socket : SocketAddr) (desired_regions : list string) : HbRequest :=
  mkHbRequest (Some (heartbeat_socket recv_socket)) desired_regions.

(** * The events *)

(** The result of [get_grpc_client]: a client and the handle of its token refresh
    task, or an error. *)
Inductive ConnectResult := Connected | ConnectFailed (e : ShredstreamProxyError).

(** The result of [send_heartbeat]: the server's [ttl_ms], or a status. *)
Inductive HeartbeatResult := HeartbeatOk (ttl_ms : Z) | HeartbeatErr (s : Status).

Inductive HbEvent :=
  (** the outer loop: [exit], and the connection attempt if it is not set *)
  | OuterIter (exit : bool) (res : ConnectResult)
  (** the inner loop: [exit], and what [select!] picks if it is not set *)
  | InnerHeartbeat (exit : bool) (res : HeartbeatResult)
  | InnerMetrics (exit : bool) (agg_received_cumulative : Z)
  | InnerShutdown (exit : bool).

(** Where the thread is. *)
Inductive HbPc := Outer | Inner | Finished.
#[global] Instance HbPc_eq_dec : EqDecision HbPc.
Proof. solve_decision. Defined.

Inductive HbLog :=
  | HbClientError (e : ShredstreamProxyError)
  | HbSendError (s : Status)
  | HbStats (successful failed restarts : Z)
  | HbRestartSignal
  | HbExiting (successful failed restarts : Z).

(** * [heartbeat_loop_thread] *)

Record Hb := mkHb {
  hb_pc : HbPc;
  heartbeat_interval : Z;  (** milliseconds *)
  last_cumulative_received_shred_count : Z;
  client_restart_count : Z;
  successful_heartbeat_count : Z;
  failed_heartbeat_count : Z;
  client_restart_count_cumulative : Z;
  successful_heartbeat_count_cumulative : Z;
  failed_heartbeat_count_cumulative : Z;
  (** the flags of the connections so far, and how often a refresh task was aborted *)
  con_exits : list bool;
  aborted : nat;
  hb_log : list HbLog;
}.

(** The [Drop] of [ScopedAtomicBool] for the connection that was made last. *)
Definition drop_scope (flags : list bool) : list bool :=
  <[pred (length flags) := true]> flags.

Section machine.
Context `{BuildProfile}.

Definition hb_init : Hb := mkHb Outer 1000 0 0 0 0 0 0 0 [] 0 [].

Definition hb_at (pc : HbPc) (flags : list bool) (lg : list HbLog) (st : Hb) : Hb :=
  mkHb pc (heartbeat_interval st) (last_cumulative_received_shred_count st)
    (client_restart_count st) (successful_heartbeat_count st) (failed_heartbeat_count st)
    (client_restart_count_cumulative st) (successful_heartbeat_count_cumulative st)
    (failed_heartbeat_count_cumulative st) flags (aborted st) (hb_log st ++ lg).

(** The end of the thread. *)
Definition hb_finish (st : Hb) : Hb :=
  hb_at Finished (con_exits st)
    [HbExiting (successful_heartbeat_count_cumulative st) (failed_heartbeat_count_cumulative st)
       (client_restart_count_cumulative st)] st.

(** An iteration of the outer loop up to the inner loop. *)
Definition hb_outer (exit : bool) (res : ConnectResult) (st : Hb) : outcome Hb :=
  if exit then Ok (hb_finish st) else
  let flags := con_exits st ++ [false] in
  match res with
  | Connected => Ok (hb_at Inner flags [] st)
  | ConnectFailed e =>
      n ← arith 64 (client_restart_count st + 1);
      let st := hb_at Outer (drop_scope flags) [HbClientError e] st in
      Ok (mkHb (hb_pc st) (heartbeat_interval st) (last_cumulative_received_shred_count st)
            n (successful_heartbeat_count st) (failed_heartbeat_count st)
            (client_restart_count_cumulative st) (successful_heartbeat_count_cumulative st)
            (failed_heartbeat_count_cumulative st) (con_exits st) (aborted st) (hb_log st))
  end.

(** The heartbeat arm: [ttl_ms / 3] is the next interval. *)
Definition hb_beat (res : HeartbeatResult) (st : Hb) : outcome Hb :=
  match res with
  | HeartbeatOk ttl_ms =>
      n ← arith 64 (successful_heartbeat_count st + 1);
      Ok (mkHb Inner (ttl_ms / 3) (last_cumulative_received_shred_count st)
            (client_restart_count st) n (failed_heartbeat_count st)
            (client_restart_count_cumulative st) (successful_heartbeat_count_cumulative st)
            (failed_heartbeat_count_cumulative st) (con_exits st) (aborted st) (hb_log st))
  | HeartbeatErr s =>
      if decide (status_code s = InvalidArgument)
      then Panicked (ExplicitPanic "Invalid arguments") else
      n ← arith 64 (failed_heartbeat_count st + 1);
      Ok (mkHb Inner (heartbeat_interval st) (last_cumulative_received_shred_count st)
            (client_restart_count st) (successful_heartbeat_count st) n
            (client_restart_count_cumulative st) (successful_heartbeat_count_cumulative st)
            (failed_heartbeat_count_cumulative st) (con_exits st) (aborted st)
            (hb_log st ++ [HbSendError s]))
  end.

(** The metrics arm: no new shreds since the last tick restarts the client. *)
Definition hb_metrics (new_received_count : Z) (st : Hb) : outcome Hb :=
  let st := hb_at Inner (con_exits st)
    [HbStats (successful_heartbeat_count st) (failed_heartbeat_count st)
       (client_restart_count st)] st in
  if decide (new_received_count = last_cumulative_received_shred_count st) then
    let st := hb_at Outer (drop_scope (con_exits st)) [HbRestartSignal] st in
    Ok (mkHb (hb_pc st) (heartbeat_interval st) (last_cumulative_received_shred_count st)
          (client_restart_count st) (successful_heartbeat_count st) (failed_heartbeat_count st)
          (client_restart_count_cumulative st) (successful_heartbeat_count_cumulative st)
          (failed_heartbeat_count_cumulative st) (con_exits st) (S (aborted st)) (hb_log st))
  else
    s ← arith 64 (successful_heartbeat_count_cumulative st + successful_heartbeat_count st);
    f ← arith 64 (failed_heartbeat_count_cumulative st + failed_heartbeat_count st);
    r ← arith 64 (client_restart_count_cumulative st + client_restart_count st);
    Ok (mkHb Inner (heartbeat_interval st) new_received_count 0 0 0 r s f
          (con_exits st) (aborted st) (hb_log st)).

(** Leaving the inner loop ends the scope of the connection. *)
Definition hb_leave (st : Hb) : Hb := hb_at Outer (drop_scope (con_exits st)) [] st.

(** One event; an event of a loop the thread is not in does not happen. *)
Definition hb_step (st : Hb) (ev : HbEvent) : outcome Hb :=
  match hb_pc st, ev with
  | Outer, OuterIter exit res => hb_outer exit res st
  | Inner, InnerHeartbeat exit res => if exit then Ok (hb_leave st) else hb_beat res st
  | Inner, InnerMetrics exit n => if exit then Ok (hb_leave st) else hb_metrics n st
  | Inner, InnerShutdown exit => Ok (hb_leave st)
  | _, _ => Ok st
  end.

Definition hb_run (st : Hb) (evs : list HbEvent) : outcome Hb := foldM hb_step st evs.

(** * [heartbeat_loop_subscribe_only] *)

Record HbSub := mkHbSub {
  sub_pc : HbPc;
  sub_interval : Z;
  sub_restarts : Z;        (** client_restart_count_cumulative *)
  sub_ok_cumulative : Z;
  sub_failed_cumulative : Z;
  sub_ok : Z;              (** the two counts of the current connection *)
  sub_failed : Z;
  sub_con_exits : list bool;
  sub_log : list HbLog;
}.

Definition sub_init : HbSub := mkHbSub Outer 1000 0 0 0 0 0 [] [].

(** After the inner loop: the counts are added and the scope ends. *)
Definition sub_leave (st : HbSub) : outcome HbSub :=
  s ← arith 64 (sub_ok_cumulative st + sub_ok st);
  f ← arith 64 (sub_failed_cumulative st + sub_failed st);
  Ok (mkHbSub Outer (sub_interval st) (sub_restarts st) s f 0 0
        (drop_scope (sub_con_exits st)) (sub_log st)).

Definition sub_outer (exit : bool) (res : ConnectResult) (st : HbSub) : outcome HbSub :=
  if exit then
    Ok (mkHbSub Finished (sub_interval st) (sub_restarts st) (sub_ok_cumulative st)
          (sub_failed_cumulative st) (sub_ok st) (sub_failed st) (sub_con_exits st)
          (sub_log st ++ [HbExiting (sub_ok_cumulative st) (sub_failed_cumulative st)
                            (sub_restarts st)]))
  else
  let flags := sub_con_exits st ++ [false] in
  match res with
  | Connected =>
      Ok (mkHbSub Inner (sub_interval st) (sub_restarts st) (sub_ok_cumulative st)
            (sub_failed_cumulative st) 0 0 flags (sub_log st))
  | ConnectFailed e =>
      n ← arith 64 (sub_restarts st + 1);
      Ok (mkHbSub Outer (sub_interval st) n (sub_ok_cumulative st) (sub_failed_cumulative st)
            (sub_ok st) (sub_failed st) (drop_scope flags) (sub_log st ++ [HbClientError e]))
  end.

(** More than five failures on one connection restart the client. *)
Definition sub_beat (res : HeartbeatResult) (st : HbSub) : outcome HbSub :=
  match res with
  | HeartbeatOk ttl_ms =>
      n ← arith 64 (sub_ok st + 1);
      Ok (mkHbSub Inner (ttl_ms / 3) (sub_restarts st) (sub_ok_cumulative st)
            (sub_failed_cumulative st) n (sub_failed st) (sub_con_exits st) (sub_log st))
  | HeartbeatErr s =>
      if decide (status_code s = InvalidArgument)
      then Panicked (ExplicitPanic "Invalid arguments") else
      n ← arith 64 (sub_failed st + 1);
      let st := mkHbSub Inner (sub_interval st) (sub_restarts st) (sub_ok_cumulative st)
                  (sub_failed_cumulative st) (sub_ok st) n (sub_con_exits st) (sub_log st) in
      if decide (5 < n) then sub_leave st else Ok st
  end.

Definition sub_step (st : HbSub) (ev : HbEvent) : outcome HbSub :=
  match sub_pc st, ev with
  | Outer, OuterIter exit res => sub_outer exit res st
  | Inner, InnerHeartbeat exit res => if exit then sub_leave st else sub_beat res st
  | Inner, InnerShutdown exit => sub_leave st
  | _, _ => Ok st
  end.

Definition sub_run (st : HbSub) (evs : list HbEvent) : outcome HbSub := foldM sub_step st evs.
End machine.
