(* ===== verification/HeartbeatTheorems.v ===== *)
(** The properties of the heartbeat loops: the scope of a connection, what the
    counters count, and when the client is restarted. *)

From S2P Require Import Prelude Errors Heartbeat.

Section heartbeat.
Context `{BuildProfile}.

(** * Specification *)

(** All connections but the live one have been told to stop. *)
Definition flags_ok (pc : HbPc) (flags : list bool) : Prop :=
  ∃ k, flags = replicate k true ++ (if decide (pc = Inner) then [false] else []).

(** What a step counts, by the state it starts from. *)
Definition counts_ok (st : Hb) (ev : HbEvent) : Z :=
  match hb_pc st, ev with Inner, InnerHeartbeat false (HeartbeatOk _) => 1 | _, _ => 0 end.
Definition counts_failed (st : Hb) (ev : HbEvent) : Z :=
  match hb_pc st, ev with Inner, InnerHeartbeat false (HeartbeatErr _) => 1 | _, _ => 0 end.
Definition counts_restart (st : Hb) (ev : HbEvent) : Z :=
  match hb_pc st, ev with Outer, OuterIter false (ConnectFailed _) => 1 | _, _ => 0 end.

(** The sum of a per-step count over a run. *)
Fixpoint along (f : Hb → HbEvent → Z) (st : Hb) (evs : list HbEvent) : Z :=
  match evs with
  | [] => 0
  | ev :: evs =>
      f st ev + match hb_step st ev with Ok st' => along f st' evs | Panicked _ => 0 end
  end.

(** * Lemmas *)

Lemma flags_ok_new pc flags :
  flags_ok pc flags → pc ≠ Inner → flags_ok Inner (flags ++ [false]) ∧
    flags_ok Outer (drop_scope (flags ++ [false])).
Proof.
  intros [k ->] Hpc. rewrite decide_False, app_nil_r by done. split; [by exists k|].
  exists (S k). unfold drop_scope. rewrite length_app, length_replicate. simpl.
  rewrite Nat.add_1_r, Nat.pred_succ, insert_app_r_alt by (rewrite length_replicate; lia).
  rewrite length_replicate, Nat.sub_diag. simpl. rewrite app_nil_r.
  by rewrite replicate_cons_app.
Qed.

Lemma flags_ok_drop flags : flags_ok Inner flags → flags_ok Outer (drop_scope flags).
Proof.
  intros [k ->]. rewrite decide_True by done.
  apply (flags_ok_new Outer (replicate k true)); [|done].
  exists k. by rewrite decide_False, app_nil_r by done.
Qed.

(** Evaluates a step that may panic on overflow. *)
Ltac step_cases H :=
  repeat match type of H with
    | (if decide ?P then _ else _) = Ok _ => destruct (decide P)
  | (_ ≫= _) = Ok _ => apply bind_Ok in H as (? & ?%arith_wrap & H)
  | Panicked _ = Ok _ => discriminate H
  | Ok _ = Ok _ => injection H as <-
  end.

Lemma hb_step_flags st ev st' :
  flags_ok (hb_pc st) (con_exits st) → hb_step st ev = Ok st' →
  flags_ok (hb_pc st') (con_exits st').
Proof.
  intros Hf Hs. unfold hb_step in Hs.
  destruct (hb_pc st) eqn:Hpc, ev as [exit res|exit res|exit n|exit];
    try (injection Hs as <-; by rewrite Hpc).
  - unfold hb_outer in Hs. destruct exit; [by injection Hs as <-|].
    destruct (flags_ok_new _ _ Hf ltac:(done)). destruct res; step_cases Hs; simpl; done.
  - destruct exit; [injection Hs as <-; by apply flags_ok_drop|].
    unfold hb_beat in Hs. destruct res; step_cases Hs; simpl; by rewrite ?Hpc.
  - destruct exit; [injection Hs as <-; by apply flags_ok_drop|].
    unfold hb_metrics in Hs. step_cases Hs; simpl; [by apply flags_ok_drop|by rewrite ?Hpc].
  - injection Hs as <-. by apply flags_ok_drop.
Qed.

Lemma hb_run_flags st evs st' :
  flags_ok (hb_pc st) (con_exits st) → hb_run st evs = Ok st' →
  flags_ok (hb_pc st') (con_exits st').
Proof.
  intros Hf Hr. pose proof (foldM_ensures hb_step (λ s, flags_ok (hb_pc s) (con_exits s)) st evs)
    as Hi. unfold hb_run in Hr. rewrite Hr in Hi. apply Hi; [done|].
  intros s ev _ Hs. apply ensures_Ok. intros s' E. by eapply hb_step_flags.
Qed.

Lemma sub_step_flags st ev st' :
  flags_ok (sub_pc st) (sub_con_exits st) → sub_step st ev = Ok st' →
  flags_ok (sub_pc st') (sub_con_exits st').
Proof.
  intros Hf Hs. unfold sub_step in Hs.
  destruct (sub_pc st) eqn:Hpc, ev as [exit res|exit res|exit n|exit];
    try (injection Hs as <-; by rewrite Hpc).
  - unfold sub_outer in Hs. destruct exit; [by injection Hs as <-|].
    destruct (flags_ok_new _ _ Hf ltac:(done)). destruct res; step_cases Hs; simpl; done.
  - pose proof (flags_ok_drop _ Hf).
    destruct exit; [unfold sub_leave in Hs; by step_cases Hs|].
    unfold sub_beat, sub_leave in Hs. destruct res; step_cases Hs; simpl; done.
  - pose proof (flags_ok_drop _ Hf). unfold sub_leave in Hs. by step_cases Hs.
Qed.

Lemma sub_run_flags st evs st' :
  flags_ok (sub_pc st) (sub_con_exits st) → sub_run st evs = Ok st' →
  flags_ok (sub_pc st') (sub_con_exits st').
Proof.
  intros Hf Hr. pose proof (foldM_ensures sub_step
    (λ s, flags_ok (sub_pc s) (sub_con_exits s)) st evs) as Hi.
  unfold sub_run in Hr. rewrite Hr in Hi. apply Hi; [done|].
  intros s ev _ Hs. apply ensures_Ok. intros s' E. by eapply sub_step_flags.
Qed.

(** A step moves counts to the cumulative ones and adds what it counts. *)
Lemma hb_step_counts st ev st' :
  hb_step st ev = Ok st' →
  wrap 64 (successful_heartbeat_count_cumulative st' + successful_heartbeat_count st')
  = wrap 64 (successful_heartbeat_count_cumulative st + successful_heartbeat_count st
             + counts_ok st ev) ∧
  wrap 64 (failed_heartbeat_count_cumulative st' + failed_heartbeat_count st')
  = wrap 64 (failed_heartbeat_count_cumulative st + failed_heartbeat_count st
             + counts_failed st ev) ∧
  wrap 64 (client_restart_count_cumulative st' + client_restart_count st')
  = wrap 64 (client_restart_count_cumulative st + client_restart_count st
             + counts_restart st ev).
Proof.
  unfold hb_step, counts_ok, counts_failed, counts_restart. intros Hs.
  destruct (hb_pc st) eqn:Hpc, ev as [exit res|exit res|exit n|exit];
    try (injection Hs as <-; by rewrite !Z.add_0_r).
  - unfold hb_outer in Hs. destruct exit; [injection Hs as <-; simpl; by rewrite !Z.add_0_r|].
    destruct res; step_cases Hs; simpl; rewrite ?Z.add_0_r; subst; autorewrite with rust;
      split_and!; try done; f_equal; lia.
  - destruct exit; [injection Hs as <-; simpl; by rewrite !Z.add_0_r|].
    unfold hb_beat in Hs. destruct res; step_cases Hs; simpl; rewrite ?Z.add_0_r; subst;
      autorewrite with rust; split_and!; try done; f_equal; lia.
  - destruct exit; [injection Hs as <-; simpl; by rewrite !Z.add_0_r|].
    unfold hb_metrics in Hs. step_cases Hs; simpl; rewrite ?Z.add_0_r; simpl in *; subst;
      autorewrite with rust; done.
Qed.

Lemma along_counts (f : Hb → HbEvent → Z) (total : Hb → Z) st evs st' :
  (∀ s ev s', hb_step s ev = Ok s' → wrap 64 (total s') = wrap 64 (total s + f s ev)) →
  hb_run st evs = Ok st' → wrap 64 (total st') = wrap 64 (total st + along f st evs).
Proof.
  intros Hf. revert st. induction evs as [|ev evs IH]; intros st.
  { intros [= <-]. simpl. by rewrite Z.add_0_r. }
  unfold hb_run. simpl. intros (st1 & E & Hr)%bind_Ok. rewrite E.
  rewrite (IH st1 Hr), <-wrap_add_l, (Hf _ _ _ E), wrap_add_l. f_equal. lia.
Qed.

(** * The properties *)

(** C23: in every reachable state of either heartbeat loop, all connections the
    loop has ever made but the one it is using have their exit flag set, so
    their token refresh tasks end; the one in use does not. *)
Theorem connection_scopes evs :
  (∀ st, hb_run hb_init evs = Ok st → flags_ok (hb_pc st) (con_exits st)) ∧
  (∀ st, sub_run sub_init evs = Ok st → flags_ok (sub_pc st) (sub_con_exits st)).
Proof.
  split; intros st Hr; [eapply hb_run_flags|eapply sub_run_flags]; try done; by exists 0%nat.
Qed.

(** C40: over a whole run the cumulative counters and the counts since the last
    metrics tick together are the heartbeats that succeeded, the heartbeats that
    failed and the connection attempts that failed (modulo 2^64); restarting the
    client does not lose a count and is not itself counted as a restart. *)
Theorem heartbeat_counts evs st :
  hb_run hb_init evs = Ok st →
  wrap 64 (successful_heartbeat_count_cumulative st + successful_heartbeat_count st)
    = wrap 64 (along counts_ok hb_init evs) ∧
  wrap 64 (failed_heartbeat_count_cumulative st + failed_heartbeat_count st)
    = wrap 64 (along counts_failed hb_init evs) ∧
  wrap 64 (client_restart_count_cumulative st + client_restart_count st)
    = wrap 64 (along counts_restart hb_init evs).
Proof.
  intros Hr. split_and!.
  - by apply (along_counts counts_ok (λ s, successful_heartbeat_count_cumulative s
      + successful_heartbeat_count s) hb_init); [intros; by apply hb_step_counts|].
  - by apply (along_counts counts_failed (λ s, failed_heartbeat_count_cumulative s
      + failed_heartbeat_count s) hb_init); [intros; by apply hb_step_counts|].
  - by apply (along_counts counts_restart (λ s, client_restart_count_cumulative s
      + client_restart_count s) hb_init); [intros; by apply hb_step_counts|].
Qed.

(** The events of a connection that is kept: no exit, heartbeats that are not
    answered with InvalidArgument, and metrics ticks that read a received count
    other than the last. *)
Fixpoint healthy (last : Z) (evs : list HbEvent) : Prop :=
  match evs with
  | [] => True
  | InnerHeartbeat exit res :: evs =>
      exit = false ∧ (∀ s, res = HeartbeatErr s → status_code s ≠ InvalidArgument) ∧
      healthy last evs
  | InnerMetrics exit n :: evs => exit = false ∧ n ≠ last ∧ healthy n evs
  | _ => False
  end.

Lemma healthy_run st evs :
  overflow_checks = false → hb_pc st = Inner →
  healthy (last_cumulative_received_shred_count st) evs →
  ∃ st1, hb_run st evs = Ok st1 ∧ hb_pc st1 = Inner ∧ con_exits st1 = con_exits st ∧
         aborted st1 = aborted st.
Proof.
  intros Ho. revert st. induction evs as [|ev evs IH]; intros st Hpc Hh; [by exists st|].
  assert (∃ st1, hb_step st ev = Ok st1 ∧ hb_pc st1 = Inner ∧ con_exits st1 = con_exits st ∧
    aborted st1 = aborted st ∧ healthy (last_cumulative_received_shred_count st1) evs)
    as (st1 & E & Hpc1 & Hc1 & Ha1 & Hh1).
  { unfold hb_step. rewrite Hpc. destruct ev as [|exit res|exit n|]; simpl in Hh; try done.
    - destruct Hh as (-> & Hres & Hh). unfold hb_beat. destruct res as [ttl|s].
      + rewrite arith_release by done. simpl. eexists. split_and!; try done.
      + rewrite decide_False by (by apply (Hres s)). rewrite arith_release by done. simpl.
        eexists. split_and!; try done.
    - destruct Hh as (-> & Hn & Hh). unfold hb_metrics. rewrite decide_False by done.
      rewrite !arith_release by done. simpl. eexists. split_and!; try done. }
  destruct (IH st1 Hpc1 Hh1) as (st2 & E2 & ? & Hc2 & Ha2).
  exists st2. unfold hb_run. simpl. rewrite E. simpl. split_and!; try done; congruence.
Qed.

(** C24: a connection is kept as long as every metrics tick reads another value of
    the cumulative received counter than the tick before it (whether or not
    shreds arrive: only the accessory thread's reset moves that counter), no
    heartbeat is answered with InvalidArgument (that panics; any other error is
    counted and survived), and no exit is asked for; at the first tick that reads
    the value of the tick before, the connection is given up: its refresh task is
    aborted, its flag is set, and the thread connects again. *)
Theorem connection_kept_while_counter_moves st evs :
  overflow_checks = false → hb_pc st = Inner →
  healthy (last_cumulative_received_shred_count st) evs →
  ∃ st1 st2, hb_run st evs = Ok st1 ∧ hb_pc st1 = Inner ∧ con_exits st1 = con_exits st ∧
    aborted st1 = aborted st ∧
    hb_step st1 (InnerMetrics false (last_cumulative_received_shred_count st1)) = Ok st2 ∧
    hb_pc st2 = Outer ∧ con_exits st2 = drop_scope (con_exits st) ∧ aborted st2 = S (aborted st).
Proof.
  intros Ho Hpc Hh. destruct (healthy_run st evs Ho Hpc Hh) as (st1 & E & Hpc1 & Hc & Ha).
  unfold hb_step. eexists st1, _. rewrite Hpc1, Hc, Ha. unfold hb_metrics.
  rewrite decide_True by done. split_and!; try done; simpl; congruence.
Qed.
End heartbeat.

(** * Witnesses *)

#[local] Instance hb_release : BuildProfile := false.

(** A failed connection, a good one with a heartbeat, a tick without shreds. *)
Definition toy_hb : list HbEvent :=
  [OuterIter false (ConnectFailed ShutdownErr); OuterIter false Connected;
   InnerHeartbeat false (HeartbeatOk 9000); InnerMetrics false 0; OuterIter false Connected].
Definition toy_hb_state : Hb :=
  match hb_run hb_init toy_hb with Ok st => st | Panicked _ => hb_init end.

Example toy_hb_flags :
  (hb_pc toy_hb_state, heartbeat_interval toy_hb_state, con_exits toy_hb_state)
  = (Inner, 3000, [true; true; false]).
Proof. vm_compute. reflexivity. Qed.

Lemma connection_scopes_witness : flags_ok (hb_pc toy_hb_state) (con_exits toy_hb_state).
Proof. apply (connection_scopes toy_hb). vm_compute. reflexivity. Defined.

Lemma heartbeat_counts_witness :
  wrap 64 (successful_heartbeat_count_cumulative toy_hb_state
           + successful_heartbeat_count toy_hb_state) = 1 ∧
  wrap 64 (client_restart_count_cumulative toy_hb_state + client_restart_count toy_hb_state) = 1.
Proof.
  destruct (heartbeat_counts toy_hb toy_hb_state) as (H1 & _ & H3); [vm_compute; reflexivity|].
  split; [rewrite H1|rewrite H3]; vm_compute; reflexivity.
Defined.

Lemma connection_kept_while_counter_moves_witness :
  ∃ st1 st2, hb_run toy_hb_state [InnerHeartbeat false (HeartbeatErr (mkStatus (OtherCode 14) "x"));
                                  InnerMetrics false 7; InnerMetrics false 8] = Ok st1 ∧
    hb_pc st1 = Inner ∧ con_exits st1 = [true; true; false] ∧ aborted st1 = 1%nat ∧
    hb_step st1 (InnerMetrics false (last_cumulative_received_shred_count st1)) = Ok st2 ∧
    hb_pc st2 = Outer ∧ con_exits st2 = [true; true; true] ∧ aborted st2 = 2%nat.
Proof.
  apply (connection_kept_while_counter_moves toy_hb_state); [reflexivity|vm_compute; reflexivity|].
  cbn [healthy]. repeat apply conj; try reflexivity; try exact I.
  - intros s [= <-]. discriminate.
  - vm_compute. discriminate.
  - discriminate.
Defined.
