(* ===== verification/TokenAuth.v ===== *)
(** proxy/src/token_authenticator.rs: authentication with the block engine, the
    task that keeps the access token fresh, and the interceptor that puts it on
    every request. *)

From S2P Require Import Prelude Errors Shreds.

(** [prost_types::Timestamp] and its conversion to a [SystemTime] (nanoseconds),
    the key pair, and the parser of header values. *)
Class AuthLib := {
  Timestamp : Type;
  SystemTime_of : Timestamp → option Z;
  (** [keypair.pubkey()] as bytes and printed, and [keypair.sign_message] *)
  pubkey_bytes : bytes;
  pubkey_string : string;
  sign_message : string → bytes;
  (** [Role as i32] *)
  role_i32 : Z;
  (** [.parse::<MetadataValue>()]: the value, or the error printed *)
  parse_metadata : string → result string string;
}.

Record Token `{AuthLib} := mkToken { token_value : string; expires_at_utc : option Timestamp }.
Arguments mkToken {_} _ _.

Record AuthChallengeRequest := mkChallengeRequest { cr_role : Z; cr_pubkey : bytes }.
Record AuthTokensRequest := mkTokensRequest {
  tr_challenge : string; tr_client_pubkey : bytes; tr_signed_challenge : bytes }.

(** What the auth service answers at one moment. *)
Record AuthServer `{AuthLib} := mkAuthServer {
  generate_auth_challenge : AuthChallengeRequest → result string Status;
  generate_auth_tokens : AuthTokensRequest → result (option Token * option Token) Status;
  refresh_access_token : string → result (option Token) Status;
}.

Section auth.
Context `{AuthLib}.

(** [ClientInterceptor::auth]: (access token, refresh token) *)
Definition auth (srv : AuthServer) : result (Token * Token) BlockEngineConnectionError :=
  try_ Client (generate_auth_challenge srv (mkChallengeRequest role_i32 pubkey_bytes)) (λ c,
  let challenge := pubkey_string +:+ "-" +:+ c in
  let signed_challenge := sign_message challenge in
  try_ Client (generate_auth_tokens srv
                 (mkTokensRequest challenge pubkey_bytes signed_challenge)) (λ tokens,
  try_ id (ok_or tokens.1 Deserialization) (λ access,
  try_ id (ok_or tokens.2 Deserialization) (λ refresh, ROk (access, refresh))))).

(** The state of the refresh task; [bearer_token] is shared with the interceptor. *)
Record Auth := mkAuth {
  bearer_token : string;
  refresh_token : Token;
  access_token_expiration : Timestamp;
}.

(** [ClientInterceptor::new]: the state the task starts from. *)
Definition interceptor_new (srv : AuthServer) : result Auth BlockEngineConnectionError :=
  try_ id (auth srv) (λ '(access, refresh),
  try_ id (ok_or (expires_at_utc access) Deserialization) (λ exp,
  ROk (mkAuth (token_value access) refresh exp))).

(** What an iteration of the refresh loop reports. *)
Inductive AuthAction :=
  | FullAuth (is_error : bool)
  | AccessTokenRefresh (is_error : bool)
  | Slept.

(** Five minutes in nanoseconds. *)
Definition REFRESH_MARGIN : Z := 5 * 60 * 1000000000.

(** [duration_since(now).unwrap_or_default()] *)
Definition ttl (e now : Z) : Z := Z.max 0 (e - now).

(** [bearer_token.store(..)]: it is visible to the interceptor at once, also when
    the task panics right after it. *)
Definition store_bearer (v : string) (st : Auth) : Auth :=
  mkAuth v (refresh_token st) (access_token_expiration st).

(** One iteration of the refresh loop at time [now]; [None]: the task panics. *)
Definition refresh_iteration (srv : AuthServer) (now : Z) (st : Auth) :
    Auth * option AuthAction :=
  match expires_at_utc (refresh_token st) ≫= SystemTime_of with
  | None => (st, None)
  | Some refresh_exp =>
  if decide (ttl refresh_exp now < REFRESH_MARGIN) then
    match auth srv with
    | ROk (new_access_token, new_refresh_token) =>
        let st := store_bearer (token_value new_access_token) st in
        match expires_at_utc new_access_token with
        | None => (st, None)
        | Some exp => (mkAuth (bearer_token st) new_refresh_token exp, Some (FullAuth false))
        end
    | RErr _ => (st, Some (FullAuth true))
    end
  else
  match SystemTime_of (access_token_expiration st) with
  | None => (st, None)
  | Some access_exp =>
  if decide (ttl access_exp now < REFRESH_MARGIN) then
    match refresh_access_token srv (token_value (refresh_token st)) with
    | ROk None => (st, None)
    | ROk (Some access_token) =>
        let st := store_bearer (token_value access_token) st in
        match expires_at_utc access_token with
        | None => (st, None)
        | Some exp => (mkAuth (bearer_token st) (refresh_token st) exp,
                       Some (AccessTokenRefresh false))
        end
    | RErr _ => (st, Some (AccessTokenRefresh true))
    end
  else (st, Some Slept)
  end
  end.

(** How a finite prefix of the loop ends. *)
Inductive TaskEnd := Running | Exited | Died.

(** The loop over its iterations: [exit], the time and the auth service of each;
    the actions it took. *)
Fixpoint refresh_task (st : Auth) (its : list (bool * Z * AuthServer)) :
    Auth * list AuthAction * TaskEnd :=
  match its with
  | [] => (st, [], Running)
  | (exit, now, srv) :: its =>
      if exit : bool then (st, [], Exited) else
      match refresh_iteration srv now st with
      | (st, None) => (st, [], Died)
      | (st, Some a) =>
          let '(st, acts, en) := refresh_task st its in (st, a :: acts, en)
      end
  end.

(** The metadata of a request: the values of each key. *)
Abbreviation MetadataMap := (gmap string (list string)).

(** [Interceptor::call]; [insert] replaces all values of the key. *)
Definition interceptor_call (st : Auth) (request : MetadataMap) : result MetadataMap Status :=
  if decide (bearer_token st = "") then RErr (mkStatus InvalidArgument "missing bearer token")
  else try_ (λ e, mkStatus InvalidArgument e) (parse_metadata ("Bearer " +:+ bearer_token st))
         (λ v, ROk (<["authorization" := [v]]> request)).
End auth.

(** * [create_grpc_channel] *)

Section channel.
Context `{AuthLib}.
(** [tonic::transport]: an endpoint of a URL, its TLS configuration with the
    enabled roots, and the connection. *)
Context {Endpoint Channel : Type}.
Context (from_shared : string → result Endpoint details).
Context (tls_config : Endpoint → result Endpoint details).
Context (connect : Endpoint → result Channel details).

Definition create_grpc_channel (url : string) : result Channel BlockEngineConnectionError :=
  try_ id
    (if String.prefix "https" url
     then try_ Transport (from_shared url) (λ e, try_ Transport (tls_config e) ROk)
     else try_ Transport (from_shared url) ROk)
    (λ endpoint, try_ Transport (connect endpoint) ROk).

(** [get_grpc_client] of proxy/src/heartbeat.rs: the channel of the block engine
    and the state of the interceptor in front of it; [AuthServiceClient::new]
    makes the auth service of a channel. *)
Context (auth_service_client : Channel → AuthServer).

Definition get_grpc_client (block_engine_url auth_url : string) :
    result (Channel * Auth) ShredstreamProxyError :=
  try_ BlockEngineConnectionErr (create_grpc_channel auth_url) (λ auth_channel,
  try_ BlockEngineConnectionErr (create_grpc_channel block_engine_url) (λ searcher_channel,
  try_ BlockEngineConnectionErr (interceptor_new (auth_service_client auth_channel)) (λ st,
  ROk (searcher_channel, st)))).
End channel.
