(* ===== verification/TokenAuthTheorems.v ===== *)
(** The properties of the token authentication: which token a request carries,
    how long it is valid, and that renewing it comes to rest. *)

From S2P Require Import Prelude Errors Shreds TokenAuth.

Section token_auth.
Context `{AuthLib}.

(** * Specification *)

(** [srv] issues an access token of value [v] that expires at [exp]. *)
Definition issues (srv : AuthServer) (v : string) (exp : Timestamp) : Prop :=
  (∃ access refresh, auth srv = ROk (access, refresh) ∧
     token_value access = v ∧ expires_at_utc access = Some exp) ∨
  (∃ r access, refresh_access_token srv r = ROk (Some access) ∧
     token_value access = v ∧ expires_at_utc access = Some exp).

Definition renews (a : AuthAction) : bool :=
  match a with FullAuth e | AccessTokenRefresh e => negb e | Slept => false end.

(** The service that gave the last token, [srv0] before the first renewal. *)
Definition last_issuer (srv0 : AuthServer)
    (trace : list (bool * Z * AuthServer * AuthAction)) : AuthServer :=
  foldl (λ srv it, if renews it.2 then it.1.2 else srv) srv0 trace.

(** A service that answers every request with tokens valid until [horizon]. *)
Definition valid_until (horizon : Z) (o : option Timestamp) : Prop :=
  ∃ e, o ≫= SystemTime_of = Some e ∧ horizon ≤ e.
Definition service_up (horizon : Z) (srv : AuthServer) : Prop :=
  (∃ access refresh, auth srv = ROk (access, refresh) ∧
     valid_until horizon (expires_at_utc access) ∧
     valid_until horizon (expires_at_utc refresh)) ∧
  ∀ r, ∃ access, refresh_access_token srv r = ROk (Some access) ∧
     valid_until horizon (expires_at_utc access).

Definition is_sleep (a : AuthAction) : bool := match a with Slept => true | _ => false end.

(** * Lemmas *)

Lemma auth_ok srv access refresh :
  auth srv = ROk (access, refresh) ↔
  ∃ c, generate_auth_challenge srv (mkChallengeRequest role_i32 pubkey_bytes) = ROk c ∧
    generate_auth_tokens srv (mkTokensRequest (pubkey_string +:+ "-" +:+ c) pubkey_bytes
      (sign_message (pubkey_string +:+ "-" +:+ c))) = ROk (Some access, Some refresh).
Proof.
  unfold auth. destruct (generate_auth_challenge _ _) as [c|e]; simpl.
  - split; [|intros (c' & [= <-] & ->); done].
    intros Ha. exists c. split; [done|].
    destruct (generate_auth_tokens _ _) as [[[a|] [r|]]|]; simplify_eq/=; done.
  - split; [done|]. by intros (? & ? & _).
Qed.

(** An iteration that renews changes the token to one the service issued; any
    other that does not panic leaves the whole state alone; and it sleeps only
    when neither token expires within the margin. *)
Lemma refresh_iteration_cases srv now st st' a :
  refresh_iteration srv now st = (st', Some a) →
  (if renews a then issues srv (bearer_token st') (access_token_expiration st') else st' = st) ∧
  (a = Slept → ∃ e, SystemTime_of (access_token_expiration st') = Some e ∧
                    now + REFRESH_MARGIN ≤ e).
Proof.
  unfold refresh_iteration, issues, ttl.
  destruct (expires_at_utc (refresh_token st) ≫= SystemTime_of) as [re|]; [|done].
  case_decide.
  { destruct (auth srv) as [[ac rf]|] eqn:E; [|by intros [= <- <-]].
    destruct (expires_at_utc ac) as [exp|] eqn:Ee; [|done].
    intros [= <- <-]. simpl. split; [left; eauto|done]. }
  destruct (SystemTime_of (access_token_expiration st)) as [ae|] eqn:Ea; [|done].
  case_decide.
  - destruct (refresh_access_token srv _) as [[ac|]|] eqn:E; [|done|by intros [= <- <-]].
    destruct (expires_at_utc ac) as [exp|] eqn:Ee; [|done].
    intros [= <- <-]. simpl. split; [right; eauto|done].
  - intros [= <- <-]. split; [done|]. exists ae. split; [done|]. unfold REFRESH_MARGIN in *. lia.
Qed.

Lemma refresh_task_issuer srv0 st0 its st acts en :
  issues srv0 (bearer_token st0) (access_token_expiration st0) →
  refresh_task st0 its = (st, acts, en) → en ≠ Died →
  issues (last_issuer srv0 (zip its acts)) (bearer_token st) (access_token_expiration st).
Proof.
  revert srv0 st0 st acts. induction its as [|[[ex now] srv] its IH]; intros srv0 st0 st acts Hi.
  { by intros [= <- <- <-]. }
  simpl. destruct ex; [by intros [= <- <- <-]|].
  destruct (refresh_iteration srv now st0) as [st1 [a|]] eqn:E; [|by intros [= <- <- <-]].
  destruct (refresh_task st1 its) as [[st2 acts2] en2] eqn:Er. intros [= <- <- <-] Hd.
  apply refresh_iteration_cases in E as [Hc _]. unfold last_issuer. simpl.
  eapply IH; [|done..]. destruct (renews a); [done|by subst].
Qed.

Lemma refresh_task_slept st0 its st acts en ex now srv :
  refresh_task st0 its = (st, acts, en) → en ≠ Died →
  last (zip its acts) = Some (ex, now, srv, Slept) →
  ∃ e, SystemTime_of (access_token_expiration st) = Some e ∧ now + REFRESH_MARGIN ≤ e.
Proof.
  revert st0 st acts. induction its as [|[[ex0 now0] srv0] its IH]; intros st0 st acts; [done|].
  simpl. destruct ex0; [by intros [= <- <- <-]|].
  destruct (refresh_iteration srv0 now0 st0) as [st1 [a|]] eqn:E; [|by intros [= <- <- <-]].
  destruct (refresh_task st1 its) as [[st2 acts2] en2] eqn:Er. intros [= <- <- <-] Hd.
  destruct (zip its acts2) as [|z zs] eqn:Ez.
  - simpl; intros ?; simplify_eq. apply refresh_iteration_cases in E as [_ Hs].
    destruct (Hs eq_refl) as (e & He & Hle). exists e. split; [|done].
    destruct acts2 as [|a2 acts2].
    + destruct its as [|[[ex1 now1] srv1] its]; [by simplify_eq/=|].
      simpl in Er. destruct ex1; [by simplify_eq|].
      destruct (refresh_iteration srv1 now1 st1) as [s [b|]]; [|by simplify_eq].
      by destruct (refresh_task s its) as [[? ?] ?].
    + destruct its; [done|discriminate Ez].
  - intros Hl. eapply IH; [done..|]. rewrite Ez. by destruct zs.
Qed.

(** How many of the two tokens expire before [horizon]. *)
Definition expiring (horizon re ae : Z) : nat :=
  (if decide (re < horizon) then 1 else 0) + (if decide (ae < horizon) then 1 else 0).

Lemma service_up_iteration horizon srv now st re ae :
  service_up horizon srv → now + REFRESH_MARGIN ≤ horizon →
  expires_at_utc (refresh_token st) ≫= SystemTime_of = Some re →
  SystemTime_of (access_token_expiration st) = Some ae →
  ∃ st' a re' ae', refresh_iteration srv now st = (st', Some a) ∧
    expires_at_utc (refresh_token st') ≫= SystemTime_of = Some re' ∧
    SystemTime_of (access_token_expiration st') = Some ae' ∧
    renews a = negb (is_sleep a) ∧
    ((if is_sleep a then 0 else 1) + expiring horizon re' ae' ≤ expiring horizon re ae)%nat.
Proof.
  intros [(ac & rf & Ha & (e1 & He1 & Hl1) & (e2 & He2 & Hl2)) Hr] Hnow Hre Hae.
  unfold refresh_iteration. rewrite Hre, Hae, Ha. unfold expiring, ttl, REFRESH_MARGIN in *.
  case_decide.
  { destruct (expires_at_utc ac) as [exp|]; [|done]. simpl in He1.
    eexists _, _, e2, e1. split_and!; try done. simpl.
    repeat case_decide; lia. }
  case_decide.
  - destruct (Hr (token_value (refresh_token st))) as (ac' & -> & e3 & He3 & Hl3).
    destruct (expires_at_utc ac') as [exp|]; [|done]. simpl in He3.
    eexists _, _, re, e3. split_and!; try done. simpl.
    repeat case_decide; lia.
  - eexists _, _, re, ae. split_and!; try done.
Qed.

(** While the service rejects every request, an expiring refresh token makes the
    task ask again in every iteration, and it never sleeps. *)
Lemma failed_auth_retried_at_once srv e now st re n :
  auth srv = RErr e → expires_at_utc (refresh_token st) ≫= SystemTime_of = Some re →
  re < now + REFRESH_MARGIN →
  refresh_task st (replicate n (false, now, srv)) = (st, replicate n (FullAuth true), Running).
Proof.
  intros Ha Hre Hlt. induction n as [|n IH]; [done|]. simpl.
  assert (refresh_iteration srv now st = (st, Some (FullAuth true))) as ->.
  { unfold refresh_iteration. rewrite Hre, Ha. rewrite decide_True; [done|].
    unfold ttl, REFRESH_MARGIN in *. lia. }
  by rewrite IH.
Qed.

(** * The properties *)

(** C21: at every moment of a run in which the refresh task has not panicked, the
    interceptor holds the access token that the auth service issued last (at the
    start or in the last iteration that reported no error), together with that
    token's expiry; a request that the interceptor lets through carries exactly
    that token as the only value of its [authorization] header and keeps all its
    other headers; and right after the task has gone to sleep the token is valid
    for at least five more minutes. *)
Theorem requests_carry_last_token srv0 st0 its st acts en :
  interceptor_new srv0 = ROk st0 → refresh_task st0 its = (st, acts, en) → en ≠ Died →
  issues (last_issuer srv0 (zip its acts)) (bearer_token st) (access_token_expiration st) ∧
  (∀ request sent, interceptor_call st request = ROk sent →
     ∃ v, parse_metadata ("Bearer " +:+ bearer_token st) = ROk v ∧
       sent !! "authorization" = Some [v] ∧
       ∀ k, k ≠ "authorization" → sent !! k = request !! k) ∧
  (∀ ex now srv, last (zip its acts) = Some (ex, now, srv, Slept) →
     ∃ e, SystemTime_of (access_token_expiration st) = Some e ∧ now + REFRESH_MARGIN ≤ e).
Proof.
  intros Hn Hr Hd. split_and!.
  - eapply refresh_task_issuer; [|done..]. unfold interceptor_new in Hn. left.
    destruct (auth srv0) as [[ac rf]|]; [|done]. simpl in Hn.
    destruct (expires_at_utc ac) as [exp|] eqn:E; [|done]. simplify_eq/=. eauto.
  - intros request sent. unfold interceptor_call. case_decide; [done|].
    destruct (parse_metadata _) as [v|]; [|done]. intros [= <-]. exists v.
    split_and!; [done|by rewrite lookup_insert_eq|]. intros k Hk. by rewrite lookup_insert_ne.
  - intros. by eapply refresh_task_slept.
Qed.

(** C22: while the auth service answers with tokens that stay valid, the refresh
    task never panics, every renewal succeeds, and in the whole run at most two
    iterations renew a token: all others sleep. *)
Theorem renewal_settles horizon st0 its st acts en :
  (∃ re, expires_at_utc (refresh_token st0) ≫= SystemTime_of = Some re) →
  (∃ ae, SystemTime_of (access_token_expiration st0) = Some ae) →
  Forall (λ it : bool * Z * AuthServer,
            service_up horizon it.2 ∧ it.1.2 + REFRESH_MARGIN ≤ horizon) its →
  refresh_task st0 its = (st, acts, en) →
  en ≠ Died ∧ Forall (λ a, renews a = negb (is_sleep a)) acts ∧
  (length (filter (λ a, is_sleep a = false) acts) ≤ 2)%nat.
Proof.
  intros [re Hre] [ae Hae] Hits Hr.
  assert (en ≠ Died ∧ Forall (λ a, renews a = negb (is_sleep a)) acts ∧
    (length (filter (λ a, is_sleep a = false) acts) ≤ expiring horizon re ae)%nat)
    as (? & ? & Hle).
  { revert st0 re ae st acts en Hre Hae Hr.
    induction Hits as [|[[ex now] srv] its [Hup Hnow] _ IH];
      intros st0 re ae st acts en Hre Hae.
    - intros [= <- <- <-]. split_and!; [done|constructor|simpl; lia].
    - simpl in *. destruct ex; [intros [= <- <- <-]; split_and!; [done|constructor|simpl; lia]|].
      destruct (service_up_iteration horizon srv now st0 re ae)
        as (st1 & a & re1 & ae1 & -> & Hre1 & Hae1 & Hren & Hm); [done..|].
      destruct (refresh_task st1 its) as [[st2 acts2] en2] eqn:E. intros [= <- <- <-].
      destruct (IH _ _ _ _ _ _ Hre1 Hae1 E) as (? & ? & Hl). split_and!; [done|by constructor|].
      rewrite filter_cons. destruct (is_sleep a); simpl; lia. }
  split_and!; try done. revert Hle. unfold expiring. repeat case_decide; lia.
Qed.
End token_auth.

(** * Witnesses *)

#[local] Instance ToyAuth : AuthLib := {|
  Timestamp := Z; SystemTime_of := Some; pubkey_bytes := []; pubkey_string := "pk";
  sign_message := λ _, []; role_i32 := 3; parse_metadata := ROk |}.

(** A service whose tokens expire at [e]. *)
Definition toy_service (v : string) (e : Z) : AuthServer := {|
  generate_auth_challenge := λ _, ROk "c";
  generate_auth_tokens := λ _, ROk (Some (mkToken v (Some e)), Some (mkToken "r" (Some (2 * e))));
  refresh_access_token := λ _, ROk (Some (mkToken v (Some e))) |}.

Definition toy_down : AuthServer := {|
  generate_auth_challenge := λ _, RErr (mkStatus (OtherCode 14) "down");
  generate_auth_tokens := λ _, RErr (mkStatus (OtherCode 14) "down");
  refresh_access_token := λ _, RErr (mkStatus (OtherCode 14) "down") |}.

Definition toy_start : Auth := mkAuth "a" (mkToken "r" (Some (2 * 10 ^ 12))) (10 ^ 12 : Z).

(** The access token expires; the service is down once, then gives a new one. *)
Definition toy_iterations : list (bool * Z * AuthServer) :=
  [(false, 0, toy_down); (false, 9 * 10 ^ 11, toy_down);
   (false, 9 * 10 ^ 11, toy_service "b" (3 * 10 ^ 12));
   (false, 9 * 10 ^ 11, toy_down)].

Definition toy_end : Auth := mkAuth "b" (mkToken "r" (Some (2 * 10 ^ 12))) (3 * 10 ^ 12 : Z).

Example toy_refresh :
  let '(st, acts, en) := refresh_task toy_start toy_iterations in
  (bearer_token st, acts, en)
  = ("b", [Slept; AccessTokenRefresh true; AccessTokenRefresh false; Slept], Running).
Proof. vm_compute. reflexivity. Qed.

Lemma requests_carry_last_token_witness :
  issues (toy_service "b" (3 * 10 ^ 12)) "b" (3 * 10 ^ 12 : Z).
Proof.
  apply (requests_carry_last_token (toy_service "a" (10 ^ 12)) toy_start toy_iterations
           toy_end
           [Slept; AccessTokenRefresh true; AccessTokenRefresh false; Slept] Running);
    [reflexivity|reflexivity|done].
Defined.

Lemma renewal_settles_witness :
  let '(st, acts, en) := refresh_task toy_start
    (replicate 10 (false, 19 * 10 ^ 11, toy_service "b" (4 * 10 ^ 12))) in
  en ≠ Died ∧ (length (filter (λ a, is_sleep a = false) acts) ≤ 2)%nat.
Proof.
  destruct (refresh_task toy_start _) as [[st acts] en] eqn:E.
  eapply (renewal_settles (3 * 10 ^ 12) toy_start) in E
    as (Hd & _ & Hl).
  2: by eexists.
  2: by eexists.
  2: { apply Forall_replicate. split; [|vm_compute; discriminate]. split.
    + eexists _, _. split; [reflexivity|].
      split; (eexists; split; [reflexivity|vm_compute; discriminate]).
    + intros r. eexists. split; [reflexivity|]. eexists. split; [reflexivity|].
      vm_compute. discriminate. }
  split; [exact Hd|exact Hl].
Defined.
