(* ===== verification/Main.v ===== *)
(** proxy/src/main.rs: the command line, [main], which wires the components
    together and joins their threads, and the shutdown notifier. *)

From S2P Require Import Prelude Net Metrics Errors NetText Multicast ForwardThreads.

(** * The command line *)

Record CommonArgs := mkCommonArgs {
  src_bind_addr : IpAddr;
  src_bind_port : Z;
  multicast_bind_ip : option IpAddr;
  multicast_device : string;
  multicast_subscribe_port : Z;
  dest_ip_ports : list (SocketAddr * string);
  endpoint_discovery_url : option string;
  discovered_endpoints_port : option Z;
  metrics_report_interval_ms : Z;
  debug_trace_shred : bool;
  grpc_service_port : option Z;
  public_ip : option IpAddr;
  num_threads : option nat;
  coalesce_ms : Z;
  prometheus_bind_addr : option SocketAddr;
}.

(** The values of the arguments that are not given. *)
Definition default_common_args : CommonArgs :=
  mkCommonArgs (V4 0) 20000 None "doublezero1" 20001 [] None None 15000 false None None None 0 None.

Record ShredstreamArgs := mkShredstreamArgs {
  ss_block_engine_url : string;
  ss_auth_url : option string;
  ss_auth_keypair : string;
  ss_desired_regions : list string;
  common_args : CommonArgs;
}.

Record SubscribeOnlyArgs := mkSubscribeOnlyArgs {
  so_block_engine_url : string;
  so_auth_url : option string;
  so_auth_keypair : string;
  so_desired_regions : list string;
  dest_port : Z;
  so_public_ip : option IpAddr;
}.

Inductive ProxySubcommands :=
  | Shredstream (args : ShredstreamArgs)
  | ForwardOnly (args : CommonArgs)
  | SubscribeOnly (args : SubscribeOnlyArgs).

(** * What [main] starts *)

Record HeartbeatArgs := mkHeartbeatArgs {
  hb_block_engine_url : string;
  hb_auth_url : string;
  hb_keypair : string;
  hb_regions : list string;
  recv_socket : SocketAddr;
  service_name : string;
}.

(** A thread or group of threads, with the arguments that differ; all of them
    share [exit], the shutdown receiver, the metrics and the destinations. *)
Inductive Service :=
  | HeartbeatLoop (args : HeartbeatArgs)
  | HeartbeatSubscribeOnly (args : HeartbeatArgs)
  | ForwarderThread (name : ThreadName) (should_reconstruct_shreds use_discovery_service : bool)
  | ReportMetricsThread
  | AccessoryThread (metrics_report_interval_ms : Z)
  | DestinationRefreshThread (url : string) (port : Z) (static : list (SocketAddr * string))
  | GrpcServer (addr : SocketAddr)
  | PrometheusServer (addr : SocketAddr).

(** [JoinHandle::join]. *)
Inductive JoinResult := JoinOk | JoinPanicked.

Inductive ExitLog :=
  | ExitingShredstream (received sent failed duplicate : Z)
  | ExitingSubscribeOnly.

(** What the process meets while it starts. *)
Class Startup := {
  #[global] startup_host :: Host;
  hostname_get : result (option string) IoError;
  (** [Signals::new] in [shutdown_notifier] *)
  signals_new : result unit IoError;
  runtime_new : result unit IoError;
  read_keypair_file : string → result string details;
  (** the body of the answer of ifconfig.me *)
  request_public_ip : result string details;
  #[global] startup_listening :: Listening;
}.

Section main.
Context `{Startup} `{BuildProfile}.

(** The outcome of a fallible step of [main]: it may panic, or return an error. *)
Abbreviation attempt A := (outcome (result A ShredstreamProxyError)).

Definition try_attempt {A B} (m : attempt A) (f : A → attempt B) : attempt B :=
  r ← m; match r with ROk a => f a | RErr e => Ok (RErr e) end.

(** [get_public_ip().unwrap()] *)
Definition get_public_ip : outcome IpAddr :=
  match request_public_ip with
  | RErr e => Panicked (ExplicitPanic e)
  | ROk response => unwrap (parse_IpAddr response)
  end.

(** [public_ip.unwrap_or_else(|| get_public_ip().unwrap())] *)
Definition public_ip_or_fetch (ip : option IpAddr) : outcome IpAddr :=
  match ip with Some ip => Ok ip | None => get_public_ip end.

Definition load_keypair (path : string) : outcome string :=
  match read_keypair_file path with
  | ROk k => Ok k
  | RErr _ => Panicked (ExplicitPanic "Unable to parse keypair file")
  end.

(** [start_heartbeat] *)
Definition start_heartbeat (args : ShredstreamArgs) : outcome Service :=
  auth_keypair ← load_keypair (ss_auth_keypair args);
  ip ← public_ip_or_fetch (public_ip (common_args args));
  Ok (HeartbeatLoop (mkHeartbeatArgs (ss_block_engine_url args)
        (default (ss_block_engine_url args) (ss_auth_url args)) auth_keypair
        (ss_desired_regions args)
        (SocketAddr_new ip (src_bind_port (common_args args))) "shredstream_proxy")).

(** [set_host_id(hostname::get()?.into_string().unwrap())] *)
Definition set_host : attempt unit :=
  match hostname_get with
  | RErr e => Ok (RErr (IoErr e))
  | ROk h => _ ← unwrap h; Ok (ROk tt)
  end.

(** [shutdown_notifier(..).expect(..)] and then [Runtime::new()?] *)
Definition new_runtime : attempt unit :=
  match signals_new with
  | RErr _ => Panicked (ExplicitPanic "Failed to set up signal handler")
  | ROk _ => Ok (match runtime_new with ROk _ => ROk tt | RErr e => RErr (IoErr e) end)
  end.

(** [run_subscribe_only_mode] *)
Definition run_subscribe_only_mode (args : SubscribeOnlyArgs) : attempt (list Service) :=
  try_attempt set_host (λ _,
  try_attempt new_runtime (λ _,
  auth_keypair ← load_keypair (so_auth_keypair args);
  ip ← public_ip_or_fetch (so_public_ip args);
  Ok (ROk [HeartbeatSubscribeOnly (mkHeartbeatArgs (so_block_engine_url args)
        (default (so_block_engine_url args) (so_auth_url args)) auth_keypair
        (so_desired_regions args) (SocketAddr_new ip (dest_port args))
        "shredstream_proxy_subscribe")]))).

(** The checks of the arguments in [main]. *)
Definition validate (args : CommonArgs) : result unit ShredstreamProxyError :=
  match endpoint_discovery_url args, discovered_endpoints_port args with
  | None, Some _ | Some _, None =>
      RErr (IoErr (mkIoError InvalidInput "Invalid arguments provided, dynamic endpoints requires both --endpoint-discovery-url and --discovered-endpoints-port."))
  | None, None =>
      if decide (dest_ip_ports args = [])
      then RErr (IoErr (mkIoError InvalidInput "No destinations found. You must provide values for --dest-ip-ports or --endpoint-discovery-url."))
      else ROk tt
  | Some _, Some _ => ROk tt
  end.

Definition services_of {A} (o : option A) (f : A → Service) : list Service :=
  match o with Some a => [f a] | None => [] end.

(** What was started: the initial shared destinations, all threads, and
    [thread_handles], the threads that will be joined. *)
Definition Started : Type := list SocketAddr * list Service * list Service.

(** The part of [main] after the heartbeat has been started. *)
Definition start_common (args : CommonArgs) (heartbeat : list Service) : outcome Started :=
  let unioned_dest_sockets := fst <$> dest_ip_ports args in
  let use_discovery_service :=
    bool_decide (is_Some (endpoint_discovery_url args)) &&
    bool_decide (is_Some (discovered_endpoints_port args)) in
  let maybe_multicast_socket := create_multicast_socket_on_device (multicast_device args)
    (multicast_subscribe_port args) (multicast_bind_ip args) in
  let should_reconstruct_shreds := bool_decide (is_Some (grpc_service_port args)) in
  '(forwarders, forwarder_hdls) ← start_forwarder_threads (src_bind_addr args)
    (src_bind_port args) maybe_multicast_socket (num_threads args) should_reconstruct_shreds;
  let forwarder := λ name,
    ForwarderThread name should_reconstruct_shreds use_discovery_service in
  refresh ← (if use_discovery_service then
               url ← unwrap (endpoint_discovery_url args);
               port ← unwrap (discovered_endpoints_port args);
               Ok [DestinationRefreshThread url port (dest_ip_ports args)]
             else Ok []);
  let others :=
    [ReportMetricsThread] ++ [AccessoryThread (metrics_report_interval_ms args)] ++ refresh
    ++ services_of (grpc_service_port args)
         (λ port, GrpcServer (SocketAddr_new (V4 UNSPECIFIED_V4) port))
    ++ services_of (prometheus_bind_addr args) PrometheusServer in
  Ok (unioned_dest_sockets, heartbeat ++ (forwarder <$> forwarders) ++ others,
      heartbeat ++ (forwarder <$> forwarder_hdls) ++ others).

(** [main] up to the join of the threads; [run_main] is all of it. *)
Definition main (shredstream_args : ProxySubcommands) : attempt Started :=
  match shredstream_args with
  | SubscribeOnly sub_args =>
      try_attempt (run_subscribe_only_mode sub_args) (λ services, Ok (ROk ([], services, services)))
  | Shredstream {| common_args := args |} | ForwardOnly args =>
      try_attempt set_host (λ _,
      try_attempt (Ok (validate args)) (λ _,
      try_attempt new_runtime (λ _,
      heartbeat ← match shredstream_args with
                  | Shredstream args => h ← start_heartbeat args; Ok [h]
                  | _ => Ok []
                  end;
      started ← start_common args heartbeat;
      Ok (ROk started))))
  end.

(** The loop that joins the threads: [expect] panics on the first that did. *)
Fixpoint join_threads (message : string) (join : Service → JoinResult)
    (thread_handles : list Service) : outcome unit :=
  match thread_handles with
  | [] => Ok tt
  | thread :: thread_handles =>
      match join thread with
      | JoinOk => join_threads message join thread_handles
      | JoinPanicked => Panicked (ExplicitPanic message)
      end
  end.

(** The last line that is logged; [metrics] are the counters at that moment. *)
Definition exit_log (shredstream_args : ProxySubcommands) (metrics : ShredMetrics) : ExitLog :=
  match shredstream_args with
  | SubscribeOnly _ => ExitingSubscribeOnly
  | _ => ExitingShredstream (load AggReceivedCumulative metrics)
           (load AggSuccessForwardCumulative metrics) (load AggFailForwardCumulative metrics)
           (load DuplicateCumulative metrics)
  end.

(** [main] to its end, given how each thread ends. *)
Definition run_main (shredstream_args : ProxySubcommands) (join : Service → JoinResult)
    (metrics : ShredMetrics) : attempt ExitLog :=
  try_attempt (main shredstream_args) (λ started,
    let message := match shredstream_args with
                   | SubscribeOnly _ => "heartbeat thread panicked"
                   | _ => "thread panicked"
                   end in
    _ ← join_threads message join started.2;
    Ok (ROk (exit_log shredstream_args metrics))).
End main.

(** * [shutdown_notifier] and the panic hook *)

(** The channel is bounded; a send blocks while it is full.  [to_send] is how many
    tokens the signal thread has still to send, [hooks] how many panic hooks are
    at their [send], [taken] how many tokens the threads have received. *)
Definition SHUTDOWN_TOKENS : nat := 256.

Record Shutdown := mkShutdown {
  exit_flag : bool;
  tokens : nat;
  to_send : nat;
  hooks : nat;
  taken : nat;
  signals : nat;
}.

Definition shutdown_notifier : Shutdown := mkShutdown false 0 0 0 0 0.

Inductive shutdown_step : Shutdown → Shutdown → Prop :=
  (** SIGINT or SIGTERM; [forever] gives the next one when the loop body is done *)
  | on_signal s :
      to_send s = 0%nat →
      shutdown_step s (mkShutdown true (tokens s) SHUTDOWN_TOKENS (hooks s) (taken s) (S (signals s)))
  | send_token s n :
      to_send s = S n → (tokens s < SHUTDOWN_TOKENS)%nat →
      shutdown_step s (mkShutdown (exit_flag s) (S (tokens s)) n (hooks s) (taken s) (signals s))
  (** a thread panics: the hook of [main] *)
  | on_panic s :
      shutdown_step s (mkShutdown true (tokens s) (to_send s) (S (hooks s)) (taken s) (signals s))
  | hook_send s n :
      hooks s = S n → (tokens s < SHUTDOWN_TOKENS)%nat →
      shutdown_step s (mkShutdown (exit_flag s) (S (tokens s)) (to_send s) n (taken s) (signals s))
  (** a thread receives a token *)
  | take_token s n :
      tokens s = S n →
      shutdown_step s (mkShutdown (exit_flag s) n (to_send s) (hooks s) (S (taken s)) (signals s)).

Definition shutdown_reachable : Shutdown → Prop := rtc shutdown_step shutdown_notifier.
