(* ===== verification/MainTheorems.v ===== *)
(** The properties of the start-up and of the shutdown of the proxy. *)

From S2P Require Import Prelude Net Metrics Errors NetText Ipv6Text Heartbeat Multicast ForwardThreads Main.

Section main.
Context `{Startup} `{BuildProfile} `{!ListeningLaws}.

(** * Specification *)

(** The arguments that make a forwarding proxy: dynamic destinations need both
    the URL and the port, and there must be some destination. *)
Definition args_ok (args : CommonArgs) : Prop :=
  (is_Some (endpoint_discovery_url args) ↔ is_Some (discovered_endpoints_port args)) ∧
  (is_Some (endpoint_discovery_url args) ∨ dest_ip_ports args ≠ []).

Definition command_args (cmd : ProxySubcommands) : option CommonArgs :=
  match cmd with
  | Shredstream args => Some (common_args args)
  | ForwardOnly args => Some args
  | SubscribeOnly _ => None
  end.

Definition is_shredstream (cmd : ProxySubcommands) : Prop :=
  match cmd with Shredstream _ => True | _ => False end.

Definition serves_entries (services : list Service) : Prop :=
  ∃ addr, GrpcServer addr ∈ services.
Definition refreshes (services : list Service) : Prop :=
  ∃ url port static, DestinationRefreshThread url port static ∈ services.
Definition spawns (services : list Service) (name : ThreadName) : Prop :=
  ∃ r d, ForwarderThread name r d ∈ services.

(** The operating system grants what a start needs: the host name, signal
    handlers, a runtime, the number of cores and sockets on every non-empty range
    of ports; and key pair and public address can be read. *)
Definition can_start : Prop :=
  (∃ h, hostname_get = ROk (Some h)) ∧ signals_new = ROk tt ∧ runtime_new = ROk tt ∧
  is_Some available_parallelism ∧
  (∀ addr lo hi n, 0 ≤ lo < hi → is_Some (multi_bind addr (lo, hi) n)) ∧
  (∀ path, ∃ k, read_keypair_file path = ROk k) ∧
  ∃ text ip, request_public_ip = ROk text ∧ parse_IpAddr text = Some ip.

(** The sockets of the multicast groups. *)
Definition multicast_of (args : CommonArgs) : option (list UdpSocket) :=
  create_multicast_socket_on_device (multicast_device args) (multicast_subscribe_port args)
    (multicast_bind_ip args).

(** * Lemmas *)

Lemma validate_ok args : validate args = ROk tt ↔ args_ok args.
Proof.
  unfold validate, args_ok.
  destruct (endpoint_discovery_url args), (discovered_endpoints_port args);
    rewrite ?is_Some_alt; simpl; try (split; [done|tauto]).
  - split; [|done]. intros _. split; [done|]. by left.
  - case_decide; split; try done; tauto.
Qed.

Lemma validate_error args e :
  validate args = RErr e → ∃ msg, e = IoErr (mkIoError InvalidInput msg).
Proof.
  unfold validate. repeat case_match; intros [= <-]; eauto.
Qed.

Lemma try_attempt_ok {A B} (m : outcome (result A ShredstreamProxyError))
    (f : A → outcome (result B ShredstreamProxyError)) b :
  try_attempt m f = Ok (ROk b) → ∃ a, m = Ok (ROk a) ∧ f a = Ok (ROk b).
Proof.
  unfold try_attempt. intros (r & -> & Hf)%bind_Ok. destruct r as [a|]; [eauto|done].
Qed.

(** The services of the part of [main] that both forwarding modes share. *)
Definition common_service (args : CommonArgs) (names : list ThreadName) (s : Service) : Prop :=
  match s with
  | HeartbeatLoop _ | HeartbeatSubscribeOnly _ => False
  | ForwarderThread name r d =>
      name ∈ names ∧ (r = true ↔ is_Some (grpc_service_port args)) ∧
      (d = true ↔ is_Some (endpoint_discovery_url args) ∧
                  is_Some (discovered_endpoints_port args))
  | ReportMetricsThread => True
  | AccessoryThread ms => ms = metrics_report_interval_ms args
  | DestinationRefreshThread url port static =>
      endpoint_discovery_url args = Some url ∧ discovered_endpoints_port args = Some port ∧
      static = dest_ip_ports args
  | GrpcServer addr => ∃ p, grpc_service_port args = Some p ∧ addr = SocketAddr_new (V4 0) p
  | PrometheusServer addr => prometheus_bind_addr args = Some addr
  end.

Lemma elem_of_services_of {A} (o : option A) f s :
  s ∈ services_of o f ↔ ∃ a, o = Some a ∧ s = f a.
Proof.
  unfold services_of. destruct o; rewrite ?list_elem_of_singleton, ?elem_of_nil; naive_solver.
Qed.

Lemma start_common_services args hb dests services handles :
  start_common args hb = Ok (dests, services, handles) →
  dests = fst <$> dest_ip_ports args ∧
  ∃ names hdls, start_forwarder_threads (src_bind_addr args) (src_bind_port args)
      (multicast_of args) (num_threads args) (bool_decide (is_Some (grpc_service_port args)))
      = Ok (names, hdls) ∧
    ∀ s, s ∈ services ↔ s ∈ hb ∨ common_service args names s.
Proof.
  unfold start_common. intros ([names hdls] & Hn & Hs)%bind_Ok.
  apply bind_Ok in Hs as (refresh & Hr & Hs). injection Hs as <- <- _.
  split; [done|]. exists names, hdls. split; [done|]. intros s.
  set (use := bool_decide (is_Some (endpoint_discovery_url args)) &&
              bool_decide (is_Some (discovered_endpoints_port args))) in *.
  assert (use = true ↔ is_Some (endpoint_discovery_url args) ∧
                       is_Some (discovered_endpoints_port args)) as Huse.
  { unfold use. by rewrite andb_true_iff, !bool_decide_eq_true. }
  assert (∀ s, s ∈ refresh ↔ ∃ url port, endpoint_discovery_url args = Some url ∧
    discovered_endpoints_port args = Some port ∧
    s = DestinationRefreshThread url port (dest_ip_ports args)) as Href.
  { intros s'. unfold use in Hr. destruct (endpoint_discovery_url args) as [u|],
      (discovered_endpoints_port args) as [p|]; simpl in Hr; injection Hr as <-;
      rewrite ?list_elem_of_singleton, ?elem_of_nil; naive_solver. }
  rewrite !elem_of_app, list_elem_of_fmap, !elem_of_cons, !elem_of_app, !elem_of_services_of, Href.
  split.
  - intros [|[(name & -> & Hin)|[->|[->|[(u & p & ? & ? & ->)|[(p & ? & ->)|(a & ? & ->)]]]]]];
      [by left|right; simpl..]; eauto.
    split_and!; [done|by rewrite bool_decide_eq_true|done].
  - intros [|Hc]; [by left|right]. destruct s as [| |name r d| | | | |]; simpl in Hc; try done.
    + left. destruct Hc as (Hin & Hrr & Hdd). exists name. split; [|done]. f_equal.
      * destruct r; symmetry; [apply bool_decide_eq_true|apply bool_decide_eq_false]; naive_solver.
      * destruct d, use; naive_solver.
    + right; left; done.
    + right; right; left. by subst.
    + do 3 right. left. destruct Hc as (? & ? & ->). eauto.
    + do 4 right. left. destruct Hc as (p & ? & ->). eauto.
    + do 5 right. eauto.
Qed.

(** The thread whose handle [start_forwarder_threads] does not return. *)
Definition is_reconstructor (s : Service) : Prop :=
  match s with ForwarderThread ShredReconstructor _ _ => True | _ => False end.

(** The handles are those of all threads but the reconstructor, which runs if
    entries are served. *)
Lemma start_forwarder_handles addr port mc nt recon names hdls name :
  start_forwarder_threads addr port mc nt recon = Ok (names, hdls) →
  (name ∈ hdls ↔ name ∈ names ∧ name ≠ ShredReconstructor) ∧
  (ShredReconstructor ∈ names ↔ recon = true).
Proof.
  intros (n & hi & p & socks & _ & _ & Hh & ->)%spawned_spec.
  assert (ShredReconstructor ∉ hdls) as Hr by (intros (? & ? & _ & [?|?])%Hh; done).
  destruct recon; set_solver.
Qed.

(** What the threads listen on: one port for all, which is the one that was asked
    for unless that is 0, or a socket of a multicast group; and who listens. *)
Lemma start_forwarder_sockets addr src mc nt recon names hdls :
  in_width 16 src → start_forwarder_threads addr src mc nt recon = Ok (names, hdls) →
  (∃ port, (port = src ↔ src ≠ 0) ∧ ∀ i sock, SsListen i sock ∈ names →
     sock ∈ default [] mc ∨ local_addr sock = SocketAddr_new addr port) ∧
  (∀ sock, sock ∈ default [] mc → ∃ i, SsListen i sock ∈ names) ∧
  (∀ i, SsPxyTx i ∈ names ↔ ∃ sock, SsListen i sock ∈ names).
Proof.
  intros Hw (n & hi & p & socks & Hhi & Hb & Hh & ->)%spawned_spec.
  apply multi_bind_spec in Hb as (Hlt & Hp & Hport & Hsocks).
  assert (∀ name, name ≠ ShredReconstructor →
    name ∈ (if recon then [ShredReconstructor] else []) ++ hdls ↔ name ∈ hdls) as Hn
    by (intros name; destruct recon; set_solver).
  split_and!.
  - exists p. split.
    + unfold arith in Hhi. case_decide; [injection Hhi as <-; lia|].
      assert (src = 65535) as -> by (unfold in_width in *; lia).
      destruct overflow_checks; [done|]. injection Hhi as <-. vm_compute in Hlt. done.
    + intros i sock (j & sock' & Hj & [[= -> ->]|?])%Hn%Hh; [|done..].
      apply list_elem_of_lookup_2, elem_of_app in Hj as [?%Hsocks|?]; auto.
  - intros sock [i Hi]%list_elem_of_lookup. exists (length socks + i)%nat.
    apply Hn, Hh; [done|]. exists (length socks + i)%nat, sock.
    rewrite lookup_app_r by lia. rewrite Nat.add_comm, Nat.add_sub. auto.
  - intros i. rewrite Hn, Hh by done. setoid_rewrite Hn; [|done]. setoid_rewrite Hh. naive_solver.
Qed.

Lemma start_common_handles args hb dests services handles s :
  (∀ s, s ∈ hb → ¬ is_reconstructor s) →
  start_common args hb = Ok (dests, services, handles) →
  s ∈ handles ↔ s ∈ services ∧ ¬ is_reconstructor s.
Proof.
  intros Hhb. unfold start_common. intros ([names hdls] & Hn & Hs)%bind_Ok.
  apply bind_Ok in Hs as (refresh & Hr & Hs). injection Hs as _ <- <-.
  pose proof (λ name, proj1 (start_forwarder_handles _ _ _ _ _ _ _ name Hn)) as Hh.
  assert (∀ s, s ∈ refresh → ¬ is_reconstructor s) as Href.
  { intros s' Hs'. repeat (case_match; simpl in Hr); simplify_eq; [|by apply elem_of_nil in Hs'].
    destruct (endpoint_discovery_url args), (discovered_endpoints_port args); try done.
    simplify_eq/=. apply list_elem_of_singleton in Hs' as ->. by intros []. }
  match goal with |- s ∈ _ ++ _ ++ ?l ↔ _ => set (others := l) end.
  assert (s ∈ others → ¬ is_reconstructor s) as Ho.
  { unfold others. rewrite !elem_of_cons, !elem_of_app, !elem_of_services_of.
    intros [->|[->|[?|[(? & _ & ->)|(? & _ & ->)]]]]; simpl; auto. }
  specialize (Hhb s). clearbody others. clear Href Hr Hn.
  rewrite !elem_of_app, !list_elem_of_fmap. setoid_rewrite Hh. split.
  - intros [?|[(name & -> & ? & ?)|?]]; [by split; [left|apply Hhb]| |by split; [do 2 right|apply Ho]].
    split; [right; left; by exists name|]. destruct name; simpl; [done|by intros []..].
  - intros [[?|[(name & -> & ?)|?]] Hnr]; [by left| |by do 2 right].
    right; left. exists name. split_and!; [done..|]. intros ->. by apply Hnr.
Qed.

(** The loop gets through exactly when no thread panicked. *)
Lemma join_threads_spec msg join hs :
  (join_threads msg join hs = Ok tt ∧ ∀ h, h ∈ hs → join h = JoinOk) ∨
  (join_threads msg join hs = Panicked (ExplicitPanic msg) ∧ ∃ h, h ∈ hs ∧ join h = JoinPanicked).
Proof.
  induction hs as [|h hs IH]; simpl; [left; split; [done|by intros ? ?%elem_of_nil]|].
  destruct (join h) eqn:E; [|right; set_solver].
  destruct IH as [[-> IH]|[-> IH]]; [left|right]; split; try done; set_solver.
Qed.

(** What a successful start in one of the forwarding modes started. *)
Lemma main_forwarding cmd args started :
  command_args cmd = Some args → main cmd = Ok (ROk started) →
  args_ok args ∧ ∃ hb, start_common args hb = Ok started ∧
    match cmd with
    | Shredstream a => ∃ h, start_heartbeat a = Ok h ∧ hb = [h]
    | _ => hb = []
    end.
Proof.
  intros Hc Hm. destruct cmd as [[? ? ? ? a]|a|]; simplify_eq/=;
    apply try_attempt_ok in Hm as (_ & _ & Hm);
    destruct (validate args) as [[]|] eqn:Hv; try discriminate Hm; simpl in Hm;
    apply try_attempt_ok in Hm as (_ & _ & Hm); (split; [by apply validate_ok|]).
  - apply bind_Ok in Hm as (hb & Hhb & (st & Hst & Hm)%bind_Ok).
    apply bind_Ok in Hhb as (h & Hh & ?). simplify_eq. eauto.
  - apply bind_Ok in Hm as (st & Hst & Hm). simplify_eq. eauto.
Qed.

Lemma start_heartbeat_socket args h :
  start_heartbeat args = Ok h →
  ∃ hargs, h = HeartbeatLoop hargs ∧
    socket_port (recv_socket hargs) = src_bind_port (common_args args) ∧
    (∀ ip, public_ip (common_args args) = Some ip → socket_ip (recv_socket hargs) = ip) ∧
    hb_regions hargs = ss_desired_regions args.
Proof.
  unfold start_heartbeat. intros (k & _ & Hh)%bind_Ok. apply bind_Ok in Hh as (ip & Hip & Hh).
  injection Hh as <-. eexists. split_and!; [done|by destruct ip| |done].
  intros ip' E. rewrite E in Hip. injection Hip as <-. by destruct ip'.
Qed.

(** The services of a forwarding mode, by kind. *)
Lemma common_parts cmd args hb dests services handles :
  command_args cmd = Some args → start_common args hb = Ok (dests, services, handles) →
  match cmd with
  | Shredstream a => ∃ h, start_heartbeat a = Ok h ∧ hb = [h]
  | _ => hb = []
  end →
  dests = fst <$> dest_ip_ports args ∧ ∃ names hdls,
    start_forwarder_threads (src_bind_addr args) (src_bind_port args) (multicast_of args)
      (num_threads args) (bool_decide (is_Some (grpc_service_port args))) = Ok (names, hdls) ∧
    (∀ name, spawns services name ↔ name ∈ names) ∧
    (serves_entries services ↔ is_Some (grpc_service_port args)) ∧
    (refreshes services ↔ is_Some (endpoint_discovery_url args) ∧
       is_Some (discovered_endpoints_port args)) ∧
    (∀ name r d, ForwarderThread name r d ∈ services →
       (r = true ↔ serves_entries services) ∧ (d = true ↔ refreshes services)) ∧
    (∀ h, HeartbeatLoop h ∈ services → ∃ a, cmd = Shredstream a ∧
       socket_port (recv_socket h) = src_bind_port args ∧ hb_regions h = ss_desired_regions a).
Proof.
  intros Hc (-> & names & hdls & Hn & Hin)%start_common_services Hhb.
  split; [done|]. exists names, hdls. split; [done|].
  assert (∀ s, s ∈ hb → ∃ a h, cmd = Shredstream a ∧ s = HeartbeatLoop h ∧
    socket_port (recv_socket h) = src_bind_port args ∧ hb_regions h = ss_desired_regions a) as Hh.
  { destruct cmd as [a|a|a]; [|by subst hb; intros ? ?%elem_of_nil..].
    destruct Hhb as (h & Hh & ->). apply start_heartbeat_socket in Hh as (ha & -> & Hp & _ & Hr).
    simplify_eq/=. intros s ->%list_elem_of_singleton. eauto 10. }
  assert (serves_entries services ↔ is_Some (grpc_service_port args)) as Hserve.
  { unfold serves_entries. setoid_rewrite Hin. simpl. split.
    - intros (addr & [(? & ? & _ & ? & _)%Hh|(p & -> & _)]); [done|eauto].
    - intros [p Hp]. exists (SocketAddr_new (V4 0) p). right. eauto. }
  assert (refreshes services ↔ is_Some (endpoint_discovery_url args) ∧
          is_Some (discovered_endpoints_port args)) as Hrefresh.
  { unfold refreshes. setoid_rewrite Hin. simpl. split.
    - intros (u & p & st & [(? & ? & _ & ? & _)%Hh|(-> & -> & _)]); [done|eauto].
    - intros [[u Hu] [p Hp]]. exists u, p, (dest_ip_ports args). auto. }
  split_and!; [|done|done| |].
  - intros name. unfold spawns. setoid_rewrite Hin. split.
    + by intros (r & d & [(? & ? & _ & ? & _)%Hh|(? & _)]).
    + intros Hname. eexists (bool_decide (is_Some (grpc_service_port args))),
        (bool_decide (is_Some (endpoint_discovery_url args) ∧
                      is_Some (discovered_endpoints_port args))).
      right. simpl. by rewrite !bool_decide_eq_true.
  - intros name r d [(? & ? & _ & ? & _)%Hh|Hs]%Hin; [done|].
    destruct Hs as (_ & Hr & Hd). by rewrite Hserve, Hrefresh.
  - intros h [(a & ? & -> & [= <-] & ? & ?)%Hh|[]]%Hin. eauto.
Qed.

(** The address and the port where the command line asks for shreds, if it gives
    the address, and the regions it asks for. *)
Definition given_ip (cmd : ProxySubcommands) : option IpAddr :=
  match cmd with
  | Shredstream {| common_args := args |} | ForwardOnly args => public_ip args
  | SubscribeOnly args => so_public_ip args
  end.
Definition shred_port (cmd : ProxySubcommands) : Z :=
  match cmd with
  | Shredstream {| common_args := args |} | ForwardOnly args => src_bind_port args
  | SubscribeOnly args => dest_port args
  end.
Definition wanted_regions (cmd : ProxySubcommands) : list string :=
  match cmd with
  | Shredstream args => ss_desired_regions args
  | ForwardOnly _ => []
  | SubscribeOnly args => so_desired_regions args
  end.

(** Whose heartbeats these are: [args] has the address that was given, or else the
    one that was fetched. *)
Definition heartbeat_args_of (cmd : ProxySubcommands) (args : HeartbeatArgs) : Prop :=
  ∃ ip, public_ip_or_fetch (given_ip cmd) = Ok ip ∧
    recv_socket args = SocketAddr_new ip (shred_port cmd) ∧ hb_regions args = wanted_regions cmd.

Lemma public_ip_wf o ip :
  (∀ ip, o = Some ip → ip_wf ip) → public_ip_or_fetch o = Ok ip →
  ip_wf ip ∧ (o = Some ip ∨ o = None ∧ get_public_ip = Ok ip).
Proof.
  intros Hwf. destruct o as [ip'|]; simpl; [intros [= ->]; auto|]. intros Hg.
  split; [|by right]. unfold get_public_ip in Hg. destruct request_public_ip as [text|e]; [|done].
  destruct (parse_IpAddr text) as [ip'|] eqn:E; [|done]. injection Hg as ->. by eapply parse_IpAddr_wf.
Qed.

Lemma main_heartbeat cmd dests services handles args :
  main cmd = Ok (ROk (dests, services, handles)) →
  HeartbeatLoop args ∈ services ∨ HeartbeatSubscribeOnly args ∈ services →
  heartbeat_args_of cmd args.
Proof.
  intros Hm Hin. destruct (command_args cmd) as [cargs|] eqn:Hc.
  - destruct (main_forwarding _ _ _ Hc Hm) as (_ & hb & Hst & Hhb).
    apply start_common_services in Hst as (_ & names & hdls & _ & Hs).
    rewrite !Hs in Hin. simpl in Hin.
    destruct cmd as [a|a|a]; [|by subst hb; destruct Hin as [[[]%elem_of_nil|[]]|[[]%elem_of_nil|[]]]|done].
    destruct Hhb as (h & Hh & ->). rewrite !list_elem_of_singleton in Hin. unfold start_heartbeat in Hh.
    apply bind_Ok in Hh as (k & _ & Hh). apply bind_Ok in Hh as (ip & Hip & [= <-]).
    destruct Hin as [[[= ->]|[]]|[?|[]]]; [|done]. exists ip. by destruct a.
  - destruct cmd as [| |a]; [done..|]. cbn [main] in Hm.
    apply try_attempt_ok in Hm as (sv & Hsv & Hm). simplify_eq.
    apply try_attempt_ok in Hsv as (_ & _ & Hsv). apply try_attempt_ok in Hsv as (_ & _ & Hsv).
    apply bind_Ok in Hsv as (k & _ & Hsv). apply bind_Ok in Hsv as (ip & Hip & [= <-]).
    rewrite !list_elem_of_singleton in Hin. destruct Hin as [?|[= ->]]; [done|]. by exists ip.
Qed.

(** What [can_start] gives. *)
Lemma can_start_grants :
  can_start → set_host = Ok (ROk tt) ∧ new_runtime = Ok (ROk tt) ∧
    (∀ path, ∃ k, load_keypair path = Ok k) ∧ ∀ o, ∃ ip, public_ip_or_fetch o = Ok ip.
Proof.
  intros ([h Hh] & Hs & Hr & _ & _ & Hk & text & ip & Ht & Hp).
  unfold set_host, new_runtime, load_keypair. rewrite Hh, Hs, Hr. split_and!; [done..| |].
  - intros path. destruct (Hk path) as [k ->]. by eexists.
  - intros [i|]; [by eexists|]. exists ip. unfold public_ip_or_fetch, get_public_ip.
    rewrite Ht. unfold unwrap. by rewrite Hp.
Qed.

Lemma start_common_outcome args hb :
  can_start → in_width 16 (src_bind_port args) →
  (src_bind_port args = 65535 ∧ ∃ p, start_common args hb = Panicked p) ∨
  (src_bind_port args ≠ 65535 ∧ ∃ st, start_common args hb = Ok st).
Proof.
  intros (_ & _ & _ & [cores Hcores] & Hb & _) Hw. unfold start_common, start_forwarder_threads.
  assert (∃ n, match num_threads args with Some n => Ok n
               | None => n ← unwrap available_parallelism; Ok (Nat.min n 4) end = Ok n) as [n ->].
  { destruct (num_threads args); [by eexists|]. rewrite Hcores. by eexists. }
  cbn [mbind outcome_bind]. unfold arith, in_width in *. case_decide; cycle 1.
  - assert (src_bind_port args = 65535) as -> by lia. left. split; [done|].
    destruct overflow_checks; [by eexists|]. cbn [mbind outcome_bind].
    destruct (multi_bind _ _ _) as [[p socks]|] eqn:E; [|by eexists].
    apply multi_bind_spec in E as [Hlt _]. vm_compute in Hlt. done.
  - right. split; [lia|]. cbn [mbind outcome_bind].
    destruct (Hb (src_bind_addr args) (src_bind_port args) (src_bind_port args + 1) n)
      as [[p socks] ->]; [lia|].
    cbn [mbind outcome_bind].
    destruct (endpoint_discovery_url args), (discovered_endpoints_port args); by eexists.
Qed.

(** * The properties *)

(** C30: every heartbeat tells the block engine where the command line asks for
    shreds: its text form of the address, which may be compressed or IPv4-mapped
    IPv6, parses back to the address that was given, or else fetched; the port is
    the one that was given, and the regions are all those asked for.  A thread
    that does not listen to a multicast group listens on the announced port
    exactly if that is not 0.  A given address and the port are of their width. *)
Theorem heartbeat_announces_socket cmd dests services handles args :
  main cmd = Ok (ROk (dests, services, handles)) →
  (∀ ip, given_ip cmd = Some ip → ip_wf ip) → in_width 16 (shred_port cmd) →
  HeartbeatLoop args ∈ services ∨ HeartbeatSubscribeOnly args ∈ services →
  (∃ text ip, heartbeat_request (recv_socket args) (hb_regions args)
      = mkHbRequest (Some (mkHbSocket text (shred_port cmd))) (wanted_regions cmd) ∧
    parse_IpAddr text = Some ip ∧
    (given_ip cmd = Some ip ∨ given_ip cmd = None ∧ get_public_ip = Ok ip)) ∧
  (∀ i sock, spawns services (SsListen i sock) →
     sock ∈ default [] (command_args cmd ≫= multicast_of) ∨
     (socket_port (local_addr sock) = shred_port cmd ↔ shred_port cmd ≠ 0)).
Proof.
  intros Hm Hwf Hw Hin. split.
  - destruct (main_heartbeat _ _ _ _ _ Hm Hin) as (ip & Hip & Hs & Hr).
    apply public_ip_wf in Hip as [Hip Hcase]; [|done].
    exists (show_IpAddr ip), ip. split_and!; [|by apply parse_show_IpAddr|done].
    unfold heartbeat_request, heartbeat_socket. rewrite Hr, Hs. by destruct ip.
  - clear Hin. intros i sock Hsp. destruct (command_args cmd) as [cargs|] eqn:Hc.
    + assert (shred_port cmd = src_bind_port cargs) as E by (by destruct cmd as [[]| |]; simplify_eq/=).
      rewrite E in *. destruct (main_forwarding _ _ _ Hc Hm) as (_ & hb & Hst & Hhb).
      destruct (common_parts _ _ _ _ _ _ Hc Hst Hhb) as (_ & names & hdls & Hn & Hnames & _).
      destruct (start_forwarder_sockets _ _ _ _ _ _ _ Hw Hn) as ((port & Hport & Hl) & _).
      apply Hnames, Hl in Hsp as [?| ->]; [by left|right]. by destruct (src_bind_addr cargs).
    + destruct cmd as [| |a]; [done..|]. cbn [main] in Hm. destruct Hsp as (r & d & Hsp).
      apply try_attempt_ok in Hm as (sv & Hsv & Hm). simplify_eq.
      apply try_attempt_ok in Hsv as (_ & _ & Hsv). apply try_attempt_ok in Hsv as (_ & _ & Hsv).
      apply bind_Ok in Hsv as (k & _ & Hsv). apply bind_Ok in Hsv as (ip & _ & [= <-]).
      by apply list_elem_of_singleton in Hsp.
Qed.

(** C29: however the proxy starts in a forwarding mode, its parts fit together: it
    has somewhere to forward to (static destinations, which it starts with, or a
    refresh thread).  A listener thread listens on every socket of a multicast
    group, the others on the given address, all on one port, which is the given
    one exactly if that is not 0; every listener has its forwarder thread.  Every
    forwarding thread re-reads the destinations exactly when a thread refreshes
    them, and feeds the reconstructor exactly when entries are served; the
    reconstructor runs exactly when the gRPC server does.  A heartbeat is sent
    exactly in Shredstream mode, for all the regions asked for and for the given
    port (so for port 0, which no listener on the given address is bound to, if that
    was given).  The port is a [u16]. *)
Theorem main_wiring cmd args dests services handles :
  command_args cmd = Some args → in_width 16 (src_bind_port args) →
  main cmd = Ok (ROk (dests, services, handles)) →
  dests = fst <$> dest_ip_ports args ∧ (dests ≠ [] ∨ refreshes services) ∧
  (∃ port, (port = src_bind_port args ↔ src_bind_port args ≠ 0) ∧
     ∀ i sock, spawns services (SsListen i sock) → sock ∈ default [] (multicast_of args) ∨
       local_addr sock = SocketAddr_new (src_bind_addr args) port) ∧
  (∀ sock, sock ∈ default [] (multicast_of args) → ∃ i, spawns services (SsListen i sock)) ∧
  (∀ i, spawns services (SsPxyTx i) ↔ ∃ sock, spawns services (SsListen i sock)) ∧
  (∀ name r d, ForwarderThread name r d ∈ services →
     (r = true ↔ serves_entries services) ∧ (d = true ↔ refreshes services)) ∧
  (spawns services ShredReconstructor ↔ serves_entries services) ∧
  ((∃ h, HeartbeatLoop h ∈ services) ↔ is_shredstream cmd) ∧
  (∀ h, HeartbeatLoop h ∈ services → ∃ a, cmd = Shredstream a ∧
     socket_port (recv_socket h) = src_bind_port args ∧ hb_regions h = ss_desired_regions a).
Proof.
  intros Hc Hw Hm. destruct (main_forwarding _ _ _ Hc Hm) as ([Hiff Hsome] & hb & Hst & Hhb).
  destruct (common_parts _ _ _ _ _ _ Hc Hst Hhb) as (-> & names & hdls & Hn & Hsp & Hserve & Hrefresh
    & Hfwd & Hhbs).
  destruct (start_forwarder_sockets _ _ _ _ _ _ _ Hw Hn) as ((port & Hport & Hl) & Hmc & Hpair).
  pose proof (proj2 (start_forwarder_handles _ _ _ _ _ _ _ ShredReconstructor Hn)) as Hrec.
  setoid_rewrite Hsp. split_and!.
  - done.
  - rewrite Hrefresh. destruct Hsome as [?|Hd]; [right; tauto|left].
    by destruct (dest_ip_ports args).
  - by exists port.
  - done.
  - done.
  - done.
  - by rewrite Hrec, bool_decide_eq_true, Hserve.
  - split; [by intros (h & (a & -> & _)%Hhbs)|]. destruct cmd as [a|a|a]; [|done..].
    intros _. destruct Hhb as (h & Hh & ->). apply start_heartbeat_socket in Hh as (ha & -> & _).
    apply start_common_services in Hst as (_ & ? & ? & _ & Hin). exists ha. apply Hin. left.
    by apply list_elem_of_singleton.
  - done.
Qed.

(** C31: where the operating system grants what is needed (a host name, signal
    handlers, a runtime, the number of cores, sockets on every non-empty range of
    ports) and key pair and public address can be read, how [main] gets started
    depends on the arguments alone; the port is a [u16].  In subscribe-only mode it always does.  In
    the forwarding modes a discovery URL without its port, a port without the
    URL, or no destination at all end it with an [InvalidInput] error before
    anything is started; it panics if the port is 65535, the range of ports to
    bind having no end then, whether the build checks overflow or not; and
    otherwise it starts. *)
Theorem main_start_outcomes cmd :
  can_start → in_width 16 (shred_port cmd) →
  match command_args cmd with
  | None => ∃ started, main cmd = Ok (ROk started)
  | Some args =>
      (¬ args_ok args ∧ ∃ msg, main cmd = Ok (RErr (IoErr (mkIoError InvalidInput msg)))) ∨
      (args_ok args ∧ src_bind_port args = 65535 ∧ ∃ p, main cmd = Panicked p) ∨
      (args_ok args ∧ src_bind_port args ≠ 65535 ∧ ∃ started, main cmd = Ok (ROk started))
  end.
Proof.
  intros Hcan Hw. destruct (can_start_grants Hcan) as (Hhost & Hrt & Hload & Hip).
  destruct (command_args cmd) as [args|] eqn:Hc; last first.
  { destruct cmd as [| |a]; simplify_eq/=. unfold run_subscribe_only_mode.
    destruct (Hload (so_auth_keypair a)) as [k Hk], (Hip (so_public_ip a)) as [i Hi].
    rewrite Hhost; simpl. rewrite Hrt; simpl. rewrite Hk; simpl. rewrite Hi; simpl. by eexists. }
  assert (in_width 16 (src_bind_port args)) as Hw' by (by destruct cmd as [[]| |]; simplify_eq/=).
  assert (∃ hb, main cmd = try_attempt (Ok (validate args)) (λ _,
            started ← start_common args hb; Ok (ROk started))) as [hb Hm].
  { destruct cmd as [[url au kp rs a]|a|]; simplify_eq/=; rewrite Hhost; simpl;
      destruct (validate args) as [[]|]; simpl; try (by exists []); rewrite Hrt; simpl;
      [|by exists []]. unfold start_heartbeat; simpl.
    destruct (Hload kp) as [k ->]; simpl. destruct (Hip (public_ip args)) as [i ->]; simpl. by eexists. }
  rewrite Hm. destruct (validate args) as [[]|e] eqn:Hv; simpl; last first.
  { left. rewrite <-validate_ok, Hv. split; [done|].
    destruct (validate_error _ _ Hv) as [msg ->]. by exists msg. }
  right. apply validate_ok in Hv.
  destruct (start_common_outcome args hb Hcan Hw') as [(E & p & ->)|(E & st & ->)];
    [left|right]; eauto.
Qed.

(** C32: once everything has been started, [main] returns exactly when no thread
    it joins has panicked, with the totals that were counted, and otherwise
    panics itself; it joins every thread but the reconstructor, so that one may
    end in any way, or not at all, without a trace in how [main] ends. *)
Theorem main_exit cmd join m dests services handles :
  main cmd = Ok (ROk (dests, services, handles)) →
  (∀ s, s ∈ handles ↔ s ∈ services ∧ ¬ is_reconstructor s) ∧
  ((run_main cmd join m = Ok (ROk (exit_log cmd m)) ∧
    ∀ s, s ∈ services → is_reconstructor s ∨ join s = JoinOk) ∨
   (∃ msg s, run_main cmd join m = Panicked (ExplicitPanic msg) ∧
    s ∈ services ∧ ¬ is_reconstructor s ∧ join s = JoinPanicked)).
Proof.
  intros Hm. assert (∀ s, s ∈ handles ↔ s ∈ services ∧ ¬ is_reconstructor s) as Hh.
  { destruct (command_args cmd) as [args|] eqn:Hc.
    - destruct (main_forwarding _ _ _ Hc Hm) as (_ & hb & Hst & Hhb).
      intros s. eapply start_common_handles; [|exact Hst].
      destruct cmd as [a| |]; [|by subst hb; intros ? ?%elem_of_nil..].
      destruct Hhb as (h & Hh & ->). apply start_heartbeat_socket in Hh as (ha & -> & _).
      intros s' ->%list_elem_of_singleton. by intros [].
    - destruct cmd as [| |a]; [done..|]. cbn [main] in Hm.
      apply try_attempt_ok in Hm as (sv & Hsv & Hm). simplify_eq.
      apply try_attempt_ok in Hsv as (_ & _ & Hsv). apply try_attempt_ok in Hsv as (_ & _ & Hsv).
      apply bind_Ok in Hsv as (k & _ & Hsv). apply bind_Ok in Hsv as (ip & _ & Hsv).
      injection Hsv as <-. intros s. rewrite list_elem_of_singleton. naive_solver. }
  split; [done|]. unfold run_main, try_attempt. rewrite Hm. cbn [mbind outcome_bind].
  set (msg := match cmd with SubscribeOnly _ => _ | _ => _ end).
  destruct (join_threads_spec msg join handles) as [[E Hok]|(E & s & Hs & Hp)];
    cbn [snd]; rewrite E.
  - left. split; [done|]. intros s Hs.
    destruct s as [| |[] | | | | |]; try (by left); right; apply Hok, Hh; by split; [|intros []].
  - right. apply Hh in Hs as [? ?]. by exists msg, s.
Qed.
End main.

(** * Shutdown *)

(** The accounts of the shutdown channel. *)
Definition shutdown_inv (s : Shutdown) : Prop :=
  (tokens s ≤ SHUTDOWN_TOKENS)%nat ∧
  (exit_flag s = false → signals s = 0 ∧ tokens s + to_send s + hooks s + taken s = 0)%nat ∧
  (SHUTDOWN_TOKENS * signals s ≤ taken s + tokens s + to_send s)%nat.

Lemma shutdown_step_inv s s' : shutdown_step s s' → shutdown_inv s → shutdown_inv s'.
Proof.
  unfold shutdown_inv, SHUTDOWN_TOKENS. intros Hstep (Hle & Hex & Hacc).
  destruct Hstep; unfold SHUTDOWN_TOKENS in *; cbn -[Nat.mul] in *; split_and!; try lia; try done;
    intros Hf; specialize (Hex Hf); lia.
Qed.

Lemma shutdown_reachable_inv s : shutdown_reachable s → shutdown_inv s.
Proof.
  unfold shutdown_reachable. intros Hr.
  assert (shutdown_inv shutdown_notifier) as Hi by (unfold shutdown_inv; simpl; lia).
  induction Hr as [|x y z Hs _ IH]; [done|]. apply IH. by eapply shutdown_step_inv.
Qed.

(** In every reachable state of the shutdown channel, it holds at most 256
    tokens, and there is a token (or one about to be sent) only once [exit] is
    set, so a thread that a token stops finds [exit] set; and after [n] signals
    the first [256 * n] threads that wait for a token are served: as long as
    fewer have been, another token can be received within two steps, whatever
    else is going on. *)
Lemma shutdown_tokens_suffice s :
  shutdown_reachable s →
  (tokens s ≤ SHUTDOWN_TOKENS)%nat ∧
  (exit_flag s = false → tokens s = 0%nat ∧ taken s = 0%nat) ∧
  ((taken s < SHUTDOWN_TOKENS * signals s)%nat →
   ∃ s1 s2, (s1 = s ∨ shutdown_step s s1) ∧ shutdown_step s1 s2 ∧ taken s2 = S (taken s)).
Proof.
  intros (Hle & Hex & Hacc)%shutdown_reachable_inv. split_and!; [done|naive_solver lia|].
  intros Ht. destruct (tokens s) as [|n] eqn:E.
  - destruct (to_send s) as [|k] eqn:Ek; [lia|].
    eexists _, _. split_and!; [right; apply (send_token s k); [done|]|
      by apply take_token|done].
    rewrite E. unfold SHUTDOWN_TOKENS. lia.
  - exists s. eexists. split_and!; [by left|by apply take_token|done].
Qed.

(** * Witnesses *)

#[local] Instance main_release : BuildProfile := false.

(** A host without multicast routes, two cores, and a resolvable public address. *)
#[local] Instance MainToyHost : Host := {|
  command_output := λ _, ROk (mkOutput true "exit status: 0" []);
  routes_from_slice := λ _, ROk [];
  ifaces_from_slice := λ _, ROk [];
  links_from_slice := λ _, ROk [];
  bind_udp := λ _, ROk tt;
  join_multicast := λ _ _ _, ROk tt |}.

(** Two cores; the operating system chooses port 32768. *)
#[local] Instance ToyListening : Listening := {|
  multi_bind addr range n :=
    if decide (0 ≤ range.1 < range.2) then
      let port := if decide (range.1 = 0) then 32768 else range.1 in
      Some (port, replicate n (mkUdpSocket (SocketAddr_new addr port) []))
    else None;
  available_parallelism := Some 2%nat |}.
#[local] Instance ToyListeningLaws : ListeningLaws.
Proof.
  split. intros addr lo hi n port socks. simpl. case_decide; [|done]. intros [= <- <-].
  split_and!; [lia|case_decide; lia|intros; rewrite decide_False by done; lia|].
  by intros s [-> _]%elem_of_replicate.
Qed.

#[local] Instance ToyStartup : Startup := {|
  startup_host := MainToyHost;
  hostname_get := ROk (Some "host"); signals_new := ROk tt; runtime_new := ROk tt;
  read_keypair_file := λ _, ROk "key"; request_public_ip := ROk "10.0.0.1";
  startup_listening := ToyListening |}.

Definition toy_args : CommonArgs :=
  mkCommonArgs (V4 0) 20000 None "doublezero1" 20001 [] (Some "http://d") (Some 8001) 15000
    false (Some 9999) None None 0 None.
Definition toy_command : ProxySubcommands :=
  Shredstream (mkShredstreamArgs "https://be" None "key.json" ["ny"; "fra"; "tyo"] toy_args).
Definition toy_started : Started :=
  match main toy_command with Ok (ROk st) => st | _ => ([], [], []) end.

Definition toy_socket : UdpSocket := mkUdpSocket (SocketAddrV4 0 20000) [].
Example toy_services :
  toy_started.1 =
  ([], [HeartbeatLoop (mkHeartbeatArgs "https://be" "https://be" "key" ["ny"; "fra"; "tyo"]
          (SocketAddrV4 167772161 20000) "shredstream_proxy");
        ForwarderThread ShredReconstructor true true;
        ForwarderThread (SsListen 0 toy_socket) true true;
        ForwarderThread (SsPxyTx 0) true true;
        ForwarderThread (SsListen 1 toy_socket) true true;
        ForwarderThread (SsPxyTx 1) true true;
        ReportMetricsThread; AccessoryThread 15000;
        DestinationRefreshThread "http://d" 8001 []; GrpcServer (SocketAddrV4 0 9999)]).
Proof. vm_compute. reflexivity. Qed.

Lemma main_wiring_witness :
  (toy_started.1.1 ≠ [] ∨ refreshes toy_started.1.2) ∧
  ∃ port, (port = 20000 ↔ 20000 ≠ 0) ∧ ∀ i sock, spawns toy_started.1.2 (SsListen i sock) →
    sock ∈ default [] (multicast_of toy_args) ∨ local_addr sock = SocketAddrV4 0 port.
Proof.
  destruct (main_wiring toy_command toy_args toy_started.1.1 toy_started.1.2 toy_started.2)
    as (_ & Hr & Hp & _);
    [reflexivity|vm_compute; by split|vm_compute; reflexivity|].
  split; [exact Hr|exact Hp].
Defined.

(** The port forwarders listen on, and a given address that prints compressed. *)
Definition toy_command6 : ProxySubcommands :=
  Shredstream (mkShredstreamArgs "https://be" None "key.json" ["ny"]
    (mkCommonArgs (V4 0) 20000 None "doublezero1" 20001 [] (Some "http://d") (Some 8001) 15000
       false (Some 9999) (Some (V6 (0x2001 * 2 ^ 112 + 0x10))) None 0 None)).
Definition toy_started6 : Started :=
  match main toy_command6 with Ok (ROk st) => st | _ => ([], [], []) end.
Definition toy_heartbeat6 : HeartbeatArgs :=
  mkHeartbeatArgs "https://be" "https://be" "key" ["ny"]
    (SocketAddrV6 (0x2001 * 2 ^ 112 + 0x10) 20000 0 0) "shredstream_proxy".

Lemma heartbeat_announces_socket_witness :
  heartbeat_request (recv_socket toy_heartbeat6) (hb_regions toy_heartbeat6)
    = mkHbRequest (Some (mkHbSocket "2001::10" 20000)) ["ny"] ∧
  (∃ text ip, heartbeat_request (recv_socket toy_heartbeat6) (hb_regions toy_heartbeat6)
      = mkHbRequest (Some (mkHbSocket text 20000)) ["ny"] ∧ parse_IpAddr text = Some ip) ∧
  ∀ i sock, spawns toy_started6.1.2 (SsListen i sock) → socket_port (local_addr sock) = 20000.
Proof.
  split; [vm_compute; reflexivity|].
  destruct (heartbeat_announces_socket toy_command6 toy_started6.1.1 toy_started6.1.2 toy_started6.2
    toy_heartbeat6) as ((text & ip & E & Hp & _) & Hl).
  - vm_compute. reflexivity.
  - intros ip [= <-]. vm_compute. split; [discriminate|reflexivity].
  - vm_compute. by split.
  - left. vm_compute. left.
  - split; [exists text, ip; split; [exact E|exact Hp]|].
    intros i sock [Hin|Heq]%Hl; [|by apply Heq].
    exfalso. revert Hin. vm_compute. intros Hin. inversion Hin.
Defined.

(** The reconstructor panics and nothing else does: [main] ends as if nothing
    had happened. *)
Definition toy_join (s : Service) : JoinResult :=
  match s with ForwarderThread ShredReconstructor _ _ => JoinPanicked | _ => JoinOk end.

Lemma main_exit_witness :
  run_main toy_command toy_join (ShredMetrics_new true) = Ok (ROk (ExitingShredstream 0 0 0 0)) ∧
  length toy_started.2 = 9%nat ∧
  ∀ s, s ∈ toy_started.2 ↔ s ∈ toy_started.1.2 ∧ ¬ is_reconstructor s.
Proof.
  split; [vm_compute; reflexivity|]. split; [vm_compute; reflexivity|].
  apply (main_exit toy_command toy_join (ShredMetrics_new true) toy_started.1.1). vm_compute. reflexivity.
Defined.

(** The same proxy on port 65535. *)
Definition toy_command_last : ProxySubcommands :=
  ForwardOnly (mkCommonArgs (V4 0) 65535 None "doublezero1" 20001 [] (Some "http://d") (Some 8001)
    15000 false None None None 0 None).

Lemma main_start_outcomes_witness :
  (∃ started, main toy_command = Ok (ROk started)) ∧ (∃ p, main toy_command_last = Panicked p).
Proof.
  assert can_start as Hcan.
  { unfold can_start. split_and!; [by eexists|reflexivity|reflexivity|by eexists| |
      intros; by eexists|exists "10.0.0.1", (V4 167772161); split; [reflexivity|vm_compute; reflexivity]].
    intros addr lo hi n Hlt. simpl. rewrite decide_True by lia. by eexists. }
  split.
  - destruct (main_start_outcomes toy_command Hcan ltac:(by vm_compute)) as [[H _]|[(_ & H & _)|(_ & _ & H)]];
      [|discriminate H|exact H].
    exfalso. apply H. by apply validate_ok.
  - destruct (main_start_outcomes toy_command_last Hcan ltac:(by vm_compute))
      as [[H _]|[(_ & _ & H)|(_ & H & _)]]; [|exact H|by destruct H].
    exfalso. apply H. by apply validate_ok.
Defined.

(** SIGINT, and one thread that takes its token. *)
Definition toy_shutdown : Shutdown := mkShutdown true 0 255 0 1 1.

Lemma shutdown_tokens_suffice_witness :
  ∃ s1 s2, (s1 = toy_shutdown ∨ shutdown_step toy_shutdown s1) ∧ shutdown_step s1 s2 ∧
    taken s2 = 2%nat.
Proof.
  apply (shutdown_tokens_suffice toy_shutdown); [|vm_compute; lia].
  eapply rtc_l; [apply on_signal; reflexivity|].
  eapply rtc_l; [apply (send_token _ 255); [reflexivity|vm_compute; lia]|].
  eapply rtc_l; [apply (take_token _ 0); reflexivity|]. apply rtc_refl.
Defined.
