(* ===== verification/System.v ===== *)
(** The forwarding proxy as a whole: the threads that [main] of
    proxy/src/main.rs starts, with what they share.

    A state holds the shared objects (the exit flag, the metrics and the other
    state of the forwarders, the bounded channel to the reconstructor, the
    destinations, the broadcast channel) and the local state of every thread.
    An event is one step of one thread, or something the outside does; a run is
    any sequence of events.  An iteration of a thread's loop is two steps: it
    checks the exit flag, and then it waits in [select!] or [recv_timeout] (in the
    outer loop of the heartbeat thread: it connects) and handles what it gets,
    whatever the flag has become meanwhile.  Handling is
    that of [ForwardThreads], [Reconstructor], [Destinations] and [Server], and
    reads and writes the shared objects at once; the accessory thread's report
    and reset are two steps.  The machine starts when the forwarder threads have
    bound their sockets ([ForwardThreads.forwarder_thread]).  A shutdown token may
    arrive at any waiting thread; [Process] says where it comes from. *)

From S2P Require Import Prelude Net Metrics Shreds Tracker FecSet Packets Deshred DeshredInv.
From S2P Require Import Delivery Prom Errors Forwarder Reconstructor Destinations ForwardThreads.
From S2P Require Import Server Heartbeat.

(** [crossbeam_channel::bounded(1_024)], and [BroadcastSender::new(100)]. *)
Definition RECONSTRUCT_CHANNEL : nat := 1024.
Definition ENTRY_CHANNEL : nat := 100.

(** Where a thread is in [while !exit.load(..) { select! { .. } }]: before the check
    of the condition, or waiting for what the body handles, or behind the loop. *)
Inductive Phase := AtCheck | Waiting | Ended.
#[global] Instance Phase_eq_dec : EqDecision Phase.
Proof. solve_decision. Defined.

Definition running (ph : Phase) : bool := bool_decide (ph ≠ Ended).
(** The check, and the end of the body, which goes on or breaks. *)
Definition check_exit (exit : bool) : Phase := if exit then Ended else Waiting.
Definition body_done (goes_on : bool) : Phase := if goes_on then AtCheck else Ended.

(** A forwarder thread: its copy of the destinations. *)
Record ForwarderState := mkForwarder {
  local_dest_sockets : list SocketAddr;
  fwd_phase : Phase;
}.
Definition fwd_running (f : ForwarderState) : bool := running (fwd_phase f).

(** A task of [subscribe_entries]: the position of the first and of the next
    value of its broadcast receiver, and its iterations so far. *)
Record Subscriber := mkSubscriber {
  sub_first : nat;
  sub_next : nat;
  sub_its : list (BroadcastRecv * bool);
}.

Definition client_entries (s : Subscriber) : list PbEntry := (subscribe_entries (sub_its s)).1.
Definition sub_ended (s : Subscriber) : bool := (subscribe_entries (sub_its s)).2.

(** The accessory thread: its datapoints, and whether it is between the report
    and the reset. *)
Inductive AccInput := AccDeduperTick | AccMetricsTick | AccShutdownToken.
Record AccessoryState := mkAccessoryState {
  acc_reports : list Datapoint;
  acc_reporting : bool;
  acc_phase : Phase;
}.

(** What [select!] of the heartbeat thread picks, when it waits. *)
Inductive HbSelect := SelHeartbeat (res : HeartbeatResult) | SelMetrics | SelShutdown.

Section system.
Context `{ShredLib} `{ForwardLib} `{BuildProfile}.

(** What arrives at a forwarder thread that waits. *)
Inductive FwdInput :=
  | InPackets (maybe_packet_batch : option PacketBatch)
  | InRefreshTick
  | InShutdown.

Record System := mkSystem {
  (** shared *)
  sys_exit : bool;
  sys_shared : Fwd;
  sys_queue : list PacketBatch;
  sys_refresh : Refresh;
  sys_entries : list PbEntry;
  (** the threads *)
  sys_forwarders : list ForwarderState;
  sys_recon : Recon;
  sys_recon_phase : Phase;
  sys_refresh_phase : Phase;
  sys_acc : AccessoryState;
  sys_hb : Hb;
  (** whether it is behind the check of its loop: connecting, in the outer loop, or
      in the [select!] of the inner one *)
  sys_hb_waiting : bool;
  sys_server_phase : Phase;
  sys_subs : list Subscriber;
  (** the batches the reconstructor has taken, which nothing reads *)
  sys_taken : list PacketBatch;
}.

Definition sys_recon_running (s : System) : bool := running (sys_recon_phase s).
Definition sys_server (s : System) : bool := running (sys_server_phase s).

(** The next step of a thread; the input is what it gets if it waits. *)
Inductive SysEvent :=
  | ForwarderEvent (i : nat) (ev : FwdInput)
  | ReconstructorEvent
  | RefreshEv (ev : RefreshEvent)
  | AccessoryEvent (ev : AccInput)
  | ServerEvent (shutdown : bool)
  | SubscribeRequest
  | SubscriberEvent (k : nat) (sent_ok : bool)
  | HeartbeatEvent (res : ConnectResult) (sel : HbSelect)
  (** a lock, a socket or the clock changes *)
  | WorldChanges (w : World)
  (** a signal, or the panic hook *)
  | ExitSet.

(** The configuration: the flags of [main], the arguments of the refresh thread,
    and the number of values the broadcast channel retains, which is the
    requested capacity rounded up. *)
Context (should_reconstruct_shreds debug_trace_shred use_discovery_service : bool).
Context (url : string) (port : Z) (static : list (SocketAddr * string)) (retained : nat).

(** ** State updates *)

Definition set_exit (s : System) : System :=
  mkSystem true (sys_shared s) (sys_queue s) (sys_refresh s) (sys_entries s) (sys_forwarders s)
    (sys_recon s) (sys_recon_phase s) (sys_refresh_phase s) (sys_acc s) (sys_hb s) (sys_hb_waiting s)
    (sys_server_phase s) (sys_subs s) (sys_taken s).
Definition with_shared (f : Fwd) (s : System) : System :=
  mkSystem (sys_exit s) f (sys_queue s) (sys_refresh s) (sys_entries s) (sys_forwarders s)
    (sys_recon s) (sys_recon_phase s) (sys_refresh_phase s) (sys_acc s) (sys_hb s) (sys_hb_waiting s)
    (sys_server_phase s) (sys_subs s) (sys_taken s).
Definition with_queue (q : list PacketBatch) (s : System) : System :=
  mkSystem (sys_exit s) (sys_shared s) q (sys_refresh s) (sys_entries s) (sys_forwarders s)
    (sys_recon s) (sys_recon_phase s) (sys_refresh_phase s) (sys_acc s) (sys_hb s) (sys_hb_waiting s)
    (sys_server_phase s) (sys_subs s) (sys_taken s).
Definition with_forwarder (i : nat) (f : ForwarderState) (s : System) : System :=
  mkSystem (sys_exit s) (sys_shared s) (sys_queue s) (sys_refresh s) (sys_entries s)
    (<[i := f]> (sys_forwarders s))
    (sys_recon s) (sys_recon_phase s) (sys_refresh_phase s) (sys_acc s) (sys_hb s) (sys_hb_waiting s)
    (sys_server_phase s) (sys_subs s) (sys_taken s).
Definition with_recon (st : Recon) (sent : list PbEntry) (ph : Phase)
    (taken : list PacketBatch) (s : System) : System :=
  mkSystem (sys_exit s) (sys_shared s) (sys_queue s) (sys_refresh s) sent (sys_forwarders s)
    st ph (sys_refresh_phase s) (sys_acc s) (sys_hb s) (sys_hb_waiting s) (sys_server_phase s)
    (sys_subs s) taken.
Definition with_refresh (r : Refresh) (ph : Phase) (s : System) : System :=
  mkSystem (sys_exit s) (sys_shared s) (sys_queue s) r (sys_entries s) (sys_forwarders s)
    (sys_recon s) (sys_recon_phase s) ph (sys_acc s) (sys_hb s) (sys_hb_waiting s)
    (sys_server_phase s) (sys_subs s) (sys_taken s).
Definition with_acc (a : AccessoryState) (s : System) : System :=
  mkSystem (sys_exit s) (sys_shared s) (sys_queue s) (sys_refresh s) (sys_entries s)
    (sys_forwarders s) (sys_recon s) (sys_recon_phase s) (sys_refresh_phase s) a
    (sys_hb s) (sys_hb_waiting s) (sys_server_phase s) (sys_subs s) (sys_taken s).
Definition with_server (ph : Phase) (subs : list Subscriber) (s : System) : System :=
  mkSystem (sys_exit s) (sys_shared s) (sys_queue s) (sys_refresh s) (sys_entries s)
    (sys_forwarders s) (sys_recon s) (sys_recon_phase s) (sys_refresh_phase s) (sys_acc s)
    (sys_hb s) (sys_hb_waiting s) ph subs (sys_taken s).
Definition with_hb (hb : Hb) (waiting : bool) (s : System) : System :=
  mkSystem (sys_exit s) (sys_shared s) (sys_queue s) (sys_refresh s) (sys_entries s)
    (sys_forwarders s) (sys_recon s) (sys_recon_phase s) (sys_refresh_phase s) (sys_acc s)
    hb waiting (sys_server_phase s) (sys_subs s) (sys_taken s).

(** ** The channels *)

(** [reconstruct_tx.try_send]: a full channel, or one whose receiver is gone,
    drops the batch. *)
Definition try_send (running : bool) (q : list PacketBatch) (b : PacketBatch) : list PacketBatch :=
  if running && bool_decide (length q < RECONSTRUCT_CHANNEL)%nat then q ++ [b] else q.

(** [reconstruct_rx.recv_timeout]; the senders are held by the forwarders. *)
Definition recv_queue (s : System) : RecvTimeout PacketBatch :=
  match sys_queue s with
  | b :: _ => RecvOk b
  | [] => if forallb (λ f, negb (fwd_running f)) (sys_forwarders s) then Disconnected else Timeout
  end.

(** [entry_receiver.recv()], if it is ready, and the position after it: a receiver
    that is more than [retained] values behind is told how many it missed and
    goes on with the oldest value retained. *)
Definition recv_entry (sent : list PbEntry) (next : nat) : option (BroadcastRecv * nat) :=
  if decide (next + retained < length sent)%nat then
    Some (BroadcastLagged (Z.of_nat (length sent - retained - next)), (length sent - retained)%nat)
  else (λ e, (BroadcastOk e, S next)) <$> sent !! next.

(** ** The steps of the threads *)

(** The body of a forwarder thread's loop. *)
Definition forwarder_receives (i : nat) (f : ForwarderState) (ev : FwdInput) (s : System) :
    outcome System :=
  let ev :=
    match ev with
    | InPackets b => FwdPackets b
    | InRefreshTick => FwdRefresh (unioned_dest_sockets (sys_refresh s))
    | InShutdown => FwdShutdown
    end in
  '(shared, dests, running) ←
    forwarder_step should_reconstruct_shreds debug_trace_shred (sys_shared s)
      (local_dest_sockets f) ev;
  let new_calls := drop (length (fwd_calls (sys_shared s))) (fwd_calls shared) in
  let q := foldl (try_send (sys_recon_running s)) (sys_queue s) (offered new_calls) in
  Ok (with_forwarder i (mkForwarder dests (body_done running)) (with_queue q (with_shared shared s))).

Definition forwarder_event (i : nat) (f : ForwarderState) (ev : FwdInput) (s : System) :
    outcome System :=
  match fwd_phase f with
  | AtCheck =>
      Ok (with_forwarder i (mkForwarder (local_dest_sockets f) (check_exit (sys_exit s))) s)
  | Waiting => forwarder_receives i f ev s
  | Ended => Ok s
  end.

(** The body of the reconstructor's loop. *)
Definition reconstructor_receives (s : System) : outcome System :=
  let r := recv_queue s in
  '(st, sent, running) ←
    reconstructor_step (with_metrics (fwd_metrics (sys_shared s)) (sys_recon s)) (sys_entries s) r;
  let taken := match r with RecvOk b => [b] | _ => [] end in
  Ok (with_recon st sent (body_done running) (sys_taken s ++ taken)
        (with_queue (tail (sys_queue s))
           (with_shared (with_fwd_metrics (λ _, metrics st) (sys_shared s)) s))).

Definition reconstructor_event (s : System) : outcome System :=
  match sys_recon_phase s with
  | AtCheck =>
      Ok (with_recon (sys_recon s) (sys_entries s) (check_exit (sys_exit s)) (sys_taken s) s)
  | Waiting => reconstructor_receives s
  | Ended => Ok s
  end.

Definition refresh_event (ev : RefreshEvent) (s : System) : System :=
  match sys_refresh_phase s with
  | AtCheck => with_refresh (sys_refresh s) (check_exit (sys_exit s)) s
  | Waiting =>
      let '(r, running) := refresh_step url port static (sys_refresh s) ev in
      with_refresh r (body_done running) s
  | Ended => s
  end.

(** [metrics.report(); metrics.reset();] is two steps; the other arm takes the
    write lock of the deduper. *)
Definition accessory_event (ev : AccInput) (s : System) : outcome System :=
  let a := sys_acc s in
  match acc_phase a with
  | AtCheck =>
      Ok (with_acc (mkAccessoryState (acc_reports a) false (check_exit (sys_exit s))) s)
  | Waiting =>
      if acc_reporting a then
        Ok (with_acc (mkAccessoryState (acc_reports a) false AtCheck)
              (with_shared (with_fwd_metrics reset (sys_shared s)) s))
      else
      match ev with
      | AccDeduperTick =>
          if deduper_poisoned (fwd_world (sys_shared s))
          then Panicked (ExplicitPanic "PoisonError")
          else Ok (with_acc (mkAccessoryState (acc_reports a) false AtCheck) s)
      | AccMetricsTick =>
          let '(dps, m) := report (fwd_metrics (sys_shared s)) in
          Ok (with_acc (mkAccessoryState (acc_reports a ++ dps) true Waiting)
                (with_shared (with_fwd_metrics (λ _, m) (sys_shared s)) s))
      | AccShutdownToken => Ok (with_acc (mkAccessoryState (acc_reports a) false Ended) s)
      end
  | Ended => Ok s
  end.

(** Where the thread is decides which of the two inputs it meets: a connection
    attempt in the outer loop, or what [select!] of the inner loop picks. *)
Definition heartbeat_event (res : ConnectResult) (sel : HbSelect) (s : System) : outcome System :=
  match hb_pc (sys_hb s) with
  | Outer =>
      if sys_hb_waiting s || sys_exit s then
        hb ← hb_step (sys_hb s) (OuterIter (negb (sys_hb_waiting s)) res);
        Ok (with_hb hb false s)
      else Ok (with_hb (sys_hb s) true s)
  | Inner =>
      if sys_hb_waiting s then
        hb ← hb_step (sys_hb s)
               match sel with
               | SelHeartbeat r => InnerHeartbeat false r
               | SelMetrics =>
                   InnerMetrics false (load AggReceivedCumulative (fwd_metrics (sys_shared s)))
               | SelShutdown => InnerShutdown false
               end;
        Ok (with_hb hb false s)
      else if sys_exit s then Ok (with_hb (hb_leave (sys_hb s)) false s)
      else Ok (with_hb (sys_hb s) true s)
  | Finished => Ok s
  end.

(** When the thread of the server ends its runtime is dropped, and the tasks of
    the subscribers with it. *)
Definition server_event (shutdown : bool) (s : System) : System :=
  match sys_server_phase s with
  | AtCheck => with_server (check_exit (sys_exit s)) (sys_subs s) s
  | Waiting =>
      let '(_, ended) := start_server_thread [(false, shutdown)] in
      with_server (body_done (negb ended)) (sys_subs s) s
  | Ended => s
  end.

Definition subscriber_event (k : nat) (sub : Subscriber) (sent_ok : bool) (s : System) : System :=
  if sub_ended sub then s else
  match recv_entry (sys_entries s) (sub_next sub) with
  | None => s
  | Some (r, next) =>
      let sub := mkSubscriber (sub_first sub) next (sub_its sub ++ [(r, sent_ok)]) in
      with_server (sys_server_phase s) (<[k := sub]> (sys_subs s)) s
  end.

Definition sys_step (s : System) (ev : SysEvent) : outcome System :=
  match ev with
  | ForwarderEvent i ev =>
      match sys_forwarders s !! i with
      | Some f => forwarder_event i f ev s
      | None => Ok s
      end
  | ReconstructorEvent => reconstructor_event s
  | RefreshEv ev => Ok (refresh_event ev s)
  | AccessoryEvent ev => accessory_event ev s
  | ServerEvent shutdown => Ok (server_event shutdown s)
  | SubscribeRequest =>
      let n := length (sys_entries s) in
      Ok (if sys_server s
          then with_server (sys_server_phase s) (sys_subs s ++ [mkSubscriber n n []]) s else s)
  | SubscriberEvent k sent_ok =>
      match sys_subs s !! k with
      | Some sub => Ok (if sys_server s then subscriber_event k sub sent_ok s else s)
      | None => Ok s
      end
  | HeartbeatEvent res sel => heartbeat_event res sel s
  | WorldChanges w => Ok (with_shared (with_world w [] (sys_shared s)) s)
  | ExitSet => Ok (set_exit s)
  end.

Definition sys_run (s : System) (evs : list SysEvent) : outcome System := foldM sys_step s evs.

(** What [main] starts: [n] forwarder threads; the gRPC server is there exactly
    when shreds are reconstructed, and the heartbeat thread in Shredstream mode. *)
Definition started (there : bool) : Phase := if there then AtCheck else Ended.
Definition sys_init (shredstream : bool) (n : nat) (w : World) : System :=
  let r := refresh_init static in
  let m := ShredMetrics_new should_reconstruct_shreds in
  mkSystem false (mkFwd m [] w []) [] r []
    (replicate n (mkForwarder (unioned_dest_sockets r) AtCheck))
    (recon_init m) (started should_reconstruct_shreds) (started use_discovery_service)
    (mkAccessoryState [] false AtCheck)
    (if shredstream then hb_init else hb_at Finished [] [] hb_init) false
    (started should_reconstruct_shreds) [] [].
End system.
