(* ===== verification/SystemProofs.v ===== *)
(** The invariant of the whole proxy and that every event keeps it. *)

From S2P Require Import Prelude Net Metrics Shreds Tracker FecSet Packets Deshred DeshredInv.
From S2P Require Import Delivery Prom Errors Forwarder ForwarderProofs Reconstructor Prompt Destinations.
From S2P Require Import ForwardThreads Server Heartbeat System.

(** * The reconstructor keeps the metrics well formed *)

Section metrics.
Context `{ShredLib} `{PacketLib} `{BuildProfile} `{!ShredLibLaws}.
Context (good : Shred → Prop) `{!GoodShreds good}.

Lemma bump_metrics c n st : metrics_wf (metrics st) → metrics_wf (metrics (bump c n st)).
Proof. apply fetch_add_wf. Qed.

Lemma deshred_fec_set_metrics st key st' :
  metrics_wf (metrics st) → deshred_fec_set st key = Ok st' → metrics_wf (metrics st').
Proof.
  destruct key as [slot f]. intros Hm. unfold deshred_fec_set.
  destruct (slot_entry slot st) as [fecs t].
  intros (r & _ & Hr)%bind_Ok. destruct r as [[[a b] u]|]; [|by simplify_eq].
  apply bind_Ok in Hr as (tod & _ & Hr). apply bind_Ok in Hr as (ps & _ & Hr).
  destruct (deshred ps) as [p|]; [destruct (bincode_deserialize p) as [es|]|].
  - apply bind_Ok in Hr as (t' & _ & Hr). simplify_eq.
    destruct u; repeat first [exact Hm|apply fetch_add_wf].
  - simplify_eq. destruct u; repeat first [exact Hm|apply fetch_add_wf].
  - simplify_eq. destruct u; repeat first [exact Hm|apply fetch_add_wf].
Qed.

(** The counters of the forwarders' packets are not its business. *)
Definition packet_counter (c : Counter) : Prop := c = Received ∨ c = AggReceivedCumulative.

Lemma deshred_fec_set_load c st key st' :
  packet_counter c → deshred_fec_set st key = Ok st' → load c (metrics st') = load c (metrics st).
Proof.
  destruct key as [slot f]. intros Hc. unfold deshred_fec_set.
  destruct (slot_entry slot st) as [fecs t].
  intros (r & _ & Hr)%bind_Ok. destruct r as [[[a b] u]|]; [|by simplify_eq].
  apply bind_Ok in Hr as (tod & _ & Hr). apply bind_Ok in Hr as (ps & _ & Hr).
  destruct (deshred ps) as [p|]; [destruct (bincode_deserialize p) as [es|]|];
    [apply bind_Ok in Hr as (t' & _ & Hr)|..]; simplify_eq; destruct u; simpl;
    rewrite ?load_fetch_add_ne by (by destruct Hc as [-> | ->]); done.
Qed.

Lemma reconstruct_shreds_load c batch st n st' :
  overflow_checks = false → recon_wf good st → batch_good good batch → packet_counter c →
  reconstruct_shreds batch st = Ok (n, st') → load c (metrics st') = load c (metrics st).
Proof.
  intros Ho Hst Hb Hc Hr.
  destruct (reconstruct_shreds_loop good _ _ _ _ Ho Hst Hb Hr) as
    (st2 & st3 & lg2 & lg4 & Hw & _ & _ & Em & _ & _ & Ed & _ & _ & _ & _ & _ & Hl).
  assert (load c (metrics st3) = load c (metrics st)) as E3.
  { pose proof (foldM_ensures deshred_fec_set (λ s, load c (metrics s) = load c (metrics st)) st2
      (slot_fec_indexes_to_iterate st2)) as Hi. unfold deshred_all in Ed. rewrite Ed in Hi.
    apply Hi; [by rewrite Em|]. intros s k _ Hs.
    destruct (deshred_fec_set s k) eqn:E; [|done]. simpl. rewrite <-Hs.
    by eapply deshred_fec_set_load. }
  rewrite Hl. case_decide; [|done]. rewrite load_fetch_add_ne; [done|by destruct Hc as [-> | ->]].
Qed.

Lemma reconstruct_shreds_metrics batch st n st' :
  overflow_checks = false → recon_wf good st → batch_good good batch →
  metrics_wf (metrics st) → reconstruct_shreds batch st = Ok (n, st') → metrics_wf (metrics st').
Proof.
  intros Ho Hst Hb Hm Hr.
  destruct (reconstruct_shreds_loop good _ _ _ _ Ho Hst Hb Hr) as
    (st2 & st3 & lg2 & lg4 & Hw & _ & _ & Em & _ & _ & Ed & _ & _ & _ & _ & _ & Hc).
  assert (metrics_wf (metrics st3)) as Hm3.
  { pose proof (foldM_ensures deshred_fec_set (λ s, metrics_wf (metrics s)) st2
      (slot_fec_indexes_to_iterate st2)) as Hi. unfold deshred_all in Ed. rewrite Ed in Hi.
    apply Hi; [by rewrite Em|]. intros s k _ Hs.
    destruct (deshred_fec_set s k) eqn:E; [by eapply deshred_fec_set_metrics|done]. }
  intros c. rewrite Hc. case_decide; [by apply fetch_add_wf|done].
Qed.
End metrics.

(** * Subscribers *)

(** What the client of a task was sent is a piece of what was broadcast, from
    the task's first position on and without a gap; while the task runs, all it
    took from the channel was sent. *)
Record sub_inv (sent : list PbEntry) (sub : Subscriber) : Prop := {
  so_sent : client_entries sub `prefix_of` drop (sub_first sub) sent;
  so_next : sub_ended sub = false →
    sub_next sub = (sub_first sub + length (client_entries sub))%nat ∧
    (sub_next sub ≤ length sent)%nat;
}.

Lemma subscribe_entries_snoc its it :
  (subscribe_entries its).2 = false →
  subscribe_entries (its ++ [it])
  = match it with
    | (BroadcastOk e, true) => ((subscribe_entries its).1 ++ [e], false)
    | _ => ((subscribe_entries its).1, true)
    end.
Proof.
  induction its as [|[[e| |] []] its IH]; simpl; intros Hb; try done.
  destruct (subscribe_entries its) as [l b] eqn:E. simpl in *.
  rewrite IH by done. by destruct it as [[] []].
Qed.

Lemma sub_inv_app sent new sub : sub_inv sent sub → sub_inv (sent ++ new) sub.
Proof.
  intros [Hs Hn]. split.
  - rewrite drop_app. by apply prefix_app_r.
  - rewrite length_app. intros He. destruct (Hn He). lia.
Qed.

Lemma sub_inv_step retained sent sub r next ok :
  sub_inv sent sub → sub_ended sub = false →
  recv_entry retained sent (sub_next sub) = Some (r, next) →
  sub_inv sent (mkSubscriber (sub_first sub) next (sub_its sub ++ [(r, ok)])).
Proof.
  intros [Hs Hn] He Hr. destruct (Hn He) as [Hnext Hle].
  unfold sub_ended, client_entries in *.
  split; unfold sub_ended, client_entries; simpl; rewrite subscribe_entries_snoc by done.
  - destruct r as [e| |], ok; try done. simpl.
    unfold recv_entry in Hr. case_decide; [by simplify_eq|].
    apply fmap_Some in Hr as (e' & He' & [= -> ->]).
    destruct Hs as [rest Hs]. rewrite Hs. exists (tail rest). rewrite <-app_assoc. f_equal.
    assert (rest !! 0%nat = Some e') as Hhd.
    { pose proof (f_equal (.!! length (subscribe_entries (sub_its sub)).1) Hs) as Hx.
      simpl in Hx. rewrite lookup_app_r, Nat.sub_diag, lookup_drop, <-Hnext, He' in Hx by done.
      by rewrite <-Hx. }
    destruct rest; simplify_eq/=. done.
  - destruct r as [e| |], ok; try done. simpl. intros _.
    unfold recv_entry in Hr. case_decide; [by simplify_eq|].
    apply fmap_Some in Hr as (e' & He' & [= -> ->]). rewrite length_app. simpl.
    apply lookup_lt_Some in He'. lia.
Qed.

(** * The invariant *)

Section invariant.
Context `{ShredLib} `{ForwardLib} `{BuildProfile}.
Context `{!ShredLibLaws} `{!PacketLibLaws} `{!ForwardLaws}.
Context (good : Shred → Prop) `{!GoodShreds good}.
Context (reconstruct debug discovery : bool).
Context (url : string) (port : Z) (static : list (SocketAddr * string)) (retained : nat).
Implicit Types (s : System).

#[local] Abbreviation step := (sys_step reconstruct debug url port static retained).

(** Destinations that were published: the static ones, or those of a fetch. *)
Definition published (dests : list SocketAddr) : Prop :=
  dests = fst <$> static ∨
  ∃ o, fetch_unioned_destinations o url port static = ROk dests.

(** A batch a forwarder thread received. *)
Definition received (cs : list Call) (b : PacketBatch) : Prop := CallDedup b ∈ cs.

(** A send is of payloads of one received batch, to one published destination. *)
Definition send_ok (cs : list Call) (pkts : list (bytes * SocketAddr)) : Prop :=
  ∃ b ps dest dests, received cs b ∧ ps `sublist_of` payloads b ∧ published dests ∧
    dest ∈ dests ∧ pkts = (λ p, (p, dest)) <$> ps.

Record sys_inv s : Prop := {
  sv_metrics : metrics_wf (fwd_metrics (sys_shared s));
  sv_pipe : pipeline_inv good (sys_recon s) (sys_entries s);
  sv_order : sys_taken s ++ sys_queue s `sublist_of` offered (fwd_calls (sys_shared s));
  sv_bound : (length (sys_queue s) ≤ RECONSTRUCT_CHANNEL)%nat;
  sv_good : Forall (batch_good good) (sys_queue s);
  sv_shared : published (unioned_dest_sockets (sys_refresh s));
  sv_local f : f ∈ sys_forwarders s → published (local_dest_sockets f);
  sv_sends pkts : pkts ∈ sends (fwd_calls (sys_shared s)) →
    send_ok (fwd_calls (sys_shared s)) pkts;
  sv_subs sub : sub ∈ sys_subs s → sub_inv (sys_entries s) sub;
}.

(** The events the environment may make: packets that parse to good shreds, and
    heartbeats that the block engine does not call invalid. *)
Definition event_ok (ev : SysEvent) : Prop :=
  match ev with
  | ForwarderEvent _ (InPackets (Some b)) => batch_good good b
  | HeartbeatEvent _ (SelHeartbeat (HeartbeatErr e)) => status_code e ≠ InvalidArgument
  | _ => True
  end.

(** ** Lemmas *)

Lemma send_ok_mono cs cs' pkts : send_ok cs pkts → send_ok (cs ++ cs') pkts.
Proof.
  intros (b & ps & d & ds & Hb & ?). exists b, ps, d, ds. split; [|done].
  unfold received in *. set_solver.
Qed.

Lemma try_send_all running q bs :
  foldl (try_send running) q bs `sublist_of` q ++ bs ∧
  q `prefix_of` foldl (try_send running) q bs ∧
  ((length q ≤ RECONSTRUCT_CHANNEL)%nat →
   (length (foldl (try_send running) q bs) ≤ RECONSTRUCT_CHANNEL)%nat).
Proof.
  revert q. induction bs as [|b bs IH]; intros q; simpl.
  { rewrite app_nil_r. split_and!; done. }
  destruct (IH (try_send running q b)) as (Hs & Hp & Hl). unfold try_send in *.
  destruct (running && _) eqn:E.
  - apply andb_true_iff in E as [_ E%bool_decide_eq_true].
    rewrite <-app_assoc in Hs. split_and!; [done| |].
    + etrans; [|exact Hp]. by apply prefix_app_r.
    + intros _. apply Hl. rewrite length_app. simpl. lia.
  - split_and!; [|done|done]. etrans; [exact Hs|].
    apply sublist_app; [done|]. by apply sublist_cons.
Qed.

Lemma sys_inv_init ss n w :
  sys_inv (sys_init reconstruct discovery static ss n w).
Proof.
  split; simpl; try done.
  - apply new_wf.
  - apply pipeline_inv_init.
  - lia.
  - by left.
  - intros f Hf. apply elem_of_replicate in Hf as [-> _]. by left.
  - by intros ? ?%elem_of_nil.
  - by intros ? ?%elem_of_nil.
Qed.

(** A step that changes the metrics, the world or a flag only. *)
Lemma sys_inv_same s s' :
  sys_inv s → metrics_wf (fwd_metrics (sys_shared s')) →
  pipeline_inv good (sys_recon s') (sys_entries s) → sys_entries s' = sys_entries s → sys_taken s' = sys_taken s →
  sys_queue s' = sys_queue s → fwd_calls (sys_shared s') = fwd_calls (sys_shared s) →
  published (unioned_dest_sockets (sys_refresh s')) →
  (∀ f, f ∈ sys_forwarders s' → published (local_dest_sockets f)) →
  (∀ sub, sub ∈ sys_subs s' → sub_inv (sys_entries s) sub) → sys_inv s'.
Proof. intros [] ? ? E2 E3 E4 E5 ? ? ?. by split; rewrite ?E2, ?E3, ?E4, ?E5. Qed.

(** ** Every event *)

(** The batches a list of calls received. *)
Definition batches_received (cs : list Call) : list PacketBatch :=
  omap (λ c, match c with CallDedup b => Some b | _ => None end) cs.

Lemma batches_received_app cs1 cs2 :
  batches_received (cs1 ++ cs2) = batches_received cs1 ++ batches_received cs2.
Proof. apply omap_app. Qed.

Lemma batches_received_outgoing cs : Forall outgoing cs → batches_received cs = [].
Proof. induction 1 as [|[]]; simpl; done. Qed.

(** The call log of a forwarder's iteration. *)
Lemma forwarder_step_calls sh dests ev :
  overflow_checks = false → no_poison → traces_ok debug → metrics_wf (fwd_metrics sh) →
  ∃ sh' dests' r cs, forwarder_step reconstruct debug sh dests ev = Ok (sh', dests', r) ∧
    metrics_wf (fwd_metrics sh') ∧ fwd_calls sh' = fwd_calls sh ++ cs ∧
    dests' = match ev with FwdRefresh l => l | _ => dests end ∧
    match ev with
    | FwdPackets (Some b) => offered cs = (if reconstruct then [b] else []) ∧ received cs b ∧
        batches_received cs = [b] ∧
        ∃ ps, ps `sublist_of` payloads b ∧ sends cs = (λ d, (λ p, (p, d)) <$> ps) <$> dests
    | _ => cs = []
    end.
Proof.
  intros Ho Hp Ht Hm. destruct ev as [[b|]|l|]; simpl.
  - destruct (forwarder_step_packets b dests reconstruct debug sh Ho Hp Ht Hm)
      as (sh' & cs & E & Hm' & Ec & Es & Hsub & Eo). simpl in E. rewrite E.
    eexists sh', dests, true, _. split; [done|]. split; [done|]. split; [exact Ec|].
    split; [done|]. rewrite !offered_app, (offered_outgoing _ Eo), !sends_app, Es.
    rewrite !batches_received_app, (batches_received_outgoing _ Eo).
    split; [by destruct reconstruct|]. split; [unfold received; set_solver|].
    split; [by destruct reconstruct|].
    eexists. split; [exact Hsub|]. by destruct reconstruct.
  - destruct (elapsed_micros _) as [e w]. simpl. eexists _, _, _, []. split; [done|]. by simpl.
  - exists sh, l, true, []. by rewrite app_nil_r.
  - exists sh, dests, false, []. by rewrite app_nil_r.
Qed.

Lemma with_forwarder_local s i f f' :
  (∀ g, g ∈ sys_forwarders s → published (local_dest_sockets g)) →
  published (local_dest_sockets f) → f' ∈ <[i := f]> (sys_forwarders s) →
  published (local_dest_sockets f').
Proof.
  intros Hl Hf [j Hj]%list_elem_of_lookup. rewrite list_lookup_insert in Hj. case_decide.
  - by simplify_eq.
  - apply Hl. by eapply list_elem_of_lookup_2.
Qed.

Lemma forwarder_receives_inv s i f ev :
  overflow_checks = false → no_poison → traces_ok debug → sys_inv s →
  sys_forwarders s !! i = Some f → event_ok (ForwarderEvent i ev) →
  returns (forwarder_receives reconstruct debug i f ev s) sys_inv.
Proof.
  intros Ho Hp Ht Hinv Hf Hok.
  assert (published (local_dest_sockets f)) as Hpub
    by (eapply sv_local, list_elem_of_lookup_2; done).
  unfold forwarder_receives.
  set (fev := match ev with InPackets b => FwdPackets b | _ => _ end).
  destruct (forwarder_step_calls (sys_shared s) (local_dest_sockets f) fev Ho Hp Ht (sv_metrics _ Hinv))
    as (sh' & dests' & r & cs & -> & Hm & Ec & Ed & Hcs). simpl.
  assert (published dests') as Hpub'.
  { rewrite Ed. unfold fev. destruct ev as [[b|]| |]; try done. apply Hinv. }
  rewrite Ec, drop_app_length.
  destruct (try_send_all (sys_recon_running s) (sys_queue s) (offered cs)) as (Hsub & Hpre & Hlen).
  assert (Forall (batch_good good) (offered cs)) as Hgood.
  { unfold fev in Hcs. destruct ev as [[b|]| |]; try (subst cs; constructor).
    destruct Hcs as [-> _]. destruct reconstruct; repeat constructor. exact Hok. }
  split; simpl; rewrite ?Ec; try apply Hinv; try done.
  - rewrite offered_app. etrans; [by apply sublist_app; [reflexivity|exact Hsub]|].
    rewrite app_assoc. apply sublist_app; [apply Hinv|done].
  - apply Hlen, Hinv.
  - apply Forall_forall. intros b Hb. eapply elem_of_sublist in Hb; [|exact Hsub].
    apply elem_of_app in Hb as [Hb|Hb]; [|by eapply Forall_forall in Hgood].
    by apply (proj1 (Forall_forall _ _) (sv_good _ Hinv)).
  - intros g Hg. eapply (with_forwarder_local _ _ _ _ (sv_local _ Hinv)); [|exact Hg]. done.
  - intros pkts. rewrite sends_app. intros [Hx|Hx]%elem_of_app.
    { by apply send_ok_mono, Hinv. }
    unfold fev in Hcs. destruct ev as [[b|]| |]; try (subst cs; by apply elem_of_nil in Hx).
    destruct Hcs as (_ & Hr & _ & ps & Hps & Es). rewrite Es in Hx.
    apply list_elem_of_fmap in Hx as (d & -> & Hd). exists b, ps, d, (local_dest_sockets f).
    split; [|done]. unfold received in *. set_solver.
Qed.

Lemma forwarder_event_inv s i f ev :
  overflow_checks = false → no_poison → traces_ok debug → sys_inv s →
  sys_forwarders s !! i = Some f → event_ok (ForwarderEvent i ev) →
  returns (forwarder_event reconstruct debug i f ev s) sys_inv.
Proof.
  intros Ho Hp Ht Hinv Hf Hok. unfold forwarder_event.
  destruct (fwd_phase f); [|by apply forwarder_receives_inv|done].
  apply (sys_inv_same s); try done; try apply Hinv.
  intros g Hg. eapply (with_forwarder_local _ _ _ _ (sv_local _ Hinv)); [|exact Hg]. simpl.
  eapply sv_local, list_elem_of_lookup_2; done.
Qed.

(** A batch taken from the channel: what is broadcast is appended. *)
Lemma reconstructor_step_grows st sent b :
  overflow_checks = false → pipeline_inv good st sent → metrics_wf (metrics st) →
  batch_good good b →
  ∃ st' new, reconstructor_step st sent (RecvOk b) = Ok (st', sent ++ new, true) ∧
    pipeline_inv good st' (sent ++ new) ∧ metrics_wf (metrics st') ∧
    ∃ n st1, reconstruct_shreds b st = Ok (n, st1) ∧ new = to_pb <$> deshredded_entries st1.
Proof.
  intros Ho Hpipe Hm Hb.
  pose proof (reconstructor_step_inv good st sent (RecvOk b) Ho Hpipe Hb) as Hr. simpl in *.
  destruct (reconstruct_shreds b st) as [[n st1]|] eqn:E; [|done]. simpl in *.
  eexists _, _. split; [done|]. split; [done|]. split; [|by eauto].
  simpl. eapply reconstruct_shreds_metrics; eauto. apply Hpipe.
Qed.

Lemma reconstructor_receives_inv s :
  overflow_checks = false → sys_inv s → returns (reconstructor_receives s) sys_inv.
Proof.
  intros Ho Hinv. unfold reconstructor_receives.
  set (st := with_metrics _ _).
  assert (pipeline_inv good st (sys_entries s)) as Hpipe.
  { destruct (sv_pipe _ Hinv). split; [by apply with_metrics_wf|done|done]. }
  destruct (sys_queue s) as [|b q] eqn:Eq.
  - assert (∃ b, reconstructor_step st (sys_entries s) (recv_queue s)
              = Ok (st, sys_entries s, b) ∧
              match recv_queue s with RecvOk b => [b] | _ => [] end = []) as (b & -> & ->).
    { unfold recv_queue. rewrite Eq. case_match; simpl; eauto. }
    simpl. apply sys_inv_same with s; simpl; try done; try apply Hinv; rewrite ?app_nil_r, ?Eq; done.
  - assert (recv_queue s = RecvOk b) as Er by (unfold recv_queue; by rewrite Eq).
    rewrite Er. pose proof (sv_good _ Hinv) as Hbq. rewrite Eq in Hbq.
    apply Forall_cons in Hbq as [Hb Hq].
    destruct (reconstructor_step_grows st (sys_entries s) b Ho Hpipe (sv_metrics _ Hinv) Hb)
      as (st' & new & E & Hpipe' & Hm' & _). rewrite E. simpl.
    pose proof (sv_order _ Hinv) as Hord. pose proof (sv_bound _ Hinv) as Hbd.
    rewrite Eq in Hord, Hbd. simpl in Hbd.
    split; simpl; rewrite ?Eq; try apply Hinv; try done.
    + by rewrite <-app_assoc.
    + simpl. lia.
    + intros sub Hsub. by apply sub_inv_app, Hinv.
Qed.

Lemma reconstructor_event_inv s :
  overflow_checks = false → sys_inv s → returns (reconstructor_event s) sys_inv.
Proof.
  intros Ho Hinv. unfold reconstructor_event.
  destruct (sys_recon_phase s); [|by apply reconstructor_receives_inv|done].
  apply (sys_inv_same s); try done; apply Hinv.
Qed.

(** The steps that leave everything but their thread's own state. *)
Lemma sys_inv_refresh s ev :
  sys_inv s → sys_inv (refresh_event url port static ev s).
Proof.
  intros Hinv. unfold refresh_event.
  destruct (sys_refresh_phase s); [by apply (sys_inv_same s); try done; apply Hinv| |done].
  destruct ev as [o| |]; simpl; [|by apply (sys_inv_same s); try done; apply Hinv..].
  destruct (fetch_unioned_destinations _ _ _ _) as [l|e] eqn:E; simpl;
    apply (sys_inv_same s); try done; try apply Hinv. right. eauto.
Qed.

Lemma sys_inv_accessory s ev :
  no_poison → sys_inv s → returns (accessory_event ev s) sys_inv.
Proof.
  intros Hp Hinv. unfold accessory_event.
  destruct (acc_phase _); [by apply (sys_inv_same s); try done; apply Hinv| |done].
  destruct (acc_reporting _).
  { apply (sys_inv_same s); simpl; try done; try apply Hinv. apply reset_wf, Hinv. }
  destruct ev; [rewrite Hp; by apply (sys_inv_same s); try done; apply Hinv|
    |by apply (sys_inv_same s); try done; apply Hinv].
  pose proof (report_received (fwd_metrics (sys_shared s))) as Hr.
  destruct (report _) as [dps m]. destruct Hr as (_ & _ & _ & Hm).
  apply (sys_inv_same s); simpl; try done; try apply Hinv. apply Hm, Hinv.
Qed.

(** ** The run *)

Lemma hb_step_returns st ev :
  overflow_checks = false →
  (∀ exit e, ev = InnerHeartbeat exit (HeartbeatErr e) → status_code e ≠ InvalidArgument) →
  ∃ st', hb_step st ev = Ok st'.
Proof.
  intros Ho Hev. unfold hb_step, hb_outer, hb_beat, hb_metrics, arith. rewrite Ho.
  destruct (hb_pc st), ev as [[] []|[] [ttl|e]|[] n|[]]; simpl; try (by eexists);
    try (rewrite decide_False by (by eapply Hev)); repeat (case_decide; simpl); by eexists.
Qed.

(** The input of the heartbeat machine is one it does not panic on. *)
Lemma heartbeat_event_returns s res sel :
  overflow_checks = false → event_ok (HeartbeatEvent res sel) →
  ∃ hb w, heartbeat_event res sel s = Ok (with_hb hb w s) ∨ heartbeat_event res sel s = Ok s.
Proof.
  intros Ho Hok. unfold heartbeat_event.
  destruct (hb_pc (sys_hb s)); [| |by exists hb_init, false; right].
  - destruct (_ || _); [|eexists _, _; by left].
    destruct (hb_step_returns (sys_hb s) (OuterIter (negb (sys_hb_waiting s)) res) Ho)
      as [hb ->]; [done|]. exists hb, false. by left.
  - destruct (sys_hb_waiting s); [|destruct (sys_exit s); eexists _, _; by left].
    set (hev := match sel with SelHeartbeat _ => _ | _ => _ end).
    destruct (hb_step_returns (sys_hb s) hev Ho) as [hb ->].
    { intros ex e. unfold hev. destruct sel; intros [= ? ->]. exact Hok. }
    exists hb, false. by left.
Qed.

Lemma sys_step_inv s ev :
  overflow_checks = false → no_poison → traces_ok debug → sys_inv s → event_ok ev →
  returns (step s ev) sys_inv.
Proof.
  intros Ho Hp Ht Hinv Hok. destruct ev as [i ev| |ev|ev|sh| |k ok|res sel|w|]; simpl.
  - destruct (sys_forwarders s !! i) as [f|] eqn:Hf; [|done].
    by apply forwarder_event_inv.
  - by apply reconstructor_event_inv.
  - by apply sys_inv_refresh.
  - by apply sys_inv_accessory.
  - unfold server_event. destruct (sys_server_phase s); [|destruct (start_server_thread _)|done];
      apply (sys_inv_same s); try done; apply Hinv.
  - destruct (sys_server s); [|done]. apply (sys_inv_same s); simpl; try done; try apply Hinv.
    intros sub [Hs| ->%list_elem_of_singleton]%elem_of_app; [by apply Hinv|].
    split; unfold client_entries; simpl; [apply prefix_nil|lia].
  - destruct (sys_subs s !! k) as [sub|] eqn:Hk; [|done].
    destruct (sys_server s); [|done]. unfold subscriber_event.
    destruct (sub_ended sub) eqn:He; [done|].
    destruct (recv_entry _ _ _) as [[r next]|] eqn:Hr; [|done].
    apply (sys_inv_same s); simpl; try done; try apply Hinv.
    intros x [j Hj]%list_elem_of_lookup. rewrite list_lookup_insert in Hj. case_decide.
    + simplify_eq. eapply sub_inv_step; eauto. apply Hinv. by eapply list_elem_of_lookup_2.
    + apply Hinv. by eapply list_elem_of_lookup_2.
  - destruct (heartbeat_event_returns s res sel Ho Hok) as (hb & wt & [-> | ->]); [|done].
    apply (sys_inv_same s); simpl; try done; apply Hinv.
  - apply (sys_inv_same s); simpl; try done; try apply Hinv. by rewrite app_nil_r.
  - apply (sys_inv_same s); simpl; try done; apply Hinv.
Qed.

Lemma sys_run_inv s evs :
  overflow_checks = false → no_poison → traces_ok debug → sys_inv s → Forall event_ok evs →
  returns (sys_run reconstruct debug url port static retained s evs) sys_inv.
Proof.
  intros Ho Hp Ht Hinv Hok. rewrite Forall_forall in Hok.
  apply foldM_returns; [done|]. intros s' ev Hev Hinv'. apply sys_step_inv; eauto.
Qed.

Lemma sys_run_reachable ss n w evs s :
  overflow_checks = false → no_poison → traces_ok debug → Forall event_ok evs →
  sys_run reconstruct debug url port static retained
    (sys_init reconstruct discovery static ss n w) evs = Ok s → sys_inv s.
Proof.
  intros Ho Hp Ht Hok Hrun.
  pose proof (sys_run_inv (sys_init reconstruct discovery static ss n w) evs Ho Hp Ht
    (sys_inv_init _ _ _) Hok) as Hi. by rewrite Hrun in Hi.
Qed.

(** ** The packets received *)

(** The packets in the batches that were received. *)
Definition total_received (cs : list Call) : Z :=
  sumZ (λ c, match c with CallDedup b => Z.of_nat (length b) | _ => 0 end) cs.

Lemma total_received_app cs1 cs2 :
  total_received (cs1 ++ cs2) = total_received cs1 + total_received cs2.
Proof. apply sumZ_app. Qed.

Lemma total_received_outgoing cs : Forall outgoing cs → total_received cs = 0.
Proof.
  unfold total_received. induction 1 as [|c cs Hc _ IH]; [done|]. rewrite sumZ_cons, IH.
  by destruct c.
Qed.

(** The two counters of received packets together count all of them. *)
Definition received_inv s : Prop :=
  wrap 64 (load AggReceivedCumulative (fwd_metrics (sys_shared s))
           + load Received (fwd_metrics (sys_shared s)))
  = wrap 64 (total_received (fwd_calls (sys_shared s))).

(** From [sh] to [sh'], [n] packets are received, and counted. *)
Definition receives (n : Z) (sh sh' : Fwd) : Prop :=
  load AggReceivedCumulative (fwd_metrics sh') = load AggReceivedCumulative (fwd_metrics sh) ∧
  load Received (fwd_metrics sh') = wrap 64 (load Received (fwd_metrics sh) + n) ∧
  total_received (fwd_calls sh') = total_received (fwd_calls sh) + n.

Lemma receives_none sh sh' :
  metrics_wf (fwd_metrics sh) →
  (∀ c, packet_counter c → load c (fwd_metrics sh') = load c (fwd_metrics sh)) →
  fwd_calls sh' = fwd_calls sh → receives 0 sh sh'.
Proof.
  intros Hm Hc Ec. unfold receives.
  rewrite Ec, (Hc _ (or_introl eq_refl)), (Hc _ (or_intror eq_refl)).
  split_and!; [done| |lia]. by rewrite Z.add_0_r, wrap_small by apply Hm.
Qed.

Lemma forwarder_step_received sh dests ev sh' dests' r :
  overflow_checks = false → no_poison → traces_ok debug → metrics_wf (fwd_metrics sh) →
  forwarder_step reconstruct debug sh dests ev = Ok (sh', dests', r) → ∃ n, receives n sh sh'.
Proof.
  intros Ho Hp Ht Hm. unfold forwarder_step. destruct ev as [[b|]|l|].
  - destruct (elapsed_micros _) as [e w].
    destruct (forward_spec b dests reconstruct debug
      (with_prom (observe_recv_interval e) (with_world w [] sh)) Ho Hp Ht Hm)
      as (st & cs & E & Ec & _ & _ & _ & _ & Hout & Hl).
    rewrite E. simpl. intros [= <- <- <-]. exists (Z.of_nat (length b)). unfold receives. simpl in *.
    rewrite !Hl by done. rewrite decide_False, decide_True by done.
    rewrite !(sum_deltas _ _ _ 0 0) by done. rewrite !Z.mul_0_l, !Z.add_0_r, wrap_small by apply Hm.
    split; [done|]. split; [done|].
    rewrite Ec, app_nil_r. change (CallDedup b :: cs) with ([CallDedup b] ++ cs).
    rewrite !total_received_app, (total_received_outgoing _ Hout).
    replace (total_received (if reconstruct then [CallReconstruct b] else [])) with 0
      by (by destruct reconstruct).
    unfold total_received at 2. unfold sumZ. simpl. lia.
  - destruct (elapsed_micros _) as [e w]. simpl. intros [= <- <- <-]. exists 0.
    apply receives_none; [done|done|]. simpl. by rewrite app_nil_r.
  - intros [= <- <- <-]. exists 0. by apply receives_none.
  - intros [= <- <- <-]. exists 0. by apply receives_none.
Qed.

Lemma heartbeat_event_shape res sel s s' :
  heartbeat_event res sel s = Ok s' → s' = s ∨ ∃ hb w, s' = with_hb hb w s.
Proof.
  unfold heartbeat_event. destruct (hb_pc (sys_hb s)); [| |intros [= <-]; by left].
  - destruct (_ || _); [|intros [= <-]; right; by eexists _, _].
    intros (hb & _ & [= <-])%bind_Ok. right. by eexists _, _.
  - destruct (sys_hb_waiting s); [|destruct (sys_exit s); intros [= <-]; right; by eexists _, _].
    intros (hb & _ & [= <-])%bind_Ok. right. by eexists _, _.
Qed.

(** Only the accessory thread moves packets from one counter to the other. *)
Lemma sys_step_receives s ev s' :
  overflow_checks = false → no_poison → traces_ok debug → sys_inv s →
  (∀ a, ev ≠ AccessoryEvent a) → step s ev = Ok s' →
  ∃ n, receives n (sys_shared s) (sys_shared s').
Proof.
  intros Ho Hp Ht Hinv Hne. pose proof (sv_metrics _ Hinv) as Hm.
  pose proof (receives_none _ _ Hm (λ _ _, eq_refl) eq_refl) as Hnone.
  destruct ev as [i ev| |ev|ev|sh| |k ok|res sel|w|]; simpl.
  - destruct (sys_forwarders s !! i) as [f|]; [|intros [= <-]; by exists 0].
    unfold forwarder_event. destruct (fwd_phase f); [by intros [= <-]; exists 0| |by intros [= <-]; exists 0].
    intros ([[shared dests] r] & E & [= <-])%bind_Ok. by eapply forwarder_step_received.
  - unfold reconstructor_event.
    destruct (sys_recon_phase s); [by intros [= <-]; exists 0| |by intros [= <-]; exists 0].
    intros ([[st sent] r] & E & [= <-])%bind_Ok. exists 0. apply receives_none; [done| |done].
    intros c Hc. simpl. unfold recv_queue in E. destruct (sys_queue s) as [|b q] eqn:Eq.
    { destruct (forallb _ _); simpl in E; by simplify_eq. }
    simpl in E. apply bind_Ok in E as ([n st1] & E1 & E). simplify_eq/=.
    eapply reconstruct_shreds_load in E1; try done; [by apply with_metrics_wf, (sv_pipe _ Hinv)|].
    pose proof (sv_good _ Hinv) as Hg. rewrite Eq in Hg. by apply Forall_cons in Hg as [? _].
  - intros [= <-]. exists 0. unfold refresh_event.
    destruct (sys_refresh_phase s); [done| |done]. destruct (refresh_step _ _ _ _). exact Hnone.
  - by destruct (Hne ev).
  - intros [= <-]. exists 0. unfold server_event.
    destruct (sys_server_phase s); [done| |done]. destruct (start_server_thread _). exact Hnone.
  - intros [= <-]. exists 0. by destruct (sys_server s).
  - destruct (sys_subs s !! k) as [sub|]; intros [= <-]; exists 0; [|done].
    destruct (sys_server s); [|done]. unfold subscriber_event. destruct (sub_ended sub); [done|].
    by destruct (recv_entry _ _ _) as [[r next]|].
  - intros Hs. exists 0. destruct (heartbeat_event_shape _ _ _ _ Hs) as [->|(hb & wt & ->)]; done.
  - intros [= <-]. exists 0. apply receives_none; [done|done|]. simpl. by rewrite app_nil_r.
  - intros [= <-]. by exists 0.
Qed.

Lemma accessory_event_received s a s' :
  received_inv s → accessory_event a s = Ok s' → received_inv s'.
Proof.
  intros Hr. unfold accessory_event.
  destruct (acc_phase _); [by intros [= <-]| |by intros [= <-]].
  destruct (acc_reporting _).
  { intros [= <-]. unfold received_inv in *. simpl. rewrite reset_received.
    assert (load Received (reset (fwd_metrics (sys_shared s))) = 0) as ->.
    { unfold_reset. by autorewrite with metrics. }
    by rewrite Z.add_0_r, wrap_wrap. }
  destruct a; [case_match; by intros [= <-]| |by intros [= <-]].
  pose proof (report_received (fwd_metrics (sys_shared s))) as Hrep.
  destruct (report _) as [dps m]. destruct Hrep as (_ & E1 & E2 & _). intros [= <-].
  unfold received_inv in *. simpl. by rewrite E1, E2.
Qed.

Lemma sys_step_received s ev s' :
  overflow_checks = false → no_poison → traces_ok debug → sys_inv s → received_inv s →
  step s ev = Ok s' → received_inv s'.
Proof.
  intros Ho Hp Ht Hinv Hr Hs.
  assert ((∃ a, ev = AccessoryEvent a) ∨ ∀ a, ev ≠ AccessoryEvent a) as [[a ->]|Hne]
    by (destruct ev as [| | |a| | | | | |]; try (by right; intros ?); left; by exists a).
  - by eapply accessory_event_received.
  - destruct (sys_step_receives _ _ _ Ho Hp Ht Hinv Hne Hs) as (n & Ea & Er & Ec).
    unfold received_inv in *. rewrite Ea, Er, Ec, wrap_add_r, Z.add_assoc.
    by rewrite <-wrap_add_l, Hr, wrap_add_l.
Qed.

(** What a step leaves as it is: only [ExitSet] sets the flag, no thread is started,
    and a thread's own state changes only in its own steps. *)
Record step_frame s s' (ev : SysEvent) : Prop := {
  fr_exit : ev ≠ ExitSet → sys_exit s' = sys_exit s;
  fr_exit_stays : sys_exit s = true → sys_exit s' = true;
  fr_forwarders : length (sys_forwarders s') = length (sys_forwarders s);
  fr_hb : (∀ res sel, ev ≠ HeartbeatEvent res sel) → sys_hb s' = sys_hb s;
  fr_recon : ev ≠ ReconstructorEvent → sys_recon s' = sys_recon s ∧ sys_entries s' = sys_entries s;
  fr_acc : (∀ a, ev ≠ AccessoryEvent a) → sys_acc s' = sys_acc s;
}.

Lemma forwarder_event_frame s i f ev s' :
  forwarder_event reconstruct debug i f ev s = Ok s' → step_frame s s' (ForwarderEvent i ev).
Proof.
  unfold forwarder_event. destruct (fwd_phase f); [intros [= <-]| |by intros [= <-]].
  - by split; simpl; rewrite ?length_insert.
  - intros ([[? ?] ?] & _ & [= <-])%bind_Ok. by split; simpl; rewrite ?length_insert.
Qed.

Lemma reconstructor_event_frame s s' :
  reconstructor_event s = Ok s' → step_frame s s' ReconstructorEvent.
Proof.
  unfold reconstructor_event. destruct (sys_recon_phase s); [by intros [= <-]| |by intros [= <-]].
  by intros ([[? ?] ?] & _ & [= <-])%bind_Ok.
Qed.

Lemma accessory_event_frame s a s' :
  accessory_event a s = Ok s' → step_frame s s' (AccessoryEvent a).
Proof.
  unfold accessory_event. destruct (acc_phase _); [| |by intros [= <-]].
  - intros [= <-]. split; try done. intros Hne. by destruct (Hne a).
  - intros Hs.
    destruct (acc_reporting _); [|destruct a; [destruct (deduper_poisoned _)|destruct (report _)|]];
      simplify_eq; split; try done; intros Hne; by destruct (Hne a) || by eapply False_ind, Hne.
Qed.

Lemma sys_step_frame s ev s' : step s ev = Ok s' → step_frame s s' ev.
Proof.
  assert (step_frame s s ev) as Hrefl by done.
  destruct ev as [i ev| |ev|ev|sh| |k ok|res sel|w|]; simpl.
  - destruct (sys_forwarders s !! i) as [f|]; [apply forwarder_event_frame|by intros [= <-]].
  - apply reconstructor_event_frame.
  - intros [= <-]. unfold refresh_event.
    destruct (sys_refresh_phase s); [done| |done]. by destruct (refresh_step _ _ _ _).
  - apply accessory_event_frame.
  - intros [= <-]. unfold server_event.
    destruct (sys_server_phase s); [done| |done]. by destruct (start_server_thread _).
  - intros [= <-]. by destruct (sys_server s).
  - destruct (sys_subs s !! k) as [sub|]; intros [= <-]; [|done].
    destruct (sys_server s); [|done]. unfold subscriber_event. destruct (sub_ended sub); [done|].
    by destruct (recv_entry _ _ _) as [[r next]|].
  - intros Hs. destruct (heartbeat_event_shape _ _ _ _ Hs) as [->|(hb & wt & ->)]; [done|].
    split; try done. intros Hne. by destruct (Hne res sel).
  - by intros [= <-].
  - intros [= <-]. by split.
Qed.

(** ** The counter of the heartbeat thread *)

(** Neither thread's metrics tick, and no shutdown token for the heartbeat thread. *)
Definition between_ticks (ev : SysEvent) : Prop :=
  match ev with
  | AccessoryEvent a => a ≠ AccMetricsTick
  | HeartbeatEvent _ sel => sel ≠ SelMetrics ∧ sel ≠ SelShutdown
  | _ => True
  end.

(** No reset is due, and the heartbeat thread is connected, with what it read and
    how often it aborted before. *)
Record connected_at (n : Z) (k : nat) s : Prop := {
  ca_reset : acc_reporting (sys_acc s) = false;
  ca_counter : load AggReceivedCumulative (fwd_metrics (sys_shared s)) = n;
  ca_hb : sys_exit s = false → hb_pc (sys_hb s) = Inner ∧
    last_cumulative_received_shred_count (sys_hb s) = n ∧ aborted (sys_hb s) = k;
}.

Lemma heartbeat_event_connected n k s res sel s' :
  sel ≠ SelMetrics → sel ≠ SelShutdown → connected_at n k s →
  heartbeat_event res sel s = Ok s' → connected_at n k s'.
Proof.
  intros Hm Hs [Hr Hc Hh] He.
  assert (sys_exit s' = sys_exit s ∧ sys_acc s' = sys_acc s ∧ sys_shared s' = sys_shared s)
    as (Ex & Ea & Esh) by (by destruct (heartbeat_event_shape _ _ _ _ He) as [->|(hb & wt & ->)]).
  split; [by rewrite Ea|by rewrite Esh|]. rewrite Ex. intros Hx.
  destruct (Hh Hx) as (Hpc & Hlast & Hab). revert He. unfold heartbeat_event. rewrite Hpc, Hx.
  destruct (sys_hb_waiting s); [|by intros [= <-]].
  destruct sel as [r| |]; [|done..]. unfold hb_step. rewrite Hpc. intros (hb & E & [= <-])%bind_Ok.
  unfold hb_beat in E. destruct r as [ttl|e]; [|case_decide; [done|]];
    apply bind_Ok in E as (x & _ & [= <-]); done.
Qed.

Lemma accessory_event_connected n k s a s' :
  a ≠ AccMetricsTick → connected_at n k s → accessory_event a s = Ok s' → connected_at n k s'.
Proof.
  intros Ha [Hr Hc Hh] He. pose proof (accessory_event_frame _ _ _ He) as [Fx _ _ Fh _ _].
  assert (acc_reporting (sys_acc s') = false ∧ sys_shared s' = sys_shared s) as [Er Es].
  { revert He. unfold accessory_event. rewrite Hr.
    destruct (acc_phase _); [by intros [= <-]| |by intros [= <-]].
    destruct a; [case_match; [done|]|done|]; by intros [= <-]. }
  split; [done|by rewrite Es|]. rewrite Fx, Fh by done. exact Hh.
Qed.

Lemma sys_step_connected n k s ev s' :
  overflow_checks = false → no_poison → traces_ok debug → sys_inv s →
  between_ticks ev → connected_at n k s → step s ev = Ok s' → connected_at n k s'.
Proof.
  intros Ho Hp Ht Hinv Hb Hc E. pose proof (sys_step_frame _ _ _ E) as [_ Fs _ Fh _ Fa].
  assert ((∃ a, ev = AccessoryEvent a) ∨ (∃ res sel, ev = HeartbeatEvent res sel) ∨
    (∀ a, ev ≠ AccessoryEvent a) ∧ (∀ res sel, ev ≠ HeartbeatEvent res sel))
    as [[a ->]|[(res & sel & ->)|[Hna Hnh]]]
    by (destruct ev; eauto; right; right; by split).
  - by eapply accessory_event_connected.
  - destruct Hb. by eapply heartbeat_event_connected.
  - destruct (sys_step_receives _ _ _ Ho Hp Ht Hinv Hna E) as (m & Em & _).
    destruct Hc as [Hr Hl Hh]. split; [by rewrite Fa|congruence|].
    rewrite Fh by done. intros Hx. apply Hh. destruct (sys_exit s); [by rewrite Fs in Hx|done].
Qed.

(** A run between two metrics ticks of the heartbeat thread. *)
Lemma sys_run_connected n k s evs s' :
  overflow_checks = false → no_poison → traces_ok debug → sys_inv s → Forall event_ok evs →
  Forall between_ticks evs → connected_at n k s →
  sys_run reconstruct debug url port static retained s evs = Ok s' → connected_at n k s'.
Proof.
  intros Ho Hp Ht Hinv Hok Hbt Hc Hr. rewrite Forall_forall in Hok, Hbt.
  pose proof (foldM_ensures step (λ s1, sys_inv s1 ∧ connected_at n k s1) s evs) as Hi.
  unfold sys_run in Hr. rewrite Hr in Hi. apply Hi; [done|].
  intros s1 ev Hev [Hinv1 Hc1].
  pose proof (sys_step_inv s1 ev Ho Hp Ht Hinv1 (Hok _ Hev)) as Hi1.
  destruct (step s1 ev) as [s2|] eqn:E; [|done]. simpl in *. split; [done|].
  eapply (sys_step_connected n k s1 ev); eauto.
Qed.

Lemma sys_run_received s evs s' :
  overflow_checks = false → no_poison → traces_ok debug → sys_inv s → received_inv s →
  Forall event_ok evs →
  sys_run reconstruct debug url port static retained s evs = Ok s' → received_inv s'.
Proof.
  intros Ho Hp Ht Hinv Hrec Hok Hr. rewrite Forall_forall in Hok.
  pose proof (foldM_ensures step (λ s1, sys_inv s1 ∧ received_inv s1) s evs) as Hi.
  unfold sys_run in Hr. rewrite Hr in Hi. apply Hi; [done|]. intros s1 ev Hev [Hinv1 Hr1].
  pose proof (sys_step_inv s1 ev Ho Hp Ht Hinv1 (Hok _ Hev)) as Hi1.
  destruct (step s1 ev) as [s2|] eqn:E; [|done]. split; [done|].
  by apply (sys_step_received s1 ev s2).
Qed.

(** ** Promptness *)

Lemma sys_run_prompt complete_at s evs s' :
  overflow_checks = false → no_poison → traces_ok debug → leader_layout good complete_at →
  sys_inv s → prompt_inv good complete_at (sys_recon s) (sys_entries s) → Forall event_ok evs →
  sys_run reconstruct debug url port static retained s evs = Ok s' →
  sys_inv s' ∧ prompt_inv good complete_at (sys_recon s') (sys_entries s').
Proof.
  intros Ho Hp Ht Hlay Hinv Hpr Hok Hr. rewrite Forall_forall in Hok.
  pose proof (foldM_ensures step (λ s1, sys_inv s1 ∧
    prompt_inv good complete_at (sys_recon s1) (sys_entries s1)) s evs) as Hi.
  unfold sys_run in Hr. rewrite Hr in Hi. apply Hi; [done|]. intros s1 ev Hev [Hinv1 Hp1].
  pose proof (sys_step_inv s1 ev Ho Hp Ht Hinv1 (Hok _ Hev)) as Hi1.
  destruct (step s1 ev) as [s2|] eqn:E; [|done]. split; [done|].
  pose proof (fr_recon _ _ _ (sys_step_frame s1 ev s2 E)) as Hframe.
  assert (ev = ReconstructorEvent ∨ ev ≠ ReconstructorEvent) as [->|Hne]
    by (destruct ev; try (by right); by left); [|by destruct (Hframe Hne) as [-> ->]].
  simpl in E. unfold reconstructor_event in E.
  destruct (sys_recon_phase s1); [by simplify_eq| |by simplify_eq].
  assert (iteration_good good (false, recv_queue s1)) as Hg.
  { pose proof (sv_good _ Hinv1) as Hg. unfold recv_queue, iteration_good. simpl.
    destruct (sys_queue s1); [by destruct (forallb _ _)|]. by apply Forall_cons in Hg as [? _]. }
  pose proof (reconstructor_step_prompt good complete_at Hlay _ _ (recv_queue s1) Ho
    (prompt_inv_metrics good complete_at (fwd_metrics (sys_shared s1)) _ _ Hp1) Hg) as Hstep.
  apply bind_Ok in E as ([[st sent] b] & E1 & E2). rewrite E1 in Hstep.
  injection E2 as <-. exact Hstep.
Qed.

(** ** Progress *)

(** A batch that arrives while the channel is empty goes into it. *)
Lemma forwarder_takes s i f b :
  overflow_checks = false → no_poison → traces_ok debug → sys_inv s → reconstruct = true →
  sys_forwarders s !! i = Some f → fwd_phase f = Waiting →
  sys_recon_running s = true → sys_queue s = [] →
  ∃ sh f', metrics_wf (fwd_metrics sh) ∧
    step s (ForwarderEvent i (InPackets (Some b)))
    = Ok (with_forwarder i f' (with_queue [b] (with_shared sh s))).
Proof.
  intros Ho Hp Ht Hinv Hrec Hf Hw Hrr Hq. simpl. rewrite Hf.
  unfold forwarder_event, forwarder_receives. rewrite Hw.
  destruct (forwarder_step_calls (sys_shared s) (local_dest_sockets f) (FwdPackets (Some b))
    Ho Hp Ht (sv_metrics _ Hinv)) as (sh & d & r & cs & -> & Hm & Ec & _ & Eo & _).
  simpl. rewrite Ec, drop_app_length, Eo, Hrec, Hrr, Hq.
  exists sh, (mkForwarder d (body_done r)). split; [done|]. reflexivity.
Qed.

(** The reconstructor takes it and broadcasts what it decodes to. *)
Lemma reconstructor_takes s b q :
  overflow_checks = false → sys_inv s → sys_recon_phase s = Waiting → sys_queue s = b :: q →
  let st := with_metrics (fwd_metrics (sys_shared s)) (sys_recon s) in
  ∃ s' n st1, step s ReconstructorEvent = Ok s' ∧ reconstruct_shreds b st = Ok (n, st1) ∧
    sys_entries s' = sys_entries s ++ (to_pb <$> deshredded_entries st1) ∧
    sys_subs s' = sys_subs s ∧ sys_server_phase s' = sys_server_phase s.
Proof.
  intros Ho Hinv Hw Hq st. simpl. unfold reconstructor_event, reconstructor_receives. rewrite Hw.
  unfold recv_queue. rewrite Hq. fold st.
  assert (pipeline_inv good st (sys_entries s)) as Hpipe.
  { destruct (sv_pipe _ Hinv). split; [by apply with_metrics_wf|done|done]. }
  pose proof (sv_good _ Hinv) as Hbq. rewrite Hq in Hbq. apply Forall_cons in Hbq as [Hb _].
  destruct (reconstructor_step_grows st (sys_entries s) b Ho Hpipe (sv_metrics _ Hinv) Hb)
    as (st' & new & E & _ & _ & n & st1 & E1 & ->). rewrite E. simpl.
  eexists _, n, st1. done.
Qed.

(** A subscriber that is not too far behind takes the next entries, one by one. *)
Lemma subscriber_catches_up s k sub m :
  sys_server s = true → sys_subs s !! k = Some sub → sub_ended sub = false →
  sub_inv (sys_entries s) sub → (length (sys_entries s) ≤ sub_next sub + retained)%nat →
  (sub_next sub + m ≤ length (sys_entries s))%nat →
  ∃ s' sub', sys_run reconstruct debug url port static retained s
               (replicate m (SubscriberEvent k true)) = Ok s' ∧
    sys_subs s' !! k = Some sub' ∧
    client_entries sub' = take (sub_next sub + m - sub_first sub) (drop (sub_first sub) (sys_entries s)).
Proof.
  revert s sub. induction m as [|m IH]; intros s sub Hsrv Hk He Hok Hret Hm.
  { exists s, sub. split; [done|]. split; [done|]. destruct Hok as [[rest Hs] Hn].
    destruct (Hn He) as [Hnext _]. rewrite Hs, take_app_length'; [done|lia]. }
  destruct (lookup_lt_is_Some_2 (sys_entries s) (sub_next sub)) as [e He']; [lia|].
  set (sub1 := mkSubscriber (sub_first sub) (S (sub_next sub)) (sub_its sub ++ [(BroadcastOk e, true)])).
  assert (recv_entry retained (sys_entries s) (sub_next sub)
          = Some (BroadcastOk e, S (sub_next sub))) as Hr.
  { unfold recv_entry. rewrite decide_False by lia. by rewrite He'. }
  set (s1 := with_server (sys_server_phase s) (<[k := sub1]> (sys_subs s)) s).
  assert (step s (SubscriberEvent k true) = Ok s1) as Hs1.
  { simpl. rewrite Hk, Hsrv. unfold subscriber_event. by rewrite He, Hr. }
  destruct (IH s1 sub1) as (s' & sub' & E & Hk' & Hc); simpl; try done; try lia.
  - apply list_lookup_insert_eq. by eapply lookup_lt_Some.
  - unfold sub_ended, sub1. simpl. by rewrite subscribe_entries_snoc.
  - by eapply sub_inv_step.
  - exists s', sub'. split; [|split; [done|]].
    + cbn [replicate]. unfold sys_run in *. cbn [foldM]. rewrite Hs1. exact E.
    + rewrite Hc. simpl. f_equal. lia.
Qed.

(** So it is sent what the reconstructor has just broadcast. *)
Lemma subscriber_is_sent s s1 k sub new e :
  sys_inv s → sys_entries s1 = sys_entries s ++ new → e ∈ new → sys_subs s1 = sys_subs s →
  sys_server s1 = true → sys_subs s !! k = Some sub → sub_ended sub = false →
  (length (sys_entries s1) ≤ sub_next sub + retained)%nat →
  ∃ s2 sub', sys_run reconstruct debug url port static retained s1
      (replicate (length (sys_entries s1) - sub_next sub) (SubscriberEvent k true)) = Ok s2 ∧
    sys_subs s2 !! k = Some sub' ∧ e ∈ client_entries sub'.
Proof.
  intros Hinv Ee Hnew Esub Hsrv Hk Hend Hret.
  pose proof (sv_subs _ Hinv sub (list_elem_of_lookup_2 _ _ _ Hk)) as Hsub.
  assert (sub_inv (sys_entries s1) sub) as Hsub1 by (rewrite Ee; by apply sub_inv_app).
  destruct (so_next _ _ Hsub Hend) as [Hnext Hle].
  assert (length (sys_entries s) ≤ length (sys_entries s1))%nat as Hgrow
    by (rewrite Ee, length_app; lia).
  destruct (subscriber_catches_up s1 k sub (length (sys_entries s1) - sub_next sub))
    as (s2 & sub' & E3 & Hk2 & Hc); try done; try lia; [by rewrite Esub|].
  exists s2, sub'. split; [done|]. split; [done|].
  rewrite Hc, take_ge by (rewrite length_drop; lia).
  rewrite Ee, drop_app_le by lia. apply elem_of_app. by right.
Qed.

(** ** After the exit flag is set *)

(** The threads, and the one an event is a step of. *)
Inductive Thread :=
  ForwarderT (i : nat) | ReconstructorT | RefreshT | AccessoryT | HeartbeatT | ServerT.
#[export] Instance Thread_eq_dec : EqDecision Thread.
Proof. solve_decision. Defined.

Definition thread_of (ev : SysEvent) : option Thread :=
  match ev with
  | ForwarderEvent i _ => Some (ForwarderT i)
  | ReconstructorEvent => Some ReconstructorT
  | RefreshEv _ => Some RefreshT
  | AccessoryEvent _ => Some AccessoryT
  | HeartbeatEvent _ _ => Some HeartbeatT
  | ServerEvent _ => Some ServerT
  | _ => None
  end.

(** How many more steps a thread makes at most once the exit flag is set: what it
    is in the middle of, and the check that sees the flag. *)
Definition phase_left (ph : Phase) : nat :=
  match ph with AtCheck => 1 | Waiting => 2 | Ended => 0 end.
Definition steps_left (t : Thread) s : nat :=
  match t with
  | ForwarderT i => match sys_forwarders s !! i with Some f => phase_left (fwd_phase f) | None => 0 end
  | ReconstructorT => phase_left (sys_recon_phase s)
  | RefreshT => phase_left (sys_refresh_phase s)
  | AccessoryT =>
      match acc_phase (sys_acc s) with
      | AtCheck => 1
      | Waiting => if acc_reporting (sys_acc s) then 2 else 3
      | Ended => 0
      end
  | HeartbeatT =>
      match hb_pc (sys_hb s) with
      | Outer => if sys_hb_waiting s then 3 else 1
      | Inner => if sys_hb_waiting s then 3 else 2
      | Finished => 0
      end
  | ServerT => phase_left (sys_server_phase s)
  end.

Definition made_by (t : Thread) (evs : list SysEvent) : nat :=
  length (filter (λ ev, thread_of ev = Some t) evs).

(** Whether a thread is where it may still receive something. *)
Definition waits (ph : Phase) : nat := if decide (ph = Waiting) then 1 else 0.
Definition waiting_forwarders s : nat := sum_list_with (λ f, waits (fwd_phase f)) (sys_forwarders s).
Definition waiting_reconstructor s : nat := waits (sys_recon_phase s).

(** From [s] to [s'] no thread begins to wait, each waiting forwarder thread
    receives at most one batch, and a waiting reconstructor takes at most one. *)
Record winding_down s s' : Prop := {
  wd_exit : sys_exit s' = true;
  wd_calls : ∃ cs, fwd_calls (sys_shared s') = fwd_calls (sys_shared s) ++ cs ∧
    (length (batches_received cs) + waiting_forwarders s' ≤ waiting_forwarders s)%nat ∧
    (waiting_forwarders s = 0%nat → cs = []);
  wd_taken : ∃ bs, sys_taken s' = sys_taken s ++ bs ∧
    (length bs + waiting_reconstructor s' ≤ waiting_reconstructor s)%nat;
  wd_entries : waiting_reconstructor s = 0%nat → sys_entries s' = sys_entries s;
}.

Lemma winding_down_trans s1 s2 s3 :
  winding_down s1 s2 → winding_down s2 s3 → winding_down s1 s3.
Proof.
  intros [_ (c1 & E1 & L1 & Z1) (b1 & F1 & M1) G1] [? (c2 & E2 & L2 & Z2) (b2 & F2 & M2) G2].
  split; [done| | |].
  - exists (c1 ++ c2). rewrite E2, E1, app_assoc, batches_received_app, length_app.
    split_and!; [done|lia|]. intros Hz. rewrite (Z1 Hz), (Z2 ltac:(lia)). done.
  - exists (b1 ++ b2). rewrite F2, F1, app_assoc, length_app. split; [done|lia].
  - intros Hz. rewrite G2 by lia. by apply G1.
Qed.

(** A step of a thread that receives nothing. *)
Lemma winding_down_same s s' :
  sys_exit s' = true → fwd_calls (sys_shared s') = fwd_calls (sys_shared s) →
  (waiting_forwarders s' ≤ waiting_forwarders s)%nat → sys_taken s' = sys_taken s →
  (waiting_reconstructor s' ≤ waiting_reconstructor s)%nat → sys_entries s' = sys_entries s →
  winding_down s s'.
Proof.
  intros He Ec Hw Et Hr Ee. split; [done| | |done].
  - exists []. rewrite app_nil_r. split_and!; [done|simpl; lia|done].
  - exists []. rewrite app_nil_r. split; [done|simpl; lia].
Qed.

Lemma sum_list_with_insert {A} (g : A → nat) (l : list A) i x y :
  l !! i = Some x →
  (sum_list_with g (<[i := y]> l) + g x = sum_list_with g l + g y)%nat.
Proof.
  revert i. induction l as [|z l IH]; intros [|i]; simpl; intros Hx; simplify_eq; [lia|].
  specialize (IH _ Hx). lia.
Qed.

Lemma phase_left_done r : (phase_left (body_done r) ≤ 1)%nat ∧ waits (body_done r) = 0%nat.
Proof. destruct r; vm_compute; lia. Qed.

(** One step: of the forwarder threads, of the reconstructor, of the others. *)
Definition steps_down s s' (ev : SysEvent) : Prop :=
  winding_down s s' ∧ ∀ t, (steps_left t s' ≤ steps_left t s - made_by t [ev])%nat.

Lemma made_by_one t ev : made_by t [ev] = if decide (thread_of ev = Some t) then 1%nat else 0%nat.
Proof. unfold made_by. by rewrite filter_cons, filter_nil; case_decide. Qed.

Lemma forwarder_steps_down s i f ev s' :
  overflow_checks = false → no_poison → traces_ok debug → sys_inv s → sys_exit s = true →
  sys_forwarders s !! i = Some f → forwarder_event reconstruct debug i f ev s = Ok s' →
  steps_down s s' (ForwarderEvent i ev).
Proof.
  intros Ho Hp Ht Hinv He Hf. unfold forwarder_event.
  pose proof (lookup_lt_Some _ _ _ Hf) as Hi.
  assert (∀ f', (phase_left (fwd_phase f') ≤ phase_left (fwd_phase f) - 1)%nat →
    ∀ s', sys_forwarders s' = <[i := f']> (sys_forwarders s) →
    (∀ t, (∀ j, t ≠ ForwarderT j) → steps_left t s' = steps_left t s) →
    ∀ t, (steps_left t s' ≤ steps_left t s - made_by t [ForwarderEvent i ev])%nat) as Hsteps.
  { intros f' Hl s1 Ef Hother t. rewrite made_by_one. simpl.
    destruct t as [j| | | | |]; [|by rewrite Hother by done; case_decide; [|lia]..].
    simpl. rewrite Ef. case_decide; simplify_eq.
    - by rewrite list_lookup_insert_eq, Hf.
    - rewrite list_lookup_insert_ne by congruence. lia. }
  assert (∀ f', waits (fwd_phase f') = 0%nat → ∀ s', sys_forwarders s' = <[i := f']> (sys_forwarders s) →
    (waiting_forwarders s' + waits (fwd_phase f) = waiting_forwarders s)%nat) as Hwait.
  { intros f' Hw s1 Ef. unfold waiting_forwarders. rewrite Ef.
    pose proof (sum_list_with_insert (λ f, waits (fwd_phase f)) _ i f f' Hf). simpl in *. lia. }
  destruct (fwd_phase f) eqn:Hph; [| |].
  - rewrite He. intros [= <-]. split.
    + apply winding_down_same; try done. specialize (Hwait (mkForwarder (local_dest_sockets f) Ended)
        eq_refl (with_forwarder i (mkForwarder (local_dest_sockets f) Ended) s) eq_refl). simpl in *. lia.
    + by eapply Hsteps; [|done|intros [] ?; naive_solver].
  - unfold forwarder_receives. set (fev := match ev with InPackets b => FwdPackets b | _ => _ end).
    destruct (forwarder_step_calls (sys_shared s) (local_dest_sockets f) fev Ho Hp Ht (sv_metrics _ Hinv))
      as (sh' & dests' & r & cs & -> & Hm & Ec & Ed & Hcs). simpl. intros [= <-].
    destruct (phase_left_done r) as [Hl Hw0].
    set (f' := mkForwarder dests' (body_done r)). split.
    + split; [done| |by exists []; rewrite app_nil_r|done].
      pose proof (Hwait f' Hw0 (with_forwarder i f' s) eq_refl) as Hn.
      exists cs. split; [exact Ec|]. change (waits Waiting) with 1%nat in Hn. split; [|lia].
      change (length (batches_received cs) + waiting_forwarders (with_forwarder i f' s)
              ≤ waiting_forwarders s)%nat.
      assert (length (batches_received cs) ≤ 1)%nat; [|lia].
      destruct fev as [[b|]| |]; [destruct Hcs as (_ & _ & -> & _)|subst cs..]; simpl; lia.
    + eapply Hsteps; [|done|intros [] ?; naive_solver]. simpl. lia.
  - intros [= <-]. split; [by apply winding_down_same|]. intros t. rewrite made_by_one. simpl.
    case_decide; simplify_eq; simpl; rewrite ?Hf, ?Hph; simpl; lia.
Qed.

Lemma reconstructor_steps_down s s' :
  sys_exit s = true → reconstructor_event s = Ok s' → steps_down s s' ReconstructorEvent.
Proof.
  intros He. unfold reconstructor_event.
  assert (∀ s', sys_forwarders s' = sys_forwarders s → (phase_left (sys_recon_phase s') ≤
      phase_left (sys_recon_phase s) - 1)%nat →
    (∀ t, t ≠ ReconstructorT → steps_left t s' = steps_left t s) →
    ∀ t, (steps_left t s' ≤ steps_left t s - made_by t [ReconstructorEvent])%nat) as Hsteps.
  { intros s1 _ Hl Hother t. rewrite made_by_one. simpl.
    destruct t; try (rewrite Hother by done; case_decide; [done|lia]). by case_decide. }
  destruct (sys_recon_phase s) eqn:Hph.
  - rewrite He. intros [= <-]. split.
    + apply winding_down_same; try done. unfold waiting_reconstructor. simpl. by rewrite Hph.
    + apply Hsteps; [done|simpl; lia|intros [] ?; done].
  - unfold reconstructor_receives. intros ([[st sent] r] & _ & [= <-])%bind_Ok.
    destruct (phase_left_done r) as [Hl Hw0]. split.
    + split; [done|exists []; rewrite app_nil_r; split_and!; [done|reflexivity|done]| |].
      * eexists. split; [done|]. unfold waiting_reconstructor. simpl. rewrite Hw0, Hph.
        change (waits Waiting) with 1%nat. rewrite Nat.add_0_r. destruct (recv_queue s); simpl; lia.
      * unfold waiting_reconstructor. by rewrite Hph.
    + apply Hsteps; [done|simpl; lia|intros [] ?; done].
  - intros [= <-]. split; [by apply winding_down_same|]. apply Hsteps; [done|by rewrite Hph|done].
Qed.

Lemma accessory_steps_down s a s' :
  sys_exit s = true → accessory_event a s = Ok s' → steps_down s s' (AccessoryEvent a).
Proof.
  intros He Hs.
  assert (winding_down s s' ∧ (steps_left AccessoryT s' ≤ steps_left AccessoryT s - 1)%nat ∧
    ∀ t, t ≠ AccessoryT → steps_left t s' = steps_left t s) as (Hw & Hl & Hother).
  { revert Hs. unfold accessory_event. simpl. rewrite He.
    destruct (acc_phase (sys_acc s)) eqn:Hph; [|destruct (acc_reporting (sys_acc s))|].
    - intros [= <-]. split_and!; [by apply winding_down_same|simpl; lia|by intros []].
    - intros [= <-]. split_and!; [by apply winding_down_same|simpl; lia|by intros []].
    - destruct a; [destruct (deduper_poisoned _); [done|]|destruct (report _)|]; intros [= <-];
        (split_and!; [by apply winding_down_same|simpl; lia|by intros []]).
    - intros [= <-]. split_and!; [by apply winding_down_same|rewrite Hph; lia|done]. }
  split; [done|]. intros t. rewrite made_by_one. simpl. case_decide; simplify_eq; [done|].
  rewrite Hother by congruence. lia.
Qed.

(** The rest of the threads: they receive no shreds. *)
Lemma other_steps_down s t s' ev :
  thread_of ev = Some t → winding_down s s' → (steps_left t s' ≤ steps_left t s - 1)%nat →
  (∀ t', t' ≠ t → steps_left t' s' = steps_left t' s) → steps_down s s' ev.
Proof.
  intros Hev Hw Hl Hother. split; [done|]. intros t'. rewrite made_by_one, Hev.
  case_decide; simplify_eq; [done|]. rewrite Hother by congruence. lia.
Qed.

Lemma heartbeat_steps_down s res sel s' :
  sys_exit s = true → heartbeat_event res sel s = Ok s' → steps_down s s' (HeartbeatEvent res sel).
Proof.
  intros He Hs.
  assert (winding_down s s' ∧ ∀ t, t ≠ HeartbeatT → steps_left t s' = steps_left t s) as [Hw Hother].
  { destruct (heartbeat_event_shape _ _ _ _ Hs) as [->|(hb & w & ->)];
      (split; [by apply winding_down_same|by intros []]). }
  apply (other_steps_down s HeartbeatT); try done. revert Hs.
  unfold heartbeat_event. simpl. rewrite He. destruct (hb_pc (sys_hb s)) eqn:Hpc.
  - rewrite orb_true_r. destruct (sys_hb_waiting s).
    + intros (hb & _ & [= <-])%bind_Ok. simpl. destruct (hb_pc hb); simpl; lia.
    + unfold hb_step. rewrite Hpc. by intros [= <-].
  - destruct (sys_hb_waiting s); [|by intros [= <-]].
    intros (hb & _ & [= <-])%bind_Ok. simpl. destruct (hb_pc hb); simpl; lia.
  - intros [= <-]. by rewrite Hpc.
Qed.

Lemma exit_step s ev s' :
  overflow_checks = false → no_poison → traces_ok debug → sys_inv s → sys_exit s = true →
  step s ev = Ok s' → steps_down s s' ev.
Proof.
  intros Ho Hp Ht Hinv He.
  assert (winding_down s s) as Hrefl by by apply winding_down_same.
  assert (∀ ev s', thread_of ev = None → winding_down s s' →
    (∀ t, steps_left t s' = steps_left t s) → steps_down s s' ev) as Hnone.
  { intros ev' s1 Hev Hw Hl. split; [done|]. intros t. by rewrite made_by_one, Hev, Hl, Nat.sub_0_r. }
  destruct ev as [i ev| |ev|ev|sh| |k ok|res sel|w|]; simpl.
  - destruct (sys_forwarders s !! i) as [f|] eqn:Hf; [by apply forwarder_steps_down|].
    intros [= <-]. apply (other_steps_down s (ForwarderT i)); try done. simpl. by rewrite Hf.
  - by apply reconstructor_steps_down.
  - intros [= <-]. unfold refresh_event.
    destruct (sys_refresh_phase s) eqn:Hph;
      [rewrite He|destruct (refresh_step _ _ _ _) as [x r]|];
      (apply (other_steps_down s RefreshT); [done|by apply winding_down_same| |by intros []]);
      simpl; rewrite Hph; simpl; try lia; apply phase_left_done.
  - by apply accessory_steps_down.
  - intros [= <-]. unfold server_event.
    destruct (sys_server_phase s) eqn:Hph;
      [rewrite He|destruct (start_server_thread _) as [x r]|];
      (apply (other_steps_down s ServerT); [done|by apply winding_down_same| |by intros []]);
      simpl; rewrite Hph; simpl; try lia; apply phase_left_done.
  - intros [= <-]. apply Hnone; [done| |]; destruct (sys_server s); try done;
      first [by apply winding_down_same|by intros []].
  - destruct (sys_subs s !! k) as [sub|]; intros [= <-]; apply Hnone; try done;
      destruct (sys_server s); try done; unfold subscriber_event; destruct (sub_ended sub); try done;
      destruct (recv_entry _ _ _) as [[r next]|]; try done;
      first [by apply winding_down_same|by intros []].
  - by apply heartbeat_steps_down.
  - intros [= <-]. apply Hnone; [done| |by intros []]. apply winding_down_same; try done.
    simpl. by rewrite app_nil_r.
  - intros [= <-]. apply Hnone; [done|by apply winding_down_same|by intros []].
Qed.

Lemma made_by_cons t ev evs : made_by t (ev :: evs) = (made_by t [ev] + made_by t evs)%nat.
Proof. unfold made_by. rewrite !filter_cons, filter_nil. case_decide; simpl; lia. Qed.

Lemma exit_run s evs :
  overflow_checks = false → no_poison → traces_ok debug → sys_inv s → Forall event_ok evs →
  sys_exit s = true →
  ∃ s', sys_run reconstruct debug url port static retained s evs = Ok s' ∧ sys_inv s' ∧
    winding_down s s' ∧ ∀ t, (steps_left t s' ≤ steps_left t s - made_by t evs)%nat.
Proof.
  intros Ho Hp Ht Hinv Hok. revert s Hinv.
  induction Hok as [|ev evs Hev _ IH]; intros s Hinv He.
  { exists s. split; [done|]. split; [done|]. split; [by apply winding_down_same|].
    intros t. unfold made_by. simpl. lia. }
  pose proof (sys_step_inv s ev Ho Hp Ht Hinv Hev) as Hinv1.
  destruct (step s ev) as [s1|] eqn:E; [|done]. simpl in Hinv1.
  destruct (exit_step s ev s1 Ho Hp Ht Hinv He E) as [Hw Hs].
  destruct (IH s1 Hinv1 (wd_exit _ _ Hw)) as (s' & E' & Hinv' & Hw' & Hs'). exists s'. split.
  { unfold sys_run in *. cbn [foldM]. rewrite E. exact E'. }
  split; [done|]. split; [by eapply winding_down_trans|]. intros t. rewrite made_by_cons.
  specialize (Hs t). specialize (Hs' t). lia.
Qed.

Lemma steps_left_le t s : (steps_left t s ≤ 3)%nat.
Proof.
  assert (∀ ph, phase_left ph ≤ 3)%nat as Hph by (intros []; simpl; lia).
  destruct t; simpl; try apply Hph; repeat case_match; try apply Hph; lia.
Qed.
End invariant.
