(* ===== verification/SystemTheorems.v ===== *)
(** The properties of the whole proxy, with runs of the concrete instance. *)

From Stdlib Require Import Strings.Byte.
From S2P Require Import Prelude Net Metrics Shreds Tracker FecSet Packets Deshred DeshredInv.
From S2P Require Import Delivery Complete Recovery Erasure Prompt Toy ToyRuns ToyErasure.
From S2P Require Import Prom Errors Forwarder ForwarderProofs Reconstructor Destinations.
From S2P Require Import ForwardThreads Server Heartbeat Main System SystemProofs.

Section theorems.
Context `{ShredLib} `{ForwardLib} `{BuildProfile}.
Context `{!ShredLibLaws} `{!PacketLibLaws} `{!ForwardLaws}.
Context (good : Shred → Prop) `{!GoodShreds good}.

(** C5: whatever the threads and the outside do, in any order, as long as packets
    parse to good shreds if at all, the block engine answers no heartbeat with
    InvalidArgument, the creation times of trace shreds can be represented (when
    they are logged) and the deduper's lock is not poisoned, no thread panics and:
    every entry broadcast decodes from one run of consecutive data shreds, and no
    data shred goes into two; the reconstructor gets some of the batches offered to it, in order, at
    most 1024 of them waiting; every packet sent out is a payload of a received
    batch, and goes to a destination that was given at the start or fetched; and
    every client was sent a piece of the broadcast entries without a gap. *)
Theorem proxy_invariant reconstruct debug discovery shredstream url port static retained n w evs :
  overflow_checks = false → no_poison → traces_ok debug → Forall (event_ok good) evs →
  returns (sys_run reconstruct debug url port static retained
             (sys_init reconstruct discovery static shredstream n w) evs) (λ s,
    (∃ es, sys_entries s = to_pb <$> es ∧
           Forall2 (delivery_ok good) (omap decoded_of (log (sys_recon s))) es) ∧
    disjoint_deliveries (omap decoded_of (log (sys_recon s))) ∧
    sys_taken s ++ sys_queue s `sublist_of` offered (fwd_calls (sys_shared s)) ∧
    (length (sys_queue s) ≤ RECONSTRUCT_CHANNEL)%nat ∧
    (∀ pkts, pkts ∈ sends (fwd_calls (sys_shared s)) →
             send_ok url port static (fwd_calls (sys_shared s)) pkts) ∧
    ∀ sub, sub ∈ sys_subs s →
      client_entries sub `prefix_of` drop (sub_first sub) (sys_entries s)).
Proof.
  intros Ho Hp Ht Hok. eapply returns_mono.
  - by apply (sys_run_inv good); [done..|apply sys_inv_init|].
  - intros s [_ [_ [_ Hdis] Hes] Hord Hbd _ _ _ Hsend Hsub]. split_and!; try done.
    intros sub Hs. by apply Hsub.
Qed.

(** C3: no complete segment is ever held back.  When the shreds that parse agree
    with the layout of their leader, in every state the proxy reaches, however its
    threads interleave and whatever arrived, was recovered or was dropped in
    whatever order: if a slot holds all data shreds of a segment and they decode,
    the segment has been broadcast (or, when its first shreds came late and the
    rest decoded without them, that rest). *)
Theorem no_segment_held_back complete_at reconstruct debug discovery shredstream url port static
    retained n w evs s slot a b ds p es :
  overflow_checks = false → no_poison → traces_ok debug → leader_layout good complete_at →
  Forall (event_ok good) evs →
  sys_run reconstruct debug url port static retained
    (sys_init reconstruct discovery static shredstream n w) evs = Ok s →
  layout_segment complete_at slot a b → segment_shreds (slot_entry slot (sys_recon s)).2 a b ds →
  deshred (payload <$> ds) = Some p → bincode_deserialize p = Some es →
  ∃ k p', (k < length ds)%nat ∧ deshred (payload <$> drop k ds) = Some p' ∧
    is_Some (bincode_deserialize p') ∧ mkPbEntry slot p' ∈ sys_entries s.
Proof.
  intros Ho Hp Ht Hlay Hok Hrun Hseg Hds Hpay Hes.
  destruct (sys_run_prompt good reconstruct debug url port static retained complete_at
    (sys_init reconstruct discovery static shredstream n w) evs s Ho Hp Ht Hlay
    (sys_inv_init _ _ _ _ _ _ _ _ _) (prompt_inv_init good complete_at _) Hok Hrun) as [_ Hpr].
  by eapply prompt_broadcast.
Qed.

(** C6: within the assumptions of C5, a FEC set that reaches the proxy with shreds
    missing still reaches the subscribers, if it is one whole segment (the last of
    its [n] data shreds and no other completes it; a set that ends elsewhere is not
    covered; [n] fits the header's [u16]) and decodes.  In any state the proxy reaches in which a forwarder thread waits for packets, the
    reconstructor waits with an empty channel, and of the slot, which is within
    the lookback window, nothing is tracked but fewer than [n] shreds of its first
    set: when a batch arrives at the thread that brings the number of the set's
    shreds to [n], whichever they are, and neither contradicts the set nor moves
    the window past the slot, and the reconstructor then gets its turn, the
    payload of the set is broadcast; and a subscriber who was connected before,
    and whom the channel does not drop, is sent it within its next turns.  Of
    [merkle::recover] it uses that it is an erasure code on the set. *)
Theorem lossy_set_reaches_subscriber debug discovery shredstream url port static retained n w evs s
    i f b slot m ds cs p es :
  overflow_checks = false → no_poison → traces_ok debug → Forall (event_ok good) evs →
  sys_run true debug url port static retained (sys_init true discovery static shredstream n w) evs = Ok s →
  sys_forwarders s !! i = Some f → fwd_phase f = Waiting →
  sys_recon_phase s = Waiting → sys_queue s = [] →
  fec_block good slot m ds cs → erasure_code ds cs → set_arrives good (sys_recon s) b slot ds cs →
  deshred (payload <$> ds) = Some p → bincode_deserialize p = Some es →
  ∃ s1, sys_run true debug url port static retained s
          [ForwarderEvent i (InPackets (Some b)); ReconstructorEvent] = Ok s1 ∧
    mkPbEntry slot p ∈ sys_entries s1 ∧
    ∀ k sub, sys_server s = true → sys_subs s !! k = Some sub → sub_ended sub = false →
      (length (sys_entries s1) ≤ sub_next sub + retained)%nat →
      ∃ s2 sub', sys_run true debug url port static retained s1
          (replicate (length (sys_entries s1) - sub_next sub) (SubscriberEvent k true)) = Ok s2 ∧
        sys_subs s2 !! k = Some sub' ∧ mkPbEntry slot p ∈ client_entries sub'.
Proof.
  intros Ho Hp Ht Hok Hrun Hf Hfw Hrw Hq Hbl Hec Harr Hpay Hes.
  pose proof (sys_run_reachable good _ _ _ _ _ _ _ _ _ _ _ _ Ho Hp Ht Hok Hrun) as Hinv.
  destruct (forwarder_takes good true debug url port static retained s i f b)
    as (sh & f' & Hm & E1); try done.
  { unfold sys_recon_running. by rewrite Hrw. }
  set (sa := with_forwarder i f' (with_queue [b] (with_shared sh s))) in *.
  pose proof (sys_step_inv good true debug url port static retained s
    (ForwarderEvent i (InPackets (Some b))) Ho Hp Ht Hinv (sa_good _ _ _ _ _ _ Harr)) as Hinva.
  rewrite E1 in Hinva.
  destruct (reconstructor_takes good true debug url port static retained sa b [] Ho Hinva Hrw eq_refl)
    as (s1 & k1 & st1 & E2 & Er & Ee & Esub & Esrv).
  assert (mkPbEntry slot p ∈ to_pb <$> deshredded_entries st1) as Hnew.
  { apply list_elem_of_fmap. exists (slot, es, p). split; [done|].
    assert (set_arrives good (with_metrics (fwd_metrics sh) (sys_recon s)) b slot ds cs)
      as Harr' by (by destruct Harr).
    assert (recon_wf good (with_metrics (fwd_metrics sh) (sys_recon s))) as Hw
      by (apply with_metrics_wf, (sv_pipe _ _ _ _ _ Hinv)).
    pose proof (block_delivered good b (with_metrics (fwd_metrics sh) (sys_recon s))
      slot m ds cs p es Ho Hw Hbl Hec Harr' Hpay Hes) as Hd.
    simpl in Er. by rewrite Er in Hd. }
  exists s1. split; [|split].
  - unfold sys_run. cbn [foldM]. rewrite E1. cbn [mbind outcome_bind]. by rewrite E2.
  - rewrite Ee. apply elem_of_app. by right.
  - intros k sub Hsrv Hk Hend Hret.
    eapply (subscriber_is_sent good); eauto. unfold sys_server. by rewrite Esrv.
Qed.

(** C25: the heartbeat thread takes "no shreds received" from the counter that only
    the reset of the accessory thread moves.  Within the assumptions of C5, if the
    heartbeat thread is connected, last read the counter's present value, and is
    not shut down, and the accessory thread has no reset under way and reports no
    metrics until the heartbeat thread's next metrics tick, that tick drops the
    connection, however many packets the forwarders have received meanwhile, and
    however many heartbeats were sent, answered or not. *)
Theorem heartbeat_misses_traffic reconstruct debug discovery shredstream url port static retained
    n w evs s evs' s' res :
  overflow_checks = false → no_poison → traces_ok debug → Forall (event_ok good) (evs ++ evs') →
  sys_run reconstruct debug url port static retained
    (sys_init reconstruct discovery static shredstream n w) evs = Ok s →
  hb_pc (sys_hb s) = Inner →
  last_cumulative_received_shred_count (sys_hb s)
    = load AggReceivedCumulative (fwd_metrics (sys_shared s)) →
  acc_reporting (sys_acc s) = false → Forall between_ticks evs' →
  sys_run reconstruct debug url port static retained s evs' = Ok s' →
  sys_exit s' = false → sys_hb_waiting s' = true →
  ∃ s2 lg, sys_step reconstruct debug url port static retained s' (HeartbeatEvent res SelMetrics) = Ok s2 ∧
    hb_pc (sys_hb s2) = Outer ∧ aborted (sys_hb s2) = S (aborted (sys_hb s)) ∧
    hb_log (sys_hb s2) = hb_log (sys_hb s') ++ lg ++ [HbRestartSignal].
Proof.
  intros Ho Hp Ht [Hok Hok']%Forall_app Hrun Hpc Hlast Hrep Hbt Hrun' He Hwt.
  pose proof (sys_run_reachable good _ _ _ _ _ _ _ _ _ _ _ _ Ho Hp Ht Hok Hrun) as Hinv.
  destruct (sys_run_connected good reconstruct debug url port static retained
    (load AggReceivedCumulative (fwd_metrics (sys_shared s))) (aborted (sys_hb s)) s evs' s'
    Ho Hp Ht Hinv Hok' Hbt) as [_ Ea Eh]; [by split|done|].
  destruct (Eh He) as (Epc & El & Eab).
  cbn [sys_step]. unfold heartbeat_event, hb_step. rewrite Epc, Hwt, Ea. unfold hb_metrics.
  rewrite decide_True by done. eexists _, [_]. split; [done|]. simpl.
  split; [done|]. split; [by rewrite Eab|]. by rewrite <-app_assoc.
Qed.

(** C35: the total of received packets that [main] logs when it ends falls short of
    the packets received by what was counted since the last reset of the
    accessory thread (all modulo 2^64). *)
Theorem exit_total_short reconstruct debug discovery shredstream url port static retained n w evs s
    cmd received sent failed duplicate :
  overflow_checks = false → no_poison → traces_ok debug → Forall (event_ok good) evs →
  sys_run reconstruct debug url port static retained
    (sys_init reconstruct discovery static shredstream n w) evs = Ok s →
  exit_log cmd (fwd_metrics (sys_shared s)) = ExitingShredstream received sent failed duplicate →
  wrap 64 (received + load Received (fwd_metrics (sys_shared s)))
  = wrap 64 (total_received (fwd_calls (sys_shared s))).
Proof.
  intros Ho Hp Ht Hok Hrun Hlog.
  assert (received_inv s) as Hr.
  { apply (sys_run_received good reconstruct debug url port static retained
      (sys_init reconstruct discovery static shredstream n w) evs); try done.
    apply sys_inv_init. }
  destruct cmd; simpl in Hlog; by simplify_eq.
Qed.

(** C12: once the exit flag is set the proxy winds down, however the threads
    interleave and whatever they meet (within the assumptions of C5): no thread
    panics, and each ends after at most three more steps of its own, every step
    taking it closer to its end.  No thread begins to wait for anything again: at
    most as many more batches are received and sent on as forwarder threads were
    waiting for packets when the flag was set (a thread in [select!] does not see
    the flag), at most one more is taken by the reconstructor, and none if it was
    not waiting; then nothing more is broadcast either. *)
Theorem exit_stops_every_thread reconstruct debug discovery shredstream url port static retained
    n w evs s evs' :
  overflow_checks = false → no_poison → traces_ok debug → Forall (event_ok good) (evs ++ evs') →
  sys_run reconstruct debug url port static retained
    (sys_init reconstruct discovery static shredstream n w) evs = Ok s →
  sys_exit s = true →
  ∃ s' cs bs, sys_run reconstruct debug url port static retained s evs' = Ok s' ∧
    (∀ t, (steps_left t s ≤ 3)%nat ∧ (steps_left t s' ≤ steps_left t s - made_by t evs')%nat) ∧
    fwd_calls (sys_shared s') = fwd_calls (sys_shared s) ++ cs ∧
    (length (batches_received cs) ≤ waiting_forwarders s)%nat ∧
    (waiting_forwarders s = 0%nat → cs = []) ∧
    sys_taken s' = sys_taken s ++ bs ∧ (length bs ≤ waiting_reconstructor s)%nat ∧
    (waiting_reconstructor s = 0%nat → sys_entries s' = sys_entries s).
Proof.
  intros Ho Hp Ht [Hok Hok']%Forall_app Hrun He.
  pose proof (sys_run_reachable good _ _ _ _ _ _ _ _ _ _ _ _ Ho Hp Ht Hok Hrun) as Hinv.
  destruct (exit_run good reconstruct debug url port static retained s evs' Ho Hp Ht Hinv Hok' He)
    as (s' & E & _ & [_ (cs & Ec & Hc & Hz) (bs & Eb & Hb) Hen] & Hleft).
  exists s', cs, bs. split_and!; try done; try lia.
  intros t. split; [apply steps_left_le|apply Hleft].
Qed.
End theorems.

(** * Witnesses *)

#[local] Existing Instance release.

(** The steps of a thread that is at its check: the check, and then what it gets. *)
Definition forwarder_gets (i : nat) (ev : FwdInput) : list SysEvent :=
  replicate 2 (ForwarderEvent i ev).
Definition reconstructor_runs : list SysEvent := replicate 2 ReconstructorEvent.
Definition heartbeat_picks (sel : HbSelect) : list SysEvent :=
  replicate 2 (HeartbeatEvent Connected sel).

(** Two forwarder threads and a subscriber: a set arrives at one thread while the
    destinations are refreshed, the metrics are reported in between, and a signal
    ends the run while a thread waits: it still gets a batch. *)
Definition toy_sys_events : list SysEvent :=
  [SubscribeRequest] ++ forwarder_gets 0 (InPackets (Some toy_batch)) ++
  replicate 2 (AccessoryEvent AccMetricsTick) ++
  replicate 2 (RefreshEv (FetchTick (mkOutside (λ _, ROk []) (λ _, ROk []) (λ _, ROk [V4 7])))) ++
  forwarder_gets 1 InRefreshTick ++ reconstructor_runs ++
  forwarder_gets 1 (InPackets (Some toy_batch2)) ++
  heartbeat_picks SelMetrics ++ heartbeat_picks (SelHeartbeat (HeartbeatOk 3000)) ++
  replicate 3 (AccessoryEvent AccDeduperTick) ++ [SubscriberEvent 0 true; WorldChanges []] ++
  reconstructor_runs ++ [SubscribeRequest; SubscriberEvent 0 true; SubscriberEvent 0 false] ++
  [ForwarderEvent 0 InRefreshTick; ExitSet] ++ forwarder_gets 0 (InPackets (Some toy_batch7)) ++
  [ReconstructorEvent; ServerEvent false].

Definition toy_sys_run : outcome System :=
  sys_run true false "url" 8001 [(SocketAddrV4 1 8001, "a:1"%string)] 128
    (sys_init true true [(SocketAddrV4 1 8001, "a:1"%string)] true 2 []) toy_sys_events.

Example toy_sys_run_result :
  match toy_sys_run with
  | Ok s =>
      sys_entries s = [mkPbEntry 5 [x0a; x0b]; mkPbEntry 5 [x0d]; mkPbEntry 6 [x0c]] ∧
      client_entries <$> sys_subs s = [[mkPbEntry 5 [x0a; x0b]; mkPbEntry 5 [x0d]]; []] ∧
      map (map snd) (take 2 (sends (fwd_calls (sys_shared s))))
        = [[SocketAddrV4 1 8001; SocketAddrV4 1 8001]; replicate 4 (SocketAddrV4 7 8001)] ∧
      fwd_phase <$> sys_forwarders s = [Ended; AtCheck] ∧
      length (batches_received (fwd_calls (sys_shared s))) = 3%nat ∧
      length (sys_taken s) = 2%nat ∧ sys_recon_running s = false ∧ sys_server s = false
  | Panicked _ => False
  end.
Proof. vm_compute. by split_and!. Qed.

Lemma toy_events_ok : Forall (event_ok toy_good) toy_sys_events.
Proof.
  unfold toy_sys_events, forwarder_gets, reconstructor_runs, heartbeat_picks. cbn [replicate app].
  repeat (apply Forall_cons; split;
    [first [exact I|apply toy_batch_good; vm_compute; reflexivity]|]).
  by apply Forall_nil.
Qed.

Lemma proxy_invariant_witness :
  returns toy_sys_run (λ s,
    sys_taken s ++ sys_queue s `sublist_of` offered (fwd_calls (sys_shared s)) ∧
    ∀ sub, sub ∈ sys_subs s →
      client_entries sub `prefix_of` drop (sub_first sub) (sys_entries s)).
Proof.
  eapply returns_mono.
  - exact (proxy_invariant toy_good true false true true "url" 8001 [(SocketAddrV4 1 8001, "a:1"%string)]
      128 2 [] toy_sys_events eq_refl toy_no_poison (toy_traces false) toy_events_ok).
  - intros s (_ & _ & Hord & _ & _ & Hsub). split; [exact Hord|exact Hsub].
Defined.

Definition toy_world : World := fwd_world toy_fwd.
Definition sys_result (d : System) (o : outcome System) : System :=
  match o with Ok s => s | Panicked _ => d end.
Lemma sys_result_Ok d o : is_ok o = true → o = Ok (sys_result d o).
Proof. by destruct o. Qed.

(** A proxy with one subscriber, whose threads wait; data shred 0 of slot 7 is lost
    on the way. *)
Definition toy_sys_init : System := sys_init true false [] true 1 toy_world.
Definition toy_waiting : list SysEvent :=
  [SubscribeRequest; ForwarderEvent 0 InRefreshTick; ReconstructorEvent].
Definition toy_sys0 : System :=
  sys_result toy_sys_init (sys_run true false "" 0 [] 128 toy_sys_init toy_waiting).

Lemma lossy_set_reaches_subscriber_witness :
  ∃ s1, sys_run true false "" 0 [] 128 toy_sys0
          [ForwarderEvent 0 (InPackets (Some toy_batch7)); ReconstructorEvent] = Ok s1 ∧
    mkPbEntry 7 [x0a; x0b] ∈ sys_entries s1.
Proof.
  destruct (lossy_set_reaches_subscriber toy_good false false true "" 0 [] 128 1 toy_world
              toy_waiting toy_sys0 0 (mkForwarder [] Waiting) toy_batch7 7 1 toy_d7 [toy_c7b]
              [x0a; x0b] [x0a; x0b]) as (s1 & E & Hin & _).
  - reflexivity.
  - exact toy_no_poison.
  - exact (toy_traces false).
  - by repeat constructor.
  - reflexivity.
  - reflexivity.
  - reflexivity.
  - reflexivity.
  - reflexivity.
  - exact toy_block7.
  - exact toy_erasure7.
  - exact toy_arrives7.
  - reflexivity.
  - reflexivity.
  - exists s1. split; [exact E|exact Hin].
Defined.

Lemma sys_run_two reconstruct debug url port static retained s1 s2 s3 evs1 evs2 :
  sys_run reconstruct debug url port static retained s1 evs1 = Ok s2 →
  sys_run reconstruct debug url port static retained s2 evs2 = Ok s3 →
  sys_run reconstruct debug url port static retained s1 (evs1 ++ evs2) = Ok s3.
Proof. unfold sys_run. rewrite foldM_app. by intros ->. Qed.

(** The heartbeat connects; four packets arrive, one heartbeat is answered and
    another one is not, the deduper is reset, and no report is due. *)
Definition toy_connects : list SysEvent := heartbeat_picks SelShutdown.
Definition toy_quiet_start : System :=
  sys_result toy_sys_init (sys_run true false "" 0 [] 128 toy_sys_init toy_connects).
Definition toy_traffic : list SysEvent :=
  forwarder_gets 0 (InPackets (Some toy_batch2)) ++ reconstructor_runs ++
  heartbeat_picks (SelHeartbeat (HeartbeatOk 3000)) ++
  heartbeat_picks (SelHeartbeat (HeartbeatErr (mkStatus (OtherCode 14) "down"))) ++
  replicate 2 (AccessoryEvent AccDeduperTick) ++ [HeartbeatEvent Connected (SelHeartbeat (HeartbeatOk 1))].
Definition toy_after_traffic : System :=
  sys_result toy_quiet_start (sys_run true false "" 0 [] 128 toy_quiet_start toy_traffic).

Lemma toy_quiet_runs : sys_run true false "" 0 [] 128 toy_sys_init toy_connects = Ok toy_quiet_start.
Proof. apply sys_result_Ok. vm_compute. reflexivity. Qed.
Lemma toy_traffic_runs :
  sys_run true false "" 0 [] 128 toy_quiet_start toy_traffic = Ok toy_after_traffic.
Proof. apply sys_result_Ok. vm_compute. reflexivity. Qed.
Lemma toy_traffic_ok : Forall (event_ok toy_good) (toy_connects ++ toy_traffic).
Proof.
  unfold toy_connects, toy_traffic, forwarder_gets, reconstructor_runs, heartbeat_picks.
  cbn [replicate app]. repeat (apply Forall_cons; split;
    [first [exact I|discriminate|apply toy_batch_good; vm_compute; reflexivity]|]).
  by apply Forall_nil.
Qed.

Lemma heartbeat_misses_traffic_witness :
  total_received (fwd_calls (sys_shared toy_after_traffic)) = 4 ∧
  (successful_heartbeat_count (sys_hb toy_after_traffic),
   failed_heartbeat_count (sys_hb toy_after_traffic)) = (1, 1) ∧
  ∃ s2 lg, sys_step true false "" 0 [] 128 toy_after_traffic (HeartbeatEvent Connected SelMetrics)
           = Ok s2 ∧
    hb_pc (sys_hb s2) = Outer ∧ aborted (sys_hb s2) = 1%nat ∧
    hb_log (sys_hb s2) = hb_log (sys_hb toy_after_traffic) ++ lg ++ [HbRestartSignal].
Proof.
  split; [vm_compute; reflexivity|]. split; [vm_compute; reflexivity|].
  apply (heartbeat_misses_traffic toy_good true false false true "" 0 [] 128 1 toy_world
           toy_connects toy_quiet_start toy_traffic toy_after_traffic).
  - reflexivity.
  - exact toy_no_poison.
  - exact (toy_traces false).
  - exact toy_traffic_ok.
  - exact toy_quiet_runs.
  - vm_compute. reflexivity.
  - vm_compute. reflexivity.
  - vm_compute. reflexivity.
  - unfold toy_traffic, forwarder_gets, reconstructor_runs, heartbeat_picks. cbn [replicate app].
    repeat (apply Forall_cons; split; [first [exact I|discriminate|split; discriminate]|]).
    by apply Forall_nil.
  - exact toy_traffic_runs.
  - vm_compute. reflexivity.
  - vm_compute. reflexivity.
Defined.

Lemma exit_total_short_witness :
  exit_log (ForwardOnly default_common_args) (fwd_metrics (sys_shared toy_after_traffic))
    = ExitingShredstream 0 0 0 0 ∧
  wrap 64 (0 + load Received (fwd_metrics (sys_shared toy_after_traffic))) = 4.
Proof.
  split; [vm_compute; reflexivity|].
  rewrite (exit_total_short toy_good true false false true "" 0 [] 128 1 toy_world
    (toy_connects ++ toy_traffic) toy_after_traffic (ForwardOnly default_common_args) 0 0 0 0).
  - vm_compute. reflexivity.
  - reflexivity.
  - exact toy_no_poison.
  - exact (toy_traces false).
  - exact toy_traffic_ok.
  - exact (sys_run_two _ _ _ _ _ _ _ _ _ _ _ toy_quiet_runs toy_traffic_runs).
  - vm_compute. reflexivity.
Defined.

(** The flag is set while the forwarder thread waits and the reconstructor does
    not: the thread still gets a batch, which nobody reconstructs. *)
Definition toy_exits : list SysEvent := [ForwarderEvent 0 InRefreshTick; ExitSet].
Definition toy_exiting : System :=
  sys_result toy_after_traffic (sys_run true false "" 0 [] 128 toy_after_traffic toy_exits).
Definition toy_exit_events : list SysEvent :=
  replicate 3 (ForwarderEvent 0 (InPackets (Some toy_batch))) ++
  replicate 3 (HeartbeatEvent Connected SelMetrics) ++ [ReconstructorEvent].

Lemma exit_stops_every_thread_witness :
  waiting_forwarders toy_exiting = 1%nat ∧ waiting_reconstructor toy_exiting = 0%nat ∧
  ∃ s' cs, sys_run true false "" 0 [] 128 toy_exiting toy_exit_events = Ok s' ∧
    (steps_left (ForwarderT 0) s' ≤ 0)%nat ∧ (steps_left HeartbeatT s' ≤ 0)%nat ∧
    fwd_calls (sys_shared s') = fwd_calls (sys_shared toy_exiting) ++ cs ∧
    (length (batches_received cs) ≤ 1)%nat ∧ sys_entries s' = sys_entries toy_exiting.
Proof.
  split; [vm_compute; reflexivity|]. split; [vm_compute; reflexivity|].
  destruct (exit_stops_every_thread toy_good true false false true "" 0 [] 128 1 toy_world
    (toy_connects ++ toy_traffic ++ toy_exits) toy_exiting toy_exit_events)
    as (s' & cs & bs & E & Hl & Ec & Hc & _ & _ & _ & He).
  - reflexivity.
  - exact toy_no_poison.
  - exact (toy_traces false).
  - rewrite app_assoc, <-app_assoc. apply Forall_app. split; [exact toy_traffic_ok|].
    unfold toy_exits, toy_exit_events. cbn [replicate app]. repeat (apply Forall_cons; split;
      [first [exact I|apply toy_batch_good; vm_compute; reflexivity]|]). by apply Forall_nil.
  - apply (sys_run_two _ _ _ _ _ _ _ _ _ _ _ toy_quiet_runs).
    apply (sys_run_two _ _ _ _ _ _ _ _ _ _ _ toy_traffic_runs).
    apply sys_result_Ok. vm_compute. reflexivity.
  - vm_compute. reflexivity.
  - exists s', cs. split; [exact E|].
    split; [exact (proj2 (Hl (ForwarderT 0)))|]. split; [exact (proj2 (Hl HeartbeatT))|].
    split; [exact Ec|]. split; [exact Hc|]. apply He. vm_compute. reflexivity.
Defined.

(** The set of slot 7 in two batches: data shred 0 never arrives. *)
Definition toy_set_events : list SysEvent :=
  forwarder_gets 0 (InPackets (Some toy_batch7a)) ++ forwarder_gets 0 (InPackets (Some toy_batch7b)) ++
  reconstructor_runs ++ reconstructor_runs.
Definition toy_after_set : System :=
  sys_result toy_sys_init (sys_run true false "" 0 [] 128 toy_sys_init toy_set_events).

Lemma toy_set_runs : sys_run true false "" 0 [] 128 toy_sys_init toy_set_events = Ok toy_after_set.
Proof. apply sys_result_Ok. vm_compute. reflexivity. Qed.

Lemma no_segment_held_back_witness :
  ∃ k p', (k < 2)%nat ∧ deshred (payload <$> drop k toy_d7) = Some p' ∧
    is_Some (bincode_deserialize p') ∧ mkPbEntry 7 p' ∈ sys_entries toy_after_set.
Proof.
  apply (no_segment_held_back toy_leader toy_complete_at true false false true "" 0 [] 128 1 toy_world
           toy_set_events toy_after_set 7 0 1 toy_d7 [x0a; x0b] [x0a; x0b]).
  - reflexivity.
  - exact toy_no_poison.
  - exact (toy_traces false).
  - exact toy_layout.
  - unfold toy_set_events, forwarder_gets, reconstructor_runs. cbn [replicate app].
    rewrite !Forall_cons. destruct toy_leader_batches. by split_and!; [..|by apply Forall_nil].
  - exact toy_set_runs.
  - split; [lia|reflexivity| |exact I]. intros j Hj. by replace j with 0%nat by lia.
  - split; [reflexivity|]. intros [|[|j]] d Hj; simpl in Hj; simplify_eq; vm_compute; reflexivity.
  - reflexivity.
  - reflexivity.
Defined.
