(* ===== verification/Process.v ===== *)
(** The process that [main] of proxy/src/main.rs is: the threads of [System], the
    listener threads, the statistics thread and the Prometheus thread, and the
    exit flag and the shutdown channel that the signal thread and the panic hook
    feed and that the threads take their tokens from.

    [System] lets a token arrive at a waiting thread at any time; here it has to be
    in the channel of [Main.Shutdown].  The exit flag of the two is one. *)

From S2P Require Import Prelude Net Metrics Shreds Prom Errors Forwarder Destinations ForwardThreads.
From S2P Require Import Server Heartbeat Main System.

(** * The shutdown channel *)

(** What happens at the sending end of the channel: SIGINT or SIGTERM, one [send]
    of the signal thread, a panic anywhere in the process, and the [send] of a
    panic hook. *)
Inductive ShutdownEvent := Signal | SendToken | Panic | HookSend.
#[global] Instance ShutdownEvent_eq_dec : EqDecision ShutdownEvent.
Proof. solve_decision. Defined.

(** A [send] into a full channel blocks, and the signal thread takes the next
    signal when it has sent all its tokens: nothing happens then. *)
Definition shutdown_event (e : ShutdownEvent) (c : Shutdown) : Shutdown :=
  match e with
  | Signal =>
      match to_send c with
      | O => mkShutdown true (tokens c) SHUTDOWN_TOKENS (hooks c) (taken c) (S (signals c))
      | S _ => c
      end
  | SendToken =>
      match to_send c with
      | S n => if decide (tokens c < SHUTDOWN_TOKENS)%nat
               then mkShutdown (exit_flag c) (S (tokens c)) n (hooks c) (taken c) (signals c) else c
      | O => c
      end
  | Panic => mkShutdown true (tokens c) (to_send c) (S (hooks c)) (taken c) (signals c)
  | HookSend =>
      match hooks c with
      | S n => if decide (tokens c < SHUTDOWN_TOKENS)%nat
               then mkShutdown (exit_flag c) (S (tokens c)) (to_send c) n (taken c) (signals c) else c
      | O => c
      end
  end.

(** The receiving end: a token, if there is one. *)
Definition try_recv_token (c : Shutdown) : option Shutdown :=
  match tokens c with
  | S n => Some (mkShutdown (exit_flag c) n (to_send c) (hooks c) (S (taken c)) (signals c))
  | O => None
  end.

(** * The listener threads *)

(** [streamer::receiver]: the thread of the streamer library that listens on a
    socket and fills the packet channel of a forwarder thread.  A step is an
    iteration of its loop, given the exit flag. *)
Class StreamerLib := {
  Listener : Type;
  receiver : Listener;
  receiver_step : bool → Listener → Listener;
  receiver_ended : Listener → bool;
}.
(** "Check for exit signal, even if socket is busy": it ends when it sees the flag. *)
Class StreamerLaws `{StreamerLib} : Prop := {
  receiver_exits l : receiver_ended (receiver_step true l) = true;
}.

(** * The process *)

Section process.
Context `{ShredLib} `{ForwardLib} `{BuildProfile} `{StreamerLib}.
Context (reconstruct debug discovery : bool).
Context (url : string) (port : Z) (static : list (SocketAddr * string)) (retained : nat).
(** [registry.gather()] and [encode_to_string]: the text is made of what was
    recorded so far. *)
Context {Request Scrape : Type} (encode : Prom → option Scrape).

Record Process := mkProcess {
  pr_sys : System;
  pr_shutdown : Shutdown;
  pr_listeners : list Listener;
  (** the statistics thread, and the reports it has made *)
  pr_stats : Phase;
  pr_reports : nat;
  (** the Prometheus thread, and its responses *)
  pr_prom : PromPhase;
  pr_scrapes : list (Request * Scrape);
}.

(** The next step of a thread, with what it meets there, or of the sending end of
    the shutdown channel. *)
Inductive ProcessEvent :=
  | Threads (ev : SysEvent)
  | ListenerStep (i : nat)
  | StatsStep
  | PromStep (bound : result unit details) (received : HttpRecv Request)
  | Notify (e : ShutdownEvent).

(** Whether an event is that a waiting thread receives a token: the arm of its
    [select!], or the server thread's [recv_timeout]. *)
Definition takes_token (ev : SysEvent) (s : System) : bool :=
  match ev with
  | ForwarderEvent i InShutdown =>
      match sys_forwarders s !! i with
      | Some f => bool_decide (fwd_phase f = Waiting)
      | None => false
      end
  | RefreshEv RefreshShutdown => bool_decide (sys_refresh_phase s = Waiting)
  | AccessoryEvent AccShutdownToken =>
      bool_decide (acc_phase (sys_acc s) = Waiting) && negb (acc_reporting (sys_acc s))
  | ServerEvent true => bool_decide (sys_server_phase s = Waiting)
  | HeartbeatEvent _ SelShutdown => bool_decide (hb_pc (sys_hb s) = Inner) && sys_hb_waiting s
  | _ => false
  end.

Definition with_threads (s : System) (c : Shutdown) (p : Process) : Process :=
  mkProcess s c (pr_listeners p) (pr_stats p) (pr_reports p) (pr_prom p) (pr_scrapes p).

(** A thread that waits for a token while the channel is empty makes no step. *)
Definition threads_event (ev : SysEvent) (p : Process) : outcome Process :=
  match (if takes_token ev (pr_sys p) then try_recv_token (pr_shutdown p)
         else Some (pr_shutdown p)), ev with
  | None, _ | _, ExitSet => Ok p
  | Some c, _ =>
      s ← sys_step reconstruct debug url port static retained (pr_sys p) ev;
      Ok (with_threads s c p)
  end.

Definition listener_step (i : nat) (p : Process) : Process :=
  match pr_listeners p !! i with
  | Some l =>
      if receiver_ended l then p else
      mkProcess (pr_sys p) (pr_shutdown p)
        (<[i := receiver_step (exit_flag (pr_shutdown p)) l]> (pr_listeners p))
        (pr_stats p) (pr_reports p) (pr_prom p) (pr_scrapes p)
  | None => p
  end.

(** [report_metrics_thread] of [main]: the flag, and then a second's sleep and a
    report. *)
Definition stats_step (p : Process) : Process :=
  match pr_stats p with
  | AtCheck =>
      mkProcess (pr_sys p) (pr_shutdown p) (pr_listeners p)
        (check_exit (exit_flag (pr_shutdown p))) (pr_reports p) (pr_prom p) (pr_scrapes p)
  | Waiting =>
      mkProcess (pr_sys p) (pr_shutdown p) (pr_listeners p) AtCheck (S (pr_reports p))
        (pr_prom p) (pr_scrapes p)
  | Ended => p
  end.

(** A step of the thread of [spawn_prometheus_server], which does not read the
    exit flag. *)
Definition prom_step (bound : result unit details) (received : HttpRecv Request)
    (p : Process) : outcome Process :=
  let token := if decide (pr_prom p = PromPolling) then try_recv_token (pr_shutdown p) else None in
  '(ph, responses) ← prom_server_step bound (bool_decide (is_Some token))
                       (encode (fwd_prom (sys_shared (pr_sys p)))) received (pr_prom p);
  Ok (mkProcess (pr_sys p) (default (pr_shutdown p) token) (pr_listeners p) (pr_stats p)
        (pr_reports p) ph (pr_scrapes p ++ responses)).

(** A signal and the panic hook set the exit flag before they send. *)
Definition notify (e : ShutdownEvent) (p : Process) : Process :=
  let c := shutdown_event e (pr_shutdown p) in
  with_threads (if exit_flag c then set_exit (pr_sys p) else pr_sys p) c p.

Definition process_step (p : Process) (e : ProcessEvent) : outcome Process :=
  match e with
  | Threads ev => threads_event ev p
  | ListenerStep i => Ok (listener_step i p)
  | StatsStep => Ok (stats_step p)
  | PromStep bound received => prom_step bound received p
  | Notify e => Ok (notify e p)
  end.

Definition process_run (p : Process) (es : list ProcessEvent) : outcome Process :=
  foldM process_step p es.

(** What [main] starts: a listener for each of the [n] forwarder threads, and a
    Prometheus thread if there is an address for it. *)
Definition process_init (shredstream : bool) (n : nat) (w : World)
    (prometheus_bind_addr : option SocketAddr) : Process :=
  mkProcess (sys_init reconstruct discovery static shredstream n w) shutdown_notifier
    (replicate n receiver) AtCheck 0
    (match prometheus_bind_addr with Some _ => PromBinding | None => PromEnded end) [].

(** [main] gets through its loop of [join]s: the threads whose handles it has,
    all but the reconstructor, have ended. *)
Definition threads_ended (p : Process) : bool :=
  let s := pr_sys p in
  forallb (λ f, negb (fwd_running f)) (sys_forwarders s) &&
  forallb receiver_ended (pr_listeners p) &&
  negb (running (sys_refresh_phase s)) && negb (running (acc_phase (sys_acc s))) &&
  bool_decide (hb_pc (sys_hb s) = Finished) && negb (sys_server s) &&
  negb (running (pr_stats p)) && bool_decide (pr_prom p = PromEnded).
End process.
