(* ===== verification/ProcessTheorems.v ===== *)
(** The properties of the process: a signal ends it, and a panic may not. *)

From S2P Require Import Prelude Net Metrics Shreds Deshred DeshredInv Packets Prom Errors Forwarder.
From S2P Require Import ForwarderProofs Destinations ForwardThreads Toy ToyRuns Server Heartbeat Main.
From S2P Require Import MainTheorems System SystemProofs SystemTheorems Process.

(** * The channel *)

Lemma shutdown_event_step e c : rtc shutdown_step c (shutdown_event e c).
Proof.
  destruct e; simpl.
  - destruct (to_send c) eqn:E; [|done]. by apply rtc_once, on_signal.
  - destruct (to_send c) eqn:E; [done|]. case_decide; [|done]. by apply rtc_once, send_token.
  - apply rtc_once, on_panic.
  - destruct (hooks c) eqn:E; [done|]. case_decide; [|done]. by apply rtc_once, hook_send.
Qed.

Lemma try_recv_token_step c c' : try_recv_token c = Some c' → rtc shutdown_step c c'.
Proof.
  unfold try_recv_token. destruct (tokens c) eqn:E; [done|]. intros [= <-].
  by apply rtc_once, take_token.
Qed.

Lemma try_recv_token_flag c c' :
  try_recv_token c = Some c' →
  exit_flag c' = exit_flag c ∧ taken c' = S (taken c) ∧ tokens c ≠ 0%nat.
Proof. unfold try_recv_token. destruct (tokens c); [done|]. by intros [= <-]. Qed.

Lemma shutdown_steps_inv c c' : rtc shutdown_step c c' → shutdown_inv c → shutdown_inv c'.
Proof. induction 1; [done|]. intros Hi. eauto using shutdown_step_inv. Qed.

(** The exit flag stays, and so do the tokens that were sent: each is in the
    channel or taken. *)
Lemma shutdown_steps_mono c c' :
  rtc shutdown_step c c' →
  (exit_flag c = true → exit_flag c' = true) ∧ (signals c ≤ signals c')%nat ∧
  (tokens c + taken c ≤ tokens c' + taken c')%nat.
Proof.
  induction 1 as [|c1 c2 c3 Hs _ (He & Hs' & Ht)]; [done|].
  destruct Hs; simpl in *; split_and!; auto; lia.
Qed.

Lemma shutdown_event_exit e c :
  taken (shutdown_event e c) = taken c ∧
  (exit_flag c = true → exit_flag (shutdown_event e c) = true).
Proof. destruct e; simpl; split; repeat case_match; try done; by case_decide. Qed.

(** * The threads that may take a token *)

Section tokens.
Context `{ShredLib} `{ForwardLib} `{BuildProfile}.
Implicit Types (s : System).

Definition token_threads (n : nat) : list Thread :=
  (ForwarderT <$> seq 0 n) ++ [RefreshT; AccessoryT; HeartbeatT; ServerT].

(** A thread has the most steps left when it waits where it may get a token. *)
Definition wait_left (t : Thread) : nat :=
  match t with AccessoryT | HeartbeatT => 3 | _ => 2 end.
Definition may_take (t : Thread) s : nat := (steps_left t s - pred (wait_left t))%nat.

Definition all_may_take (n : nat) s : nat := sum_list_with (λ t, may_take t s) (token_threads n).

Lemma steps_left_wait t s : (steps_left t s ≤ wait_left t)%nat.
Proof.
  assert (∀ ph, phase_left ph ≤ 2)%nat as Hph by (intros []; simpl; lia).
  destruct t; simpl; try apply Hph; repeat case_match; try apply Hph; lia.
Qed.

Lemma may_take_le t s : (may_take t s ≤ 1)%nat.
Proof. unfold may_take. pose proof (steps_left_wait t s). destruct t; simpl in *; lia. Qed.

Lemma all_may_take_le n s : (all_may_take n s ≤ n + 4)%nat.
Proof.
  assert (∀ ts, sum_list_with (λ t, may_take t s) ts ≤ length ts)%nat as Hle.
  { induction ts as [|t ts IH]; [done|]. cbn [sum_list_with length].
    pose proof (may_take_le t s). lia. }
  unfold all_may_take. etrans; [apply Hle|]. unfold token_threads.
  rewrite length_app, length_fmap, length_seq. simpl. lia.
Qed.

Lemma takes_token_thread ev s :
  takes_token ev s = true →
  ∃ t, thread_of ev = Some t ∧ t ∈ token_threads (length (sys_forwarders s)) ∧
    steps_left t s = wait_left t.
Proof.
  unfold token_threads. setoid_rewrite elem_of_app.
  destruct ev as [i [| |]| |[]|[]|[]| |k ok|res []|w|]; simpl; try done.
  - destruct (sys_forwarders s !! i) as [f|] eqn:Hf; [|done]. intros Hr%bool_decide_eq_true.
    exists (ForwarderT i). simpl. rewrite Hf, Hr. split_and!; [done| |done].
    left. apply list_elem_of_fmap_2, elem_of_seq. apply lookup_lt_Some in Hf. lia.
  - intros Hr%bool_decide_eq_true. exists RefreshT. simpl. rewrite Hr.
    split_and!; [done|right; set_solver|done].
  - intros [Hr%bool_decide_eq_true Hp%negb_true_iff]%andb_true_iff. exists AccessoryT. simpl.
    rewrite Hr, Hp. split_and!; [done|right; set_solver|done].
  - intros Hr%bool_decide_eq_true. exists ServerT. simpl. rewrite Hr.
    split_and!; [done|right; set_solver|done].
  - intros [Hr%bool_decide_eq_true Hw]%andb_true_iff. exists HeartbeatT. simpl. rewrite Hr, Hw.
    split_and!; [done|right; set_solver|done].
Qed.

(** A step that takes a token once the flag is set leaves one thread fewer to
    take one. *)
Lemma steps_down_may_take s ev s' n :
  n = length (sys_forwarders s) →
  (∀ t, (steps_left t s' ≤ steps_left t s - made_by t [ev])%nat) →
  ((if takes_token ev s then 1 else 0) + all_may_take n s' ≤ all_may_take n s)%nat.
Proof.
  intros -> Hleft.
  assert (∀ t, may_take t s' ≤ may_take t s)%nat as Hle.
  { intros t. specialize (Hleft t). unfold may_take. lia. }
  unfold all_may_take. destruct (takes_token ev s) eqn:Ht; [|by apply sum_list_with_le].
  destruct (takes_token_thread _ _ Ht) as (t & Hev & Hin & Hmax).
  apply (sum_list_with_lt _ _ _ t); [done|done|]. specialize (Hleft t).
  rewrite made_by_one, decide_True in Hleft by done. change (may_take t s' < may_take t s)%nat.
  unfold may_take. destruct t; simpl wait_left in *; lia.
Qed.
End tokens.

(** * Steps of the process *)

Section process.
Context `{ShredLib} `{ForwardLib} `{BuildProfile} `{StreamerLib}.
Context (reconstruct debug discovery : bool).
Context (url : string) (port : Z) (static : list (SocketAddr * string)) (retained : nat).
Context {Request Scrape : Type} (encode : Prom → option Scrape).
Implicit Types (p : Process (Request := Request) (Scrape := Scrape)).
Implicit Types (es : list (ProcessEvent (Request := Request))).

#[local] Abbreviation sstep := (sys_step reconstruct debug url port static retained).
#[local] Abbreviation srun := (sys_run reconstruct debug url port static retained).
#[local] Abbreviation pstep := (process_step reconstruct debug url port static retained encode).
#[local] Abbreviation prun := (process_run reconstruct debug url port static retained encode).

(** The Prometheus thread changes no other thread, and takes a token only in the
    step that ends it. *)
Lemma prom_step_spec bound received p p' :
  prom_step encode bound received p = Ok p' →
  pr_sys p' = pr_sys p ∧ pr_stats p' = pr_stats p ∧ pr_listeners p' = pr_listeners p ∧
  match pr_prom p with
  | PromPolling =>
      match try_recv_token (pr_shutdown p) with
      | Some c => pr_shutdown p' = c ∧ pr_prom p' = PromEnded
      | None => pr_shutdown p' = pr_shutdown p ∧ pr_prom p' = PromServing
      end
  | PromEnded => pr_shutdown p' = pr_shutdown p ∧ pr_prom p' = PromEnded
  | _ => pr_shutdown p' = pr_shutdown p ∧ pr_prom p' = PromPolling
  end.
Proof.
  unfold prom_step. intros ([ph rs] & Hl & [= <-])%bind_Ok. simpl. split_and!; [done..|].
  destruct (pr_prom p) eqn:Hp; simpl in *.
  - destruct bound; [by injection Hl as <- <-|done].
  - destruct (try_recv_token _) as [c|]; simpl in *; by injection Hl as <- <-.
  - by apply bind_Ok in Hl as (rs' & _ & [= <- <-]).
  - by injection Hl as <- <-.
Qed.

(** An event that happens only if there is a token for it. *)
Definition token_arm (ev : SysEvent) : bool :=
  match ev with
  | ForwarderEvent _ InShutdown | RefreshEv RefreshShutdown | AccessoryEvent AccShutdownToken
  | ServerEvent true | HeartbeatEvent _ SelShutdown => true
  | _ => false
  end.

Lemma takes_token_arm ev s : takes_token ev s = true → token_arm ev = true.
Proof. by destruct ev as [i [| |]| |[]|[]|[]| |k ok|res []|w|]. Qed.

(** A step of a thread of [System], with a token if it takes one. *)
Lemma threads_event_spec ev p p' :
  threads_event reconstruct debug url port static retained ev p = Ok p' →
  (p' = p ∧ (token_arm ev = true ∨ ev = ExitSet)) ∨
  ev ≠ ExitSet ∧ sstep (pr_sys p) ev = Ok (pr_sys p') ∧
  pr_stats p' = pr_stats p ∧ pr_prom p' = pr_prom p ∧ pr_listeners p' = pr_listeners p ∧
  if takes_token ev (pr_sys p) then try_recv_token (pr_shutdown p) = Some (pr_shutdown p')
  else pr_shutdown p' = pr_shutdown p.
Proof.
  unfold threads_event.
  set (o := if takes_token ev (pr_sys p) then _ else _).
  destruct o as [c|] eqn:Hc; last first.
  { intros [= <-]. left. split; [done|]. left. apply (takes_token_arm _ (pr_sys p)).
    unfold o in Hc. by destruct (takes_token ev (pr_sys p)). }
  assert (ev = ExitSet ∨ ev ≠ ExitSet) as [->|Hne] by (destruct ev; try (by right); by left);
    [by intros [= <-]; left; split; [|right]|].
  intros Hs. right. assert (∃ s, sstep (pr_sys p) ev = Ok s ∧ p' = with_threads s c p)
    as (s & E & ->).
  { destruct ev; try done; apply bind_Ok in Hs as (s & E & [= <-]); eauto. }
  rewrite E. split_and!; [done..|]. simpl. unfold o in Hc. destruct (takes_token ev (pr_sys p)); congruence.
Qed.

Lemma listener_step_same i p :
  pr_sys (listener_step i p) = pr_sys p ∧ pr_shutdown (listener_step i p) = pr_shutdown p ∧
  pr_stats (listener_step i p) = pr_stats p ∧ pr_prom (listener_step i p) = pr_prom p.
Proof. unfold listener_step. repeat case_match; by split_and!. Qed.

Lemma stats_step_same p :
  pr_sys (stats_step p) = pr_sys p ∧ pr_shutdown (stats_step p) = pr_shutdown p ∧
  pr_listeners (stats_step p) = pr_listeners p ∧ pr_prom (stats_step p) = pr_prom p.
Proof. unfold stats_step. by destruct (pr_stats p). Qed.

(** ** The two machines it is made of *)

(** A step of the process does steps of the shutdown channel, and a step of the
    threads or none. *)
Lemma process_step_refines p e p' :
  pstep p e = Ok p' →
  rtc shutdown_step (pr_shutdown p) (pr_shutdown p') ∧
  (pr_sys p' = pr_sys p ∨ sstep (pr_sys p) ExitSet = Ok (pr_sys p') ∨
   ∃ ev, e = Threads ev ∧ sstep (pr_sys p) ev = Ok (pr_sys p')).
Proof.
  destruct e as [ev|i| |bound received|e]; simpl.
  - intros [[-> _]|(Hne & E & _ & _ & _ & Ht)]%threads_event_spec; [by split; [|left]|].
    split; [|right; right; eauto].
    destruct (takes_token ev (pr_sys p)); [by apply try_recv_token_step|by rewrite Ht].
  - intros [= <-]. destruct (listener_step_same i p) as (-> & -> & _). by split; [|left].
  - intros [= <-]. destruct (stats_step_same p) as (-> & -> & _). by split; [|left].
  - intros (-> & _ & _ & Ht)%prom_step_spec. split; [|by left].
    destruct (pr_prom p); [by destruct Ht as [-> _]| |by destruct Ht as [-> _]..].
    destruct (try_recv_token _) eqn:E; destruct Ht as [-> _]; [by apply try_recv_token_step|done].
  - intros [= <-]. split; [apply shutdown_event_step|]. unfold notify.
    destruct (exit_flag _); [right; left|left]; done.
Qed.

(** So what holds of every run of the threads holds of the process: over a run
    its threads do a run of the system, with the same steps, and the channel a run
    of the channel. *)
Lemma process_run_refines p es p' :
  prun p es = Ok p' →
  rtc shutdown_step (pr_shutdown p) (pr_shutdown p') ∧
  ∃ evs, (∀ ev, ev ∈ evs → ev = ExitSet ∨ Threads ev ∈ es) ∧ srun (pr_sys p) evs = Ok (pr_sys p').
Proof.
  revert p. induction es as [|e es IH]; intros p.
  { intros [= <-]. split; [done|]. exists []. by split; [intros ? ?%elem_of_nil|]. }
  unfold process_run. cbn [foldM]. intros (p1 & E & Hr)%bind_Ok.
  destruct (IH p1 Hr) as (Hc & evs & Hevs & Hs).
  destruct (process_step_refines _ _ _ E) as [Hc1 Hs1]. split; [by etrans|].
  assert (∀ ev, ev ∈ evs → ev = ExitSet ∨ Threads ev ∈ e :: es) as Hevs'
    by (intros ev [?|?]%Hevs; [by left|right; by right]).
  destruct Hs1 as [<-|[E1|(ev & -> & E1)]]; [by exists evs|exists (ExitSet :: evs)|exists (ev :: evs)];
    (split; [intros x [->|?]%elem_of_cons; auto; right; left|];
     unfold sys_run in *; cbn [foldM]; rewrite E1; exact Hs).
Qed.

(** ** The invariant *)

Context `{!ShredLibLaws} `{!PacketLibLaws} `{!ForwardLaws} `{!StreamerLaws}.
Context (good : Shred → Prop) `{!GoodShreds good}.
Hypotheses (Hoverflow : overflow_checks = false) (Hpoison : no_poison) (Htraces : traces_ok debug).

#[local] Abbreviation inv := (sys_inv good url port static).

(** The events within the assumptions of the system, and a Prometheus thread that
    binds its address and does not fail to receive. *)
Definition process_event_ok (e : ProcessEvent (Request := Request)) : Prop :=
  match e with
  | Threads ev => event_ok good ev
  | PromStep bound received => bound = ROk tt ∧ received ≠ RecvFailed
  | _ => True
  end.

Record process_inv (n : nat) p : Prop := {
  pi_sys : inv (pr_sys p);
  pi_exit : sys_exit (pr_sys p) = exit_flag (pr_shutdown p);
  pi_channel : shutdown_inv (pr_shutdown p);
  pi_threads : length (sys_forwarders (pr_sys p)) = n;
  pi_listeners : length (pr_listeners p) = n;
  (** a token for each thread that may still take one, within the [n + 5] in all *)
  pi_taken : exit_flag (pr_shutdown p) = true →
    (taken (pr_shutdown p) + all_may_take n (pr_sys p)
     + (if decide (pr_prom p = PromEnded) then 0 else 1) ≤ n + 5)%nat;
}.

Lemma process_inv_init ss n w addr :
  process_inv n (process_init reconstruct discovery static ss n w addr).
Proof.
  split; simpl; rewrite ?length_replicate; try done; [by apply sys_inv_init|].
  unfold shutdown_inv. simpl. lia.
Qed.

Lemma threads_event_inv n ev p p' :
  process_inv n p → event_ok good ev →
  threads_event reconstruct debug url port static retained ev p = Ok p' → process_inv n p'.
Proof.
  intros Hinv Hok Hs. pose proof Hinv as [Hsys Hex Hch Hn Hli Ht].
  assert (shutdown_inv (pr_shutdown p')) as Hch'.
  { eapply shutdown_steps_inv; [|done]. by eapply (process_step_refines p (Threads ev)). }
  apply threads_event_spec in Hs as [[-> _]|(Hne & E & _ & Hpr & Hl & Htok)]; [done|].
  pose proof (sys_step_inv good reconstruct debug url port static retained (pr_sys p) ev
    Hoverflow Hpoison Htraces Hsys Hok) as Hsys'. rewrite E in Hsys'.
  destruct (sys_step_frame _ _ _ _ _ _ _ _ _ E) as [Fx _ Fn _ _ _].
  assert (exit_flag (pr_shutdown p') = exit_flag (pr_shutdown p)) as Ef.
  { destruct (takes_token ev (pr_sys p)); [|by rewrite Htok].
    by destruct (try_recv_token_flag _ _ Htok). }
  split; [done|by rewrite Fx, Ef|done|by rewrite Fn|by rewrite Hl|].
  rewrite Ef, Hpr. intros He. specialize (Ht He). rewrite <-Hex in He.
  destruct (exit_step good reconstruct debug url port static retained (pr_sys p) ev _
    Hoverflow Hpoison Htraces Hsys He E) as [_ Hleft].
  pose proof (steps_down_may_take _ _ _ n (eq_sym Hn) Hleft) as Hm.
  destruct (takes_token ev (pr_sys p)); [|rewrite Htok; lia].
  apply try_recv_token_flag in Htok as (_ & -> & _). lia.
Qed.

Lemma prom_step_inv n bound received p p' :
  process_inv n p → prom_step encode bound received p = Ok p' → process_inv n p'.
Proof.
  intros [Hsys Hex Hch Hn Hli Ht] Hs.
  assert (shutdown_inv (pr_shutdown p')) as Hch'.
  { eapply shutdown_steps_inv; [|done]. by eapply (process_step_refines p (PromStep bound received)). }
  destruct (prom_step_spec _ _ _ _ Hs) as (Es & _ & El & Hp).
  assert (exit_flag (pr_shutdown p') = exit_flag (pr_shutdown p) ∧
    (taken (pr_shutdown p') + (if decide (pr_prom p' = PromEnded) then 0 else 1)
     ≤ taken (pr_shutdown p) + (if decide (pr_prom p = PromEnded) then 0 else 1))%nat) as [Ef Hle].
  { destruct (pr_prom p).
    - by destruct Hp as [-> ->].
    - destruct (try_recv_token _) as [c|] eqn:E; destruct Hp as [-> ->]; [|done].
      apply try_recv_token_flag in E as (-> & -> & _). simpl. split; [done|lia].
    - by destruct Hp as [-> ->].
    - by destruct Hp as [-> ->]. }
  split; rewrite ?Es, ?El, ?Ef; try done. intros He. specialize (Ht He). lia.
Qed.

Lemma notify_inv n e p : process_inv n p → process_inv n (notify e p).
Proof.
  intros [Hsys Hex Hch Hn Hli Ht].
  assert (shutdown_inv (shutdown_event e (pr_shutdown p))) as Hch'
    by (eapply shutdown_steps_inv; [apply shutdown_event_step|done]).
  destruct (shutdown_event_exit e (pr_shutdown p)) as [Etk Hmono]. unfold notify.
  destruct (exit_flag (shutdown_event e (pr_shutdown p))) eqn:Ee.
  - split; simpl; rewrite ?Ee; try done.
    { by apply (sys_inv_same good url port static (pr_sys p)); try done; apply Hsys. }
    intros _. rewrite Etk.
    change (all_may_take n (set_exit (pr_sys p))) with (all_may_take n (pr_sys p)).
    destruct (exit_flag (pr_shutdown p)) eqn:Ee0; [by apply Ht|].
    destruct Hch as (_ & Hz & _). specialize (Hz Ee0).
    pose proof (all_may_take_le n (pr_sys p)). case_decide; lia.
  - split; simpl; rewrite ?Ee; try done. rewrite Hex.
    destruct (exit_flag (pr_shutdown p)); [|done]. by specialize (Hmono eq_refl).
Qed.

Lemma process_step_inv n p e p' :
  process_inv n p → process_event_ok e → pstep p e = Ok p' → process_inv n p'.
Proof.
  intros Hinv Hok Hs. destruct e as [ev|i| |bound received|e]; simpl in Hs.
  - by eapply threads_event_inv.
  - injection Hs as <-. destruct Hinv. destruct (listener_step_same i p) as (E1 & E2 & _ & E4).
    split; rewrite ?E1, ?E2, ?E4; try done.
    unfold listener_step. repeat case_match; simpl; by rewrite ?length_insert.
  - injection Hs as <-. destruct Hinv. destruct (stats_step_same p) as (E1 & E2 & E3 & E4).
    split; rewrite ?E1, ?E2, ?E3, ?E4; done.
  - by eapply prom_step_inv.
  - injection Hs as <-. by apply notify_inv.
Qed.

Lemma process_run_inv n p es p' :
  process_inv n p → Forall process_event_ok es → prun p es = Ok p' → process_inv n p'.
Proof.
  intros Hp Hok Hr. rewrite Forall_forall in Hok.
  pose proof (foldM_ensures pstep (process_inv n) p es) as Hi.
  unfold process_run in Hr. rewrite Hr in Hi. apply Hi; [done|]. intros p1 e He Hp1.
  destruct (pstep p1 e) as [p2|] eqn:E; [|done]. eapply process_step_inv; eauto.
Qed.

Lemma process_run_app p es1 es2 p1 : prun p es1 = Ok p1 → prun p (es1 ++ es2) = prun p1 es2.
Proof. unfold process_run. rewrite foldM_app. by intros ->. Qed.
Lemma prun_cons p e es p1 : pstep p e = Ok p1 → prun p (e :: es) = prun p1 es.
Proof. intros E. unfold process_run. cbn [foldM]. by rewrite E. Qed.

(** ** After the exit flag is set *)

(** The steps of the threads of a list of events: those of [System] whatever the
    channel holds, and those of the others. *)
Definition step_of (t : Thread) (e : ProcessEvent (Request := Request)) : nat :=
  match e with
  | Threads ev => if bool_decide (thread_of ev = Some t) && negb (token_arm ev) then 1 else 0
  | _ => 0
  end.
Definition listener_step_of (i : nat) (e : ProcessEvent (Request := Request)) : nat :=
  match e with ListenerStep j => if decide (i = j) then 1 else 0 | _ => 0 end.
Definition stats_step_of (e : ProcessEvent (Request := Request)) : nat :=
  match e with StatsStep => 1 | _ => 0 end.
Definition prom_step_of (e : ProcessEvent (Request := Request)) : nat :=
  match e with PromStep _ _ => 1 | _ => 0 end.
Definition send_of (e : ProcessEvent (Request := Request)) : nat :=
  match e with Notify SendToken => 1 | _ => 0 end.
Definition count (f : ProcessEvent (Request := Request) → nat) es : nat := sum_list_with f es.

(** How many steps the other threads have left. *)
Definition listener_left (i : nat) p : nat :=
  match pr_listeners p !! i with Some l => if receiver_ended l then 0 else 1 | None => 0 end.
Definition stats_left p : nat := phase_left (pr_stats p).
(** With a token in the channel. *)
Definition prom_left p : nat :=
  match pr_prom p with PromPolling => 1 | PromEnded => 0 | _ => 2 end.

(** What one event leaves of the work of the threads once the flag is set. *)
Record winds_down p p' (e : ProcessEvent (Request := Request)) : Prop := {
  wp_exit : exit_flag (pr_shutdown p') = true;
  wp_threads t : (steps_left t (pr_sys p') ≤ steps_left t (pr_sys p) - step_of t e)%nat;
  wp_listener i : (listener_left i p' ≤ listener_left i p - listener_step_of i e)%nat;
  wp_stats : (stats_left p' ≤ stats_left p - stats_step_of e)%nat;
  wp_prom : tokens (pr_shutdown p) ≠ 0%nat ∨ pr_prom p = PromEnded →
    (prom_left p' ≤ prom_left p - prom_step_of e)%nat;
}.

Lemma winds_down_notify e p :
  exit_flag (pr_shutdown p) = true → winds_down p (notify e p) (Notify e).
Proof.
  intros He. split.
  - unfold notify. simpl. by apply shutdown_event_exit.
  - intros t. assert (steps_left t (pr_sys (notify e p)) = steps_left t (pr_sys p)) as ->;
      [|cbn; lia]. unfold notify. cbn [pr_sys with_threads]. case_match; [by destruct t|done].
  - intros i. unfold listener_left. simpl. lia.
  - unfold stats_left. simpl. lia.
  - intros _. unfold prom_left. simpl. lia.
Qed.

Lemma winds_down_listener i p :
  exit_flag (pr_shutdown p) = true → winds_down p (listener_step i p) (ListenerStep i).
Proof.
  intros He. destruct (listener_step_same i p) as (E1 & E2 & E3 & E4). split.
  - by rewrite E2.
  - intros t. rewrite E1. simpl. lia.
  - intros j. unfold listener_left, listener_step. rewrite He. cbn [listener_step_of].
    destruct (pr_listeners p !! i) as [l|] eqn:Hl.
    2:{ case_decide; [subst j; rewrite Hl; lia|lia]. }
    destruct (receiver_ended l) eqn:Hend.
    { case_decide; [subst j; rewrite Hl, Hend; lia|lia]. }
    simpl. case_decide; [subst j|by rewrite list_lookup_insert_ne by done; lia].
    rewrite list_lookup_insert_eq, receiver_exits by (by eapply lookup_lt_Some). lia.
  - unfold stats_left. rewrite E3. simpl. lia.
  - intros _. unfold prom_left. rewrite E4. simpl. lia.
Qed.

Lemma winds_down_stats p :
  exit_flag (pr_shutdown p) = true → winds_down p (stats_step p) StatsStep.
Proof.
  intros He. destruct (stats_step_same p) as (E1 & E2 & E3 & E4). split.
  - by rewrite E2.
  - intros t. rewrite E1. simpl. lia.
  - intros i. unfold listener_left. rewrite E3. simpl. lia.
  - unfold stats_left, stats_step.
    destruct (pr_stats p) eqn:Hst; simpl; rewrite ?He, ?Hst; simpl; lia.
  - intros _. unfold prom_left. rewrite E4. simpl. lia.
Qed.

Lemma winds_down_prom bound received p p' :
  exit_flag (pr_shutdown p) = true → prom_step encode bound received p = Ok p' →
  winds_down p p' (PromStep bound received).
Proof.
  intros He Hs. pose proof (process_step_refines p (PromStep bound received) p' Hs) as [Hch _].
  destruct (prom_step_spec _ _ _ _ Hs) as (E1 & E2 & E3 & Hp).
  split; unfold listener_left, stats_left; rewrite ?E1, ?E2, ?E3; simpl; try (intros; lia).
  - by apply (shutdown_steps_mono _ _ Hch).
  - intros Htok. unfold prom_left, try_recv_token in *.
    destruct (pr_prom p); [by destruct Hp as [_ ->]| |by destruct Hp as [_ ->]..].
    destruct Htok as [Htok|?]; [|done]. destruct (tokens _); [done|]. by destruct Hp as [_ ->].
Qed.

Lemma winds_down_threads n ev p p' :
  process_inv n p → exit_flag (pr_shutdown p) = true → event_ok good ev →
  threads_event reconstruct debug url port static retained ev p = Ok p' →
  winds_down p p' (Threads ev).
Proof.
  intros Hinv He Hok Hs. pose proof (process_step_refines p (Threads ev) p' Hs) as [Hch _].
  pose proof (pi_exit _ _ Hinv) as Hex. rewrite He in Hex.
  apply threads_event_spec in Hs as [[-> Harm]|(Hne & E & Hst & Hpr & Hl & Htok)].
  - split; try (intros; simpl; lia); [done|].
    intros t. simpl. destruct Harm as [-> | ->]; [rewrite andb_false_r; lia|simpl; lia].
  - destruct (exit_step good reconstruct debug url port static retained (pr_sys p) ev _
      Hoverflow Hpoison Htraces (pi_sys _ _ Hinv) Hex E) as [_ Hleft].
    split; unfold listener_left, stats_left, prom_left; rewrite ?Hst, ?Hpr, ?Hl;
      try (intros; simpl; lia).
    + by apply (shutdown_steps_mono _ _ Hch).
    + intros t. specialize (Hleft t). rewrite made_by_one in Hleft. simpl.
      case_decide; case_bool_decide; simpl; try done; repeat case_match; simpl; lia.
Qed.

Lemma exit_process_step n p e :
  process_inv n p → exit_flag (pr_shutdown p) = true → (∀ l, encode l ≠ None) →
  process_event_ok e →
  ∃ p', pstep p e = Ok p' ∧ winds_down p p' e.
Proof.
  intros Hinv He Henc Hok.
  assert (is_Some (match pstep p e with Ok p' => Some p' | Panicked _ => None end)) as [p' Hp'].
  { destruct e as [ev|i| |bound received|e]; simpl; try done.
    - unfold threads_event. destruct (if takes_token _ _ then _ else _) as [c|]; [|done].
      pose proof (sys_step_inv good reconstruct debug url port static retained (pr_sys p) ev
        Hoverflow Hpoison Htraces (pi_sys _ _ Hinv) Hok) as Hr.
      destruct (sstep (pr_sys p) ev) eqn:E; [|done]. by destruct ev.
    - destruct Hok as [-> Hrec]. unfold prom_step.
      destruct (pr_prom p); simpl; try done. unfold prom_respond.
      destruct received; [done..|]. destruct (encode _) eqn:E; [done|by apply Henc in E]. }
  destruct (pstep p e) as [p1|] eqn:E; [|done]. injection Hp' as ->. exists p'. split; [done|].
  destruct e as [ev|i| |bound received|e]; simpl in E.
  - by eapply winds_down_threads.
  - injection E as <-. by apply winds_down_listener.
  - injection E as <-. by apply winds_down_stats.
  - by eapply winds_down_prom.
  - injection E as <-. by apply winds_down_notify.
Qed.

Lemma exit_process_run n p es :
  process_inv n p → exit_flag (pr_shutdown p) = true → (∀ l, encode l ≠ None) →
  Forall process_event_ok es →
  ∃ p', prun p es = Ok p' ∧ process_inv n p' ∧ exit_flag (pr_shutdown p') = true ∧
    (∀ t, (steps_left t (pr_sys p') ≤ steps_left t (pr_sys p) - count (step_of t) es)%nat) ∧
    (∀ i, (listener_left i p' ≤ listener_left i p - count (listener_step_of i) es)%nat) ∧
    (stats_left p' ≤ stats_left p - count stats_step_of es)%nat.
Proof.
  intros Hinv He Henc Hok. revert p Hinv He.
  induction Hok as [|e es Hok _ IH]; intros p Hinv He.
  { exists p. unfold count. cbn [sum_list_with]. split_and!; try done; intros; lia. }
  destruct (exit_process_step n p e Hinv He Henc Hok) as (p1 & E & [He1 Ht1 Hl1 Hs1 _]).
  destruct (IH p1 (process_step_inv _ _ _ _ Hinv Hok E) He1) as (p' & E' & Hinv' & He' & Ht & Hl & Hs).
  exists p'. unfold count in *. cbn [sum_list_with].
  split_and!; [by rewrite (prun_cons _ _ _ _ E)|done|done| | |lia].
  - intros t. specialize (Ht t). specialize (Ht1 t). lia.
  - intros i. specialize (Hl i). specialize (Hl1 i). lia.
Qed.
(** After a signal, as many tokens have been sent as the signal thread has had
    the time for. *)
Lemma process_step_sends n p e p' k :
  process_inv n p → (0 < signals (pr_shutdown p))%nat → pstep p e = Ok p' →
  (Nat.min SHUTDOWN_TOKENS k ≤ tokens (pr_shutdown p) + taken (pr_shutdown p))%nat →
  (Nat.min SHUTDOWN_TOKENS (send_of e + k) ≤ tokens (pr_shutdown p') + taken (pr_shutdown p'))%nat.
Proof.
  intros Hinv Hsig E Hk.
  assert (tokens (pr_shutdown p) + taken (pr_shutdown p)
          ≤ tokens (pr_shutdown p') + taken (pr_shutdown p'))%nat as Hmono.
  { by apply process_step_refines in E as [(_ & _ & ?)%shutdown_steps_mono _]. }
  destruct (pi_channel _ _ Hinv) as (_ & _ & Hacc).
  destruct e as [| | | |[]]; cbn [send_of]; try lia.
  assert (pr_shutdown p' = shutdown_event SendToken (pr_shutdown p)) as -> by (by injection E as <-).
  unfold shutdown_event, SHUTDOWN_TOKENS in *. destruct (to_send (pr_shutdown p)) as [|m]; [lia|].
  case_decide; cbn [tokens taken]; lia.
Qed.

Lemma process_run_sends n p es p' k :
  process_inv n p → Forall process_event_ok es → (0 < signals (pr_shutdown p))%nat →
  prun p es = Ok p' →
  (Nat.min SHUTDOWN_TOKENS k ≤ tokens (pr_shutdown p) + taken (pr_shutdown p))%nat →
  (Nat.min SHUTDOWN_TOKENS (count send_of es + k)
   ≤ tokens (pr_shutdown p') + taken (pr_shutdown p'))%nat.
Proof.
  intros Hinv Hok. revert p k Hinv.
  induction Hok as [|e es Hok _ IH]; intros p k Hinv Hsig; [by intros [= <-]|].
  unfold process_run. cbn [foldM]. intros (p1 & E & Hr)%bind_Ok Hk.
  replace (count send_of (e :: es) + k)%nat with (count send_of es + (send_of e + k))%nat
    by (unfold count; cbn [sum_list_with]; lia).
  apply (IH p1); [by eapply process_step_inv| |done|by eapply process_step_sends].
  apply process_step_refines in E as [(_ & ? & _)%shutdown_steps_mono _]. lia.
Qed.

(** Once tokens for all have been sent, the Prometheus thread's next polling step
    is its last: while it runs, it is the one thread that has taken none. *)
Lemma prometheus_ends n p es :
  process_inv n p → exit_flag (pr_shutdown p) = true → (∀ l, encode l ≠ None) →
  Forall process_event_ok es → (n + 5 ≤ tokens (pr_shutdown p) + taken (pr_shutdown p))%nat →
  ∃ p', prun p es = Ok p' ∧ (prom_left p' ≤ prom_left p - count prom_step_of es)%nat.
Proof.
  intros Hinv He Henc Hok. revert p Hinv He.
  induction Hok as [|e es Hok _ IH]; intros p Hinv He Htok.
  { exists p. unfold count. cbn [sum_list_with]. split; [done|lia]. }
  destruct (exit_process_step n p e Hinv He Henc Hok) as (p1 & E & Hw).
  assert (tokens (pr_shutdown p) + taken (pr_shutdown p)
          ≤ tokens (pr_shutdown p1) + taken (pr_shutdown p1))%nat as Hmono.
  { by apply process_step_refines in E as [(_ & _ & ?)%shutdown_steps_mono _]. }
  destruct (IH p1 (process_step_inv _ _ _ _ Hinv Hok E) (wp_exit _ _ _ Hw)) as (p' & E' & Hp); [lia|].
  exists p'. split; [by rewrite (prun_cons _ _ _ _ E)|].
  assert (tokens (pr_shutdown p) ≠ 0%nat ∨ pr_prom p = PromEnded) as Hcase.
  { pose proof (pi_taken _ _ Hinv He) as Ht. case_decide; [by right|left; lia]. }
  pose proof (wp_prom _ _ _ Hw Hcase). unfold count in *. cbn [sum_list_with]. lia.
Qed.

(** ** After a panic *)

(** No token is in the channel, and none is on its way. *)
Definition channel_dry (c : Shutdown) : Prop :=
  tokens c = 0%nat ∧ to_send c = 0%nat ∧ hooks c = 0%nat.

Lemma dry_channel_stays p e p' :
  channel_dry (pr_shutdown p) → pr_prom p ≠ PromEnded → e ≠ Notify Signal → e ≠ Notify Panic →
  pstep p e = Ok p' → channel_dry (pr_shutdown p') ∧ pr_prom p' ≠ PromEnded.
Proof.
  intros Hdry Hp Hns Hnp Hs. pose proof Hdry as (Ht & Hx & Hh).
  destruct e as [ev|i| |bound received|[]]; simpl in Hs; try done.
  - apply threads_event_spec in Hs as [[-> _]|(_ & _ & _ & Hpr & _ & Htok)]; [done|].
    unfold try_recv_token in Htok. rewrite Ht in Htok. rewrite Hpr.
    destruct (takes_token ev (pr_sys p)); [done|by rewrite Htok].
  - injection Hs as <-. by destruct (listener_step_same i p) as (_ & -> & _ & ->).
  - injection Hs as <-. by destruct (stats_step_same p) as (_ & -> & _ & ->).
  - destruct (prom_step_spec _ _ _ _ Hs) as (_ & _ & _ & Htok).
    unfold try_recv_token in Htok. rewrite Ht in Htok.
    destruct (pr_prom p); try done; by destruct Htok as [-> ->].
  - injection Hs as <-. unfold notify, shutdown_event. by rewrite Hx.
  - injection Hs as <-. unfold notify, shutdown_event. by rewrite Hh.
Qed.

Lemma dry_channel_strands p es p' :
  channel_dry (pr_shutdown p) → pr_prom p ≠ PromEnded → Notify Signal ∉ es → Notify Panic ∉ es →
  prun p es = Ok p' → pr_prom p' ≠ PromEnded.
Proof.
  intros Hd Hp Hns Hnp Hr.
  pose proof (foldM_ensures pstep
    (λ p1, channel_dry (pr_shutdown p1) ∧ pr_prom p1 ≠ PromEnded) p es) as Hi.
  unfold process_run in Hr. rewrite Hr in Hi. apply Hi; [done|]. intros p1 e He [Hd1 Hp1].
  destruct (pstep p1 e) as [p2|] eqn:E; [|done].
  by apply (dry_channel_stays p1 e); try done; intros ->.
Qed.

(** The one token of a panic hook, and the waiting forwarder thread that takes it. *)
Lemma panic_token_taken p i f :
  shutdown_inv (pr_shutdown p) → exit_flag (pr_shutdown p) = false →
  sys_forwarders (pr_sys p) !! i = Some f → fwd_phase f = Waiting →
  ∃ p1, prun p [Notify Panic; Notify HookSend; Threads (ForwarderEvent i InShutdown)] = Ok p1 ∧
    channel_dry (pr_shutdown p1) ∧ pr_prom p1 = pr_prom p ∧ sys_exit (pr_sys p1) = true ∧
    fwd_phase <$> sys_forwarders (pr_sys p1) !! i = Some Ended.
Proof.
  intros (_ & Hz & _) He Hf Hr. specialize (Hz He).
  set (c := mkShutdown true 1 0 0 0 (signals (pr_shutdown p))).
  assert (prun p [Notify Panic; Notify HookSend] = Ok (with_threads (set_exit (pr_sys p)) c p)) as E.
  { unfold process_run. cbn [foldM process_step mbind outcome_bind]. unfold notify.
    cbn [shutdown_event exit_flag hooks tokens pr_shutdown with_threads]. f_equal. unfold c.
    destruct (pr_shutdown p) as [x t k h tk sg]; simpl in *.
    assert (t = 0 ∧ k = 0 ∧ h = 0 ∧ tk = 0)%nat as (-> & -> & -> & ->) by lia.
    rewrite decide_True by (unfold SHUTDOWN_TOKENS; lia). done. }
  assert (∃ s', sstep (set_exit (pr_sys p)) (ForwarderEvent i InShutdown) = Ok s' ∧
    sys_exit s' = true ∧ fwd_phase <$> sys_forwarders s' !! i = Some Ended) as (s' & Es & Hx & Hph).
  { cbn [sys_step]. change (sys_forwarders (set_exit (pr_sys p))) with (sys_forwarders (pr_sys p)).
    rewrite Hf. unfold forwarder_event, forwarder_receives. rewrite Hr. cbn.
    eexists. split; [done|]. split; [done|]. cbn.
    by rewrite list_lookup_insert_eq by (by eapply lookup_lt_Some). }
  exists (with_threads s' (mkShutdown true 0 0 0 1 (signals (pr_shutdown p))) p).
  pose proof (process_run_app p _ [Threads (ForwarderEvent i InShutdown)] _ E) as Ea.
  cbn [app] in Ea. rewrite Ea. split_and!; [|done..].
  unfold process_run. cbn [foldM process_step]. unfold threads_event.
  cbn [takes_token with_threads pr_sys pr_shutdown].
  change (sys_forwarders (set_exit (pr_sys p))) with (sys_forwarders (pr_sys p)).
  rewrite Hf, bool_decide_eq_true_2 by done. cbn [try_recv_token tokens c]. by rewrite Es.
Qed.

Lemma threads_ended_intro p :
  (∀ t, t ≠ ReconstructorT → steps_left t (pr_sys p) = 0%nat) →
  (∀ i, listener_left i p = 0%nat) → stats_left p = 0%nat → prom_left p = 0%nat →
  threads_ended p = true.
Proof.
  intros Ht Hl Hs Hp. unfold threads_ended.
  assert (∀ ph, phase_left ph = 0%nat → running ph = false) as Hph by (by intros []).
  pose proof (Ht RefreshT ltac:(done)) as H1'. pose proof (Ht AccessoryT ltac:(done)) as H2'.
  pose proof (Ht HeartbeatT ltac:(done)) as H3'. pose proof (Ht ServerT ltac:(done)) as H4'.
  simpl in H1', H2', H3', H4'. unfold sys_server, stats_left, prom_left in *.
  rewrite !andb_true_iff, !negb_true_iff, !bool_decide_eq_true.
  split_and!; try (by apply Hph).
  - apply forallb_forall. intros f [i Hf]%list_elem_of_In%list_elem_of_lookup.
    specialize (Ht (ForwarderT i) ltac:(done)). simpl in Ht. rewrite Hf in Ht.
    unfold fwd_running. by rewrite Hph.
  - apply forallb_forall. intros l [i Hi]%list_elem_of_In%list_elem_of_lookup.
    specialize (Hl i). unfold listener_left in Hl. rewrite Hi in Hl. by destruct (receiver_ended l).
  - destruct (acc_phase _); [done|by destruct (acc_reporting _)|done].
  - destruct (hb_pc _); [by destruct (sys_hb_waiting _)..|done].
  - by destruct (pr_prom p).
Qed.
End process.

Section theorems.
Context `{ShredLib} `{ForwardLib} `{BuildProfile} `{StreamerLib}.
Context `{!ShredLibLaws} `{!PacketLibLaws} `{!ForwardLaws} `{!StreamerLaws}.
Context (good : Shred → Prop) `{!GoodShreds good}.

(** C13: a signal ends [main].  Within the assumptions of C5, if the Prometheus
    thread binds its address and does not fail to receive or to encode, and if the
    [n + 5] threads that take a token, with [n] forwarder threads, are at most 256: in any
    state the process reaches after a SIGINT or SIGTERM, when the signal thread
    then sends a token for each thread that takes one, and every thread makes the
    steps it has left (at most three, two for the Prometheus thread once the
    tokens are sent, one for a listener, which ends when it sees the flag), nothing
    panics and every thread whose handle [main] joins,
    the listener threads included, has ended, whichever threads take the tokens,
    whatever a thread meets that is still waiting, and in whatever order. *)
Theorem signal_ends_main reconstruct debug discovery url port static retained
    {Request Scrape} (encode : Prom → option Scrape) ss n w addr
    (es0 es1 es2 : list (ProcessEvent (Request := Request))) p :
  overflow_checks = false → no_poison → traces_ok debug → (∀ l, encode l ≠ None) →
  Forall (process_event_ok good) (es0 ++ es1 ++ es2) →
  process_run reconstruct debug url port static retained encode
    (process_init reconstruct discovery static ss n w addr) es0 = Ok p →
  (0 < signals (pr_shutdown p))%nat → (n + 5 ≤ SHUTDOWN_TOKENS)%nat →
  (n + 5 ≤ count send_of es1)%nat → (2 ≤ count prom_step_of es2)%nat →
  (∀ t, t ≠ ReconstructorT → (steps_left t (pr_sys p) ≤ count (step_of t) (es1 ++ es2))%nat) →
  (∀ i, (i < n)%nat → (1 ≤ count (listener_step_of i) (es1 ++ es2))%nat) →
  (2 ≤ count stats_step_of (es1 ++ es2))%nat →
  ∃ p', process_run reconstruct debug url port static retained encode p (es1 ++ es2) = Ok p' ∧
        threads_ended p' = true.
Proof.
  intros Ho Hp Ht Henc [Hok0 Hok12]%Forall_app Hr Hsig Hn Hsend Hprom Hits Hlis Hstats.
  pose proof Hok12 as [Hok1 Hok2]%Forall_app.
  assert (process_inv url port static good n p) as Hinv.
  { eapply (process_run_inv reconstruct debug url port static retained encode good Ho Hp Ht);
      [by apply process_inv_init|exact Hok0|exact Hr]. }
  assert (exit_flag (pr_shutdown p) = true) as He.
  { destruct (exit_flag (pr_shutdown p)) eqn:E; [done|].
    destruct (pi_channel _ _ _ _ _ _ Hinv) as (_ & Hz & _). destruct (Hz E). lia. }
  destruct (exit_process_run reconstruct debug url port static retained encode good Ho Hp Ht n p
    (es1 ++ es2) Hinv He Henc Hok12) as (p' & E & Hinv' & He' & Hl & Hli & Hs).
  destruct (exit_process_run reconstruct debug url port static retained encode good Ho Hp Ht n p
    es1 Hinv He Henc Hok1) as (p1 & E1 & Hinv1 & He1 & _).
  pose proof (process_run_sends reconstruct debug url port static retained encode good Ho Hp Ht n p
    es1 p1 0 Hinv Hok1 Hsig E1 ltac:(lia)) as Htok.
  destruct (prometheus_ends reconstruct debug url port static retained encode good Ho Hp Ht n p1
    es2 Hinv1 He1 Henc Hok2) as (p2 & E2 & Hp2); [lia|].
  rewrite (process_run_app _ _ _ _ _ _ _ _ _ _ _ E1), E2 in E. injection E as ->.
  exists p'. rewrite (process_run_app _ _ _ _ _ _ _ _ _ _ _ E1). split; [done|].
  apply threads_ended_intro.
  - intros t Htt. specialize (Hl t). specialize (Hits t Htt). lia.
  - intros i. specialize (Hli i). assert (listener_left i p ≤ 1)%nat as H1'.
    { unfold listener_left. repeat case_match; lia. }
    destruct (decide (i < n)%nat) as [Hi|Hi]; [specialize (Hlis i Hi); lia|].
    unfold listener_left in *. rewrite (lookup_ge_None_2 (pr_listeners p')); [done|].
    rewrite (pi_listeners _ _ _ _ _ _ Hinv'). lia.
  - assert (stats_left p ≤ 2)%nat; [|lia]. unfold stats_left. destruct (pr_stats p); simpl; lia.
  - assert (prom_left p1 ≤ 2)%nat; [|lia]. unfold prom_left. destruct (pr_prom p1); lia.
Qed.

(** C14: a panic need not end a process that serves Prometheus metrics and that
    nothing has told to exit before: the panic hook sends one token; if a waiting forwarder thread takes it (it would
    have ended by the exit flag all the same), then, until a signal comes or
    something else panics, the Prometheus thread does not end, so [main] does not
    get through its joins, although the exit flag is set. *)
Theorem panic_strands_prometheus reconstruct debug discovery url port static retained
    {Request Scrape} (encode : Prom → option Scrape) ss n w addr
    (es0 : list (ProcessEvent (Request := Request))) p i f :
  process_run reconstruct debug url port static retained encode
    (process_init reconstruct discovery static ss n w addr) es0 = Ok p →
  exit_flag (pr_shutdown p) = false → pr_prom p ≠ PromEnded →
  sys_forwarders (pr_sys p) !! i = Some f → fwd_phase f = Waiting →
  ∃ p1, process_run reconstruct debug url port static retained encode p
          [Notify Panic; Notify HookSend; Threads (ForwarderEvent i InShutdown)] = Ok p1 ∧
    sys_exit (pr_sys p1) = true ∧ fwd_phase <$> sys_forwarders (pr_sys p1) !! i = Some Ended ∧
    ∀ es p2, Notify Signal ∉ es → Notify Panic ∉ es →
      process_run reconstruct debug url port static retained encode p1 es = Ok p2 →
      pr_prom p2 ≠ PromEnded ∧ threads_ended p2 = false.
Proof.
  intros Hr He Hp Hf Hrun.
  assert (shutdown_inv (pr_shutdown p)) as Hinv.
  { eapply shutdown_steps_inv; [eapply process_run_refines, Hr|]. unfold shutdown_inv. simpl. lia. }
  destruct (panic_token_taken reconstruct debug url port static retained encode p i f
    Hinv He Hf Hrun) as (p1 & E & Hd & Hp1 & Hx & Hph).
  exists p1. split; [done|]. split; [done|]. split; [done|]. intros es p2 Hns Hnp Hr2.
  assert (pr_prom p2 ≠ PromEnded) as Hp2 by (rewrite <-Hp1 in Hp; by eapply dry_channel_strands).
  split; [done|]. apply not_true_is_false. unfold threads_ended.
  rewrite !andb_true_iff, !bool_decide_eq_true. tauto.
Qed.
End theorems.

(** * Witnesses *)

#[local] Existing Instance release.

(** A listener is over or not. *)
#[local] Instance ToyStreamer : StreamerLib :=
  {| Listener := bool; receiver := false; receiver_step := orb; receiver_ended l := l |}.
#[local] Instance ToyStreamerLaws : StreamerLaws.
Proof. by split. Qed.

(** Two forwarder threads, a refresh thread and a Prometheus thread, whose
    responses are how many operations were recorded. *)
#[local] Abbreviation ToyProcess := (Process (Request := unit) (Scrape := nat)).
#[local] Abbreviation ToyEvents := (list (ProcessEvent (Request := unit))).
Definition toy_encode (l : Prom) : option nat := Some (length l).
Definition toy_process_run (p : ToyProcess) (es : ToyEvents) : outcome ToyProcess :=
  process_run (Request := unit) true false "url" 8001 [] 128 toy_encode p es.
Definition toy_process : ToyProcess :=
  process_init true true [] true 2 toy_world (Some (SocketAddrV4 0 9090)).
Definition process_result (o : outcome ToyProcess) : ToyProcess :=
  match o with Ok p => p | Panicked _ => toy_process end.
Lemma process_result_Ok o : is_ok o = true → o = Ok (process_result o).
Proof. by destruct o. Qed.

Definition toy_prom (received : HttpRecv unit) : ProcessEvent (Request := unit) :=
  PromStep (ROk tt) received.

(** The heartbeat thread is connected, a batch arrives, there is a scrape, the
    accessory thread has just reported, both forwarder threads wait, and a signal
    comes. *)
Definition toy_process_events : ToyEvents :=
  replicate 2 (Threads (HeartbeatEvent Connected SelMetrics)) ++ [toy_prom NoRequest] ++
  replicate 2 (Threads (ForwarderEvent 0 (InPackets (Some toy_batch)))) ++
  [toy_prom NoRequest; toy_prom (Got tt); Threads (ForwarderEvent 1 InShutdown);
   Threads (ForwarderEvent 1 InShutdown); Threads (ForwarderEvent 0 InRefreshTick);
   StatsStep; StatsStep; ListenerStep 0] ++
  replicate 2 (Threads (AccessoryEvent AccMetricsTick)) ++ [Notify Signal].
Definition toy_signalled : ToyProcess :=
  process_result (toy_process_run toy_process toy_process_events).

Lemma toy_signalled_runs : toy_process_run toy_process toy_process_events = Ok toy_signalled.
Proof. apply process_result_Ok. vm_compute. reflexivity. Qed.

(** Before the signal there is no token, so forwarder 1 goes on waiting. *)
Example toy_signalled_state :
  fwd_phase <$> sys_forwarders (pr_sys toy_signalled) = [Waiting; Waiting] ∧
  pr_shutdown toy_signalled = mkShutdown true 0 256 0 0 1 ∧ pr_reports toy_signalled = 1%nat ∧
  pr_scrapes toy_signalled = [(tt, length (fwd_prom (sys_shared (pr_sys toy_signalled))))] ∧
  pr_listeners toy_signalled = [false; false] ∧ threads_ended toy_signalled = false.
Proof. vm_compute. by split_and!. Qed.

(** Seven tokens are sent, some threads take theirs, forwarder 1 gets another
    batch, and all go on. *)
Definition toy_sending : ToyEvents :=
  replicate 3 (Notify SendToken) ++ [Threads (ForwarderEvent 0 InShutdown)] ++
  replicate 4 (Notify SendToken) ++ [Threads (ServerEvent true)].
Definition toy_ending : ToyEvents :=
  [Threads (HeartbeatEvent Connected SelShutdown)] ++
  (i ← [0; 1]%nat; replicate 2 (Threads (ForwarderEvent i (InPackets (Some toy_batch2)))) ++
                   [ListenerStep i]) ++
  [Threads (RefreshEv RefreshMetricsTick)] ++
  replicate 2 (Threads (AccessoryEvent AccDeduperTick)) ++
  replicate 2 (Threads (HeartbeatEvent Connected SelMetrics)) ++
  [StatsStep; StatsStep; Threads (ServerEvent false); toy_prom (Got tt); toy_prom NoRequest].

Lemma toy_process_ok :
  Forall (process_event_ok toy_good) (toy_process_events ++ toy_sending ++ toy_ending).
Proof.
  unfold toy_process_events, toy_sending, toy_ending. cbn [replicate app mbind list_bind].
  repeat (apply Forall_cons; split;
    [first [exact I|split; [reflexivity|discriminate]|apply toy_batch_good; vm_compute; reflexivity]|]).
  by apply Forall_nil.
Qed.

Lemma signal_ends_main_witness :
  ∃ p', toy_process_run toy_signalled (toy_sending ++ toy_ending) = Ok p' ∧ threads_ended p' = true.
Proof.
  apply (signal_ends_main toy_good true false true "url" 8001 [] 128 toy_encode true 2 toy_world
           (Some (SocketAddrV4 0 9090)) toy_process_events toy_sending toy_ending toy_signalled).
  - reflexivity.
  - exact toy_no_poison.
  - exact (toy_traces false).
  - intros l. discriminate.
  - exact toy_process_ok.
  - exact toy_signalled_runs.
  - vm_compute. lia.
  - vm_compute. lia.
  - vm_compute. lia.
  - vm_compute. lia.
  - intros [[|[|i]]| | | | |] Ht; try done; vm_compute; lia.
  - intros [|[|i]] Hi; [vm_compute; lia..|lia].
  - vm_compute. lia.
Defined.

(** Something panics while both forwarder threads wait. *)
Definition toy_unsignalled : ToyProcess :=
  process_result (toy_process_run toy_process (take 15 toy_process_events)).

Lemma panic_strands_prometheus_witness :
  ∃ p1, toy_process_run toy_unsignalled
          [Notify Panic; Notify HookSend; Threads (ForwarderEvent 1 InShutdown)] = Ok p1 ∧
    sys_exit (pr_sys p1) = true ∧
    ∀ p2, toy_process_run p1 toy_ending = Ok p2 → pr_prom p2 ≠ PromEnded ∧ threads_ended p2 = false.
Proof.
  destruct (panic_strands_prometheus true false true "url" 8001 [] 128 toy_encode true 2 toy_world
    (Some (SocketAddrV4 0 9090)) (take 15 toy_process_events) toy_unsignalled 1
    (mkForwarder [] Waiting)) as (p1 & E & Hx & _ & Hp).
  - apply process_result_Ok. vm_compute. reflexivity.
  - vm_compute. reflexivity.
  - vm_compute. discriminate.
  - vm_compute. reflexivity.
  - reflexivity.
  - exists p1. split; [exact E|]. split; [exact Hx|].
    intros p2. apply Hp; unfold toy_ending; cbn [replicate app mbind list_bind]; intros Hin;
      repeat (apply elem_of_cons in Hin as [Hin|Hin]; [discriminate Hin|]); by apply elem_of_nil in Hin.
Defined.
